(* ===== verification/_CoqProject ===== *)
-Q . S2P
Prelude.v
BTree.v
Proto.v
Vfs.v
Wal.v
Reader.v
SsTable.v
Storage.v
View.v
Recovery.v
Crash.v
Interrupt.v
Anomalies.v
Mvcc.v
MvccSpec.v
Engine.v
Ssi.v
Tx.v
Sm.v
SmSpec.v
Sequencer.v
Vsr.v
VsrSpec.v
VsrSafety.v
VsrProgress.v
VsrRuns.v
Catalog.v
Codec.v
Crypto.v
Expr.v
ExprSpec.v
Filter.v
Cache.v
Shard.v
VsrWire.v
Rows.v
RowQuery.v
RowSchema.v
RowApply.v
RowStore.v
RowsSpec.v
RowOps.v
RowIndex.v
RowRefs.v
RowQuerySpec.v
RowTxn.v
RowRuns.v
