(* ===== verification/Prelude.v ===== *)
(** KesselDB: a replicated, transactional storage engine, in Rocq.

    The program:

    A replica of KesselDB (src/crates/) executes a log of operations on a
    deterministic state machine (kessel-sm). The state machine stores its rows
    in an LSM engine with versioned keys, transactions and serializable
    snapshot isolation (kessel-storage), which sees its files through a small
    interface (kessel-io). Viewstamped Replication (kessel-vsr) orders the log
    across replicas. Records are laid out by the catalog (kessel-catalog),
    encoded by kessel-codec, checked and filtered by a bytecode machine
    (kessel-expr) and cached (kessel-cache); keys are spread over shards by
    rendezvous hashing (kessel-shard).

    The files:

    - [Prelude], [BTree], [Reader]: bytes, outcomes, the state-error monad,
      ordered maps and sets of the standard library, cursors over byte slices,
      UTF-8. Machine integers are [Z] with their wrap-around written out
      ([wrap32], [wrap64]); code that can panic returns an [outcome].
    - [Proto]: CRC-32C, splitmix64, operations (kessel-proto).
    - [Vfs]: the file-system interface, its laws, the in-memory file system
      with its crash, the fault injector (kessel-io).
    - [Wal], [SsTable], [Storage]: log, tables, manifest and the operations of
      [Storage]; [View]: the finite map the layers stand for; [Recovery],
      [Crash]: durability; [Interrupt]: a flush cut after any number of its
      file operations; [Anomalies]: histories that lose data (kessel-storage,
      lib.rs).
    - [Mvcc], [MvccSpec], [Engine]: versioned rows (mvcc.rs) and the dispatch
      of data-row keys; [Ssi]: the detector of ssi.rs; [Tx]: tx.rs.
    - [Sm], [SmSpec], [Sequencer]: the transactional and the sequencer arms of
      [StateMachine::apply] (kessel-sm).
    - [Rows], [RowQuery], [RowSchema], [RowApply]: the arms of
      [StateMachine::apply] on types, records, indexes and constraints; on
      queries and aggregates; on schema changes that drop or rename; and the
      operations, batches and [read_only_op] (kessel-sm).
    - [RowStore]: the engine as the record layer uses it; [RowsSpec], [RowOps],
      [RowIndex]: the invariant of indexes and cache, the operations that keep
      it and what they do to the rows, and the lookups; [RowRefs]: the record
      operations as a machine on rows, and references; [RowQuerySpec]: what the
      queries answer; [RowTxn]: batches and votes; [RowRuns]: logs with wrong
      answers.
    - [Vsr], [VsrSpec], [VsrSafety], [VsrProgress], [VsrRuns], [VsrWire]: the
      replica, its invariants, agreement, progress, two runs, and the message
      frames (kessel-vsr).
    - [Catalog], [Codec], [Crypto], [Expr], [ExprSpec], [Filter], [Cache],
      [Shard]: the crates of those names.

    Interfaces between components are type classes: [Vfs] with [VfsLaws]
    (engine and file system), [OrdKey] (ordered collections), [Machine]
    (replication and state machine), [OpCodec] (frames and operations).

    What the theorems show:

    - Storage: the engine refines an atomic map under writes, transactions,
      flushes and crashes; point and range reads compute the view; a flush
      without compaction that stops at any of its file operations loses
      nothing, nor does a power loss there, but for the moment between the
      write and the sync of the manifest; log, tables, manifest round-trip; replay
      keeps exactly the whole frames before a cut.
    - Versions and transactions: snapshot reads, scans, conflict checks and
      garbage collection against a reference meaning; every branch of commit;
      first committer wins; the detector computes the reference verdict; no
      two concurrent transactions of the window form a write skew, over logs
      whose numbers, the explicit commit numbers among them, increase.
    - State machine: CommitTx decides as [Tx::commit]; the watermark; the
      sequencer refines a list with a dedup map.
    - Replication: a replica executes the entries of its log that become
      committed, in order, each once; in view 0 of any
      cluster all logs and executions are prefixes of one sequence, and as long
      as the primary and a majority live some schedule commits a new request.
      The schedule is exhibited: a cluster whose messages are all lost for ever
      commits nothing, and the step relation does not exclude it.
    - Records: catalog, type definition, record and message codecs round-trip;
      decoding is total and typed, and fields do not overlap;
      programs that assign no field wider than 16 bytes end within the gas
      limit; LIKE has its declarative meaning; a
      compiled filter agrees with the interpreter, up to NULLs and to NE between
      an integer and bytes; the cache is an LRU list;
      adding a shard moves only the keys it owns.
    - Record operations: creating types and indexes, Create, Update, UpdateSet,
      Delete with its cascades and the reads return, keep the index entries
      equal to the values of the stored rows and the cache to the rows, and
      change the rows as an abstract machine says, for types whose ids and keys
      the index key format can hold and whose checks and triggers assign no
      wide field ([type_wf]), with no ordered index; no indexed foreign key of
      a row that is left behind a Delete refers to a row it deleted, unless it
      was set to its declared default; a Txn that fails restores the database,
      a vote writes nothing but itself.
    - Queries: FindBy, FindByComposite and Query return exactly the rows with
      the values (Query: with no equality on an indexed text column); the
      planner of QueryRows changes no answer for hints the program implies;
      aggregates and
      groups, dealt to parallel workers or not, are the count, sum, least and
      greatest value of the rows that pass, under the same [type_wf].
    - Limits: the theorems in [Anomalies], the last section of [SmSpec],
      [VsrRuns], [RowRuns], and the ends of [ExprSpec] and [Filter] execute the
      definitions on inputs where the code departs from its comments.

    Fuel:

    Loops that are not structural take fuel, and theorems show that it
    suffices or that the result does not depend on it: log replay and the
    frame scan, the length of the file (a frame takes at least 8 bytes);
    [bound_loop], the length of the key range; the interpreter, [GAS_LIMIT]
    steps ([programs_end]); the filter compiler, the length of the program;
    LIKE, the product of the two lengths; [cascade_collect], one more than the
    budget the source counts down ([cascade_ends]); [next_pow2_loop], 64 doublings of a
    64-bit number; [commit_target], the length of the log.

    Correspondences to know:

    [Crypto] computes the SHA-256 constants from their definition in the
    standard where the source has them as literals. A file handle is the name
    it was opened under. [HashMap]s that are never iterated are [gmap]s.
    Operations outside of the modelled arms are constructors of neither [Op]
    nor [DbOp]. The texts of errors are constructors of [Message]. The arms of
    [read_only_op] repeat those of [apply]; both are one definition here. A
    worker of a parallel aggregate is the fold of the rows dealt to it; when
    several workers fail, the error of the first in their order is reported,
    where in the source the producer may stop before a later one fails.

    Not modelled:

    The arms of [StateMachine::apply] for joins (long read-only plans over
    several types) and for external sources; the byte codec of the operations;
    SQL (kessel-sql), the gateways, the server, clients and fetchers (sockets
    and threads); kessel-parquet, kessel-objstore and
    kessel-wasm (optional features outside of the replicated path); the
    simulator and benchmarks. Memory is unbounded: [parse_manifest] does not
    abort on a count for which the source cannot allocate. Ordered indexes are modelled and not in the
    invariant: the theorems on records and queries are for types without one.
    The schema changes that drop or rename have no theorem but the runs in
    [RowRuns]: two of them leave the read cache stale. Agreement across view
    changes is not a theorem: [VsrRuns] has a run in which it fails. *)

From Stdlib Require Import ZArith Lia.
From stdpp Require Import base numbers list sorting gmap.

#[local] Open Scope Z_scope.

(** * Bytes and machine integers

    A byte is a [Z] in [0, 256); an unsigned [w]-bit integer is a [Z] in
    [0, 2^w), with the wrap-around of the release build written out where the
    source can reach it. *)

Abbreviation bytes := (list Z).

Definition byte_ok (b : Z) : Prop := 0 <= b < 256.
Definition bytes_ok (bs : bytes) : Prop := Forall byte_ok bs.

Definition u16_max : Z := 65535.
Definition u32_max : Z := 4294967295.
Definition u64_max : Z := 18446744073709551615.

Definition u16_ok (v : Z) : Prop := 0 <= v <= u16_max.
Definition u32_ok (v : Z) : Prop := 0 <= v <= u32_max.
Definition u64_ok (v : Z) : Prop := 0 <= v <= u64_max.
Definition u128_ok (v : Z) : Prop := 0 <= v < 2 ^ 128.

Definition wrap32 (v : Z) : Z := v mod 4294967296.
Definition wrap64 (v : Z) : Z := v mod 18446744073709551616.

(** [u64::saturating_add], [u64::saturating_sub]. *)
Definition sat_add64 (a b : Z) : Z := Z.min (a + b) u64_max.
Definition sat_sub64 (a b : Z) : Z := Z.max (a - b) 0.

Definition zlen {A} (l : list A) : Z := Z.of_nat (length l).

(** [to_le_bytes] and [from_le_bytes] at a width of [n] bytes; on a negative
    argument [le_bytes] is the two's complement representation. *)
Fixpoint le_bytes (n : nat) (v : Z) : bytes :=
  match n with
  | O => []
  | S n' => v mod 256 :: le_bytes n' (v / 256)
  end.

Fixpoint le_value (bs : bytes) : Z :=
  match bs with
  | [] => 0
  | b :: t => b + 256 * le_value t
  end.

Definition be_bytes (n : nat) (v : Z) : bytes := rev (le_bytes n v).
Definition be_value (bs : bytes) : Z := le_value (rev bs).

(** [slice::get(lo..hi)]: [None] when the range is not inside the slice. *)
Definition get_range {A} (p : list A) (lo hi : Z) : option (list A) :=
  if (0 <=? lo) && (lo <=? hi) && (hi <=? zlen p)
  then Some (take (Z.to_nat (hi - lo)) (drop (Z.to_nat lo) p))
  else None.

(** [slice::get(i)]. *)
Definition get_at {A} (p : list A) (i : Z) : option A :=
  if (0 <=? i) && (i <? zlen p) then p !! Z.to_nat i else None.

(** [vec.resize(n, 0)] followed by [copy_from_slice] at [off]: what [write_at]
    does to the backing buffer. *)
Definition splice (d : bytes) (off : Z) (buf : bytes) : bytes :=
  let d' := d ++ replicate (Z.to_nat (off + zlen buf - zlen d)) 0 in
  take (Z.to_nat off) d' ++ buf ++ drop (Z.to_nat (off + zlen buf)) d'.

(** * Outcomes of fallible code

    [Ret] is [Ok], [Err] an [io::Error] and [Panic] an unwinding panic (an
    index out of range, a failed [unwrap]). *)

Inductive io_error :=
  | InvalidData
  | NotFound
  | WriteFault.

Inductive outcome (A : Type) :=
  | Ret (a : A)
  | Err (e : io_error)
  | Panic.
Arguments Ret {A} a.
Arguments Err {A} e.
Arguments Panic {A}.

(** State-passing code that may fail: the state reached at the failure stays. *)
Definition M (S A : Type) : Type := S -> S * outcome A.

#[global] Instance M_ret {S} : MRet (M S) := fun A a s => (s, Ret a).
#[global] Instance M_bind {S} : MBind (M S) := fun A B k m s =>
  match m s with
  | (s', Ret a) => k a s'
  | (s', Err e) => (s', Err e)
  | (s', Panic) => (s', Panic)
  end.

Definition m_get {S} : M S S := fun s => (s, Ret s).
Definition m_put {S} (s : S) : M S unit := fun _ => (s, Ret tt).
Definition m_modify {S} (f : S -> S) : M S unit := fun s => (f s, Ret tt).
Definition m_lift {S A} (o : outcome A) : M S A := fun s => (s, o).

(** [opt?] in a function that panics or bails out on [None]. *)
Definition or_panic {A} (o : option A) : outcome A :=
  match o with Some a => Ret a | None => Panic end.

#[global] Instance outcome_ret : MRet outcome := fun A a => Ret a.
#[global] Instance outcome_bind : MBind outcome := fun A B k m =>
  match m with
  | Ret a => k a
  | Err e => Err e
  | Panic => Panic
  end.

(** The outcomes of a computation that are no panic. *)
Definition no_panic {A} (o : outcome A) : Prop :=
  match o with Panic => False | _ => True end.

(** * Tactics and hints *)

Create HintDb kessel.
Create Rewrite HintDb zlen.

(** Splits the boolean comparisons in hypotheses and goal into propositions. *)
Ltac zb :=
  repeat match goal with
    | H : andb _ _ = true |- _ => apply andb_true_iff in H; destruct H
    | H : andb _ _ = false |- _ => apply andb_false_iff in H
    | H : orb _ _ = true |- _ => apply orb_true_iff in H
    | H : orb _ _ = false |- _ => apply orb_false_iff in H; destruct H
    | H : negb _ = true |- _ => apply negb_true_iff in H
    | H : negb _ = false |- _ => apply negb_false_iff in H
    | H : (_ <=? _)%Z = true |- _ => apply Z.leb_le in H
    | H : (_ <=? _)%Z = false |- _ => apply Z.leb_gt in H
    | H : (_ <? _)%Z = true |- _ => apply Z.ltb_lt in H
    | H : (_ <? _)%Z = false |- _ => apply Z.ltb_ge in H
    | H : (_ =? _)%Z = true |- _ => apply Z.eqb_eq in H
    | H : (_ =? _)%Z = false |- _ => apply Z.eqb_neq in H
    end.

(** Case analysis on the scrutinee of the first [if] or [match] of the goal. *)
Ltac dcase :=
  match goal with
  | |- context [ if ?c then _ else _ ] => destruct c eqn:?
  | |- context [ match ?c with _ => _ end ] => destruct c eqn:?
  end.

Ltac dcase_in H :=
  match type of H with
  | context [ if ?c then _ else _ ] => destruct c eqn:?
  | context [ match ?c with _ => _ end ] => destruct c eqn:?
  end.

(** Unfolds the monadic binds without touching arithmetic. *)
Ltac ob := cbn [mbind option_bind mret option_ret outcome_bind outcome_ret M_bind M_ret fst snd].

(** Forces a branch of an [if] on a [Z] comparison decided by [lia]. *)
Ltac zif_true :=
  first [ rewrite (proj2 (Z.leb_le _ _)) by lia
        | rewrite (proj2 (Z.ltb_lt _ _)) by lia
        | rewrite (proj2 (Z.eqb_eq _ _)) by lia ].
Ltac zif_false :=
  first [ rewrite (proj2 (Z.leb_gt _ _)) by lia
        | rewrite (proj2 (Z.ltb_ge _ _)) by lia
        | rewrite (proj2 (Z.eqb_neq _ _)) by lia ].

(** * The monad *)

Section Monad.
Context {S A B : Type}.
Implicit Types (m : M S A) (k : A -> M S B).

Lemma M_bind_ret m k s s' a : m s = (s', Ret a) -> (m ≫= k) s = k a s'.
Proof. intros E. unfold mbind, M_bind. by rewrite E. Qed.

Lemma M_bind_err m k s s' e : m s = (s', Err e) -> (m ≫= k) s = (s', Err e).
Proof. intros E. unfold mbind, M_bind. by rewrite E. Qed.

Lemma M_bind_panic m k s s' : m s = (s', Panic) -> (m ≫= k) s = (s', Panic).
Proof. intros E. unfold mbind, M_bind. by rewrite E. Qed.
End Monad.

Lemma m_get_ret {S} (s : S) : m_get s = (s, Ret s).
Proof. reflexivity. Qed.

(** Closes range conditions on literal bytes and numbers. *)
Ltac lit :=
  unfold bytes_ok, byte_ok, u16_ok, u32_ok, u64_ok, u128_ok, u16_max, u32_max, u64_max, zlen;
  repeat constructor; simpl; lia.

(** Steps over a bind whose first computation is known to return. *)
Ltac mstep H := erewrite M_bind_ret by (exact H).

(** * Lemmas on lengths and slices *)

Lemma zlen_nonneg {A} (l : list A) : 0 <= zlen l.
Proof. unfold zlen. lia. Qed.

Lemma zlen_app {A} (l k : list A) : zlen (l ++ k) = zlen l + zlen k.
Proof. unfold zlen. rewrite length_app. lia. Qed.

Lemma zlen_cons {A} (x : A) l : zlen (x :: l) = 1 + zlen l.
Proof. unfold zlen. simpl. lia. Qed.

Lemma zlen_nil {A} : zlen (@nil A) = 0.
Proof. reflexivity. Qed.

Lemma zlen_0 {A} (l : list A) : zlen l = 0 -> l = [].
Proof. unfold zlen. destruct l; simpl; [done | lia]. Qed.

#[export] Hint Rewrite @zlen_app @zlen_cons @zlen_nil : zlen.

Lemma get_range_app {A} (a b c : list A) lo hi :
  lo = zlen a -> hi = zlen a + zlen b -> get_range (a ++ b ++ c) lo hi = Some b.
Proof.
  intros -> ->. unfold get_range.
  pose proof (zlen_nonneg a). pose proof (zlen_nonneg b). pose proof (zlen_nonneg c).
  rewrite !zlen_app. repeat zif_true. simpl. f_equal.
  replace (Z.to_nat (zlen a + zlen b - zlen a)) with (length b) by (unfold zlen; lia).
  replace (Z.to_nat (zlen a)) with (length a) by (unfold zlen; lia).
  by rewrite drop_app_length, take_app_length.
Qed.

Lemma get_range_app_r {A} (a b : list A) lo hi :
  lo = zlen a -> hi = zlen a + zlen b -> get_range (a ++ b) lo hi = Some b.
Proof. intros. rewrite <- (app_nil_r b) at 1. by apply get_range_app. Qed.

Lemma get_range_length {A} (p q : list A) lo hi :
  get_range p lo hi = Some q -> 0 <= lo <= hi /\ hi <= zlen p /\ zlen q = hi - lo.
Proof.
  unfold get_range. intros H. dcase_in H; [ | done]. injection H as <-. zb.
  unfold zlen in *. rewrite length_take, length_drop. lia.
Qed.

Lemma get_range_None {A} (p : list A) lo hi :
  0 <= lo <= hi -> zlen p < hi -> get_range p lo hi = None.
Proof. intros. unfold get_range. repeat zif_true. by zif_false. Qed.

Lemma get_at_app {A} (a : list A) x c i :
  i = zlen a -> get_at (a ++ x :: c) i = Some x.
Proof.
  intros ->. unfold get_at. pose proof (zlen_nonneg a). pose proof (zlen_nonneg c).
  rewrite zlen_app, zlen_cons. repeat zif_true. simpl.
  apply list_lookup_middle. unfold zlen. lia.
Qed.

Lemma get_at_0 {A} (x : A) c : get_at (x :: c) 0 = Some x.
Proof. by apply (get_at_app []). Qed.

Lemma bytes_ok_app a b : bytes_ok (a ++ b) <-> bytes_ok a /\ bytes_ok b.
Proof. apply Forall_app. Qed.

(** * Little- and big-endian integers *)

Lemma le_bytes_length n v : length (le_bytes n v) = n.
Proof. revert v. induction n; intros; simpl; auto. Qed.

Lemma le_bytes_zlen n v : zlen (le_bytes n v) = Z.of_nat n.
Proof. unfold zlen. by rewrite le_bytes_length. Qed.

#[export] Hint Rewrite @le_bytes_zlen : zlen.

Lemma le_bytes_ok n v : bytes_ok (le_bytes n v).
Proof.
  revert v. induction n; intros; simpl; constructor; [ | apply IHn].
  unfold byte_ok. apply Z.mod_pos_bound. lia.
Qed.

Lemma le_value_le_bytes n v : le_value (le_bytes n v) = v mod 256 ^ Z.of_nat n.
Proof.
  revert v. induction n; intros; simpl.
  - by rewrite Z.mod_1_r.
  - rewrite IHn. replace (Z.of_nat (S n)) with (Z.of_nat n + 1) by lia.
    rewrite Z.pow_add_r, Z.pow_1_r by lia.
    rewrite (Z.mul_comm (256 ^ _)), Z.rem_mul_r by lia. lia.
Qed.

Lemma le_value_le_bytes_small n v :
  0 <= v < 256 ^ Z.of_nat n -> le_value (le_bytes n v) = v.
Proof. intros. rewrite le_value_le_bytes. by apply Z.mod_small. Qed.

Lemma le_value_bound bs : bytes_ok bs -> 0 <= le_value bs < 256 ^ zlen bs.
Proof.
  induction 1 as [ | b t Hb Ht IH]; simpl; [by cbv | ].
  rewrite zlen_cons, Z.pow_add_r by (try apply zlen_nonneg; lia).
  unfold byte_ok in Hb. lia.
Qed.

Lemma le_bytes_le_value bs : bytes_ok bs -> le_bytes (length bs) (le_value bs) = bs.
Proof.
  induction 1 as [ | b t Hb Ht IH]; simpl; [done | ]. unfold byte_ok in Hb. f_equal.
  - rewrite Z.mul_comm, Z_mod_plus_full. by apply Z.mod_small.
  - rewrite Z.mul_comm, Z.div_add, Z.div_small by lia. by rewrite Z.add_0_l.
Qed.

Lemma be_value_be_bytes n v :
  0 <= v < 256 ^ Z.of_nat n -> be_value (be_bytes n v) = v.
Proof. intros. unfold be_value, be_bytes. rewrite rev_involutive. by apply le_value_le_bytes_small. Qed.

Lemma be_bytes_zlen n v : zlen (be_bytes n v) = Z.of_nat n.
Proof. unfold zlen, be_bytes. by rewrite length_rev, le_bytes_length. Qed.

#[export] Hint Rewrite @be_bytes_zlen : zlen.

Lemma be_bytes_length n v : length (be_bytes n v) = n.
Proof. unfold be_bytes. by rewrite length_rev, le_bytes_length. Qed.

Lemma be_bytes_S n v : be_bytes (S n) v = be_bytes n (v / 256) ++ [v mod 256].
Proof. reflexivity. Qed.

Lemma be_value_bound bs : bytes_ok bs -> 0 <= be_value bs < 256 ^ zlen bs.
Proof.
  intros Hb. unfold be_value. replace (zlen bs) with (zlen (rev bs)) by (unfold zlen; by rewrite length_rev).
  by apply le_value_bound, Forall_rev.
Qed.

Lemma be_bytes_be_value bs : bytes_ok bs -> be_bytes (length bs) (be_value bs) = bs.
Proof.
  intros Hb. unfold be_value, be_bytes. rewrite <- (length_rev bs), le_bytes_le_value by (by apply Forall_rev).
  apply rev_involutive.
Qed.

Lemma be_bytes_ok n v : bytes_ok (be_bytes n v).
Proof. unfold bytes_ok, be_bytes. apply Forall_rev, le_bytes_ok. Qed.

(** The numeric widths the formats use. *)
Lemma le_value_u16 v : u16_ok v -> le_value (le_bytes 2 v) = v.
Proof. unfold u16_ok, u16_max. intros. apply le_value_le_bytes_small. simpl. lia. Qed.
Lemma le_value_u32 v : u32_ok v -> le_value (le_bytes 4 v) = v.
Proof. unfold u32_ok, u32_max. intros. apply le_value_le_bytes_small. simpl. lia. Qed.
Lemma le_value_u64 v : u64_ok v -> le_value (le_bytes 8 v) = v.
Proof. unfold u64_ok, u64_max. intros. apply le_value_le_bytes_small. simpl. lia. Qed.
Lemma le_value_u128 v : u128_ok v -> le_value (le_bytes 16 v) = v.
Proof. unfold u128_ok. intros. apply le_value_le_bytes_small. simpl. lia. Qed.

#[export] Hint Resolve le_bytes_ok be_bytes_ok : kessel.

(** * Writing at an offset *)

Lemma splice_append d buf : splice d (zlen d) buf = d ++ buf.
Proof.
  unfold splice. pose proof (zlen_nonneg buf).
  rewrite take_app_le by (unfold zlen; lia).
  rewrite firstn_all2 by (unfold zlen; lia).
  rewrite drop_ge; [by rewrite app_nil_r | ].
  rewrite length_app, length_replicate. unfold zlen. lia.
Qed.

Lemma splice_overwrite d buf : zlen d <= zlen buf -> splice d 0 buf = buf.
Proof.
  intros. unfold splice. simpl. rewrite drop_ge; [by rewrite app_nil_r | ].
  rewrite length_app, length_replicate. unfold zlen in *. lia.
Qed.

Lemma splice_short d buf : zlen buf <= zlen d ->
  splice d 0 buf = buf ++ drop (length buf) d.
Proof.
  intros. unfold splice.
  replace (Z.to_nat (0 + zlen buf - zlen d)) with 0%nat by lia.
  simpl. rewrite app_nil_r. do 2 f_equal. unfold zlen. lia.
Qed.

#[global] Opaque le_bytes le_value.
#[global] Arguments zlen : simpl never.
