(* ===== verification/BTree.v ===== *)
(** Ordered keys and the standard library's ordered collections.

    [BTreeMap] and [BTreeSet] are finite maps and sets whose iteration order
    is the key order. The model keeps the contents in stdpp's [gmap] (two maps
    with the same lookups are equal) and gives the iteration order by
    [bt_list], the strictly sorted list of the entries; range queries, first
    and last entries and [split_off] are defined from it. *)

From Stdlib Require Import ZArith Lia.
From stdpp Require Import base numbers list sorting gmap.
From S2P Require Import Prelude.

#[local] Open Scope Z_scope.

(** * Total orders by comparison ([Ord::cmp]) *)

Class OrdKey (K : Type) := {
  kcmp : K -> K -> comparison;
  kcmp_eq x y : kcmp x y = Eq <-> x = y;
  kcmp_opp x y : kcmp y x = CompOpp (kcmp x y);
  kcmp_trans x y z : kcmp x y = Lt -> kcmp y z = Lt -> kcmp x z = Lt
}.

Section Order.
Context {K : Type} `{OrdKey K}.

Definition klt (x y : K) : Prop := kcmp x y = Lt.
Definition kle (x y : K) : Prop := kcmp x y <> Gt.

Definition kltb (x y : K) : bool := match kcmp x y with Lt => true | _ => false end.
Definition kleb (x y : K) : bool := match kcmp x y with Gt => false | _ => true end.

#[global] Instance klt_dec x y : Decision (klt x y).
Proof. unfold klt. solve_decision. Defined.
#[global] Instance kle_dec x y : Decision (kle x y).
Proof. unfold kle. apply _. Defined.

#[local] Ltac cmp_solve := simpl; intuition congruence.

Lemma kcmp_refl x : kcmp x x = Eq.
Proof. by apply kcmp_eq. Qed.

Lemma kltb_iff x y : kltb x y = true <-> klt x y.
Proof. unfold kltb, klt. destruct (kcmp x y); cmp_solve. Qed.
Lemma kleb_iff x y : kleb x y = true <-> kle x y.
Proof. unfold kleb, kle. destruct (kcmp x y); cmp_solve. Qed.
Lemma kltb_false x y : kltb x y = false <-> kle y x.
Proof. unfold kltb, kle. rewrite (kcmp_opp x y). destruct (kcmp x y); cmp_solve. Qed.
Lemma kleb_false x y : kleb x y = false <-> klt y x.
Proof. unfold kleb, klt. rewrite (kcmp_opp x y). destruct (kcmp x y); cmp_solve. Qed.

Lemma klt_irrefl x : ~ klt x x.
Proof. unfold klt. by rewrite kcmp_refl. Qed.
Lemma klt_trans x y z : klt x y -> klt y z -> klt x z.
Proof. apply kcmp_trans. Qed.
Lemma klt_kle x y : klt x y -> kle x y.
Proof. unfold klt, kle. congruence. Qed.
Lemma kle_lteq x y : kle x y <-> klt x y \/ x = y.
Proof. unfold klt, kle. rewrite <- kcmp_eq. destruct (kcmp x y); cmp_solve. Qed.
Lemma kle_refl x : kle x x.
Proof. apply kle_lteq. auto. Qed.
Lemma not_klt x y : ~ klt x y <-> kle y x.
Proof. unfold klt, kle. rewrite (kcmp_opp x y). destruct (kcmp x y); cmp_solve. Qed.
Lemma not_kle x y : ~ kle x y <-> klt y x.
Proof. unfold klt, kle. rewrite (kcmp_opp y x). destruct (kcmp y x); cmp_solve. Qed.
Lemma klt_kle_trans x y z : klt x y -> kle y z -> klt x z.
Proof. rewrite kle_lteq. intros ? [ | ->]; eauto using klt_trans. Qed.
Lemma kle_klt_trans x y z : kle x y -> klt y z -> klt x z.
Proof. rewrite kle_lteq. intros [ | ->] ?; eauto using klt_trans. Qed.
Lemma kle_trans x y z : kle x y -> kle y z -> kle x z.
Proof. rewrite !kle_lteq. intros [ | ->] [ | ->]; eauto using klt_trans. Qed.
Lemma kle_antisym x y : kle x y -> kle y x -> x = y.
Proof.
  rewrite !kle_lteq. intros [Hl | ?] [Hr | ?]; auto.
  destruct (klt_irrefl x (klt_trans _ _ _ Hl Hr)).
Qed.
Lemma kle_total x y : kle x y \/ kle y x.
Proof.
  destruct (decide (klt x y)) as [Hl | Hn]; [left; by apply klt_kle | right].
  by apply not_klt.
Qed.
Lemma klt_ne x y : klt x y -> x <> y.
Proof. intros Hlt ->. by apply klt_irrefl in Hlt. Qed.
End Order.

#[export] Hint Resolve kle_refl klt_kle : kessel.

(** Turns the boolean comparisons of hypotheses into the order relations. *)
Ltac kb :=
  repeat match goal with
    | H : kltb _ _ = true |- _ => apply kltb_iff in H
    | H : kltb _ _ = false |- _ => apply kltb_false in H
    | H : kleb _ _ = true |- _ => apply kleb_iff in H
    | H : kleb _ _ = false |- _ => apply kleb_false in H
    end.

(** ** Instances *)

#[global] Program Instance Z_OrdKey : OrdKey Z := {| kcmp := Z.compare |}.
Next Obligation. intros. apply Z.compare_eq_iff. Qed.
Next Obligation. intros. apply Z.compare_antisym. Qed.
Next Obligation. intros x y z. rewrite !Z.compare_lt_iff. lia. Qed.

(** Tuples compare left to right. *)
Definition pair_cmp {A B} `{OrdKey A} `{OrdKey B} (x y : A * B) : comparison :=
  match kcmp x.1 y.1 with Eq => kcmp x.2 y.2 | c => c end.

#[global] Program Instance prod_OrdKey {A B} `{OrdKey A} `{OrdKey B} : OrdKey (A * B) :=
  {| kcmp := pair_cmp |}.
Next Obligation.
  intros A B ?? [a b] [a' b']. unfold pair_cmp. simpl. destruct (kcmp a a') eqn:E.
  - apply kcmp_eq in E as ->. rewrite kcmp_eq. split; congruence.
  - split; [done | intros [= -> ->]; by rewrite kcmp_refl in E].
  - split; [done | intros [= -> ->]; by rewrite kcmp_refl in E].
Qed.
Next Obligation.
  intros A B ?? [a b] [a' b']. unfold pair_cmp. simpl.
  rewrite (kcmp_opp a a'). destruct (kcmp a a'); simpl; auto. apply kcmp_opp.
Qed.
Next Obligation.
  intros A B ?? [a b] [a' b'] [a2 b2]. unfold pair_cmp. simpl.
  destruct (kcmp a a') eqn:E1, (kcmp a' a2) eqn:E2; try done;
    repeat match goal with H : kcmp _ _ = Eq |- _ => apply kcmp_eq in H; subst end;
    rewrite ?kcmp_refl, ?E1, ?E2, ?(kcmp_trans _ _ _ E1 E2); eauto using kcmp_trans.
Qed.

(** Slices and vectors compare lexicographically, a proper prefix first. *)
Fixpoint list_cmp {A} `{OrdKey A} (x y : list A) : comparison :=
  match x, y with
  | [], [] => Eq
  | [], _ :: _ => Lt
  | _ :: _, [] => Gt
  | a :: x', b :: y' => match kcmp a b with Eq => list_cmp x' y' | c => c end
  end.

#[global] Program Instance list_OrdKey {A} `{OrdKey A} : OrdKey (list A) :=
  {| kcmp := list_cmp |}.
Next Obligation.
  intros A ? x. induction x as [ | a x IH]; intros [ | b y]; simpl; try done.
  destruct (kcmp a b) eqn:E.
  - apply kcmp_eq in E as ->. rewrite IH. split; congruence.
  - split; [done | intros [= -> ->]; by rewrite kcmp_refl in E].
  - split; [done | intros [= -> ->]; by rewrite kcmp_refl in E].
Qed.
Next Obligation.
  intros A ? x. induction x as [ | a x IH]; intros [ | b y]; simpl; auto.
  rewrite (kcmp_opp a b). destruct (kcmp a b); simpl; auto.
Qed.
Next Obligation.
  intros A ? x. induction x as [ | a x IH]; intros [ | b y] [ | c z]; simpl; try done.
  destruct (kcmp a b) eqn:E1, (kcmp b c) eqn:E2; try done;
    repeat match goal with H : kcmp _ _ = Eq |- _ => apply kcmp_eq in H; subst end;
    rewrite ?kcmp_refl, ?E1, ?E2, ?(kcmp_trans _ _ _ E1 E2); eauto.
Qed.

Lemma klt_Z (x y : Z) : klt x y <-> x < y.
Proof. apply Z.compare_lt_iff. Qed.
Lemma kle_Z (x y : Z) : kle x y <-> x <= y.
Proof. unfold kle. simpl. apply Z.compare_le_iff. Qed.

Lemma list_cmp_app {A} `{OrdKey A} (p x y : list A) :
  list_cmp (p ++ x) (p ++ y) = list_cmp x y.
Proof. induction p; simpl; [done | by rewrite kcmp_refl]. Qed.

(** Lexicographic order decided by a first part of equal length. *)
Lemma list_cmp_app_len {A} `{OrdKey A} (p q x y : list A) :
  length p = length q -> p <> q -> list_cmp (p ++ x) (q ++ y) = list_cmp p q.
Proof.
  revert q. induction p as [ | a p IH]; intros [ | b q]; simpl; try done.
  intros [= Hl] Hne. destruct (kcmp a b) eqn:E; try done.
  apply kcmp_eq in E as ->. apply IH; congruence.
Qed.

(** * Ordered maps *)

Section BTreeMap.
Context {K : Type} `{OrdKey K} `{Countable K} {V : Type}.
Implicit Types m : gmap K V.
Implicit Types l : list (K * V).

Definition key_le (a b : K * V) : Prop := kle a.1 b.1.
Definition key_lt (a b : K * V) : Prop := klt a.1 b.1.

#[global] Instance key_le_dec a b : Decision (key_le a b).
Proof. unfold key_le. apply _. Defined.

(** Iteration order: ascending by key. *)
Definition bt_list m : list (K * V) := merge_sort key_le (map_to_list m).

(** [range(lo..=hi)]. *)
Definition in_range (lo hi k : K) : bool := kleb lo k && kleb k hi.
Definition bt_range (lo hi : K) m : list (K * V) :=
  filter (fun kv => in_range lo hi kv.1) (bt_list m).

(** [range(lo..hi)]. *)
Definition bt_range_excl (lo hi : K) m : list (K * V) :=
  filter (fun kv => kleb lo kv.1 && kltb kv.1 hi) (bt_list m).

(** The first and the last entry. *)
Definition bt_first m : option (K * V) := head (bt_list m).
Definition bt_last m : option (K * V) := last (bt_list m).

(** [split_off(&k)] keeps the keys from [k] on. *)
Definition bt_split_off (k : K) m : gmap K V := filter (fun kv => kleb k kv.1) m.

Definition ssorted l : Prop := StronglySorted key_lt l.

#[global] Instance key_le_total : Total key_le.
Proof. intros a b. unfold key_le. apply kle_total. Qed.
#[global] Instance key_le_trans : Transitive key_le.
Proof. intros a b c. unfold key_le. apply kle_trans. Qed.
#[local] Instance key_lt_antisymm : AntiSymm (=) key_lt.
Proof.
  intros a b Hab Hba. unfold key_lt in *.
  destruct (klt_irrefl a.1). eapply klt_trans; eauto.
Qed.

Lemma bt_list_perm m : bt_list m ≡ₚ map_to_list m.
Proof. apply merge_sort_Permutation. Qed.

Lemma bt_list_elem m k v : (k, v) ∈ bt_list m <-> m !! k = Some v.
Proof. rewrite bt_list_perm. apply elem_of_map_to_list. Qed.

Lemma bt_list_NoDup m : NoDup (bt_list m).*1.
Proof. rewrite bt_list_perm. apply NoDup_fst_map_to_list. Qed.

Lemma ssorted_of_NoDup l : StronglySorted key_le l -> NoDup l.*1 -> ssorted l.
Proof.
  induction 1 as [ | a l Hs IH Hf]; intros Hnd; [constructor | ].
  rewrite fmap_cons in Hnd. apply NoDup_cons in Hnd as [Hni Hnd].
  constructor; [by apply IH | ]. rewrite Forall_forall in *. intros b Hb.
  specialize (Hf b Hb). unfold key_le, key_lt in *. apply kle_lteq in Hf as [ | Heq]; [done | ].
  exfalso. apply Hni. rewrite Heq. apply list_elem_of_fmap. eauto.
Qed.

Lemma bt_list_sorted m : ssorted (bt_list m).
Proof.
  apply ssorted_of_NoDup; [ | apply bt_list_NoDup].
  apply StronglySorted_merge_sort; apply _.
Qed.

Lemma ssorted_unique l1 l2 : ssorted l1 -> ssorted l2 -> l1 ≡ₚ l2 -> l1 = l2.
Proof. apply StronglySorted_unique. apply _. Qed.

Lemma ssorted_NoDup l : ssorted l -> NoDup l.*1.
Proof.
  induction 1 as [ | a l Hs IH Hf]; [constructor | ].
  rewrite fmap_cons. constructor; [ | done].
  rewrite list_elem_of_fmap. intros (b & Heq & Hb). rewrite Forall_forall in Hf.
  specialize (Hf b Hb). unfold key_lt in Hf. rewrite Heq in Hf. by apply klt_irrefl in Hf.
Qed.

Lemma bt_list_of_list l : ssorted l -> bt_list (list_to_map l) = l.
Proof.
  intros Hs. apply ssorted_unique; [apply bt_list_sorted | done | ].
  rewrite bt_list_perm. apply map_to_list_to_map. by apply ssorted_NoDup.
Qed.

Lemma bt_list_to_map m : list_to_map (bt_list m) = m.
Proof.
  rewrite (list_to_map_proper _ (map_to_list m) (bt_list_NoDup m) (bt_list_perm m)).
  apply list_to_map_to_list.
Qed.

Lemma bt_list_length m : length (bt_list m) = size m.
Proof. rewrite bt_list_perm. apply length_map_to_list. Qed.

Lemma bt_list_nil m : bt_list m = [] <-> m = ∅.
Proof.
  split; [ | intros ->; reflexivity]. intros Hn. apply map_empty. intros k.
  destruct (m !! k) as [v | ] eqn:E; [ | done]. apply bt_list_elem in E.
  rewrite Hn in E. by apply elem_of_nil in E.
Qed.

Lemma ssorted_filter (P : K * V -> Prop) `{!forall x, Decision (P x)} l :
  ssorted l -> ssorted (filter P l).
Proof.
  induction 1 as [ | a l Hs IH Hf]; [constructor | ].
  rewrite filter_cons. case_decide; [ | done]. constructor; [done | ].
  rewrite Forall_forall in *. intros b Hb.
  apply list_elem_of_filter in Hb as [_ Hb]. by apply Hf.
Qed.

Lemma bt_range_elem lo hi m k v :
  (k, v) ∈ bt_range lo hi m <-> m !! k = Some v /\ kle lo k /\ kle k hi.
Proof.
  unfold bt_range, in_range. rewrite list_elem_of_filter, bt_list_elem. simpl.
  rewrite Is_true_true, andb_true_iff, !kleb_iff. tauto.
Qed.

Lemma bt_range_sorted lo hi m : ssorted (bt_range lo hi m).
Proof. apply ssorted_filter, bt_list_sorted. Qed.

Lemma bt_range_excl_elem lo hi m k v :
  (k, v) ∈ bt_range_excl lo hi m <-> m !! k = Some v /\ kle lo k /\ klt k hi.
Proof.
  unfold bt_range_excl. rewrite list_elem_of_filter, bt_list_elem. simpl.
  rewrite Is_true_true, andb_true_iff, kleb_iff, kltb_iff. tauto.
Qed.

Lemma bt_range_excl_sorted lo hi m : ssorted (bt_range_excl lo hi m).
Proof. apply ssorted_filter, bt_list_sorted. Qed.

Lemma ssorted_ext l1 l2 :
  ssorted l1 -> ssorted l2 -> (forall x, x ∈ l1 <-> x ∈ l2) -> l1 = l2.
Proof.
  intros H1 H2 Hel. apply ssorted_unique; [done | done | ]. apply NoDup_Permutation; [ | | done];
    by eapply NoDup_fmap_1, ssorted_NoDup.
Qed.

Lemma bt_range_excl_NoDup lo hi m : NoDup (bt_range_excl lo hi m).*1.
Proof. apply ssorted_NoDup, bt_range_excl_sorted. Qed.

Lemma lookup_bt_split_off k m j :
  bt_split_off k m !! j = if decide (kle k j) then m !! j else None.
Proof.
  unfold bt_split_off. destruct (decide (kle k j)) as [Hle | Hlt].
  - destruct (m !! j) as [v | ] eqn:E.
    + apply map_lookup_filter_Some. split; [done | ]. simpl. by rewrite Is_true_true, kleb_iff.
    + apply map_lookup_filter_None. by left.
  - apply map_lookup_filter_None. right. intros v _. simpl.
    by rewrite Is_true_true, kleb_iff.
Qed.

(** A half-open range does not see what is split off below it. *)
Lemma bt_range_excl_split_off lo hi k m :
  kle k lo -> bt_range_excl lo hi (bt_split_off k m) = bt_range_excl lo hi m.
Proof.
  intros Hk. apply ssorted_ext; [apply bt_range_excl_sorted.. | ]. intros [j v].
  rewrite !bt_range_excl_elem, lookup_bt_split_off.
  split; intros (Hv & Hlo & Hhi); (split; [ | done]).
  - by destruct (decide (kle k j)).
  - rewrite decide_True by (by eapply kle_trans). done.
Qed.

Lemma bt_first_None m : bt_first m = None <-> m = ∅.
Proof. unfold bt_first. rewrite <- bt_list_nil. destruct (bt_list m); simpl; naive_solver. Qed.

(** The first entry is the entry of the smallest key. *)
Lemma bt_first_Some m k v :
  bt_first m = Some (k, v) <-> m !! k = Some v /\ forall k' v', m !! k' = Some v' -> kle k k'.
Proof.
  unfold bt_first. pose proof (bt_list_sorted m) as Hs.
  assert (forall k v, m !! k = Some v <-> (k, v) ∈ bt_list m) as Hel
    by (intros; symmetry; apply bt_list_elem).
  setoid_rewrite Hel. clear Hel. destruct (bt_list m) as [ | [k0 v0] l]; simpl.
  - split; [done | ]. intros [Hk _]. by apply elem_of_nil in Hk.
  - inversion Hs as [ | ?? Hs' Hf]; subst. rewrite Forall_forall in Hf. split.
    + intros [= -> ->]. split; [apply list_elem_of_here | ]. intros k' v' Hin.
      apply elem_of_cons in Hin as [[= -> ->] | Hin]; [apply kle_refl | ].
      apply klt_kle. by apply (Hf (k', v')).
    + intros [Hin Hmin]. apply elem_of_cons in Hin as [[= -> ->] | Hin]; [done | ].
      exfalso. specialize (Hf _ Hin). unfold key_lt in Hf. simpl in Hf.
      destruct (klt_irrefl k0). eapply klt_kle_trans; [exact Hf | ].
      apply (Hmin k0 v0), list_elem_of_here.
Qed.
End BTreeMap.

Arguments bt_list {K _ _ _ V} m.
Arguments bt_range {K _ _ _ V} lo hi m.
Arguments bt_range_excl {K _ _ _ V} lo hi m.
Arguments bt_first {K _ _ _ V} m.
Arguments bt_last {K _ _ _ V} m.
Arguments bt_split_off {K _ _ _ V} k m.
Arguments ssorted {K _ V} l.

(** * Ordered sets *)

Section BTreeSet.
Context {K : Type} `{OrdKey K} `{Countable K}.

(** Ascending iteration over a [BTreeSet]. *)
Definition bs_list (s : gset K) : list K := merge_sort kle (elements s).

#[global] Instance kle_total_inst : Total (kle (K:=K)).
Proof. intros a b. apply kle_total. Qed.
#[global] Instance kle_trans_inst : Transitive (kle (K:=K)).
Proof. intros a b c. apply kle_trans. Qed.

Lemma bs_list_elem s k : k ∈ bs_list s <-> k ∈ s.
Proof. unfold bs_list. rewrite merge_sort_Permutation. apply elem_of_elements. Qed.

Lemma kle_sorted_NoDup (l : list K) : StronglySorted kle l -> NoDup l -> StronglySorted klt l.
Proof.
  induction 1 as [ | a l Hs IH Hf]; intros Hn; [constructor | ].
  apply NoDup_cons in Hn as [Hni Hn]. constructor; [by apply IH | ].
  rewrite Forall_forall in *. intros b Hb. specialize (Hf b Hb).
  apply kle_lteq in Hf as [ | ->]; [done | contradiction].
Qed.

Lemma klt_sorted_NoDup (l : list K) : StronglySorted klt l -> NoDup l.
Proof.
  induction 1 as [ | a l Hs IH Hf]; constructor; [ | done]. intros Ha. rewrite Forall_forall in Hf.
  by apply (klt_irrefl a), Hf.
Qed.

Lemma bs_list_sorted s : StronglySorted klt (bs_list s).
Proof.
  apply kle_sorted_NoDup; [apply StronglySorted_merge_sort; apply _ | ].
  unfold bs_list. rewrite merge_sort_Permutation. apply NoDup_elements.
Qed.
End BTreeSet.
