(* ===== verification/Proto.v ===== *)
(** kessel-proto: the CRC-32C checksum every durable format and the shard map
    use, and the splitmix64 generator of the simulator.

    Source: src/crates/kessel-proto/src/lib.rs (module [codec], [Rng]). *)

From Stdlib Require Import ZArith Lia.
From stdpp Require Import base numbers list.
From S2P Require Import Prelude.

#[local] Open Scope Z_scope.

(** * CRC-32C *)

Definition CRC32C_POLY : Z := 0x82F63B78.

(** [u32::wrapping_neg]. *)
Definition wrapping_neg32 (v : Z) : Z := wrap32 (- v).

Definition crc_bit (crc : Z) : Z :=
  Z.lxor (Z.shiftr crc 1) (Z.land CRC32C_POLY (wrapping_neg32 (Z.land crc 1))).

Definition crc_bits (crc : Z) : Z := Nat.iter 8 crc_bit crc.

Definition crc_byte (crc byte : Z) : Z := crc_bits (Z.lxor crc byte).

(** [!crc] on a [u32]. *)
Definition crc32c (data : bytes) : Z :=
  Z.lxor (fold_left crc_byte data u32_max) u32_max.

(** * Rng: splitmix64 *)

Record Rng := { rng_state : Z }.

Definition rng_new (seed : Z) : Rng := {| rng_state := seed |}.

Definition next_u64 (r : Rng) : Z * Rng :=
  let state := wrap64 (rng_state r + 0x9E3779B97F4A7C15) in
  let z := wrap64 (Z.lxor state (Z.shiftr state 30) * 0xBF58476D1CE4E5B9) in
  let z := wrap64 (Z.lxor z (Z.shiftr z 27) * 0x94D049BB133111EB) in
  (Z.lxor z (Z.shiftr z 31), {| rng_state := state |}).

Definition below (r : Rng) (n : Z) : Z * Rng :=
  if n =? 0 then (0, r)
  else let '(v, r') := next_u64 r in (v mod n, r').

(** * Properties *)

Definition w32 (v : Z) : Prop := 0 <= v < 2 ^ 32.

Lemma w32_testbit v i : w32 v -> 32 <= i -> Z.testbit v i = false.
Proof.
  intros Hv Hi. unfold w32 in Hv. destruct (Z.eq_dec v 0) as [-> | Hne]; [apply Z.bits_0 | ].
  apply Z.bits_above_log2; [lia | ].
  assert (Z.log2 v < 32) by (apply Z.log2_lt_pow2; lia). lia.
Qed.

Lemma testbit_w32 v : 0 <= v -> (forall i, 32 <= i -> Z.testbit v i = false) -> w32 v.
Proof.
  intros Hv Hb. split; [done | ]. destruct (Z.lt_ge_cases v (2 ^ 32)) as [ | Hge]; [done | ].
  exfalso. assert (32 <= Z.log2 v) by (apply Z.log2_le_pow2; lia).
  specialize (Hb (Z.log2 v) ltac:(done)). rewrite Z.bit_log2 in Hb; [done | lia].
Qed.

Lemma lxor_w32 a b : w32 a -> w32 b -> w32 (Z.lxor a b).
Proof.
  intros Ha Hb. apply testbit_w32.
  - unfold w32 in *. apply Z.lxor_nonneg. lia.
  - intros i Hi. by rewrite Z.lxor_spec, !w32_testbit.
Qed.

Lemma byte_w32 b : byte_ok b -> w32 b.
Proof. unfold byte_ok, w32. lia. Qed.

(** The step is a shift, with the polynomial added when the low bit is set. *)
Lemma crc_bit_cases c :
  crc_bit c = if Z.odd c then Z.lxor (Z.shiftr c 1) CRC32C_POLY else Z.shiftr c 1.
Proof.
  unfold crc_bit. change 1 with (Z.ones 1) at 2. rewrite Z.land_ones by lia.
  change (2 ^ 1) with 2. rewrite Zmod_odd.
  destruct (Z.odd c); [reflexivity | ]. by rewrite Z.lxor_0_r.
Qed.

Lemma shiftr_w32 c : w32 c -> 0 <= Z.shiftr c 1 < 2 ^ 31.
Proof.
  unfold w32. rewrite Z.shiftr_div_pow2 by lia. intros. split.
  - apply Z.div_pos; lia.
  - apply Z.div_lt_upper_bound; lia.
Qed.

Lemma crc_bit_w32 c : w32 c -> w32 (crc_bit c).
Proof.
  intros Hc. pose proof (shiftr_w32 c Hc). rewrite crc_bit_cases.
  destruct (Z.odd c); [apply lxor_w32; unfold w32, CRC32C_POLY | unfold w32]; lia.
Qed.

(** The top bit of the result is the low bit shifted out, so no step loses
    information. *)
Lemma crc_bit_top c : w32 c -> Z.testbit (crc_bit c) 31 = Z.odd c.
Proof.
  intros Hc. assert (Z.testbit (Z.shiftr c 1) 31 = false) as Hs.
  { rewrite Z.shiftr_spec by lia. by apply w32_testbit. }
  rewrite crc_bit_cases. destruct (Z.odd c); [ | done].
  rewrite Z.lxor_spec, Hs. reflexivity.
Qed.

Lemma crc_bit_inj c d : w32 c -> w32 d -> crc_bit c = crc_bit d -> c = d.
Proof.
  intros Hc Hd Heq. assert (Z.odd c = Z.odd d) as Ho
    by (rewrite <- (crc_bit_top c), <- (crc_bit_top d) by done; by rewrite Heq).
  rewrite !crc_bit_cases, Ho in Heq. assert (Z.shiftr c 1 = Z.shiftr d 1) as Hs.
  { destruct (Z.odd d); [ | done]. apply (f_equal (fun v => Z.lxor v CRC32C_POLY)) in Heq.
    by rewrite !Z.lxor_assoc, Z.lxor_nilpotent, !Z.lxor_0_r in Heq. }
  rewrite !Z.shiftr_div_pow2 in Hs by lia. change (2 ^ 1) with 2 in Hs.
  rewrite (Zdiv2_odd_eqn c), (Zdiv2_odd_eqn d), Ho, !Z.div2_div. lia.
Qed.

#[global] Opaque crc_bit.

Lemma crc_bits_w32 c : w32 c -> w32 (crc_bits c).
Proof. intros. unfold crc_bits. do 8 apply crc_bit_w32. done. Qed.

Lemma crc_bits_inj c d : w32 c -> w32 d -> crc_bits c = crc_bits d -> c = d.
Proof.
  intros Hc Hd Heq. unfold crc_bits in Heq. cbn [Nat.iter nat_rect] in Heq.
  do 8 (apply crc_bit_inj in Heq; [ | auto 9 using crc_bit_w32 ..]). exact Heq.
Qed.

#[global] Opaque crc_bits.

Lemma crc_byte_w32 c b : w32 c -> byte_ok b -> w32 (crc_byte c b).
Proof. intros. apply crc_bits_w32, lxor_w32; auto using byte_w32. Qed.

Lemma lxor_inj_r a b c : Z.lxor a c = Z.lxor b c -> a = b.
Proof.
  intros Heq. apply (f_equal (fun v => Z.lxor v c)) in Heq.
  by rewrite !Z.lxor_assoc, Z.lxor_nilpotent, !Z.lxor_0_r in Heq.
Qed.

Lemma crc_byte_inj_l c d b : w32 c -> w32 d -> byte_ok b ->
  crc_byte c b = crc_byte d b -> c = d.
Proof.
  intros Hc Hd Hb Heq. unfold crc_byte in Heq. apply crc_bits_inj in Heq; [by apply lxor_inj_r in Heq | ..];
    auto using lxor_w32, byte_w32.
Qed.

Lemma crc_byte_inj_r c x y : w32 c -> byte_ok x -> byte_ok y ->
  crc_byte c x = crc_byte c y -> x = y.
Proof.
  intros Hc Hx Hy Heq. unfold crc_byte in Heq. apply crc_bits_inj in Heq; auto using lxor_w32, byte_w32.
  rewrite !(Z.lxor_comm c) in Heq. by apply lxor_inj_r in Heq.
Qed.

#[global] Opaque crc_byte.

(** Stated for any step function: conversion never evaluates the step. *)
Lemma fold_left_cons {A B} (f : A -> B -> A) b l a : fold_left f (b :: l) a = fold_left f l (f a b).
Proof. reflexivity. Qed.

Lemma fold_crc_w32 l c : w32 c -> bytes_ok l -> w32 (fold_left crc_byte l c).
Proof.
  intros Hc Hl. revert c Hc. induction Hl as [ | b l Hb Hl IH]; intros c Hc; [exact Hc | ].
  rewrite fold_left_cons. auto using crc_byte_w32.
Qed.

Lemma fold_crc_inj l c d : w32 c -> w32 d -> bytes_ok l ->
  fold_left crc_byte l c = fold_left crc_byte l d -> c = d.
Proof.
  intros Hc Hd Hl. revert c d Hc Hd. induction Hl as [ | b l Hb Hl IH]; intros c d Hc Hd Heq; [exact Heq | ].
  rewrite !fold_left_cons in Heq. apply IH in Heq; auto using crc_byte_w32.
  by apply crc_byte_inj_l in Heq.
Qed.

Lemma u32_max_w32 : w32 u32_max.
Proof. unfold w32, u32_max. lia. Qed.

Lemma crc32c_u32 data : bytes_ok data -> u32_ok (crc32c data).
Proof.
  intros Hd. assert (w32 (crc32c data)) as [Hl Hu].
  { apply lxor_w32; [apply fold_crc_w32; auto using u32_max_w32 | apply u32_max_w32]. }
  split; [done | ]. unfold u32_max. lia.
Qed.

(** The checksum detects every change of a single byte: two byte strings
    that differ in exactly one byte, at any position, have different CRC-32C
    values. *)
Theorem crc32c_detects_byte_change pre suf x y :
  bytes_ok pre -> bytes_ok suf -> byte_ok x -> byte_ok y -> x <> y ->
  crc32c (pre ++ x :: suf) <> crc32c (pre ++ y :: suf).
Proof.
  intros Hpre Hsuf Hx Hy Hne Heq. apply Hne. unfold crc32c in Heq.
  apply lxor_inj_r in Heq. rewrite !fold_left_app, !fold_left_cons in Heq.
  assert (w32 (fold_left crc_byte pre u32_max)) by auto using fold_crc_w32, u32_max_w32.
  apply fold_crc_inj in Heq; auto using crc_byte_w32. by apply crc_byte_inj_r in Heq.
Qed.

#[global] Opaque crc32c.

Lemma crc32c_detects_byte_change_witness :
  crc32c ([1] ++ 2 :: [3]) <> crc32c ([1] ++ 255 :: [3]).
Proof. apply (crc32c_detects_byte_change [1] [3] 2 255); [lit | lit | lit | lit | lia]. Defined.

(** The check values of the source's own test. *)
Example crc32c_check_value :
  crc32c [49; 50; 51; 52; 53; 54; 55; 56; 57] = 0xE3069283 /\ crc32c [] = 0.
Proof. vm_compute. split; reflexivity. Qed.

Lemma next_u64_bound r : 0 <= (next_u64 r).1 < 2 ^ 64.
Proof.
  unfold next_u64. simpl. set (z := wrap64 (Z.lxor _ _ * 0x94D049BB133111EB)).
  assert (0 <= z < 2 ^ 64) as Hz by (apply Z.mod_pos_bound; lia).
  clearbody z. assert (0 <= Z.shiftr z 31) by (apply Z.shiftr_nonneg; lia).
  split; [apply Z.lxor_nonneg; lia | ].
  destruct (Z.eq_dec (Z.lxor z (Z.shiftr z 31)) 0) as [-> | Hne]; [lia | ].
  apply Z.log2_lt_pow2; [assert (0 <= Z.lxor z (Z.shiftr z 31)) by (apply Z.lxor_nonneg; lia); lia | ].
  eapply Z.le_lt_trans; [apply Z.log2_lxor; lia | ].
  apply Z.max_lub_lt.
  - destruct (Z.eq_dec z 0) as [-> | ]; [simpl; lia | apply Z.log2_lt_pow2; lia].
  - destruct (Z.eq_dec (Z.shiftr z 31) 0) as [-> | ]; [simpl; lia | ].
    apply Z.log2_lt_pow2; [lia | ]. rewrite Z.shiftr_div_pow2 by lia.
    apply Z.div_lt_upper_bound; lia.
Qed.
