(* ===== verification/Vfs.v ===== *)
(** kessel-io: the storage seam.

    [Vfs] is the interface the storage engine is written against (the traits
    [Vfs] and [Disk] of src/crates/kessel-io/src/lib.rs): a namespace of named
    blobs, each written and read at byte offsets. A handle is the name it was
    opened under: the engine reopens a blob right after removing it, so no
    handle outlives its name.

    [MemVfs] is the simulator's file system with its crash, [MemDisk] the
    stand-alone disk, [FaultVfs] the wrapper that injects one torn or failing
    write. [VfsLaws] is what the storage proofs use of a file system that does
    not fail; [MemVfs] has it. *)

From Stdlib Require Import ZArith Lia.
From stdpp Require Import base numbers list gmap.
From S2P Require Import Prelude BTree.

#[local] Open Scope Z_scope.

Class Vfs (W : Type) := {
  vfs_open : bytes -> M W unit;
  vfs_exists : W -> bytes -> bool;
  vfs_remove : bytes -> M W unit;
  vfs_list : W -> list bytes;
  disk_len : W -> bytes -> Z;
  disk_read_at : W -> bytes -> Z -> Z -> outcome bytes;
  disk_write_at : bytes -> Z -> bytes -> M W unit;
  disk_sync : bytes -> M W unit
}.

(** A zeroed buffer of [len] bytes after [read_at] filled its front. *)
Definition read_buf {W} `{Vfs W} (w : W) (name : bytes) (off len : Z) : outcome bytes :=
  d ← disk_read_at w name off len;
  Ret (d ++ replicate (Z.to_nat (len - zlen d)) 0).

(** * MemDisk *)

Record MemDisk := { md_data : bytes; md_unsynced_from : option Z }.

Definition memdisk_new : MemDisk := {| md_data := []; md_unsynced_from := None |}.

Definition memdisk_write_at (off : Z) (buf : bytes) (d : MemDisk) : MemDisk :=
  {| md_data := splice (md_data d) off buf;
     md_unsynced_from :=
       Some (match md_unsynced_from d with Some p => Z.min p off | None => off end) |}.

(** The bytes at [off], at most [len] of them. *)
Definition read_slice (data : bytes) (off len : Z) : bytes :=
  if zlen data <=? off then []
  else take (Z.to_nat (Z.min len (zlen data - off))) (drop (Z.to_nat off) data).

Definition memdisk_read_at (off len : Z) (d : MemDisk) : bytes :=
  read_slice (md_data d) off len.

Definition memdisk_sync (d : MemDisk) : MemDisk :=
  {| md_data := md_data d; md_unsynced_from := None |}.

(** * MemVfs *)

Record MemBlob := { blob_data : bytes; synced_len : Z }.

Record MemVfs := { blobs : gmap bytes MemBlob }.

Definition memvfs_new : MemVfs := {| blobs := ∅ |}.

Definition empty_blob : MemBlob := {| blob_data := []; synced_len := 0 |}.

(** [entry(name).or_default()]. *)
Definition memvfs_open (name : bytes) (w : MemVfs) : MemVfs :=
  match blobs w !! name with
  | Some _ => w
  | None => {| blobs := <[name := empty_blob]> (blobs w) |}
  end.

Definition memvfs_exists (w : MemVfs) (name : bytes) : bool :=
  match blobs w !! name with Some _ => true | None => false end.

Definition memvfs_remove (name : bytes) (w : MemVfs) : MemVfs :=
  {| blobs := delete name (blobs w) |}.

Definition memvfs_list (w : MemVfs) : list bytes := (bt_list (blobs w)).*1.

Definition blob_write_at (off : Z) (buf : bytes) (b : MemBlob) : MemBlob :=
  {| blob_data := splice (blob_data b) off buf; synced_len := synced_len b |}.

Definition blob_sync (b : MemBlob) : MemBlob :=
  {| blob_data := blob_data b; synced_len := zlen (blob_data b) |}.

Definition memvfs_data (w : MemVfs) (name : bytes) : bytes :=
  match blobs w !! name with Some b => blob_data b | None => [] end.

(** [MemVfsDisk::write_at], [read_at], [sync] and [len]. *)
Definition memvfs_write_at (name : bytes) (off : Z) (buf : bytes) (w : MemVfs) : MemVfs :=
  {| blobs := alter (blob_write_at off buf) name (blobs w) |}.

Definition memvfs_read_at (w : MemVfs) (name : bytes) (off len : Z) : bytes :=
  read_slice (memvfs_data w name) off len.

Definition memvfs_sync (name : bytes) (w : MemVfs) : MemVfs :=
  {| blobs := alter blob_sync name (blobs w) |}.

Definition memvfs_len (w : MemVfs) (name : bytes) : Z := zlen (memvfs_data w name).

(** A crash: every blob loses what is past its last sync point. *)
Definition blob_crash (b : MemBlob) : MemBlob :=
  {| blob_data := take (Z.to_nat (synced_len b)) (blob_data b);
     synced_len := synced_len b |}.

Definition memvfs_crash (w : MemVfs) : MemVfs :=
  {| blobs := blob_crash <$> blobs w |}.

#[global] Instance MemVfs_Vfs : Vfs MemVfs := {|
  vfs_open := fun name w => (memvfs_open name w, Ret tt);
  vfs_exists := memvfs_exists;
  vfs_remove := fun name w => (memvfs_remove name w, Ret tt);
  vfs_list := memvfs_list;
  disk_len := memvfs_len;
  disk_read_at := fun w name off len => Ret (memvfs_read_at w name off len);
  disk_write_at := fun name off buf w => (memvfs_write_at name off buf w, Ret tt);
  disk_sync := fun name w => (memvfs_sync name w, Ret tt)
|}.

(** * FaultVfs *)

Inductive FaultKind := Torn | FaultErr.

Record FaultPlan := {
  target : bytes;
  at_write : Z;
  fault_kind : option FaultKind;
  writes_seen : Z;
  fired : bool
}.

Definition plan_default : FaultPlan :=
  {| target := []; at_write := 0; fault_kind := None; writes_seen := 0; fired := false |}.

Record FaultVfs (W : Type) := { inner : W; plan : FaultPlan }.
Arguments inner {W} _.
Arguments plan {W} _.

Definition faultvfs_new {W} (w : W) : FaultVfs W := {| inner := w; plan := plan_default |}.

Definition arm {W} (tgt : bytes) (nth : Z) (kind : FaultKind) (v : FaultVfs W) : FaultVfs W :=
  {| inner := inner v;
     plan := {| target := tgt; at_write := nth; fault_kind := Some kind;
                writes_seen := 0; fired := false |} |}.

(** [str::contains]. *)
Fixpoint is_prefix (p s : bytes) : bool :=
  match p, s with
  | [], _ => true
  | _, [] => false
  | a :: p', b :: s' => (a =? b) && is_prefix p' s'
  end.

Fixpoint contains (s p : bytes) : bool :=
  is_prefix p s || match s with [] => false | _ :: s' => contains s' p end.

(** The decision taken under the lock: which fault, if any, hits this write. *)
Definition fault_action (name : bytes) (p : FaultPlan) : FaultPlan * option FaultKind :=
  if match fault_kind p with Some _ => true | None => false end
     && (0 <? at_write p) && contains name (target p)
  then
    let seen := wrap32 (writes_seen p + 1) in
    if seen =? at_write p
    then ({| target := target p; at_write := at_write p; fault_kind := fault_kind p;
             writes_seen := seen; fired := true |}, fault_kind p)
    else ({| target := target p; at_write := at_write p; fault_kind := fault_kind p;
             writes_seen := seen; fired := fired p |}, None)
  else (p, None).

Definition fault_write_at {W} `{Vfs W} (name : bytes) (off : Z) (buf : bytes) : M (FaultVfs W) unit :=
  fun v =>
    let '(p', action) := fault_action name (plan v) in
    match action with
    | Some FaultErr => ({| inner := inner v; plan := p' |}, Err WriteFault)
    | Some Torn =>
        let '(w', r) := disk_write_at name off (take (length buf / 2) buf) (inner v) in
        ({| inner := w'; plan := p' |}, r)
    | None =>
        let '(w', r) := disk_write_at name off buf (inner v) in
        ({| inner := w'; plan := p' |}, r)
    end.

Definition lift_inner {W A} (m : M W A) : M (FaultVfs W) A := fun v =>
  let '(w', r) := m (inner v) in ({| inner := w'; plan := plan v |}, r).

#[global] Instance FaultVfs_Vfs {W} `{Vfs W} : Vfs (FaultVfs W) := {|
  vfs_open := fun name => lift_inner (vfs_open name);
  vfs_exists := fun v => vfs_exists (inner v);
  vfs_remove := fun name => lift_inner (vfs_remove name);
  vfs_list := fun v => vfs_list (inner v);
  disk_len := fun v => disk_len (inner v);
  disk_read_at := fun v => disk_read_at (inner v);
  disk_write_at := fault_write_at;
  disk_sync := fun name => lift_inner (disk_sync name)
|}.

(** * What the storage engine relies on *)

Definition upd (f : bytes -> option bytes) (n : bytes) (v : option bytes) : bytes -> option bytes :=
  fun m => if decide (n = m) then v else f m.

(** [content w n] is the blob named [n], [None] when there is none. Every
    operation succeeds, and its effect on the contents is the documented one. *)
Class VfsLaws (W : Type) `{Vfs W} := {
  content : W -> bytes -> option bytes;
  law_exists w n : vfs_exists w n = match content w n with Some _ => true | None => false end;
  law_len w n : disk_len w n = zlen (default [] (content w n));
  law_read w n off len :
    disk_read_at w n off len = Ret (read_slice (default [] (content w n)) off len);
  law_open w n : exists w', vfs_open n w = (w', Ret tt) /\
    forall m, content w' m = upd (content w) n (Some (default [] (content w n))) m;
  law_write w n off buf d : content w n = Some d ->
    exists w', disk_write_at n off buf w = (w', Ret tt) /\
      forall m, content w' m = upd (content w) n (Some (splice d off buf)) m;
  law_sync w n : exists w', disk_sync n w = (w', Ret tt) /\ forall m, content w' m = content w m;
  law_remove w n : exists w', vfs_remove n w = (w', Ret tt) /\
    forall m, content w' m = upd (content w) n None m
}.

Lemma upd_eq f n v : upd f n v n = v.
Proof. unfold upd. by rewrite decide_True. Qed.

Lemma upd_ne f n v m : n <> m -> upd f n v m = f m.
Proof. intros. unfold upd. by rewrite decide_False. Qed.

Definition memvfs_content (w : MemVfs) (n : bytes) : option bytes := blob_data <$> blobs w !! n.

#[global] Program Instance MemVfs_Laws : VfsLaws MemVfs := {| content := memvfs_content |}.
Next Obligation.
  intros w n. simpl. unfold memvfs_exists, memvfs_content. by destruct (blobs w !! n).
Qed.
Next Obligation.
  intros w n. simpl. unfold memvfs_len, memvfs_data, memvfs_content. by destruct (blobs w !! n).
Qed.
Next Obligation.
  intros w n off len. simpl. unfold memvfs_read_at, memvfs_data, memvfs_content.
  by destruct (blobs w !! n).
Qed.
Next Obligation.
  intros w n. eexists. split; [reflexivity | ]. intros m.
  unfold memvfs_content, memvfs_open, upd. destruct (blobs w !! n) as [b | ] eqn:E; simpl.
  - case_decide; subst; [by rewrite E | done].
  - rewrite lookup_insert. by case_decide.
Qed.
Next Obligation.
  intros w n off buf d Hd. eexists. split; [reflexivity | ]. intros m.
  unfold memvfs_content, upd in *. simpl. rewrite lookup_alter. case_decide; [subst | done].
  destruct (blobs w !! m) as [b | ]; simpl in *; [ | done]. by injection Hd as ->.
Qed.
Next Obligation.
  intros w n. eexists. split; [reflexivity | ]. intros m.
  unfold memvfs_content. simpl. rewrite lookup_alter. case_decide; [subst | done].
  by destruct (blobs w !! m).
Qed.
Next Obligation.
  intros w n. eexists. split; [reflexivity | ]. intros m.
  unfold memvfs_content, upd. simpl. rewrite lookup_delete. by case_decide.
Qed.

(** * Properties of the fault wrapper *)

(** A disarmed wrapper is a pass-through: same result, same effect inside, plan
    untouched. *)
Lemma fault_disarmed {W} `{Vfs W} name off buf (v : FaultVfs W) :
  fault_kind (plan v) = None ->
  fault_write_at name off buf v = lift_inner (disk_write_at name off buf) v.
Proof.
  intros Hk. unfold fault_write_at, fault_action, lift_inner. rewrite Hk. simpl.
  by destruct (disk_write_at name off buf (inner v)).
Qed.

(** An armed fault hits exactly the [nth] matching write. *)
Lemma fault_action_counts name p k :
  fault_kind p = Some k -> contains name (target p) = true ->
  0 < at_write p <= u32_max -> 0 <= writes_seen p < at_write p ->
  (fault_action name p).2 = (if writes_seen p + 1 =? at_write p then Some k else None).
Proof.
  intros Hk Hc Ha Hs. unfold fault_action. rewrite Hk, Hc. unfold u32_max in Ha.
  rewrite (proj2 (Z.ltb_lt _ _)) by lia. simpl.
  replace (wrap32 (writes_seen p + 1)) with (writes_seen p + 1)
    by (unfold wrap32; rewrite Z.mod_small; lia).
  by destruct (writes_seen p + 1 =? at_write p).
Qed.
