(* ===== verification/Wal.v ===== *)
(** kessel-storage: log entries and the write-ahead log.

    A frame is [u32 payload_len ++ u32 crc32c(payload) ++ payload]; the payload
    is an encoded [Entry]. [wal_replay] stops at the first frame that is short,
    fails its checksum or does not decode.

    Source: src/crates/kessel-storage/src/lib.rs ([Entry], [encode_entry],
    [decode_entry], [Wal]). *)

From Stdlib Require Import ZArith Lia.
From stdpp Require Import base numbers list gmap.
From S2P Require Import Prelude BTree Proto Vfs.

#[local] Open Scope Z_scope.

(** The ASCII bytes of [wal]. *)
Definition WAL_NAME : bytes := [119; 97; 108].

Record Entry := {
  op_number : Z;
  entry_key : bytes;
  entry_value : option bytes
}.

#[global] Instance Entry_eq_dec : EqDecision Entry.
Proof. solve_decision. Defined.

Definition encode_entry (e : Entry) : bytes :=
  le_bytes 8 (op_number e) ++ le_bytes 2 (zlen (entry_key e)) ++ entry_key e ++
  match entry_value e with
  | Some v => 0 :: le_bytes 4 (zlen v) ++ v
  | None => [1]
  end.

Definition decode_entry (p : bytes) : option Entry :=
  if zlen p <? 8 + 2 + 1 then None else
  opn ← get_range p 0 8;
  kb ← get_range p 8 10;
  let kl := le_value kb in
  key ← get_range p 10 (10 + kl);
  let q := 10 + kl in
  tag ← get_at p q;
  if tag =? 0 then
    vb ← get_range p (q + 1) (q + 1 + 4);
    v ← get_range p (q + 1 + 4) (q + 1 + 4 + le_value vb);
    Some {| op_number := le_value opn; entry_key := key; entry_value := Some v |}
  else if tag =? 1 then
    Some {| op_number := le_value opn; entry_key := key; entry_value := None |}
  else None.

Definition frame (e : Entry) : bytes :=
  let payload := encode_entry e in
  le_bytes 4 (zlen payload) ++ le_bytes 4 (crc32c payload) ++ payload.

Section Wal.
Context {W : Type} `{Vfs W}.

(** [Wal::open]: the append position is the length of the blob. *)
Definition wal_open : M W Z :=
  _ ← vfs_open WAL_NAME;
  w ← m_get;
  mret (disk_len w WAL_NAME).

(** [Wal::append] at position [end_]; the new append position. *)
Definition wal_append (end_ : Z) (e : Entry) : M W Z :=
  _ ← disk_write_at WAL_NAME end_ (frame e);
  mret (end_ + zlen (frame e)).

Definition wal_sync : M W unit := disk_sync WAL_NAME.

Fixpoint replay_loop (fuel : nat) (w : W) (total off : Z) : list Entry :=
  match fuel with
  | O => []
  | S fuel' =>
      if off + 8 <=? total then
        match disk_read_at w WAL_NAME off 8 with
        | Ret hdr =>
            if zlen hdr <? 8 then [] else
            let plen := le_value (take 4 hdr) in
            let crc := le_value (take 4 (drop 4 hdr)) in
            if total <? off + 8 + plen then [] (* torn tail *) else
            match disk_read_at w WAL_NAME (off + 8) plen with
            | Ret payload =>
                if zlen payload <? plen then [] else
                if negb (crc32c payload =? crc) then [] (* corrupt tail *) else
                match decode_entry payload with
                | Some e => e :: replay_loop fuel' w total (off + 8 + plen)
                | None => []
                end
            | _ => []
            end
        | _ => []
        end
      else []
  end.

(** Every frame takes at least eight bytes, so the blob's length bounds the
    number of iterations ([scan_all_clean]). *)
Definition wal_replay (w : W) : list Entry :=
  let total := disk_len w WAL_NAME in
  replay_loop (S (Z.to_nat total)) w total 0.
End Wal.

(** * Entries *)

Record entry_ok (e : Entry) : Prop := {
  eo_op : u64_ok (op_number e);
  eo_key : bytes_ok (entry_key e);
  eo_key_len : zlen (entry_key e) <= u16_max;
  eo_val : forall v, entry_value e = Some v -> bytes_ok v;
  eo_len : zlen (encode_entry e) <= u32_max
}.

(** The header of an entry, then its tagged value. *)
Lemma decode_entry_app op kl key rest :
  u64_ok op -> kl = zlen key -> kl <= u16_max -> 1 <= zlen rest ->
  decode_entry (le_bytes 8 op ++ le_bytes 2 kl ++ key ++ rest) =
  (tag ← get_at rest 0;
   if tag =? 0 then
     vb ← get_range rest 1 5;
     v ← get_range rest 5 (5 + le_value vb);
     Some {| op_number := op; entry_key := key; entry_value := Some v |}
   else if tag =? 1 then
     Some {| op_number := op; entry_key := key; entry_value := None |}
   else None).
Proof.
  intros Hop -> Hk Hr. unfold decode_entry. set (p := _ ++ _).
  pose proof (zlen_nonneg key). assert (u16_ok (zlen key)) by (unfold u16_ok; lia).
  assert (zlen p = 10 + zlen key + zlen rest) as Hp
    by (unfold p; autorewrite with zlen; lia).
  rewrite Hp. zif_false.
  assert (get_range p 0 8 = Some (le_bytes 8 op)) as ->
    by (apply (get_range_app []); autorewrite with zlen; lia).
  assert (get_range p 8 10 = Some (le_bytes 2 (zlen key))) as ->
    by (apply get_range_app; autorewrite with zlen; lia).
  ob. rewrite le_value_u16 by done. rewrite le_value_u64 by done.
  set (hd := le_bytes 8 op ++ le_bytes 2 (zlen key)).
  assert (zlen hd = 10) as Hhd by (unfold hd; autorewrite with zlen; lia).
  assert (p = hd ++ key ++ rest) as -> by (unfold p, hd; by rewrite <- app_assoc).
  rewrite (get_range_app hd key rest 10 (10 + zlen key)) by lia. ob.
  assert (forall lo hi, 0 <= lo ->
    get_range (hd ++ key ++ rest) (10 + zlen key + lo) (10 + zlen key + hi) = get_range rest lo hi)
    as Hshift.
  { intros lo hi Hlo. unfold get_range. rewrite !zlen_app, Hhd. rewrite app_assoc.
    replace (0 <=? 10 + zlen key + lo) with (0 <=? lo)
      by (rewrite !(proj2 (Z.leb_le _ _)) by lia; done).
    replace (10 + zlen key + lo <=? 10 + zlen key + hi) with (lo <=? hi)
      by (destruct (lo <=? hi) eqn:E; zb; symmetry; [apply Z.leb_le | apply Z.leb_gt]; lia).
    replace (10 + zlen key + hi <=? 10 + (zlen key + zlen rest)) with (hi <=? zlen rest)
      by (destruct (hi <=? zlen rest) eqn:E; zb; symmetry; [apply Z.leb_le | apply Z.leb_gt]; lia).
    rewrite drop_app_ge by (rewrite length_app; unfold zlen in *; lia).
    replace (Z.to_nat (10 + zlen key + lo) - length (hd ++ key))%nat with (Z.to_nat lo)
      by (rewrite length_app; unfold zlen in *; lia).
    by replace (10 + zlen key + hi - (10 + zlen key + lo)) with (hi - lo) by lia. }
  assert (get_at (hd ++ key ++ rest) (10 + zlen key) = get_at rest 0) as ->.
  { destruct rest as [ | x rest]; [simpl in Hr; unfold zlen in Hr; simpl in Hr; lia | ].
    rewrite app_assoc. rewrite get_at_app by (rewrite zlen_app; lia). reflexivity. }
  destruct (get_at rest 0) as [tag | ]; ob; [ | done].
  destruct (tag =? 0); [ | done].
  replace (10 + zlen key + 1 + 4) with (10 + zlen key + 5) by lia.
  rewrite Hshift by lia. destruct (get_range rest 1 5) as [vb | ]; ob; [ | done].
  replace (10 + zlen key + 5 + le_value vb) with (10 + zlen key + (5 + le_value vb)) by lia.
  by rewrite Hshift by lia.
Qed.

Lemma decode_encode_entry e :
  u64_ok (op_number e) -> zlen (entry_key e) <= u16_max ->
  (forall v, entry_value e = Some v -> zlen v <= u32_max) ->
  decode_entry (encode_entry e) = Some e.
Proof.
  intros Hop Hk Hv. destruct e as [op key [v | ]]; simpl in *; unfold encode_entry; simpl.
  - specialize (Hv v eq_refl). pose proof (zlen_nonneg v).
    rewrite decode_entry_app by (try done; autorewrite with zlen; lia).
    rewrite get_at_0. ob. rewrite Z.eqb_refl.
    assert (get_range (0 :: le_bytes 4 (zlen v) ++ v) 1 5 = Some (le_bytes 4 (zlen v))) as ->
      by (apply (get_range_app [0]); autorewrite with zlen; lia). ob.
    rewrite le_value_u32 by (unfold u32_ok; lia).
    assert (get_range (0 :: le_bytes 4 (zlen v) ++ v) 5 (5 + zlen v) = Some v) as ->; [ | done].
    apply (get_range_app_r (0 :: le_bytes 4 (zlen v))); autorewrite with zlen; lia.
  - rewrite decode_entry_app by (try done; autorewrite with zlen; lia). reflexivity.
Qed.

Lemma encode_entry_value_len e v :
  entry_value e = Some v -> zlen v <= zlen (encode_entry e).
Proof.
  intros Hv. unfold encode_entry. rewrite Hv. autorewrite with zlen.
  pose proof (zlen_nonneg (entry_key e)). lia.
Qed.

Lemma entry_ok_decode e : entry_ok e -> decode_entry (encode_entry e) = Some e.
Proof.
  intros [Hop Hk Hkl Hv Hlen]. apply decode_encode_entry; [done | done | ].
  intros v Hev. pose proof (encode_entry_value_len e v Hev). lia.
Qed.

Lemma encode_entry_bytes_ok e : entry_ok e -> bytes_ok (encode_entry e).
Proof.
  intros [Hop Hk Hkl Hv Hlen]. unfold encode_entry. rewrite !bytes_ok_app.
  repeat split; auto with kessel. destruct (entry_value e) as [v | ].
  - constructor; [unfold byte_ok; lia | ]. apply bytes_ok_app. auto with kessel.
  - constructor; [unfold byte_ok; lia | constructor].
Qed.

(** * Replay *)

(** The replay loop on the bytes from the current offset on. *)
Fixpoint scan_frames (fuel : nat) (d : bytes) : list Entry :=
  match fuel with
  | O => []
  | S fuel' =>
      if 8 <=? zlen d then
        let plen := le_value (take 4 d) in
        let crc := le_value (take 4 (drop 4 d)) in
        if zlen d <? 8 + plen then [] else
        let payload := take (Z.to_nat plen) (drop 8 d) in
        if negb (crc32c payload =? crc) then [] else
        match decode_entry payload with
        | Some e => e :: scan_frames fuel' (drop (Z.to_nat (8 + plen)) d)
        | None => []
        end
      else []
  end.

Definition scan_all_frames (d : bytes) : list Entry := scan_frames (S (length d)) d.

Lemma read_slice_inside d off len :
  0 <= off -> 0 <= len -> off + len <= zlen d ->
  read_slice d off len = take (Z.to_nat len) (drop (Z.to_nat off) d).
Proof.
  intros. unfold read_slice. destruct (zlen d <=? off) eqn:E; zb.
  - assert (len = 0) as -> by lia. done.
  - by rewrite Z.min_l by lia.
Qed.

Lemma read_slice_length d off len :
  0 <= off -> 0 <= len -> off + len <= zlen d -> zlen (read_slice d off len) = len.
Proof.
  intros. rewrite read_slice_inside by done. unfold zlen in *.
  rewrite length_take, length_drop. lia.
Qed.

Lemma replay_loop_scan {W} `{VfsLaws W} (w : W) d fuel off :
  content w WAL_NAME = Some d -> bytes_ok d -> 0 <= off ->
  replay_loop fuel w (zlen d) off = scan_frames fuel (drop (Z.to_nat off) d).
Proof.
  intros Hd Hok. revert off. induction fuel as [ | fuel IH]; intros off Hoff; simpl; [done | ].
  assert (off <= zlen d -> zlen (drop (Z.to_nat off) d) = zlen d - off) as Hdrop
    by (unfold zlen; rewrite length_drop; lia).
  assert (zlen d < off -> zlen (drop (Z.to_nat off) d) = 0) as Hdrop0
    by (unfold zlen; rewrite length_drop; lia).
  destruct (off + 8 <=? zlen d) eqn:E1; zb.
  2: { rewrite (proj2 (Z.leb_gt _ _)); [done | ]. destruct (Z.le_gt_cases off (zlen d)); lia. }
  rewrite law_read, Hd. simpl. rewrite read_slice_length by lia. simpl.
  rewrite read_slice_inside by lia. rewrite Hdrop by lia. rewrite (proj2 (Z.leb_le 8 _)) by lia.
  rewrite skipn_firstn_comm, !take_take, drop_drop. change (Z.to_nat 8) with 8%nat.
  change (4 `min` 8)%nat with 4%nat. change (4 `min` (8 - 4))%nat with 4%nat.
  set (plen := le_value (take 4 (drop (Z.to_nat off) d))).
  assert (0 <= plen) by (apply le_value_bound, Forall_take, Forall_drop; exact Hok).
  rewrite drop_drop.
  replace (Z.to_nat off + 4)%nat with (4 + Z.to_nat off)%nat by lia.
  destruct (zlen d <? off + 8 + plen) eqn:E2; zb.
  { rewrite (proj2 (Z.ltb_lt _ _)) by lia. done. }
  rewrite (proj2 (Z.ltb_ge (zlen d - off) _)) by lia.
  rewrite law_read, Hd. simpl. rewrite read_slice_length by lia. rewrite Z.ltb_irrefl.
  rewrite read_slice_inside by lia. rewrite !drop_drop.
  replace (Z.to_nat (off + 8)) with (Z.to_nat off + 8)%nat by lia.
  dcase; [done | ]. dcase; [ | done]. f_equal. rewrite IH by lia. do 2 f_equal. lia.
Qed.

Lemma wal_replay_scan {W} `{VfsLaws W} (w : W) d :
  content w WAL_NAME = Some d -> bytes_ok d -> wal_replay w = scan_all_frames d.
Proof.
  intros Hd Hok. unfold wal_replay, scan_all_frames. rewrite law_len, Hd.
  change (default [] (Some d)) with d. rewrite (replay_loop_scan w d) by (done || lia).
  replace (Z.to_nat (zlen d)) with (length d) by (unfold zlen; lia). reflexivity.
Qed.

(** ** Frames *)

Definition frames (es : list Entry) : bytes := concat (map frame es).

Lemma frames_app es fs : frames (es ++ fs) = frames es ++ frames fs.
Proof. unfold frames. by rewrite map_app, concat_app. Qed.

Lemma frames_cons e es : frames (e :: es) = frame e ++ frames es.
Proof. reflexivity. Qed.

Lemma frames_snoc es e : frames (es ++ [e]) = frames es ++ frame e.
Proof. rewrite frames_app, frames_cons. unfold frames at 2. simpl. by rewrite app_nil_r. Qed.

Lemma frame_zlen e : zlen (frame e) = 8 + zlen (encode_entry e).
Proof. unfold frame. autorewrite with zlen. lia. Qed.

Lemma frame_bytes_ok e : entry_ok e -> bytes_ok (frame e).
Proof.
  intros. unfold frame. rewrite !bytes_ok_app. auto using encode_entry_bytes_ok with kessel.
Qed.

Lemma frames_bytes_ok es : Forall entry_ok es -> bytes_ok (frames es).
Proof.
  induction 1; [constructor | ]. apply bytes_ok_app. auto using frame_bytes_ok.
Qed.

(** The first bytes of a frame give back its payload length. *)
Lemma frame_header e k :
  entry_ok e -> (8 <= k)%nat -> le_value (take 4 (take k (frame e))) = zlen (encode_entry e).
Proof.
  intros He Hk. rewrite take_take, Nat.min_l by lia. unfold frame.
  rewrite take_app_length' by (by rewrite le_bytes_length). pose proof (zlen_nonneg (encode_entry e)).
  apply le_value_u32. destruct He. unfold u32_ok. lia.
Qed.

(** The parts of the frame at the front of a log. *)
Lemma frame_parts e rest :
  take 4 (frame e ++ rest) = le_bytes 4 (zlen (encode_entry e)) /\
  take 4 (drop 4 (frame e ++ rest)) = le_bytes 4 (crc32c (encode_entry e)) /\
  take (Z.to_nat (zlen (encode_entry e))) (drop 8 (frame e ++ rest)) = encode_entry e /\
  drop (Z.to_nat (8 + zlen (encode_entry e))) (frame e ++ rest) = rest.
Proof.
  unfold frame. set (p := encode_entry e). set (a := le_bytes 4 (zlen p)).
  set (b := le_bytes 4 (crc32c p)).
  assert (4%nat = length a) as Ha by (symmetry; apply le_bytes_length).
  assert (4%nat = length b) as Hb by (symmetry; apply le_bytes_length).
  split_and!.
  - rewrite <- !app_assoc. by apply take_app_length'.
  - rewrite <- !app_assoc. rewrite (drop_app_length' a) by done. by apply take_app_length'.
  - rewrite <- app_assoc, <- app_assoc, app_assoc.
    rewrite (drop_app_length' (a ++ b)) by (rewrite length_app; lia).
    apply take_app_length'. unfold zlen. lia.
  - apply drop_app_length'. rewrite !length_app. unfold zlen. lia.
Qed.

(** The scan consumes one intact frame. *)
Lemma scan_frame fuel e rest :
  entry_ok e -> scan_frames (S fuel) (frame e ++ rest) = e :: scan_frames fuel rest.
Proof.
  intros He. pose proof (zlen_nonneg (encode_entry e)). pose proof (zlen_nonneg rest).
  assert (u32_ok (zlen (encode_entry e))) as Hu by (destruct He; unfold u32_ok; lia).
  destruct (frame_parts e rest) as (H1 & H2 & H3 & H4).
  cbn [scan_frames]. rewrite zlen_app, frame_zlen. rewrite (proj2 (Z.leb_le 8 _)) by lia.
  rewrite H1, H2, le_value_u32 by done. rewrite (proj2 (Z.ltb_ge _ _)) by lia.
  rewrite H3, H4. rewrite le_value_u32 by (apply crc32c_u32, encode_entry_bytes_ok, He).
  by rewrite Z.eqb_refl, entry_ok_decode by done.
Qed.

(** The scan stops at the bytes of a cut frame. *)
Lemma scan_torn fuel e k :
  entry_ok e -> (k < length (frame e))%nat -> scan_frames fuel (take k (frame e)) = [].
Proof.
  intros He Hk. destruct fuel; [done | ]. cbn [scan_frames].
  assert (zlen (take k (frame e)) = Z.of_nat k) as Hz
    by (unfold zlen; rewrite length_take; lia).
  rewrite Hz. destruct (8 <=? Z.of_nat k) eqn:E; [ | done]. zb.
  rewrite frame_header by (done || lia).
  assert (Z.of_nat k < 8 + zlen (encode_entry e))
    by (rewrite <- frame_zlen; unfold zlen; lia).
  by rewrite (proj2 (Z.ltb_lt _ _)) by lia.
Qed.

Lemma scan_frames_app es fuel rest :
  Forall entry_ok es -> (length es <= fuel)%nat ->
  scan_frames fuel (frames es ++ rest) = es ++ scan_frames (fuel - length es) rest.
Proof.
  intros Hes. revert fuel. induction Hes as [ | e es He Hes IH]; intros fuel Hf.
  - by rewrite Nat.sub_0_r.
  - destruct fuel as [ | fuel]; [simpl in Hf; lia | ].
    rewrite frames_cons, <- app_assoc, scan_frame by done. simpl in *. f_equal. apply IH. lia.
Qed.

Lemma frames_length es : Forall entry_ok es -> (length es <= length (frames es))%nat.
Proof.
  induction 1 as [ | e es He Hes IH]; [done | ].
  rewrite frames_cons, length_app. simpl. pose proof (frame_zlen e). pose proof (zlen_nonneg (encode_entry e)).
  unfold zlen in *. lia.
Qed.

Lemma scan_all_torn es e k :
  Forall entry_ok es -> entry_ok e -> (k < length (frame e))%nat ->
  scan_all_frames (frames es ++ take k (frame e)) = es.
Proof.
  intros Hes He Hk. unfold scan_all_frames. pose proof (frames_length es Hes).
  rewrite scan_frames_app by (try done; rewrite length_app; lia).
  by rewrite scan_torn, app_nil_r.
Qed.

Lemma scan_all_clean es : Forall entry_ok es -> scan_all_frames (frames es) = es.
Proof.
  intros Hes. unfold scan_all_frames. pose proof (frames_length es Hes).
  rewrite <- (app_nil_r (frames es)) at 2. rewrite scan_frames_app by (done || lia).
  destruct (_ - _)%nat; by rewrite app_nil_r.
Qed.

(** ** Cutting the log

    The entries whose frames lie whole in the first [k] bytes. *)
Fixpoint whole_frames (k : nat) (es : list Entry) : list Entry :=
  match es with
  | [] => []
  | e :: es' =>
      if (length (frame e) <=? k)%nat then e :: whole_frames (k - length (frame e)) es' else []
  end.

Lemma scan_cut es k fuel :
  Forall entry_ok es -> (length (whole_frames k es) < fuel)%nat ->
  scan_frames fuel (take k (frames es)) = whole_frames k es.
Proof.
  intros Hes. revert k fuel. induction Hes as [ | e es He Hes IH]; intros k fuel Hf.
  - unfold frames. simpl. rewrite take_nil. by destruct fuel.
  - rewrite frames_cons. simpl in *. destruct (Nat.leb_spec (length (frame e)) k).
    + rewrite take_app_ge by done. destruct fuel as [ | fuel]; [lia | ].
      rewrite scan_frame by done. f_equal. apply IH. simpl in Hf. lia.
    + rewrite take_app_le by lia. by apply scan_torn.
Qed.

Lemma whole_frames_take es k :
  whole_frames k es = take (length (whole_frames k es)) es.
Proof.
  revert k. induction es as [ | e es IH]; intros k; simpl; [done | ].
  destruct (length (frame e) <=? k)%nat; simpl; [by rewrite <- IH | done].
Qed.

Lemma whole_frames_fit es k :
  (length (frames (whole_frames k es)) <= k)%nat.
Proof.
  revert k. induction es as [ | e es IH]; intros k; simpl; [lia | ].
  destruct (Nat.leb_spec (length (frame e)) k); simpl; [ | lia].
  rewrite frames_cons, length_app. specialize (IH (k - length (frame e))%nat). lia.
Qed.

Lemma whole_frames_next es k n :
  n = length (whole_frames k es) -> (n < length es)%nat ->
  (k < length (frames (take (S n) es)))%nat.
Proof.
  revert k n. induction es as [ | e es IH]; intros k n ->; simpl; [lia | ].
  destruct (Nat.leb_spec (length (frame e)) k) as [Hk | Hk]; simpl; intros Hn.
  - rewrite frames_cons, length_app. specialize (IH (k - length (frame e))%nat _ eq_refl).
    destruct es as [ | e' es']; simpl in *; [lia | ]. specialize (IH ltac:(lia)). lia.
  - rewrite frames_cons, length_app. lia.
Qed.

Lemma whole_frames_all es k : (length (frames es) <= k)%nat -> whole_frames k es = es.
Proof.
  revert k. induction es as [ | e es IH]; intros k Hk; [done | ].
  rewrite frames_cons, length_app in Hk. simpl.
  rewrite (proj2 (Nat.leb_le _ _)) by lia. f_equal. apply IH. lia.
Qed.

Lemma scan_all_cut es k :
  Forall entry_ok es -> scan_all_frames (take k (frames es)) = whole_frames k es.
Proof.
  intros Hes. apply scan_cut; [done | ]. rewrite length_take.
  assert (Forall entry_ok (whole_frames k es)) as Hw
    by (rewrite whole_frames_take; by apply Forall_take).
  pose proof (frames_length _ Hw). pose proof (whole_frames_fit es k).
  assert (length (frames (whole_frames k es)) <= length (frames es))%nat; [ | lia].
  rewrite whole_frames_take. rewrite <- (take_drop (length (whole_frames k es)) es) at 3.
  rewrite frames_app, length_app. lia.
Qed.

(** * Appending *)

Section Append.
Context {W : Type} `{VfsLaws W}.

Lemma wal_append_spec w d e :
  content w WAL_NAME = Some d ->
  exists w', wal_append (zlen d) e w = (w', Ret (zlen (d ++ frame e))) /\
    forall n, content w' n = upd (content w) WAL_NAME (Some (d ++ frame e)) n.
Proof.
  intros Hd. destruct (law_write w WAL_NAME (zlen d) (frame e) d Hd) as (w' & Hw & Hc).
  exists w'. split.
  - unfold wal_append. mstep Hw. by rewrite zlen_app.
  - intros n. by rewrite Hc, splice_append.
Qed.

Lemma wal_open_spec w :
  exists w', wal_open w = (w', Ret (zlen (default [] (content w WAL_NAME)))) /\
    forall n, content w' n = upd (content w) WAL_NAME (Some (default [] (content w WAL_NAME))) n.
Proof.
  destruct (law_open w WAL_NAME) as (w' & Hw & Hc). exists w'. split; [ | done].
  unfold wal_open. mstep Hw. mstep (m_get_ret w'). unfold mret, M_ret.
  by rewrite law_len, Hc, upd_eq.
Qed.

(** C24: Recovery of a log that was cut at any byte returns a prefix of the
    appended entries: every entry whose frame is whole, in order, and nothing
    of the entry whose frame was cut. *)
Theorem wal_replay_cut w es k :
  Forall entry_ok es -> content w WAL_NAME = Some (take k (frames es)) ->
  exists n, wal_replay w = take n es /\ (length (frames (take n es)) <= k)%nat /\
    ((n < length es)%nat -> (k < length (frames (take (S n) es)))%nat).
Proof.
  intros Hes Hc. exists (length (whole_frames k es)).
  rewrite (wal_replay_scan w (take k (frames es)));
    [ | done | apply Forall_take, frames_bytes_ok, Hes].
  rewrite scan_all_cut by done. split_and!.
  - apply whole_frames_take.
  - rewrite <- whole_frames_take. apply whole_frames_fit.
  - by apply whole_frames_next.
Qed.

Lemma wal_replay_clean w es :
  Forall entry_ok es -> content w WAL_NAME = Some (frames es) -> wal_replay w = es.
Proof.
  intros Hes Hc. rewrite (wal_replay_scan w (frames es)); auto using frames_bytes_ok.
  by apply scan_all_clean.
Qed.
End Append.

(** * Sample entries *)

Definition sample_a : Entry := {| op_number := 1; entry_key := [7; 7; 7]; entry_value := Some [1; 2] |}.
Definition sample_b : Entry := {| op_number := 2; entry_key := [7; 7; 8]; entry_value := None |}.

Lemma sample_a_ok : entry_ok sample_a.
Proof.
  constructor; simpl; try lit.
  - intros v [= <-]. lit.
  - by vm_compute.
Qed.

Lemma sample_b_ok : entry_ok sample_b.
Proof. constructor; simpl; try lit; [done | by vm_compute]. Qed.

(** A log that holds the first frame and nine bytes of the second. *)
Definition cut_log : MemVfs :=
  {| blobs := {[ WAL_NAME := {| blob_data := take 37 (frames [sample_a; sample_b]); synced_len := 0 |} ]} |}.

Lemma wal_replay_cut_witness :
  exists n, wal_replay cut_log = take n [sample_a; sample_b] /\
    (length (frames (take n [sample_a; sample_b])) <= 37)%nat /\
    ((n < 2)%nat -> (37 < length (frames (take (S n) [sample_a; sample_b])))%nat).
Proof.
  apply (wal_replay_cut cut_log [sample_a; sample_b] 37).
  - repeat constructor; first [apply sample_a_ok | apply sample_b_ok].
  - by vm_compute.
Defined.

Example cut_log_replay : wal_replay cut_log = [sample_a].
Proof. by vm_compute. Qed.
