(* ===== verification/Reader.v ===== *)
(** Reading binary formats, and the text of the catalog.

    The decoders of the repository walk a byte slice with a cursor and return
    [None] at the first read outside of it. [Reader] is that: a function of the
    bytes from the cursor on. [reads r e x] says that [r] consumes the bytes
    [e] whatever follows them and returns [x]; the lemmas on it compose, so the
    round trip of a format is proved along the structure of its decoder.

    A Rust [String] is the list of its Unicode scalar values; [utf8] is
    [as_bytes], [from_utf8_lossy] the standard library's decoder. *)

From Stdlib Require Import ZArith Lia.
From stdpp Require Import base numbers list.
From S2P Require Import Prelude.

#[local] Open Scope Z_scope.

Definition Reader (A : Type) : Type := bytes -> option (A * bytes).

#[global] Instance Reader_ret : MRet Reader := fun A a b => Some (a, b).
#[global] Instance Reader_bind : MBind Reader := fun A B k r b =>
  match r b with
  | Some (a, b') => k a b'
  | None => None
  end.

(** [return None], and [o?]. *)
Definition rd_fail {A} : Reader A := fun _ => None.
Definition rd_opt {A} (o : option A) : Reader A := fun b => (fun a => (a, b)) <$> o.

(** [b.get(p..p + n)?] and then [p += n]. *)
Definition rd_bytes (n : Z) : Reader bytes := fun b =>
  if n <=? zlen b then Some (take (Z.to_nat n) b, drop (Z.to_nat n) b) else None.

(** [*b.get(p)?] and then [p += 1]. *)
Definition rd_u8 : Reader Z := fun b =>
  match b with
  | [] => None
  | x :: b' => Some (x, b')
  end.

(** Little-endian integers. *)
Definition rd_le (n : nat) : Reader Z := x ← rd_bytes (Z.of_nat n); mret (le_value x).

(** [p += n] without a read. *)
Definition rd_skip (n : Z) : Reader unit := fun b => Some (tt, drop (Z.to_nat n) b).

(** [for _ in 0..n { out.push(..) }]. *)
Fixpoint rd_list {A} (n : nat) (r : Reader A) : Reader (list A) :=
  match n with
  | O => mret []
  | S n' => x ← r; l ← rd_list n' r; mret (x :: l)
  end.

Fixpoint rd_iter (n : nat) (r : Reader unit) : Reader unit :=
  match n with
  | O => mret tt
  | S n' => _ ← r; rd_iter n' r
  end.

(** The bytes from the cursor on. *)
Definition rd_rest : Reader bytes := fun b => Some (b, b).

(** The value a reader returns, for a decoder that ignores what is left. *)
Definition rd_run {A} (r : Reader A) (b : bytes) : option A := fst <$> r b.

(** [b.len() as u16] and [as u32] in front of the bytes. *)
Definition with_len (w : nat) (b : bytes) : bytes := le_bytes w (zlen b) ++ b.
Definition rd_with_len (w : nat) : Reader bytes := n ← rd_le w; rd_bytes n.

(** [list.len() as u16] in front of the encoded elements. *)
Definition put_list {A} (w : nat) (f : A -> bytes) (l : list A) : bytes :=
  le_bytes w (zlen l) ++ concat (f <$> l).
Definition rd_put_list {A} (w : nat) (r : Reader A) : Reader (list A) :=
  n ← rd_le w; rd_list (Z.to_nat n) r.

(** * Round trips *)

Definition reads {A} (r : Reader A) (e : bytes) (x : A) : Prop :=
  forall rest, r (e ++ rest) = Some (x, rest).

Lemma reads_ret {A} (x : A) : reads (mret x) [] x.
Proof. intros rest. reflexivity. Qed.

Lemma reads_bind {A B} (r : Reader A) (k : A -> Reader B) e1 e2 x y :
  reads r e1 x -> reads (k x) e2 y -> reads (r ≫= k) (e1 ++ e2) y.
Proof.
  intros Hr Hk rest. unfold mbind, Reader_bind. rewrite <- app_assoc, Hr. apply Hk.
Qed.

Lemma reads_bind_ret {A B} (r : Reader A) (f : A -> B) e x :
  reads r e x -> reads (a ← r; mret (f a)) e (f x).
Proof. intros Hr rest. unfold mbind, Reader_bind. by rewrite Hr. Qed.

(** The last read of a decoder; [f] builds the value. *)
Lemma reads_last {A B} (r : Reader A) (f : A -> B) e x y :
  reads r e x -> f x = y -> reads (a ← r; mret (f a)) e y.
Proof. intros Hr <-. by apply reads_bind_ret. Qed.

Lemma reads_bind_last {A B} (r : Reader A) (k : A -> Reader B) e x y :
  reads r e x -> reads (k x) [] y -> reads (r ≫= k) e y.
Proof. intros Hr Hk. rewrite <- (app_nil_r e). by eapply reads_bind. Qed.

Lemma reads_ret_eq {A} (x y : A) : x = y -> reads (mret x) [] y.
Proof. intros ->. apply reads_ret. Qed.

Lemma reads_bind_nil {A B} (r : Reader A) (k : A -> Reader B) e x y :
  reads r [] x -> reads (k x) e y -> reads (r ≫= k) e y.
Proof. apply (reads_bind r k []). Qed.

Lemma reads_opt {A} (o : option A) x : o = Some x -> reads (rd_opt o) [] x.
Proof. intros -> rest. reflexivity. Qed.

Lemma reads_u8 x : reads rd_u8 [x] x.
Proof. intros rest. reflexivity. Qed.

Lemma reads_bytes n b : n = zlen b -> reads (rd_bytes n) b b.
Proof.
  intros -> rest. unfold rd_bytes. rewrite zlen_app.
  rewrite (proj2 (Z.leb_le _ _)) by (pose proof (zlen_nonneg rest); lia).
  unfold zlen. by rewrite Nat2Z.id, take_app_length, drop_app_length.
Qed.

Lemma reads_skip n b : n = zlen b -> reads (rd_skip n) b tt.
Proof. intros -> rest. unfold rd_skip, zlen. by rewrite Nat2Z.id, drop_app_length. Qed.

Lemma reads_le n v : 0 <= v < 256 ^ Z.of_nat n -> reads (rd_le n) (le_bytes n v) v.
Proof.
  intros Hv. unfold rd_le. rewrite <- (le_value_le_bytes_small n v) at 2 by done.
  apply reads_bind_ret, reads_bytes. by rewrite le_bytes_zlen.
Qed.

Lemma reads_u16 v : u16_ok v -> reads (rd_le 2) (le_bytes 2 v) v.
Proof. intros H. apply reads_le. unfold u16_ok, u16_max in H. lia. Qed.

Lemma reads_u32 v : u32_ok v -> reads (rd_le 4) (le_bytes 4 v) v.
Proof. intros H. apply reads_le. unfold u32_ok, u32_max in H. lia. Qed.

Lemma reads_u64 v : u64_ok v -> reads (rd_le 8) (le_bytes 8 v) v.
Proof. intros H. apply reads_le. unfold u64_ok, u64_max in H. lia. Qed.

Lemma reads_with_len w b : zlen b < 256 ^ Z.of_nat w -> reads (rd_with_len w) (with_len w b) b.
Proof.
  intros Hb. unfold rd_with_len, with_len. eapply reads_bind.
  - apply reads_le. pose proof (zlen_nonneg b). lia.
  - by apply reads_bytes.
Qed.

Lemma reads_list {A} (r : Reader A) (f : A -> bytes) l :
  Forall (fun x => reads r (f x) x) l -> reads (rd_list (length l) r) (concat (f <$> l)) l.
Proof.
  induction 1 as [ | x l Hx Hl IH]; [apply reads_ret | ].
  cbn. eapply reads_bind; [exact Hx | ]. by apply reads_bind_ret.
Qed.

Lemma reads_iter {A} (r : Reader unit) (f : A -> bytes) l :
  Forall (fun x => reads r (f x) tt) l -> reads (rd_iter (length l) r) (concat (f <$> l)) tt.
Proof.
  induction 1 as [ | x l Hx Hl IH]; [apply reads_ret | ].
  cbn. eapply reads_bind; [exact Hx | exact IH].
Qed.

Lemma reads_put_list {A} w (r : Reader A) (f : A -> bytes) l :
  zlen l < 256 ^ Z.of_nat w -> Forall (fun x => reads r (f x) x) l ->
  reads (rd_put_list w r) (put_list w f l) l.
Proof.
  intros Hw Hl. unfold rd_put_list, put_list. eapply reads_bind.
  - apply reads_le. pose proof (zlen_nonneg l). lia.
  - unfold zlen. rewrite Nat2Z.id. by apply reads_list.
Qed.

Lemma reads_run {A} (r : Reader A) e x : reads r e x -> rd_run r e = Some x.
Proof.
  intros Hr. unfold rd_run. specialize (Hr []). rewrite app_nil_r in Hr. by rewrite Hr.
Qed.

Lemma reads_run_app {A} (r : Reader A) e junk x : reads r e x -> rd_run r (e ++ junk) = Some x.
Proof. intros Hr. unfold rd_run. by rewrite Hr. Qed.

Lemma bind_some {A B} (r : Reader A) (k : A -> Reader B) b x b' :
  r b = Some (x, b') -> (r ≫= k) b = k x b'.
Proof. intros Hr. unfold mbind, Reader_bind. by rewrite Hr. Qed.

Lemma bind_none {A B} (r : Reader A) (k : A -> Reader B) b : r b = None -> (r ≫= k) b = None.
Proof. intros Hr. unfold mbind, Reader_bind. by rewrite Hr. Qed.

Lemma reads_eq {A} (r : Reader A) e e' x : reads r e x -> e = e' -> reads r e' x.
Proof. by intros ? <-. Qed.

(** * UTF-8 *)

Definition is_scalar (c : Z) : bool :=
  (0 <=? c) && (c <? 0xD800) || (0xE000 <=? c) && (c <? 0x110000).

Definition utf8_char (c : Z) : bytes :=
  if c <? 0x80 then [c]
  else if c <? 0x800 then [0xC0 + c / 64; 0x80 + c mod 64]
  else if c <? 0x10000 then [0xE0 + c / 4096; 0x80 + c / 64 mod 64; 0x80 + c mod 64]
  else [0xF0 + c / 262144; 0x80 + c / 4096 mod 64; 0x80 + c / 64 mod 64; 0x80 + c mod 64].

Definition utf8 (s : list Z) : bytes := concat (utf8_char <$> s).

Definition byte_in (lo hi x : Z) : bool := (lo <=? x) && (x <=? hi).
Definition cont (x : Z) : bool := byte_in 0x80 0xBF x.

(** The admissible second bytes of a three- and of a four-byte sequence. *)
Definition second3 (b0 b1 : Z) : bool :=
  if b0 =? 0xE0 then byte_in 0xA0 0xBF b1
  else if b0 =? 0xED then byte_in 0x80 0x9F b1 else cont b1.
Definition second4 (b0 b1 : Z) : bool :=
  if b0 =? 0xF0 then byte_in 0x90 0xBF b1
  else if b0 =? 0xF4 then byte_in 0x80 0x8F b1 else cont b1.

(** U+FFFD stands for a maximal invalid sequence. *)
Definition REPLACEMENT : Z := 0xFFFD.

(** [String::from_utf8_lossy]. *)
Fixpoint from_utf8_lossy (bs : bytes) : list Z :=
  match bs with
  | [] => []
  | b0 :: t =>
      if b0 <? 0x80 then b0 :: from_utf8_lossy t
      else if byte_in 0xC2 0xDF b0 then
        match t with
        | b1 :: t1 =>
            if cont b1 then (b0 - 0xC0) * 64 + (b1 - 0x80) :: from_utf8_lossy t1
            else REPLACEMENT :: from_utf8_lossy t
        | [] => [REPLACEMENT]
        end
      else if byte_in 0xE0 0xEF b0 then
        match t with
        | b1 :: t1 =>
            if second3 b0 b1 then
              match t1 with
              | b2 :: t2 =>
                  if cont b2
                  then (b0 - 0xE0) * 4096 + (b1 - 0x80) * 64 + (b2 - 0x80) :: from_utf8_lossy t2
                  else REPLACEMENT :: from_utf8_lossy t1
              | [] => [REPLACEMENT]
              end
            else REPLACEMENT :: from_utf8_lossy t
        | [] => [REPLACEMENT]
        end
      else if byte_in 0xF0 0xF4 b0 then
        match t with
        | b1 :: t1 =>
            if second4 b0 b1 then
              match t1 with
              | b2 :: t2 =>
                  if cont b2 then
                    match t2 with
                    | b3 :: t3 =>
                        if cont b3
                        then (b0 - 0xF0) * 262144 + (b1 - 0x80) * 4096 + (b2 - 0x80) * 64 + (b3 - 0x80)
                               :: from_utf8_lossy t3
                        else REPLACEMENT :: from_utf8_lossy t2
                    | [] => [REPLACEMENT]
                    end
                  else REPLACEMENT :: from_utf8_lossy t1
              | [] => [REPLACEMENT]
              end
            else REPLACEMENT :: from_utf8_lossy t
        | [] => [REPLACEMENT]
        end
      else REPLACEMENT :: from_utf8_lossy t
  end.

Definition string_ok (s : list Z) : Prop := Forall (fun c => is_scalar c = true) s.

(** [lia] with the equations of division and remainder. *)
Ltac zdiv := Z.to_euclidean_division_equations; lia.

(** Decides the next test of the decoder, on bytes given by div and mod. *)
Ltac utf8_if :=
  match goal with
  | |- context [if ?c then _ else _] =>
      first [ replace c with true
                by (symmetry; unfold byte_in; rewrite ?andb_true_iff, ?Z.leb_le, ?Z.ltb_lt, ?Z.eqb_eq; zdiv)
            | replace c with false
                by (symmetry; unfold byte_in;
                    rewrite ?andb_false_iff, ?Z.leb_gt, ?Z.ltb_ge, ?Z.eqb_neq; zdiv) ]
  end.

Section Chars.
Variables (c : Z) (rest : bytes).

Lemma lossy_char1 : 0 <= c < 0x80 -> from_utf8_lossy (c :: rest) = c :: from_utf8_lossy rest.
Proof. intros Hc. cbn [from_utf8_lossy]. by utf8_if. Qed.

Lemma lossy_char2 : 0x80 <= c < 0x800 ->
  from_utf8_lossy (0xC0 + c / 64 :: 0x80 + c mod 64 :: rest) = c :: from_utf8_lossy rest.
Proof.
  intros Hc. cbn [from_utf8_lossy]. unfold cont. do 3 utf8_if. f_equal. zdiv.
Qed.

Lemma second3_char : 0x800 <= c < 0xD800 \/ 0xE000 <= c < 0x10000 ->
  second3 (0xE0 + c / 4096) (0x80 + c / 64 mod 64) = true.
Proof.
  intros Hc. unfold second3, cont, byte_in.
  destruct (Z.eqb_spec (0xE0 + c / 4096) 0xE0); [ | destruct (Z.eqb_spec (0xE0 + c / 4096) 0xED)];
    rewrite andb_true_iff, !Z.leb_le; zdiv.
Qed.

Lemma lossy_char3 : 0x800 <= c < 0xD800 \/ 0xE000 <= c < 0x10000 ->
  from_utf8_lossy (0xE0 + c / 4096 :: 0x80 + c / 64 mod 64 :: 0x80 + c mod 64 :: rest) =
  c :: from_utf8_lossy rest.
Proof.
  intros Hc. cbn [from_utf8_lossy]. rewrite second3_char by done. unfold cont.
  do 4 utf8_if. f_equal. zdiv.
Qed.

Lemma second4_char : 0x10000 <= c < 0x110000 ->
  second4 (0xF0 + c / 262144) (0x80 + c / 4096 mod 64) = true.
Proof.
  intros Hc. unfold second4, cont, byte_in.
  destruct (Z.eqb_spec (0xF0 + c / 262144) 0xF0); [ | destruct (Z.eqb_spec (0xF0 + c / 262144) 0xF4)];
    rewrite andb_true_iff, !Z.leb_le; zdiv.
Qed.

Lemma lossy_char4 : 0x10000 <= c < 0x110000 ->
  from_utf8_lossy (0xF0 + c / 262144 :: 0x80 + c / 4096 mod 64 :: 0x80 + c / 64 mod 64 ::
                   0x80 + c mod 64 :: rest) = c :: from_utf8_lossy rest.
Proof.
  intros Hc. cbn [from_utf8_lossy]. rewrite second4_char by done. unfold cont.
  do 6 utf8_if. f_equal. zdiv.
Qed.

Lemma from_utf8_lossy_char :
  is_scalar c = true -> from_utf8_lossy (utf8_char c ++ rest) = c :: from_utf8_lossy rest.
Proof.
  unfold is_scalar. rewrite orb_true_iff, !andb_true_iff, !Z.leb_le, !Z.ltb_lt. intros Hc.
  unfold utf8_char.
  destruct (Z.ltb_spec c 0x80); [by apply lossy_char1; lia | ].
  destruct (Z.ltb_spec c 0x800); [by apply lossy_char2; lia | ].
  destruct (Z.ltb_spec c 0x10000); [apply lossy_char3; lia | apply lossy_char4; lia].
Qed.
End Chars.

Lemma from_utf8_lossy_utf8 s : string_ok s -> from_utf8_lossy (utf8 s) = s.
Proof.
  induction 1 as [ | c s Hc Hs IH]; [done | ].
  unfold utf8 in *. cbn [fmap list_fmap concat]. by rewrite from_utf8_lossy_char, IH.
Qed.

(** Strings with a length prefix: [put_str]/[get_str] at width 2,
    [put_str32]/[get_str32] at width 4. *)
Definition put_string (w : nat) (s : list Z) : bytes := with_len w (utf8 s).
Definition rd_string (w : nat) : Reader (list Z) := x ← rd_with_len w; mret (from_utf8_lossy x).

Definition str_ok (w : nat) (s : list Z) : Prop := string_ok s /\ zlen (utf8 s) < 256 ^ Z.of_nat w.

Lemma reads_string w s : str_ok w s -> reads (rd_string w) (put_string w s) s.
Proof.
  intros [Hs Hl]. unfold rd_string, put_string. rewrite <- (from_utf8_lossy_utf8 s Hs) at 2.
  by apply reads_bind_ret, reads_with_len.
Qed.
