(* ===== verification/SsTable.v ===== *)
(** kessel-storage: Bloom filters, sorted string tables and the manifest.

    The tables and the manifest are written as one checksummed blob each and
    read back whole. Reading code that indexes a buffer out of range panics;
    the model keeps that as an outcome.

    Source: src/crates/kessel-storage/src/lib.rs ([Bloom], [write_sstable],
    [SsTable], [Manifest], [read_manifest], [write_manifest]). *)

From Stdlib Require Import ZArith Lia.
From stdpp Require Import base numbers list sorting gmap.
From S2P Require Import Prelude BTree Proto Vfs Reader.

#[local] Open Scope Z_scope.

(** Keys are byte vectors in lexicographic order; a value is [None] for a
    tombstone. *)
Abbreviation Key := (list Z).
Abbreviation Slot := (option bytes).
Abbreviation KvMap := (gmap Key Slot).

Definition SST_MAGIC : Z := 0x4B535354.
Definition MAN_MAGIC : Z := 0x4B4D414E.
(** The ASCII bytes of [MANIFEST]. *)
Definition MANIFEST_NAME : bytes := [77; 65; 78; 73; 70; 69; 83; 84].

(** * Bloom filter *)

Record Bloom := { bits : list Z; mask : Z; bloom_k : Z }.

(** FNV-1a, 64 bits. *)
Definition bloom_hash (key : bytes) : Z :=
  fold_left (fun h b => wrap64 (Z.lxor h b * 0x100000001b3)) key 0xcbf29ce484222325.

Definition positions (key : bytes) : Z * Z :=
  let h := bloom_hash key in (h, Z.lor (Z.shiftr h 32) 1).

(** The bit of round [i]: [h1 + i*h2] wrapping, masked. *)
Definition bloom_bit (b : Bloom) (key : bytes) (i : Z) : Z :=
  let '(h1, h2) := positions key in
  Z.land (wrap64 (h1 + wrap64 (i * h2))) (mask b).

Definition set_bit (bs : list Z) (bit : Z) : list Z :=
  alter (fun w => Z.lor w (Z.shiftl 1 (Z.land bit 63))) (Z.to_nat (Z.shiftr bit 6)) bs.

Definition test_bit (bs : list Z) (bit : Z) : bool :=
  match bs !! Z.to_nat (Z.shiftr bit 6) with
  | Some w => negb (Z.land w (Z.shiftl 1 (Z.land bit 63)) =? 0)
  | None => false
  end.

(** The rounds [0..k]. *)
Definition rounds (b : Bloom) : list Z := seqZ 0 (bloom_k b).

Definition bloom_insert (b : Bloom) (key : bytes) : Bloom :=
  {| bits := fold_left (fun bs i => set_bit bs (bloom_bit b key i)) (rounds b) (bits b);
     mask := mask b; bloom_k := bloom_k b |}.

Definition next_power_of_two (v : Z) : Z := 2 ^ Z.log2_up v.

Definition bloom_build (n : Z) (keys : list Key) : Bloom :=
  let bits_target := Z.max n 1 * 10 in
  let words := next_power_of_two (bits_target / 64 + 1) in
  fold_left bloom_insert keys
    {| bits := replicate (Z.to_nat words) 0; mask := words * 64 - 1; bloom_k := 7 |}.

Definition maybe_contains (b : Bloom) (key : bytes) : bool :=
  forallb (fun i => test_bit (bits b) (bloom_bit b key i)) (rounds b).

(** * Tables *)

Definition encode_slot (kv : Key * Slot) : bytes :=
  le_bytes 2 (zlen kv.1) ++ kv.1 ++
  match kv.2 with
  | Some v => 0 :: le_bytes 4 (zlen v) ++ v
  | None => [1]
  end.

Definition sstable_body (entries : list (Key * Slot)) : bytes :=
  le_bytes 4 SST_MAGIC ++ le_bytes 4 (zlen entries) ++ concat (map encode_slot entries).

Definition encode_sstable (entries : KvMap) : bytes :=
  let body := sstable_body (bt_list entries) in
  body ++ le_bytes 4 (crc32c body) ++ le_bytes 4 SST_MAGIC.

Record SsTable := { sst_entries : list (Key * Slot); sst_bloom : Bloom }.

(** The parse loop of [SsTable::open]; a slice out of range panics. *)
Fixpoint parse_slots (count : nat) (buf : bytes) (p : Z) : outcome (list (Key * Slot)) :=
  match count with
  | O => Ret []
  | S count' =>
      kb ← or_panic (get_range buf p (p + 2));
      let kl := le_value kb in
      key ← or_panic (get_range buf (p + 2) (p + 2 + kl));
      tag ← or_panic (get_at buf (p + 2 + kl));
      let p := p + 2 + kl + 1 in
      if tag =? 0 then
        vb ← or_panic (get_range buf p (p + 4));
        let vl := le_value vb in
        v ← or_panic (get_range buf (p + 4) (p + 4 + vl));
        rest ← parse_slots count' buf (p + 4 + vl);
        Ret ((key, Some v) :: rest)
      else
        rest ← parse_slots count' buf p;
        Ret ((key, None) :: rest)
  end.

Definition parse_sstable (buf : bytes) : outcome SsTable :=
  let len := zlen buf in
  if len <? 16 then Err InvalidData else
  magic ← or_panic (get_range buf 0 4);
  if negb (le_value magic =? SST_MAGIC) then Err InvalidData else
  crcb ← or_panic (get_range buf (len - 8) (len - 4));
  body ← or_panic (get_range buf 0 (len - 8));
  if negb (crc32c body =? le_value crcb) then Err InvalidData else
  cb ← or_panic (get_range buf 4 8);
  entries ← parse_slots (Z.to_nat (le_value cb)) buf 8;
  Ret {| sst_entries := entries; sst_bloom := bloom_build (zlen entries) entries.*1 |}.

(** Does the table's key span meet [lo, hi]? *)
Definition overlaps (t : SsTable) (lo hi : Key) : bool :=
  match head (sst_entries t), last (sst_entries t) with
  | Some (mn, _), Some (mx, _) => kleb mn hi && kleb lo mx
  | _, _ => false
  end.

(** [binary_search_by] over the sorted entries, as the entry it finds. *)
Definition search (entries : list (Key * Slot)) (key : Key) : option Slot :=
  snd <$> List.find (fun kv => match kcmp kv.1 key with Eq => true | _ => false end) entries.

Definition sst_get (t : SsTable) (key : Key) : option Slot :=
  if negb (maybe_contains (sst_bloom t) key) then None else search (sst_entries t) key.

(** [partition_point]: the length of the longest prefix the predicate holds on. *)
Fixpoint partition_point {A} (f : A -> bool) (l : list A) : nat :=
  match l with
  | [] => 0
  | x :: l' => if f x then S (partition_point f l') else 0
  end.

(** The entries of a table in [lo, hi]: from the partition point on, up to the
    first key past [hi]. *)
Fixpoint take_upto (hi : Key) (l : list (Key * Slot)) : list (Key * Slot) :=
  match l with
  | [] => []
  | kv :: l' => if kltb hi kv.1 then [] else kv :: take_upto hi l'
  end.

Definition sst_range (t : SsTable) (lo hi : Key) : list (Key * Slot) :=
  let s := partition_point (fun kv => kltb kv.1 lo) (sst_entries t) in
  take_upto hi (drop s (sst_entries t)).

(** * Manifest *)

Record Manifest := {
  man_sstables : list bytes;
  next_sst : Z;
  man_high_op : Z
}.

Definition manifest_default : Manifest :=
  {| man_sstables := []; next_sst := 0; man_high_op := 0 |}.

Definition encode_name (s : bytes) : bytes := le_bytes 4 (zlen s) ++ s.

Definition manifest_body (m : Manifest) : bytes :=
  le_bytes 4 MAN_MAGIC ++ le_bytes 8 (next_sst m) ++ le_bytes 4 (zlen (man_sstables m)) ++
  concat (map encode_name (man_sstables m)) ++ le_bytes 8 (man_high_op m).

Definition encode_manifest (m : Manifest) : bytes :=
  manifest_body m ++ le_bytes 4 (crc32c (manifest_body m)).

Fixpoint parse_names (count : nat) (buf : bytes) (p : Z) : outcome (list bytes * Z) :=
  match count with
  | O => Ret ([], p)
  | S count' =>
      nb ← or_panic (get_range buf p (p + 4));
      let nl := le_value nb in
      s ← or_panic (get_range buf (p + 4) (p + 4 + nl));
      rest ← parse_names count' buf (p + 4 + nl);
      Ret (utf8 (from_utf8_lossy s) :: rest.1, rest.2)
  end.

(** The body of [read_manifest] on the bytes of the blob. *)
Definition parse_manifest (buf : bytes) : outcome Manifest :=
  let len := zlen buf in
  if len <? 12 then Ret manifest_default else
  magic ← or_panic (get_range buf 0 4);
  if negb (le_value magic =? MAN_MAGIC) then Ret manifest_default else
  crcb ← or_panic (get_range buf (len - 4) len);
  body ← or_panic (get_range buf 0 (len - 4));
  if negb (crc32c body =? le_value crcb) then Ret manifest_default else
  nb ← or_panic (get_range buf 4 12);
  cb ← or_panic (get_range buf 12 16);
  names ← parse_names (Z.to_nat (le_value cb)) buf 16;
  let p := names.2 in
  high ← (if p + 4 + 8 <=? len
          then hb ← or_panic (get_range buf p (p + 8)); Ret (le_value hb)
          else Ret 0);
  Ret {| man_sstables := names.1; next_sst := le_value nb; man_high_op := high |}.

Section Files.
Context {W : Type} `{Vfs W}.

Definition write_sstable (name : bytes) (entries : KvMap) : M W unit :=
  _ ← vfs_open name;
  _ ← disk_write_at name 0 (encode_sstable entries);
  disk_sync name.

Definition sst_open (name : bytes) : M W SsTable :=
  _ ← vfs_open name;
  w ← m_get;
  let len := disk_len w name in
  buf ← m_lift (read_buf w name 0 len);
  m_lift (parse_sstable buf).

(** A manifest that cannot be opened or read counts as the default one. *)
Definition read_manifest : M W Manifest := fun w =>
  if negb (vfs_exists w MANIFEST_NAME) then (w, Ret manifest_default) else
  match vfs_open MANIFEST_NAME w with
  | (w', Err _) => (w', Ret manifest_default)
  | (w', Panic) => (w', Panic)
  | (w', Ret _) =>
      let len := disk_len w' MANIFEST_NAME in
      if len <? 12 then (w', Ret manifest_default) else
      match read_buf w' MANIFEST_NAME 0 len with
      | Ret buf => (w', parse_manifest buf)
      | Err _ => (w', parse_manifest (replicate (Z.to_nat len) 0))
      | Panic => (w', Panic)
      end
  end.

Definition write_manifest (m : Manifest) : M W unit :=
  _ ← vfs_open MANIFEST_NAME;
  _ ← disk_write_at MANIFEST_NAME 0 (encode_manifest m);
  disk_sync MANIFEST_NAME.
End Files.

(** [format!("sst-{:08}", n)]. *)
Fixpoint dec_digits (fuel : nat) (n : Z) : bytes :=
  match fuel with
  | O => []
  | S fuel' => if n <? 10 then [48 + n] else dec_digits fuel' (n / 10) ++ [48 + n mod 10]
  end.

Definition pad8 (s : bytes) : bytes := replicate (8 - length s) 48 ++ s.

(** A [u64] has at most twenty decimal digits. *)
Definition sst_name (n : Z) : bytes := [115; 115; 116; 45] ++ pad8 (dec_digits 20 n).

Example sst_name_12 : sst_name 12 = [115; 115; 116; 45; 48; 48; 48; 48; 48; 48; 49; 50].
Proof. vm_compute. reflexivity. Qed.

(** * The Bloom filter has no false negatives *)

Lemma land_pow2_testbit w n : 0 <= n ->
  negb (Z.land w (Z.shiftl 1 n) =? 0) = Z.testbit w n.
Proof.
  intros Hn. rewrite Z.shiftl_1_l.
  assert (forall m, Z.testbit (Z.land w (2 ^ n)) m = Z.testbit w n && (m =? n)) as Hb.
  { intros m. rewrite Z.land_spec. destruct (Z.eqb_spec m n) as [-> | Hne].
    - by rewrite Z.pow2_bits_true.
    - by rewrite Z.pow2_bits_false, !andb_false_r. }
  destruct (Z.testbit w n) eqn:E.
  - destruct (Z.eqb_spec (Z.land w (2 ^ n)) 0) as [H0 | ]; [ | done].
    specialize (Hb n). by rewrite H0, Z.bits_0, Z.eqb_refl in Hb.
  - replace (Z.land w (2 ^ n)) with 0; [done | ]. apply Z.bits_inj. intros m.
    by rewrite Z.bits_0, Hb.
Qed.

Lemma land_63_nonneg b : 0 <= Z.land b 63.
Proof. apply Z.land_nonneg. lia. Qed.

Lemma test_bit_spec bs bit :
  test_bit bs bit = match bs !! Z.to_nat (Z.shiftr bit 6) with
                    | Some w => Z.testbit w (Z.land bit 63)
                    | None => false
                    end.
Proof. unfold test_bit. dcase; [ | done]. apply land_pow2_testbit, land_63_nonneg. Qed.

Lemma set_bit_length bs bit : length (set_bit bs bit) = length bs.
Proof. apply length_alter. Qed.

(** Setting a bit in range sets it and clears none. *)
Lemma set_bit_sets bs bit :
  (Z.to_nat (Z.shiftr bit 6) < length bs)%nat -> test_bit (set_bit bs bit) bit = true.
Proof.
  intros Hl. rewrite test_bit_spec. unfold set_bit.
  apply lookup_lt_is_Some in Hl as [w Hw].
  rewrite list_lookup_alter, decide_True, Hw by done. simpl.
  rewrite Z.lor_spec, Z.shiftl_1_l, Z.pow2_bits_true by apply land_63_nonneg.
  apply orb_true_r.
Qed.

Lemma set_bit_keeps bs bit bit' :
  test_bit bs bit' = true -> test_bit (set_bit bs bit) bit' = true.
Proof.
  rewrite !test_bit_spec. unfold set_bit. rewrite list_lookup_alter.
  case_decide as Heq; [ | done]. rewrite <- Heq.
  destruct (bs !! Z.to_nat (Z.shiftr bit 6)) as [w | ]; [ | done]. simpl. intros Hw.
  by rewrite Z.lor_spec, Hw.
Qed.

(** A filter whose mask stays inside its words: every access is in range. *)
Definition bloom_wf (b : Bloom) : Prop :=
  exists n, 0 <= n /\ zlen (bits b) = 2 ^ n /\ mask b = 2 ^ n * 64 - 1.

Lemma bloom_bit_range b key i :
  bloom_wf b -> (Z.to_nat (Z.shiftr (bloom_bit b key i) 6) < length (bits b))%nat.
Proof.
  intros (n & Hn & Hl & Hm). unfold bloom_bit. destruct (positions key) as [h1 h2].
  rewrite Hm. replace (2 ^ n * 64 - 1) with (Z.ones (n + 6))
    by (rewrite Z.ones_equiv, Z.pow_add_r by lia; change (2 ^ 6) with 64; lia).
  rewrite Z.land_ones by lia. rewrite Z.shiftr_div_pow2 by lia.
  set (v := wrap64 _). pose proof (Z.mod_pos_bound v (2 ^ (n + 6)) ltac:(lia)) as Hv.
  rewrite Z.pow_add_r in * by lia. change (2 ^ 6) with 64 in *.
  assert (v mod (2 ^ n * 64) / 64 < 2 ^ n) by (apply Z.div_lt_upper_bound; lia).
  assert (0 <= v mod (2 ^ n * 64) / 64) by (apply Z.div_pos; lia).
  unfold zlen in Hl. lia.
Qed.

Lemma fold_set_bit_length (f : Z -> Z) js bs :
  length (fold_left (fun bs i => set_bit bs (f i)) js bs) = length bs.
Proof. revert bs. induction js; intros; simpl; [done | ]. by rewrite IHjs, set_bit_length. Qed.

Lemma fold_set_bit_keeps (f : Z -> Z) js bs bit :
  test_bit bs bit = true ->
  test_bit (fold_left (fun bs i => set_bit bs (f i)) js bs) bit = true.
Proof. revert bs. induction js; intros; simpl; [done | ]. auto using set_bit_keeps. Qed.

Lemma fold_set_bit_sets (f : Z -> Z) js bs i :
  i ∈ js -> (Z.to_nat (Z.shiftr (f i) 6) < length bs)%nat ->
  test_bit (fold_left (fun bs i => set_bit bs (f i)) js bs) (f i) = true.
Proof.
  intros Hi. revert bs. induction Hi as [i js | i j js Hi IH]; intros bs Hl; simpl.
  - by apply fold_set_bit_keeps, set_bit_sets.
  - apply IH. by rewrite set_bit_length.
Qed.

Lemma bloom_insert_wf b key : bloom_wf b -> bloom_wf (bloom_insert b key).
Proof.
  intros (n & Hn & Hl & Hm). exists n. simpl. unfold zlen in *.
  by rewrite fold_set_bit_length.
Qed.

(** The bits tested depend on the mask only. *)
Lemma bloom_insert_bit b key key' i :
  bloom_bit (bloom_insert b key) key' i = bloom_bit b key' i.
Proof. reflexivity. Qed.

Lemma bloom_insert_contains b key : bloom_wf b -> maybe_contains (bloom_insert b key) key = true.
Proof.
  intros Hwf. unfold maybe_contains. apply forallb_forall. intros i Hi.
  rewrite bloom_insert_bit. simpl. apply (fold_set_bit_sets (bloom_bit b key)).
  - by apply list_elem_of_In.
  - by apply bloom_bit_range.
Qed.

Lemma bloom_insert_keeps b key key' :
  maybe_contains b key' = true -> maybe_contains (bloom_insert b key) key' = true.
Proof.
  unfold maybe_contains. rewrite !forallb_forall. intros Hb i Hi.
  rewrite bloom_insert_bit. simpl. apply (fold_set_bit_keeps (bloom_bit b key)). by apply Hb.
Qed.

Lemma bloom_fold_contains keys b key :
  bloom_wf b -> key ∈ keys \/ maybe_contains b key = true ->
  maybe_contains (fold_left bloom_insert keys b) key = true.
Proof.
  revert b. induction keys as [ | k keys IH]; intros b Hwf [Hin | Hb]; simpl.
  - by apply elem_of_nil in Hin.
  - done.
  - apply IH; [by apply bloom_insert_wf | ]. apply elem_of_cons in Hin as [-> | Hin]; [ | auto].
    right. by apply bloom_insert_contains.
  - apply IH; [by apply bloom_insert_wf | ]. right. by apply bloom_insert_keeps.
Qed.

Lemma bloom_build_contains n keys key :
  key ∈ keys -> maybe_contains (bloom_build n keys) key = true.
Proof.
  intros Hin. apply bloom_fold_contains; [ | by left].
  exists (Z.log2_up (Z.max n 1 * 10 / 64 + 1)). pose proof (Z.log2_up_nonneg (Z.max n 1 * 10 / 64 + 1)).
  split_and!; [done | | reflexivity]. simpl. unfold zlen, next_power_of_two.
  rewrite length_replicate. apply Z2Nat.id. apply Z.pow_nonneg. lia.
Qed.

(** * Tables read back *)

Definition slot_ok (kv : Key * Slot) : Prop :=
  bytes_ok kv.1 /\ zlen kv.1 <= u16_max /\
  forall v, kv.2 = Some v -> bytes_ok v /\ zlen v <= u32_max.

Definition kv_ok (m : KvMap) : Prop :=
  (forall k v, m !! k = Some v -> slot_ok (k, v)) /\ Z.of_nat (size m) <= u32_max.

Lemma slot_bytes_ok kv : slot_ok kv -> bytes_ok (encode_slot kv).
Proof.
  destruct kv as [k [v | ]]; intros (Hk & Hl & Hv); unfold encode_slot; simpl;
    rewrite !bytes_ok_app; split_and!; auto with kessel.
  - constructor; [unfold byte_ok; lia | ]. apply bytes_ok_app. split; [auto with kessel | by apply Hv].
  - constructor; [unfold byte_ok; lia | constructor].
Qed.

(** One step of the loop over an encoded slot. *)
Lemma parse_slots_cons pre kv post n :
  slot_ok kv ->
  parse_slots (S n) (pre ++ encode_slot kv ++ post) (zlen pre) =
  (rest ← parse_slots n (pre ++ encode_slot kv ++ post) (zlen (pre ++ encode_slot kv));
   Ret (kv :: rest)).
Proof.
  intros (Hk & Hl & Hv). destruct kv as [k v]. simpl in Hk, Hl, Hv.
  set (buf := pre ++ _ ++ post). pose proof (zlen_nonneg k).
  set (tl := match v with Some x => 0 :: le_bytes 4 (zlen x) ++ x | None => [1] end).
  assert (buf = pre ++ le_bytes 2 (zlen k) ++ k ++ tl ++ post) as Hb
    by (unfold buf, encode_slot; cbn [fst snd]; fold tl; by rewrite <- !app_assoc).
  cbn [parse_slots].
  assert (get_range buf (zlen pre) (zlen pre + 2) = Some (le_bytes 2 (zlen k))) as ->
    by (rewrite Hb; apply get_range_app; autorewrite with zlen; lia).
  ob. cbn [or_panic]. ob. rewrite le_value_u16 by (unfold u16_ok; lia).
  assert (get_range buf (zlen pre + 2) (zlen pre + 2 + zlen k) = Some k) as ->
    by (rewrite Hb, app_assoc; apply get_range_app; autorewrite with zlen; lia).
  cbn [or_panic]. ob.
  assert (zlen (pre ++ encode_slot (k, v)) = zlen pre + 2 + zlen k + zlen tl) as ->
    by (unfold encode_slot; cbn [fst snd]; fold tl; autorewrite with zlen; lia).
  destruct v as [x | ].
  - destruct (Hv x eq_refl) as [Hx Hxl]. pose proof (zlen_nonneg x).
    assert (get_at buf (zlen pre + 2 + zlen k) = Some 0) as ->.
    { rewrite Hb. unfold tl. rewrite (app_assoc pre), (app_assoc (pre ++ _)).
      apply get_at_app. autorewrite with zlen. lia. }
    cbn [or_panic]. ob. rewrite Z.eqb_refl. set (q := zlen pre + 2 + zlen k + 1).
    assert (get_range buf q (q + 4) = Some (le_bytes 4 (zlen x))) as ->.
    { rewrite Hb. unfold tl.
      transitivity (get_range ((pre ++ le_bytes 2 (zlen k) ++ k ++ [0]) ++ le_bytes 4 (zlen x) ++ x ++ post) q (q + 4)).
      - f_equal. rewrite <- !app_assoc. simpl. by rewrite <- app_assoc.
      - apply get_range_app; unfold q; autorewrite with zlen; lia. }
    cbn [or_panic]. ob. rewrite le_value_u32 by (unfold u32_ok; lia).
    assert (get_range buf (q + 4) (q + 4 + zlen x) = Some x) as ->.
    { rewrite Hb. unfold tl.
      transitivity (get_range ((pre ++ le_bytes 2 (zlen k) ++ k ++ 0 :: le_bytes 4 (zlen x)) ++ x ++ post) (q + 4) (q + 4 + zlen x)).
      - f_equal. rewrite <- !app_assoc. simpl. by rewrite <- app_assoc.
      - apply get_range_app; unfold q; autorewrite with zlen; lia. }
    cbn [or_panic]. ob.
    replace (zlen pre + 2 + zlen k + zlen tl) with (q + 4 + zlen x)
      by (unfold q, tl; autorewrite with zlen; lia). done.
  - assert (get_at buf (zlen pre + 2 + zlen k) = Some 1) as ->.
    { rewrite Hb. unfold tl. rewrite (app_assoc pre), (app_assoc (pre ++ _)).
      apply get_at_app. autorewrite with zlen. lia. }
    cbn [or_panic]. ob. done.
Qed.

Lemma parse_slots_concat l pre post :
  Forall slot_ok l ->
  parse_slots (length l) (pre ++ concat (map encode_slot l) ++ post) (zlen pre) = Ret l.
Proof.
  intros Hl. revert pre. induction Hl as [ | kv l Hkv Hl IH]; intros pre; [done | ].
  cbn [length map concat]. rewrite <- app_assoc, parse_slots_cons by done.
  rewrite (app_assoc pre). by rewrite IH.
Qed.

Lemma kv_ok_Forall m : kv_ok m -> Forall slot_ok (bt_list m).
Proof.
  intros [Hm _]. apply Forall_forall. intros [k v] Hin. apply bt_list_elem in Hin. by apply Hm.
Qed.

Lemma sstable_body_ok m : kv_ok m -> bytes_ok (sstable_body (bt_list m)).
Proof.
  intros Hm. unfold sstable_body. rewrite !bytes_ok_app. split_and!; auto with kessel.
  apply Forall_concat, Forall_map. eapply Forall_impl; [by apply kv_ok_Forall | ].
  intros kv Hkv. by apply slot_bytes_ok.
Qed.

(** The table an open of a written blob yields. *)
Definition table_of (m : KvMap) : SsTable :=
  {| sst_entries := bt_list m;
     sst_bloom := bloom_build (zlen (bt_list m)) (bt_list m).*1 |}.

Lemma parse_encode_sstable m : kv_ok m -> parse_sstable (encode_sstable m) = Ret (table_of m).
Proof.
  intros Hm. unfold encode_sstable. set (body := sstable_body (bt_list m)).
  set (buf := body ++ _). pose proof (sstable_body_ok m Hm) as Hbok. fold body in Hbok.
  assert (zlen (bt_list m) = Z.of_nat (size m)) as Hsz by (unfold zlen; by rewrite bt_list_length).
  assert (u32_ok (zlen (bt_list m))) as Hcnt by (destruct Hm; unfold u32_ok; lia).
  assert (8 <= zlen body) as Hb8.
  { unfold body, sstable_body. autorewrite with zlen.
    pose proof (zlen_nonneg (concat (map encode_slot (bt_list m)))). lia. }
  assert (zlen buf = zlen body + 8) as Hlen by (unfold buf; autorewrite with zlen; lia).
  assert (buf = le_bytes 4 SST_MAGIC ++ le_bytes 4 (zlen (bt_list m)) ++
    concat (map encode_slot (bt_list m)) ++ (le_bytes 4 (crc32c body) ++ le_bytes 4 SST_MAGIC))
    as Hbuf by (unfold buf, body, sstable_body; by rewrite <- !app_assoc).
  unfold parse_sstable. rewrite Hlen. rewrite (proj2 (Z.ltb_ge _ _)) by lia.
  assert (get_range buf 0 4 = Some (le_bytes 4 SST_MAGIC)) as ->
    by (rewrite Hbuf; apply (get_range_app []); autorewrite with zlen; lia).
  cbn [or_panic]. ob. rewrite le_value_u32 by (unfold u32_ok, SST_MAGIC, u32_max; lia).
  rewrite Z.eqb_refl. cbn [negb].
  assert (get_range buf (zlen body + 8 - 8) (zlen body + 8 - 4) = Some (le_bytes 4 (crc32c body))) as ->
    by (unfold buf; apply get_range_app; autorewrite with zlen; lia).
  cbn [or_panic]. ob. rewrite le_value_u32 by (by apply crc32c_u32).
  assert (get_range buf 0 (zlen body + 8 - 8) = Some body) as ->
    by (unfold buf; apply (get_range_app []); autorewrite with zlen; lia).
  cbn [or_panic]. ob. rewrite Z.eqb_refl. cbn [negb].
  assert (get_range buf 4 8 = Some (le_bytes 4 (zlen (bt_list m)))) as ->
    by (rewrite Hbuf; apply get_range_app; autorewrite with zlen; lia).
  cbn [or_panic]. ob. rewrite le_value_u32 by done.
  replace (Z.to_nat (zlen (bt_list m))) with (length (bt_list m)) by (unfold zlen; lia).
  replace 8 with (zlen (le_bytes 4 SST_MAGIC ++ le_bytes 4 (zlen (bt_list m))))
    by (autorewrite with zlen; lia).
  rewrite Hbuf, app_assoc, parse_slots_concat by (by apply kv_ok_Forall). done.
Qed.

(** * Lookups and ranges of a sorted table *)

Lemma search_spec l k :
  search l k = (list_to_map l : KvMap) !! k.
Proof.
  unfold search. induction l as [ | [k' v] l IH]; [done | ]. cbn [List.find fst].
  rewrite list_to_map_cons, lookup_insert. destruct (kcmp k' k) eqn:E.
  - apply kcmp_eq in E as ->. by rewrite decide_True by done.
  - rewrite decide_False; [done | ]. intros ->. by rewrite kcmp_refl in E.
  - rewrite decide_False; [done | ]. intros ->. by rewrite kcmp_refl in E.
Qed.

Lemma table_get m k : sst_get (table_of m) k = m !! k.
Proof.
  unfold sst_get. simpl. rewrite search_spec, bt_list_to_map.
  destruct (m !! k) as [v | ] eqn:E; [ | by destruct (negb _)].
  rewrite bloom_build_contains; [done | ]. apply list_elem_of_fmap. exists (k, v).
  split; [done | ]. by apply bt_list_elem.
Qed.

Lemma filter_none (P : Key * Slot -> Prop) `{!forall x, Decision (P x)} l :
  Forall (fun kv => ~ P kv) l -> filter P l = [].
Proof. induction 1; [done | ]. by rewrite filter_cons, decide_False. Qed.

Lemma take_upto_filter hi l :
  ssorted l -> take_upto hi l = filter (fun kv => kleb kv.1 hi) l.
Proof.
  induction 1 as [ | kv l Hs IH Hf]; [done | ]. simpl. rewrite filter_cons.
  destruct (kltb hi kv.1) eqn:E; kb.
  - rewrite decide_False by (rewrite Is_true_true, kleb_iff; by apply not_kle).
    symmetry. apply filter_none. eapply Forall_impl; [exact Hf | ]. intros kv' Hkv'.
    rewrite Is_true_true, kleb_iff. apply not_kle. by eapply klt_trans.
  - by rewrite decide_True, IH by (by rewrite Is_true_true, kleb_iff).
Qed.

Lemma partition_drop_filter (lo : Key) (l : list (Key * Slot)) :
  ssorted l ->
  drop (partition_point (fun kv => kltb kv.1 lo) l) l = filter (fun kv => kleb lo kv.1) l.
Proof.
  induction 1 as [ | kv l Hs IH Hf]; [done | ]. simpl. rewrite filter_cons.
  destruct (kltb kv.1 lo) eqn:E; kb; simpl.
  - by rewrite decide_False by (rewrite Is_true_true, kleb_iff; by apply not_kle).
  - rewrite decide_True by (by rewrite Is_true_true, kleb_iff). f_equal.
    symmetry. clear IH. induction l as [ | kv' l IHl]; [done | ].
    inversion Hs; inversion Hf; subst. rewrite filter_cons, decide_True, IHl; try done.
    rewrite Is_true_true, kleb_iff. apply klt_kle. by eapply kle_klt_trans.
Qed.

Lemma sst_range_spec t lo hi :
  ssorted (sst_entries t) ->
  sst_range t lo hi = filter (fun kv => in_range lo hi kv.1) (sst_entries t).
Proof.
  intros Hs. unfold sst_range. rewrite partition_drop_filter by done.
  rewrite take_upto_filter by (by apply ssorted_filter). rewrite list_filter_filter.
  apply list_filter_iff. intros kv. unfold in_range. rewrite !Is_true_true, andb_true_iff. tauto.
Qed.

(** A table that does not meet the range has no entry in it. *)
Lemma overlaps_false t lo hi :
  ssorted (sst_entries t) -> overlaps t lo hi = false -> sst_range t lo hi = [].
Proof.
  intros Hs Ho. rewrite sst_range_spec by done. unfold overlaps in Ho.
  apply filter_none, Forall_forall. intros kv Hin. rewrite Is_true_true. unfold in_range.
  rewrite andb_true_iff, !kleb_iff. intros [Hlo Hhi].
  destruct (sst_entries t) as [ | [k0 v0] l] eqn:El; [by apply elem_of_nil in Hin | ].
  cbn [head] in Ho. destruct (last ((k0, v0) :: l)) as [[k1 v1] | ] eqn:Elast;
    [ | by apply last_None in Elast].
  assert (kle k0 kv.1) as Hmin.
  { apply elem_of_cons in Hin as [-> | Hin]; [apply kle_refl | ]. inversion Hs as [ | ?? _ Hf]; subst.
    rewrite Forall_forall in Hf. apply klt_kle. by apply Hf. }
  assert (kle kv.1 k1) as Hmax.
  { apply last_Some in Elast as [l' El']. rewrite El' in Hin, Hs.
    apply elem_of_app in Hin as [Hin | Hin].
    - apply StronglySorted_app in Hs as (Hs & _ & _). apply klt_kle.
      apply (Hs kv (k1, v1)); [done | apply list_elem_of_here].
    - apply list_elem_of_singleton in Hin as ->. apply kle_refl. }
  apply andb_false_iff in Ho as [Ho | Ho]; kb.
  - destruct (klt_irrefl hi). eapply klt_kle_trans; [exact Ho | ]. by eapply kle_trans.
  - destruct (klt_irrefl k1). eapply klt_kle_trans; [exact Ho | ]. by eapply kle_trans.
Qed.

(** * The manifest reads back *)

Definition ascii (s : bytes) : Prop := Forall (fun b => 0 <= b < 128) s.

Lemma ascii_bytes_ok s : ascii s -> bytes_ok s.
Proof. intros Hs. eapply Forall_impl; [exact Hs | ]. unfold byte_ok. simpl. lia. Qed.

Lemma from_utf8_lossy_ascii s : ascii s -> utf8 (from_utf8_lossy s) = s.
Proof.
  intros Hs. enough (utf8 s = s /\ string_ok s) as [Hu Hk].
  { transitivity (utf8 (from_utf8_lossy (utf8 s))); [by rewrite Hu | by rewrite from_utf8_lossy_utf8]. }
  induction Hs as [ | b s Hb Hs [IHu IHk]]; [split; [done | by apply Forall_nil] | ]. split.
  - unfold utf8 in *. cbn [fmap list_fmap concat]. rewrite IHu. unfold utf8_char.
    by rewrite (proj2 (Z.ltb_lt b 0x80)) by lia.
  - apply Forall_cons. split; [ | done]. unfold is_scalar. lia.
Qed.

Record manifest_ok (m : Manifest) : Prop := {
  mo_names : Forall (fun s => ascii s /\ zlen s <= u32_max) (man_sstables m);
  mo_count : zlen (man_sstables m) <= u32_max;
  mo_next : u64_ok (next_sst m);
  mo_high : u64_ok (man_high_op m)
}.

Lemma parse_names_concat l pre post :
  Forall (fun s => ascii s /\ zlen s <= u32_max) l ->
  parse_names (length l) (pre ++ concat (map encode_name l) ++ post) (zlen pre) =
  Ret (l, zlen pre + zlen (concat (map encode_name l))).
Proof.
  intros Hl. revert pre. induction Hl as [ | s l [Ha Hs] Hl IH]; intros pre.
  - simpl. by rewrite zlen_nil, Z.add_0_r.
  - cbn [length map concat parse_names]. pose proof (zlen_nonneg s).
    set (rest := concat (map encode_name l)).
    assert ((encode_name s ++ rest) ++ post = le_bytes 4 (zlen s) ++ s ++ rest ++ post) as ->
      by (unfold encode_name; by rewrite <- !app_assoc).
    rewrite (get_range_app pre (le_bytes 4 (zlen s))) by (autorewrite with zlen; lia).
    cbn [or_panic]. ob. rewrite le_value_u32 by (unfold u32_ok; lia).
    rewrite (app_assoc pre). rewrite (get_range_app (pre ++ le_bytes 4 (zlen s)) s)
      by (autorewrite with zlen; lia).
    cbn [or_panic]. ob. rewrite app_assoc.
    replace (zlen pre + 4 + zlen s) with (zlen ((pre ++ le_bytes 4 (zlen s)) ++ s))
      by (autorewrite with zlen; lia).
    unfold rest at 1. rewrite IH. ob. rewrite from_utf8_lossy_ascii by done. do 2 f_equal.
    fold rest. unfold encode_name. autorewrite with zlen. lia.
Qed.

Lemma manifest_body_ok m : manifest_ok m -> bytes_ok (manifest_body m).
Proof.
  intros [Hn _ _ _]. unfold manifest_body. rewrite !bytes_ok_app.
  split_and!; auto with kessel. apply Forall_concat, Forall_map.
  eapply Forall_impl; [exact Hn | ]. intros s [Hs _]. unfold encode_name.
  apply bytes_ok_app. split; [auto with kessel | by apply ascii_bytes_ok].
Qed.

Lemma parse_encode_manifest m : manifest_ok m -> parse_manifest (encode_manifest m) = Ret m.
Proof.
  intros Hm. pose proof (manifest_body_ok m Hm) as Hbok. destruct Hm as [Hn Hc Hx Hh].
  unfold encode_manifest. set (body := manifest_body m) in *.
  set (names := concat (map encode_name (man_sstables m))).
  pose proof (zlen_nonneg (man_sstables m)). pose proof (zlen_nonneg names).
  set (buf := body ++ le_bytes 4 (crc32c body)).
  assert (zlen body = 24 + zlen names) as Hblen
    by (unfold body, manifest_body; fold names; autorewrite with zlen; lia).
  assert (zlen buf = zlen body + 4) as Hlen by (unfold buf; autorewrite with zlen; lia).
  assert (buf = le_bytes 4 MAN_MAGIC ++ le_bytes 8 (next_sst m) ++
      le_bytes 4 (zlen (man_sstables m)) ++ names ++ le_bytes 8 (man_high_op m) ++
      le_bytes 4 (crc32c body)) as Hbuf
    by (unfold buf, body, manifest_body; fold names; by rewrite <- !app_assoc).
  unfold parse_manifest. rewrite Hlen. rewrite (proj2 (Z.ltb_ge _ _)) by lia.
  assert (get_range buf 0 4 = Some (le_bytes 4 MAN_MAGIC)) as ->
    by (rewrite Hbuf; apply (get_range_app []); autorewrite with zlen; lia).
  cbn [or_panic]. ob. rewrite le_value_u32 by (unfold u32_ok, MAN_MAGIC, u32_max; lia).
  rewrite Z.eqb_refl. cbn [negb].
  assert (get_range buf (zlen body + 4 - 4) (zlen body + 4) = Some (le_bytes 4 (crc32c body))) as ->
    by (unfold buf; apply get_range_app_r; autorewrite with zlen; lia).
  cbn [or_panic]. ob. rewrite le_value_u32 by (by apply crc32c_u32).
  assert (get_range buf 0 (zlen body + 4 - 4) = Some body) as ->
    by (unfold buf; apply (get_range_app []); autorewrite with zlen; lia).
  cbn [or_panic]. ob. rewrite Z.eqb_refl. cbn [negb].
  assert (get_range buf 4 12 = Some (le_bytes 8 (next_sst m))) as ->
    by (rewrite Hbuf; apply get_range_app; autorewrite with zlen; lia).
  cbn [or_panic]. ob.
  assert (get_range buf 12 16 = Some (le_bytes 4 (zlen (man_sstables m)))) as ->
    by (rewrite Hbuf, app_assoc; apply get_range_app; autorewrite with zlen; lia).
  cbn [or_panic]. ob. rewrite le_value_u32 by (unfold u32_ok; lia).
  replace (Z.to_nat (zlen (man_sstables m))) with (length (man_sstables m)) by (unfold zlen; lia).
  set (pre := le_bytes 4 MAN_MAGIC ++ le_bytes 8 (next_sst m) ++ le_bytes 4 (zlen (man_sstables m))).
  assert (zlen pre = 16) as Hpre by (unfold pre; autorewrite with zlen; lia).
  assert (buf = pre ++ names ++ le_bytes 8 (man_high_op m) ++ le_bytes 4 (crc32c body)) as Hbuf2
    by (rewrite Hbuf; unfold pre; by rewrite <- !app_assoc).
  rewrite <- Hpre. rewrite Hbuf2. unfold names at 1. rewrite parse_names_concat by done. ob.
  fold names. rewrite (proj2 (Z.leb_le _ _)) by lia.
  rewrite (app_assoc pre).
  rewrite (get_range_app (pre ++ names) (le_bytes 8 (man_high_op m))) by (autorewrite with zlen; lia).
  cbn [or_panic]. ob. rewrite !le_value_u64 by done. by destruct m.
Qed.

Lemma encode_manifest_len m :
  zlen (encode_manifest m) = 28 + zlen (concat (map encode_name (man_sstables m))).
Proof. unfold encode_manifest, manifest_body. autorewrite with zlen. lia. Qed.

(** * Names of tables *)

Definition dec_value (s : bytes) : Z := fold_left (fun acc d => acc * 10 + (d - 48)) s 0.

Lemma dec_value_snoc s d : dec_value (s ++ [d]) = dec_value s * 10 + (d - 48).
Proof. unfold dec_value. by rewrite fold_left_app. Qed.

Lemma dec_value_digits fuel n :
  0 <= n < 10 ^ Z.of_nat fuel -> dec_value (dec_digits fuel n) = n.
Proof.
  revert n. induction fuel as [ | fuel IH]; intros n Hn.
  { assert (n = 0) as -> by (simpl in Hn; lia). done. }
  cbn [dec_digits]. destruct (n <? 10) eqn:E; zb.
  - unfold dec_value. simpl. lia.
  - rewrite dec_value_snoc, IH.
    + pose proof (Z.div_mod n 10 ltac:(lia)). lia.
    + split; [apply Z.div_pos; lia | ]. apply Z.div_lt_upper_bound; [lia | ].
      replace (Z.of_nat (S fuel)) with (1 + Z.of_nat fuel) in Hn by lia.
      rewrite Z.pow_add_r in Hn by lia. lia.
Qed.

Lemma dec_value_pad s : dec_value (pad8 s) = dec_value s.
Proof.
  unfold pad8, dec_value. rewrite fold_left_app. f_equal.
  induction (8 - length s)%nat; simpl; [done | ]. exact IHn.
Qed.

Lemma sst_name_inj a b : u64_ok a -> u64_ok b -> sst_name a = sst_name b -> a = b.
Proof.
  intros Ha Hb Heq. unfold sst_name in Heq. apply app_inv_head in Heq.
  assert (forall n, u64_ok n -> dec_value (pad8 (dec_digits 20 n)) = n) as Hv.
  { intros n Hn. rewrite dec_value_pad. apply dec_value_digits. unfold u64_ok, u64_max in Hn. simpl. lia. }
  rewrite <- (Hv a Ha), <- (Hv b Hb). by rewrite Heq.
Qed.

Lemma dec_digits_ascii fuel n : 0 <= n -> Forall (fun b => 48 <= b <= 57) (dec_digits fuel n).
Proof.
  revert n. induction fuel as [ | fuel IH]; intros n Hn; simpl; [constructor | ].
  destruct (n <? 10) eqn:E; zb; [repeat constructor; lia | ].
  apply Forall_app. split; [apply IH, Z.div_pos; lia | ].
  pose proof (Z.mod_pos_bound n 10 ltac:(lia)). repeat constructor; lia.
Qed.

Lemma dec_digits_length fuel n : (length (dec_digits fuel n) <= fuel)%nat.
Proof.
  revert n. induction fuel as [ | fuel IH]; intros n; simpl; [lia | ].
  destruct (n <? 10); simpl; [lia | ]. rewrite length_app. simpl. specialize (IH (n / 10)). lia.
Qed.

Lemma sst_name_ascii n : 0 <= n -> ascii (sst_name n).
Proof.
  intros Hn. unfold sst_name, ascii. apply Forall_app. split.
  - repeat constructor; lia.
  - unfold pad8. apply Forall_app. split; [apply Forall_replicate; lia | ].
    eapply Forall_impl; [by apply dec_digits_ascii | ]. simpl. lia.
Qed.

Lemma sst_name_len n : 12 <= zlen (sst_name n) <= 24.
Proof.
  unfold sst_name, pad8, zlen. rewrite !length_app, length_replicate.
  pose proof (dec_digits_length 20 n) as Hd. revert Hd. generalize (length (dec_digits 20 n)).
  intros d Hd. cbn [length]. lia.
Qed.

(** No table is called like the log or the manifest. *)
Lemma sst_name_head n : head (sst_name n) = Some 115.
Proof. reflexivity. Qed.

(** * Effects on the file system *)

Section FileLaws.
Context {W : Type} `{VfsLaws W}.

Lemma read_buf_whole w n d :
  content w n = Some d -> read_buf w n 0 (zlen d) = Ret d.
Proof.
  intros Hd. unfold read_buf. rewrite law_read, Hd. ob.
  change (default [] (Some d)) with d. unfold read_slice.
  pose proof (zlen_nonneg d). destruct (zlen d <=? 0) eqn:E; zb.
  - assert (zlen d = 0) as Hz by lia. apply zlen_0 in Hz as ->. done.
  - rewrite Z.sub_0_r, Z.min_id. simpl. rewrite drop_0, firstn_all2 by (unfold zlen; lia).
    rewrite Z.sub_diag. simpl. by rewrite app_nil_r.
Qed.

(** Opening a blob, writing it from offset 0 and syncing it. *)
Lemma write_blob_spec w n buf :
  exists w', (_ ← vfs_open n; _ ← disk_write_at n 0 buf; disk_sync n) w = (w', Ret tt) /\
    forall m, content w' m = upd (content w) n (Some (splice (default [] (content w n)) 0 buf)) m.
Proof.
  destruct (law_open w n) as (w1 & Ho & Hc1).
  assert (content w1 n = Some (default [] (content w n))) as Hd by (by rewrite Hc1, upd_eq).
  destruct (law_write w1 n 0 buf _ Hd) as (w2 & Hw & Hc2).
  destruct (law_sync w2 n) as (w3 & Hs & Hc3). exists w3. split.
  - mstep Ho. mstep Hw. exact Hs.
  - intros m. rewrite Hc3, Hc2. unfold upd. case_decide; [done | ]. rewrite Hc1. by apply upd_ne.
Qed.

Lemma write_sstable_spec w n m :
  exists w', write_sstable n m w = (w', Ret tt) /\
    forall x, content w' x =
      upd (content w) n (Some (splice (default [] (content w n)) 0 (encode_sstable m))) x.
Proof. apply write_blob_spec. Qed.

Lemma write_manifest_spec w m :
  exists w', write_manifest m w = (w', Ret tt) /\
    forall x, content w' x = upd (content w) MANIFEST_NAME
      (Some (splice (default [] (content w MANIFEST_NAME)) 0 (encode_manifest m))) x.
Proof. apply write_blob_spec. Qed.

Lemma open_existing w n d :
  content w n = Some d ->
  exists w', vfs_open n w = (w', Ret tt) /\ forall x, content w' x = content w x.
Proof.
  intros Hd. destruct (law_open w n) as (w' & Ho & Hc). exists w'. split; [done | ].
  intros x. rewrite Hc, Hd. unfold upd. case_decide; [by subst | done].
Qed.

Lemma sst_open_spec w n d :
  content w n = Some d ->
  exists w', sst_open n w = (w', parse_sstable d) /\ forall x, content w' x = content w x.
Proof.
  intros Hd. destruct (open_existing w n d Hd) as (w' & Ho & Hc). exists w'. split; [ | done].
  assert (content w' n = Some d) as Hd' by (by rewrite Hc).
  unfold sst_open. mstep Ho. mstep (m_get_ret w'). rewrite law_len, Hd'.
  change (default [] (Some d)) with d. rewrite read_buf_whole by done. reflexivity.
Qed.

Lemma read_manifest_spec w :
  exists w', read_manifest w =
      (w', match content w MANIFEST_NAME with
           | Some d => parse_manifest d
           | None => Ret manifest_default
           end) /\ forall x, content w' x = content w x.
Proof.
  unfold read_manifest. rewrite law_exists.
  destruct (content w MANIFEST_NAME) as [d | ] eqn:Hd; [ | by exists w].
  destruct (open_existing w MANIFEST_NAME d Hd) as (w' & Ho & Hc). exists w'. split; [ | done].
  assert (content w' MANIFEST_NAME = Some d) as Hd' by (by rewrite Hc).
  cbn [negb]. rewrite Ho, law_len, Hd'. change (default [] (Some d)) with d.
  rewrite read_buf_whole by done. destruct (zlen d <? 12) eqn:E; [ | done].
  unfold parse_manifest. by rewrite E.
Qed.

(** A table written to a new file and opened again answers as the map it
    was written from: the Bloom filter never hides a key, a point lookup is the
    map's lookup, and a range walk yields the sorted entries of the range. *)
Theorem sstable_roundtrip w n m :
  content w n = None -> kv_ok m ->
  exists w1 w2 t, write_sstable n m w = (w1, Ret tt) /\ sst_open n w1 = (w2, Ret t) /\
    (forall k, sst_get t k = m !! k) /\ (forall lo hi, sst_range t lo hi = bt_range lo hi m).
Proof.
  intros Hn Hm. destruct (write_sstable_spec w n m) as (w1 & Hw & Hc).
  rewrite Hn in Hc. cbn [from_option] in Hc. rewrite splice_overwrite in Hc by apply zlen_nonneg.
  destruct (sst_open_spec w1 n (encode_sstable m)) as (w2 & Ho & _); [by rewrite Hc, upd_eq | ].
  rewrite parse_encode_sstable in Ho by done. exists w1, w2, (table_of m). split_and!; [done | done | | ].
  - apply table_get.
  - intros lo hi. rewrite sst_range_spec by apply bt_list_sorted. done.
Qed.

(** A manifest written over a file that is no longer than its encoding
    reads back as itself. *)
Theorem manifest_roundtrip w man :
  manifest_ok man -> zlen (default [] (content w MANIFEST_NAME)) <= zlen (encode_manifest man) ->
  exists w1 w2, write_manifest man w = (w1, Ret tt) /\ read_manifest w1 = (w2, Ret man).
Proof.
  intros Hm Hl. destruct (write_manifest_spec w man) as (w1 & Hw & Hc).
  destruct (read_manifest_spec w1) as (w2 & Hr & _). exists w1, w2. split; [done | ].
  rewrite Hr, Hc, upd_eq, splice_overwrite by done. by rewrite parse_encode_manifest.
Qed.
End FileLaws.

(** ** Applied to a sample *)

Definition sample_map : KvMap := {[ [7; 7; 7] := Some [1; 2]; [7; 7; 8] := None ]}.

Lemma sample_map_ok : kv_ok sample_map.
Proof.
  split; [ | by vm_compute]. intros k v Hk. unfold sample_map in Hk.
  apply lookup_insert_Some in Hk as [[<- <-] | [_ Hk]].
  - split_and!; simpl; [lit | lit | ]. intros v [= <-]. split; lit.
  - apply lookup_singleton_Some in Hk as [<- <-]. split_and!; simpl; [lit | lit | done].
Qed.

Lemma sstable_roundtrip_witness :
  exists w1 w2 t, write_sstable (sst_name 0) sample_map memvfs_new = (w1, Ret tt) /\
    sst_open (sst_name 0) w1 = (w2, Ret t) /\
    (forall k, sst_get t k = sample_map !! k) /\
    (forall lo hi, sst_range t lo hi = bt_range lo hi sample_map).
Proof. apply (sstable_roundtrip memvfs_new (sst_name 0) sample_map); [done | apply sample_map_ok]. Defined.

Definition sample_manifest : Manifest :=
  {| man_sstables := [sst_name 0; sst_name 1]; next_sst := 2; man_high_op := 9 |}.

Lemma sample_manifest_ok : manifest_ok sample_manifest.
Proof.
  constructor; simpl; [ | lit..]. repeat constructor; simpl; try lia; by vm_compute.
Qed.

Lemma manifest_roundtrip_witness :
  exists w1 w2, write_manifest sample_manifest memvfs_new = (w1, Ret tt) /\
    read_manifest w1 = (w2, Ret sample_manifest).
Proof. apply (manifest_roundtrip memvfs_new sample_manifest); [apply sample_manifest_ok | by vm_compute]. Defined.
