(* ===== verification/Storage.v ===== *)
(** kessel-storage: the LSM engine.

    [Storage] is a memtable over sorted tables over a write-ahead log, with an
    optional transaction overlay. This file has the physical operations (those
    that see every key as it is stored); the dispatch of data-row keys to the
    versioned key space is in [Engine].

    [view] is the abstraction: the finite map from physical keys to slots that
    every read path computes from the layers.

    Source: src/crates/kessel-storage/src/lib.rs ([Storage]). *)

From Stdlib Require Import ZArith Lia.
From stdpp Require Import base numbers list sorting gmap fin_maps.
From S2P Require Import Prelude BTree Proto Vfs Wal SsTable.

#[local] Open Scope Z_scope.

Abbreviation Overlay := (gmap Key (Z * Slot)).

Record Storage (W : Type) := mkStorage {
  vfs : W;
  memtable : KvMap;
  sstables : list SsTable;
  manifest : Manifest;
  wal_end : Z;
  autosync : bool;
  txn : option Overlay;
  compact_threshold : Z;
  high_op : option Z;
  low_water_mark : Z
}.
Arguments mkStorage {W}.
Arguments vfs {W}. Arguments memtable {W}. Arguments sstables {W}. Arguments manifest {W}.
Arguments wal_end {W}. Arguments autosync {W}. Arguments txn {W}.
Arguments compact_threshold {W}. Arguments high_op {W}. Arguments low_water_mark {W}.

(** Field assignments. *)
Section Setters.
Context {W : Type}.
Implicit Types s : Storage W.

Definition set_vfs (x : W) s : Storage W := mkStorage x (memtable s) (sstables s) (manifest s)
  (wal_end s) (autosync s) (txn s) (compact_threshold s) (high_op s) (low_water_mark s).
Definition set_memtable (x : KvMap) s := mkStorage (vfs s) x (sstables s) (manifest s)
  (wal_end s) (autosync s) (txn s) (compact_threshold s) (high_op s) (low_water_mark s).
Definition set_sstables (x : list SsTable) s := mkStorage (vfs s) (memtable s) x (manifest s)
  (wal_end s) (autosync s) (txn s) (compact_threshold s) (high_op s) (low_water_mark s).
Definition set_manifest (x : Manifest) s := mkStorage (vfs s) (memtable s) (sstables s) x
  (wal_end s) (autosync s) (txn s) (compact_threshold s) (high_op s) (low_water_mark s).
Definition set_wal_end (x : Z) s := mkStorage (vfs s) (memtable s) (sstables s) (manifest s)
  x (autosync s) (txn s) (compact_threshold s) (high_op s) (low_water_mark s).
Definition set_autosync (x : bool) s := mkStorage (vfs s) (memtable s) (sstables s) (manifest s)
  (wal_end s) x (txn s) (compact_threshold s) (high_op s) (low_water_mark s).
Definition set_txn (x : option Overlay) s := mkStorage (vfs s) (memtable s) (sstables s) (manifest s)
  (wal_end s) (autosync s) x (compact_threshold s) (high_op s) (low_water_mark s).
Definition set_compact_threshold (x : Z) s := mkStorage (vfs s) (memtable s) (sstables s) (manifest s)
  (wal_end s) (autosync s) (txn s) x (high_op s) (low_water_mark s).
Definition set_high_op (x : option Z) s := mkStorage (vfs s) (memtable s) (sstables s) (manifest s)
  (wal_end s) (autosync s) (txn s) (compact_threshold s) x (low_water_mark s).
Definition set_low_water_mark (x : Z) s := mkStorage (vfs s) (memtable s) (sstables s) (manifest s)
  (wal_end s) (autosync s) (txn s) (compact_threshold s) (high_op s) x.
End Setters.

(** [option.map_or(op, |h| h.max(op))]. *)
Definition max_op (h : option Z) (op : Z) : option Z :=
  Some (match h with Some h => Z.max h op | None => op end).

(** Inserting a sequence of entries, the later ones winning. *)
Definition insert_all {V} (l : list (Key * V)) (m : gmap Key V) : gmap Key V :=
  fold_left (fun m kv => <[kv.1 := kv.2]> m) l m.

Section Storage.
Context {W : Type} `{Vfs W}.
Implicit Types s : Storage W.

(** A file-system operation on the engine's file system. *)
Definition on_vfs {A} (m : M W A) : M (Storage W) A := fun s =>
  let '(w', r) := m (vfs s) in (set_vfs w' s, r).

(** ** Opening *)

Fixpoint open_tables (names : list bytes) : M W (list SsTable) :=
  match names with
  | [] => mret []
  | n :: names' =>
      t ← sst_open n;
      ts ← open_tables names';
      mret (t :: ts)
  end.

Definition replay_memtable (es : list Entry) : KvMap :=
  insert_all (map (fun e => (entry_key e, entry_value e)) es) ∅.

Definition replay_high_op (h : option Z) (es : list Entry) : option Z :=
  fold_left (fun h e => max_op h (op_number e)) es h.

Definition storage_open : M W (Storage W) :=
  man ← read_manifest;
  tabs ← open_tables (man_sstables man);
  end_ ← wal_open;
  w ← m_get;
  let es := wal_replay w in
  let high0 := if 0 <? man_high_op man then Some (man_high_op man) else None in
  mret (mkStorage w (replay_memtable es) tabs man end_ true None 0
          (replay_high_op high0 es) 0).

(** ** Writing *)

Definition commit (e : Entry) : M (Storage W) unit :=
  s ← m_get;
  match txn s with
  | Some ov =>
      m_put (set_txn (Some (<[entry_key e := (op_number e, entry_value e)]> ov)) s)
  | None =>
      end_ ← on_vfs (wal_append (wal_end s) e);
      _ ← m_modify (set_wal_end end_);
      _ ← (if autosync s then on_vfs wal_sync else mret tt);
      m_modify (fun s =>
        set_high_op (max_op (high_op s) (op_number e))
          (set_memtable (<[entry_key e := entry_value e]> (memtable s)) s))
  end.

Definition put_entry_versioned (op : Z) (key : Key) (value : Slot) : M (Storage W) unit :=
  commit {| op_number := op; entry_key := key; entry_value := value |}.

(** [Storage::sync]. *)
Definition storage_sync : M (Storage W) unit := on_vfs wal_sync.

(** ** Transactions *)

Definition begin_txn s : Storage W := set_txn (Some ∅) s.

Definition abort_txn s : Storage W := set_txn None s.

Definition in_txn s : bool := match txn s with Some _ => true | None => false end.

Fixpoint append_all (l : list (Key * (Z * Slot))) : M (Storage W) unit :=
  match l with
  | [] => mret tt
  | (k, (n, v)) :: l' =>
      s ← m_get;
      end_ ← on_vfs (wal_append (wal_end s)
               {| op_number := n; entry_key := k; entry_value := v |});
      _ ← m_modify (set_wal_end end_);
      append_all l'
  end.

Definition commit_txn : M (Storage W) unit :=
  s ← m_get;
  match txn s with
  | None => mret tt
  | Some ov =>
      _ ← m_modify (set_txn None);
      _ ← append_all (bt_list ov);
      _ ← on_vfs wal_sync;
      m_modify (fun s =>
        set_memtable (insert_all (map (fun kv => (kv.1, kv.2.2)) (bt_list ov)) (memtable s)) s)
  end.

(** ** Compaction and flush *)

(** All tables merged, the newer winning; then tombstones go, except those of
    versioned (28-byte) keys. *)
Definition merge_tables (ts : list SsTable) : KvMap :=
  fold_left (fun m t => insert_all (sst_entries t) m) ts ∅.

Definition compact_keep (kv : Key * Slot) : bool :=
  match kv.2 with Some _ => true | None => zlen kv.1 =? 28 end.

Definition compact_map (ts : list SsTable) : KvMap :=
  filter (fun kv => compact_keep kv) (merge_tables ts).

(** [vfs.remove(&o).ok()] over the replaced tables. *)
Fixpoint remove_all (names : list bytes) : M (Storage W) unit :=
  match names with
  | [] => mret tt
  | n :: names' => fun s =>
      match on_vfs (vfs_remove n) s with
      | (s', Panic) => (s', Panic)
      | (s', _) => remove_all names' s'
      end
  end.

Definition cursor s : Z :=
  Z.max (match high_op s with Some h => h | None => man_high_op (manifest s) end)
        (man_high_op (manifest s)).

(** The manifest that names the tables [names] next. *)
Definition successor_manifest s (names : list bytes) : Manifest :=
  {| man_sstables := names;
     next_sst := wrap64 (next_sst (manifest s) + 1);
     man_high_op := cursor s |}.

Definition compact : M (Storage W) unit :=
  s ← m_get;
  if zlen (sstables s) <? 2 then mret tt else
  let merged := compact_map (sstables s) in
  let name := sst_name (next_sst (manifest s)) in
  _ ← on_vfs (write_sstable name merged);
  let next := successor_manifest s [name] in
  _ ← on_vfs (write_manifest next);
  _ ← remove_all (man_sstables (manifest s));
  _ ← m_modify (set_manifest next);
  t ← on_vfs (sst_open name);
  m_modify (set_sstables [t]).

Definition flush : M (Storage W) unit :=
  s ← m_get;
  if (size (memtable s) =? 0)%nat then mret tt else
  let name := sst_name (next_sst (manifest s)) in
  _ ← on_vfs (write_sstable name (memtable s)); (* 1. table durable *)
  let next := successor_manifest s (man_sstables (manifest s) ++ [name]) in
  _ ← on_vfs (write_manifest next); (* 2. manifest durable *)
  _ ← m_modify (set_manifest next);
  t ← on_vfs (sst_open name);
  _ ← m_modify (fun s => set_sstables (sstables s ++ [t]) s);
  _ ← on_vfs (vfs_remove WAL_NAME); (* 3. then reset the log *)
  end_ ← on_vfs wal_open;
  _ ← m_modify (fun s => set_memtable ∅ (set_wal_end end_ s));
  s ← m_get;
  if (0 <? compact_threshold s) && (compact_threshold s <=? zlen (sstables s))
  then compact else mret tt.

(** ** Reading *)

(** The merge of a range scan: the tables' entries in [lo, hi], the newer
    tables over the older, then the memtable's, then the overlay's. What is
    inserted for a slot is [f] of it: the slot itself in [scan_range] and
    [scan_range_versions], whether it is live in [scan_prefix]. *)
Definition map_slots {V} (f : Slot -> V) (l : list (Key * Slot)) : list (Key * V) :=
  map (fun kv => (kv.1, f kv.2)) l.

Definition merge_ranges {V} (f : Slot -> V) (ts : list SsTable) (lo hi : Key) : gmap Key V :=
  fold_left (fun m t =>
    if negb (overlaps t lo hi) then m else insert_all (map_slots f (sst_range t lo hi)) m) ts ∅.

Definition overlay_range (ov : option Overlay) (lo hi : Key) : list (Key * Slot) :=
  match ov with
  | Some ov => map (fun kv => (kv.1, kv.2.2)) (bt_range lo hi ov)
  | None => []
  end.

Definition merged_range {V} (f : Slot -> V) s (lo hi : Key) : gmap Key V :=
  insert_all (map_slots f (overlay_range (txn s) lo hi))
    (insert_all (map_slots f (bt_range lo hi (memtable s))) (merge_ranges f (sstables s) lo hi)).

Definition scan_range_versions s (lo hi : Key) : list (Key * Slot) :=
  if kltb hi lo then [] else bt_list (merged_range id s lo hi).

(** The entries that are no tombstone. *)
Definition live_entries (l : list (Key * Slot)) : list (Key * bytes) :=
  omap (fun kv => (fun v => (kv.1, v)) <$> kv.2) l.

(** [scan_range] past its dispatch on data-row bounds. *)
Definition scan_range_raw s (lo hi : Key) : list (Key * bytes) :=
  if kltb hi lo then [] else live_entries (bt_list (merged_range id s lo hi)).

Definition is_live (v : Slot) : bool := match v with Some _ => true | None => false end.

Definition scan_prefix s (lo hi : Key) : list Key :=
  if kltb hi lo then [] else
  match sstables s, txn s with
  | [], None => map fst (List.filter (fun kv => is_live kv.2) (bt_range lo hi (memtable s)))
  | _, _ => omap (fun kv => if kv.2 : bool then Some kv.1 else None)
              (bt_list (merged_range is_live s lo hi))
  end.

(** The merged view of tables and memtable, tombstones dropped. *)
Definition scan_all s : list (Key * bytes) :=
  live_entries (bt_list (insert_all (bt_list (memtable s)) (merge_tables (sstables s)))).

(** The tables of a point read, newest first. *)
Fixpoint tables_get (ts : list SsTable) (key : Key) : option Slot :=
  match ts with
  | [] => None
  | t :: ts' => match sst_get t key with Some v => Some v | None => tables_get ts' key end
  end.

(** [get] past its dispatch on data-row keys. *)
Definition get_raw s (key : Key) : Slot :=
  match txn s ≫= (fun ov => ov !! key) with
  | Some (_, v) => v
  | None =>
      match memtable s !! key with
      | Some v => v
      | None => match tables_get (rev (sstables s)) key with Some v => v | None => None end
      end
  end.

(** The digest of the live keys, versioned keys left out. *)
Definition digest s : Z :=
  fold_left (fun acc kv =>
      if zlen kv.1 =? 28 then acc
      else Z.lxor acc (crc32c (kv.1 ++ le_bytes 4 (zlen kv.2) ++ kv.2)))
    (scan_all s) u32_max.
End Storage.

(** An engine with an empty in-memory file system and log. *)
Definition empty_storage : Storage MemVfs :=
  mkStorage {| blobs := {[ WAL_NAME := empty_blob ]} |} ∅ [] manifest_default 0 true None 0 None 0.
