(* ===== verification/View.v ===== *)
(** The abstraction of the LSM engine and the refinement of its reads.

    [view] folds the layers of [Storage] (tables oldest first, memtable,
    transaction overlay) into one finite map of slots. Every read path, point
    or range, computes from the layers what the view says; the write and
    maintenance operations act on the view as they should (the last section).

    Source: src/crates/kessel-storage/src/lib.rs. *)

From Stdlib Require Import ZArith Lia.
From stdpp Require Import base numbers list sorting gmap fin_maps.
From S2P Require Import Prelude BTree Proto Vfs Wal SsTable Storage.

#[local] Open Scope Z_scope.

(** * Inserting sorted entries is a union *)

Section InsertAll.
Context {V : Type}.
Implicit Types l : list (Key * V).
Implicit Types m : gmap Key V.

Lemma insert_all_union l m :
  NoDup l.*1 -> insert_all l m = list_to_map l ∪ m.
Proof.
  unfold insert_all. revert m. induction l as [ | [k v] l IH]; intros m Hnd; [by rewrite list_to_map_nil, (left_id_L _ _) | ].
  rewrite fmap_cons in Hnd. apply NoDup_cons in Hnd as [Hni Hnd]. cbn [fold_left fst snd].
  rewrite IH by done. rewrite list_to_map_cons.
  rewrite <- insert_union_r by (by apply not_elem_of_list_to_map_1). by rewrite insert_union_l.
Qed.

(** The part of a map in a closed key range. *)
Definition restrict (lo hi : Key) m : gmap Key V := filter (fun kv => in_range lo hi kv.1) m.

Lemma lookup_restrict lo hi m k :
  restrict lo hi m !! k = if in_range lo hi k then m !! k else None.
Proof.
  unfold restrict. destruct (in_range lo hi k) eqn:E.
  - destruct (m !! k) eqn:Em; [ | apply map_lookup_filter_None; by left].
    apply map_lookup_filter_Some. split; [done | ]. cbn [fst]. by apply Is_true_true.
  - apply map_lookup_filter_None. right. intros v _. cbn [fst]. rewrite Is_true_true. congruence.
Qed.

Lemma bt_list_restrict lo hi m : bt_list (restrict lo hi m) = bt_range lo hi m.
Proof.
  apply ssorted_unique; [apply bt_list_sorted | apply bt_range_sorted | ].
  apply NoDup_Permutation.
  - eapply NoDup_fmap_1, bt_list_NoDup.
  - eapply NoDup_fmap_1, ssorted_NoDup, bt_range_sorted.
  - intros [k v]. rewrite bt_list_elem, bt_range_elem, lookup_restrict. unfold in_range.
    destruct (kleb lo k) eqn:E1, (kleb k hi) eqn:E2; simpl; rewrite <- ?kleb_iff, ?E1, ?E2;
      split; intros; by repeat destruct_and?.
Qed.

Lemma bt_range_to_map lo hi m : list_to_map (bt_range lo hi m) = restrict lo hi m.
Proof. by rewrite <- bt_list_restrict, bt_list_to_map. Qed.

Lemma restrict_union lo hi m1 m2 :
  restrict lo hi (m1 ∪ m2) = restrict lo hi m1 ∪ restrict lo hi m2.
Proof.
  apply map_eq. intros k. rewrite lookup_union, !lookup_restrict, lookup_union.
  by destruct (in_range lo hi k).
Qed.

Lemma restrict_empty lo hi : restrict lo hi ∅ = ∅.
Proof. apply map_filter_empty. Qed.

(** An inverted range is empty. *)
Lemma restrict_inverted lo hi m : klt hi lo -> restrict lo hi m = ∅.
Proof.
  intros Hlt. apply map_empty. intros k. rewrite lookup_restrict. unfold in_range.
  destruct (kleb lo k) eqn:E1, (kleb k hi) eqn:E2; try done. kb.
  destruct (klt_irrefl hi). eapply klt_kle_trans; [exact Hlt | ]. by eapply kle_trans.
Qed.
End InsertAll.

Lemma restrict_fmap {V V'} (f : V -> V') (lo hi : Key) (m : gmap Key V) :
  restrict lo hi (f <$> m) = f <$> restrict lo hi m.
Proof.
  apply map_eq. intros k. rewrite lookup_fmap, !lookup_restrict, lookup_fmap.
  by destruct (in_range lo hi k).
Qed.

Lemma map_slots_fst {V} (f : Slot -> V) l : (map_slots f l).*1 = l.*1.
Proof. unfold map_slots. induction l; simpl; by f_equal. Qed.

Lemma map_slots_to_map {V} (f : Slot -> V) l :
  (list_to_map (map_slots f l) : gmap Key V) = f <$> list_to_map l.
Proof.
  induction l as [ | [k v] l IH]; simpl; [by rewrite fmap_empty | ].
  by rewrite IH, fmap_insert.
Qed.

Lemma kv_empty_union (m : KvMap) : ∅ ∪ m = m.
Proof. apply (left_id_L _ _). Qed.

(** * The view *)

Definition table_map (t : SsTable) : KvMap := list_to_map (sst_entries t).

(** Tables as [SsTable::open] builds them from [write_sstable]'s output. *)
Definition table_wf (t : SsTable) : Prop := exists m, t = table_of m.

Definition tables_view (ts : list SsTable) : KvMap :=
  fold_left (fun acc t => table_map t ∪ acc) ts ∅.

Definition overlay_map (ov : option Overlay) : KvMap :=
  match ov with Some ov => snd <$> ov | None => ∅ end.

Definition durable_view {W} (s : Storage W) : KvMap := memtable s ∪ tables_view (sstables s).

Definition view {W} (s : Storage W) : KvMap := overlay_map (txn s) ∪ durable_view s.

Lemma table_map_of m : table_map (table_of m) = m.
Proof. apply bt_list_to_map. Qed.

Lemma table_wf_sorted t : table_wf t -> ssorted (sst_entries t).
Proof. intros [m ->]. apply bt_list_sorted. Qed.

Lemma table_wf_get t k : table_wf t -> sst_get t k = table_map t !! k.
Proof. intros [m ->]. by rewrite table_get, table_map_of. Qed.

Lemma sst_range_map t lo hi :
  table_wf t -> list_to_map (sst_range t lo hi) = restrict lo hi (table_map t).
Proof.
  intros Hwf. rewrite sst_range_spec by (by apply table_wf_sorted). destruct Hwf as [m ->].
  simpl. change (filter _ (bt_list m)) with (bt_range lo hi m).
  by rewrite bt_range_to_map, table_map_of.
Qed.

Lemma sst_range_NoDup t lo hi : table_wf t -> NoDup (sst_range t lo hi).*1.
Proof.
  intros Hwf. rewrite sst_range_spec by (by apply table_wf_sorted).
  by apply ssorted_NoDup, ssorted_filter, table_wf_sorted.
Qed.

(** Newest-first search of the tables. *)
Lemma tables_view_snoc ts t : tables_view (ts ++ [t]) = table_map t ∪ tables_view ts.
Proof. unfold tables_view. by rewrite fold_left_app. Qed.

Lemma tables_get_spec ts k :
  Forall table_wf ts -> tables_get (rev ts) k = tables_view ts !! k.
Proof.
  induction ts as [ | t ts IH] using rev_ind; intros Hwf; [done | ].
  apply Forall_app in Hwf as [Hts Ht]. rewrite Forall_singleton in Ht.
  rewrite rev_app_distr, tables_view_snoc. simpl. rewrite table_wf_get, IH by done.
  rewrite lookup_union. by destruct (table_map t !! k), (tables_view ts !! k).
Qed.

Lemma merge_tables_spec ts : Forall table_wf ts -> merge_tables ts = tables_view ts.
Proof.
  unfold merge_tables, tables_view. generalize (∅ : KvMap).
  induction ts as [ | t ts IH]; intros m Hwf; [done | ]. simpl.
  apply Forall_cons in Hwf as [Ht Hts]. rewrite IH by done. f_equal.
  apply insert_all_union. by apply ssorted_NoDup, table_wf_sorted.
Qed.

Lemma merge_ranges_spec {V} (f : Slot -> V) ts lo hi :
  Forall table_wf ts -> merge_ranges f ts lo hi = f <$> restrict lo hi (tables_view ts).
Proof.
  unfold merge_ranges, tables_view.
  replace (∅ : gmap Key V) with (f <$> restrict lo hi (∅ : KvMap)) by (by rewrite restrict_empty, fmap_empty).
  generalize (∅ : KvMap) as m.
  induction ts as [ | t ts IH]; intros m Hwf; [done | ]. cbn [fold_left].
  apply Forall_cons in Hwf as [Ht Hts].
  rewrite <- IH by done. f_equal. rewrite restrict_union, map_fmap_union.
  rewrite <- sst_range_map by done. destruct (overlaps t lo hi) eqn:E; simpl.
  - rewrite insert_all_union by (rewrite map_slots_fst; by apply sst_range_NoDup).
    by rewrite map_slots_to_map.
  - rewrite overlaps_false by (done || by apply table_wf_sorted).
    by rewrite list_to_map_nil, fmap_empty, (left_id_L _ _).
Qed.

Lemma overlay_range_spec ov lo hi :
  list_to_map (overlay_range ov lo hi) = restrict lo hi (overlay_map ov) /\
  NoDup (overlay_range ov lo hi).*1.
Proof.
  destruct ov as [ov | ]; simpl; [ | split; [by rewrite restrict_empty | constructor]].
  split.
  - rewrite restrict_fmap, <- bt_range_to_map. generalize (bt_range lo hi ov).
    intros l. induction l as [ | [k [n v]] l IH]; simpl; [by rewrite fmap_empty | ].
    by rewrite IH, fmap_insert.
  - replace (map _ _).*1 with (bt_range lo hi ov).*1;
      [apply ssorted_NoDup, bt_range_sorted | ].
    generalize (bt_range lo hi ov). intros l. induction l; simpl; by f_equal.
Qed.

Section Reads.
Context {W : Type}.
Implicit Types s : Storage W.

(** The engine's tables are tables that were written. *)
Definition tables_wf s : Prop := Forall table_wf (sstables s).

Lemma merged_range_spec {V} (f : Slot -> V) s lo hi :
  tables_wf s -> merged_range f s lo hi = f <$> restrict lo hi (view s).
Proof.
  intros Hwf. unfold merged_range. destruct (overlay_range_spec (txn s) lo hi) as [Ho Hn].
  rewrite insert_all_union by (by rewrite map_slots_fst).
  rewrite insert_all_union by (rewrite map_slots_fst; apply ssorted_NoDup, bt_range_sorted).
  rewrite !map_slots_to_map, Ho, bt_range_to_map, merge_ranges_spec by done.
  unfold view, durable_view. by rewrite !restrict_union, !map_fmap_union.
Qed.

Lemma scan_range_versions_spec s lo hi :
  tables_wf s -> scan_range_versions s lo hi = bt_range lo hi (view s).
Proof.
  intros Hwf. unfold scan_range_versions. destruct (kltb hi lo) eqn:E; kb.
  - rewrite <- bt_list_restrict, restrict_inverted by done. done.
  - by rewrite merged_range_spec, map_fmap_id, bt_list_restrict by done.
Qed.

Lemma scan_range_raw_spec s lo hi :
  tables_wf s -> scan_range_raw s lo hi = live_entries (bt_range lo hi (view s)).
Proof.
  intros Hwf. rewrite <- scan_range_versions_spec by done.
  unfold scan_range_raw, scan_range_versions. by destruct (kltb hi lo).
Qed.

Lemma get_raw_spec s k : tables_wf s -> get_raw s k = mjoin (view s !! k).
Proof.
  intros Hwf. unfold get_raw, view, durable_view. rewrite tables_get_spec by done.
  rewrite !lookup_union. destruct (txn s) as [ov | ]; simpl; rewrite ?lookup_fmap.
  - by destruct (ov !! k) as [[n v] | ], (memtable s !! k), (tables_view (sstables s) !! k).
  - rewrite lookup_empty. by destruct (memtable s !! k), (tables_view (sstables s) !! k).
Qed.

Lemma live_entries_elem l k v : (k, v) ∈ live_entries l <-> (k, Some v) ∈ l.
Proof.
  unfold live_entries. rewrite list_elem_of_omap. split.
  - intros ([k' [v' | ]] & Hin & [= -> ->]). done.
  - intros Hin. by exists (k, Some v).
Qed.

Lemma live_entries_sorted l : ssorted l -> ssorted (live_entries l).
Proof.
  induction 1 as [ | [k [v | ]] l Hs IH Hf]; simpl; try done; [constructor | ].
  constructor; [done | ]. rewrite Forall_forall in Hf. apply Forall_forall. intros [k' v'] Hin.
  apply live_entries_elem in Hin. by apply (Hf (k', Some v')).
Qed.

Lemma scan_prefix_spec s lo hi :
  tables_wf s -> scan_prefix s lo hi = (scan_range_raw s lo hi).*1.
Proof.
  intros Hwf. unfold scan_prefix, scan_range_raw. destruct (kltb hi lo) eqn:E; [done | ].
  assert (omap (fun kv => if kv.2 : bool then Some kv.1 else None)
            (bt_list (merged_range is_live s lo hi)) =
          (live_entries (bt_list (merged_range id s lo hi))).*1) as Hslow.
  { rewrite !merged_range_spec, map_fmap_id by done.
    assert (bt_list (is_live <$> restrict lo hi (view s)) =
            map_slots is_live (bt_list (restrict lo hi (view s)))) as ->.
    { rewrite <- (bt_list_to_map (restrict lo hi (view s))) at 1.
      rewrite <- map_slots_to_map. apply bt_list_of_list.
      unfold map_slots. pose proof (bt_list_sorted (restrict lo hi (view s))) as Hs.
      induction Hs as [ | x l Hs IH Hf]; [constructor | ]. simpl. constructor; [done | ].
      apply Forall_fmap. eapply Forall_impl; [exact Hf | ]. done. }
    generalize (bt_list (restrict lo hi (view s))).
    intros l. induction l as [ | [k [v | ]] l IH]; simpl; first [done | exact IH | f_equal; exact IH]. }
  destruct (sstables s) eqn:Et; [destruct (txn s) eqn:Ex | ]; try exact Hslow.
  rewrite merged_range_spec, map_fmap_id, bt_list_restrict by done.
  assert (view s = memtable s) as ->.
  { unfold view, durable_view, tables_view. rewrite Et, Ex. simpl.
    by rewrite (left_id_L _ _), (right_id_L _ _). }
  generalize (bt_range lo hi (memtable s)).
  intros l. induction l as [ | [k [v | ]] l IH]; simpl; first [done | exact IH | f_equal; exact IH].
Qed.

Lemma scan_all_spec s :
  tables_wf s -> scan_all s = live_entries (bt_list (durable_view s)).
Proof.
  intros Hwf. unfold scan_all, durable_view. rewrite merge_tables_spec by done.
  by rewrite insert_all_union, bt_list_to_map by apply bt_list_NoDup.
Qed.
End Reads.
