(* ===== verification/Recovery.v ===== *)
(** Durability of the LSM engine.

    [disk_ok] relates the engine's memory to the bytes on its file system: the
    log holds the frames of the memtable's entries, the manifest and the tables
    are the encodings of what is in memory. The writing operations keep it,
    [Storage::open] rebuilds the same contents from it, and it suffices at
    every point where [flush] can be interrupted.

    Source: src/crates/kessel-storage/src/lib.rs. *)

From Stdlib Require Import ZArith Lia.
From stdpp Require Import base numbers list sorting gmap fin_maps.
From S2P Require Import Prelude BTree Proto Vfs Wal SsTable Storage View.

#[local] Open Scope Z_scope.

(** * Replaying entries *)

(** The entries [commit_txn] logs for an overlay. *)
Definition overlay_entries (ov : Overlay) : list Entry :=
  map (fun kv => {| op_number := kv.2.1; entry_key := kv.1; entry_value := kv.2.2 |}) (bt_list ov).

Lemma replay_memtable_app es fs :
  replay_memtable (es ++ fs) =
  insert_all (map (fun e => (entry_key e, entry_value e)) fs) (replay_memtable es).
Proof. unfold replay_memtable, insert_all. by rewrite map_app, fold_left_app. Qed.

Lemma replay_memtable_snoc es e :
  replay_memtable (es ++ [e]) = <[entry_key e := entry_value e]> (replay_memtable es).
Proof. by rewrite replay_memtable_app. Qed.

Lemma replay_memtable_elem es k v :
  replay_memtable es !! k = Some v -> exists e, e ∈ es /\ entry_key e = k /\ entry_value e = v.
Proof.
  induction es as [ | e es IH] using rev_ind; [done | ].
  rewrite replay_memtable_snoc, lookup_insert_Some. intros [[<- <-] | [_ Hes]].
  - exists e. by rewrite elem_of_app, list_elem_of_singleton; auto.
  - destruct (IH Hes) as (e' & Hin & Hk). exists e'. rewrite elem_of_app. auto.
Qed.

Lemma replay_memtable_slots es :
  Forall entry_ok es -> forall k v, replay_memtable es !! k = Some v -> slot_ok (k, v).
Proof.
  intros Hes k v Hk. apply replay_memtable_elem in Hk as (e & Hin & <- & <-).
  rewrite Forall_forall in Hes. destruct (Hes e Hin) as [_ Hkb Hkl Hv Hl].
  split_and!; simpl; [done | done | ]. intros v Ev. split; [by apply Hv | ].
  pose proof (encode_entry_value_len e v Ev). lia.
Qed.

Section Recovery.
Context {W : Type} `{VfsLaws W}.
Implicit Types s : Storage W.
Implicit Types w : W.

(** * The invariant *)

Definition manifest_read w (man : Manifest) : Prop :=
  match content w MANIFEST_NAME with
  | Some d => parse_manifest d = Ret man
  | None => man = manifest_default
  end.

Definition tables_on_disk w (names : list bytes) (ms : list KvMap) : Prop :=
  Forall2 (fun n m => content w n = Some (encode_sstable m) /\ kv_ok m) names ms.

(** Tables are numbered below the next one, which is not there yet. *)
Record names_ok w (man : Manifest) : Prop := {
  no_old : Forall (fun n => exists i, 0 <= i < next_sst man /\ n = sst_name i) (man_sstables man);
  no_new i : next_sst man <= i -> u64_ok i -> content w (sst_name i) = None
}.

Record disk_ok s (es : list Entry) (ms : list KvMap) : Prop := {
  dk_wal : content (vfs s) WAL_NAME = Some (frames es);
  dk_end : wal_end s = zlen (frames es);
  dk_entries : Forall entry_ok es;
  dk_mem : memtable s = replay_memtable es;
  dk_man : content (vfs s) MANIFEST_NAME = Some (encode_manifest (manifest s)) \/
           content (vfs s) MANIFEST_NAME = None /\ manifest s = manifest_default;
  dk_man_ok : manifest_ok (manifest s);
  dk_names : names_ok (vfs s) (manifest s);
  dk_disk : tables_on_disk (vfs s) (man_sstables (manifest s)) ms;
  dk_tables : sstables s = table_of <$> ms;
}.

Lemma disk_ok_tables_wf s es ms : disk_ok s es ms -> tables_wf s.
Proof.
  intros Hok. unfold tables_wf. rewrite (dk_tables _ _ _ Hok). apply Forall_fmap.
  apply Forall_true. intros m. by exists m.
Qed.

Lemma manifest_default_ok : manifest_ok manifest_default.
Proof. constructor; simpl; unfold u64_ok, u64_max, u32_max, zlen; simpl; [constructor | lia..]. Qed.

Lemma disk_ok_manifest s es ms : disk_ok s es ms -> manifest_read (vfs s) (manifest s).
Proof.
  intros Hok. unfold manifest_read. destruct (dk_man _ _ _ Hok) as [-> | [-> Hd]]; [ | done].
  apply parse_encode_manifest, (dk_man_ok _ _ _ Hok).
Qed.

(** * Opening *)

Lemma tables_on_disk_ext w w' names ms :
  (forall n, n ∈ names -> content w' n = content w n) ->
  tables_on_disk w names ms -> tables_on_disk w' names ms.
Proof.
  intros Hc Ht. induction Ht as [ | n m names ms [Hn Hm] Ht IH]; constructor.
  - split; [ | done]. rewrite Hc; [done | apply list_elem_of_here].
  - apply IH. intros n' Hn'. apply Hc. by apply list_elem_of_further.
Qed.

Lemma open_tables_spec w names ms :
  tables_on_disk w names ms ->
  exists w', open_tables names w = (w', Ret (table_of <$> ms)) /\
    forall x, content w' x = content w x.
Proof.
  intros Ht. revert w ms Ht. induction names as [ | n names IH]; intros w ms Ht;
    inversion Ht as [ | ? m ? ms' [Hn Hm] Ht']; subst.
  { by exists w. }
  destruct (sst_open_spec w n _ Hn) as (w1 & Ho & Hc1).
  rewrite parse_encode_sstable in Ho by done.
  destruct (IH w1 ms') as (w2 & Hs & Hc2).
  { eapply tables_on_disk_ext; [ | exact Ht']. intros; apply Hc1. }
  exists w2. split; [ | intros x; by rewrite Hc2, Hc1].
  cbn [open_tables]. mstep Ho. mstep Hs. reflexivity.
Qed.

(** What [Storage::open] builds from the contents of the file system. *)
Definition opened w (man : Manifest) (ms : list KvMap) (d : bytes) : Storage W :=
  mkStorage w (replay_memtable (scan_all_frames d)) (table_of <$> ms) man (zlen d) true None 0
    (replay_high_op (if 0 <? man_high_op man then Some (man_high_op man) else None)
       (scan_all_frames d)) 0.

Lemma open_spec w man ms d :
  manifest_read w man -> tables_on_disk w (man_sstables man) ms ->
  default [] (content w WAL_NAME) = d -> bytes_ok d ->
  exists w', storage_open w = (w', Ret (opened w' man ms d)) /\
    forall n, content w' n = upd (content w) WAL_NAME (Some d) n.
Proof.
  intros Hman Htab Hd Hok. destruct (read_manifest_spec w) as (w1 & Hr & Hc1).
  assert (read_manifest w = (w1, Ret man)) as Hr'.
  { rewrite Hr. unfold manifest_read in Hman. destruct (content w MANIFEST_NAME); congruence. }
  destruct (open_tables_spec w1 (man_sstables man) ms) as (w2 & Ht & Hc2).
  { eapply tables_on_disk_ext; [ | exact Htab]. intros; apply Hc1. }
  destruct (wal_open_spec w2) as (w3 & Hw & Hc3). rewrite Hc2, Hc1, Hd in Hw, Hc3.
  assert (forall n, content w3 n = upd (content w) WAL_NAME (Some d) n) as Hc.
  { intros n. rewrite Hc3. unfold upd. case_decide; [done | ]. by rewrite Hc2, Hc1. }
  exists w3. split; [ | done].
  unfold storage_open. mstep Hr'. mstep Ht. mstep Hw. mstep (m_get_ret w3). unfold mret, M_ret.
  rewrite (wal_replay_scan w3 d); [reflexivity | by rewrite Hc, upd_eq | done].
Qed.

(** The contents recovered from [w] are [m]. *)
Definition recovers w (m : KvMap) : Prop :=
  exists w' s', storage_open w = (w', Ret s') /\ txn s' = None /\ tables_wf s' /\ view s' = m.

Lemma opened_view w man ms d :
  view (opened w man ms d) =
  replay_memtable (scan_all_frames d) ∪ tables_view (table_of <$> ms).
Proof. unfold view, durable_view. simpl. by rewrite (left_id_L _ _). Qed.

Lemma opened_tables_wf w man ms d : tables_wf (opened w man ms d).
Proof. unfold tables_wf. simpl. apply Forall_fmap, Forall_true. intros m. by exists m. Qed.

Lemma recovers_open w man ms d :
  manifest_read w man -> tables_on_disk w (man_sstables man) ms ->
  default [] (content w WAL_NAME) = d -> bytes_ok d ->
  recovers w (replay_memtable (scan_all_frames d) ∪ tables_view (table_of <$> ms)).
Proof.
  intros Hm Ht Hd Hok. destruct (open_spec w man ms d Hm Ht Hd Hok) as (w' & Ho & _).
  exists w', (opened w' man ms d). split_and!; [done | done | apply opened_tables_wf | apply opened_view].
Qed.

Lemma disk_ok_recovers s es ms : disk_ok s es ms -> recovers (vfs s) (durable_view s).
Proof.
  intros Hok. unfold durable_view. rewrite (dk_mem _ _ _ Hok), (dk_tables _ _ _ Hok).
  rewrite <- (scan_all_clean es) at 1 by apply (dk_entries _ _ _ Hok).
  eapply recovers_open.
  - by eapply disk_ok_manifest.
  - apply (dk_disk _ _ _ Hok).
  - by rewrite (dk_wal _ _ _ Hok).
  - apply frames_bytes_ok, (dk_entries _ _ _ Hok).
Qed.

(** * Writing *)

Lemma on_vfs_ret {A} (m : M W A) s w' (a : A) :
  m (vfs s) = (w', Ret a) -> on_vfs m s = (set_vfs w' s, Ret a).
Proof. intros Hm. unfold on_vfs. by rewrite Hm. Qed.

Lemma sst_name_not_wal i : WAL_NAME <> sst_name i.
Proof. intros Heq. pose proof (sst_name_head i) as Hh. rewrite <- Heq in Hh. done. Qed.
Lemma sst_name_not_manifest i : MANIFEST_NAME <> sst_name i.
Proof. intros Heq. pose proof (sst_name_head i) as Hh. rewrite <- Heq in Hh. done. Qed.

Lemma names_ok_in w man n : names_ok w man -> n ∈ man_sstables man -> exists i, n = sst_name i.
Proof.
  intros [Ho _] Hin. rewrite Forall_forall in Ho. destruct (Ho n Hin) as (i & _ & ->). eauto.
Qed.

(** Only the log changed. *)
Lemma disk_ok_wal s s' es es' ms :
  disk_ok s es ms ->
  (forall n, content (vfs s') n = upd (content (vfs s)) WAL_NAME (Some (frames es')) n) ->
  Forall entry_ok es' -> wal_end s' = zlen (frames es') -> memtable s' = replay_memtable es' ->
  manifest s' = manifest s -> sstables s' = sstables s -> disk_ok s' es' ms.
Proof.
  intros [Hw He Hes Hm Hman Hmok Hnam Hd Ht] Hc Hes' He' Hm' Eman Etab.
  constructor; rewrite ?Eman, ?Etab; try done.
  - by rewrite Hc, upd_ne.
  - destruct Hnam as [Ho Hn]. constructor; [done | ]. intros i Hi Hok.
    rewrite Hc, upd_ne by apply sst_name_not_wal. by apply Hn.
  - eapply tables_on_disk_ext; [ | exact Hd]. intros n Hin. rewrite Hc.
    destruct (names_ok_in _ _ _ Hnam Hin) as [i ->]. by rewrite upd_ne by apply sst_name_not_wal.
Qed.

Lemma wal_sync_spec s :
  exists w', on_vfs wal_sync s = (set_vfs w' s, Ret tt) /\
    forall n, content w' n = content (vfs s) n.
Proof.
  destruct (law_sync (vfs s) WAL_NAME) as (w' & Hs & Hc). exists w'.
  split; [ | done]. by apply on_vfs_ret.
Qed.

Lemma append_spec s d e :
  content (vfs s) WAL_NAME = Some d -> wal_end s = zlen d ->
  exists w', on_vfs (wal_append (wal_end s) e) s = (set_vfs w' s, Ret (zlen (d ++ frame e))) /\
    forall n, content w' n = upd (content (vfs s)) WAL_NAME (Some (d ++ frame e)) n.
Proof.
  intros Hd He. destruct (wal_append_spec (vfs s) d e Hd) as (w' & Ha & Hc). exists w'.
  split; [ | done]. rewrite He. by apply on_vfs_ret.
Qed.

Lemma upd_upd f n (u v : option bytes) m : upd (upd f n u) n v m = upd f n v m.
Proof. unfold upd. by case_decide. Qed.

(** A committed entry outside a transaction is in the log and in the view. *)
Lemma commit_spec s es ms e :
  disk_ok s es ms -> txn s = None -> entry_ok e ->
  exists s', commit e s = (s', Ret tt) /\ disk_ok s' (es ++ [e]) ms /\ txn s' = None /\
    autosync s' = autosync s /\ compact_threshold s' = compact_threshold s /\
    manifest s' = manifest s /\ high_op s' = max_op (high_op s) (op_number e) /\
    view s' = <[entry_key e := entry_value e]> (view s).
Proof.
  intros Hok Htx He.
  destruct (append_spec s _ e (dk_wal _ _ _ Hok) (dk_end _ _ _ Hok)) as (w1 & Ha & Hc1).
  set (s1 := set_wal_end (zlen (frames es ++ frame e)) (set_vfs w1 s)).
  assert (exists w2, (if autosync s then on_vfs wal_sync else mret tt) s1 = (set_vfs w2 s1, Ret tt) /\
            forall n, content w2 n = content w1 n) as (w2 & Hs & Hc2).
  { destruct (autosync s).
    - destruct (wal_sync_spec s1) as (w2 & Hs & Hc2). eauto.
    - exists w1. split; [reflexivity | done]. }
  eexists. split_and!.
  - unfold commit. mstep (m_get_ret s). rewrite Htx. mstep Ha.
    erewrite M_bind_ret by reflexivity. fold s1. mstep Hs. reflexivity.
  - eapply disk_ok_wal; [exact Hok | ..]; simpl; try done.
    + intros n. by rewrite Hc2, Hc1, frames_snoc.
    + apply Forall_app. split; [apply (dk_entries _ _ _ Hok) | by constructor].
    + by rewrite frames_snoc.
    + by rewrite replay_memtable_snoc, (dk_mem _ _ _ Hok).
  - done.
  - done.
  - done.
  - done.
  - done.
  - unfold view, durable_view. simpl. rewrite Htx. simpl. by rewrite !kv_empty_union, insert_union_l.
Qed.

(** A write inside a transaction goes to the overlay, and the view shows it. *)
Lemma commit_overlay_spec s ov e :
  txn s = Some ov ->
  commit e s = (set_txn (Some (<[entry_key e := (op_number e, entry_value e)]> ov)) s, Ret tt).
Proof. intros Htx. unfold commit. mstep (m_get_ret s). by rewrite Htx. Qed.

Lemma commit_overlay_view s ov e :
  txn s = Some ov ->
  view (set_txn (Some (<[entry_key e := (op_number e, entry_value e)]> ov)) s) =
  <[entry_key e := entry_value e]> (view s).
Proof.
  intros Htx. unfold view, durable_view. simpl. rewrite Htx. simpl.
  by rewrite fmap_insert, insert_union_l.
Qed.

(** * Committing a transaction *)

Lemma append_all_spec l s d :
  content (vfs s) WAL_NAME = Some d -> wal_end s = zlen d ->
  exists w', append_all l s =
      (set_wal_end (zlen (d ++ frames (map (fun kv =>
          {| op_number := kv.2.1; entry_key := kv.1; entry_value := kv.2.2 |}) l)))
         (set_vfs w' s), Ret tt) /\
    forall n, content w' n = upd (content (vfs s)) WAL_NAME
      (Some (d ++ frames (map (fun kv =>
          {| op_number := kv.2.1; entry_key := kv.1; entry_value := kv.2.2 |}) l))) n.
Proof.
  revert s d. induction l as [ | [k [n v]] l IH]; intros s d Hd He.
  { exists (vfs s). cbn [append_all map]. unfold frames. simpl. rewrite app_nil_r, <- He. split.
    - by destruct s.
    - intros x. unfold upd. case_decide; by subst. }
  set (e := {| op_number := n; entry_key := k; entry_value := v |}).
  destruct (append_spec s d e Hd He) as (w1 & Ha & Hc1).
  set (s1 := set_wal_end (zlen (d ++ frame e)) (set_vfs w1 s)).
  destruct (IH s1 (d ++ frame e)) as (w2 & Hs & Hc2); [by simpl; rewrite Hc1, upd_eq | done | ].
  exists w2. cbn [map fst snd]. fold e. rewrite frames_cons, app_assoc. split.
  - cbn [append_all]. mstep (m_get_ret s). fold e. mstep Ha.
    erewrite M_bind_ret by reflexivity. fold s1. rewrite Hs. reflexivity.
  - intros x. rewrite Hc2. unfold upd. case_decide; [done | ]. simpl. rewrite Hc1. by apply upd_ne.
Qed.

Lemma overlay_entries_map (ov : Overlay) (m : KvMap) :
  insert_all (map (fun kv => (kv.1, kv.2.2)) (bt_list ov)) m = (snd <$> ov) ∪ m.
Proof.
  rewrite insert_all_union.
  - f_equal. rewrite <- (bt_list_to_map ov) at 2. generalize (bt_list ov).
    intros l. induction l as [ | [k [n v]] l IH]; simpl; [by rewrite fmap_empty | ].
    by rewrite IH, fmap_insert.
  - replace (map _ _).*1 with (bt_list ov).*1; [apply bt_list_NoDup | ].
    generalize (bt_list ov). intros l. induction l; simpl; by f_equal.
Qed.

Lemma commit_txn_spec s es ms ov :
  disk_ok s es ms -> txn s = Some ov -> Forall entry_ok (overlay_entries ov) ->
  exists s', commit_txn s = (s', Ret tt) /\ disk_ok s' (es ++ overlay_entries ov) ms /\
    txn s' = None /\ autosync s' = autosync s /\ compact_threshold s' = compact_threshold s /\
    manifest s' = manifest s /\ high_op s' = high_op s /\ view s' = view s.
Proof.
  intros Hok Htx Hov.
  destruct (append_all_spec (bt_list ov) (set_txn None s) (frames es)
              (dk_wal _ _ _ Hok) (dk_end _ _ _ Hok)) as (w1 & Ha & Hc1).
  fold (overlay_entries ov) in Ha, Hc1. rewrite <- frames_app in Ha, Hc1.
  set (s1 := set_wal_end _ _) in Ha. destruct (wal_sync_spec s1) as (w2 & Hs & Hc2).
  eexists. split_and!.
  - unfold commit_txn. mstep (m_get_ret s). rewrite Htx. erewrite M_bind_ret by reflexivity.
    mstep Ha. mstep Hs. reflexivity.
  - eapply disk_ok_wal; [exact Hok | ..]; simpl; try done.
    + intros n. by rewrite Hc2, Hc1.
    + apply Forall_app. split; [apply (dk_entries _ _ _ Hok) | done].
    + rewrite replay_memtable_app, (dk_mem _ _ _ Hok). unfold overlay_entries. by rewrite map_map.
  - done.
  - done.
  - done.
  - done.
  - done.
  - unfold view, durable_view. simpl. rewrite Htx, overlay_entries_map. simpl.
    by rewrite kv_empty_union, (assoc_L (∪)).
Qed.

(** * Flushing *)

(** Room for one more table. *)
Record flush_room s : Prop := {
  fr_size : Z.of_nat (size (memtable s)) <= u32_max;
  fr_next : next_sst (manifest s) < u64_max;
  fr_count : zlen (man_sstables (manifest s)) < u32_max;
  fr_high h : high_op s = Some h -> u64_ok h
}.

Lemma next_sst_succ s es ms :
  disk_ok s es ms -> flush_room s -> wrap64 (next_sst (manifest s) + 1) = next_sst (manifest s) + 1.
Proof.
  intros Hok Hr. pose proof (mo_next _ (dk_man_ok _ _ _ Hok)) as Hn. pose proof (fr_next _ Hr) as Hl.
  unfold u64_ok, u64_max, wrap64 in *. rewrite Z.mod_small; lia.
Qed.

Lemma cursor_ok s es ms : disk_ok s es ms -> flush_room s -> u64_ok (cursor s).
Proof.
  intros Hok Hr. pose proof (mo_high _ (dk_man_ok _ _ _ Hok)) as Hh. unfold cursor.
  pose proof (fr_high _ Hr) as Hs. unfold u64_ok in *.
  destruct (high_op s) as [h | ]; [specialize (Hs h eq_refl) | ]; lia.
Qed.

Lemma successor_ok s es ms :
  disk_ok s es ms -> flush_room s ->
  manifest_ok (successor_manifest s (man_sstables (manifest s) ++ [sst_name (next_sst (manifest s))])).
Proof.
  intros Hok Hr. destruct (dk_man_ok _ _ _ Hok) as [Hn Hc Hx Hh]. pose proof (fr_count _ Hr) as Hcnt.
  pose proof (fr_next _ Hr) as Hl. constructor; simpl.
  - apply Forall_app. split; [done | ]. constructor; [ | constructor].
    split; [apply sst_name_ascii; unfold u64_ok in Hx; lia | ].
    pose proof (sst_name_len (next_sst (manifest s))). unfold u32_max. lia.
  - autorewrite with zlen. lia.
  - rewrite (next_sst_succ _ _ _ Hok Hr). unfold u64_ok in *. lia.
  - by eapply cursor_ok.
Qed.

(** The manifest only grows, so the new one covers every byte of the old one. *)
Lemma successor_overwrites s es ms n :
  disk_ok s es ms ->
  splice (default [] (content (vfs s) MANIFEST_NAME)) 0
    (encode_manifest (successor_manifest s (man_sstables (manifest s) ++ [n]))) =
  encode_manifest (successor_manifest s (man_sstables (manifest s) ++ [n])).
Proof.
  intros Hok. apply splice_overwrite. rewrite encode_manifest_len. cbn [man_sstables successor_manifest].
  rewrite map_app, concat_app. autorewrite with zlen.
  pose proof (zlen_nonneg (concat (map encode_name [n]))).
  destruct (dk_man _ _ _ Hok) as [-> | [-> Hd]]; cbn [from_option id].
  - rewrite encode_manifest_len. lia.
  - pose proof (zlen_nonneg (concat (map encode_name (man_sstables (manifest s))))). change (zlen (@nil Z)) with 0. lia.
Qed.

Lemma memtable_kv_ok s es ms : disk_ok s es ms -> flush_room s -> kv_ok (memtable s).
Proof.
  intros Hok Hr. split; [ | apply (fr_size _ Hr)]. rewrite (dk_mem _ _ _ Hok).
  apply replay_memtable_slots, (dk_entries _ _ _ Hok).
Qed.

(** The three durable steps of [flush] and what is on the file system after
    each: the table, then the manifest, then no log. *)
Lemma flush_steps s es ms :
  disk_ok s es ms -> flush_room s ->
  let name := sst_name (next_sst (manifest s)) in
  let next := successor_manifest s (man_sstables (manifest s) ++ [name]) in
  exists w1 w2 w3 w4,
    write_sstable name (memtable s) (vfs s) = (w1, Ret tt) /\
    (forall n, content w1 n = upd (content (vfs s)) name (Some (encode_sstable (memtable s))) n) /\
    write_manifest next w1 = (w2, Ret tt) /\
    (forall n, content w2 n = upd (content w1) MANIFEST_NAME (Some (encode_manifest next)) n) /\
    sst_open name w2 = (w3, Ret (table_of (memtable s))) /\
    (forall n, content w3 n = content w2 n) /\
    vfs_remove WAL_NAME w3 = (w4, Ret tt) /\
    (forall n, content w4 n = upd (content w2) WAL_NAME None n).
Proof.
  intros Hok Hr name next.
  pose proof (dk_man_ok _ _ _ Hok) as Hmok. destruct (dk_names _ _ _ Hok) as [_ Hnew].
  assert (content (vfs s) name = None) as Hfree by (apply Hnew; [lia | apply (mo_next _ Hmok)]).
  destruct (write_sstable_spec (vfs s) name (memtable s)) as (w1 & H1 & Hc1).
  rewrite Hfree in Hc1. cbn [from_option] in Hc1.
  rewrite splice_overwrite in Hc1 by apply zlen_nonneg.
  destruct (write_manifest_spec w1 next) as (w2 & H2 & Hc2).
  assert (content w1 MANIFEST_NAME = content (vfs s) MANIFEST_NAME) as Hman.
  { rewrite Hc1. apply upd_ne, not_eq_sym, sst_name_not_manifest. }
  rewrite Hman in Hc2. unfold next in Hc2. rewrite (successor_overwrites s es ms name Hok) in Hc2.
  fold next in Hc2.
  assert (content w2 name = Some (encode_sstable (memtable s))) as Hname.
  { rewrite Hc2, upd_ne by apply sst_name_not_manifest. by rewrite Hc1, upd_eq. }
  destruct (sst_open_spec w2 name _ Hname) as (w3 & H3 & Hc3).
  rewrite parse_encode_sstable in H3 by (by eapply memtable_kv_ok).
  destruct (law_remove w3 WAL_NAME) as (w4 & H4 & Hc4).
  exists w1, w2, w3, w4. split_and!; try done.
  intros n. rewrite Hc4. unfold upd. case_decide; [done | ]. apply Hc3.
Qed.

(** The tables of the old manifest are where they were. *)
Lemma old_tables_kept s es ms w :
  disk_ok s es ms ->
  (forall n, n <> WAL_NAME -> n <> MANIFEST_NAME -> n <> sst_name (next_sst (manifest s)) ->
     content w n = content (vfs s) n) ->
  tables_on_disk w (man_sstables (manifest s)) ms.
Proof.
  intros Hok Hc. eapply tables_on_disk_ext; [ | apply (dk_disk _ _ _ Hok)].
  intros n Hin. destruct (dk_names _ _ _ Hok) as [Hold _]. rewrite Forall_forall in Hold.
  destruct (Hold n Hin) as (i & Hi & ->). pose proof (mo_next _ (dk_man_ok _ _ _ Hok)) as Hx.
  apply Hc.
  - apply not_eq_sym, sst_name_not_wal.
  - apply not_eq_sym, sst_name_not_manifest.
  - intros Heq. apply sst_name_inj in Heq; unfold u64_ok in *; lia.
Qed.

Lemma tables_on_disk_snoc w names ms n m :
  tables_on_disk w names ms -> content w n = Some (encode_sstable m) -> kv_ok m ->
  tables_on_disk w (names ++ [n]) (ms ++ [m]).
Proof. intros Ht Hn Hm. apply Forall2_app; [done | ]. constructor; [done | constructor]. Qed.

(** What is on the file system once the new manifest is written. *)
Lemma flush_manifest_written s es ms w1 w2 :
  let name := sst_name (next_sst (manifest s)) in
  let next := successor_manifest s (man_sstables (manifest s) ++ [name]) in
  disk_ok s es ms -> flush_room s ->
  (forall n, content w1 n = upd (content (vfs s)) name (Some (encode_sstable (memtable s))) n) ->
  (forall n, content w2 n = upd (content w1) MANIFEST_NAME (Some (encode_manifest next)) n) ->
  tables_on_disk w2 (man_sstables next) (ms ++ [memtable s]) /\ manifest_read w2 next /\
  content w2 WAL_NAME = Some (frames es).
Proof.
  intros name next Hok Hr Hc1 Hc2.
  assert (Hnw := sst_name_not_wal (next_sst (manifest s))).
  assert (Hnm := sst_name_not_manifest (next_sst (manifest s))).
  split_and!.
  - apply tables_on_disk_snoc; [ | by rewrite Hc2, upd_ne, Hc1, upd_eq | by eapply memtable_kv_ok].
    eapply old_tables_kept; [exact Hok | ]. intros n _ Hn1 Hn2.
    rewrite Hc2, upd_ne by (by apply not_eq_sym). rewrite Hc1. by apply upd_ne, not_eq_sym.
  - unfold manifest_read. rewrite Hc2, upd_eq. by eapply parse_encode_manifest, successor_ok.
  - rewrite Hc2, upd_ne by done. rewrite Hc1, upd_ne by (by apply not_eq_sym). apply (dk_wal _ _ _ Hok).
Qed.

Lemma flushed_tables_view s es ms :
  disk_ok s es ms -> tables_view (table_of <$> ms ++ [memtable s]) = durable_view s.
Proof.
  intros Hok. rewrite fmap_app. cbn [fmap list_fmap]. rewrite tables_view_snoc, table_map_of.
  unfold durable_view. by rewrite (dk_tables _ _ _ Hok).
Qed.

Lemma names_not_wal s es ms n :
  disk_ok s es ms -> n ∈ man_sstables (manifest s) ++ [sst_name (next_sst (manifest s))] -> n <> WAL_NAME.
Proof.
  intros Hok Hin ->. apply elem_of_app in Hin as [Hin | Hin].
  - destruct (names_ok_in _ _ _ (dk_names _ _ _ Hok) Hin) as [i Hi]. by apply sst_name_not_wal in Hi.
  - apply list_elem_of_singleton in Hin. by apply sst_name_not_wal in Hin.
Qed.

(** Until the new manifest is written, everything is where it was, whatever the
    new table's blob holds. *)
Lemma recovers_before s es ms w :
  disk_ok s es ms -> manifest_read w (manifest s) -> content w WAL_NAME = Some (frames es) ->
  (forall n, n <> WAL_NAME -> n <> MANIFEST_NAME -> n <> sst_name (next_sst (manifest s)) ->
     content w n = content (vfs s) n) ->
  recovers w (durable_view s).
Proof.
  intros Hok Hm Hw Hc. assert (durable_view s = replay_memtable es ∪ tables_view (table_of <$> ms)) as ->
    by (unfold durable_view; by rewrite (dk_mem _ _ _ Hok), (dk_tables _ _ _ Hok)).
  rewrite <- (scan_all_clean es (dk_entries _ _ _ Hok)). eapply recovers_open; [exact Hm | by eapply old_tables_kept | by rewrite Hw | ].
  apply frames_bytes_ok, (dk_entries _ _ _ Hok).
Qed.

(** From then on the log may be there or not: the new table has its entries. *)
Lemma recovers_after s es ms w :
  let next := successor_manifest s (man_sstables (manifest s) ++ [sst_name (next_sst (manifest s))]) in
  disk_ok s es ms -> manifest_read w next -> tables_on_disk w (man_sstables next) (ms ++ [memtable s]) ->
  content w WAL_NAME = Some (frames es) \/ default [] (content w WAL_NAME) = [] -> recovers w (durable_view s).
Proof.
  intros next Hok Hm Ht Hw. pose proof (flushed_tables_view s es ms Hok) as Hv. destruct Hw as [Hw | Hw].
  - replace (durable_view s) with (replay_memtable es ∪ durable_view s).
    2: { unfold durable_view. rewrite (dk_mem _ _ _ Hok), (assoc_L (∪)). f_equal. apply (idemp_L (∪)). }
    rewrite <- (scan_all_clean es (dk_entries _ _ _ Hok)), <- Hv.
    eapply recovers_open; [exact Hm | exact Ht | by rewrite Hw | apply frames_bytes_ok, (dk_entries _ _ _ Hok)].
  - rewrite <- (kv_empty_union (durable_view s)), <- Hv.
    change (∅ : KvMap) with (replay_memtable (scan_all_frames [])).
    eapply recovers_open; [exact Hm | exact Ht | exact Hw | constructor].
Qed.

Lemma flushed_disk_ok s s' es ms w2 :
  let name := sst_name (next_sst (manifest s)) in
  let next := successor_manifest s (man_sstables (manifest s) ++ [name]) in
  disk_ok s es ms -> flush_room s ->
  tables_on_disk w2 (man_sstables next) (ms ++ [memtable s]) ->
  (forall n, content w2 n = upd (upd (content (vfs s)) name (Some (encode_sstable (memtable s))))
     MANIFEST_NAME (Some (encode_manifest next)) n) ->
  (forall n, content (vfs s') n = upd (content w2) WAL_NAME (Some []) n) ->
  wal_end s' = 0 -> memtable s' = ∅ -> manifest s' = next ->
  sstables s' = sstables s ++ [table_of (memtable s)] -> disk_ok s' [] (ms ++ [memtable s]).
Proof.
  intros name next Hok Hr Ht2 Hc2 Hc He Hm Hman Htab.
  pose proof (next_sst_succ _ _ _ Hok Hr) as Hsucc. pose proof (mo_next _ (dk_man_ok _ _ _ Hok)) as Hx.
  constructor; rewrite ?Hman, ?Htab; try done.
  - left. by rewrite Hc, upd_ne, Hc2, upd_eq.
  - by eapply successor_ok.
  - destruct (dk_names _ _ _ Hok) as [Hold Hnew]. unfold u64_ok in Hx.
    constructor; cbn [next_sst man_sstables next successor_manifest]; rewrite Hsucc.
    + apply Forall_app. split.
      * eapply Forall_impl; [exact Hold | ]. intros n (i & Hi & ->). exists i. split; [lia | done].
      * constructor; [ | constructor]. exists (next_sst (manifest s)). split; [lia | done].
    + intros i Hi Hio. rewrite Hc, upd_ne by apply sst_name_not_wal.
      rewrite Hc2, upd_ne by apply sst_name_not_manifest. rewrite upd_ne; [apply Hnew; [lia | done] | ].
      intros Heq. apply sst_name_inj in Heq; [lia | done | done].
  - eapply tables_on_disk_ext; [ | exact Ht2]. intros n Hin. rewrite Hc.
    apply upd_ne, not_eq_sym. by eapply names_not_wal.
  - by rewrite (dk_tables _ _ _ Hok), fmap_app.
Qed.

(** A flush that does not reach the compaction threshold. *)
Lemma flush_spec s es ms :
  disk_ok s es ms -> flush_room s -> memtable s <> ∅ ->
  (0 <? compact_threshold s) && (compact_threshold s <=? zlen (sstables s) + 1) = false ->
  exists s', flush s = (s', Ret tt) /\ disk_ok s' [] (ms ++ [memtable s]) /\
    txn s' = txn s /\ autosync s' = autosync s /\ high_op s' = high_op s /\
    compact_threshold s' = compact_threshold s /\ durable_view s' = durable_view s.
Proof.
  intros Hok Hr Hne Hthr.
  destruct (flush_steps s es ms Hok Hr) as (w1 & w2 & w3 & w4 & H1 & Hc1 & H2 & Hc2 & H3 & Hc3 & H4 & Hc4).
  destruct (flush_manifest_written s es ms w1 w2 Hok Hr Hc1 Hc2) as (Ht2 & Hm2 & Hw2).
  destruct (wal_open_spec w4) as (w5 & H5 & Hc5). rewrite Hc4, upd_eq in H5, Hc5. cbn in H5, Hc5.
  set (name := sst_name (next_sst (manifest s))) in *.
  set (next := successor_manifest s (man_sstables (manifest s) ++ [name])) in *.
  assert (forall n, content w5 n = upd (content w2) WAL_NAME (Some []) n) as Hc.
  { intros n. rewrite Hc5. unfold upd. case_decide; [done | ]. rewrite Hc4. by apply upd_ne. }
  assert ((size (memtable s) =? 0)%nat = false) as Hsz
    by (apply Nat.eqb_neq; by rewrite map_size_empty_iff).
  exists (set_memtable ∅ (set_wal_end 0 (set_vfs w5
            (set_sstables (sstables s ++ [table_of (memtable s)]) (set_manifest next s))))).
  split_and!; try done.
  - unfold flush. mstep (m_get_ret s). rewrite Hsz. fold name. fold next.
    erewrite M_bind_ret by (apply on_vfs_ret; exact H1).
    erewrite M_bind_ret by (apply on_vfs_ret; exact H2).
    erewrite M_bind_ret by reflexivity.
    erewrite M_bind_ret by (apply on_vfs_ret; exact H3).
    erewrite M_bind_ret by reflexivity.
    erewrite M_bind_ret by (apply on_vfs_ret; exact H4).
    erewrite M_bind_ret by (apply on_vfs_ret; exact H5).
    erewrite M_bind_ret by reflexivity. erewrite M_bind_ret by apply m_get_ret.
    cbn [compact_threshold sstables set_memtable set_wal_end set_vfs set_sstables set_manifest].
    rewrite zlen_app. change (zlen [table_of (memtable s)]) with 1. rewrite Hthr. reflexivity.
  - eapply (flushed_disk_ok s _ es ms w2); try done. intros n. fold name. fold next. rewrite Hc2.
    unfold upd at 1 2. case_decide; [done | ]. apply Hc1.
  - unfold durable_view. simpl. by rewrite tables_view_snoc, table_map_of, kv_empty_union.
Qed.

(** * Compaction *)

Lemma remove_all_spec names s :
  exists w', remove_all names s = (set_vfs w' s, Ret tt) /\
    forall n, n ∉ names -> content w' n = content (vfs s) n.
Proof.
  revert s. induction names as [ | n names IH]; intros s.
  { exists (vfs s). split; [by destruct s | done]. }
  destruct (law_remove (vfs s) n) as (w1 & H1 & Hc1).
  destruct (IH (set_vfs w1 s)) as (w2 & H2 & Hc2). exists w2. split.
  - cbn [remove_all]. rewrite (on_vfs_ret _ _ _ _ H1), H2. done.
  - intros m Hm. apply not_elem_of_cons in Hm as [Hne Hm]. rewrite Hc2 by done. simpl.
    rewrite Hc1. by apply upd_ne, not_eq_sym.
Qed.

Lemma compact_map_lookup ts k :
  Forall table_wf ts ->
  compact_map ts !! k = match tables_view ts !! k with
                        | Some None => if zlen k =? 28 then Some None else None
                        | o => o
                        end.
Proof.
  intros Hwf. unfold compact_map. rewrite merge_tables_spec by done.
  destruct (tables_view ts !! k) as [[v | ] | ] eqn:E.
  - by apply map_lookup_filter_Some.
  - destruct (zlen k =? 28) eqn:Ek.
    + apply map_lookup_filter_Some. split; [done | ]. by apply Is_true_true.
    + apply map_lookup_filter_None. right. intros v Hv. rewrite E in Hv. injection Hv as <-.
      rewrite Is_true_true. unfold compact_keep. cbn [fst snd]. congruence.
  - apply map_lookup_filter_None. by left.
Qed.

Lemma tables_view_slots w names ms k v :
  tables_on_disk w names ms -> tables_view (table_of <$> ms) !! k = Some v -> slot_ok (k, v).
Proof.
  revert names. induction ms as [ | m ms IH] using rev_ind; intros names Ht.
  { unfold tables_view. simpl. by rewrite lookup_empty. }
  unfold tables_on_disk in Ht. apply Forall2_app_inv_r in Ht as (n1 & n2 & Ht & Hm & ->).
  inversion Hm as [ | ? ? ? ? [_ [Hs _]] _]; subst.
  rewrite fmap_app. cbn [fmap list_fmap]. rewrite tables_view_snoc, table_map_of, lookup_union_Some_raw.
  intros [Hk | [_ Hk]]; [by apply Hs | by eapply IH].
Qed.

Definition compact_room s : Prop :=
  Z.of_nat (size (compact_map (sstables s))) <= u32_max.

Lemma compact_kv_ok s es ms : disk_ok s es ms -> compact_room s -> kv_ok (compact_map (sstables s)).
Proof.
  intros Hok Hr. split; [ | exact Hr]. intros k v Hk.
  rewrite compact_map_lookup in Hk by (by eapply disk_ok_tables_wf).
  rewrite (dk_tables _ _ _ Hok) in Hk.
  apply (tables_view_slots _ _ _ _ _ (dk_disk _ _ _ Hok)).
  destruct (tables_view (table_of <$> ms) !! k) as [[x | ] | ]; [done | | done].
  destruct (_ =? 28); by simplify_eq.
Qed.

(** Compaction replaces the tables by one that holds their merge. *)
Lemma compact_spec s es ms :
  disk_ok s es ms -> compact_room s -> 2 <= zlen (sstables s) ->
  exists s', compact s = (s', Ret tt) /\ sstables s' = [table_of (compact_map (sstables s))] /\
    txn s' = txn s /\ memtable s' = memtable s /\ high_op s' = high_op s.
Proof.
  intros Hok Hr H2. pose proof (mo_next _ (dk_man_ok _ _ _ Hok)) as Hx.
  destruct (dk_names _ _ _ Hok) as [Hold Hnew].
  set (name := sst_name (next_sst (manifest s))). set (merged := compact_map (sstables s)).
  set (next := successor_manifest s [name]).
  assert (content (vfs s) name = None) as Hfree by (apply Hnew; [lia | done]).
  destruct (write_sstable_spec (vfs s) name merged) as (w1 & H1 & Hc1).
  rewrite Hfree in Hc1. cbn [from_option] in Hc1.
  rewrite splice_overwrite in Hc1 by apply zlen_nonneg.
  destruct (write_manifest_spec w1 next) as (w2 & H2' & Hc2).
  destruct (remove_all_spec (man_sstables (manifest s)) (set_vfs w2 (set_vfs w1 s))) as (w3 & H3 & Hc3).
  assert (content w3 name = Some (encode_sstable merged)) as Hname.
  { rewrite Hc3; [simpl; rewrite Hc2, upd_ne by apply sst_name_not_manifest; by rewrite Hc1, upd_eq | ].
    intros Hin. rewrite Forall_forall in Hold. destruct (Hold _ Hin) as (i & Hi & Heq).
    unfold name in Heq. apply sst_name_inj in Heq; unfold u64_ok in *; lia. }
  destruct (sst_open_spec w3 name _ Hname) as (w4 & H4 & Hc4).
  rewrite parse_encode_sstable in H4 by (by eapply compact_kv_ok).
  exists (set_sstables [table_of merged] (set_vfs w4 (set_manifest next s))). split_and!; try done.
  unfold compact. mstep (m_get_ret s). rewrite (proj2 (Z.ltb_ge _ _)) by lia.
  fold merged. fold name. fold next.
  erewrite M_bind_ret by (apply on_vfs_ret; exact H1).
  erewrite M_bind_ret by (apply on_vfs_ret; exact H2').
  erewrite M_bind_ret by exact H3.
  erewrite M_bind_ret by reflexivity.
  erewrite M_bind_ret by (apply on_vfs_ret; exact H4). reflexivity.
Qed.

(** Compaction keeps every read: afterwards one table is left, each key
    reads as before, and the slots of versioned (28-byte) keys, tombstones
    included, are untouched. *)
Theorem compact_preserves_reads s es ms :
  disk_ok s es ms -> compact_room s -> 2 <= zlen (sstables s) ->
  exists s', compact s = (s', Ret tt) /\ zlen (sstables s') = 1 /\
    forall k, get_raw s' k = get_raw s k /\ (zlen k = 28 -> view s' !! k = view s !! k).
Proof.
  intros Hok Hr H2. destruct (compact_spec s es ms Hok Hr H2) as (s' & Hc & Ht & Htx & Hm & _).
  exists s'. split_and!; [done | by rewrite Ht | ]. intros k.
  assert (Hwf := disk_ok_tables_wf _ _ _ Hok).
  assert (tables_wf s') as Hwf' by (unfold tables_wf; rewrite Ht; constructor; [by eexists | constructor]).
  rewrite !get_raw_spec by done. unfold view, durable_view. rewrite Htx, Hm, Ht.
  assert (tables_view [table_of (compact_map (sstables s))] = compact_map (sstables s)) as ->.
  { unfold tables_view. simpl. by rewrite table_map_of, (right_id_L _ _). }
  rewrite !lookup_union, compact_map_lookup by done.
  destruct (overlay_map (txn s) !! k), (memtable s !! k), (tables_view (sstables s) !! k) as [[x | ] | ];
    simpl; try done; (split; [by destruct (_ =? 28) | intros Hl; by rewrite Hl]).
Qed.
End Recovery.
