(* ===== verification/Crash.v ===== *)
(** Crash safety of the LSM engine on the in-memory file system.

    The engine on [MemVfs] refines an atomic map: [abs] is the durable map and
    the open transaction's overlay, [abs_op] what an operation does to them,
    and a crash (every blob cut at its last sync point, then [Storage::open])
    loses the overlay and nothing else. [reachable] are the states the
    operations lead to from an empty file system.

    Source: src/crates/kessel-storage/src/lib.rs,
    src/crates/kessel-io/src/lib.rs ([MemVfs::crash]). *)

From Stdlib Require Import ZArith Lia.
From stdpp Require Import base numbers list sorting gmap fin_maps.
From S2P Require Import Prelude BTree Proto Vfs Wal SsTable Storage View Recovery.

#[local] Open Scope Z_scope.

(** * What a crash leaves *)

(** Every blob but [n] is synced to its end. *)
Definition synced_but (n : option bytes) (w : MemVfs) : Prop :=
  forall m b, Some m <> n -> blobs w !! m = Some b -> synced_len b = zlen (blob_data b).

Definition all_synced (w : MemVfs) : Prop := synced_but None w.

Lemma crash_synced w : all_synced w -> memvfs_crash w = w.
Proof.
  intros Hs. destruct w as [bs]. unfold memvfs_crash. simpl. f_equal.
  apply map_eq. intros n. rewrite lookup_fmap. destruct (bs !! n) as [b | ] eqn:E; [ | done].
  simpl. f_equal. assert (synced_len b = zlen (blob_data b)) as Hb by (by apply (Hs n)).
  destruct b as [d l]. unfold blob_crash. simpl in *. subst l. f_equal.
  apply firstn_all2. unfold zlen. lia.
Qed.

(** A computation that returns takes [P] to [Q]. *)
Definition takes {S A} (P : S -> Prop) (m : M S A) (Q : A -> S -> Prop) : Prop :=
  forall s s' a, P s -> m s = (s', Ret a) -> Q a s'.

Lemma takes_bind {S A B} (P : S -> Prop) (m : M S A) Q (k : A -> M S B) R :
  takes P m Q -> (forall a, takes (Q a) (k a) R) -> takes P (m ≫= k) R.
Proof.
  intros Hm Hk s s' b HP Hb. unfold mbind, M_bind in Hb.
  destruct (m s) as [s1 [a | e | ]] eqn:E; [ | done | done].
  eapply Hk; [eapply Hm; [exact HP | exact E] | exact Hb].
Qed.

Lemma takes_ret {S A} (P : S -> Prop) (a : A) : takes P (mret a) (fun _ => P).
Proof. by intros s s' a' HP [= <- <-]. Qed.

Lemma takes_get {S} (P : S -> Prop) : takes P m_get (fun a s => P s /\ a = s).
Proof. by intros s s' a HP [= <- <-]. Qed.

Lemma takes_modify {S} (P : S -> Prop) (f : S -> S) (Q : S -> Prop) :
  (forall s, P s -> Q (f s)) -> takes P (m_modify f) (fun _ => Q).
Proof. intros Hf s s' a HP [= <- <-]. by apply Hf. Qed.

Lemma takes_weaken {S A} (P P' : S -> Prop) (m : M S A) (Q Q' : A -> S -> Prop) :
  takes P' m Q' -> (forall s, P s -> P' s) -> (forall a s, Q' a s -> Q a s) -> takes P m Q.
Proof. intros Hm HP HQ s s' a Hs E. eapply HQ, Hm; [by apply HP | exact E]. Qed.

Lemma takes_lift {S A} (P : S -> Prop) (o : outcome A) : takes P (m_lift o) (fun _ => P).
Proof. by intros s s' a HP [= <- _]. Qed.

Lemma takes_open n x : takes (synced_but x) (vfs_open n) (fun _ => synced_but x).
Proof.
  intros w w' [] Hs [= <-] m b Hm. unfold memvfs_open. destruct (blobs w !! n) eqn:E; [by apply Hs | ].
  simpl. rewrite lookup_insert_Some. intros [[_ <-] | [_ Hb]]; [done | by apply (Hs m)].
Qed.

Lemma takes_write n off buf :
  takes all_synced (disk_write_at n off buf) (fun _ => synced_but (Some n)).
Proof.
  intros w w' [] Hs [= <-] m b Hm. simpl. rewrite lookup_alter_ne by congruence. by apply Hs.
Qed.

Lemma takes_sync n : takes (synced_but (Some n)) (disk_sync n) (fun _ => all_synced).
Proof.
  intros w w' [] Hs [= <-] m b _. simpl. destruct (decide (n = m)) as [<- | Hne].
  - rewrite lookup_alter_eq. intros Hb. apply fmap_Some in Hb as (b0 & _ & ->). done.
  - rewrite lookup_alter_ne by done. apply Hs. congruence.
Qed.

Lemma takes_remove n : takes all_synced (vfs_remove n) (fun _ => all_synced).
Proof.
  intros w w' [] Hs [= <-] m b _. simpl. rewrite lookup_delete_Some. intros [_ Hb]. by apply (Hs m).
Qed.

Lemma takes_write_blob n buf :
  takes all_synced (_ ← vfs_open n; _ ← disk_write_at n 0 buf; disk_sync n) (fun _ => all_synced).
Proof.
  eapply takes_bind; [apply takes_open | intros ?].
  eapply takes_bind; [apply takes_write | intros ?]. apply takes_sync.
Qed.

Lemma takes_sst_open n : takes all_synced (sst_open n) (fun _ => all_synced).
Proof.
  eapply takes_bind; [apply takes_open | intros ?].
  eapply takes_bind; [apply takes_get | intros w].
  eapply takes_bind; [apply takes_lift | intros d].
  eapply takes_weaken; [apply takes_lift | by intros s [Hs _] | done].
Qed.

Lemma takes_wal_open : takes all_synced wal_open (fun _ => all_synced).
Proof.
  eapply takes_bind; [apply takes_open | intros ?].
  eapply takes_bind; [apply takes_get | intros w].
  eapply takes_weaken; [apply takes_ret | by intros s [Hs _] | done].
Qed.

Lemma takes_read_manifest : takes all_synced read_manifest (fun _ => all_synced).
Proof.
  intros w w' m Hs. unfold read_manifest. destruct (negb _); [by intros [= <- _] | ].
  destruct (vfs_open MANIFEST_NAME w) as [w1 [[] | e | ]] eqn:E; [ | done | done].
  assert (all_synced w1) as H1 by (by eapply takes_open).
  destruct (_ <? 12); [by intros [= <- _] | ].
  destruct (read_buf _ _ _ _); by intros [= <- _].
Qed.

Lemma takes_open_tables names : takes all_synced (open_tables names) (fun _ => all_synced).
Proof.
  induction names as [ | n names IH]; cbn [open_tables]; [apply takes_ret | ].
  eapply takes_bind; [apply takes_sst_open | intros t].
  eapply takes_bind; [apply IH | intros ts]. apply takes_ret.
Qed.

Lemma takes_storage_open : takes all_synced storage_open (fun s w => all_synced w /\ vfs s = w).
Proof.
  eapply takes_bind; [apply takes_read_manifest | intros man].
  eapply takes_bind; [apply takes_open_tables | intros tabs].
  eapply takes_bind; [apply takes_wal_open | intros end_].
  eapply takes_bind; [apply takes_get | intros w].
  intros s s' st [Hs ->] [= <- <-]. done.
Qed.

(** * The engine keeps its file system synced *)

Implicit Types s : Storage MemVfs.

Definition storage_synced s : Prop := all_synced (vfs s).

Lemma takes_on_vfs {A} (P : MemVfs -> Prop) (m : M MemVfs A) Q :
  takes P m Q -> takes (fun s => P (vfs s)) (on_vfs m) (fun a s => Q a (vfs s)).
Proof.
  intros Hm s s' a HP. unfold on_vfs. destruct (m (vfs s)) as [w' r] eqn:E.
  intros [= <- ->]. simpl. eapply Hm; [exact HP | exact E].
Qed.

Lemma takes_append end_ e :
  takes storage_synced (on_vfs (wal_append end_ e)) (fun _ s => synced_but (Some WAL_NAME) (vfs s)).
Proof.
  apply (takes_on_vfs all_synced _ (fun _ => synced_but (Some WAL_NAME))).
  eapply takes_bind; [apply takes_write | intros ?]. apply takes_ret.
Qed.

Lemma takes_append_more end_ e :
  takes (fun s => synced_but (Some WAL_NAME) (vfs s)) (on_vfs (wal_append end_ e))
    (fun _ s => synced_but (Some WAL_NAME) (vfs s)).
Proof.
  apply (takes_on_vfs (synced_but (Some WAL_NAME)) _ (fun _ => synced_but (Some WAL_NAME))).
  eapply takes_bind; [ | intros ?; apply takes_ret].
  intros w w' [] Hs [= <-] m b Hm. simpl. rewrite lookup_alter_ne by congruence. by apply Hs.
Qed.

Lemma takes_wal_sync :
  takes (fun s => synced_but (Some WAL_NAME) (vfs s)) (on_vfs wal_sync) (fun _ => storage_synced).
Proof. apply (takes_on_vfs _ _ (fun _ => all_synced)), takes_sync. Qed.

Lemma takes_commit e :
  takes (fun s => storage_synced s /\ autosync s = true) (commit e) (fun _ => storage_synced).
Proof.
  intros s s' [] [Hs Ha] E. unfold commit in E. rewrite (M_bind_ret _ _ _ _ _ (m_get_ret s)) in E.
  destruct (txn s) as [ov | ]; [injection E as <-; exact Hs | ]. rewrite Ha in E.
  refine (takes_bind storage_synced _ _ _ (fun _ => storage_synced) (takes_append _ _) _ s s' tt Hs E).
  intros n. eapply (takes_bind _ _ (fun _ s => synced_but (Some WAL_NAME) (vfs s))); [by apply takes_modify | intros ?].
  eapply takes_bind; [apply takes_wal_sync | intros ?]. by apply takes_modify.
Qed.

Lemma takes_append_all l :
  takes (fun s => synced_but (Some WAL_NAME) (vfs s)) (append_all l)
    (fun _ s => synced_but (Some WAL_NAME) (vfs s)).
Proof.
  induction l as [ | [k [n v]] l IH]; cbn [append_all]; [apply takes_ret | ].
  intros s s' [] Hs E. rewrite (M_bind_ret _ _ _ _ _ (m_get_ret s)) in E.
  refine (takes_bind _ _ _ _ (fun _ s => synced_but (Some WAL_NAME) (vfs s))
            (takes_append_more _ _) _ s s' tt Hs E).
  intros e'. eapply (takes_bind _ _ (fun _ s => synced_but (Some WAL_NAME) (vfs s)));
    [by apply takes_modify | intros ?]. apply IH.
Qed.

Lemma takes_commit_txn : takes storage_synced commit_txn (fun _ => storage_synced).
Proof.
  intros s s' [] Hs E. unfold commit_txn in E. rewrite (M_bind_ret _ _ _ _ _ (m_get_ret s)) in E.
  destruct (txn s) as [ov | ]; [ | by injection E as <-].
  refine (takes_bind storage_synced _ (fun _ s => synced_but (Some WAL_NAME) (vfs s)) _
            (fun _ => storage_synced) _ _ s s' tt Hs E).
  - apply takes_modify. intros s0 Hs0 m b _. by apply Hs0.
  - intros ?. eapply takes_bind; [apply takes_append_all | intros ?].
    eapply takes_bind; [apply takes_wal_sync | intros ?]. by apply takes_modify.
Qed.

Lemma takes_on_synced {A} (m : M MemVfs A) :
  takes all_synced m (fun _ => all_synced) -> takes storage_synced (on_vfs m) (fun _ => storage_synced).
Proof. apply (takes_on_vfs all_synced m (fun _ => all_synced)). Qed.

Lemma takes_remove_all names : takes storage_synced (remove_all names) (fun _ => storage_synced).
Proof.
  induction names as [ | n names IH]; [apply takes_ret | ]. intros s s' [] Hs. cbn [remove_all].
  destruct (on_vfs (vfs_remove n) s) as [s1 r] eqn:E. destruct r as [[] | e | ]; [ | done | done].
  apply IH. eapply takes_on_synced; [apply takes_remove | exact Hs | exact E].
Qed.

Lemma takes_compact : takes storage_synced compact (fun _ => storage_synced).
Proof.
  intros s s' [] Hs E. unfold compact in E. rewrite (M_bind_ret _ _ _ _ _ (m_get_ret s)) in E.
  destruct (_ <? 2); [by injection E as <- | ].
  refine (takes_bind storage_synced _ _ _ (fun _ => storage_synced)
            (takes_on_synced _ (takes_write_blob _ _)) _ s s' tt Hs E).
  intros ?. eapply takes_bind; [apply takes_on_synced, takes_write_blob | intros ?].
  eapply takes_bind; [apply takes_remove_all | intros ?].
  eapply (takes_bind _ _ (fun _ => storage_synced)); [by apply takes_modify | intros ?].
  eapply takes_bind; [apply takes_on_synced, takes_sst_open | intros ?]. by apply takes_modify.
Qed.

Lemma takes_flush : takes storage_synced flush (fun _ => storage_synced).
Proof.
  intros s s' [] Hs E. unfold flush in E. rewrite (M_bind_ret _ _ _ _ _ (m_get_ret s)) in E.
  destruct (_ =? 0)%nat; [by injection E as <- | ].
  refine (takes_bind storage_synced _ _ _ (fun _ => storage_synced)
            (takes_on_synced _ (takes_write_blob _ _)) _ s s' tt Hs E).
  intros ?. eapply takes_bind; [apply takes_on_synced, takes_write_blob | intros ?].
  eapply (takes_bind _ _ (fun _ => storage_synced)); [by apply takes_modify | intros ?].
  eapply takes_bind; [apply takes_on_synced, takes_sst_open | intros ?].
  eapply (takes_bind _ _ (fun _ => storage_synced)); [by apply takes_modify | intros ?].
  eapply takes_bind; [apply takes_on_synced, takes_remove | intros ?].
  eapply takes_bind; [apply takes_on_synced, takes_wal_open | intros ?].
  eapply (takes_bind _ _ (fun _ => storage_synced)); [by apply takes_modify | intros ?].
  eapply takes_bind; [apply takes_get | intros s1].
  destruct (_ && _); eapply takes_weaken;
    [apply takes_compact | by intros ? [? _] | done | apply takes_ret | by intros ? [? _] | done].
Qed.

(** * Refinement of an atomic, crash-safe map *)

Inductive sop :=
  | OpWrite (e : Entry)
  | OpBegin
  | OpCommitTxn
  | OpAbort
  | OpFlush
  | OpCrash.

(** A crash and the reopening of what it left. *)
Definition crash_reopen : M (Storage MemVfs) unit := fun s =>
  match storage_open (memvfs_crash (vfs s)) with
  | (_, Ret s') => (s', Ret tt)
  | (_, Err e) => (s, Err e)
  | (_, Panic) => (s, Panic)
  end.

Definition run_op (o : sop) : M (Storage MemVfs) unit :=
  match o with
  | OpWrite e => commit e
  | OpBegin => m_modify begin_txn
  | OpCommitTxn => commit_txn
  | OpAbort => m_modify abort_txn
  | OpFlush => flush
  | OpCrash => crash_reopen
  end.

(** The abstract state: what is durable, and the open transaction's writes. *)
Definition abs s : KvMap * option KvMap :=
  (durable_view s, (fun ov : Overlay => snd <$> ov) <$> txn s).

Definition abs_op (o : sop) (a : KvMap * option KvMap) : KvMap * option KvMap :=
  let '(m, ov) := a in
  match o with
  | OpWrite e =>
      match ov with
      | Some t => (m, Some (<[entry_key e := entry_value e]> t))
      | None => (<[entry_key e := entry_value e]> m, None)
      end
  | OpBegin => (m, Some ∅)
  | OpCommitTxn => (default ∅ ov ∪ m, None)
  | OpAbort => (m, None)
  | OpFlush => (m, ov)
  | OpCrash => (m, None)
  end.

(** The sizes the on-disk formats have room for. *)
Definition op_ok (o : sop) s : Prop :=
  match o with
  | OpWrite e => entry_ok e
  | OpFlush => flush_room s
  | _ => True
  end.

Definition overlay_ok (ov : option Overlay) : Prop :=
  match ov with
  | Some ov => Forall entry_ok (overlay_entries ov)
  | None => True
  end.

Record engine_ok s : Prop := {
  ek_disk : exists es ms, disk_ok s es ms;
  ek_synced : storage_synced s;
  ek_autosync : autosync s = true;
  ek_threshold : compact_threshold s = 0;
  ek_overlay : overlay_ok (txn s)
}.

Lemma overlay_ok_insert ov e :
  overlay_ok (Some ov) -> entry_ok e ->
  overlay_ok (Some (<[entry_key e := (op_number e, entry_value e)]> ov)).
Proof.
  unfold overlay_ok, overlay_entries. rewrite !Forall_map, !Forall_forall. intros Hov He [k [n v]] Hin.
  apply bt_list_elem in Hin. apply lookup_insert_Some in Hin as [[<- [= <- <-]] | [_ Hin]].
  - by destruct e.
  - apply (Hov (k, (n, v))). by apply bt_list_elem.
Qed.

Lemma durable_of_view s : txn s = None -> durable_view s = view s.
Proof. intros Htx. unfold view. rewrite Htx. simpl. by rewrite kv_empty_union. Qed.

(** A reopened state is described by the same log and tables. *)
Lemma reopen_spec s es ms :
  disk_ok s es ms -> storage_synced s ->
  exists s', crash_reopen s = (s', Ret tt) /\ disk_ok s' es ms /\ storage_synced s' /\
    txn s' = None /\ autosync s' = true /\ compact_threshold s' = 0 /\
    durable_view s' = durable_view s.
Proof.
  intros Hok Hs. unfold crash_reopen. rewrite crash_synced by done.
  destruct (open_spec (vfs s) (manifest s) ms (frames es)) as (w' & Ho & Hc).
  - by eapply disk_ok_manifest.
  - apply (dk_disk _ _ _ Hok).
  - by rewrite (dk_wal _ _ _ Hok).
  - apply frames_bytes_ok, (dk_entries _ _ _ Hok).
  - pose proof (takes_storage_open _ _ _ Hs Ho) as [Hsy _].
    pose proof (scan_all_clean es (dk_entries _ _ _ Hok)) as Hscan.
    rewrite Ho. eexists. split_and!; [done | | done | done | done | done | ].
    + eapply disk_ok_wal; [exact Hok | exact Hc | apply (dk_entries _ _ _ Hok) | ..]; simpl; try done.
      * by rewrite Hscan.
      * symmetry. apply (dk_tables _ _ _ Hok).
    + unfold durable_view. simpl. by rewrite Hscan, (dk_mem _ _ _ Hok), (dk_tables _ _ _ Hok).
Qed.

(** What an operation owes the abstract map. *)
Definition refines (o : sop) s : Prop :=
  exists s', run_op o s = (s', Ret tt) /\ engine_ok s' /\ abs s' = abs_op o (abs s).

Lemma write_refines e s : engine_ok s -> entry_ok e -> refines (OpWrite e) s.
Proof.
  intros [[es [ms Hok]] Hs Ha Ht Hov] He. unfold refines, abs. cbn [run_op abs_op].
  destruct (txn s) as [ov | ] eqn:Htx; simpl.
  - rewrite (commit_overlay_spec s ov e Htx). eexists. split_and!; [done | | ].
    + constructor; simpl; try done; [ | by apply overlay_ok_insert].
      exists es, ms. destruct Hok. by constructor.
    + simpl. by rewrite fmap_insert.
  - destruct (commit_spec s es ms e Hok Htx He) as (s' & Hc & Hd & Htx' & Ha' & Ht' & _ & _ & Hv).
    exists s'. split_and!; [done | | ].
    + constructor; [eauto | by apply (takes_commit e s s' tt) | congruence | congruence | by rewrite Htx'].
    + rewrite Htx'. simpl. by rewrite !durable_of_view, Hv.
Qed.

Lemma commit_txn_refines s : engine_ok s -> refines OpCommitTxn s.
Proof.
  intros [[es [ms Hok]] Hs Ha Ht Hov]. unfold refines, abs. cbn [run_op abs_op].
  destruct (txn s) as [ov | ] eqn:Htx; simpl.
  - destruct (commit_txn_spec s es ms ov Hok Htx Hov) as (s' & Hc & Hd & Htx' & Ha' & Ht' & _ & _ & Hv).
    exists s'. split_and!; [done | | ].
    + constructor; [eauto | by apply (takes_commit_txn s s' tt) | congruence | congruence | by rewrite Htx'].
    + rewrite Htx'. simpl. rewrite durable_of_view, Hv by done. unfold view. by rewrite Htx.
  - exists s. unfold commit_txn. mstep (m_get_ret s). rewrite Htx. split_and!; [done | | ].
    + constructor; try done; [eauto | by rewrite Htx].
    + by rewrite kv_empty_union.
Qed.

Lemma flush_refines s : engine_ok s -> flush_room s -> refines OpFlush s.
Proof.
  intros [[es [ms Hok]] Hs Ha Ht Hov] Hr. unfold refines, abs. cbn [run_op abs_op].
  destruct (decide (memtable s = ∅)) as [Hm | Hm].
  - exists s. unfold flush. mstep (m_get_ret s). rewrite Hm. split_and!; [done | by constructor; eauto | done].
  - destruct (flush_spec s es ms Hok Hr Hm) as (s' & Hf & Hd & Htx & Ha' & _ & Ht' & Hv); [by rewrite Ht | ].
    exists s'. split_and!; [done | | by rewrite Htx, Hv].
    constructor; [eauto | by apply (takes_flush s s' tt) | congruence | congruence | by rewrite Htx].
Qed.

Lemma crash_refines s : engine_ok s -> refines OpCrash s.
Proof.
  intros [[es [ms Hok]] Hs Ha Ht Hov].
  destruct (reopen_spec s es ms Hok Hs) as (s' & Hr & Hd & Hs' & Htx & Ha' & Ht' & Hv).
  exists s'. unfold abs. split_and!; [done | | by rewrite Htx, Hv].
  constructor; try done; [eauto | by rewrite Htx].
Qed.

Lemma disk_ok_set_txn s ov es ms : disk_ok s es ms -> disk_ok (set_txn ov s) es ms.
Proof. intros []. by constructor. Qed.

Lemma begin_refines s : engine_ok s -> refines OpBegin s.
Proof.
  intros [[es [ms Hok]] Hs Ha Ht Hov]. eexists. split_and!; [reflexivity | | ].
  - constructor; try done; [exists es, ms; by apply disk_ok_set_txn | constructor].
  - unfold abs. simpl. by rewrite fmap_empty.
Qed.

Lemma abort_refines s : engine_ok s -> refines OpAbort s.
Proof.
  intros [[es [ms Hok]] Hs Ha Ht Hov]. eexists. split_and!; [reflexivity | | done].
  constructor; try done. exists es, ms. by apply disk_ok_set_txn.
Qed.

#[export] Hint Resolve write_refines commit_txn_refines flush_refines crash_refines
  begin_refines abort_refines : kessel.

(** One operation: it returns, the invariant holds after it, and the abstract
    state changes as [abs_op] says. *)
Lemma run_op_refines o s : engine_ok s -> op_ok o s -> refines o s.
Proof. destruct o; simpl; auto with kessel. Qed.

(** The states reached from an empty file system. *)
Inductive reachable : Storage MemVfs -> Prop :=
  | reach_new s w : storage_open memvfs_new = (w, Ret s) -> reachable s
  | reach_op o s s' : reachable s -> op_ok o s -> run_op o s = (s', Ret tt) -> reachable s'.

Lemma new_engine_ok s w : storage_open memvfs_new = (w, Ret s) -> engine_ok s.
Proof.
  intros Ho. assert (all_synced memvfs_new) as Hs by (intros n b _; unfold memvfs_new; simpl; by rewrite lookup_empty).
  destruct (takes_storage_open _ _ _ Hs Ho) as [Hs' Hw].
  destruct (open_spec memvfs_new manifest_default [] []) as (w' & Ho' & Hc);
    [done | constructor | done | constructor | ].
  rewrite Ho in Ho'. injection Ho' as -> ->. constructor; try done. exists [], [].
  constructor; try done.
  - right. split; [ | done]. apply Hc.
  - constructor.
Qed.

Lemma reachable_ok s : reachable s -> engine_ok s.
Proof.
  induction 1 as [s w Ho | o s s' _ IH Hop Hr]; [by eapply new_engine_ok | ].
  destruct (run_op_refines o s IH Hop) as (s2 & Hr2 & Hok & _). by rewrite Hr in Hr2; injection Hr2 as <-.
Qed.

(** * Correctness of the engine *)

(** C1: From every state reached from an empty file system, each operation of
    the engine (a write, begin, commit and abort of a transaction, a flush, a
    crash followed by reopening) returns without an error and acts on the
    durable map and the open overlay exactly as the atomic map does. A crash
    drops the overlay and keeps every durable entry. *)
Theorem storage_refines_map o s :
  reachable s -> op_ok o s ->
  exists s', run_op o s = (s', Ret tt) /\ reachable s' /\ abs s' = abs_op o (abs s).
Proof.
  intros Hr Ho. destruct (run_op_refines o s (reachable_ok s Hr) Ho) as (s' & Hrun & _ & Habs).
  exists s'. split_and!; [done | by eapply reach_op | done].
Qed.

(** C12: In every reachable state the read paths agree with the map: a point
    read finds the newest slot of the key, a range scan yields the sorted live
    entries of the range, and the key-only scan (with its memtable fast path)
    yields exactly the keys of the range scan. *)
Theorem reads_refine_view s lo hi k :
  reachable s ->
  get_raw s k = mjoin (view s !! k) /\
  scan_range_versions s lo hi = bt_range lo hi (view s) /\
  scan_range_raw s lo hi = live_entries (bt_range lo hi (view s)) /\
  scan_prefix s lo hi = (scan_range_raw s lo hi).*1 /\
  scan_all s = live_entries (bt_list (durable_view s)).
Proof.
  intros Hr. destruct (ek_disk _ (reachable_ok s Hr)) as (es & ms & Hok).
  apply disk_ok_tables_wf in Hok. split_and!.
  - by apply get_raw_spec.
  - by apply scan_range_versions_spec.
  - by apply scan_range_raw_spec.
  - by apply scan_prefix_spec.
  - by apply scan_all_spec.
Qed.

Lemma empty_reachable : reachable empty_storage.
Proof. apply (reach_new _ (vfs empty_storage)). vm_compute. reflexivity. Qed.

Definition one_entry : Storage MemVfs := (run_op (OpWrite sample_a) empty_storage).1.

Lemma one_entry_reachable : reachable one_entry.
Proof.
  eapply (reach_op (OpWrite sample_a)); [apply empty_reachable | apply sample_a_ok | by vm_compute].
Qed.

Lemma storage_refines_map_witness :
  reachable empty_storage /\ op_ok (OpWrite sample_a) empty_storage /\
  exists s', run_op (OpWrite sample_a) empty_storage = (s', Ret tt) /\ reachable s' /\
    abs s' = abs_op (OpWrite sample_a) (abs empty_storage).
Proof.
  split; [apply empty_reachable | ]. split; [apply sample_a_ok | ].
  apply (storage_refines_map (OpWrite sample_a) empty_storage); [apply empty_reachable | apply sample_a_ok].
Defined.

Lemma reads_refine_view_witness :
  get_raw one_entry [7; 7; 7] = mjoin (view one_entry !! [7; 7; 7]) /\
  get_raw one_entry [7; 7; 7] = Some [1; 2].
Proof.
  split; [ | by vm_compute].
  exact (proj1 (reads_refine_view one_entry [0] [255] [7; 7; 7] one_entry_reachable)).
Defined.

(** ** The theorems of [Recovery] at reachable states *)

Lemma one_entry_room : flush_room one_entry.
Proof. constructor; [by vm_compute.. | ]. intros h [= <-]. lit. Qed.

Definition one_table : Storage MemVfs := (run_op OpFlush one_entry).1.
Definition table_and_entry : Storage MemVfs := (run_op (OpWrite sample_b) one_table).1.
Definition two_tables : Storage MemVfs := (run_op OpFlush table_and_entry).1.

Lemma two_tables_reachable : reachable two_tables.
Proof.
  eapply (reach_op OpFlush).
  - eapply (reach_op (OpWrite sample_b)).
    + eapply (reach_op OpFlush); [apply one_entry_reachable | apply one_entry_room | by vm_compute].
    + apply sample_b_ok.
    + by vm_compute.
  - constructor; [by vm_compute.. | ]. intros h [= <-]. lit.
  - by vm_compute.
Qed.

Lemma compact_preserves_reads_witness :
  exists s', compact two_tables = (s', Ret tt) /\ zlen (sstables s') = 1 /\
    forall k, get_raw s' k = get_raw two_tables k /\
      (zlen k = 28 -> view s' !! k = view two_tables !! k).
Proof.
  destruct (ek_disk _ (reachable_ok _ two_tables_reachable)) as (es & ms & Hok).
  apply (compact_preserves_reads two_tables es ms Hok); by vm_compute.
Defined.
