(* ===== verification/Interrupt.v ===== *)
(** kessel-storage: flushing and being interrupted.

    [Limited] is a file system on which the process dies after a given number
    of operations. Running [flush] on it with every limit gives every state of
    the files an interrupted flush can leave behind; power loss drops on top of
    that what was not synced.

    Source: src/crates/kessel-storage/src/lib.rs ([Storage::flush]). *)

From Stdlib Require Import ZArith Lia.
From stdpp Require Import base numbers list gmap.
From S2P Require Import Prelude BTree Proto Vfs Wal SsTable Storage View Recovery Crash.

#[local] Open Scope Z_scope.

(** * A file system with a limit *)

Record Limited (W : Type) := mkLimited { steps_left : nat; world : W }.
Arguments mkLimited {W}. Arguments steps_left {W}. Arguments world {W}.

(** The process is gone when an operation finds no step left. *)
Definition limit {W A} (m : M W A) : M (Limited W) A := fun v =>
  match steps_left v with
  | O => (v, Panic)
  | S n => let '(w', r) := m (world v) in (mkLimited n w', r)
  end.

#[global] Instance Limited_Vfs {W} `{Vfs W} : Vfs (Limited W) := {|
  vfs_open := fun name => limit (vfs_open name);
  vfs_exists := fun v => vfs_exists (world v);
  vfs_remove := fun name => limit (vfs_remove name);
  vfs_list := fun v => vfs_list (world v);
  disk_len := fun v => disk_len (world v);
  disk_read_at := fun v => disk_read_at (world v);
  disk_write_at := fun name off buf => limit (disk_write_at name off buf);
  disk_sync := fun name => limit (disk_sync name)
|}.

(** The engine [s] with [k] file operations left to it. *)
Definition limited {W} (k : nat) (s : Storage W) : Storage (Limited W) :=
  mkStorage (mkLimited k (vfs s)) (memtable s) (sstables s) (manifest s) (wal_end s) (autosync s)
    (txn s) (compact_threshold s) (high_op s) (low_water_mark s).

(** * Rules for interrupted programs *)

Section Survives.
Context {W T : Type} (files : T -> Limited W) (P : W -> Prop).

(** [m] returns with [Q], or runs out of steps and leaves files with [P]. *)
Definition survives {A} (m : M T A) (t : T) (Q : A -> T -> Prop) : Prop :=
  match m t with
  | (t', Ret a) => Q a t'
  | (t', Panic) => steps_left (files t') = 0%nat /\ P (world (files t'))
  | (_, Err _) => False
  end.

Lemma survives_bind {A B} (m : M T A) (k : A -> M T B) t Q :
  survives m t (fun a t' => survives (k a) t' Q) -> survives (m ≫= k) t Q.
Proof. unfold survives, mbind, M_bind. by destruct (m t) as [t' [a | e | ]]. Qed.

Lemma survives_weaken {A} (m : M T A) t (Q Q' : A -> T -> Prop) :
  survives m t Q -> (forall a t', Q a t' -> Q' a t') -> survives m t Q'.
Proof. unfold survives. intros Hm HQ. destruct (m t) as [t' [a | e | ]]; [by apply HQ | done | done]. Qed.

Lemma survives_ret {A} (m : M T A) t t' a (Q : A -> T -> Prop) : m t = (t', Ret a) -> Q a t' -> survives m t Q.
Proof. unfold survives. by intros ->. Qed.
End Survives.

(** One file operation: the files as they are now are what is left if it finds
    no step. *)
Lemma survives_op {W A} (P : W -> Prop) (m : M W A) n w w' a (Q : A -> Limited W -> Prop) :
  m w = (w', Ret a) -> (n = 0%nat -> P w) -> (forall n', n = S n' -> Q a (mkLimited n' w')) ->
  survives id P (limit m) (mkLimited n w) Q.
Proof.
  intros Hm HP HQ. unfold survives, limit. cbn. destruct n as [ | n]; [split; [done | by apply HP] | ].
  rewrite Hm. by apply HQ.
Qed.

Lemma survives_on_vfs {W A} (P : W -> Prop) (m : M (Limited W) A) s (Q : A -> Storage (Limited W) -> Prop) :
  survives id P m (vfs s) (fun a v => Q a (set_vfs v s)) -> survives vfs P (on_vfs m) s Q.
Proof. unfold survives, on_vfs. by destruct (m (vfs s)) as [v [a | e | ]]. Qed.

(** * The files of the simulator *)

Lemma content_open n w m : content (memvfs_open n w) m = upd (content w) n (Some (default [] (content w n))) m.
Proof. destruct (law_open w n) as (w' & [= <-] & Hc). apply Hc. Qed.

Lemma content_write n off buf w d m : content w n = Some d ->
  content (memvfs_write_at n off buf w) m = upd (content w) n (Some (splice d off buf)) m.
Proof. intros Hd. destruct (law_write w n off buf d Hd) as (w' & [= <-] & Hc). apply Hc. Qed.

Lemma content_sync n w m : content (memvfs_sync n w) m = content w m.
Proof. destruct (law_sync w n) as (w' & [= <-] & Hc). apply Hc. Qed.

Lemma content_remove n w m : content (memvfs_remove n w) m = upd (content w) n None m.
Proof. destruct (law_remove w n) as (w' & [= <-] & Hc). apply Hc. Qed.

(** Power loss between the write and the sync of one blob touches only it. *)
Lemma content_crash n w m : synced_but (Some n) w -> n <> m -> content (memvfs_crash w) m = content w m.
Proof.
  intros Hs Hne. change (memvfs_content (memvfs_crash w) m = memvfs_content w m). unfold memvfs_content, memvfs_crash. cbn.
  rewrite lookup_fmap. destruct (blobs w !! m) as [b | ] eqn:E; [ | done]. cbn. f_equal.
  rewrite (Hs m b) by (done || congruence). apply take_ge. unfold zlen. lia.
Qed.

(** * The states of the files during a flush *)

Section Flush.
Context (s : Storage MemVfs) (es : list Entry) (ms : list KvMap).
Hypothesis Hok : disk_ok s es ms.
Hypothesis Hroom : flush_room s.

Definition new_name : bytes := sst_name (next_sst (manifest s)).
Definition new_manifest : Manifest := successor_manifest s (man_sstables (manifest s) ++ [new_name]).

(** Before the manifest is written: it may have been created empty. *)
Record before (w : MemVfs) : Prop := {
  bf_man : content w MANIFEST_NAME = content (vfs s) MANIFEST_NAME \/
           (content (vfs s) MANIFEST_NAME = None /\ content w MANIFEST_NAME = Some []);
  bf_other n : n <> MANIFEST_NAME -> n <> new_name -> content w n = content (vfs s) n
}.

(** From then on: the log is there, gone or empty. *)
Record after (w : MemVfs) : Prop := {
  af_man : content w MANIFEST_NAME = Some (encode_manifest new_manifest);
  af_name : content w new_name = Some (encode_sstable (memtable s));
  af_wal : content w WAL_NAME = Some (frames es) \/ default [] (content w WAL_NAME) = [];
  af_other n : n <> MANIFEST_NAME -> n <> new_name -> n <> WAL_NAME -> content w n = content (vfs s) n
}.

Lemma name_manifest : new_name <> MANIFEST_NAME.
Proof. apply not_eq_sym, sst_name_not_manifest. Qed.

Lemma name_wal : new_name <> WAL_NAME.
Proof. apply not_eq_sym, sst_name_not_wal. Qed.

Lemma before_recovers w : before w -> recovers w (durable_view s).
Proof.
  intros [Hm Ho]. apply (recovers_before s es ms); [done | | | ].
  - pose proof (disk_ok_manifest _ _ _ Hok) as Hman. unfold manifest_read in *.
    destruct Hm as [-> | [Hn ->]]; [done | ]. rewrite Hn in Hman. by rewrite Hman.
  - rewrite Ho; [apply (dk_wal _ _ _ Hok) | done | apply not_eq_sym, name_wal].
  - intros n _ Hn1 Hn2. by apply Ho.
Qed.

Lemma after_recovers w : after w -> recovers w (durable_view s).
Proof.
  intros [Hm Hn Hw Ho]. apply (recovers_after s es ms); [done | | | done].
  - unfold manifest_read. rewrite Hm. by eapply parse_encode_manifest, successor_ok.
  - apply tables_on_disk_snoc; [ | done | by eapply memtable_kv_ok].
    eapply old_tables_kept; [exact Hok | ]. intros n ? ? ?. by apply Ho.
Qed.

(** ** Step by step *)

Lemma new_name_free : content (vfs s) new_name = None.
Proof. destruct (dk_names _ _ _ Hok) as [_ Hnew]. apply Hnew; [lia | apply (mo_next _ (dk_man_ok _ _ _ Hok))]. Qed.

Lemma before_start : before (vfs s).
Proof. constructor; [by left | done]. Qed.

Lemma before_ext w w' : before w -> (forall n, n <> new_name -> content w' n = content w n) -> before w'.
Proof.
  intros [Hm Ho] Hc. constructor; [rewrite Hc by apply not_eq_sym, name_manifest; done | ].
  intros n H1 H2. rewrite Hc by done. by apply Ho.
Qed.

Lemma before_open_manifest w : before w -> before (memvfs_open MANIFEST_NAME w).
Proof.
  intros [Hm Ho]. constructor.
  - rewrite content_open, upd_eq. destruct Hm as [-> | [Hn ->]]; [ | by right].
    destruct (content (vfs s) MANIFEST_NAME) as [d | ]; [by left | by right].
  - intros n H1 H2. rewrite content_open, upd_ne by (by apply not_eq_sym). by apply Ho.
Qed.

(** The manifest written over the old one, which is no longer. *)
Lemma manifest_written w : before w -> content w new_name = Some (encode_sstable (memtable s)) ->
  is_Some (content w MANIFEST_NAME) -> after (memvfs_write_at MANIFEST_NAME 0 (encode_manifest new_manifest) w).
Proof.
  intros [Hm Ho] Hn [d Hd].
  assert (forall n, content (memvfs_write_at MANIFEST_NAME 0 (encode_manifest new_manifest) w) n =
            upd (content w) MANIFEST_NAME (Some (encode_manifest new_manifest)) n) as Hc.
  { intros n. rewrite (content_write _ _ _ _ d) by done. f_equal. f_equal.
    replace d with (default [] (content (vfs s) MANIFEST_NAME)); [by eapply successor_overwrites | ].
    destruct Hm as [Hm | [Hm0 Hm]]; [by rewrite <- Hm, Hd | rewrite Hm0; rewrite Hd in Hm; by injection Hm as ->]. }
  constructor.
  - by rewrite Hc, upd_eq.
  - by rewrite Hc, upd_ne by apply not_eq_sym, name_manifest.
  - left. rewrite Hc, upd_ne by done. rewrite Ho; [apply (dk_wal _ _ _ Hok) | done | apply not_eq_sym, name_wal].
  - intros n H1 H2 _. rewrite Hc, upd_ne by (by apply not_eq_sym). by apply Ho.
Qed.

Lemma after_ext w w' : after w -> (forall n, content w' n = content w n) -> after w'.
Proof.
  intros [Hm Hn Hw Ho] Hc. constructor; [by rewrite Hc | by rewrite Hc | by rewrite Hc | ].
  intros n H1 H2 H3. rewrite Hc. by apply Ho.
Qed.

Lemma after_log w w' : after w -> (forall n, n <> WAL_NAME -> content w' n = content w n) ->
  default [] (content w' WAL_NAME) = [] -> after w'.
Proof.
  intros [Hm Hn Hw Ho] Hc Hl. constructor; [by rewrite Hc | rewrite Hc by apply name_wal; done | by right | ].
  intros n H1 H2 H3. rewrite Hc by done. by apply Ho.
Qed.

(** ** The program *)

Hypothesis Hsync : all_synced (vfs s).
Context (k : nat).

(** The files a flush of [k] operations may leave. *)
Definition kept (w : MemVfs) : Prop :=
  recovers w (durable_view s) /\ (k <> 5%nat -> recovers (memvfs_crash w) (durable_view s)).

Lemma kept_synced w : recovers w (durable_view s) -> all_synced w -> kept w.
Proof. intros Hr Hs. split; [done | ]. intros _. by rewrite crash_synced. Qed.

(** What it leaves when it is interrupted. *)
Definition left_over (w : MemVfs) : Prop := kept w /\ (k < 9)%nat.

Lemma left_synced w : recovers w (durable_view s) -> all_synced w -> (k < 9)%nat -> left_over w.
Proof. intros Hr Hs Hk. split; [by apply kept_synced | done]. Qed.

Lemma write_sstable_survives :
  survives id left_over (write_sstable new_name (memtable s)) (mkLimited k (vfs s)) (fun _ v =>
    k = (3 + steps_left v)%nat /\ before (world v) /\ all_synced (world v) /\
    content (world v) new_name = Some (encode_sstable (memtable s))).
Proof.
  set (w1 := memvfs_open new_name (vfs s)). set (w2 := memvfs_write_at new_name 0 (encode_sstable (memtable s)) w1).
  assert (content w1 new_name = Some []) as H1 by (unfold w1; by rewrite content_open, upd_eq, new_name_free).
  assert (before w1) as Hb1.
  { eapply before_ext; [apply before_start | ]. intros n Hn. unfold w1. by rewrite content_open, upd_ne by (by apply not_eq_sym). }
  assert (all_synced w1) as Hs1 by (by eapply (takes_open new_name None (vfs s) w1 tt)).
  assert (synced_but (Some new_name) w2) as Hs2 by (by eapply (takes_write new_name 0 _ w1 w2 tt)).
  assert (content w2 new_name = Some (encode_sstable (memtable s))) as H2.
  { unfold w2. rewrite (content_write _ _ _ _ []), upd_eq by done. by rewrite splice_overwrite by apply zlen_nonneg. }
  assert (before w2) as Hb2.
  { eapply before_ext; [exact Hb1 | ]. intros n Hn. unfold w2. by rewrite (content_write _ _ _ _ []), upd_ne by (done || by apply not_eq_sym). }
  unfold write_sstable. apply survives_bind.
  eapply survives_op; [reflexivity | intros ?; apply left_synced; [apply before_recovers, before_start | done | lia] | intros n1 ->].
  apply survives_bind. eapply survives_op; [reflexivity | intros ?; apply left_synced; [by apply before_recovers | done | lia] | intros n2 ->].
  eapply survives_op; [reflexivity | | intros n3 ->].
  - intros ->. split; [ | lia]. split; [by apply before_recovers | ]. intros _. apply before_recovers. eapply before_ext; [exact Hb2 | ].
    intros n Hn. apply (content_crash new_name); [done | by apply not_eq_sym].
  - cbn [steps_left world]. split_and!; [done | | | by rewrite content_sync].
    + eapply before_ext; [exact Hb2 | ]. intros n _. apply content_sync.
    + by eapply (takes_sync new_name w2).
Qed.

Lemma write_manifest_survives n w : k = (3 + n)%nat -> before w -> all_synced w ->
  content w new_name = Some (encode_sstable (memtable s)) ->
  survives id left_over (write_manifest new_manifest) (mkLimited n w) (fun _ v =>
    k = (6 + steps_left v)%nat /\ after (world v) /\ all_synced (world v)).
Proof.
  intros Hk Hb Hs Hn. set (w1 := memvfs_open MANIFEST_NAME w). set (w2 := memvfs_write_at MANIFEST_NAME 0 (encode_manifest new_manifest) w1).
  assert (before w1) as Hb1 by (by apply before_open_manifest).
  assert (all_synced w1) as Hs1 by (by eapply (takes_open MANIFEST_NAME None w w1 tt)).
  assert (after w2) as Ha2.
  { apply manifest_written; [done | | by unfold w1; rewrite content_open, upd_eq; eexists].
    unfold w1. by rewrite content_open, upd_ne by apply not_eq_sym, name_manifest. }
  assert (synced_but (Some MANIFEST_NAME) w2) as Hs2 by (by eapply (takes_write MANIFEST_NAME 0 _ w1 w2 tt)).
  unfold write_manifest. apply survives_bind.
  eapply survives_op; [reflexivity | intros ?; apply left_synced; [by apply before_recovers | done | lia] | intros n1 ->].
  apply survives_bind. eapply survives_op; [reflexivity | intros ?; apply left_synced; [by apply before_recovers | done | lia] | intros n2 ->].
  eapply survives_op; [reflexivity | | intros n3 ->].
  - intros ->. split; [ | lia]. split; [by apply after_recovers | ]. intros Hne. by destruct Hne.
  - cbn [steps_left world]. split_and!; [lia | | by eapply (takes_sync MANIFEST_NAME w2)].
    eapply after_ext; [exact Ha2 | ]. intros m. apply content_sync.
Qed.

Lemma sst_open_survives n w : k = (6 + n)%nat -> after w -> all_synced w ->
  survives id left_over (sst_open new_name) (mkLimited n w) (fun t v =>
    k = (7 + steps_left v)%nat /\ after (world v) /\ all_synced (world v)).
Proof.
  intros Hk Ha Hs. set (w1 := memvfs_open new_name w).
  assert (forall m, content w1 m = content w m) as Hc.
  { intros m. unfold w1. rewrite content_open, (af_name _ Ha). unfold upd. case_decide; [subst; by rewrite (af_name _ Ha) | done]. }
  assert (content w1 new_name = Some (encode_sstable (memtable s))) as Hd by (rewrite Hc; apply Ha).
  unfold sst_open. apply survives_bind.
  eapply survives_op; [reflexivity | intros ?; apply left_synced; [by apply after_recovers | done | lia] | intros n1 ->].
  eapply (survives_ret _ _ _ _ (mkLimited n1 w1) (table_of (memtable s))).
  - rewrite (M_bind_ret _ _ _ _ _ (m_get_ret _)).
    assert (disk_len (mkLimited n1 w1) new_name = zlen (encode_sstable (memtable s))) as Hlen
      by (change (disk_len w1 new_name = zlen (encode_sstable (memtable s))); by rewrite law_len, Hd).
    assert (read_buf (mkLimited n1 w1) new_name 0 (zlen (encode_sstable (memtable s))) = Ret (encode_sstable (memtable s))) as Hread
      by (change (read_buf w1 new_name 0 (zlen (encode_sstable (memtable s))) = Ret (encode_sstable (memtable s))); by apply read_buf_whole).
    fold w1. rewrite Hlen, Hread, (M_bind_ret _ _ (mkLimited n1 w1) (mkLimited n1 w1) (encode_sstable (memtable s))) by reflexivity.
    by rewrite parse_encode_sstable by (by eapply memtable_kv_ok).
  - cbn [steps_left world]. split_and!; [lia | by eapply after_ext | by eapply (takes_open new_name None w w1 tt)].
Qed.

Lemma remove_log_survives n w : k = (7 + n)%nat -> after w -> all_synced w ->
  survives id left_over (vfs_remove WAL_NAME) (mkLimited n w) (fun _ v =>
    k = (8 + steps_left v)%nat /\ after (world v) /\ all_synced (world v) /\ content (world v) WAL_NAME = None).
Proof.
  intros Hk Ha Hs. eapply survives_op; [reflexivity | intros ?; apply left_synced; [by apply after_recovers | done | lia] | intros n1 ->].
  cbn [steps_left world]. assert (content (memvfs_remove WAL_NAME w) WAL_NAME = None) as H1 by (by rewrite content_remove, upd_eq).
  split_and!; [lia | | by eapply (takes_remove WAL_NAME w _ tt) | done].
  eapply after_log; [exact Ha | | by rewrite H1]. intros m Hm. by rewrite content_remove, upd_ne by (by apply not_eq_sym).
Qed.

Lemma wal_open_survives n w : k = (8 + n)%nat -> after w -> all_synced w -> content w WAL_NAME = None ->
  survives id left_over wal_open (mkLimited n w) (fun _ v => k = (9 + steps_left v)%nat /\ kept (world v)).
Proof.
  intros Hk Ha Hs Hn. unfold wal_open. apply survives_bind.
  eapply survives_op; [reflexivity | intros ?; apply left_synced; [by apply after_recovers | done | lia] | intros n1 ->].
  eapply survives_ret; [reflexivity | ]. cbn [steps_left world]. split; [lia | ].
  apply kept_synced; [ | by eapply (takes_open WAL_NAME None w _ tt)]. apply after_recovers.
  eapply after_log; [exact Ha | | by rewrite content_open, upd_eq, Hn].
  intros m Hm. by rewrite content_open, upd_ne by (by apply not_eq_sym).
Qed.

Lemma flush_survives : compact_threshold s = 0 ->
  survives vfs left_over flush (limited k s) (fun _ s' => kept (world (vfs s')) /\
    (memtable s <> ∅ -> k = (9 + steps_left (vfs s'))%nat)).
Proof.
  intros Hthr. unfold flush. apply survives_bind. eapply survives_ret; [apply m_get_ret | ]. cbn [limited memtable].
  destruct (size (memtable s) =? 0)%nat eqn:E.
  { eapply survives_ret; [reflexivity | ]. apply Nat.eqb_eq, map_size_empty_iff in E. split; [ | done].
    apply kept_synced; [apply before_recovers, before_start | done]. }
  apply survives_bind, survives_on_vfs. eapply survives_weaken; [exact write_sstable_survives | ].
  intros [] [n1 w1] (Hk1 & Hb1 & Hs1 & Hn1). apply survives_bind, survives_on_vfs.
  eapply survives_weaken; [exact (write_manifest_survives n1 w1 Hk1 Hb1 Hs1 Hn1) | ].
  intros [] [n2 w2] (Hk2 & Ha2 & Hs2). apply survives_bind. eapply survives_ret; [reflexivity | ].
  apply survives_bind, survives_on_vfs. eapply survives_weaken; [exact (sst_open_survives n2 w2 Hk2 Ha2 Hs2) | ].
  intros t [n3 w3] (Hk3 & Ha3 & Hs3). apply survives_bind. eapply survives_ret; [reflexivity | ].
  apply survives_bind, survives_on_vfs. eapply survives_weaken; [exact (remove_log_survives n3 w3 Hk3 Ha3 Hs3) | ].
  intros [] [n4 w4] (Hk4 & Ha4 & Hs4 & Hw4). apply survives_bind, survives_on_vfs.
  eapply survives_weaken; [exact (wal_open_survives n4 w4 Hk4 Ha4 Hs4 Hw4) | ].
  intros end_ v (Hk5 & Hkept). apply survives_bind. eapply survives_ret; [reflexivity | ].
  apply survives_bind. eapply survives_ret; [apply m_get_ret | ].
  cbn [compact_threshold set_memtable set_wal_end set_vfs set_sstables set_manifest limited].
  rewrite Hthr. cbn [Z.ltb Z.compare andb]. eapply survives_ret; [reflexivity | ]. done.
Qed.
End Flush.

(** C13: A flush may be interrupted anywhere. Take an engine that any sequence of
    writes, transactions, flushes and crashes has led to on the simulator's
    file system, with room for one more table, and compaction off. If the
    process dies after any number of the file operations of [flush],
    [Storage::open] recovers exactly the contents the engine had before. The
    same holds if the power fails there and every blob loses what was not
    synced, but for one moment, after the manifest is written and before it is
    synced. Nine operations are enough for the flush to return. *)
Theorem flush_crash_safe s k : reachable s -> flush_room s ->
  let '(s', r) := flush (limited k s) in
  let w := world (vfs s') in
  recovers w (durable_view s) /\ (k <> 5%nat -> recovers (memvfs_crash w) (durable_view s)) /\
  (r = Ret tt \/ r = Panic /\ (k < 9)%nat).
Proof.
  intros Hr Hroom. destruct (reachable_ok s Hr) as [(es & ms & Hok) Hsync _ Hthr _].
  pose proof (flush_survives s es ms Hok Hroom Hsync k Hthr) as Hf. unfold survives in Hf.
  destruct (flush (limited k s)) as [s' [[] | e | ]]; [ | done | ].
  - destruct Hf as [[? ?] _]. auto.
  - destruct Hf as [_ [[? ?] ?]]. auto.
Qed.

(** ** Applied to a sample *)

(** The process dies once the manifest is synced and the log is still there. *)
Lemma flush_crash_safe_witness :
  (flush (limited 6 one_entry)).2 = Panic /\
  recovers (memvfs_crash (world (vfs (flush (limited 6 one_entry)).1))) (durable_view one_entry).
Proof.
  split; [by vm_compute | ].
  pose proof (flush_crash_safe one_entry 6 one_entry_reachable one_entry_room) as Hf.
  destruct (flush (limited 6 one_entry)) as [s' r]. apply Hf. discriminate.
Defined.
