(* ===== verification/Anomalies.v ===== *)
(** Executions of the LSM engine that lose acknowledged data.

    Each theorem runs the engine's definitions on a concrete history and
    states what is read back. They delimit the durability theorems of
    [Recovery] and [Crash]: compaction, a torn write of the log, of the
    manifest or of an orphaned table are outside of what those show, and the
    histories here are why.

    Source: src/crates/kessel-storage/src/lib.rs. *)

From Stdlib Require Import ZArith Lia.
From stdpp Require Import base numbers list sorting gmap fin_maps.
From S2P Require Import Prelude BTree Proto Vfs Wal SsTable Storage View Recovery Crash.

#[local] Open Scope Z_scope.

(** Running a history; it stops at the first error. *)
Fixpoint run_all {S} (l : list (M S unit)) : M S unit :=
  match l with
  | [] => mret tt
  | m :: l' => _ ← m; run_all l'
  end.

Definition after {S} (l : list (M S unit)) (s : S) : S := (run_all l s).1.

Definition wr {W} `{Vfs W} (op : Z) (k : Z) (v : bytes) : M (Storage W) unit :=
  commit {| op_number := op; entry_key := [9; 9; k]; entry_value := Some v |}.

Definition faulty_storage : Storage (FaultVfs MemVfs) :=
  mkStorage (faultvfs_new (vfs empty_storage)) ∅ [] manifest_default 0 true None 0 None 0.

(** Arming the next write to the log. *)
Definition arm_wal (n : Z) (s : Storage (FaultVfs MemVfs)) : Storage (FaultVfs MemVfs) :=
  set_vfs (arm WAL_NAME n Torn (vfs s)) s.

(** The process dies; what is on the disk is opened again, with no fault armed. *)
Definition restart : M (Storage (FaultVfs MemVfs)) unit := fun s =>
  match storage_open (faultvfs_new (memvfs_crash (inner (vfs s)))) with
  | (_, Ret s') => (s', Ret tt)
  | (_, Err e) => (s, Err e)
  | (_, Panic) => (s, Panic)
  end.

(** ** A compacted manifest is shorter than the one it overwrites *)

Definition compacted : Storage MemVfs :=
  after [wr 1 1 [5]; flush; wr 2 2 [6]; flush; compact] empty_storage.

(** C38: After two flushes and a compaction both rows are readable, and after a
    restart neither is: [write_manifest] writes the shorter manifest over the
    longer one without truncating it, the checksum at the end of the file does
    not match, and [read_manifest] falls back to the empty manifest while the
    log was reset by the flushes. *)
Theorem compaction_loses_tables_on_reopen :
  get_raw compacted [9; 9; 1] = Some [5] /\ get_raw compacted [9; 9; 2] = Some [6] /\
  (run_all [crash_reopen] compacted).2 = Ret tt /\
  get_raw (after [crash_reopen] compacted) [9; 9; 1] = None /\
  get_raw (after [crash_reopen] compacted) [9; 9; 2] = None.
Proof. vm_compute. auto. Qed.

(** ** The log is appended to behind a torn frame *)

Definition torn_then_written : Storage (FaultVfs MemVfs) :=
  after [m_modify (arm_wal 1); wr 1 1 [5]; restart; wr 2 2 [6]] faulty_storage.

(** A write whose log frame is torn is lost at the restart, as documented.
    But [Wal::open] then appends behind the torn bytes, so a later write that
    was appended whole and synced is readable until the next restart and gone
    after it: replay stops at the torn frame. *)
Theorem write_behind_torn_tail_is_lost :
  get_raw torn_then_written [9; 9; 1] = None /\ get_raw torn_then_written [9; 9; 2] = Some [6] /\
  (run_all [restart] torn_then_written).2 = Ret tt /\
  get_raw (after [restart] torn_then_written) [9; 9; 2] = None.
Proof. vm_compute. auto. Qed.

(** ** A transaction is one log frame per entry *)

Definition torn_txn : Storage (FaultVfs MemVfs) :=
  after [m_modify begin_txn; wr 1 1 [5]; wr 1 2 [6]; m_modify (arm_wal 2); commit_txn; restart]
    faulty_storage.

(** When the second frame of a two-entry transaction is torn, recovery
    keeps the first entry and loses the second, although [commit_txn] is
    documented to lose the whole batch. *)
Theorem torn_transaction_is_not_atomic :
  get_raw torn_txn [9; 9; 1] = Some [5] /\ get_raw torn_txn [9; 9; 2] = None.
Proof. vm_compute. auto. Qed.

(** ** The apply cursor of a committed transaction *)

Definition txn_committed : Storage MemVfs :=
  after [wr 3 1 [5]; m_modify begin_txn; wr 7 2 [6]; commit_txn] empty_storage.

(** [commit_txn] makes entries durable without raising [high_op], which is
    documented as the highest operation number ever logged; a restart of the
    same state reports the larger cursor. *)
Lemma commit_txn_leaves_high_op :
  high_op txn_committed = Some 3 /\ high_op (after [crash_reopen] txn_committed) = Some 7.
Proof. vm_compute. auto. Qed.

(** ** The manifest is replaced in place *)

(** The second flush up to the write of the manifest, which is not synced. *)
Definition flush_until_manifest_write : M (Storage MemVfs) unit :=
  s ← m_get;
  let name := sst_name (next_sst (manifest s)) in
  _ ← on_vfs (write_sstable name (memtable s));
  on_vfs (disk_write_at MANIFEST_NAME 0
    (encode_manifest (successor_manifest s (man_sstables (manifest s) ++ [name])))).

Definition flushing_again : Storage MemVfs :=
  after [wr 1 1 [5]; flush; wr 2 2 [6]; flush_until_manifest_write] empty_storage.

(** When the process dies between the write and the sync of the manifest in
    a second flush, the row of the first flush is gone after the restart: the
    old manifest is overwritten in place, what is left fails its checksum, and
    the log holds only the rows since the last flush. *)
Theorem torn_manifest_loses_flushed_rows :
  get_raw flushing_again [9; 9; 1] = Some [5] /\
  (run_all [crash_reopen] flushing_again).2 = Ret tt /\
  get_raw (after [crash_reopen] flushing_again) [9; 9; 1] = None /\
  get_raw (after [crash_reopen] flushing_again) [9; 9; 2] = Some [6].
Proof. vm_compute. auto. Qed.

(** ** An orphaned table is overwritten in place *)

Definition flush_until_table : M (Storage MemVfs) unit :=
  s ← m_get; on_vfs (write_sstable (sst_name (next_sst (manifest s))) (memtable s)).

Definition orphaned : Storage MemVfs :=
  after [wr 1 1 [5; 5; 5; 5]; flush_until_table; crash_reopen; wr 2 1 []] empty_storage.

(** When the process dies between the table and the manifest of a flush, the
    table is orphaned and its name is used again. A shorter table written over
    it keeps the old tail, so the next flush fails, and so does every later
    attempt to open the store. *)
Lemma shorter_table_over_orphan_fails :
  (run_all [flush] orphaned).2 = Err InvalidData /\
  (run_all [crash_reopen] (after [flush] orphaned)).2 = Err InvalidData.
Proof. vm_compute. auto. Qed.
