(* ===== verification/Mvcc.v ===== *)
(** kessel-storage, module mvcc: versioned rows over the LSM engine.

    A version of a row is stored under a 28-byte key: type id, object id and
    the inverted commit number in big endian, so that the key order lists the
    newest version first. [newest] is the reference meaning of a snapshot read
    on the engine's view; the operations are proved to compute it.

    [put] and [delete] of src/crates/kessel-storage/src/lib.rs are here too:
    they dispatch data-row keys to [put_versioned].

    Source: src/crates/kessel-storage/src/mvcc.rs,
    src/crates/kessel-storage/src/lib.rs. *)

From Stdlib Require Import ZArith Lia.
From stdpp Require Import base numbers list sorting gmap fin_maps.
From S2P Require Import Prelude BTree Proto Vfs Wal SsTable Storage View.

#[local] Open Scope Z_scope.

Definition VERSIONED_KEY_LEN : Z := 28.
Definition PREFIX_LEN : Z := 20.

Inductive SnapshotRead :=
  | Found (v : bytes)
  | Tombstoned
  | NotYetWritten.

Inductive MvccKeyError :=
  | Length (n : Z).

#[global] Instance SnapshotRead_eq_dec : EqDecision SnapshotRead.
Proof. solve_decision. Defined.

(** Object ids are arrays of 16 bytes. *)
Definition oid_ok (o : bytes) : Prop := length o = 16%nat /\ bytes_ok o.

(** ** Keys *)

Definition make_key (type_id : Z) (object_id : bytes) : Key := le_bytes 4 type_id ++ object_id.

Definition make_versioned_key (type_id : Z) (object_id : bytes) (commit_opnum : Z) : Key :=
  le_bytes 4 type_id ++ object_id ++ be_bytes 8 (u64_max - commit_opnum).

Definition decode_commit_opnum (key : bytes) : Z + MvccKeyError :=
  if negb (zlen key =? VERSIONED_KEY_LEN) then inr (Length (zlen key))
  else inl (u64_max - be_value (drop 20 key)).

Definition MAX_USER_TYPE_ID : Z := 0xFEFFFFFF.
Definition CATALOG_TYPE_ID : Z := 0.

Definition data_row_dispatch (key : bytes) : option Z :=
  if zlen key =? PREFIX_LEN then
    let type_id := le_value (take 4 key) in
    if negb (type_id =? CATALOG_TYPE_ID) && (type_id <=? MAX_USER_TYPE_ID)
    then Some type_id else None
  else None.

(** The bounds of all versions of a row, and of all rows of a type. *)
Definition versions_lo (type_id : Z) (object_id : bytes) : Key :=
  le_bytes 4 type_id ++ object_id ++ replicate 8 0.
Definition versions_hi (type_id : Z) (object_id : bytes) : Key :=
  le_bytes 4 type_id ++ object_id ++ replicate 8 255.
Definition rows_lo (type_id : Z) : Key := le_bytes 4 type_id ++ replicate 16 0 ++ replicate 8 0.
Definition rows_hi (type_id : Z) : Key := le_bytes 4 type_id ++ replicate 16 255 ++ replicate 8 255.

Section Mvcc.
Context {W : Type} `{Vfs W}.
Implicit Types store : Storage W.

(** ** Writing *)

Definition put_versioned (type_id : Z) (object_id : bytes) (commit_opnum : Z) (value : Slot) :
    M (Storage W) unit :=
  put_entry_versioned commit_opnum (make_versioned_key type_id object_id commit_opnum) value.

(** [Storage::put] and [Storage::delete]. *)
Definition put (op_number : Z) (key : Key) (value : bytes) : M (Storage W) unit :=
  match data_row_dispatch key with
  | Some type_id => put_versioned type_id (drop 4 key) op_number (Some value)
  | None => commit {| op_number := op_number; entry_key := key; entry_value := Some value |}
  end.

Definition delete_key (op_number : Z) (key : Key) : M (Storage W) unit :=
  match data_row_dispatch key with
  | Some type_id => put_versioned type_id (drop 4 key) op_number None
  | None => commit {| op_number := op_number; entry_key := key; entry_value := None |}
  end.

(** ** Reading *)

Fixpoint first_visible (l : list (Key * Slot)) (snapshot_opnum : Z) : option Slot :=
  match l with
  | [] => None
  | (k, v) :: l' =>
      match decode_commit_opnum k with
      | inl c => if c <=? snapshot_opnum then Some v else first_visible l' snapshot_opnum
      | inr _ => first_visible l' snapshot_opnum
      end
  end.

Definition get_at_snapshot store (type_id : Z) (object_id : bytes) (snapshot_opnum : Z) : SnapshotRead :=
  match first_visible (scan_range_versions store (versions_lo type_id object_id)
                         (versions_hi type_id object_id)) snapshot_opnum with
  | Some (Some bytes) => Found bytes
  | Some None => Tombstoned
  | None => NotYetWritten
  end.

Definition get_at_snapshot_arc store (type_id : Z) (object_id : bytes) (snapshot_opnum : Z) : Slot :=
  match first_visible (scan_range_versions store (versions_lo type_id object_id)
                         (versions_hi type_id object_id)) snapshot_opnum with
  | Some v => v
  | None => None
  end.

Fixpoint in_range_loop (l : list (Key * Slot)) (lo hi : Z) : bool :=
  match l with
  | [] => false
  | (k, _) :: l' =>
      match decode_commit_opnum k with
      | inl c =>
          if c <=? lo then false
          else if c <=? hi then true
          else in_range_loop l' lo hi
      | inr _ => in_range_loop l' lo hi
      end
  end.

Definition has_version_in_range store (type_id : Z) (object_id : bytes)
    (lo_opnum_exclusive hi_opnum_inclusive : Z) : bool :=
  in_range_loop (scan_range_versions store (versions_lo type_id object_id)
                   (versions_hi type_id object_id)) lo_opnum_exclusive hi_opnum_inclusive.

Fixpoint scan_loop (l : list (Key * Slot)) (snapshot_opnum : Z)
    (current_oid : option bytes) (current_taken : bool) : list (bytes * bytes) :=
  match l with
  | [] => []
  | (k, v) :: l' =>
      if negb (zlen k =? VERSIONED_KEY_LEN)
      then scan_loop l' snapshot_opnum current_oid current_taken else
      let oid := take 16 (drop 4 k) in
      match decode_commit_opnum k with
      | inr _ => scan_loop l' snapshot_opnum current_oid current_taken
      | inl c =>
          let '(current_oid, current_taken) :=
            if decide (Some oid <> current_oid) then (Some oid, false)
            else (current_oid, current_taken) in
          if current_taken : bool then scan_loop l' snapshot_opnum current_oid current_taken
          else if c <=? snapshot_opnum then
            match v with
            | Some bytes => (oid, bytes) :: scan_loop l' snapshot_opnum current_oid true
            | None => scan_loop l' snapshot_opnum current_oid true
            end
          else scan_loop l' snapshot_opnum current_oid current_taken
      end
  end.

Definition scan_at_snapshot store (type_id : Z) (snapshot_opnum : Z) : list (bytes * bytes) :=
  scan_loop (scan_range_versions store (rows_lo type_id) (rows_hi type_id)) snapshot_opnum None false.

(** ** Garbage collection *)

Fixpoint older_keys (l : list (Key * Slot)) (low_water_mark : Z) : list Key :=
  match l with
  | [] => []
  | (k, _) :: l' =>
      match decode_commit_opnum k with
      | inl c => if c <? low_water_mark then k :: older_keys l' low_water_mark
                 else older_keys l' low_water_mark
      | inr _ => older_keys l' low_water_mark
      end
  end.

Fixpoint delete_all (op : Z) (keys : list Key) : M (Storage W) (option MvccKeyError) :=
  match keys with
  | [] => mret None
  | k :: keys' => fun s =>
      match delete_key op k s with
      | (s', Ret _) => delete_all op keys' s'
      | (s', Err _) => (s', Ret (Some (Length 0)))
      | (s', Panic) => (s', Panic)
      end
  end.

Definition delete_versions_older_than (low_water_mark : Z) : M (Storage W) (Z + MvccKeyError) :=
  s ← m_get;
  let to_delete := older_keys (scan_range_versions s (replicate 28 0) (replicate 28 255)) low_water_mark in
  r ← delete_all low_water_mark to_delete;
  mret (match r with Some e => inr e | None => inl (zlen to_delete) end).
End Mvcc.

(** * The key encoding *)

Lemma list_cmp_snoc (p q : bytes) a b :
  length p = length q ->
  list_cmp (p ++ [a]) (q ++ [b]) = match list_cmp p q with Eq => a ?= b | c => c end.
Proof.
  revert q. induction p as [ | x p IH]; intros [ | y q]; simpl; try done.
  - intros _. by destruct (a ?= b).
  - intros [= Hl]. rewrite IH by done. by destruct (x ?= y).
Qed.

(** Big endian order is the order of the numbers. *)
Lemma be_bytes_cmp n v u :
  0 <= v < 256 ^ Z.of_nat n -> 0 <= u < 256 ^ Z.of_nat n ->
  list_cmp (be_bytes n v) (be_bytes n u) = (v ?= u).
Proof.
  revert v u. induction n as [ | n IH]; intros v u Hv Hu.
  { simpl in *. assert (v = 0) as -> by lia. assert (u = 0) as -> by lia. done. }
  rewrite !be_bytes_S, list_cmp_snoc by (by rewrite !be_bytes_length).
  replace (Z.of_nat (S n)) with (1 + Z.of_nat n) in Hv, Hu by lia.
  rewrite Z.pow_add_r in Hv, Hu by lia.
  pose proof (Z.div_mod v 256 ltac:(lia)). pose proof (Z.mod_pos_bound v 256 ltac:(lia)).
  pose proof (Z.div_mod u 256 ltac:(lia)). pose proof (Z.mod_pos_bound u 256 ltac:(lia)).
  rewrite IH by (split; [apply Z.div_pos; lia | apply Z.div_lt_upper_bound; lia]).
  destruct (Z.compare_spec (v / 256) (u / 256)) as [Heq | Hlt | Hgt];
    symmetry; rewrite ?Z.compare_lt_iff, ?Z.compare_gt_iff; [ | lia | lia].
  destruct (Z.compare_spec (v mod 256) (u mod 256));
    [apply Z.compare_eq_iff | apply Z.compare_lt_iff | apply Z.compare_gt_iff]; lia.
Qed.

Section Keys.
Implicit Types (t c : Z) (o : bytes).

Lemma opnum_inverted c : u64_ok c -> 0 <= u64_max - c < 256 ^ Z.of_nat 8.
Proof. unfold u64_ok, u64_max. simpl. lia. Qed.

Lemma versions_lo_key t o : versions_lo t o = make_versioned_key t o u64_max.
Proof. reflexivity. Qed.
Lemma versions_hi_key t o : versions_hi t o = make_versioned_key t o 0.
Proof. reflexivity. Qed.

Lemma make_versioned_key_len t o c : oid_ok o -> zlen (make_versioned_key t o c) = 28.
Proof.
  intros [Ho _]. unfold make_versioned_key. autorewrite with zlen. unfold zlen. rewrite Ho. done.
Qed.

Lemma make_versioned_key_app t o c :
  make_versioned_key t o c = make_key t o ++ be_bytes 8 (u64_max - c).
Proof. unfold make_versioned_key, make_key. by rewrite app_assoc. Qed.

Lemma make_key_length t o : oid_ok o -> length (make_key t o) = 20%nat.
Proof. intros [Ho _]. unfold make_key. by rewrite length_app, le_bytes_length, Ho. Qed.

Lemma make_versioned_key_ok t o c : oid_ok o -> bytes_ok (make_versioned_key t o c).
Proof.
  intros [_ Ho]. unfold make_versioned_key. rewrite !bytes_ok_app. split_and!; auto with kessel.
Qed.

Lemma decode_versioned_key t o c :
  oid_ok o -> u64_ok c -> decode_commit_opnum (make_versioned_key t o c) = inl c.
Proof.
  intros Ho Hc. unfold decode_commit_opnum, VERSIONED_KEY_LEN. rewrite make_versioned_key_len by done.
  simpl. rewrite make_versioned_key_app, drop_app_length' by (by rewrite make_key_length).
  rewrite be_value_be_bytes by (by apply opnum_inverted). f_equal. lia.
Qed.

(** Within a row, newer versions come first. *)
Lemma versioned_key_cmp t o c c' :
  u64_ok c -> u64_ok c' ->
  kcmp (make_versioned_key t o c) (make_versioned_key t o c') = (c' ?= c).
Proof.
  intros Hc Hc'. rewrite !make_versioned_key_app. cbn [kcmp list_OrdKey].
  rewrite list_cmp_app, be_bytes_cmp by (by apply opnum_inverted).
  destruct (Z.compare_spec c' c); [apply Z.compare_eq_iff | apply Z.compare_lt_iff | apply Z.compare_gt_iff]; lia.
Qed.

Lemma versioned_key_le t o c c' :
  u64_ok c -> u64_ok c' ->
  (kle (make_versioned_key t o c) (make_versioned_key t o c') <-> c' <= c).
Proof. intros. unfold kle. rewrite versioned_key_cmp by done. apply Z.compare_le_iff. Qed.

Lemma versioned_key_inj t o c t' o' c' :
  u32_ok t -> u32_ok t' -> oid_ok o -> oid_ok o' -> u64_ok c -> u64_ok c' ->
  make_versioned_key t o c = make_versioned_key t' o' c' -> t = t' /\ o = o' /\ c = c'.
Proof.
  intros Ht Ht' Ho Ho' Hc Hc' Heq.
  assert (c = c') as ->.
  { pose proof (decode_versioned_key t o c Ho Hc) as Hd. rewrite Heq in Hd.
    rewrite decode_versioned_key in Hd by done. by injection Hd. }
  rewrite !make_versioned_key_app in Heq. apply app_inv_tail in Heq. unfold make_key in Heq.
  apply app_inj_1 in Heq as [Hle ->]; [ | by rewrite !le_bytes_length].
  rewrite <- (le_value_u32 t), <- (le_value_u32 t') by done. by rewrite Hle.
Qed.

(** The 28-byte keys between the two bounds of a row are its versions. *)
Lemma list_cmp_between (p a b q x : bytes) :
  length q = length p -> kle (p ++ a) (q ++ x) -> kle (q ++ x) (p ++ b) -> q = p.
Proof.
  intros Hl Hlo Hhi. destruct (decide (q = p)) as [ | Hne]; [done | ].
  unfold kle in *. cbn [kcmp list_OrdKey] in *.
  rewrite list_cmp_app_len in Hlo, Hhi by (try done; by apply not_eq_sym).
  by apply (kle_antisym (K:=bytes)).
Qed.

Lemma versions_range t o k :
  oid_ok o -> zlen k = 28 -> bytes_ok k ->
  (kle (versions_lo t o) k /\ kle k (versions_hi t o) <->
   exists c, u64_ok c /\ k = make_versioned_key t o c).
Proof.
  intros Ho Hl Hk. rewrite versions_lo_key, versions_hi_key. split.
  - intros [Hlo Hhi]. rewrite !make_versioned_key_app in Hlo, Hhi.
    rewrite <- (take_drop 20 k) in Hlo, Hhi.
    apply list_cmp_between with (b := be_bytes 8 (u64_max - 0)) in Hlo as Hp; [ | | exact Hhi].
    + exists (u64_max - be_value (drop 20 k)).
      assert (bytes_ok (drop 20 k)) as Hd by (by apply Forall_drop).
      pose proof (be_value_bound _ Hd) as Hb.
      assert (length (drop 20 k) = 8%nat) as Hl8 by (rewrite length_drop; unfold zlen in Hl; lia).
      assert (zlen (drop 20 k) = 8) as Hz by (unfold zlen; lia). rewrite Hz in Hb.
      split; [unfold u64_ok, u64_max; lia | ]. rewrite make_versioned_key_app, <- Hp.
      replace (u64_max - (u64_max - be_value (drop 20 k))) with (be_value (drop 20 k)) by lia.
      pose proof (be_bytes_be_value _ Hd) as Hbb. rewrite Hl8 in Hbb. rewrite Hbb.
      symmetry. apply take_drop.
    + rewrite length_take, make_key_length by done. unfold zlen in Hl. lia.
  - intros (c & Hc & ->). assert (u64_ok u64_max /\ u64_ok 0) as [? ?] by (unfold u64_ok, u64_max; lia).
    split; apply versioned_key_le; try done; unfold u64_ok in *; lia.
Qed.
End Keys.

(** * Snapshot reads *)

(** The version of row [o] of type [t] visible at [snap] in the map [m]. *)
Definition newest (m : KvMap) (t : Z) (o : bytes) (snap c : Z) (v : Slot) : Prop :=
  u64_ok c /\ c <= snap /\ m !! make_versioned_key t o c = Some v /\
  forall c', u64_ok c' -> c < c' <= snap -> m !! make_versioned_key t o c' = None.

(** Keys are made of bytes. *)
Definition keys_ok (m : KvMap) : Prop := forall k v, m !! k = Some v -> bytes_ok k.

Lemma newest_unique m t o snap c v c' v' :
  newest m t o snap c v -> newest m t o snap c' v' -> c = c' /\ v = v'.
Proof.
  intros (Hc & Hs & Hv & Hn) (Hc' & Hs' & Hv' & Hn'). assert (c = c') as ->; [ | by simplify_eq].
  destruct (Z.lt_trichotomy c c') as [Hlt | [ | Hgt]]; [ | done | ].
  - rewrite Hn in Hv' by (done || lia). done.
  - rewrite Hn' in Hv by (done || lia). done.
Qed.

Lemma first_visible_cons k v l snap :
  first_visible ((k, v) :: l) snap =
  match decode_commit_opnum k with
  | inl c => if c <=? snap then Some v else first_visible l snap
  | inr _ => first_visible l snap
  end.
Proof. reflexivity. Qed.

Lemma first_visible_None l snap :
  first_visible l snap = None <->
  forall k v c, (k, v) ∈ l -> decode_commit_opnum k = inl c -> snap < c.
Proof.
  induction l as [ | [k v] l IH].
  { split; [intros _ k v c Hin; by apply elem_of_nil in Hin | done]. }
  rewrite first_visible_cons. split.
  - intros Hf k' v' c' Hin Hd. apply elem_of_cons in Hin as [[= -> ->] | Hin].
    + rewrite Hd in Hf. destruct (c' <=? snap) eqn:E; [done | by zb].
    + refine (proj1 IH _ k' v' c' Hin Hd). destruct (decode_commit_opnum k); [ | done].
      by destruct (_ <=? snap).
  - intros Hall. assert (first_visible l snap = None) as Hl.
    { apply IH. intros k' v' c' Hin. apply (Hall k' v' c'). by apply list_elem_of_further. }
    destruct (decode_commit_opnum k) as [c | ] eqn:Hd; [ | done].
    specialize (Hall k v c (list_elem_of_here _ _) Hd). by zif_false.
Qed.

Lemma first_visible_Some l snap v :
  ssorted l -> first_visible l snap = Some v ->
  exists k c, (k, v) ∈ l /\ decode_commit_opnum k = inl c /\ c <= snap /\
    forall k' v' c', (k', v') ∈ l -> decode_commit_opnum k' = inl c' -> c' <= snap -> kle k k'.
Proof.
  induction 1 as [ | [k0 v0] l Hs IH Hf]; [done | ]. rewrite Forall_forall in Hf.
  rewrite first_visible_cons. intros Hv.
  destruct (decode_commit_opnum k0) as [c0 | ] eqn:Hd0; [destruct (c0 <=? snap) eqn:E; zb | ].
  - injection Hv as ->. exists k0, c0. split_and!; [apply list_elem_of_here | done | done | ].
    intros k' v' c' Hin _ _. apply elem_of_cons in Hin as [[= -> ->] | Hin]; [apply kle_refl | ].
    apply klt_kle. by apply (Hf (k', v')).
  - destruct (IH Hv) as (k & c & Hin & Hd & Hc & Hmin). exists k, c.
    split_and!; [by apply list_elem_of_further | done | done | ].
    intros k' v' c' Hin' Hd' Hc'. apply elem_of_cons in Hin' as [[= -> ->] | Hin']; [ | eauto].
    assert (c' = c0) by congruence. lia.
  - destruct (IH Hv) as (k & c & Hin & Hd & Hc & Hmin). exists k, c.
    split_and!; [by apply list_elem_of_further | done | done | ].
    intros k' v' c' Hin' Hd' Hc'. apply elem_of_cons in Hin' as [[= -> ->] | Hin']; [congruence | eauto].
Qed.

Lemma decode_inl_len k c : decode_commit_opnum k = inl c -> zlen k = 28.
Proof.
  unfold decode_commit_opnum, VERSIONED_KEY_LEN. destruct (zlen k =? 28) eqn:E; [by zb | done].
Qed.

(** The decodable entries of a row's range are its versions. *)
Lemma versions_elem m t o k v c :
  keys_ok m -> oid_ok o ->
  ((k, v) ∈ bt_range (versions_lo t o) (versions_hi t o) m /\ decode_commit_opnum k = inl c <->
   u64_ok c /\ k = make_versioned_key t o c /\ m !! k = Some v).
Proof.
  intros Hm Ho. rewrite bt_range_elem. split.
  - intros [[Hk Hr] Hd]. apply versions_range in Hr as (c0 & Hc0 & ->); eauto using decode_inl_len.
    rewrite decode_versioned_key in Hd by done. injection Hd as <-. done.
  - intros (Hc & -> & Hk). split_and!; [done | | | by apply decode_versioned_key];
      apply (versions_range t o (make_versioned_key t o c));
      eauto using make_versioned_key_len, make_versioned_key_ok.
Qed.

(** On a sorted list whose decodable entries are the versions of a row, the
    first visible entry is the newest visible version. *)
Lemma first_visible_newest_list l m t o snap v :
  ssorted l ->
  (forall k v c, (k, v) ∈ l /\ decode_commit_opnum k = inl c <->
     u64_ok c /\ k = make_versioned_key t o c /\ m !! k = Some v) ->
  first_visible l snap = Some v <-> exists c, newest m t o snap c v.
Proof.
  intros Hs Hel. split.
  - intros Hf. apply first_visible_Some in Hf as (k & c & Hin & Hd & Hc & Hmin); [ | done].
    destruct (proj1 (Hel k v c) (conj Hin Hd)) as (Hu & -> & Hk).
    exists c. split_and!; try done. intros c' Hc' Hlt.
    destruct (m !! make_versioned_key t o c') as [v' | ] eqn:Hk'; [ | done].
    destruct (proj2 (Hel _ v' c') (conj Hc' (conj eq_refl Hk'))) as [Hin' Hd'].
    assert (c' <= c); [ | lia]. apply (versioned_key_le t o c c'); [done | done | ].
    by apply (Hmin _ v' c'); [ | | lia].
  - intros (c & Hcu & Hcs & Hcv & Hcn).
    destruct (proj2 (Hel _ v c) (conj Hcu (conj eq_refl Hcv))) as [Hin' Hd'].
    destruct (first_visible l snap) as [v' | ] eqn:Hf.
    + apply first_visible_Some in Hf as (k & c' & Hin & Hd & Hc & Hmin); [ | done].
      destruct (proj1 (Hel k v' c') (conj Hin Hd)) as (Hu & -> & Hk).
      assert (c <= c') by (by apply (versioned_key_le t o c' c); [ | | apply (Hmin _ v c)]).
      destruct (decide (c = c')) as [<- | Hne]; [by simplify_eq | ].
      rewrite Hcn in Hk by (done || lia). done.
    + pose proof (proj1 (first_visible_None _ _) Hf _ _ _ Hin' Hd'). lia.
Qed.

Lemma first_visible_newest m t o snap v :
  keys_ok m -> oid_ok o ->
  first_visible (bt_range (versions_lo t o) (versions_hi t o) m) snap = Some v <->
  exists c, newest m t o snap c v.
Proof.
  intros Hm Ho. apply first_visible_newest_list; [apply bt_range_sorted | ].
  intros. by apply versions_elem.
Qed.

Lemma in_range_loop_spec l t o lo hi :
  ssorted l ->
  (forall k v c, (k, v) ∈ l -> decode_commit_opnum k = inl c -> u64_ok c /\ k = make_versioned_key t o c) ->
  in_range_loop l lo hi = true <->
  exists k v c, (k, v) ∈ l /\ decode_commit_opnum k = inl c /\ lo < c <= hi.
Proof.
  induction 1 as [ | [k0 v0] l Hs IH Hf]; intros Hrow.
  { split; [done | ]. intros (k & v & c & Hin & _). by apply elem_of_nil in Hin. }
  rewrite Forall_forall in Hf.
  assert (forall k v c, (k, v) ∈ l -> decode_commit_opnum k = inl c ->
            u64_ok c /\ k = make_versioned_key t o c) as Hrow'
    by (intros k v c Hin; apply (Hrow k v c); by apply list_elem_of_further).
  specialize (IH Hrow').
  cbn [in_range_loop]. destruct (decode_commit_opnum k0) as [c0 | ] eqn:Hd0.
  - destruct (c0 <=? lo) eqn:E1; [ | destruct (c0 <=? hi) eqn:E2]; zb.
    + split; [done | ]. intros (k & v & c & Hin & Hd & Hc). exfalso.
      apply elem_of_cons in Hin as [[= -> ->] | Hin]; [assert (c = c0) by congruence; lia | ].
      destruct (Hrow k0 v0 c0 (list_elem_of_here _ _) Hd0) as [Hu0 Hk0].
      destruct (Hrow' k v c Hin Hd) as [Hu Hk]. specialize (Hf _ Hin). unfold key_lt in Hf. simpl in Hf.
      assert (c <= c0); [ | lia]. apply (versioned_key_le t o c0 c); [done | done | ].
      rewrite <- Hk, <- Hk0. by apply klt_kle.
    + split; [ | done]. intros _. exists k0, v0, c0. split_and!; [apply list_elem_of_here | done | lia | lia].
    + rewrite IH. split; intros (k & v & c & Hin & Hd & Hc); exists k, v, c.
      * split_and!; [by apply list_elem_of_further | done | lia | lia].
      * apply elem_of_cons in Hin as [[= -> ->] | Hin]; [assert (c = c0) by congruence; lia | done].
  - rewrite IH. split; intros (k & v & c & Hin & Hd & Hc); exists k, v, c.
    + split_and!; [by apply list_elem_of_further | done | lia | lia].
    + apply elem_of_cons in Hin as [[= -> ->] | Hin]; [congruence | done].
Qed.

Section SnapshotSpec.
Context {W : Type}.
Implicit Types s : Storage W.

Lemma get_at_snapshot_cases s t o snap :
  tables_wf s -> keys_ok (view s) -> oid_ok o ->
  match get_at_snapshot s t o snap with
  | Found v => exists c, newest (view s) t o snap c (Some v)
  | Tombstoned => exists c, newest (view s) t o snap c None
  | NotYetWritten =>
      forall c, u64_ok c -> c <= snap -> view s !! make_versioned_key t o c = None
  end.
Proof.
  intros Hwf Hk Ho. unfold get_at_snapshot. rewrite scan_range_versions_spec by done.
  destruct (first_visible _ snap) as [[v | ] | ] eqn:E.
  - by apply first_visible_newest in E.
  - by apply first_visible_newest in E.
  - intros c Hc Hle. destruct (view s !! make_versioned_key t o c) as [v | ] eqn:Ev; [ | done].
    destruct (proj2 (versions_elem (view s) t o _ v c Hk Ho) (conj Hc (conj eq_refl Ev))) as [Hin Hd].
    pose proof (proj1 (first_visible_None _ _) E _ _ _ Hin Hd). lia.
Qed.

(** The read a version stands for. *)
Definition read_of (v : Slot) : SnapshotRead :=
  match v with Some b => Found b | None => Tombstoned end.

Lemma get_at_snapshot_newest s t o snap c v :
  tables_wf s -> keys_ok (view s) -> oid_ok o ->
  newest (view s) t o snap c v -> get_at_snapshot s t o snap = read_of v.
Proof.
  intros Hwf Hk Ho Hn. unfold get_at_snapshot. rewrite scan_range_versions_spec by done.
  rewrite (proj2 (first_visible_newest (view s) t o snap v Hk Ho)) by eauto. by destruct v.
Qed.

Lemma get_at_snapshot_none s t o snap :
  tables_wf s -> keys_ok (view s) -> oid_ok o ->
  (forall c, u64_ok c -> c <= snap -> view s !! make_versioned_key t o c = None) ->
  get_at_snapshot s t o snap = NotYetWritten.
Proof.
  intros Hwf Hk Ho Hn. pose proof (get_at_snapshot_cases s t o snap Hwf Hk Ho) as Hc.
  destruct (get_at_snapshot s t o snap); [ | | done];
    destruct Hc as (c & Hu & Hle & Hv & _); rewrite Hn in Hv by done; done.
Qed.

Lemma get_at_snapshot_arc_spec s t o snap :
  get_at_snapshot_arc s t o snap =
  match get_at_snapshot s t o snap with Found v => Some v | _ => None end.
Proof. unfold get_at_snapshot_arc, get_at_snapshot. by destruct (first_visible _ _) as [[v | ] | ]. Qed.

Lemma has_version_in_range_spec s t o lo hi :
  tables_wf s -> keys_ok (view s) -> oid_ok o ->
  has_version_in_range s t o lo hi = true <->
  exists c v, u64_ok c /\ lo < c <= hi /\ view s !! make_versioned_key t o c = Some v.
Proof.
  intros Hwf Hk Ho. unfold has_version_in_range. rewrite scan_range_versions_spec by done.
  rewrite (in_range_loop_spec _ t o); [ | apply bt_range_sorted | ].
  - split.
    + intros (k & v & c & Hin & Hd & Hc).
      destruct (proj1 (versions_elem (view s) t o k v c Hk Ho) (conj Hin Hd)) as (Hu & -> & Hv). eauto.
    + intros (c & v & Hu & Hc & Hv).
      destruct (proj2 (versions_elem (view s) t o _ v c Hk Ho) (conj Hu (conj eq_refl Hv))). eauto 6.
  - intros k v c Hin Hd. destruct (proj1 (versions_elem (view s) t o k v c Hk Ho) (conj Hin Hd)) as (? & ? & _).
    done.
Qed.
End SnapshotSpec.
