(* ===== verification/MvccSpec.v ===== *)
(** The versioned layer: writes, type scans and garbage collection.

    What a versioned write, a scan at a snapshot and the removal of old
    versions do to the reads of [Mvcc].

    Source: src/crates/kessel-storage/src/mvcc.rs. *)

From Stdlib Require Import ZArith Lia.
From stdpp Require Import base numbers list sorting gmap fin_maps.
From S2P Require Import Prelude BTree Proto Vfs Wal SsTable Storage View Mvcc.

#[local] Open Scope Z_scope.
#[local] Set Warnings "-clear-no-such-hyp".

(** * Writes *)

Section Writes.
Context {W : Type} `{Vfs W}.
Implicit Types s : Storage W.

Lemma on_vfs_fields {A} (m : M W A) s s' (r : outcome A) :
  on_vfs m s = (s', r) -> exists w', s' = set_vfs w' s.
Proof. unfold on_vfs. destruct (m (vfs s)) as [w' r'] eqn:E. intros [= <- <-]. eauto. Qed.

(** A commit that returns put the entry into the view, in a transaction or not. *)
Lemma commit_view e s s' :
  commit e s = (s', Ret tt) ->
  view s' = <[entry_key e := entry_value e]> (view s) /\ sstables s' = sstables s /\
  in_txn s' = in_txn s.
Proof.
  unfold commit. rewrite (M_bind_ret _ _ _ _ _ (m_get_ret s)).
  destruct (txn s) as [ov | ] eqn:Htx; intros Hc.
  - injection Hc as <-. unfold view, durable_view, in_txn. simpl. rewrite Htx. simpl.
    by rewrite fmap_insert, insert_union_l.
  - unfold mbind, M_bind in Hc.
    destruct (on_vfs (wal_append (wal_end s) e) s) as [s1 [n | | ]] eqn:E1; [ | done | done].
    destruct (on_vfs_fields _ _ _ _ E1) as [w1 ->]. simpl in Hc.
    assert (forall s2 r, (if autosync s then on_vfs wal_sync else mret tt)
              (set_wal_end n (set_vfs w1 s)) = (s2, r) ->
            exists w2, s2 = set_vfs w2 (set_wal_end n (set_vfs w1 s))) as Hsync.
    { intros s2 r. destruct (autosync s); [apply on_vfs_fields | ]. intros [= <- <-]. by exists w1. }
    destruct ((if autosync s then on_vfs wal_sync else mret tt) (set_wal_end n (set_vfs w1 s)))
      as [s2 [u | | ]] eqn:E2; [ | done | done].
    destruct (Hsync _ _ eq_refl) as [w2 ->]. injection Hc as <-.
    unfold view, durable_view, in_txn. simpl. rewrite Htx. simpl.
    by rewrite !kv_empty_union, insert_union_l.
Qed.

Lemma commit_reads_ok e s s' :
  commit e s = (s', Ret tt) -> bytes_ok (entry_key e) ->
  tables_wf s -> keys_ok (view s) -> tables_wf s' /\ keys_ok (view s').
Proof.
  intros Hc Hb Hwf Hk. destruct (commit_view e s s' Hc) as (Hv & Ht & _). split.
  - unfold tables_wf. by rewrite Ht.
  - rewrite Hv. intros k v. rewrite lookup_insert_Some. intros [[<- _] | [_ Hkv]]; [done | by eapply Hk].
Qed.

(** Reads at [snap] depend only on the versions up to [snap]. *)
Lemma get_at_snapshot_ext s s' t o snap :
  tables_wf s -> keys_ok (view s) -> tables_wf s' -> keys_ok (view s') -> oid_ok o ->
  (forall c, u64_ok c -> c <= snap ->
     view s' !! make_versioned_key t o c = view s !! make_versioned_key t o c) ->
  get_at_snapshot s' t o snap = get_at_snapshot s t o snap.
Proof.
  intros Hwf Hk Hwf' Hk' Ho Heq.
  assert (forall c v, newest (view s) t o snap c v -> newest (view s') t o snap c v) as Htr.
  { intros c v (Hu & Hle & Hv & Hn). split_and!; [done | done | by rewrite Heq | ].
    intros c' Hu' Hlt. rewrite Heq by (done || lia). by apply Hn. }
  pose proof (get_at_snapshot_cases s t o snap Hwf Hk Ho) as Hc.
  destruct (get_at_snapshot s t o snap) as [v | | ] eqn:E.
  - destruct Hc as [c Hn]. exact (get_at_snapshot_newest s' t o snap c (Some v) Hwf' Hk' Ho (Htr _ _ Hn)).
  - destruct Hc as [c Hn]. exact (get_at_snapshot_newest s' t o snap c None Hwf' Hk' Ho (Htr _ _ Hn)).
  - apply get_at_snapshot_none; try done. intros c Hu Hle. rewrite Heq by done. by apply Hc.
Qed.

Lemma put_versioned_view t o c v s s' :
  put_versioned t o c v s = (s', Ret tt) ->
  view s' = <[make_versioned_key t o c := v]> (view s) /\ sstables s' = sstables s /\
  in_txn s' = in_txn s.
Proof. apply (commit_view {| op_number := c; entry_key := _; entry_value := v |}). Qed.

Lemma put_versioned_reads_ok t o c v s s' :
  put_versioned t o c v s = (s', Ret tt) -> oid_ok o ->
  tables_wf s -> keys_ok (view s) -> tables_wf s' /\ keys_ok (view s').
Proof.
  intros Hp Ho. eapply commit_reads_ok; [exact Hp | ]. by apply make_versioned_key_ok.
Qed.

(** A write at [c] is invisible to every snapshot before [c], and to every
    other row. *)
Lemma put_versioned_frame t o c v s s' t' o' snap :
  put_versioned t o c v s = (s', Ret tt) ->
  u32_ok t -> u32_ok t' -> oid_ok o -> oid_ok o' -> u64_ok c ->
  tables_wf s -> keys_ok (view s) ->
  snap < c \/ t' <> t \/ o' <> o ->
  get_at_snapshot s' t' o' snap = get_at_snapshot s t' o' snap.
Proof.
  intros Hp Ht Ht' Ho Ho' Hc Hwf Hk Hne.
  destruct (put_versioned_reads_ok _ _ _ _ _ _ Hp Ho Hwf Hk) as [Hwf' Hk'].
  apply get_at_snapshot_ext; try done. intros c' Hc' Hle.
  destruct (put_versioned_view _ _ _ _ _ _ Hp) as [-> _]. apply lookup_insert_ne. intros Heq.
  apply versioned_key_inj in Heq as (-> & -> & ->); [ | done..].
  destruct Hne as [Hlt | [Hne | Hne]]; [lia | done | done].
Qed.

(** A write at [c] is what a snapshot from [c] on reads, up to the next
    version. *)
Lemma put_versioned_read t o c v s s' snap :
  put_versioned t o c v s = (s', Ret tt) ->
  u32_ok t -> oid_ok o -> u64_ok c -> tables_wf s -> keys_ok (view s) -> c <= snap ->
  (forall c', u64_ok c' -> c < c' <= snap -> view s !! make_versioned_key t o c' = None) ->
  get_at_snapshot s' t o snap = read_of v.
Proof.
  intros Hp Ht Ho Hc Hwf Hk Hle Hn.
  destruct (put_versioned_reads_ok _ _ _ _ _ _ Hp Ho Hwf Hk) as [Hwf' Hk'].
  destruct (put_versioned_view _ _ _ _ _ _ Hp) as [Hv _].
  apply (get_at_snapshot_newest s' t o snap c v); try done. split_and!; [done | done | | ].
  - rewrite Hv. apply lookup_insert_eq.
  - intros c' Hc' Hlt. rewrite Hv, lookup_insert_ne; [by apply Hn | ]. intros Heq.
    apply versioned_key_inj in Heq as (_ & _ & ->); try done. lia.
Qed.
End Writes.

(** * Scanning a type *)

Definition key_oid (k : bytes) : bytes := take 16 (drop 4 k).

Lemma key_oid_versioned t o c : oid_ok o -> key_oid (make_versioned_key t o c) = o.
Proof.
  intros [Ho _]. unfold key_oid, make_versioned_key.
  rewrite drop_app_length' by (by rewrite le_bytes_length). by rewrite take_app_length' by done.
Qed.

(** Byte strings of a length lie between all zeros and all ones. *)
Lemma bytes_between n (x : bytes) :
  bytes_ok x -> length x = n ->
  list_cmp (replicate n 0) x <> Gt /\ list_cmp x (replicate n 255) <> Gt.
Proof.
  intros Hx <-. induction Hx as [ | y x Hy Hx [I0 I1]]; [done | ]. unfold byte_ok in Hy.
  cbn [length replicate list_cmp kcmp Z_OrdKey]. split.
  - destruct (Z.compare_spec 0 y); [exact I0 | done | lia].
  - destruct (Z.compare_spec y 255); [exact I1 | done | lia].
Qed.

(** The 28-byte keys between the bounds of a type are versions of its rows. *)
Lemma rows_range t k :
  zlen k = 28 -> bytes_ok k ->
  (kle (rows_lo t) k /\ kle k (rows_hi t) <->
   exists o c, oid_ok o /\ u64_ok c /\ k = make_versioned_key t o c).
Proof.
  intros Hl Hk. unfold zlen in Hl. split.
  - intros [Hlo Hhi]. unfold rows_lo, rows_hi in Hlo, Hhi. rewrite <- (take_drop 4 k) in Hlo, Hhi.
    assert (take 4 k = le_bytes 4 t) as Hp
      by (eapply list_cmp_between; [rewrite length_take, le_bytes_length; lia | exact Hlo | exact Hhi]).
    exists (key_oid k), (u64_max - be_value (drop 20 k)).
    assert (length (drop 20 k) = 8%nat) as Hl8 by (rewrite length_drop; lia).
    assert (bytes_ok (drop 20 k)) as Hd by (by apply Forall_drop).
    pose proof (be_value_bound _ Hd) as Hb. unfold zlen in Hb. rewrite Hl8 in Hb.
    split_and!.
    + split; [unfold key_oid; rewrite length_take, length_drop; lia | ].
      by apply Forall_take, Forall_drop.
    + unfold u64_ok, u64_max. lia.
    + unfold make_versioned_key. rewrite <- Hp.
      replace (u64_max - (u64_max - be_value (drop 20 k))) with (be_value (drop 20 k)) by lia.
      pose proof (be_bytes_be_value _ Hd) as Hbb. rewrite Hl8 in Hbb. rewrite Hbb.
      unfold key_oid. replace (drop 20 k) with (drop 16 (drop 4 k)) by (by rewrite drop_drop).
      by rewrite !take_drop.
  - intros (o & c & Ho & Hc & ->). unfold rows_lo, rows_hi, make_versioned_key, kle.
    cbn [kcmp list_OrdKey]. rewrite !list_cmp_app.
    destruct Ho as [Hol Hob].
    assert (bytes_ok (o ++ be_bytes 8 (u64_max - c))) as Hok
      by (apply bytes_ok_app; split; [done | apply be_bytes_ok]).
    assert (length (o ++ be_bytes 8 (u64_max - c)) = 24%nat) as Hlen
      by (by rewrite length_app, be_bytes_length, Hol).
    apply (bytes_between 24 _ Hok Hlen).
Qed.

Lemma versioned_key_oid_le t o c o' c' :
  oid_ok o -> oid_ok o' -> kle (make_versioned_key t o c) (make_versioned_key t o' c') -> kle o o'.
Proof.
  intros [Ho _] [Ho' _]. destruct (decide (o = o')) as [-> | Hne]; [intros; apply kle_refl | ].
  unfold make_versioned_key, kle. cbn [kcmp list_OrdKey].
  rewrite list_cmp_app, list_cmp_app_len; [done | by rewrite Ho, Ho' | done].
Qed.

(** The first visible version of row [o] in a list of versions of many rows. *)
Definition visible_row (l : list (Key * Slot)) (o : bytes) (snap : Z) : option Slot :=
  first_visible (filter (fun kv => key_oid kv.1 = o) l) snap.

Lemma visible_row_cons k v l o snap :
  visible_row ((k, v) :: l) o snap =
  match decode_commit_opnum k with
  | inl c => if bool_decide (key_oid k = o) && (c <=? snap) then Some v else visible_row l o snap
  | inr _ => visible_row l o snap
  end.
Proof.
  unfold visible_row. rewrite filter_cons. cbn [fst]. case_decide as Ho;
    [rewrite bool_decide_true by done | rewrite bool_decide_false by done]; simpl.
  - destruct (decode_commit_opnum k); [by destruct (_ <=? snap) | done].
  - by destruct (decode_commit_opnum k).
Qed.

Lemma visible_row_some l o snap v :
  visible_row l o snap = Some v -> exists k v', (k, v') ∈ l /\ zlen k = 28 /\ key_oid k = o.
Proof.
  induction l as [ | [k v'] l IH]; [done | ]. rewrite visible_row_cons.
  assert (visible_row l o snap = Some v -> exists k0 v0, (k0, v0) ∈ (k, v') :: l /\ zlen k0 = 28 /\ key_oid k0 = o)
    as Htl by (intros Hv; destruct (IH Hv) as (k0 & v0 & Hin & Hr); exists k0, v0;
               split; [by apply list_elem_of_further | done]).
  destruct (decode_commit_opnum k) as [c | ] eqn:Hd; [ | done].
  case_bool_decide; simpl; [ | done]. destruct (c <=? snap); [ | done]. intros _.
  exists k, v'. split_and!; [apply list_elem_of_here | by eapply decode_inl_len | done].
Qed.

(** Every 28-byte key of the list has an object id above [cur]. *)
Definition oids_from (cur : option bytes) (l : list (Key * Slot)) : Prop :=
  forall o0 k v, cur = Some o0 -> (k, v) ∈ l -> zlen k = 28 -> kle o0 (key_oid k).

Definition oids_sorted (l : list (Key * Slot)) : Prop :=
  StronglySorted (fun a b => zlen a.1 = 28 -> zlen b.1 = 28 -> kle (key_oid a.1) (key_oid b.1)) l.

Lemma oids_from_cons cur k v l :
  oids_sorted ((k, v) :: l) -> oids_from cur ((k, v) :: l) ->
  oids_from cur l /\ (zlen k = 28 -> oids_from (Some (key_oid k)) l).
Proof.
  intros Hs Hf. inversion Hs as [ | ? ? _ Ha]; subst. rewrite Forall_forall in Ha. split.
  - intros o0 k' v' Ho Hin. apply (Hf o0 k' v' Ho). by apply list_elem_of_further.
  - intros Hl o0 k' v' [= <-] Hin Hl'. by apply (Ha (k', v')).
Qed.

(** What the scan loop emits: for each row not yet decided, its first visible
    version when that is live. *)
Lemma scan_loop_elem l snap cur taken o v :
  oids_sorted l -> oids_from cur l ->
  (o, v) ∈ scan_loop l snap cur taken <->
  (cur = Some o -> taken = false) /\ visible_row l o snap = Some (Some v).
Proof.
  revert cur taken. induction l as [ | [k v0] l IH]; intros cur taken Hs Hf.
  { split; [intros Hin; by apply elem_of_nil in Hin | by intros [_ ?]]. }
  destruct (oids_from_cons _ _ _ _ Hs Hf) as [Hf1 Hf2].
  assert (Hs' : oids_sorted l) by (by inversion Hs).
  cbn [scan_loop]. rewrite visible_row_cons. unfold VERSIONED_KEY_LEN. fold (key_oid k).
  destruct (zlen k =? 28) eqn:El; cbn [negb].
  2: { unfold decode_commit_opnum, VERSIONED_KEY_LEN. rewrite El. cbn [negb]. by apply IH. }
  zb. specialize (Hf2 El). destruct (decode_commit_opnum k) as [c | ] eqn:Hd; [ | by apply IH].
  set (o0 := key_oid k) in *.
  assert (forall b, (o, v) ∈ scan_loop l snap (Some o0) b <->
            (o0 = o -> b = false) /\ visible_row l o snap = Some (Some v)) as IH0.
  { intros b. rewrite IH by done. split; intros [Ha Hb]; split; try done; intros He; apply Ha; congruence. }
  destruct (decide (Some o0 <> cur)) as [Hne | Heq].
  - assert (visible_row l o snap = Some (Some v) -> cur = Some o -> o0 = o) as Hcur.
    { intros Hv ->. apply visible_row_some in Hv as (k1 & v1 & Hin & Hl1 & Ho1).
      apply (kle_antisym o0 o).
      - rewrite <- Ho1. by apply (Hf2 o0 k1 v1).
      - apply (Hf o k v0); [done | apply list_elem_of_here | done]. }
    case_bool_decide as Ho0; simpl.
    + destruct (c <=? snap); [ | rewrite IH0; naive_solver].
      destruct v0 as [b | ]; rewrite ?elem_of_cons, IH0; naive_solver.
    + destruct (c <=? snap); [ | rewrite IH0; naive_solver].
      destruct v0 as [b | ]; rewrite ?elem_of_cons, IH0; naive_solver.
  - assert (cur = Some o0) as -> by (apply dec_stable; intros Hx; by apply Heq).
    destruct taken.
    + rewrite IH0. case_bool_decide; simpl; [ | naive_solver]. destruct (c <=? snap); naive_solver.
    + case_bool_decide as Ho0; simpl; (destruct (c <=? snap); [ | rewrite IH0; naive_solver]);
        destruct v0 as [b | ]; rewrite ?elem_of_cons, IH0; naive_solver.
Qed.

Lemma scan_loop_sorted l snap cur taken :
  oids_sorted l -> oids_from cur l -> StronglySorted (fun a b => klt a.1 b.1) (scan_loop l snap cur taken).
Proof.
  revert cur taken. induction l as [ | [k v0] l IH]; intros cur taken Hs Hf; [constructor | ].
  destruct (oids_from_cons _ _ _ _ Hs Hf) as [Hf1 Hf2].
  assert (Hs' : oids_sorted l) by (by inversion Hs).
  cbn [scan_loop]. unfold VERSIONED_KEY_LEN. fold (key_oid k).
  destruct (zlen k =? 28) eqn:El; cbn [negb]; [zb; specialize (Hf2 El) | by apply IH].
  destruct (decode_commit_opnum k) as [c | ]; [ | by apply IH]. set (o0 := key_oid k) in *.
  assert (forall v, StronglySorted (fun a b => klt a.1 b.1) ((o0, v) :: scan_loop l snap (Some o0) true)) as Hcons.
  { intros v. constructor; [by apply IH | ]. apply Forall_forall. intros [o v'] Hin. simpl.
    apply scan_loop_elem in Hin as [Ht Hv]; [ | done | done].
    apply visible_row_some in Hv as (k1 & v1 & Hin & Hl1 & Ho1).
    assert (kle o0 o) as Hle by (rewrite <- Ho1; by apply (Hf2 o0 k1 v1)).
    apply kle_lteq in Hle as [ | ->]; [done | ]. by specialize (Ht eq_refl). }
  assert (cur = Some o0 \/ Some o0 <> cur) as [-> | Hne]
    by (destruct (decide (Some o0 = cur)) as [<- | ]; auto).
  - rewrite decide_False by (by intros []). destruct taken; [by apply IH | ].
    destruct (c <=? snap); [destruct v0; [apply Hcons | by apply IH] | by apply IH].
  - rewrite decide_True by done. destruct (c <=? snap); [destruct v0; [apply Hcons | by apply IH] | by apply IH].
Qed.

Section ScanSpec.
Context {W : Type}.
Implicit Types s : Storage W.

Lemma rows_oids_sorted m t :
  keys_ok m -> oids_sorted (bt_range (rows_lo t) (rows_hi t) m).
Proof.
  intros Hm. pose proof (bt_range_sorted (rows_lo t) (rows_hi t) m) as Hs.
  assert (forall k v, (k, v) ∈ bt_range (rows_lo t) (rows_hi t) m -> zlen k = 28 ->
            exists o c, oid_ok o /\ k = make_versioned_key t o c) as Hrow.
  { intros k v Hin Hl. apply bt_range_elem in Hin as [Hk Hr].
    apply rows_range in Hr as (o & c & Ho & _ & ->); [eauto | done | by eapply Hm]. }
  induction Hs as [ | [k v] l Hs IH Hf]; [constructor | ]. constructor.
  - apply IH. intros k' v' Hin. apply (Hrow k' v'). by apply list_elem_of_further.
  - rewrite Forall_forall in Hf. apply Forall_forall. intros [k' v'] Hin Hl Hl'. simpl in *.
    destruct (Hrow k v (list_elem_of_here _ _) Hl) as (o & c & Ho & ->).
    destruct (Hrow k' v' (list_elem_of_further _ _ _ Hin) Hl') as (o' & c' & Ho' & ->).
    rewrite !key_oid_versioned by done. apply (versioned_key_oid_le t o c o' c'); [done | done | ].
    apply klt_kle. by apply (Hf (_, v')).
Qed.

Lemma visible_row_newest m t o snap v :
  keys_ok m -> oid_ok o ->
  visible_row (bt_range (rows_lo t) (rows_hi t) m) o snap = Some v <->
  exists c, newest m t o snap c v.
Proof.
  intros Hm Ho. unfold visible_row. apply first_visible_newest_list.
  - apply ssorted_filter, bt_range_sorted.
  - intros k v' c. rewrite list_elem_of_filter, bt_range_elem. cbn [fst]. split.
    + intros [[Heq [Hk Hr]] Hd]. pose proof (decode_inl_len _ _ Hd) as Hl.
      apply rows_range in Hr as (o' & c' & Ho' & Hc' & ->); [ | done | by eapply Hm].
      rewrite key_oid_versioned in Heq by done. subst o'.
      rewrite decode_versioned_key in Hd by done. by injection Hd as <-.
    + intros (Hc & -> & Hk). split; [ | by apply decode_versioned_key].
      split; [by apply key_oid_versioned | ]. split; [done | ].
      apply rows_range; eauto using make_versioned_key_len, make_versioned_key_ok.
Qed.

Lemma scan_at_snapshot_elem s t snap o v :
  tables_wf s -> keys_ok (view s) ->
  (o, v) ∈ scan_at_snapshot s t snap <-> oid_ok o /\ get_at_snapshot s t o snap = Found v.
Proof.
  intros Hwf Hk. unfold scan_at_snapshot. rewrite scan_range_versions_spec by done.
  rewrite scan_loop_elem; [ | by apply rows_oids_sorted | done]. split.
  - intros [_ Hv]. assert (oid_ok o) as Ho.
    { apply visible_row_some in Hv as (k & v' & Hin & Hl & <-). apply bt_range_elem in Hin as [Hkv Hr].
      apply rows_range in Hr as (o & c & Ho & _ & ->); [by rewrite key_oid_versioned | done | by eapply Hk]. }
    split; [done | ]. apply visible_row_newest in Hv as [c Hn]; [ | done | done].
    by apply (get_at_snapshot_newest s t o snap c (Some v)).
  - intros [Ho Hg]. split; [done | ]. apply visible_row_newest; [done | done | ].
    pose proof (get_at_snapshot_cases s t o snap Hwf Hk Ho) as Hc. by rewrite Hg in Hc.
Qed.

Lemma scan_at_snapshot_sorted s t snap :
  tables_wf s -> keys_ok (view s) -> StronglySorted (fun a b => klt a.1 b.1) (scan_at_snapshot s t snap).
Proof.
  intros Hwf Hk. unfold scan_at_snapshot. rewrite scan_range_versions_spec by done.
  apply scan_loop_sorted; [by apply rows_oids_sorted | done].
Qed.
End ScanSpec.

(** * Garbage collection *)

Lemma older_keys_elem l lwm k :
  k ∈ older_keys l lwm <-> exists v c, (k, v) ∈ l /\ decode_commit_opnum k = inl c /\ c < lwm.
Proof.
  induction l as [ | [k0 v0] l IH].
  { split; [intros Hin; by apply elem_of_nil in Hin | ]. intros (v & c & Hin & _). by apply elem_of_nil in Hin. }
  cbn [older_keys].
  assert (forall P : Prop, (k = k0 /\ P) \/ k ∈ older_keys l lwm <->
            (k = k0 /\ P) \/ exists v c, (k, v) ∈ l /\ decode_commit_opnum k = inl c /\ c < lwm) as IH'
    by (intros P; by rewrite IH).
  assert ((exists v c, (k, v) ∈ (k0, v0) :: l /\ decode_commit_opnum k = inl c /\ c < lwm) <->
          (k = k0 /\ exists c, decode_commit_opnum k0 = inl c /\ c < lwm) \/
          (exists v c, (k, v) ∈ l /\ decode_commit_opnum k = inl c /\ c < lwm)) as ->.
  { split.
    - intros (v & c & Hin & Hd & Hc). apply elem_of_cons in Hin as [[= -> ->] | Hin]; eauto 7.
    - intros [[-> (c & Hd & Hc)] | (v & c & Hin & Hr)].
      + exists v0, c. split_and!; [apply list_elem_of_here | done | done].
      + exists v, c. split; [by apply list_elem_of_further | done]. }
  rewrite <- IH'. destruct (decode_commit_opnum k0) as [c0 | ]; [destruct (c0 <? lwm) eqn:E; zb | ].
  - rewrite elem_of_cons. naive_solver.
  - split; [by right | ]. intros [[_ (c & [= ->] & Hc)] | ?]; [lia | done].
  - split; [by right | ]. intros [[_ (c & [=] & _)] | ?]. done.
Qed.

Section Gc.
Context {W : Type} `{Vfs W}.
Implicit Types s : Storage W.

Lemma delete_key_versioned op k s : zlen k = 28 ->
  delete_key op k s = commit {| op_number := op; entry_key := k; entry_value := None |} s.
Proof. intros Hl. unfold delete_key, data_row_dispatch, PREFIX_LEN. by rewrite Hl. Qed.

(** Tombstones over every key of the list, and nothing else. *)
Lemma delete_all_view op keys s s' :
  delete_all op keys s = (s', Ret None) -> Forall (fun k => zlen k = 28) keys ->
  sstables s' = sstables s /\
  forall k, view s' !! k = if decide (k ∈ keys) then Some None else view s !! k.
Proof.
  revert s. induction keys as [ | k keys IH]; intros s; cbn [delete_all]; intros Hd Hl.
  { injection Hd as <-. split; [done | ]. intros k. rewrite decide_False by (by intros ?%elem_of_nil). done. }
  apply Forall_cons in Hl as [Hk Hl]. rewrite delete_key_versioned in Hd by done.
  destruct (commit _ s) as [s1 [[] | | ]] eqn:Ec; [ | done | done].
  destruct (commit_view _ _ _ Ec) as (Hv & Ht & _). destruct (IH s1 Hd Hl) as [Ht' Hv'].
  split; [congruence | ]. intros k'. rewrite Hv', Hv. cbn [entry_key entry_value].
  destruct (decide (k' ∈ keys)) as [Hin | Hni].
  - by rewrite decide_True by (by apply list_elem_of_further).
  - destruct (decide (k = k')) as [<- | Hne].
    + rewrite lookup_insert_eq. by rewrite decide_True by apply list_elem_of_here.
    + rewrite lookup_insert_ne by done. rewrite decide_False; [done | ].
      intros [-> | ?]%elem_of_cons; done.
Qed.

Lemma gc_view lwm n s s' :
  delete_versions_older_than lwm s = (s', Ret (inl n)) -> tables_wf s -> keys_ok (view s) ->
  sstables s' = sstables s /\
  forall k, view s' !! k =
    match view s !! k, decode_commit_opnum k with
    | Some v, inl c => if c <? lwm then Some None else Some v
    | o, _ => o
    end.
Proof.
  intros Hg Hwf Hk. unfold delete_versions_older_than in Hg.
  rewrite (M_bind_ret _ _ _ _ _ (m_get_ret s)), scan_range_versions_spec in Hg by done.
  set (keys := older_keys _ lwm) in Hg. unfold mbind, M_bind in Hg.
  destruct (delete_all lwm keys s) as [s1 [[e | ] | | ]] eqn:Hd; [done | | done | done].
  injection Hg as <- _.
  assert (forall k, k ∈ keys <-> exists v c, view s !! k = Some v /\ decode_commit_opnum k = inl c /\ c < lwm) as Hel.
  { intros k. unfold keys. rewrite older_keys_elem. setoid_rewrite bt_range_elem. split.
    - intros (v & c & [Hv _] & Hr). eauto.
    - intros (v & c & Hv & Hdec & Hc). exists v, c. split_and!; try done;
        apply (bytes_between 28 k); try (by eapply Hk); apply decode_inl_len in Hdec; unfold zlen in Hdec; lia. }
  destruct (delete_all_view lwm keys s s1 Hd) as [Ht Hv].
  { apply Forall_forall. intros k Hin. apply Hel in Hin as (v & c & _ & Hdec & _). by eapply decode_inl_len. }
  split; [done | ]. intros k. rewrite Hv. destruct (decide (k ∈ keys)) as [Hin | Hni].
  - apply Hel in Hin as (v & c & -> & -> & Hc). by rewrite (proj2 (Z.ltb_lt _ _)).
  - destruct (view s !! k) as [v | ] eqn:Ev; [ | by destruct (decode_commit_opnum k)].
    destruct (decode_commit_opnum k) as [c | ] eqn:Edec; [ | done].
    destruct (c <? lwm) eqn:E; zb; [ | done]. destruct Hni. apply Hel. eauto.
Qed.

Lemma gc_reads_ok lwm n s s' :
  delete_versions_older_than lwm s = (s', Ret (inl n)) -> tables_wf s -> keys_ok (view s) ->
  tables_wf s' /\ keys_ok (view s').
Proof.
  intros Hg Hwf Hk. destruct (gc_view lwm n s s' Hg Hwf Hk) as [Ht Hv]. split.
  - unfold tables_wf. by rewrite Ht.
  - intros k v. rewrite Hv. destruct (view s !! k) as [v' | ] eqn:E; [intros _; by eapply Hk | ].
    by destruct (decode_commit_opnum k).
Qed.
End Gc.

(** * Correctness of the versioned layer *)

(** Versioned keys round-trip and order versions newest first: the commit
    number decodes from the key, and within a row the key of a newer version
    is the smaller one. *)
Theorem versioned_key_roundtrip_order t o c c' :
  oid_ok o -> u64_ok c -> u64_ok c' ->
  decode_commit_opnum (make_versioned_key t o c) = inl c /\
  (klt (make_versioned_key t o c) (make_versioned_key t o c') <-> c' < c).
Proof.
  intros Ho Hc Hc'. split; [by apply decode_versioned_key | ].
  unfold klt. rewrite versioned_key_cmp by done. apply Z.compare_lt_iff.
Qed.

(** C7: A snapshot read returns the newest version at or below the snapshot:
    its value, or the deletion it records; [NotYetWritten] exactly when no
    version is that old. *)
Theorem get_at_snapshot_correct {W} (s : Storage W) t o snap :
  tables_wf s -> keys_ok (view s) -> oid_ok o ->
  (forall v, get_at_snapshot s t o snap = read_of v <-> exists c, newest (view s) t o snap c v) /\
  (get_at_snapshot s t o snap = NotYetWritten <->
   forall c, u64_ok c -> c <= snap -> view s !! make_versioned_key t o c = None).
Proof.
  intros Hwf Hk Ho. pose proof (get_at_snapshot_cases s t o snap Hwf Hk Ho) as Hc. split.
  - intros v. split; [ | intros (c & Hn); by eapply get_at_snapshot_newest].
    intros Hg. rewrite Hg in Hc. by destruct v.
  - split; [ | by apply get_at_snapshot_none]. intros Hg. by rewrite Hg in Hc.
Qed.

(** C18: A type scan at a snapshot is the row-by-row snapshot read: it yields
    exactly the rows that read as found, each once, in object-id order. *)
Theorem scan_at_snapshot_correct {W} (s : Storage W) t snap :
  tables_wf s -> keys_ok (view s) ->
  (forall o v, (o, v) ∈ scan_at_snapshot s t snap <-> oid_ok o /\ get_at_snapshot s t o snap = Found v) /\
  StronglySorted (fun a b => klt a.1 b.1) (scan_at_snapshot s t snap).
Proof.
  intros Hwf Hk. split; [ | by apply scan_at_snapshot_sorted]. intros o v. by apply scan_at_snapshot_elem.
Qed.

(** The conflict probe [has_version_in_range] is true exactly when some
    version of the row was committed after [lo] and no later than [hi]. *)
Theorem has_version_in_range_correct {W} (s : Storage W) t o lo hi :
  tables_wf s -> keys_ok (view s) -> oid_ok o ->
  has_version_in_range s t o lo hi = true <->
  exists c v, u64_ok c /\ lo < c <= hi /\ view s !! make_versioned_key t o c = Some v.
Proof. apply has_version_in_range_spec. Qed.

(** Snapshots are stable under versioned writes: after a write committed at
    [c], on any file system, every row reads as before at every snapshot below
    [c], every other row reads as before at every snapshot, and a snapshot at
    or above [c] with no newer version reads the written value. *)
Theorem put_versioned_isolated {W} `{Vfs W} t o c v (s s' : Storage W) :
  put_versioned t o c v s = (s', Ret tt) ->
  u32_ok t -> oid_ok o -> u64_ok c -> tables_wf s -> keys_ok (view s) ->
  (forall t' o' snap, u32_ok t' -> oid_ok o' -> snap < c \/ t' <> t \/ o' <> o ->
     get_at_snapshot s' t' o' snap = get_at_snapshot s t' o' snap) /\
  (forall snap, c <= snap -> has_version_in_range s t o c snap = false ->
     get_at_snapshot s' t o snap = read_of v).
Proof.
  intros Hp Ht Ho Hc Hwf Hk. split.
  - intros t' o' snap Ht' Ho'. by eapply put_versioned_frame.
  - intros snap Hle Hr. eapply put_versioned_read; try done. intros c' Hc' Hlt.
    destruct (view s !! make_versioned_key t o c') as [v' | ] eqn:E; [ | done].
    assert (has_version_in_range s t o c snap = true) as Ht2 by (apply has_version_in_range_spec; eauto).
    congruence.
Qed.

(** C35: Collecting versions below the low-water mark keeps a read whose newest
    visible version is at or above the mark and a read that found no version;
    a row whose newest visible version is below the mark reads as deleted
    afterwards, although its snapshot may lie above the mark. *)
Theorem gc_reads {W} `{Vfs W} lwm n (s s' : Storage W) t o snap :
  delete_versions_older_than lwm s = (s', Ret (inl n)) ->
  tables_wf s -> keys_ok (view s) -> oid_ok o ->
  (forall c v, newest (view s) t o snap c v ->
     get_at_snapshot s' t o snap = if c <? lwm then Tombstoned else read_of v) /\
  (get_at_snapshot s t o snap = NotYetWritten -> get_at_snapshot s' t o snap = NotYetWritten).
Proof.
  intros Hg Hwf Hk Ho. destruct (gc_reads_ok lwm n s s' Hg Hwf Hk) as [Hwf' Hk'].
  destruct (gc_view lwm n s s' Hg Hwf Hk) as [_ Hv]. split.
  - intros c v (Hc & Hle & Hcv & Hn).
    assert (newest (view s') t o snap c (if c <? lwm then None else v)) as Hnew.
    { split_and!; [done | done | | ].
      - rewrite Hv, Hcv, decode_versioned_key by done. by destruct (c <? lwm).
      - intros c' Hc' Hlt. by rewrite Hv, Hn. }
    rewrite (get_at_snapshot_newest s' t o snap c _ Hwf' Hk' Ho Hnew). by destruct (c <? lwm).
  - intros Hn. apply get_at_snapshot_none; try done. intros c Hc Hle. rewrite Hv, decode_versioned_key by done.
    pose proof (get_at_snapshot_cases s t o snap Hwf Hk Ho) as Hcs. rewrite Hn in Hcs. by rewrite Hcs.
Qed.

(** ** Applied to a sample *)

Definition row_oid : bytes := replicate 16 5.

(** Row 1/5..5 written at 3, and then deleted at 7. *)
Definition written_at_3 : Storage MemVfs := (put_versioned 1 row_oid 3 (Some [1; 2]) empty_storage).1.
Definition deleted_at_7 : Storage MemVfs := (put_versioned 1 row_oid 7 None written_at_3).1.

Lemma row_oid_ok : oid_ok row_oid.
Proof. split; [done | ]. unfold row_oid. lit. Qed.

Lemma empty_reads_ok : tables_wf empty_storage /\ keys_ok (view empty_storage).
Proof.
  split; [constructor | ]. intros k v. unfold view, durable_view, tables_view. simpl.
  by rewrite !kv_empty_union, lookup_empty.
Qed.

Lemma written_reads_ok : tables_wf written_at_3 /\ keys_ok (view written_at_3).
Proof.
  apply (put_versioned_reads_ok 1 row_oid 3 (Some [1; 2]) empty_storage);
    [by vm_compute | apply row_oid_ok | apply empty_reads_ok..].
Qed.

Lemma deleted_reads_ok : tables_wf deleted_at_7 /\ keys_ok (view deleted_at_7).
Proof.
  apply (put_versioned_reads_ok 1 row_oid 7 None written_at_3);
    [by vm_compute | apply row_oid_ok | apply written_reads_ok..].
Qed.

Lemma written_newest : newest (view written_at_3) 1 row_oid 9 3 (Some [1; 2]).
Proof.
  destruct (put_versioned_view 1 row_oid 3 (Some [1; 2]) empty_storage written_at_3) as [Hv _]; [by vm_compute | ].
  split_and!; [lit | lia | by rewrite Hv, lookup_insert_eq | ]. intros c' Hc' Hlt.
  rewrite Hv, lookup_insert_ne.
  - unfold view, durable_view, tables_view. simpl. by rewrite !kv_empty_union, lookup_empty.
  - intros Heq.
    assert (3 = c') by (by apply (versioned_key_inj 1 row_oid 3 1 row_oid c'); [lit | lit | apply row_oid_ok | apply row_oid_ok | lit | | ]).
    lia.
Qed.

Lemma versioned_key_roundtrip_order_witness :
  decode_commit_opnum (make_versioned_key 1 row_oid 9) = inl 9 /\
  (klt (make_versioned_key 1 row_oid 9) (make_versioned_key 1 row_oid 3) <-> 3 < 9).
Proof. apply (versioned_key_roundtrip_order 1 row_oid 9 3); [apply row_oid_ok | lit | lit]. Defined.

Lemma get_at_snapshot_correct_witness :
  (get_at_snapshot deleted_at_7 1 row_oid 5 = read_of (Some [1; 2]) <->
   exists c, newest (view deleted_at_7) 1 row_oid 5 c (Some [1; 2])) /\
  get_at_snapshot deleted_at_7 1 row_oid 5 = Found [1; 2].
Proof.
  split; [ | by vm_compute].
  apply (get_at_snapshot_correct deleted_at_7 1 row_oid 5); [apply deleted_reads_ok.. | apply row_oid_ok].
Defined.

Lemma scan_at_snapshot_correct_witness :
  StronglySorted (fun a b => klt a.1 b.1) (scan_at_snapshot deleted_at_7 1 5) /\
  scan_at_snapshot deleted_at_7 1 5 = [(row_oid, [1; 2])] /\ scan_at_snapshot deleted_at_7 1 7 = [].
Proof.
  split; [apply (scan_at_snapshot_correct deleted_at_7 1 5); apply deleted_reads_ok | by vm_compute].
Defined.

Lemma has_version_in_range_correct_witness :
  has_version_in_range deleted_at_7 1 row_oid 3 9 = true <->
  exists c v, u64_ok c /\ 3 < c <= 9 /\ view deleted_at_7 !! make_versioned_key 1 row_oid c = Some v.
Proof.
  apply (has_version_in_range_correct deleted_at_7 1 row_oid 3 9); [apply deleted_reads_ok.. | apply row_oid_ok].
Defined.

Lemma put_versioned_isolated_witness :
  get_at_snapshot deleted_at_7 1 row_oid 5 = get_at_snapshot written_at_3 1 row_oid 5 /\
  get_at_snapshot deleted_at_7 1 row_oid 8 = read_of None.
Proof.
  destruct (put_versioned_isolated 1 row_oid 7 None written_at_3 deleted_at_7) as [Hf Hr];
    [by vm_compute | lit | apply row_oid_ok | lit | apply written_reads_ok.. | ].
  split; [apply Hf; [lit | apply row_oid_ok | left; lia] | apply Hr; [lia | by vm_compute]].
Defined.

Lemma gc_reads_witness :
  get_at_snapshot (delete_versions_older_than 5 written_at_3).1 1 row_oid 9 = Tombstoned.
Proof.
  refine (proj1 (gc_reads 5 1 written_at_3 (delete_versions_older_than 5 written_at_3).1 1 row_oid 9
            _ (proj1 written_reads_ok) (proj2 written_reads_ok) row_oid_ok) 3 (Some [1; 2]) _).
  - by vm_compute.
  - apply written_newest.
Defined.
