(* ===== verification/Engine.v ===== *)
(** kessel-storage: the reads of [Storage] with their data-row dispatch.

    [get] and [scan_range] send data-row keys to the versioned layer at the
    latest snapshot and every other key to the physical view; [bound_in] is
    the accelerated minimum/maximum of a key range.

    Source: src/crates/kessel-storage/src/lib.rs. *)

From Stdlib Require Import ZArith Lia.
From stdpp Require Import base numbers list sorting gmap fin_maps.
From S2P Require Import Prelude BTree Proto Vfs Wal SsTable Storage View Mvcc MvccSpec.

#[local] Open Scope Z_scope.
#[local] Set Warnings "-clear-no-such-hyp".

Section Engine.
Context {W : Type}.
Implicit Types s : Storage W.

Definition get s (key : Key) : Slot :=
  match data_row_dispatch key with
  | Some type_id => get_at_snapshot_arc s type_id (drop 4 key) u64_max
  | None => get_raw s key
  end.

Definition scan_range_rows s (type_id : Z) (lo hi : Key) : list (Key * bytes) :=
  merge_sort key_le
    (List.filter (fun kv => kleb lo kv.1 && kleb kv.1 hi)
       (map (fun ov => (make_key type_id ov.1, ov.2)) (scan_at_snapshot s type_id u64_max))).

Definition scan_range s (lo hi : Key) : list (Key * bytes) :=
  match data_row_dispatch lo, data_row_dispatch hi with
  | Some t_lo, Some t_hi =>
      if t_lo =? t_hi then scan_range_rows s t_lo lo hi else scan_range_raw s lo hi
  | _, _ => scan_range_raw s lo hi
  end.

(** ** [bound_in] *)

(** The successor and predecessor closures. *)
Definition succ (k : Key) : Key := k ++ [0].

(** The decrement with borrow, from the last byte on (the key is reversed). *)
Fixpoint pred_rev (k : Key) : option Key :=
  match k with
  | [] => None
  | b :: k' => if 0 <? b then Some ((b - 1) :: k') else (fun r => 255 :: r) <$> pred_rev k'
  end.

Definition pred (k : Key) : option Key := (fun r => rev r) <$> pred_rev (rev k).

(** The [take] closure: [cand] after seeing key [k]. *)
Definition take_cand (want_max : bool) (lo_c hi_c : Key) (cand : option Key) (k : Key) : option Key :=
  if kltb k lo_c || kltb hi_c k then cand else
  Some (match cand with
        | None => k
        | Some c => if (want_max && kltb c k) || (negb want_max && kltb k c) then k else c
        end).

Definition take_opt (want_max : bool) (lo_c hi_c : Key) (cand o : option Key) : option Key :=
  match o with Some k => take_cand want_max lo_c hi_c cand k | None => cand end.

(** The boundary entry of a table, by binary search. *)
Definition sst_boundary (want_max : bool) (lo_c hi_c : Key) (t : SsTable) : option Key :=
  if negb (overlaps t lo_c hi_c) then None else
  if want_max then
    let pp := partition_point (fun kv => kleb kv.1 hi_c) (sst_entries t) in
    if (0 <? Z.of_nat pp) then fst <$> sst_entries t !! (pp - 1)%nat else None
  else fst <$> sst_entries t !! partition_point (fun kv => kltb kv.1 lo_c) (sst_entries t).

(** The boundary entry of an ordered map's range. *)
Definition map_boundary {V} (want_max : bool) (lo_c hi_c : Key) (m : gmap Key V) : option Key :=
  fst <$> (if want_max then last (bt_range lo_c hi_c m) else head (bt_range lo_c hi_c m)).

Definition boundary s (lo_c hi_c : Key) (want_max : bool) : option Key :=
  let cand := fold_left (fun cand t => take_opt want_max lo_c hi_c cand (sst_boundary want_max lo_c hi_c t))
                (sstables s) None in
  let cand := take_opt want_max lo_c hi_c cand (map_boundary want_max lo_c hi_c (memtable s)) in
  match txn s with
  | Some ov => take_opt want_max lo_c hi_c cand (map_boundary want_max lo_c hi_c ov)
  | None => cand
  end.

Fixpoint bound_loop (fuel : nat) s (lo_c hi_c : Key) (want_max : bool) : option (Key * bytes) :=
  match fuel with
  | O => None
  | S fuel' =>
      if kltb hi_c lo_c then None else
      c ← boundary s lo_c hi_c want_max;
      match get s c with
      | Some v => Some (c, v)
      | None =>
          if want_max then hi' ← pred c; bound_loop fuel' s lo_c hi' want_max
          else bound_loop fuel' s (succ c) hi_c want_max
      end
  end.

Definition bound_in s (lo hi : Key) (want_max : bool) : option (Key * bytes) :=
  bound_loop (Z.to_nat 4096) s lo hi want_max.
End Engine.

(** * Point reads and range scans *)

Section EngineSpec.
Context {W : Type}.
Implicit Types s : Storage W.

Lemma data_row_dispatch_key t o :
  oid_ok o -> 0 < t <= MAX_USER_TYPE_ID -> data_row_dispatch (make_key t o) = Some t.
Proof.
  intros Ho Ht. unfold data_row_dispatch, PREFIX_LEN, CATALOG_TYPE_ID. unfold zlen.
  rewrite make_key_length by done. simpl Z.of_nat. rewrite Z.eqb_refl.
  unfold make_key. rewrite take_app_length' by (by rewrite le_bytes_length).
  unfold MAX_USER_TYPE_ID in *. rewrite le_value_u32 by (unfold u32_ok, u32_max; lia).
  rewrite (proj2 (Z.eqb_neq _ _)) by lia. by rewrite (proj2 (Z.leb_le _ _)) by lia.
Qed.

Lemma data_row_dispatch_inv k t :
  bytes_ok k -> data_row_dispatch k = Some t ->
  0 < t <= MAX_USER_TYPE_ID /\ exists o, oid_ok o /\ k = make_key t o /\ drop 4 k = o.
Proof.
  intros Hk. unfold data_row_dispatch, PREFIX_LEN, CATALOG_TYPE_ID. destruct (zlen k =? 20) eqn:El; [ | done].
  destruct (negb _ && _) eqn:Et; [ | done]. intros [= <-]. zb. unfold zlen in El.
  assert (bytes_ok (take 4 k)) as H4 by (by apply Forall_take).
  assert (length (take 4 k) = 4%nat) as Hl4 by (rewrite length_take; lia).
  pose proof (le_value_bound _ H4) as Hb. split; [lia | ]. exists (drop 4 k). split_and!; [ | | done].
  - split; [rewrite length_drop; lia | by apply Forall_drop].
  - unfold make_key. pose proof (le_bytes_le_value _ H4) as Hle. rewrite Hl4 in Hle. rewrite Hle.
    symmetry. apply take_drop.
Qed.

Lemma get_row s t o :
  oid_ok o -> 0 < t <= MAX_USER_TYPE_ID ->
  get s (make_key t o) = match get_at_snapshot s t o u64_max with Found v => Some v | _ => None end.
Proof.
  intros Ho Ht. unfold get. rewrite data_row_dispatch_key by done.
  unfold make_key. rewrite drop_app_length' by (by rewrite le_bytes_length).
  apply get_at_snapshot_arc_spec.
Qed.

Lemma get_other s k : tables_wf s -> data_row_dispatch k = None -> get s k = mjoin (view s !! k).
Proof. intros Hwf Hd. unfold get. rewrite Hd. by apply get_raw_spec. Qed.

Lemma scan_range_rows_elem s t lo hi k v :
  tables_wf s -> keys_ok (view s) -> 0 < t <= MAX_USER_TYPE_ID ->
  (k, v) ∈ scan_range_rows s t lo hi <->
  kle lo k /\ kle k hi /\ exists o, oid_ok o /\ k = make_key t o /\ get s k = Some v.
Proof.
  intros Hwf Hk Ht. unfold scan_range_rows. rewrite merge_sort_Permutation.
  rewrite list_elem_of_In, List.filter_In, in_map_iff. cbn [fst]. rewrite andb_true_iff, !kleb_iff. split.
  - intros [([o v'] & [= <- <-] & Hin) [Hlo Hhi]]. apply list_elem_of_In in Hin.
    apply scan_at_snapshot_elem in Hin as [Ho Hg]; [ | done | done].
    split_and!; try done. exists o. split_and!; try done. by rewrite get_row, Hg.
  - intros (Hlo & Hhi & o & Ho & -> & Hg). split; [ | done]. exists (o, v). split; [done | ].
    apply list_elem_of_In, scan_at_snapshot_elem; [done | done | ]. split; [done | ].
    rewrite get_row in Hg by done. destruct (get_at_snapshot s t o u64_max); by simplify_eq.
Qed.
End EngineSpec.

Lemma scan_range_rows_sorted {W} (s : Storage W) t lo hi :
  tables_wf s -> keys_ok (view s) -> ssorted (scan_range_rows s t lo hi).
Proof.
  intros Hwf Hk. unfold scan_range_rows. set (l := List.filter _ _).
  assert (NoDup l.*1) as Hnd.
  { unfold l. pose proof (scan_at_snapshot_sorted s t u64_max Hwf Hk) as Hs.
    induction Hs as [ | [o v] r Hs IH Hf]; [constructor | ]. cbn [map List.filter fst].
    destruct (_ && _); [ | done]. rewrite fmap_cons. constructor; [ | done].
    rewrite list_elem_of_fmap. intros ([k v'] & Heq & Hin). cbn [fst] in Heq.
    apply list_elem_of_In, List.filter_In in Hin as [Hin _]. apply in_map_iff in Hin as ([o' v2] & [= <- <-] & Hin).
    apply app_inv_head in Heq. cbn [fst] in Heq. subst o'. apply list_elem_of_In in Hin.
    rewrite Forall_forall in Hf. specialize (Hf _ Hin). simpl in Hf. by apply klt_irrefl in Hf. }
  apply ssorted_of_NoDup; [apply StronglySorted_merge_sort; apply _ | ].
  by rewrite merge_sort_Permutation.
Qed.

(** * The extremal key of a range *)

(** [c] bounds the keys [X]: the largest or the smallest of them. *)
Definition ord (want_max : bool) (c k : Key) : Prop := if want_max then kle k c else kle c k.

Definition bound_of (want_max : bool) (X : Key -> Prop) (o : option Key) : Prop :=
  match o with
  | Some c => X c /\ forall k, X k -> ord want_max c k
  | None => forall k, ~ X k
  end.

(** What a source offers: its bound when that is in range, and no key in
    range otherwise. *)
Definition offers (want_max : bool) (lo hi : Key) (Y : Key -> Prop) (o : option Key) : Prop :=
  match o with
  | Some c => if in_range lo hi c then bound_of want_max Y (Some c) else forall k, ~ Y k
  | None => forall k, ~ Y k
  end.

Lemma bound_of_ext wm (X Y : Key -> Prop) o :
  (forall k, X k <-> Y k) -> bound_of wm X o -> bound_of wm Y o.
Proof.
  intros Hxy. destruct o as [c | ]; simpl.
  - intros [Hc Hk]. split; [by apply Hxy | ]. intros k Hy. by apply Hk, Hxy.
  - intros Hn k Hy. by apply (Hn k), Hxy.
Qed.

Lemma ord_total wm (c k : Key) : ord wm c k \/ ord wm k c.
Proof. unfold ord. destruct wm; apply kle_total. Qed.

Lemma ord_trans wm (a b c : Key) : ord wm a b -> ord wm b c -> ord wm a c.
Proof. unfold ord. destruct wm; eauto using kle_trans. Qed.

Lemma take_opt_bound wm lo hi X Y cand o :
  bound_of wm X cand -> offers wm lo hi Y o ->
  bound_of wm (fun k => X k \/ Y k) (take_opt wm lo hi cand o).
Proof.
  intros HX HY.
  assert ((forall k, ~ Y k) -> bound_of wm (fun k => X k \/ Y k) cand) as Hskip.
  { intros Hn. eapply bound_of_ext; [ | exact HX]. intros k. specialize (Hn k). tauto. }
  destruct o as [c | ]; [ | by apply Hskip]. simpl in HY. unfold take_opt, take_cand.
  assert (kltb c lo || kltb hi c = negb (in_range lo hi c)) as ->.
  { assert (forall x y : Key, kltb x y = negb (kleb y x)) as Hn.
    { intros x y. unfold kltb, kleb. rewrite (kcmp_opp x y). by destruct (kcmp x y). }
    unfold in_range. rewrite !Hn. by destruct (kleb lo c), (kleb c hi). }
  destruct (in_range lo hi c) eqn:Er; simpl; [ | by apply Hskip]. destruct HY as [Hc Hcmin].
  destruct cand as [d | ]; [destruct HX as [Hd Hdmin] | ].
  - assert ((wm && kltb d c) || (negb wm && kltb c d) = true -> ord wm c d) as Ht.
    { unfold ord. destruct wm; simpl; rewrite ?orb_false_r; intros E; kb; by apply klt_kle. }
    assert ((wm && kltb d c) || (negb wm && kltb c d) = false -> ord wm d c) as Hf.
    { unfold ord. destruct wm; simpl; rewrite ?orb_false_r; intros E; by kb. }
    destruct ((wm && kltb d c) || (negb wm && kltb c d)).
    + specialize (Ht eq_refl). split; [by right | ]. intros k [Hk | Hk]; [ | by apply Hcmin].
      eapply ord_trans; [exact Ht | by apply Hdmin].
    + specialize (Hf eq_refl). split; [by left | ]. intros k [Hk | Hk]; [by apply Hdmin | ].
      eapply ord_trans; [exact Hf | by apply Hcmin].
  - split; [by right | ]. intros k [Hk | Hk]; [by destruct (HX k) | by apply Hcmin].
Qed.

(** Ordered maps offer the ends of their range. *)
Lemma ssorted_last {V} (l : list (Key * V)) k v :
  ssorted l -> last l = Some (k, v) -> forall k' v', (k', v') ∈ l -> kle k' k.
Proof.
  intros Hs Hl k' v' Hin. apply last_Some in Hl as [l' ->].
  apply elem_of_app in Hin as [Hin | Hin].
  - apply StronglySorted_app in Hs as (Hs & _ & _). apply klt_kle.
    apply (Hs (k', v') (k, v)); [done | apply list_elem_of_here].
  - apply list_elem_of_singleton in Hin as [= -> ->]. apply kle_refl.
Qed.

Lemma ssorted_head {V} (l : list (Key * V)) k v :
  ssorted l -> head l = Some (k, v) -> forall k' v', (k', v') ∈ l -> kle k k'.
Proof.
  intros Hs Hl k' v' Hin. destruct Hs as [ | a l Hs Hf]; [done | ]. injection Hl as ->.
  apply elem_of_cons in Hin as [[= -> ->] | Hin]; [apply kle_refl | ].
  rewrite Forall_forall in Hf. apply klt_kle. by apply (Hf (k', v')).
Qed.

Lemma map_boundary_bound {V} (wm : bool) (lo hi : Key) (m : gmap Key V) :
  bound_of wm (fun k => is_Some (m !! k) /\ in_range lo hi k = true) (map_boundary wm lo hi m).
Proof.
  assert (forall k, is_Some (m !! k) /\ in_range lo hi k = true <-> exists v, (k, v) ∈ bt_range lo hi m) as Hel.
  { intros k. setoid_rewrite bt_range_elem. unfold in_range. rewrite andb_true_iff, !kleb_iff.
    unfold is_Some. naive_solver. }
  pose proof (bt_range_sorted lo hi m) as Hs. unfold map_boundary.
  eapply bound_of_ext; [intros k; symmetry; apply Hel | ].
  destruct wm.
  - destruct (last (bt_range lo hi m)) as [[k v] | ] eqn:E; simpl.
    + split; [exists v; apply last_Some in E as [l' ->]; apply elem_of_app; right; apply list_elem_of_here | ].
      intros k' [v' Hin]. by eapply ssorted_last.
    + apply last_None in E. intros k [v Hin]. rewrite E in Hin. by apply elem_of_nil in Hin.
  - destruct (bt_range lo hi m) as [ | [k v] l] eqn:E; simpl.
    + intros k [v Hin]. by apply elem_of_nil in Hin.
    + split; [exists v; apply list_elem_of_here | ]. intros k' [v' Hin]. by eapply ssorted_head; [exact Hs | | ].
Qed.

Lemma bound_offers wm lo hi (X : Key -> Prop) o :
  (forall k, X k -> in_range lo hi k = true) -> bound_of wm X o -> offers wm lo hi X o.
Proof. intros Hr HX. destruct o as [c | ]; simpl; [ | done]. by rewrite Hr by apply HX. Qed.

Lemma take_partition_filter (hi : Key) (l : list (Key * Slot)) :
  ssorted l -> take (partition_point (fun kv => kleb kv.1 hi) l) l = filter (fun kv => kleb kv.1 hi) l.
Proof.
  intros Hs. rewrite <- take_upto_filter by done. induction Hs as [ | kv l Hs IH Hf]; [done | ].
  cbn [partition_point take_upto]. destruct (kleb kv.1 hi) eqn:E1, (kltb hi kv.1) eqn:E2; simpl;
    try (by f_equal); try done; kb; destruct (klt_irrefl hi); eauto using klt_kle_trans, kle_klt_trans.
Qed.

Lemma partition_point_le {A} (p : A -> bool) l : (partition_point p l <= length l)%nat.
Proof. induction l as [ | a l IH]; simpl; [lia | ]. destruct (p a); simpl; lia. Qed.

(** A bound outside the range of a source that has no key on the far side of it. *)
Lemma offers_outside wm lo hi (Y : Key -> Prop) c :
  (forall k, Y k -> in_range lo hi k = true /\ ord wm c k) ->
  (if wm then kle c hi else kle lo c) -> in_range lo hi c = false -> forall k, ~ Y k.
Proof.
  intros HY Hc Hr k Hk. destruct (HY k Hk) as [Hin Ho]. unfold in_range, ord in *.
  apply andb_true_iff in Hin as [H1 H2]. kb. apply andb_false_iff in Hr.
  destruct wm; destruct Hr as [Hr | Hr]; kb; destruct (klt_irrefl c);
    eauto using klt_kle_trans, kle_trans, kle_klt_trans.
Qed.

Section TableBoundary.
Context (t : SsTable) (lo hi : Key).
Hypothesis Hwf : table_wf t.

Definition table_key (k : Key) : Prop := is_Some (table_map t !! k) /\ in_range lo hi k = true.

Lemma table_key_elem k :
  table_key k <-> (exists v, (k, v) ∈ sst_entries t) /\ in_range lo hi k = true.
Proof.
  unfold table_key. destruct Hwf as [m ->]. rewrite table_map_of. simpl. by setoid_rewrite bt_list_elem.
Qed.

Lemma table_boundary_max c v :
  last (filter (fun kv => kleb kv.1 hi) (sst_entries t)) = Some (c, v) ->
  offers true lo hi table_key (Some c).
Proof.
  intros Hlast. pose proof (table_wf_sorted t Hwf) as Hs.
  assert ((c, v) ∈ filter (fun kv => kleb kv.1 hi) (sst_entries t)) as Hc
    by (apply last_Some in Hlast as [l' ->]; apply elem_of_app; right; apply list_elem_of_here).
  apply list_elem_of_filter in Hc as [Hch Hc]. apply Is_true_true, kleb_iff in Hch.
  assert (forall k, table_key k -> in_range lo hi k = true /\ ord true c k) as Hmax.
  { intros k [[v' Hk] Hr]%table_key_elem. split; [done | ].
    eapply ssorted_last; [ | exact Hlast | ]; [by apply ssorted_filter | ].
    apply list_elem_of_filter. split; [ | exact Hk]. apply andb_true_iff in Hr as [_ H2]. by apply Is_true_true. }
  simpl. destruct (in_range lo hi c) eqn:Er.
  - split; [apply table_key_elem; eauto | ]. intros k Hk. by apply Hmax.
  - by apply (offers_outside true lo hi _ c).
Qed.

Lemma table_boundary_min c v :
  head (filter (fun kv => kleb lo kv.1) (sst_entries t)) = Some (c, v) ->
  offers false lo hi table_key (Some c).
Proof.
  intros Hhead. pose proof (table_wf_sorted t Hwf) as Hs.
  assert ((c, v) ∈ filter (fun kv => kleb lo kv.1) (sst_entries t)) as Hc
    by (apply head_Some in Hhead as [l' ->]; apply list_elem_of_here).
  apply list_elem_of_filter in Hc as [Hch Hc]. apply Is_true_true, kleb_iff in Hch.
  assert (forall k, table_key k -> in_range lo hi k = true /\ ord false c k) as Hmin.
  { intros k [[v' Hk] Hr]%table_key_elem. split; [done | ].
    eapply ssorted_head; [ | exact Hhead | ]; [by apply ssorted_filter | ].
    apply list_elem_of_filter. split; [ | exact Hk]. apply andb_true_iff in Hr as [H1 _]. by apply Is_true_true. }
  simpl. destruct (in_range lo hi c) eqn:Er.
  - split; [apply table_key_elem; eauto | ]. intros k Hk. by apply Hmin.
  - by apply (offers_outside false lo hi _ c).
Qed.

Lemma no_table_key (l : list (Key * Slot)) :
  (forall k v, (k, v) ∈ sst_entries t -> in_range lo hi k = true -> (k, v) ∈ l) -> l = [] ->
  forall k, ~ table_key k.
Proof.
  intros Hin -> k [[v Hk] Hr]%table_key_elem. specialize (Hin k v Hk Hr). by apply elem_of_nil in Hin.
Qed.

Lemma sst_boundary_offers wm : offers wm lo hi table_key (sst_boundary wm lo hi t).
Proof.
  pose proof (table_wf_sorted t Hwf) as Hs. unfold sst_boundary.
  destruct (overlaps t lo hi) eqn:Eo; cbn [negb].
  2: { apply overlaps_false in Eo; [ | done]. rewrite sst_range_spec in Eo by done.
       refine (no_table_key _ _ Eo). intros k v Hk Hr. apply list_elem_of_filter. by rewrite Is_true_true. }
  destruct wm.
  - pose proof (take_partition_filter hi _ Hs) as Htk.
    pose proof (partition_point_le (fun kv : Key * Slot => kleb kv.1 hi) (sst_entries t)) as Hle.
    set (pp := partition_point _ _) in *. destruct (0 <? Z.of_nat pp) eqn:Epp; zb.
    + destruct (sst_entries t !! (pp - 1)%nat) as [[c v] | ] eqn:E; [ | apply lookup_ge_None in E; lia].
      apply (table_boundary_max c v). rewrite <- Htk, last_lookup, length_take, lookup_take_lt by lia.
      replace (Nat.pred (pp `min` length (sst_entries t))) with (pp - 1)%nat by lia. done.
    + refine (no_table_key (filter (fun kv => kleb kv.1 hi) (sst_entries t)) _ _).
      * intros k v Hk [_ H2]%andb_true_iff. apply list_elem_of_filter. by rewrite Is_true_true.
      * rewrite <- Htk. by replace pp with 0%nat by lia.
  - pose proof (partition_drop_filter lo _ Hs) as Hdr. set (p := partition_point _ _) in *.
    destruct (sst_entries t !! p) as [[c v] | ] eqn:E.
    + apply (table_boundary_min c v). by rewrite <- Hdr, head_lookup, lookup_drop, Nat.add_0_r.
    + refine (no_table_key (filter (fun kv => kleb lo kv.1) (sst_entries t)) _ _).
      * intros k v Hk [H1 _]%andb_true_iff. apply list_elem_of_filter. by rewrite Is_true_true.
      * rewrite <- Hdr. apply drop_ge. by apply lookup_ge_None.
Qed.
End TableBoundary.

(** The candidate of one round is the extremal key of the view in the range. *)
Lemma tables_boundary_bound ts wm lo hi :
  Forall table_wf ts ->
  bound_of wm (fun k => is_Some (tables_view ts !! k) /\ in_range lo hi k = true)
    (fold_left (fun cand t => take_opt wm lo hi cand (sst_boundary wm lo hi t)) ts None).
Proof.
  induction ts as [ | t ts IH] using rev_ind; intros Hwf.
  { intros k [[v Hk] _]. unfold tables_view in Hk. simpl in Hk. by rewrite lookup_empty in Hk. }
  apply Forall_app in Hwf as [Hts Ht]. rewrite Forall_singleton in Ht.
  rewrite fold_left_app. cbn [fold_left]. rewrite tables_view_snoc.
  eapply bound_of_ext; [ | apply take_opt_bound; [by apply IH | by apply sst_boundary_offers]].
  intros k. unfold table_key. cbn beta. rewrite lookup_union.
  destruct (table_map t !! k), (tables_view ts !! k); simpl; unfold is_Some; naive_solver.
Qed.

Lemma boundary_bound {W} (s : Storage W) wm lo hi :
  tables_wf s ->
  bound_of wm (fun k => is_Some (view s !! k) /\ in_range lo hi k = true) (boundary s lo hi wm).
Proof.
  intros Hwf. unfold boundary.
  pose proof (take_opt_bound wm lo hi _ _ _ _ (tables_boundary_bound _ wm lo hi Hwf)
    (bound_offers wm lo hi _ _ (fun k Hk => proj2 Hk) (map_boundary_bound wm lo hi (memtable s)))) as Hb.
  unfold view, durable_view. destruct (txn s) as [ov | ].
  - pose proof (take_opt_bound wm lo hi _ _ _ _ Hb
      (bound_offers wm lo hi _ _ (fun k Hk => proj2 Hk) (map_boundary_bound wm lo hi ov))) as Hb2.
    eapply bound_of_ext; [ | exact Hb2]. intros k. cbn beta. rewrite !lookup_union. simpl. rewrite lookup_fmap.
    destruct (ov !! k), (memtable s !! k), (tables_view (sstables s) !! k); simpl; unfold is_Some; naive_solver.
  - eapply bound_of_ext; [ | exact Hb]. intros k. cbn beta. simpl. rewrite kv_empty_union, lookup_union.
    destruct (memtable s !! k), (tables_view (sstables s) !! k); simpl; unfold is_Some; naive_solver.
Qed.

(** * The loop over tombstoned boundaries *)

Lemma bound_of_unique wm X o o' : bound_of wm X o -> bound_of wm X o' -> o = o'.
Proof.
  destruct o as [c | ], o' as [c' | ]; simpl; try done.
  - intros [Hc Hm] [Hc' Hm']. f_equal. specialize (Hm c' Hc'). specialize (Hm' c Hc). unfold ord in *.
    destruct wm; by apply kle_antisym.
  - intros [Hc _] Hn. by destruct (Hn c).
  - intros Hn [Hc _]. by destruct (Hn c').
Qed.

Lemma boundary_map {W} (s : Storage W) wm lo hi :
  tables_wf s -> boundary s lo hi wm = map_boundary wm lo hi (view s).
Proof.
  intros Hwf. eapply bound_of_unique; [by apply boundary_bound | apply map_boundary_bound].
Qed.

Lemma succ_le (c k : Key) : bytes_ok k -> (kle (succ c) k <-> klt c k).
Proof.
  intros Hk. unfold kle, klt, succ. cbn [kcmp list_OrdKey]. revert k Hk.
  induction c as [ | x c IH]; intros k Hk.
  - destruct Hk as [ | y k Hy Hk]; cbn [app list_cmp kcmp Z_OrdKey]; [done | ]. unfold byte_ok in Hy.
    destruct (Z.compare_spec 0 y); [ | | lia]; [ | done]. destruct k; done.
  - destruct Hk as [ | y k Hy Hk]; cbn [app list_cmp kcmp Z_OrdKey]; [done | ].
    destruct (x ?= y); [by apply IH | done | done].
Qed.

(** The range past its first entry, and before its last one. *)
Lemma bt_range_tail {V} (lo hi : Key) (m : gmap Key V) c v l :
  (forall k u, m !! k = Some u -> bytes_ok k) ->
  bt_range lo hi m = (c, v) :: l -> bt_range (succ c) hi m = l.
Proof.
  intros Hb HL. pose proof (bt_range_sorted lo hi m) as Hs. rewrite HL in Hs.
  inversion Hs as [ | ? ? Hsl Hf]; subst. rewrite Forall_forall in Hf.
  assert (forall k u, (k, u) ∈ (c, v) :: l <-> m !! k = Some u /\ kle lo k /\ kle k hi) as Hel
    by (intros k u; rewrite <- HL; apply bt_range_elem).
  apply ssorted_ext; [apply bt_range_sorted | done | ]. intros [k u]. rewrite bt_range_elem. split.
  - intros (Hk & Hck & Hkh). apply succ_le in Hck; [ | by eapply Hb].
    assert ((k, u) ∈ (c, v) :: l) as Hin.
    { apply Hel. split_and!; try done. destruct (proj1 (Hel c v) (list_elem_of_here _ _)) as (_ & Hlo & _).
      by eapply kle_trans; [exact Hlo | apply klt_kle]. }
    apply elem_of_cons in Hin as [[= -> ->] | Hin]; [by apply klt_irrefl in Hck | done].
  - intros Hin. destruct (proj1 (Hel k u) (list_elem_of_further _ _ _ Hin)) as (Hk & _ & Hkh).
    split_and!; try done. apply succ_le; [by eapply Hb | ]. by apply (Hf (k, u)).
Qed.

(** The decrement is the predecessor among the keys of the same length. *)
Lemma le_value_cons b x : le_value (b :: x) = b + 256 * le_value x.
Proof. with_strategy transparent [le_value] reflexivity. Qed.

Lemma pred_rev_spec x :
  bytes_ok x ->
  match pred_rev x with
  | Some y => bytes_ok y /\ length y = length x /\ le_value y = le_value x - 1
  | None => le_value x = 0
  end.
Proof.
  induction 1 as [ | b x Hb Hx IH]; [by with_strategy transparent [le_value] reflexivity | ]. cbn [pred_rev].
  unfold byte_ok in Hb. destruct (0 <? b) eqn:E; zb.
  - rewrite !le_value_cons. split_and!; [constructor; [unfold byte_ok; lia | done] | done | lia].
  - assert (b = 0) as -> by lia. destruct (pred_rev x) as [y | ]; cbn [fmap option_fmap option_map];
      rewrite !le_value_cons.
    + destruct IH as (Hy & Hl & Hv). split_and!; [constructor; [unfold byte_ok; lia | done] | simpl; lia | lia].
    + lia.
Qed.

Lemma pred_spec c :
  bytes_ok c ->
  match pred c with
  | Some p => bytes_ok p /\ length p = length c /\ be_value p = be_value c - 1
  | None => be_value c = 0
  end.
Proof.
  intros Hc. unfold pred. pose proof (pred_rev_spec (rev c) (Forall_rev Hc)) as Hp.
  destruct (pred_rev (rev c)) as [y | ]; cbn [fmap option_fmap option_map]; [ | exact Hp].
  destruct Hp as (Hy & Hl & Hv). rewrite length_rev in Hl. unfold be_value. rewrite rev_involutive, length_rev.
  split_and!; [by apply Forall_rev | done | done].
Qed.

Lemma be_value_cmp (a b : bytes) :
  bytes_ok a -> bytes_ok b -> length a = length b -> kcmp a b = (be_value a ?= be_value b).
Proof.
  intros Ha Hb Hl. pose proof (be_value_bound _ Ha) as Hva. pose proof (be_value_bound _ Hb) as Hvb.
  unfold zlen in *. rewrite <- Hl in Hvb. rewrite <- (be_bytes_cmp (length a)) by done.
  rewrite be_bytes_be_value by done. rewrite Hl, be_bytes_be_value by done. done.
Qed.

Lemma pred_le c k :
  bytes_ok c -> bytes_ok k -> length k = length c ->
  match pred c with Some p => kle k p <-> klt k c | None => ~ klt k c end.
Proof.
  intros Hc Hk Hl. pose proof (pred_spec c Hc) as Hp. pose proof (be_value_bound _ Hk) as Hb.
  unfold kle, klt. rewrite (be_value_cmp k c) by done. destruct (pred c) as [p | ].
  - destruct Hp as (Hpb & Hpl & Hv). rewrite (be_value_cmp k p) by (done || congruence).
    rewrite Z.compare_le_iff, Z.compare_lt_iff. lia.
  - rewrite Z.compare_lt_iff. lia.
Qed.

Lemma bt_range_init {V} (lo hi : Key) (m : gmap Key V) c v l n :
  (forall k u, m !! k = Some u -> bytes_ok k) ->
  (forall k u, (k, u) ∈ bt_range lo hi m -> length k = n) ->
  bt_range lo hi m = l ++ [(c, v)] ->
  match pred c with
  | Some p => kle p hi /\ bt_range lo p m = l
  | None => l = []
  end.
Proof.
  intros Hb Hn HL. pose proof (bt_range_sorted lo hi m) as Hs. rewrite HL in Hs, Hn.
  assert (forall k u, (k, u) ∈ l ++ [(c, v)] <-> m !! k = Some u /\ kle lo k /\ kle k hi) as Hel
    by (intros k u; rewrite <- HL; apply bt_range_elem).
  apply StronglySorted_app in Hs as (Hlt & Hsl & _).
  assert ((c, v) ∈ l ++ [(c, v)]) as Hc by (apply elem_of_app; right; apply list_elem_of_here).
  assert (bytes_ok c /\ length c = n) as [Hcb Hcn]
    by (split; [apply Hel in Hc as [Hc _]; by eapply Hb | by eapply Hn]).
  assert (forall k u, (k, u) ∈ l -> klt k c /\ bytes_ok k /\ length k = length c) as Hl.
  { intros k u Hin. assert ((k, u) ∈ l ++ [(c, v)]) as Hin' by (apply elem_of_app; by left).
    split_and!.
    - apply (Hlt (k, u) (c, v)); [done | apply list_elem_of_here].
    - apply Hel in Hin' as [Hk _]. by eapply Hb.
    - rewrite Hcn. by eapply Hn. }
  destruct (pred c) as [p | ] eqn:Ep.
  - assert (kle p hi) as Hph.
    { pose proof (pred_spec c Hcb) as Hp. rewrite Ep in Hp. destruct Hp as (Hpb & Hpl & Hpv).
      eapply kle_trans; [ | apply Hel in Hc as (_ & _ & Hch); exact Hch].
      unfold kle. rewrite be_value_cmp by done. rewrite Z.compare_le_iff. lia. }
    split; [done | ]. apply ssorted_ext; [apply bt_range_sorted | done | ]. intros [k u]. rewrite bt_range_elem. split.
    + intros (Hk & Hlo & Hkp).
      assert (length k = length c) as Hkl.
      { rewrite Hcn. apply (Hn k u), Hel. split_and!; [done | done | by eapply kle_trans]. }
      pose proof (pred_le c k Hcb (Hb _ _ Hk) Hkl) as Hpl. rewrite Ep in Hpl. apply Hpl in Hkp as Hkc.
      assert ((k, u) ∈ l ++ [(c, v)]) as Hin by (apply Hel; split_and!; [done | done | by eapply kle_trans]).
      apply elem_of_app in Hin as [Hin | Hin]; [done | ]. apply list_elem_of_singleton in Hin as [= -> ->].
      by apply klt_irrefl in Hkc.
    + intros Hin. destruct (Hl k u Hin) as (Hkc & Hkb & Hkl).
      destruct (proj1 (Hel k u) (proj2 (elem_of_app _ _ _) (or_introl Hin))) as (Hk & Hlo & _).
      split_and!; [done | done | ]. pose proof (pred_le c k Hcb Hkb Hkl) as Hpl. rewrite Ep in Hpl. by apply Hpl.
  - destruct l as [ | [k u] l]; [done | ]. destruct (Hl k u (list_elem_of_here _ _)) as (Hkc & Hkb & Hkl).
    pose proof (pred_le c k Hcb Hkb Hkl) as Hpl. by rewrite Ep in Hpl.
Qed.

Section BoundLoop.
Context {W : Type} (s : Storage W).
Hypothesis Hwf : tables_wf s.
Hypothesis Hkeys : keys_ok (view s).

(** No data-row key in the range. *)
Definition plain_range (lo hi : Key) : Prop :=
  forall k v, view s !! k = Some v -> in_range lo hi k = true -> data_row_dispatch k = None.

Lemma get_plain lo hi c v :
  plain_range lo hi -> (c, v) ∈ bt_range lo hi (view s) -> get s c = v.
Proof.
  intros Hp Hin. apply bt_range_elem in Hin as (Hc & Hlo & Hhi).
  rewrite get_other; [by rewrite Hc | done | ]. apply (Hp c v Hc). unfold in_range.
  apply andb_true_iff. by rewrite !kleb_iff.
Qed.

Lemma plain_range_sub lo hi lo' hi' :
  plain_range lo hi -> kle lo lo' -> kle hi' hi -> plain_range lo' hi'.
Proof.
  intros Hp Hlo Hhi k v Hk Hr. apply (Hp k v Hk). unfold in_range in *. apply andb_true_iff in Hr as [H1 H2].
  kb. apply andb_true_iff. rewrite !kleb_iff. split; by eapply kle_trans.
Qed.

Lemma succ_above (c : Key) : kle c (succ c).
Proof.
  unfold kle, succ. cbn [kcmp list_OrdKey].
  assert (list_cmp (c ++ []) (c ++ [0]) = Lt) as Hc by (by rewrite list_cmp_app).
  rewrite app_nil_r in Hc. by rewrite Hc.
Qed.

Lemma bound_loop_min fuel lo hi :
  plain_range lo hi ->
  bound_loop fuel s lo hi false = head (live_entries (bt_range lo hi (view s))) \/
  bound_loop fuel s lo hi false = None /\ (fuel <= length (bt_range lo hi (view s)))%nat.
Proof.
  revert lo. induction fuel as [ | fuel IH]; intros lo Hp; [right; split; [done | lia] | ].
  cbn [bound_loop]. destruct (kltb hi lo) eqn:Einv; kb.
  { left. rewrite <- bt_list_restrict, restrict_inverted by done. done. }
  rewrite boundary_map by done. unfold map_boundary.
  destruct (bt_range lo hi (view s)) as [ | [c v] l] eqn:HL; [by left | ]. cbn [head fmap option_fmap option_map].
  ob. rewrite (get_plain lo hi c v Hp) by (rewrite HL; apply list_elem_of_here).
  destruct v as [v | ]; [by left | ].
  assert (kle lo c /\ bytes_ok c) as [Hlc Hcb].
  { assert ((c, None) ∈ bt_range lo hi (view s)) as Hin by (rewrite HL; apply list_elem_of_here).
    apply bt_range_elem in Hin as (Hc & Hlc & _). split; [done | by eapply Hkeys]. }
  assert (plain_range (succ c) hi) as Hp'
    by (eapply plain_range_sub; [exact Hp | eapply kle_trans; [exact Hlc | apply succ_above] | apply kle_refl]).
  destruct (IH (succ c) Hp') as [Heq | [Heq Hle]];
    rewrite (bt_range_tail lo hi (view s) c None l Hkeys HL) in *; [left | right]; rewrite Heq; [done | ].
  split; [done | ]. simpl. lia.
Qed.

Lemma live_entries_app l1 l2 : live_entries (l1 ++ l2) = live_entries l1 ++ live_entries l2.
Proof. apply omap_app. Qed.

Lemma bound_loop_max fuel lo hi n :
  plain_range lo hi -> (forall k u, (k, u) ∈ bt_range lo hi (view s) -> length k = n) ->
  bound_loop fuel s lo hi true = last (live_entries (bt_range lo hi (view s))) \/
  bound_loop fuel s lo hi true = None /\ (fuel <= length (bt_range lo hi (view s)))%nat.
Proof.
  revert hi. induction fuel as [ | fuel IH]; intros hi Hp Hn; [right; split; [done | lia] | ].
  cbn [bound_loop]. destruct (kltb hi lo) eqn:Einv; kb.
  { left. rewrite <- bt_list_restrict, restrict_inverted by done. done. }
  rewrite boundary_map by done. unfold map_boundary.
  destruct (bt_range lo hi (view s)) as [ | [c v] l _] eqn:HL using rev_ind; [by left | ].
  rewrite last_snoc. cbn [fmap option_fmap option_map fst]. ob.
  rewrite (get_plain lo hi c v Hp) by (rewrite HL; apply elem_of_app; right; apply list_elem_of_here).
  rewrite live_entries_app. destruct v as [v | ];
    [left; change (live_entries [(c, Some v)]) with [(c, v)]; by rewrite last_snoc | ].
  change (live_entries [(c, None)]) with (@nil (Key * bytes)). rewrite app_nil_r.
  rewrite <- HL in Hn. pose proof (bt_range_init lo hi (view s) c None l n Hkeys Hn HL) as Hi.
  destruct (pred c) as [p | ]; [ | left; by rewrite Hi]. destruct Hi as [Hph Hi]. ob.
  assert (forall k u, (k, u) ∈ bt_range lo p (view s) -> length k = n) as Hn'.
  { intros k u Hin. apply (Hn k u). rewrite HL, <- Hi. apply elem_of_app. by left. }
  destruct (IH p (plain_range_sub _ _ _ _ Hp (kle_refl lo) Hph) Hn') as [Heq | [Heq Hle]];
    rewrite Heq, Hi in *; [by left | right]. split; [done | ]. rewrite length_app. simpl. lia.
Qed.
End BoundLoop.

(** * Correctness of the reads *)

(** [get] of a data-row key is the newest version of the row, and of any
    other key the newest physical slot; a deleted or absent key reads as
    nothing in both. *)
Theorem get_correct {W} (s : Storage W) k :
  tables_wf s -> keys_ok (view s) -> bytes_ok k ->
  match data_row_dispatch k with
  | Some t => forall v, get s k = Some v <-> exists c, newest (view s) t (drop 4 k) u64_max c (Some v)
  | None => get s k = mjoin (view s !! k)
  end.
Proof.
  intros Hwf Hk Hb. destruct (data_row_dispatch k) as [t | ] eqn:Hd; [ | by apply get_other].
  destruct (data_row_dispatch_inv k t Hb Hd) as (Ht & o & Ho & -> & ->). intros v. rewrite get_row by done.
  pose proof (get_at_snapshot_cases s t o u64_max Hwf Hk Ho) as Hc. split.
  - intros Hg. destruct (get_at_snapshot s t o u64_max); by simplify_eq.
  - intros (c & Hn). by rewrite (get_at_snapshot_newest s t o u64_max c (Some v)).
Qed.

(** Range scans agree with point reads. Between two bounds of one user
    type, [scan_range] yields exactly the rows in the bounds that [get] finds,
    in key order; on any other bounds it yields exactly the live physical
    entries in the bounds, in key order. *)
Theorem scan_range_correct {W} (s : Storage W) lo hi :
  tables_wf s -> keys_ok (view s) -> bytes_ok lo ->
  ssorted (scan_range s lo hi) /\
  forall k v, (k, v) ∈ scan_range s lo hi <->
    kle lo k /\ kle k hi /\
    match data_row_dispatch lo with
    | Some t => if decide (data_row_dispatch hi = Some t)
                then (exists o, oid_ok o /\ k = make_key t o) /\ get s k = Some v
                else view s !! k = Some (Some v)
    | None => view s !! k = Some (Some v)
    end.
Proof.
  intros Hwf Hk Hlo.
  assert (ssorted (scan_range_raw s lo hi) /\ forall k v, (k, v) ∈ scan_range_raw s lo hi <->
            kle lo k /\ kle k hi /\ view s !! k = Some (Some v)) as Hraw.
  { rewrite scan_range_raw_spec by done. split; [apply live_entries_sorted, bt_range_sorted | ].
    intros k v. rewrite live_entries_elem, bt_range_elem. tauto. }
  unfold scan_range. destruct (data_row_dispatch lo) as [t | ] eqn:Hd; [ | done].
  destruct (decide (data_row_dispatch hi = Some t)) as [Heq | Hne].
  2: { destruct (data_row_dispatch hi) as [t' | ]; [ | done]. destruct (t =? t') eqn:E; zb; congruence. }
  rewrite Heq, Z.eqb_refl. destruct (data_row_dispatch_inv lo t Hlo Hd) as [Ht _].
  split; [by apply scan_range_rows_sorted | ]. intros k v. rewrite scan_range_rows_elem by done. naive_solver.
Qed.

(** [bound_in] is an accelerated scan: on a range of plain keys with fewer
    than 4096 entries it returns exactly the first live entry of the range, or
    for the maximum, on keys of one width, exactly the last; on a longer range
    it returns that entry or gives up with nothing, never another entry. *)
Theorem bound_in_correct {W} (s : Storage W) lo hi want_max n :
  tables_wf s -> keys_ok (view s) -> plain_range s lo hi ->
  (want_max = true -> forall k u, (k, u) ∈ bt_range lo hi (view s) -> length k = n) ->
  let extremal := (if want_max then last else head) (live_entries (bt_range lo hi (view s))) in
  (bound_in s lo hi want_max = extremal \/ bound_in s lo hi want_max = None) /\
  (zlen (bt_range lo hi (view s)) < 4096 -> bound_in s lo hi want_max = extremal).
Proof.
  intros Hwf Hk Hp Hn. cbv zeta. unfold bound_in, zlen.
  assert (forall r e : option (Key * bytes), r = e \/ r = None /\ (Z.to_nat 4096 <= length (bt_range lo hi (view s)))%nat ->
            (r = e \/ r = None) /\ (Z.of_nat (length (bt_range lo hi (view s))) < 4096 -> r = e)) as Hcut.
  { intros r e [-> | [-> Hl]]; split; auto. intros Hlt. lia. }
  apply Hcut. destruct want_max; [by apply (bound_loop_max s Hwf Hk _ lo hi n); [ | apply Hn] | by apply bound_loop_min].
Qed.

(** ** Applied to a sample *)

Definition index_1 : Storage MemVfs := (delete_key 1 [255; 255; 5] written_at_3).1.
Definition index_2 : Storage MemVfs := (put 2 [255; 255; 7] [6] index_1).1.
Definition two_index_keys : Storage MemVfs := (put 3 [255; 255; 9] [8] index_2).1.

Lemma make_key_ok t o : oid_ok o -> bytes_ok (make_key t o).
Proof. intros [_ Ho]. unfold make_key. apply bytes_ok_app. split; [apply le_bytes_ok | done]. Qed.

Lemma get_correct_witness :
  get written_at_3 (make_key 1 row_oid) = Some [1; 2] /\
  (get written_at_3 (make_key 1 row_oid) = Some [1; 2] <->
   exists c, newest (view written_at_3) 1 row_oid u64_max c (Some [1; 2])).
Proof.
  split; [by vm_compute | ].
  exact (get_correct written_at_3 (make_key 1 row_oid) (proj1 written_reads_ok) (proj2 written_reads_ok)
           (make_key_ok 1 row_oid row_oid_ok) [1; 2]).
Defined.

Lemma scan_range_correct_witness :
  ssorted (scan_range written_at_3 (make_key 1 (replicate 16 0)) (make_key 1 (replicate 16 255))) /\
  scan_range written_at_3 (make_key 1 (replicate 16 0)) (make_key 1 (replicate 16 255)) =
    [(make_key 1 row_oid, [1; 2])].
Proof.
  split; [ | by vm_compute].
  apply (scan_range_correct written_at_3 (make_key 1 (replicate 16 0)) (make_key 1 (replicate 16 255)));
    [apply written_reads_ok.. | apply bytes_ok_app; split; [apply le_bytes_ok | lit]].
Defined.

Lemma put_reads_ok {W} `{Vfs W} op k v (s s' : Storage W) :
  put op k v s = (s', Ret tt) -> data_row_dispatch k = None -> bytes_ok k ->
  tables_wf s /\ keys_ok (view s) -> tables_wf s' /\ keys_ok (view s').
Proof. unfold put. intros Hp Hd Hb [Hwf Hk]. rewrite Hd in Hp. by eapply commit_reads_ok. Qed.

Lemma delete_reads_ok {W} `{Vfs W} op k (s s' : Storage W) :
  delete_key op k s = (s', Ret tt) -> data_row_dispatch k = None -> bytes_ok k ->
  tables_wf s /\ keys_ok (view s) -> tables_wf s' /\ keys_ok (view s').
Proof. unfold delete_key. intros Hp Hd Hb [Hwf Hk]. rewrite Hd in Hp. by eapply commit_reads_ok. Qed.

Lemma index_reads_ok : tables_wf two_index_keys /\ keys_ok (view two_index_keys).
Proof.
  apply (put_reads_ok 3 [255; 255; 9] [8] index_2); [by vm_compute | by vm_compute | lit | ].
  apply (put_reads_ok 2 [255; 255; 7] [6] index_1); [by vm_compute | by vm_compute | lit | ].
  apply (delete_reads_ok 1 [255; 255; 5] written_at_3); [by vm_compute | by vm_compute | lit | ].
  apply written_reads_ok.
Qed.

Lemma index_plain : plain_range two_index_keys [255; 255; 0] [255; 255; 255].
Proof.
  intros k v Hk Hr. destruct (data_row_dispatch k) as [t | ] eqn:Hd; [exfalso | done].
  assert ((k, v) ∈ bt_range [255; 255; 0] [255; 255; 255] (view two_index_keys)) as Hin.
  { apply bt_range_elem. split; [done | ]. apply andb_true_iff in Hr. by rewrite !kleb_iff in Hr. }
  assert (bt_range [255; 255; 0] [255; 255; 255] (view two_index_keys) =
            [([255; 255; 5], None); ([255; 255; 7], Some [6]); ([255; 255; 9], Some [8])]) as Heq by (by vm_compute).
  rewrite Heq in Hin. clear Hk Hr Heq.
  repeat (apply elem_of_cons in Hin as [[= -> _] | Hin]; [vm_compute in Hd; discriminate Hd | ]).
  by apply elem_of_nil in Hin.
Qed.

Lemma bound_in_correct_witness :
  bound_in two_index_keys [255; 255; 0] [255; 255; 255] false = Some ([255; 255; 7], [6]).
Proof.
  rewrite (proj2 (bound_in_correct two_index_keys [255; 255; 0] [255; 255; 255] false 3
            (proj1 index_reads_ok) (proj2 index_reads_ok) index_plain ltac:(done)));
    by vm_compute.
Defined.
