(* ===== verification/Ssi.v ===== *)
(** kessel-storage, module ssi: detection of dangerous structures.

    Serializable commits keep, per committed transaction, the keys it read and
    wrote and two tags saying whether it has an incoming and an outgoing
    rw-antidependency. A commit walks the concurrent records, tags them and is
    refused when it, or a record it touched, has both edges.

    [tag_record] and [verdict] are the reference meaning of the walk; the loop
    of the source is proved to compute them, and the two ways of pruning the
    window are related to it.

    Source: src/crates/kessel-storage/src/ssi.rs. *)

From Stdlib Require Import ZArith Lia.
From stdpp Require Import base numbers list sorting gmap fin_maps.
From S2P Require Import Prelude BTree.

#[local] Open Scope Z_scope.
#[local] Set Warnings "-clear-no-such-hyp".

(** A row: type id and object id. *)
Abbreviation RowKey := (Z * bytes)%type.

Record PendingTxRecord := {
  rec_snapshot_opnum : Z;
  rec_read_set : list RowKey;
  rec_write_set : list RowKey;
  rec_has_outgoing_rw : bool;
  rec_has_incoming_rw : bool
}.

Abbreviation PendingTxs := (gmap Z PendingTxRecord).

(** The two-pointer walk; the lists are the slices from [i] and [j] on. *)
Fixpoint sorted_vec_intersects {T} `{OrdKey T} (a b : list T) : bool :=
  match a with
  | [] => false
  | x :: a' =>
      (fix go (b : list T) : bool :=
         match b with
         | [] => false
         | y :: b' =>
             match kcmp x y with
             | Eq => true
             | Lt => sorted_vec_intersects a' b
             | Gt => go b'
             end
         end) b
  end.

Definition set_incoming (r : PendingTxRecord) : PendingTxRecord :=
  {| rec_snapshot_opnum := rec_snapshot_opnum r; rec_read_set := rec_read_set r;
     rec_write_set := rec_write_set r; rec_has_outgoing_rw := rec_has_outgoing_rw r;
     rec_has_incoming_rw := true |}.
Definition set_outgoing (r : PendingTxRecord) : PendingTxRecord :=
  {| rec_snapshot_opnum := rec_snapshot_opnum r; rec_read_set := rec_read_set r;
     rec_write_set := rec_write_set r; rec_has_outgoing_rw := true;
     rec_has_incoming_rw := rec_has_incoming_rw r |}.

(** The locals of the walk, and one iteration of it. *)
Record Walk := {
  w_pending : PendingTxs;
  w_has_outgoing : bool;
  w_has_incoming : bool;
  w_other : Z
}.

Definition walk_step (read_set write_set : list RowKey) (w : Walk)
    (c : Z * (list RowKey * list RowKey)) : Walk :=
  let '(a_commit, (a_write_set, a_read_set)) := c in
  let w :=
    if sorted_vec_intersects a_write_set read_set
    then {| w_pending := alter set_incoming a_commit (w_pending w); w_has_outgoing := true;
            w_has_incoming := w_has_incoming w; w_other := a_commit |}
    else w in
  if sorted_vec_intersects write_set a_read_set
  then {| w_pending := alter set_outgoing a_commit (w_pending w);
          w_has_outgoing := w_has_outgoing w; w_has_incoming := true; w_other := a_commit |}
  else w.

(** The second check: the first touched record with both tags. *)
Fixpoint find_pivot (pending_txs : PendingTxs) (commits : list Z) : option Z :=
  match commits with
  | [] => None
  | a_commit :: rest =>
      match pending_txs !! a_commit with
      | Some rec => if rec_has_incoming_rw rec && rec_has_outgoing_rw rec then Some a_commit
                    else find_pivot pending_txs rest
      | None => find_pivot pending_txs rest
      end
  end.

Definition detect_dangerous_structure (pending_txs : PendingTxs) (snapshot_opnum : Z)
    (read_set write_set : list RowKey) (commit_opnum : Z) : PendingTxs * option Z :=
  let lo_range := sat_add64 snapshot_opnum 1 in
  let hi_range := commit_opnum in
  if hi_range <=? lo_range then (pending_txs, None) else
  let concurrent := (fun kv => (kv.1, (rec_write_set kv.2, rec_read_set kv.2)))
                      <$> bt_range_excl lo_range hi_range pending_txs in
  let w := fold_left (walk_step read_set write_set) concurrent
             {| w_pending := pending_txs; w_has_outgoing := false; w_has_incoming := false; w_other := 0 |} in
  if w_has_outgoing w && w_has_incoming w then (w_pending w, Some (w_other w))
  else (w_pending w, find_pivot (w_pending w) concurrent.*1).

Definition prune_pending_txs (pending_txs : PendingTxs) (current_commit_opnum max_tx_age : Z) : PendingTxs :=
  bt_split_off (sat_sub64 current_commit_opnum max_tx_age) pending_txs.

Definition prune_pending_txs_by_watermark (pending_txs : PendingTxs) (low_water_mark : Z) : PendingTxs :=
  bt_split_off low_water_mark pending_txs.

(** * The two-pointer walk *)

Section Intersect.
Context {T : Type} `{OrdKey T}.
Implicit Types a b : list T.

Definition overlap (a b : list T) : Prop := exists x, x ∈ a /\ x ∈ b.

Lemma intersects_nil_r a : sorted_vec_intersects a [] = false.
Proof. by destruct a. Qed.

Lemma intersects_cons x a y b :
  sorted_vec_intersects (x :: a) (y :: b) =
  match kcmp x y with
  | Eq => true
  | Lt => sorted_vec_intersects a (y :: b)
  | Gt => sorted_vec_intersects (x :: a) b
  end.
Proof. reflexivity. Qed.

(** An element below the head of a sorted list is not in it. *)
Lemma below_head (x y : T) l : StronglySorted kle (y :: l) -> klt x y -> x ∉ y :: l.
Proof.
  intros Hs Hlt Hin. inversion Hs as [ | ?? _ Hf]; subst. rewrite Forall_forall in Hf.
  apply elem_of_cons in Hin as [-> | Hin]; [by apply klt_irrefl in Hlt | ].
  destruct (klt_irrefl x). eapply klt_kle_trans; [exact Hlt | by apply Hf].
Qed.

Lemma overlap_drop_l x a b : x ∉ b -> overlap (x :: a) b <-> overlap a b.
Proof. unfold overlap. set_solver. Qed.
Lemma overlap_drop_r a y b : y ∉ a -> overlap a (y :: b) <-> overlap a b.
Proof. unfold overlap. set_solver. Qed.

Lemma intersects_overlap a b :
  StronglySorted kle a -> StronglySorted kle b ->
  sorted_vec_intersects a b = true <-> overlap a b.
Proof.
  intros Ha. revert b. induction a as [ | x a IHa]; intros b Hb.
  { split; [done | intros (z & Hz & _); by apply elem_of_nil in Hz]. }
  induction b as [ | y b IHb].
  { split; [done | intros (z & _ & Hz); by apply elem_of_nil in Hz]. }
  inversion Ha as [ | ?? Ha' _]; subst. inversion Hb as [ | ?? Hb' _]; subst.
  rewrite intersects_cons. destruct (kcmp x y) eqn:E.
  - apply kcmp_eq in E as ->. split; [ | done]. intros _. exists y.
    split; apply list_elem_of_here.
  - rewrite IHa, overlap_drop_l by (done || by apply below_head). done.
  - rewrite IHb, overlap_drop_r; [done | | done]. apply below_head; [done | ].
    unfold klt. by rewrite kcmp_opp, E.
Qed.
End Intersect.

(** * The walk *)

Section Detect.
Context (read_set write_set : list RowKey).
Implicit Types (p : PendingTxs) (r : PendingTxRecord) (w : Walk).

(** The committing transaction read what the record wrote; wrote what it read. *)
Definition edge_to r : bool := sorted_vec_intersects (rec_write_set r) read_set.
Definition edge_from r : bool := sorted_vec_intersects write_set (rec_read_set r).

Definition tag_record r : PendingTxRecord :=
  {| rec_snapshot_opnum := rec_snapshot_opnum r; rec_read_set := rec_read_set r;
     rec_write_set := rec_write_set r;
     rec_has_outgoing_rw := rec_has_outgoing_rw r || edge_from r;
     rec_has_incoming_rw := rec_has_incoming_rw r || edge_to r |}.

Definition both_tags r : bool := rec_has_incoming_rw r && rec_has_outgoing_rw r.

Definition item (kv : Z * PendingTxRecord) : Z * (list RowKey * list RowKey) :=
  (kv.1, (rec_write_set kv.2, rec_read_set kv.2)).

Lemma walk_step_spec w k r :
  w_pending w !! k = Some r ->
  let w' := walk_step read_set write_set w (item (k, r)) in
  w_pending w' = <[k := tag_record r]> (w_pending w) /\
  w_has_outgoing w' = w_has_outgoing w || edge_to r /\
  w_has_incoming w' = w_has_incoming w || edge_from r.
Proof.
  intros Hk. unfold walk_step, item, tag_record, edge_to, edge_from. cbn [fst snd].
  destruct r as [sn rs ws o i]. cbn [rec_write_set rec_read_set] in *.
  destruct (sorted_vec_intersects ws read_set), (sorted_vec_intersects write_set rs);
    cbn -[alter insert]; rewrite ?orb_true_r, ?orb_false_r; split_and!; try done;
    apply map_eq; intros j; destruct (decide (j = k)) as [-> | Hne];
    rewrite ?lookup_alter_eq, ?lookup_alter_ne, ?lookup_insert_eq, ?lookup_insert_ne by done;
    rewrite ?Hk; done.
Qed.

Lemma walk_spec l w :
  NoDup l.*1 -> (forall k r, (k, r) ∈ l -> w_pending w !! k = Some r) ->
  let w' := fold_left (walk_step read_set write_set) (item <$> l) w in
  (forall k r, (k, r) ∈ l -> w_pending w' !! k = Some (tag_record r)) /\
  (forall k, k ∉ l.*1 -> w_pending w' !! k = w_pending w !! k) /\
  w_has_outgoing w' = w_has_outgoing w || existsb (fun kv => edge_to kv.2) l /\
  w_has_incoming w' = w_has_incoming w || existsb (fun kv => edge_from kv.2) l.
Proof.
  revert w. induction l as [ | [k0 r0] l IH]; intros w Hnd Hl.
  { cbn. rewrite !orb_false_r. split_and!; try done. intros k r Hin. by apply elem_of_nil in Hin. }
  rewrite fmap_cons in Hnd. apply NoDup_cons in Hnd as [Hni Hnd]. cbn [fst] in Hni.
  rewrite fmap_cons. cbn [fold_left existsb snd].
  destruct (walk_step_spec w k0 r0) as (Hp & Ho & Hi); [apply Hl, list_elem_of_here | ].
  set (w1 := walk_step _ _ w _) in *. destruct (IH w1) as (H1 & H2 & H3 & H4); [done | | ].
  - intros k r Hin. rewrite Hp, lookup_insert_ne by (intros ->; apply Hni, list_elem_of_fmap; by exists (k, r)).
    apply Hl. by apply list_elem_of_further.
  - rewrite Ho in H3. rewrite Hi in H4. rewrite !orb_assoc. split_and!; [ | | exact H3 | exact H4].
    + intros k r Hin. apply elem_of_cons in Hin as [[= -> ->] | Hin]; [ | by apply H1].
      rewrite H2, Hp by done. apply lookup_insert_eq.
    + intros k Hk. rewrite fmap_cons in Hk. apply not_elem_of_cons in Hk as [Hne Hk].
      rewrite H2, Hp, lookup_insert_ne by (done || by apply not_eq_sym). done.
Qed.

Lemma find_pivot_Some p ks k :
  find_pivot p ks = Some k -> k ∈ ks /\ exists r, p !! k = Some r /\ both_tags r = true.
Proof.
  induction ks as [ | k0 ks IH]; [done | ]. cbn [find_pivot]. unfold both_tags in *.
  destruct (p !! k0) as [r | ] eqn:E; [destruct (_ && _) eqn:B | ]; intros Hf.
  - injection Hf as ->. split; [apply list_elem_of_here | eauto].
  - destruct (IH Hf). split; [by apply list_elem_of_further | done].
  - destruct (IH Hf). split; [by apply list_elem_of_further | done].
Qed.

Lemma find_pivot_None p ks k r :
  find_pivot p ks = None -> k ∈ ks -> p !! k = Some r -> both_tags r = false.
Proof.
  induction ks as [ | k0 ks IH]; intros Hf Hin Hk; [by apply elem_of_nil in Hin | ].
  cbn [find_pivot] in Hf. unfold both_tags in *.
  destruct (p !! k0) as [r0 | ] eqn:E; [dcase_in Hf; [done | ] | ];
    (apply elem_of_cons in Hin as [-> | Hin]; [congruence | by apply IH]).
Qed.
End Detect.

(** The commits the walk looks at. *)
Definition concurrent_with (snapshot_opnum commit_opnum k : Z) : Prop :=
  sat_add64 snapshot_opnum 1 <= k < commit_opnum.

#[global] Instance concurrent_with_dec s c k : Decision (concurrent_with s c k).
Proof. unfold concurrent_with. apply _. Defined.

(** The records after the walk. *)
Definition walked (rs ws : list RowKey) (snap commit : Z) (p : PendingTxs) : PendingTxs :=
  map_imap (fun k r => Some (if decide (concurrent_with snap commit k) then tag_record rs ws r else r)) p.

(** The committing transaction, or a concurrent record, has both edges. *)
Definition dangerous (rs ws : list RowKey) (snap commit : Z) (p : PendingTxs) : Prop :=
  ((exists k r, concurrent_with snap commit k /\ p !! k = Some r /\ edge_to rs r = true) /\
   (exists k r, concurrent_with snap commit k /\ p !! k = Some r /\ edge_from ws r = true)) \/
  exists k r, concurrent_with snap commit k /\ p !! k = Some r /\ both_tags (tag_record rs ws r) = true.

Lemma lookup_walked rs ws snap commit p k :
  walked rs ws snap commit p !! k =
  (fun r => if decide (concurrent_with snap commit k) then tag_record rs ws r else r) <$> p !! k.
Proof. unfold walked. rewrite map_lookup_imap. destruct (p !! k); reflexivity. Qed.

Lemma concurrent_elem snap commit (p : PendingTxs) k r :
  (k, r) ∈ bt_range_excl (sat_add64 snap 1) commit p <-> p !! k = Some r /\ concurrent_with snap commit k.
Proof. rewrite bt_range_excl_elem, kle_Z, klt_Z. done. Qed.

Lemma existsb_concurrent (f : PendingTxRecord -> bool) snap commit (p : PendingTxs) :
  existsb (fun kv => f kv.2) (bt_range_excl (sat_add64 snap 1) commit p) = true <->
  exists k r, concurrent_with snap commit k /\ p !! k = Some r /\ f r = true.
Proof.
  rewrite existsb_exists. split.
  - intros ([k r] & Hin & Hf). apply list_elem_of_In, concurrent_elem in Hin as [? ?]. eauto.
  - intros (k & r & Hc & Hk & Hf). exists (k, r). split; [ | done].
    by apply list_elem_of_In, concurrent_elem.
Qed.

(** The whole detector: the records it leaves and when it refuses. *)
Lemma detect_spec rs ws snap commit p :
  let '(p', v) := detect_dangerous_structure p snap rs ws commit in
  p' = walked rs ws snap commit p /\ (is_Some v <-> dangerous rs ws snap commit p).
Proof.
  unfold detect_dangerous_structure. destruct (commit <=? sat_add64 snap 1) eqn:E; zb.
  { split.
    - apply map_eq. intros k. rewrite lookup_walked. destruct (p !! k); [ | done]. simpl.
      rewrite decide_False; [done | ]. unfold concurrent_with. lia.
    - split; [by intros [? ?] | ]. unfold dangerous, concurrent_with.
      intros [[(k & r & Hc & _) _] | (k & r & Hc & _)]; lia. }
  set (l := bt_range_excl _ _ _). fold item.
  destruct (walk_spec rs ws l {| w_pending := p; w_has_outgoing := false; w_has_incoming := false; w_other := 0 |})
    as (H1 & H2 & H3 & H4); [apply bt_range_excl_NoDup | by intros k r [? _]%concurrent_elem | ].
  cbn [w_pending w_has_outgoing w_has_incoming orb] in *.
  change (fun kv : Z * PendingTxRecord => (kv.1, (rec_write_set kv.2, rec_read_set kv.2))) with item.
  set (w := fold_left _ _ _) in *.
  assert (w_pending w = walked rs ws snap commit p) as Hp.
  { apply map_eq. intros k. rewrite lookup_walked. destruct (decide (k ∈ l.*1)) as [Hin | Hni].
    - apply list_elem_of_fmap in Hin as ([k' r] & -> & Hin). cbn [fst]. rewrite (H1 _ _ Hin).
      apply concurrent_elem in Hin as [-> Hc]. simpl. by rewrite decide_True.
    - rewrite H2 by done. destruct (p !! k) as [r | ] eqn:Hk; [ | done]. simpl.
      rewrite decide_False; [done | ]. intros Hc. apply Hni, list_elem_of_fmap. exists (k, r).
      split; [done | by apply concurrent_elem]. }
  unfold dangerous. pose proof (existsb_concurrent (edge_to rs) snap commit p) as He1.
  pose proof (existsb_concurrent (edge_from ws) snap commit p) as He2. fold l in He1, He2.
  rewrite <- H3 in He1. rewrite <- H4 in He2. clear H3 H4.
  destruct (w_has_outgoing w && w_has_incoming w) eqn:Eb;
    (split; [exact Hp | rewrite <- He1, <- He2; clear He1 He2]).
  { zb. split; [by left | eauto]. }
  replace ((item <$> l).*1) with (l.*1) by (rewrite <- list_fmap_compose; by apply list_fmap_ext).
  split.
  - intros [k Hf]. right. apply find_pivot_Some in Hf as [Hin (r & Hr & Hb)].
    apply list_elem_of_fmap in Hin as ([k' r'] & -> & Hin). cbn [fst] in Hr.
    rewrite (H1 _ _ Hin) in Hr. injection Hr as <-. apply concurrent_elem in Hin as [? ?]. eauto.
  - intros [[Ho Hi] | (k & r & Hc & Hk & Hb)]; [rewrite Ho, Hi in Eb; done | ].
    destruct (find_pivot _ _) as [k0 | ] eqn:Hf; [by eexists | exfalso].
    assert ((k, r) ∈ l) as Hin by (by apply concurrent_elem).
    rewrite (find_pivot_None _ _ k (tag_record rs ws r) Hf) in Hb; [done | | by apply H1].
    apply list_elem_of_fmap. by exists (k, r).
Qed.

(** The locals of the walk do not depend on the records' tags. *)
Lemma walk_locals rs ws l w w' :
  w_has_outgoing w = w_has_outgoing w' -> w_has_incoming w = w_has_incoming w' -> w_other w = w_other w' ->
  let u := fold_left (walk_step rs ws) l w in
  let u' := fold_left (walk_step rs ws) l w' in
  w_has_outgoing u = w_has_outgoing u' /\ w_has_incoming u = w_has_incoming u' /\ w_other u = w_other u'.
Proof.
  revert w w'. induction l as [ | [k [aw ar]] l IH]; intros w w' Ho Hi Hk; [done | ].
  cbn [fold_left]. apply IH; unfold walk_step; repeat case_match; done.
Qed.

(** The record named is one the walk has seen. *)
Lemma walk_other rs ws l w :
  let u := fold_left (walk_step rs ws) l w in
  w_other u ∈ l.*1 \/
  (w_has_outgoing u = w_has_outgoing w /\ w_has_incoming u = w_has_incoming w /\ w_other u = w_other w).
Proof.
  revert w. induction l as [ | [k [aw ar]] l IH]; intros w; [by right | ].
  cbn [fold_left]. rewrite fmap_cons. cbn [fst].
  destruct (IH (walk_step rs ws w (k, (aw, ar)))) as [Hin | (Ho & Hi & Hk)].
  { left. by apply list_elem_of_further. }
  rewrite Ho, Hi, Hk. unfold walk_step.
  repeat case_match; cbn; (by left; apply list_elem_of_here) || by right.
Qed.

Lemma item_keys l : (item <$> l).*1 = l.*1.
Proof. rewrite <- list_fmap_compose. by apply list_fmap_ext. Qed.

Lemma detect_names_concurrent rs ws snap commit p p' k :
  detect_dangerous_structure p snap rs ws commit = (p', Some k) ->
  concurrent_with snap commit k /\ is_Some (p !! k).
Proof.
  unfold detect_dangerous_structure. destruct (commit <=? _); [done | ].
  change (fun kv : Z * PendingTxRecord => (kv.1, (rec_write_set kv.2, rec_read_set kv.2))) with item.
  set (l := bt_range_excl _ _ _). intros Hd.
  cut (k ∈ l.*1).
  { intros ([? r] & -> & [Hk Hc]%concurrent_elem)%list_elem_of_fmap. eauto. }
  rewrite <- item_keys. dcase_in Hd; injection Hd as <- Hk.
  - pose proof (walk_other rs ws (item <$> l)
      {| w_pending := p; w_has_outgoing := false; w_has_incoming := false; w_other := 0 |}) as Ho.
    cbn [w_has_outgoing w_has_incoming w_other] in Ho. zb. rewrite <- Hk.
    destruct Ho as [ | (Ho & _)]; [done | congruence].
  - by apply find_pivot_Some in Hk as [? _].
Qed.

Lemma find_pivot_ext (p q : PendingTxs) ks :
  (forall k, k ∈ ks -> p !! k = q !! k) -> find_pivot p ks = find_pivot q ks.
Proof.
  induction ks as [ | k ks IH]; intros Hext; [done | ]. cbn [find_pivot].
  rewrite (Hext k), IH; [done | | apply list_elem_of_here].
  intros j Hj. by apply Hext, list_elem_of_further.
Qed.

Lemma walked_split_off rs ws snap commit lwm p :
  walked rs ws snap commit (bt_split_off lwm p) = bt_split_off lwm (walked rs ws snap commit p).
Proof.
  apply map_eq. intros k. rewrite lookup_walked, !lookup_bt_split_off, lookup_walked.
  by destruct (decide (kle lwm k)).
Qed.

(** * Properties *)

Definition sorted_keys (l : list RowKey) : Prop := StronglySorted kle l.

Definition window_sorted (p : PendingTxs) : Prop :=
  forall k r, p !! k = Some r -> sorted_keys (rec_read_set r) /\ sorted_keys (rec_write_set r).

(** The rw-antidependencies between a committing transaction with the given
    sets and a record: it read what the record wrote, it wrote what the record
    read. *)
Definition rw_to (rs : list RowKey) (r : PendingTxRecord) : Prop := overlap (rec_write_set r) rs.
Definition rw_from (ws : list RowKey) (r : PendingTxRecord) : Prop := overlap ws (rec_read_set r).

(** C15: [detect_dangerous_structure] over a window of sorted records: exactly
    the records committed after the snapshot and before the commit are
    retagged with the edges the key sets form, a verdict is given exactly when
    the committing transaction has an edge to one concurrent record and from
    one, or a concurrent record now has both tags, and the verdict names a
    concurrent record. *)
Theorem detect_dangerous_structure_correct p snap rs ws commit :
  sorted_keys rs -> sorted_keys ws -> window_sorted p ->
  let '(p', verdict) := detect_dangerous_structure p snap rs ws commit in
  (forall k, p' !! k = (fun r => if decide (concurrent_with snap commit k)
                                 then tag_record rs ws r else r) <$> p !! k) /\
  (forall k r, p !! k = Some r ->
     (rec_has_incoming_rw (tag_record rs ws r) = true <-> rec_has_incoming_rw r = true \/ rw_to rs r) /\
     (rec_has_outgoing_rw (tag_record rs ws r) = true <-> rec_has_outgoing_rw r = true \/ rw_from ws r)) /\
  (is_Some verdict <->
     ((exists k r, concurrent_with snap commit k /\ p !! k = Some r /\ rw_to rs r) /\
      (exists k r, concurrent_with snap commit k /\ p !! k = Some r /\ rw_from ws r)) \/
     (exists k r, concurrent_with snap commit k /\ p !! k = Some r /\
        (rec_has_incoming_rw r = true \/ rw_to rs r) /\ (rec_has_outgoing_rw r = true \/ rw_from ws r))) /\
  (forall k, verdict = Some k -> concurrent_with snap commit k /\ is_Some (p !! k)).
Proof.
  intros Hrs Hws Hp. pose proof (detect_spec rs ws snap commit p) as Hd.
  destruct (detect_dangerous_structure _ _ _ _ _) as [p' verdict] eqn:E. destruct Hd as [-> Hv].
  assert (forall k r, p !! k = Some r -> edge_to rs r = true <-> rw_to rs r) as Ht.
  { intros k r Hk. apply intersects_overlap; [ | done]. by apply (Hp k r). }
  assert (forall k r, p !! k = Some r -> edge_from ws r = true <-> rw_from ws r) as Hf.
  { intros k r Hk. apply intersects_overlap; [done | ]. by apply (Hp k r). }
  split_and!.
  - intros k. apply lookup_walked.
  - intros k r Hk. cbn. rewrite !orb_true_iff, (Ht k r Hk), (Hf k r Hk). done.
  - rewrite Hv. unfold dangerous, both_tags, tag_record. cbn. clear -Ht Hf. split.
    + intros [[(k & r & ? & Hk & He) (k' & r' & ? & Hk' & He')] | (k & r & ? & Hk & He)].
      * apply (Ht k r Hk) in He. apply (Hf k' r' Hk') in He'. left. eauto 10.
      * rewrite andb_true_iff, !orb_true_iff, (Ht k r Hk), (Hf k r Hk) in He. right. eauto 10.
    + intros [[(k & r & ? & Hk & He) (k' & r' & ? & Hk' & He')] | (k & r & ? & Hk & He)].
      * apply (Ht k r Hk) in He. apply (Hf k' r' Hk') in He'. left. eauto 10.
      * right. exists k, r. rewrite andb_true_iff, !orb_true_iff, (Ht k r Hk), (Hf k r Hk). done.
  - intros k ->. by eapply detect_names_concurrent.
Qed.

Definition sample_rec : PendingTxRecord :=
  {| rec_snapshot_opnum := 0; rec_read_set := [(1, [1])]; rec_write_set := [(1, [2])];
     rec_has_outgoing_rw := false; rec_has_incoming_rw := false |}.
Definition sample_window : PendingTxs := {[ 2 := sample_rec ]}.

Lemma sample_window_sorted : window_sorted sample_window.
Proof.
  intros k r Hk. unfold sample_window in Hk. apply lookup_singleton_Some in Hk as [_ <-].
  split; repeat constructor; discriminate.
Qed.

(** A write skew: each of two concurrent transactions reads what the other
    writes; the second to commit is refused. *)
Lemma detect_dangerous_structure_correct_witness :
  is_Some (detect_dangerous_structure sample_window 0 [(1, [2])] [(1, [1])] 3).2.
Proof.
  pose proof (detect_dangerous_structure_correct sample_window 0 [(1, [2])] [(1, [1])] 3
    ltac:(repeat constructor) ltac:(repeat constructor) sample_window_sorted) as H.
  destruct (detect_dangerous_structure _ _ _ _ _) as [p' v]. destruct H as (_ & _ & Hv & _).
  cbn [snd]. apply Hv. left. split; exists 2, sample_rec;
    (split; [unfold concurrent_with, sat_add64, u64_max; lia | split; [reflexivity | ]]).
  - exists (1, [2]). split; apply list_elem_of_here.
  - exists (1, [1]). split; apply list_elem_of_here.
Defined.

(** Pruning the window at a watermark no later than the snapshot of a
    committing transaction changes neither its verdict nor the tags of the
    records kept: the walk and the pruning commute. *)
Theorem prune_by_watermark_invisible p lwm snap rs ws commit :
  u64_ok snap -> lwm <= snap ->
  detect_dangerous_structure (prune_pending_txs_by_watermark p lwm) snap rs ws commit =
  (prune_pending_txs_by_watermark (detect_dangerous_structure p snap rs ws commit).1 lwm,
   (detect_dangerous_structure p snap rs ws commit).2).
Proof.
  intros Hu Hlwm. assert (lwm <= sat_add64 snap 1) as Hle by (unfold sat_add64, u64_ok in *; lia).
  pose proof (detect_spec rs ws snap commit p) as Hd.
  pose proof (detect_spec rs ws snap commit (prune_pending_txs_by_watermark p lwm)) as Hd'.
  revert Hd Hd'. unfold detect_dangerous_structure, prune_pending_txs_by_watermark.
  rewrite bt_range_excl_split_off by (by apply kle_Z).
  destruct (commit <=? _); [done | ].
  change (fun kv : Z * PendingTxRecord => (kv.1, (rec_write_set kv.2, rec_read_set kv.2))) with item.
  set (l := bt_range_excl _ _ _).
  set (w := {| w_pending := p; w_has_outgoing := _; w_has_incoming := _; w_other := _ |}).
  set (w' := {| w_pending := bt_split_off _ _; w_has_outgoing := _; w_has_incoming := _; w_other := _ |}).
  destruct (walk_locals rs ws (item <$> l) w w' eq_refl eq_refl eq_refl) as (Ho & Hi & Hk).
  rewrite <- Ho, <- Hi, <- Hk.
  destruct (w_has_outgoing _ && w_has_incoming _); intros [Hp _] [Hp' _]; cbn [fst snd]; rewrite Hp, Hp'.
  - by rewrite walked_split_off.
  - rewrite walked_split_off. f_equal. apply find_pivot_ext. intros k Hin.
    rewrite item_keys in Hin. apply list_elem_of_fmap in Hin as ([? r] & -> & [_ Hc]%concurrent_elem).
    rewrite lookup_bt_split_off, decide_True; [done | ]. apply kle_Z. unfold concurrent_with in Hc. cbn. lia.
Qed.

Lemma prune_by_watermark_invisible_witness :
  detect_dangerous_structure (prune_pending_txs_by_watermark sample_window 1) 1 [(1, [2])] [(1, [1])] 4 =
  (prune_pending_txs_by_watermark
     (detect_dangerous_structure sample_window 1 [(1, [2])] [(1, [1])] 4).1 1, Some 2).
Proof.
  rewrite (prune_by_watermark_invisible sample_window 1 1 [(1, [2])] [(1, [1])] 4); [ | lit | lia].
  f_equal.
Defined.
