(* ===== verification/Tx.v ===== *)
(** kessel-storage, module tx: transactions pinned at a snapshot.

    A transaction reads at its snapshot through its own buffered writes,
    records what it read, and commits by probing each written row for a version
    committed since the snapshot and then installing every write at the commit
    number. [install] and [first_conflict] are the loops that the commits of
    this module and of the state machine share.

    Source: src/crates/kessel-storage/src/tx.rs. *)

From Stdlib Require Import ZArith Lia.
From stdpp Require Import base numbers list sorting gmap fin_maps.
From S2P Require Import Prelude BTree Proto Vfs Wal SsTable Storage View Recovery Crash Mvcc MvccSpec Ssi.

#[local] Open Scope Z_scope.
#[local] Set Warnings "-clear-no-such-hyp".

(** A borrow of the engine. *)
Inductive TxStore (W : Type) :=
  | Shared (s : Storage W)
  | Exclusive (s : Storage W).
Arguments Shared {W} s.
Arguments Exclusive {W} s.

Definition as_ref {W} (ts : TxStore W) : Storage W :=
  match ts with Shared s => s | Exclusive s => s end.

Abbreviation WriteSet := (gmap RowKey Slot).

Record Tx (W : Type) := mkTx {
  tx_store : TxStore W;
  snapshot_opnum : Z;
  read_set : gset RowKey;
  write_set : WriteSet
}.
Arguments mkTx {W}. Arguments tx_store {W}. Arguments snapshot_opnum {W}.
Arguments read_set {W}. Arguments write_set {W}.

(** [StorageIo] carries the error's kind and its message. *)
Inductive TxError :=
  | SnapshotOutOfRange (snapshot commit : Z)
  | StorageIo (e : io_error)
  | ReadOnlyCannotCommit
  | SnapshotTooOld (low_water_mark : Z).

Inductive TxCommitOutcome :=
  | Committed (commit_opnum : Z)
  | Aborted (conflicting_key : RowKey)
  | AbortedDangerousStructure (other_commit_opnum : Z).

Section Tx.
Context {W : Type} `{Vfs W}.
Implicit Types (s : Storage W) (tx : Tx W).

(** [Tx::begin], [Tx::begin_rw] and [Tx::begin_ssi]. *)
Definition begin s (snapshot_opnum : Z) : Tx W + TxError :=
  let lwm := low_water_mark s in
  if snapshot_opnum <? lwm then inr (SnapshotTooOld lwm)
  else inl (mkTx (Shared s) snapshot_opnum ∅ ∅).

Definition begin_rw s (snapshot_opnum : Z) : Tx W + TxError :=
  let lwm := low_water_mark s in
  if snapshot_opnum <? lwm then inr (SnapshotTooOld lwm)
  else inl (mkTx (Exclusive s) snapshot_opnum ∅ ∅).

Definition begin_ssi s (snapshot_opnum : Z) : Tx W + TxError :=
  let lwm := low_water_mark s in
  if snapshot_opnum <? lwm then inr (SnapshotTooOld lwm)
  else inl (mkTx (Exclusive s) snapshot_opnum ∅ ∅).

(** [Tx::read]: the transaction after the read, and what it read. *)
Definition tx_read tx (type_id : Z) (object_id : bytes) : Tx W * SnapshotRead :=
  let tx' := mkTx (tx_store tx) (snapshot_opnum tx) ({[ (type_id, object_id) ]} ∪ read_set tx) (write_set tx) in
  match write_set tx !! (type_id, object_id) with
  | Some buffered => (tx', match buffered with Some v => Found v | None => Tombstoned end)
  | None => (tx', get_at_snapshot (as_ref (tx_store tx)) type_id object_id (snapshot_opnum tx))
  end.

(** [Tx::write]. *)
Definition tx_write tx (type_id : Z) (object_id : bytes) (value : Slot) : Tx W :=
  mkTx (tx_store tx) (snapshot_opnum tx) (read_set tx) (<[(type_id, object_id) := value]> (write_set tx)).

(** [Tx::commit_read_only] and [Tx::abort] consume the transaction: the engine
    it borrowed is as it was. *)
Definition commit_read_only tx : Storage W * (unit + TxError) := (as_ref (tx_store tx), inl tt).
Definition tx_abort tx : Storage W := as_ref (tx_store tx).

(** The loop over the write set that looks for a version in [(snap, hi]]. *)
Fixpoint first_conflict s (writes : list (RowKey * Slot)) (snap hi : Z) : option RowKey :=
  match writes with
  | [] => None
  | ((type_id, object_id), _) :: writes' =>
      if has_version_in_range s type_id object_id snap hi then Some (type_id, object_id)
      else first_conflict s writes' snap hi
  end.

Definition conflict_check s (writes : list (RowKey * Slot)) (snap commit_opnum : Z) : option RowKey :=
  if 0 <? commit_opnum then first_conflict s writes snap (commit_opnum - 1) else None.

(** The loop that installs every write; the first failure ends it. *)
Fixpoint install (commit_opnum : Z) (writes : list (RowKey * Slot)) : M (Storage W) (option io_error) :=
  match writes with
  | [] => mret None
  | ((type_id, object_id), value) :: writes' => fun s =>
      match put_versioned type_id object_id commit_opnum value s with
      | (s', Ret _) => install commit_opnum writes' s'
      | (s', Err e) => (s', Ret (Some e))
      | (s', Panic) => (s', Panic)
      end
  end.

Definition install_outcome (commit_opnum : Z) (r : option io_error) : TxCommitOutcome + TxError :=
  match r with Some e => inr (StorageIo e) | None => inl (Committed commit_opnum) end.

(** [Tx::commit]: the engine afterwards, and the outcome. *)
Definition tx_commit tx (commit_opnum : Z) : Storage W * outcome (TxCommitOutcome + TxError) :=
  let s := as_ref (tx_store tx) in
  if commit_opnum <? snapshot_opnum tx
  then (s, Ret (inr (SnapshotOutOfRange (snapshot_opnum tx) commit_opnum))) else
  match tx_store tx with
  | Shared _ => (s, Ret (inr ReadOnlyCannotCommit))
  | Exclusive _ =>
      match conflict_check s (bt_list (write_set tx)) (snapshot_opnum tx) commit_opnum with
      | Some k => (s, Ret (inl (Aborted k)))
      | None => (r ← install commit_opnum (bt_list (write_set tx)); mret (install_outcome commit_opnum r)) s
      end
  end.

(** [Tx::commit_ssi]. *)
Definition commit_ssi tx (commit_opnum : Z) : Storage W * outcome (TxCommitOutcome + TxError) :=
  let s := as_ref (tx_store tx) in
  if commit_opnum <? snapshot_opnum tx
  then (s, Ret (inr (SnapshotOutOfRange (snapshot_opnum tx) commit_opnum))) else
  match tx_store tx with
  | Shared _ => (s, Ret (inr ReadOnlyCannotCommit))
  | Exclusive _ =>
      match conflict_check s (bt_list (write_set tx)) (snapshot_opnum tx) commit_opnum with
      | Some k => (s, Ret (inl (Aborted k)))
      | None =>
          let verdict :=
            if decide (read_set tx = ∅) then None
            else (detect_dangerous_structure ∅ (snapshot_opnum tx) (bs_list (read_set tx))
                    (bt_list (write_set tx)).*1 commit_opnum).2 in
          match verdict with
          | Some other => (s, Ret (inl (AbortedDangerousStructure other)))
          | None => (r ← install commit_opnum (bt_list (write_set tx)); mret (install_outcome commit_opnum r)) s
          end
      end
  end.
End Tx.

(** * Installing writes *)

Definition row_write_ok (w : RowKey * Slot) : Prop :=
  u32_ok w.1.1 /\ oid_ok w.1.2 /\ forall v, w.2 = Some v -> bytes_ok v /\ zlen v <= 4294967000.

Definition writes_ok (ws : list (RowKey * Slot)) : Prop := Forall row_write_ok ws.

(** The physical entries of a write set at a commit number. *)
Definition versions_at (c : Z) (ws : list (RowKey * Slot)) : list (Key * Slot) :=
  (fun w => (make_versioned_key w.1.1 w.1.2 c, w.2)) <$> ws.

Definition reads_ok {W} (s : Storage W) : Prop := tables_wf s /\ keys_ok (view s).

Section Install.
Context {W : Type} `{Vfs W}.
Implicit Types s : Storage W.

Lemma install_view c ws s s' :
  install c ws s = (s', Ret None) -> view s' = insert_all (versions_at c ws) (view s).
Proof.
  revert s. induction ws as [ | [[t o] v] ws IH]; intros s Hi; [by injection Hi as <- | ].
  cbn [install] in Hi. destruct (put_versioned t o c v s) as [s1 [[] | | ]] eqn:Hp; [ | done | done].
  rewrite (IH s1 Hi). destruct (put_versioned_view _ _ _ _ _ _ Hp) as [-> _]. reflexivity.
Qed.

Lemma install_reads_ok c ws s s' :
  install c ws s = (s', Ret None) -> writes_ok ws -> reads_ok s -> reads_ok s'.
Proof.
  intros Hi Hws. revert s Hi. induction Hws as [ | [[t o] v] ws (_ & Ho & _) _ IH]; intros s Hi Hr.
  { by injection Hi as <-. }
  cbn [install] in Hi. destruct (put_versioned t o c v s) as [s1 [[] | | ]] eqn:Hp; [ | done | done].
  apply (IH s1 Hi). destruct Hr. by eapply put_versioned_reads_ok.
Qed.

(** On a failing file system a prefix of the writes is installed. *)
Lemma install_prefix c ws s s' e :
  install c ws s = (s', Ret (Some e)) ->
  exists done w rest sm, ws = done ++ w :: rest /\ install c done s = (sm, Ret None) /\
    put_versioned w.1.1 w.1.2 c w.2 sm = (s', Err e).
Proof.
  revert s. induction ws as [ | [[t o] v] ws IH]; intros s Hi; [done | ].
  cbn [install] in Hi. destruct (put_versioned t o c v s) as [s1 [[] | e' | ]] eqn:Hp; [ | | done].
  - destruct (IH s1 Hi) as (dn & w & rest & sm & -> & Hd & Hw).
    exists (((t, o), v) :: dn), w, rest, sm. split_and!; [done | | done]. cbn [install]. by rewrite Hp.
  - injection Hi as <- <-. exists [], ((t, o), v), ws, s. split_and!; [done | done | done].
Qed.
End Install.

Lemma row_entry_ok t o v c :
  row_write_ok ((t, o), v) -> u64_ok c ->
  entry_ok {| op_number := c; entry_key := make_versioned_key t o c; entry_value := v |}.
Proof.
  intros (Ht & Ho & Hv) Hc. pose proof (make_versioned_key_len t o c Ho) as Hl.
  constructor; cbn; [done | by apply make_versioned_key_ok | rewrite Hl; done | by intros; apply Hv | ].
  unfold encode_entry. cbn. autorewrite with zlen. rewrite Hl.
  destruct v as [b | ]; cbn; autorewrite with zlen; [destruct (Hv b eq_refl) | ]; unfold u32_max, zlen in *;
    rewrite ?le_bytes_length; cbn; lia.
Qed.

Section InstallTotal.
Context {W : Type} `{VfsLaws W}.
Implicit Types s : Storage W.

(** The engine between transactions: in agreement with its files, no overlay
    open, keys made of bytes. *)
Record store_ok s : Prop := {
  so_disk : exists es ms, disk_ok s es ms;
  so_txn : txn s = None;
  so_keys : keys_ok (view s)
}.

Lemma store_ok_reads s : store_ok s -> reads_ok s.
Proof. intros [(es & ms & Hd) _ Hk]. split; [by eapply disk_ok_tables_wf | done]. Qed.

Lemma commit_total e s :
  store_ok s -> entry_ok e ->
  exists s', commit e s = (s', Ret tt) /\ store_ok s' /\
    view s' = <[entry_key e := entry_value e]> (view s) /\ high_op s' = max_op (high_op s) (op_number e).
Proof.
  intros Hs He. pose proof (store_ok_reads s Hs) as [Hwf Hk]. destruct Hs as [(es & ms & Hd) Ht _].
  destruct (commit_spec s es ms _ Hd Ht He) as (s1 & Hcm & Hd1 & Ht1 & _ & _ & _ & Hh & Hv).
  exists s1. split_and!; [done | | done | done]. constructor; [eauto | done | ].
  eapply commit_reads_ok; [exact Hcm | apply He | done | done].
Qed.

Lemma install_total c ws s :
  store_ok s -> writes_ok ws -> u64_ok c ->
  exists s', install c ws s = (s', Ret None) /\ store_ok s'.
Proof.
  intros Hs Hws Hc. revert s Hs. induction Hws as [ | [[t o] v] ws Hw _ IH]; intros s Hs.
  { exists s. done. }
  destruct (commit_total _ s Hs (row_entry_ok t o v c Hw Hc)) as (s1 & Hcm & Hs1 & _).
  change (put_versioned t o c v s = (s1, Ret tt)) in Hcm.
  destruct (IH s1 Hs1) as (s' & Hi & Hs'). exists s'. split; [ | done]. cbn [install]. by rewrite Hcm.
Qed.
End InstallTotal.

(** * What a committed write set changes *)

Lemma versions_at_cons c w ws m :
  insert_all (versions_at c (w :: ws)) m =
  insert_all (versions_at c ws) (<[make_versioned_key w.1.1 w.1.2 c := w.2]> m).
Proof. reflexivity. Qed.

Lemma versions_at_other c ws m k :
  (forall w, w ∈ ws -> make_versioned_key w.1.1 w.1.2 c <> k) ->
  insert_all (versions_at c ws) m !! k = m !! k.
Proof.
  revert m. induction ws as [ | w ws IH]; intros m Hne; [done | ].
  rewrite versions_at_cons, IH by (intros w' Hw'; by apply Hne, list_elem_of_further).
  apply lookup_insert_ne, Hne, list_elem_of_here.
Qed.

Lemma versions_at_written c ws m t o v :
  u64_ok c -> writes_ok ws -> NoDup ws.*1 -> ((t, o), v) ∈ ws ->
  insert_all (versions_at c ws) m !! make_versioned_key t o c = Some v.
Proof.
  intros Hc Hws. revert m. induction Hws as [ | [[t0 o0] v0] ws Hw Hws IH]; intros m Hnd Hin.
  { by apply elem_of_nil in Hin. }
  rewrite fmap_cons in Hnd. apply NoDup_cons in Hnd as [Hni Hnd]. cbn [fst] in Hni.
  rewrite versions_at_cons. cbn [fst snd].
  apply elem_of_cons in Hin as [[= -> -> ->] | Hin]; [ | by apply IH].
  rewrite (versions_at_other c ws); [apply lookup_insert_eq | ]. intros [[t1 o1] v1] Hw1 Heq.
  apply Hni, list_elem_of_fmap. exists ((t1, o1), v1). split; [ | done]. cbn [fst snd] in Heq.
  pose proof (proj1 (Forall_forall _ _) Hws _ Hw1) as (? & ? & _). destruct Hw as (? & ? & _).
  by destruct (versioned_key_inj t1 o1 c t0 o0 c) as (-> & -> & _).
Qed.

(** Snapshots below the commit and rows not written read as before; a snapshot
    at or above it reads the written value unless a newer version exists. *)
Definition reads_after {W} (c : Z) (ws : list (RowKey * Slot)) (s s' : Storage W) : Prop :=
  forall t o snap, u32_ok t -> oid_ok o ->
    (snap < c \/ (t, o) ∉ ws.*1 -> get_at_snapshot s' t o snap = get_at_snapshot s t o snap) /\
    (forall v, ((t, o), v) ∈ ws -> c <= snap -> has_version_in_range s t o c snap = false ->
       get_at_snapshot s' t o snap = read_of v).

Section Reads.
Context {W : Type} `{Vfs W}.
Implicit Types s : Storage W.

Lemma install_reads c ws s s' :
  install c ws s = (s', Ret None) -> writes_ok ws -> NoDup ws.*1 -> u64_ok c -> reads_ok s ->
  reads_after c ws s s'.
Proof.
  intros Hi Hws Hnd Hc Hr t o snap Ht Ho. pose proof (install_reads_ok _ _ _ _ Hi Hws Hr) as Hr'.
  pose proof (install_view _ _ _ _ Hi) as Hv. destruct Hr as [Hwf Hk], Hr' as [Hwf' Hk'].
  assert (forall c', u64_ok c' -> c' <> c \/ (t, o) ∉ ws.*1 ->
    view s' !! make_versioned_key t o c' = view s !! make_versioned_key t o c') as Hsame.
  { intros c' Hc' Hne. rewrite Hv. apply versions_at_other. intros [[t1 o1] v1] Hw1 Heq.
    cbn [fst snd] in Heq. pose proof (proj1 (Forall_forall _ _) Hws _ Hw1) as (? & ? & _).
    destruct (versioned_key_inj t1 o1 c t o c') as (-> & -> & ->); [done.. | ].
    destruct Hne as [ | Hni]; [done | ]. apply Hni, list_elem_of_fmap. by exists ((t, o), v1). }
  split.
  - intros Hne. apply get_at_snapshot_ext; try done. intros c' Hc' Hle.
    apply Hsame; [done | ]. destruct Hne; [left; lia | by right].
  - intros v Hin Hle Hno. apply (get_at_snapshot_newest s' t o snap c v); try done.
    split_and!; [done | done | rewrite Hv; by apply versions_at_written | ]. intros c' Hc' Hlt.
    rewrite Hsame by (done || (left; lia)).
    destruct (view s !! make_versioned_key t o c') as [v' | ] eqn:E; [ | done].
    assert (has_version_in_range s t o c snap = true) by (apply has_version_in_range_spec; eauto).
    congruence.
Qed.

(** A version committed in [(snap, commit)]. *)
Definition conflicts s (snap commit : Z) (k : RowKey) : Prop :=
  exists c v, u64_ok c /\ snap < c < commit /\ view s !! make_versioned_key k.1 k.2 c = Some v.

Lemma conflict_check_spec s ws snap commit :
  reads_ok s -> writes_ok ws -> u64_ok commit ->
  match conflict_check s ws snap commit with
  | Some k => conflicts s snap commit k /\
      exists before v after, ws = before ++ (k, v) :: after /\
        forall k', k' ∈ before.*1 -> ~ conflicts s snap commit k'
  | None => forall k, k ∈ ws.*1 -> ~ conflicts s snap commit k
  end.
Proof.
  intros [Hwf Hk] Hws Hc. unfold conflict_check. destruct (0 <? commit) eqn:E; zb.
  2: { intros k _ (c & v & Hu & Hlt & _). unfold u64_ok in *. lia. }
  assert (forall k, oid_ok k.2 -> has_version_in_range s k.1 k.2 snap (commit - 1) = true <->
            conflicts s snap commit k) as Hprobe.
  { intros k Ho. rewrite has_version_in_range_spec by done. unfold conflicts.
    split; intros (c & v & ? & ? & ?); exists c, v; split_and!; try done; lia. }
  induction Hws as [ | [[t o] v] ws (_ & Ho & _) Hws IH].
  { intros k Hin. by apply elem_of_nil in Hin. }
  cbn [first_conflict]. specialize (Hprobe (t, o) Ho) as Hp. cbn [fst snd] in Hp.
  destruct (has_version_in_range s t o snap (commit - 1)).
  - split; [by apply Hp | ]. exists [], v, ws. split; [done | ]. intros k' Hin. by apply elem_of_nil in Hin.
  - assert (~ conflicts s snap commit (t, o)) as Hn by (by rewrite <- Hp).
    destruct (first_conflict s ws snap (commit - 1)) as [k | ].
    + destruct IH as (Hck & before & v' & after & -> & Hb). split; [done | ].
      exists (((t, o), v) :: before), v', after. split; [done | ]. intros k' Hin.
      rewrite fmap_cons in Hin. apply elem_of_cons in Hin as [-> | Hin]; [done | by apply Hb].
    + intros k Hin. rewrite fmap_cons in Hin. apply elem_of_cons in Hin as [-> | Hin]; [done | by apply IH].
Qed.

Lemma detect_empty snap rs ws commit : detect_dangerous_structure ∅ snap rs ws commit = (∅, None).
Proof. unfold detect_dangerous_structure. by destruct (commit <=? _). Qed.
End Reads.

(** * Sessions *)

Inductive tx_op :=
  | TRead (t : Z) (o : bytes)
  | TWrite (t : Z) (o : bytes) (v : Slot).

Fixpoint tx_run {W} (tx : Tx W) (ops : list tx_op) : Tx W * list SnapshotRead :=
  match ops with
  | [] => (tx, [])
  | TRead t o :: ops' =>
      let '(tx1, r) := tx_read tx t o in
      let '(tx2, rs) := tx_run tx1 ops' in (tx2, r :: rs)
  | TWrite t o v :: ops' => tx_run (tx_write tx t o v) ops'
  end.

(** The reference: a private copy of the database as it was at the snapshot. *)
Fixpoint private_run (db : RowKey -> SnapshotRead) (ops : list tx_op) : list SnapshotRead :=
  match ops with
  | [] => []
  | TRead t o :: ops' => db (t, o) :: private_run db ops'
  | TWrite t o v :: ops' => private_run (fun k => if decide (k = (t, o)) then read_of v else db k) ops'
  end.

Definition keys_read (ops : list tx_op) : gset RowKey :=
  list_to_set (omap (fun op => match op with TRead t o => Some (t, o) | _ => None end) ops).

Fixpoint last_write (ws : WriteSet) (ops : list tx_op) : WriteSet :=
  match ops with
  | [] => ws
  | TRead _ _ :: ops' => last_write ws ops'
  | TWrite t o v :: ops' => last_write (<[(t, o) := v]> ws) ops'
  end.

Lemma private_run_ext db db' ops : (forall k, db k = db' k) -> private_run db ops = private_run db' ops.
Proof.
  revert db db'. induction ops as [ | [t o | t o v] ops IH]; intros db db' Heq; [done | | ]; cbn [private_run].
  - by rewrite Heq, (IH db db').
  - apply IH. intros k. by rewrite Heq.
Qed.

(** What a transaction sees: its own writes over the snapshot. *)
Definition tx_view {W} (tx : Tx W) (k : RowKey) : SnapshotRead :=
  match write_set tx !! k with
  | Some v => read_of v
  | None => get_at_snapshot (as_ref (tx_store tx)) k.1 k.2 (snapshot_opnum tx)
  end.

Lemma tx_run_spec {W} (tx : Tx W) ops :
  let '(tx', rs) := tx_run tx ops in
  rs = private_run (tx_view tx) ops /\ tx_store tx' = tx_store tx /\
  snapshot_opnum tx' = snapshot_opnum tx /\ read_set tx' = keys_read ops ∪ read_set tx /\
  write_set tx' = last_write (write_set tx) ops.
Proof.
  revert tx. induction ops as [ | [t o | t o v] ops IH]; intros tx.
  - cbn. split_and!; try done. unfold keys_read. cbn. set_solver.
  - cbn [tx_run]. destruct (tx_read tx t o) as [tx1 r] eqn:Hr.
    assert (tx1 = mkTx (tx_store tx) (snapshot_opnum tx) ({[ (t, o) ]} ∪ read_set tx) (write_set tx) /\
            r = tx_view tx (t, o)) as [-> ->].
    { unfold tx_read in Hr. unfold tx_view. destruct (write_set tx !! (t, o)); injection Hr as <- <-; done. }
    specialize (IH (mkTx (tx_store tx) (snapshot_opnum tx) ({[ (t, o) ]} ∪ read_set tx) (write_set tx))).
    destruct (tx_run _ ops) as [tx2 rs]. destruct IH as (-> & Hs & Hn & Hrd & Hw).
    split_and!; try done. rewrite Hrd. unfold keys_read. cbn. set_solver.
  - cbn [tx_run]. specialize (IH (tx_write tx t o v)). destruct (tx_run _ ops) as [tx2 rs].
    destruct IH as (-> & Hs & Hn & Hrd & Hw). split_and!; try done.
    cbn [private_run]. apply private_run_ext. intros k. unfold tx_view, tx_write. cbn.
    rewrite lookup_insert. destruct (decide (k = (t, o))) as [-> | Hne]; [by rewrite decide_True | ].
    by rewrite decide_False.
Qed.

(** C23: A write-capable transaction is refused exactly when its snapshot is
    below the low-water mark. Otherwise every sequence of its reads and writes
    returns what the same sequence returns on a private copy of the database
    as the snapshot shows it, leaves the engine alone, records exactly the
    rows read and buffers the last write of each row. *)
Theorem tx_session_refines {W} (s : Storage W) snap ops :
  match begin_rw s snap with
  | inr e => snap < low_water_mark s /\ e = SnapshotTooOld (low_water_mark s)
  | inl tx =>
      low_water_mark s <= snap /\
      let '(tx', rs) := tx_run tx ops in
      rs = private_run (fun k => get_at_snapshot s k.1 k.2 snap) ops /\
      tx_store tx' = Exclusive s /\ snapshot_opnum tx' = snap /\
      read_set tx' = keys_read ops /\ write_set tx' = last_write ∅ ops
  end.
Proof.
  unfold begin_rw. destruct (snap <? low_water_mark s) eqn:E; zb; [done | ]. split; [done | ].
  pose proof (tx_run_spec (mkTx (Exclusive s) snap ∅ ∅) ops) as Hr. destruct (tx_run _ ops) as [tx' rs].
  destruct Hr as (-> & Hs & Hn & Hrd & Hw). split_and!; [ | done | done | | done].
  - apply private_run_ext. intros k. unfold tx_view. cbn. by rewrite lookup_empty.
  - rewrite Hrd. cbn. set_solver.
Qed.

(** * Commits *)

Section Commit.
Context {W : Type} `{VfsLaws W}.
Implicit Types (s : Storage W) (tx : Tx W).

Lemma write_set_NoDup (ws : WriteSet) : NoDup (bt_list ws).*1.
Proof. apply bt_list_NoDup. Qed.

Lemma tx_commit_unfold tx s c :
  tx_store tx = Exclusive s -> snapshot_opnum tx <= c ->
  tx_commit tx c =
  match conflict_check s (bt_list (write_set tx)) (snapshot_opnum tx) c with
  | Some k => (s, Ret (inl (Aborted k)))
  | None => (r ← install c (bt_list (write_set tx)); mret (install_outcome c r)) s
  end.
Proof. intros Hs Hle. unfold tx_commit. rewrite Hs. by zif_false. Qed.

Lemma tx_commit_conflict tx s c k :
  store_ok s -> writes_ok (bt_list (write_set tx)) -> u64_ok c ->
  tx_store tx = Exclusive s -> snapshot_opnum tx <= c ->
  is_Some (write_set tx !! k) -> conflicts s (snapshot_opnum tx) c k ->
  exists k', tx_commit tx c = (s, Ret (inl (Aborted k'))) /\ conflicts s (snapshot_opnum tx) c k' /\
    is_Some (write_set tx !! k') /\
    forall k0, is_Some (write_set tx !! k0) -> conflicts s (snapshot_opnum tx) c k0 -> kle k' k0.
Proof.
  intros Hok Hws Hc Hs Hle [v Hv] Hcf. rewrite (tx_commit_unfold tx s c Hs Hle).
  pose proof (conflict_check_spec s (bt_list (write_set tx)) (snapshot_opnum tx) c
    (store_ok_reads s Hok) Hws Hc) as Hsp.
  assert (forall k v, write_set tx !! k = Some v <-> (k, v) ∈ bt_list (write_set tx)) as Hel
    by (intros; symmetry; apply bt_list_elem).
  destruct (conflict_check _ _ _ _) as [k' | ].
  - destruct Hsp as (Hck & before & v' & after & Heq & Hb). exists k'. split_and!; [done | done | | ].
    + exists v'. apply Hel. rewrite Heq. set_solver.
    + intros k0 [v0 Hv0] Hc0. apply Hel in Hv0. rewrite Heq in Hv0.
      apply elem_of_app in Hv0 as [Hin | Hin].
      { destruct (Hb k0); [ | done]. apply list_elem_of_fmap. by exists (k0, v0). }
      apply elem_of_cons in Hin as [[= -> ->] | Hin]; [apply kle_refl | ].
      pose proof (bt_list_sorted (write_set tx)) as Hso. unfold ssorted in Hso. rewrite Heq in Hso.
      apply klt_kle. apply StronglySorted_app_1_r in Hso.
      inversion Hso as [ | ?? _ Hf]; subst. by apply (proj1 (Forall_forall _ _) Hf (k0, v0)).
  - destruct (Hsp k); [ | done]. apply list_elem_of_fmap. exists (k, v). split; [done | by apply Hel].
Qed.

Lemma tx_commit_clean tx s c :
  store_ok s -> writes_ok (bt_list (write_set tx)) -> u64_ok c ->
  tx_store tx = Exclusive s -> snapshot_opnum tx <= c ->
  (forall k, is_Some (write_set tx !! k) -> ~ conflicts s (snapshot_opnum tx) c k) ->
  exists s', tx_commit tx c = (s', Ret (inl (Committed c))) /\ store_ok s' /\
    view s' = insert_all (versions_at c (bt_list (write_set tx))) (view s) /\
    reads_after c (bt_list (write_set tx)) s s'.
Proof.
  intros Hok Hws Hc Hs Hle Hno. rewrite (tx_commit_unfold tx s c Hs Hle).
  pose proof (store_ok_reads s Hok) as Hr.
  pose proof (conflict_check_spec s (bt_list (write_set tx)) (snapshot_opnum tx) c Hr Hws Hc) as Hsp.
  destruct (conflict_check _ _ _ _) as [k' | ].
  { destruct Hsp as (Hck & before & v' & after & Heq & Hb). destruct (Hno k'); [ | done].
    exists v'. apply bt_list_elem. rewrite Heq. set_solver. }
  destruct (install_total c _ s Hok Hws Hc) as (s' & Hi & Hs').
  exists s'. split_and!; [by mstep Hi | done | by apply install_view | ].
  by apply install_reads; [ | | apply write_set_NoDup | | ].
Qed.
End Commit.

(** C2: [Tx::commit] on every branch, over any file system that keeps its
    laws: a snapshot above the commit number and a shared borrow are errors
    and a row with a version committed between snapshot and commit aborts at
    the smallest such row, all leaving the engine as it was; otherwise the
    commit returns, the written versions are exactly what is added to the
    engine's view, older snapshots and other rows read as before and newer
    snapshots read the written values. *)
Theorem tx_commit_correct {W} `{VfsLaws W} (tx : Tx W) s c :
  store_ok s -> writes_ok (bt_list (write_set tx)) -> u64_ok c -> as_ref (tx_store tx) = s ->
  (c < snapshot_opnum tx ->
     tx_commit tx c = (s, Ret (inr (SnapshotOutOfRange (snapshot_opnum tx) c)))) /\
  (snapshot_opnum tx <= c -> tx_store tx = Shared s -> tx_commit tx c = (s, Ret (inr ReadOnlyCannotCommit))) /\
  (snapshot_opnum tx <= c -> tx_store tx = Exclusive s ->
     (exists k, is_Some (write_set tx !! k) /\ conflicts s (snapshot_opnum tx) c k) ->
     exists k, tx_commit tx c = (s, Ret (inl (Aborted k))) /\ is_Some (write_set tx !! k) /\
       conflicts s (snapshot_opnum tx) c k /\
       forall k0, is_Some (write_set tx !! k0) -> conflicts s (snapshot_opnum tx) c k0 -> kle k k0) /\
  (snapshot_opnum tx <= c -> tx_store tx = Exclusive s ->
     (forall k, is_Some (write_set tx !! k) -> ~ conflicts s (snapshot_opnum tx) c k) ->
     exists s', tx_commit tx c = (s', Ret (inl (Committed c))) /\ store_ok s' /\
       view s' = insert_all (versions_at c (bt_list (write_set tx))) (view s) /\
       reads_after c (bt_list (write_set tx)) s s').
Proof.
  intros Hok Hws Hc Hs. split_and!.
  - intros Hlt. unfold tx_commit. rewrite Hs. by zif_true.
  - intros Hle Hsh. unfold tx_commit. rewrite Hsh. cbn. by zif_false.
  - intros Hle Hex (k & Hk & Hcf).
    destruct (tx_commit_conflict tx s c k Hok Hws Hc Hex Hle Hk Hcf) as (k' & ? & ? & ? & ?). eauto 6.
  - intros Hle Hex Hno. by apply tx_commit_clean.
Qed.

(** The first committer wins: of two transactions that write a common row,
    if the second's snapshot is older than the first's commit and it commits
    later, the second aborts and leaves the engine as the first left it. *)
Theorem first_committer_wins {W} `{VfsLaws W} (tx1 tx2 : Tx W) s s1 c1 c2 k :
  store_ok s -> tx_store tx1 = Exclusive s -> tx_commit tx1 c1 = (s1, Ret (inl (Committed c1))) ->
  writes_ok (bt_list (write_set tx1)) -> writes_ok (bt_list (write_set tx2)) -> u64_ok c1 -> u64_ok c2 ->
  tx_store tx2 = Exclusive s1 -> snapshot_opnum tx2 < c1 < c2 ->
  is_Some (write_set tx1 !! k) -> is_Some (write_set tx2 !! k) ->
  exists k', tx_commit tx2 c2 = (s1, Ret (inl (Aborted k'))) /\ is_Some (write_set tx2 !! k').
Proof.
  intros Hok Hs1 Hcm Hw1 Hw2 Hc1 Hc2 Hs2 Hlt [v1 Hk1] Hk2.
  destruct (decide (snapshot_opnum tx1 <= c1)) as [Hle1 | Hgt].
  2: { unfold tx_commit in Hcm. replace (c1 <? snapshot_opnum tx1) with true in Hcm; [done | ].
       symmetry. apply Z.ltb_lt. lia. }
  rewrite (tx_commit_unfold tx1 s c1 Hs1 Hle1) in Hcm. dcase_in Hcm; [done | ].
  destruct (install_total c1 _ s Hok Hw1 Hc1) as (s' & Hi & Hs').
  erewrite M_bind_ret in Hcm by exact Hi. injection Hcm as <-.
  destruct (tx_commit_conflict tx2 s' c2 k) as (k' & ? & _ & ? & _); try done; [lia | | eauto].
  exists c1, v1. split_and!; [done | lia | lia | ]. rewrite (install_view _ _ _ _ Hi).
  apply versions_at_written; [done | done | apply write_set_NoDup | ]. apply bt_list_elem. by destruct k.
Qed.

(** The standalone serializable commit is the snapshot-isolation commit:
    its detector runs on an empty window and never refuses. *)
Theorem commit_ssi_is_commit {W} `{Vfs W} (tx : Tx W) c : commit_ssi tx c = tx_commit tx c.
Proof.
  unfold commit_ssi, tx_commit. destruct (c <? snapshot_opnum tx); [done | ].
  destruct (tx_store tx) as [s | s]; [done | ]. cbn [as_ref].
  destruct (conflict_check _ _ _ _); [done | ]. rewrite detect_empty. by destruct (decide _).
Qed.

(** ** Applied to a sample *)

Lemma empty_store_ok : store_ok empty_storage.
Proof.
  destruct (reachable_ok _ empty_reachable) as [Hd _ _ _ _].
  constructor; [done | reflexivity | apply empty_reads_ok].
Qed.

Definition sample_tx : Tx MemVfs := mkTx (Exclusive empty_storage) 0 ∅ {[ (1, row_oid) := Some [7] ]}.

(** The engine after [sample_tx] committed at 4, and a second writer of the
    same row that began at 2. *)
Definition after_sample : Storage MemVfs := (tx_commit sample_tx 4).1.
Definition late_tx : Tx MemVfs := mkTx (Exclusive after_sample) 2 ∅ {[ (1, row_oid) := None ]}.

Lemma sample_writes_ok v : v = None \/ v = Some [7] -> writes_ok (bt_list ({[ (1, row_oid) := v ]} : WriteSet)).
Proof.
  intros Hv. change (bt_list _) with [((1, row_oid), v)]. constructor; [ | constructor].
  split_and!; cbn; [lit | apply row_oid_ok | ]. intros b ->.
  destruct Hv as [ | Hv]; [done | ]. injection Hv as ->. split; [lit | unfold zlen; cbn; lia].
Qed.

Lemma empty_view : view empty_storage = ∅.
Proof. unfold view, durable_view, tables_view. simpl. by rewrite !kv_empty_union. Qed.

Lemma tx_commit_correct_witness :
  exists s', tx_commit sample_tx 4 = (s', Ret (inl (Committed 4))) /\
    get_at_snapshot s' 1 row_oid 4 = Found [7].
Proof.
  destruct (tx_commit_correct sample_tx empty_storage 4 empty_store_ok) as (_ & _ & _ & Hc);
    [apply sample_writes_ok; by right | lit | reflexivity | ].
  destruct Hc as (s' & Hc & _ & _ & Hr); [cbn; lia | reflexivity | | ].
  - intros k _ (c & v & _ & _ & Hv). rewrite empty_view, lookup_empty in Hv. discriminate Hv.
  - exists s'. split; [exact Hc | ].
    destruct (Hr 1 row_oid 4) as [_ Hv]; [lit | apply row_oid_ok | ].
    apply (Hv (Some [7])); [ | lia | by vm_compute].
    change (bt_list _) with [((1, row_oid), Some [7])]. apply list_elem_of_here.
Defined.

Lemma first_committer_wins_witness :
  exists k', tx_commit late_tx 5 = (after_sample, Ret (inl (Aborted k'))) /\
    is_Some (write_set late_tx !! k').
Proof.
  apply (first_committer_wins sample_tx late_tx empty_storage after_sample 4 5 (1, row_oid));
    [apply empty_store_ok | reflexivity | by vm_compute | apply sample_writes_ok; by right
    | apply sample_writes_ok; by left | lit | lit | reflexivity | cbn; lia | by eexists | by eexists].
Defined.
