(* ===== verification/Sm.v ===== *)
(** kessel-sm: the transactional arms of the replicated state machine.

    [apply] runs one committed operation of the log. Modelled are the replay
    guard and the arms of the versioned layer and of the global sequencer:
    CommitTx with the serializable window, AdvanceWatermark,
    ReportActiveSnapshot, SeqAppend, SeqAppendOnce and SeqRead, with the
    snapshot registry they use. The catalog, the read cache and the schema
    epoch are not part of these arms and are fields of [Rows.Db].

    Source: src/crates/kessel-sm/src/lib.rs, and [Op::is_mutating] of
    src/crates/kessel-proto/src/lib.rs. *)

From Stdlib Require Import ZArith Lia String.
From stdpp Require Import base numbers list sorting gmap fin_maps.
From S2P Require Import Prelude BTree Proto Vfs Wal SsTable Storage View Recovery Crash Mvcc MvccSpec Engine Ssi Tx.

#[local] Open Scope Z_scope.
#[local] Set Warnings "-clear-no-such-hyp".

(** ** Reserved keys *)

Definition SEQ_TYPE : Z := 0xFFFFFFF0.
Definition SEQ_DEDUP_TYPE : Z := 0xFFFFFFF2.

Definition seq_counter_key : Key := make_key SEQ_TYPE (replicate 16 0).
Definition seq_entry_key (seq : Z) : Key := make_key SEQ_TYPE (replicate 8 0 ++ be_bytes 8 seq).

(** 128-bit FNV-1a. *)
Definition fnv_step (h x : Z) : Z := (Z.lxor h x * 0x0000000001000000000000000000013B) mod 2 ^ 128.
Definition fnv16 (b : bytes) : bytes :=
  le_bytes 16 (fold_left fnv_step b 0x6c62272e07bb014262b821756295c58d).

Definition seq_dedup_key (k : bytes) : Key := make_key SEQ_DEDUP_TYPE (fnv16 k).

(** ** State, operations and results *)

Record StateMachine (W : Type) := mkSm {
  sm_storage : Storage W;
  pending_txs : PendingTxs;
  sm_low_water_mark : Z;
  active_snapshots : gmap Z Z;
  replica_min_snapshots : gmap Z Z
}.
Arguments mkSm {W}. Arguments sm_storage {W}. Arguments pending_txs {W}.
Arguments sm_low_water_mark {W}. Arguments active_snapshots {W}. Arguments replica_min_snapshots {W}.

Definition MAX_TX_AGE : Z := 4096.

(** The modelled operations. *)
Inductive Op :=
  | SeqAppend (payload : bytes)
  | SeqRead (from limit : Z)
  | SeqAppendOnce (key payload : bytes)
  | CommitTx (snapshot_opnum : Z) (write_set : list (RowKey * Slot)) (commit_opnum : Z) (read_set : list RowKey)
  | AdvanceWatermark (low_water_mark : Z)
  | ReportActiveSnapshot (replica_id min_active_snapshot : Z).

Inductive AbortReason :=
  | AbortSnapshotOutOfRange
  | WriteWriteConflict (type_id : Z) (object_id : bytes)
  | DangerousStructure (other_commit_opnum : Z)
  | AbortStorageIo (kind : io_error).

Inductive WatermarkRejection :=
  | NotMonotonic (proposed current : Z)
  | AboveCommitCeiling (proposed current_commit : Z).

(** [SchemaError] carries the place and the error of its message. *)
Inductive OpResult :=
  | OpOk
  | Got (v : bytes)
  | SchemaError (place : string) (e : io_error)
  | TxAborted (reason : AbortReason)
  | TxCommitted (commit_opnum : Z)
  | WatermarkAdvanced (new_low_water_mark versions_deleted pending_txs_evicted : Z)
  | WatermarkRejected (reason : WatermarkRejection)
  | ActiveSnapshotRejected (replica_id previous_min proposed : Z)
  | ActiveSnapshotReported (replica_id accepted_min : Z).

Definition is_mutating (op : Op) : bool := match op with SeqRead _ _ => false | _ => true end.

Section Sm.
Context {W : Type} `{Vfs W}.
Implicit Types sm : StateMachine W.

Definition set_storage (x : Storage W) sm : StateMachine W :=
  mkSm x (pending_txs sm) (sm_low_water_mark sm) (active_snapshots sm) (replica_min_snapshots sm).
Definition set_pending (x : PendingTxs) sm : StateMachine W :=
  mkSm (sm_storage sm) x (sm_low_water_mark sm) (active_snapshots sm) (replica_min_snapshots sm).
Definition set_sm_low_water_mark (x : Z) sm : StateMachine W :=
  mkSm (sm_storage sm) (pending_txs sm) x (active_snapshots sm) (replica_min_snapshots sm).
Definition set_active (x : gmap Z Z) sm : StateMachine W :=
  mkSm (sm_storage sm) (pending_txs sm) (sm_low_water_mark sm) x (replica_min_snapshots sm).
Definition set_replica_min (x : gmap Z Z) sm : StateMachine W :=
  mkSm (sm_storage sm) (pending_txs sm) (sm_low_water_mark sm) (active_snapshots sm) x.

Definition on_storage {A} (m : M (Storage W) A) : M (StateMachine W) A := fun sm =>
  let '(s', r) := m (sm_storage sm) in (set_storage s' sm, r).

(** A call whose [io::Result] is matched on. *)
Definition on_storage_result {A} (m : M (Storage W) A) : M (StateMachine W) (A + io_error) := fun sm =>
  match m (sm_storage sm) with
  | (s', Ret a) => (set_storage s' sm, Ret (inl a))
  | (s', Err e) => (set_storage s' sm, Ret (inr e))
  | (s', Panic) => (set_storage s' sm, Panic)
  end.

Definition sm_open : M W (StateMachine W) :=
  s ← storage_open;
  mret (mkSm (set_compact_threshold 8 s) ∅ 0 ∅ ∅).

(** ** Snapshot registry *)

Definition register_snapshot sm (snap : Z) : StateMachine W :=
  set_active (<[snap := default 0 (active_snapshots sm !! snap) + 1]> (active_snapshots sm)) sm.

Definition unregister_snapshot sm (snap : Z) : StateMachine W :=
  match active_snapshots sm !! snap with
  | Some n =>
      let v := Z.max (n - 1) 0 in
      if v =? 0 then set_active (delete snap (active_snapshots sm)) sm
      else set_active (<[snap := v]> (active_snapshots sm)) sm
  | None => sm
  end.

Definition min_active_snapshot sm : option Z := fst <$> bt_first (active_snapshots sm).

(** [values().copied().min()]. *)
Definition min_list (l : list Z) : option Z :=
  fold_left (fun acc v => Some (match acc with Some a => Z.min a v | None => v end)) l None.
Definition global_min_active_snapshot sm : option Z := min_list (bt_list (replica_min_snapshots sm)).*2.

Definition current_commit_opnum sm : Z := default 0 (high_op (sm_storage sm)).

(** ** Rows *)

Definition data_row_get sm (type_id : Z) (oid : bytes) (snapshot : Z) : Slot :=
  match get_at_snapshot (sm_storage sm) type_id oid snapshot with
  | Found v => Some v
  | Tombstoned | NotYetWritten => None
  end.

Definition data_row_put (op_number type_id : Z) (oid : bytes) (value : Slot) : M (StateMachine W) unit :=
  on_storage (put_versioned type_id oid op_number value).

Definition data_row_delete (op_number type_id : Z) (oid : bytes) : M (StateMachine W) unit :=
  data_row_put op_number type_id oid None.

Definition data_row_scan sm (type_id snapshot : Z) : list (Key * bytes) :=
  (fun ov => (make_key type_id ov.1, ov.2)) <$> scan_at_snapshot (sm_storage sm) type_id snapshot.

(** ** The sequencer *)

Definition seq_counter sm : Z :=
  default 0 (b ← Engine.get (sm_storage sm) seq_counter_key; h ← get_range b 0 8; Some (le_value h)).

Definition seq_append (op_number : Z) (payload : bytes) : M (StateMachine W) OpResult :=
  sm ← m_get;
  let s := wrap64 (seq_counter sm + 1) in
  r ← on_storage_result (put op_number (seq_entry_key s) payload);
  match r with
  | inr e => mret (SchemaError "seq store" e)
  | inl _ =>
      r ← on_storage_result (put op_number seq_counter_key (le_bytes 8 s));
      match r with
      | inr e => mret (SchemaError "seq counter" e)
      | inl _ => mret (Got (le_bytes 8 s))
      end
  end.

(** SeqAppendOnce past its dedup lookup; the last two results are dropped. *)
Definition seq_append_new (op_number : Z) (key payload : bytes) : M (StateMachine W) OpResult :=
  sm ← m_get;
  let s := wrap64 (seq_counter sm + 1) in
  r ← on_storage_result (put op_number (seq_entry_key s) payload);
  match r with
  | inr e => mret (SchemaError "seq store" e)
  | inl _ =>
      _ ← on_storage_result (put op_number seq_counter_key (le_bytes 8 s));
      _ ← on_storage_result (put op_number (seq_dedup_key key) (le_bytes 8 s ++ key));
      mret (Got (le_bytes 8 s))
  end.

Definition seq_append_once (op_number : Z) (key payload : bytes) : M (StateMachine W) OpResult :=
  sm ← m_get;
  match Engine.get (sm_storage sm) (seq_dedup_key key) with
  | Some v => if (8 <=? zlen v) && bool_decide (drop 8 v = key) then mret (Got (take 8 v))
              else seq_append_new op_number key payload
  | None => seq_append_new op_number key payload
  end.

(** The loop of SeqRead over the scanned entries, after [n] of them. *)
Fixpoint seq_read_loop (entries : list (Key * bytes)) (limit n : Z) : bytes :=
  match entries with
  | [] => []
  | (k, v) :: entries' =>
      if negb (limit =? 0) && (limit <=? n) then [] else
      let seq := default 0 (be_value <$> get_range k 12 20) in
      le_bytes 8 seq ++ le_bytes 4 (wrap32 (zlen v)) ++ v ++ seq_read_loop entries' limit (n + 1)
  end.

Definition seq_read (from limit : Z) : M (StateMachine W) OpResult :=
  sm ← m_get;
  mret (Got (seq_read_loop (scan_range (sm_storage sm) (seq_entry_key (Z.max from 1)) (seq_entry_key u64_max))
               limit 0)).

(** ** Transactions *)

(** The serializable step: prune the window, then walk it. *)
Definition ssi_check (snap c : Z) (rs : list RowKey) (ws : list (RowKey * Slot)) :
    M (StateMachine W) (option Z) :=
  if bool_decide (rs = []) then mret None else
  sm ← m_get;
  let '(p', verdict) :=
    detect_dangerous_structure (prune_pending_txs (pending_txs sm) c MAX_TX_AGE) snap rs ws.*1 c in
  _ ← m_put (set_pending p' sm);
  mret verdict.

(** Recording the transaction in the window. *)
Definition ssi_record (snap c : Z) (rs : list RowKey) (ws : list (RowKey * Slot)) : M (StateMachine W) unit :=
  if bool_decide (rs = []) then mret tt else
  m_modify (fun sm =>
    set_pending (<[c := {| rec_snapshot_opnum := snap; rec_read_set := rs; rec_write_set := ws.*1;
                           rec_has_outgoing_rw := false; rec_has_incoming_rw := false |}]> (pending_txs sm)) sm).

Definition commit_tx (op_number snap : Z) (ws : list (RowKey * Slot)) (commit_opnum : Z) (rs : list RowKey) :
    M (StateMachine W) OpResult :=
  let c := if commit_opnum =? 0 then op_number else commit_opnum in
  if c <? snap then mret (TxAborted AbortSnapshotOutOfRange) else
  sm ← m_get;
  match conflict_check (sm_storage sm) ws snap c with
  | Some k => mret (TxAborted (WriteWriteConflict k.1 k.2))
  | None =>
      verdict ← ssi_check snap c rs ws;
      match verdict with
      | Some other => mret (TxAborted (DangerousStructure other))
      | None =>
          r ← on_storage (install c ws);
          match r with
          | Some e => mret (TxAborted (AbortStorageIo e))
          | None => _ ← ssi_record snap c rs ws; mret (TxCommitted c)
          end
      end
  end.

(** ** The watermark *)

Definition reclaim (op_number lwm : Z) : M (StateMachine W) OpResult :=
  r ← on_storage (delete_versions_older_than lwm);
  match r with
  | inr _ => mret (WatermarkRejected (AboveCommitCeiling lwm op_number))
  | inl versions_deleted =>
      sm ← m_get;
      let kept := prune_pending_txs_by_watermark (pending_txs sm) lwm in
      let evicted := Z.of_nat (size (pending_txs sm)) - Z.of_nat (size kept) in
      _ ← m_put (set_storage (set_low_water_mark lwm (sm_storage sm))
                  (set_sm_low_water_mark lwm (set_pending kept sm)));
      mret (WatermarkAdvanced lwm versions_deleted evicted)
  end.

Definition advance_watermark (op_number lwm : Z) : M (StateMachine W) OpResult :=
  sm ← m_get;
  if lwm <=? sm_low_water_mark sm
  then mret (WatermarkRejected (NotMonotonic lwm (sm_low_water_mark sm))) else
  if op_number <? lwm then mret (WatermarkRejected (AboveCommitCeiling lwm op_number)) else
  match global_min_active_snapshot sm with
  | Some g =>
      if g <? lwm then mret (WatermarkRejected (AboveCommitCeiling lwm g)) else
      reclaim op_number lwm
  | None => reclaim op_number lwm
  end.

Definition report_active_snapshot (replica_id claimed : Z) : M (StateMachine W) OpResult :=
  sm ← m_get;
  let accept :=
    _ ← m_put (set_replica_min (<[replica_id := claimed]> (replica_min_snapshots sm)) sm);
    mret (ActiveSnapshotReported replica_id claimed) in
  match replica_min_snapshots sm !! replica_id with
  | Some prev => if claimed <? prev then mret (ActiveSnapshotRejected replica_id prev claimed) else accept
  | None => accept
  end.

(** ** One operation of the log *)

Definition apply_arm (op_number : Z) (op : Op) : M (StateMachine W) OpResult :=
  match op with
  | SeqAppend payload => seq_append op_number payload
  | SeqRead from limit => seq_read from limit
  | SeqAppendOnce key payload => seq_append_once op_number key payload
  | CommitTx snap ws c rs => commit_tx op_number snap ws c rs
  | AdvanceWatermark lwm => advance_watermark op_number lwm
  | ReportActiveSnapshot replica_id claimed => report_active_snapshot replica_id claimed
  end.

Definition apply (op_number : Z) (op : Op) : M (StateMachine W) OpResult :=
  sm ← m_get;
  match high_op (sm_storage sm) with
  | Some cursor => if is_mutating op && (op_number <=? cursor) then mret OpOk else apply_arm op_number op
  | None => apply_arm op_number op
  end.

Fixpoint apply_all (ops : list (Z * Op)) : M (StateMachine W) (list OpResult) :=
  match ops with
  | [] => mret []
  | (n, op) :: ops' =>
      r ← apply n op;
      rs ← apply_all ops';
      mret (r :: rs)
  end.

Definition apply_batch (ops : list (Z * Op)) : M (StateMachine W) (list OpResult) :=
  _ ← m_modify (fun sm => set_storage (set_autosync false (sm_storage sm)) sm);
  out ← apply_all ops;
  _ ← on_storage storage_sync;
  _ ← m_modify (fun sm => set_storage (set_autosync true (sm_storage sm)) sm);
  mret out.
End Sm.
