(* ===== verification/SmSpec.v ===== *)
(** kessel-sm: what the transactional arms guarantee.

    CommitTx decides as [Tx::commit] does; over every log whose operations
    come in increasing order the serializable window never holds a write
    skew; the watermark only rises, AdvanceWatermark keeps it at or below every
    reported snapshot and keeps the reads at or above it. The last section
    executes two logs the comments of the source describe
    differently: one commits a history no serial order explains, one shows
    that a restart forgets the window.

    Source: src/crates/kessel-sm/src/lib.rs. *)

From Stdlib Require Import ZArith Lia String.
From stdpp Require Import base numbers list sorting gmap fin_maps.
From S2P Require Import Prelude BTree Proto Vfs Wal SsTable Storage View Recovery Crash Mvcc MvccSpec Engine Ssi Tx Sm.

#[local] Open Scope Z_scope.
#[local] Set Warnings "-clear-no-such-hyp".

(** * CommitTx and [Tx::commit] *)

(** The result of the log operation for an outcome of [Tx::commit]. *)
Definition verdict_of (o : TxCommitOutcome + TxError) : OpResult :=
  match o with
  | inl (Committed c) => TxCommitted c
  | inl (Aborted k) => TxAborted (WriteWriteConflict k.1 k.2)
  | inl (AbortedDangerousStructure other) => TxAborted (DangerousStructure other)
  | inr (SnapshotOutOfRange _ _) => TxAborted AbortSnapshotOutOfRange
  | inr (StorageIo e) => TxAborted (AbortStorageIo e)
  | inr _ => OpOk
  end.

Definition outcome_map {A B} (f : A -> B) (o : outcome A) : outcome B :=
  match o with Ret a => Ret (f a) | Err e => Err e | Panic => Panic end.

Section Commit.
Context {W : Type} `{Vfs W}.
Implicit Types (sm : StateMachine W) (s : Storage W).

Lemma set_storage_id sm : set_storage (sm_storage sm) sm = sm.
Proof. by destruct sm. Qed.

(** The effective commit number. *)
Definition effective (op_number commit_opnum : Z) : Z :=
  if commit_opnum =? 0 then op_number else commit_opnum.

Lemma commit_tx_si n snap ws c sm :
  commit_tx n snap ws c [] sm =
  let c := effective n c in
  if c <? snap then (sm, Ret (TxAborted AbortSnapshotOutOfRange)) else
  match conflict_check (sm_storage sm) ws snap c with
  | Some k => (sm, Ret (TxAborted (WriteWriteConflict k.1 k.2)))
  | None =>
      let '(s', o) := install c ws (sm_storage sm) in
      (set_storage s' sm,
       outcome_map (fun r => match r with Some e => TxAborted (AbortStorageIo e) | None => TxCommitted c end) o)
  end.
Proof.
  unfold commit_tx, effective. set (c' := if c =? 0 then n else c). cbv zeta.
  destruct (c' <? snap); [done | ]. mstep (m_get_ret sm).
  destruct (conflict_check _ _ _ _) as [k | ]; [done | ].
  unfold ssi_check, ssi_record. rewrite bool_decide_true by done.
  unfold mbind at 1, M_bind at 1. cbn. unfold on_storage, mbind, M_bind. cbn.
  by destruct (install c' ws (sm_storage sm)) as [s' [[e | ] | e | ]].
Qed.
End Commit.

(** Without a read set, CommitTx at an explicit commit number decides and
    writes exactly as [Tx::commit] on the same engine, outcome for outcome,
    failures included. *)
Theorem commit_tx_is_tx_commit {W} `{Vfs W} (sm : StateMachine W) tx n c :
  tx_store tx = Exclusive (sm_storage sm) -> c <> 0 ->
  commit_tx n (snapshot_opnum tx) (bt_list (write_set tx)) c [] sm =
  (set_storage (tx_commit tx c).1 sm, outcome_map verdict_of (tx_commit tx c).2).
Proof.
  intros Hs Hc. rewrite commit_tx_si. unfold effective. rewrite (proj2 (Z.eqb_neq c 0)) by done.
  cbv zeta. unfold tx_commit. rewrite Hs. cbn [as_ref].
  destruct (c <? snapshot_opnum tx); [cbn; by rewrite set_storage_id | ].
  destruct (conflict_check _ _ _ _); [cbn; by rewrite set_storage_id | ].
  unfold mbind, M_bind. by destruct (install c _ _) as [s' [[e | ] | e | ]].
Qed.

(** * The serializable window *)

(** Records keep their sets: [p'] has records of [p], possibly retagged. *)
Definition window_le (p' p : PendingTxs) : Prop :=
  forall k r', p' !! k = Some r' -> exists r, p !! k = Some r /\
    rec_snapshot_opnum r' = rec_snapshot_opnum r /\
    rec_read_set r' = rec_read_set r /\ rec_write_set r' = rec_write_set r.

Lemma window_le_refl p : window_le p p.
Proof. intros k r Hk. eauto. Qed.

Lemma window_le_trans p1 p2 p3 : window_le p1 p2 -> window_le p2 p3 -> window_le p1 p3.
Proof.
  intros H1 H2 k r Hk. destruct (H1 k r Hk) as (r2 & Hk2 & -> & -> & ->).
  destruct (H2 k r2 Hk2) as (r3 & Hk3 & -> & -> & ->). eauto.
Qed.

Lemma window_le_split_off k p : window_le (bt_split_off k p) p.
Proof.
  intros j r Hj. rewrite lookup_bt_split_off in Hj. destruct (decide _); [eauto | done].
Qed.

Lemma window_le_detect snap rs ws c p : window_le (detect_dangerous_structure p snap rs ws c).1 p.
Proof.
  pose proof (detect_spec rs ws snap c p) as Hd. destruct (detect_dangerous_structure _ _ _ _ _) as [p' v].
  destruct Hd as [-> _]. cbn. intros k r' Hk. rewrite lookup_walked in Hk.
  destruct (p !! k) as [r | ]; [ | done]. injection Hk as <-. exists r.
  by destruct (decide (concurrent_with snap c k)).
Qed.

#[export] Hint Resolve window_le_refl window_le_split_off window_le_detect : kessel.

(** No two records that did not see each other each read what the other wrote. *)
Definition skew_free (p : PendingTxs) : Prop :=
  forall k1 k2 r1 r2, p !! k1 = Some r1 -> p !! k2 = Some r2 ->
    rec_snapshot_opnum r2 < k1 < k2 -> ~ (rw_to (rec_read_set r2) r1 /\ rw_from (rec_write_set r2) r1).

Record window_ok (n : Z) (p : PendingTxs) : Prop := {
  wo_keys : forall k r, p !! k = Some r -> k <= n;
  wo_sorted : window_sorted p;
  wo_skew : skew_free p
}.

Lemma window_ok_le n n' p p' : n <= n' -> window_le p' p -> window_ok n p -> window_ok n' p'.
Proof.
  intros Hn Hle [Hk Hs Hf]. constructor.
  - intros k r Hr. destruct (Hle k r Hr) as (r0 & Hr0 & _). specialize (Hk k r0 Hr0). lia.
  - intros k r Hr. destruct (Hle k r Hr) as (r0 & Hr0 & _ & -> & ->). by apply (Hs k).
  - intros k1 k2 r1 r2 H1 H2. destruct (Hle k1 r1 H1) as (q1 & Hq1 & _ & E1 & E2).
    destruct (Hle k2 r2 H2) as (q2 & Hq2 & -> & -> & ->). unfold rw_to, rw_from. rewrite E1, E2.
    by apply Hf.
Qed.

(** A transaction the detector lets through joins the window. *)
Lemma window_ok_insert n c p snap rs (ws : list RowKey) :
  window_ok n p -> n < c -> sorted_keys rs -> sorted_keys ws ->
  (detect_dangerous_structure p snap rs ws c).2 = None ->
  window_ok c (<[c := {| rec_snapshot_opnum := snap; rec_read_set := rs; rec_write_set := ws;
                         rec_has_outgoing_rw := false; rec_has_incoming_rw := false |}]>
                 (detect_dangerous_structure p snap rs ws c).1).
Proof.
  intros Hok Hn Hrs Hws Hv. pose proof (window_le_detect snap rs ws c p) as Hle.
  pose proof (detect_spec rs ws snap c p) as Hd.
  destruct (detect_dangerous_structure _ _ _ _ _) as [p' v]. cbn in Hv, Hle |- *. subst v.
  destruct Hd as [_ Hv]. assert (~ dangerous rs ws snap c p) as Hnd by (rewrite <- Hv; by intros [? ?]).
  pose proof (window_ok_le n n p p' ltac:(lia) Hle Hok) as [Hk Hs Hf].
  constructor.
  - intros k r [[<- _] | [_ Hr]]%lookup_insert_Some; [lia | ]. specialize (Hk k r Hr). lia.
  - intros k r [[<- <-] | [_ Hr]]%lookup_insert_Some; [done | by apply (Hs k)].
  - intros k1 k2 r1 r2 H1 H2 Hlt [Ht Hfr].
    apply lookup_insert_Some in H2 as [[<- <-] | [Hne H2]]; cbn [rec_snapshot_opnum rec_read_set rec_write_set] in *.
    + apply lookup_insert_Some in H1 as [[<- _] | [_ H1]]; [lia | ].
      destruct (Hle k1 r1 H1) as (q1 & Hq1 & _ & E1 & E2).
      destruct (wo_sorted _ _ Hok k1 q1 Hq1) as [Hsr Hsw].
      assert (concurrent_with snap c k1) by (unfold concurrent_with, sat_add64; lia).
      apply Hnd. left. split; exists k1, q1; (split; [done | split; [done | ]]); apply intersects_overlap; try done.
      * unfold rw_to in Ht. by rewrite E2 in Ht.
      * unfold rw_from in Hfr. by rewrite E1 in Hfr.
    + specialize (Hk k2 r2 H2). apply lookup_insert_Some in H1 as [[<- _] | [_ H1]]; [lia | ].
      by apply (Hf k1 k2 r1 r2).
Qed.

(** ** What each arm does to the window *)

Section Frame.
Context {W : Type}.
Implicit Types sm : StateMachine W.

Definition keeps {A B} (f : StateMachine W -> B) (m : M (StateMachine W) A) : Prop :=
  forall sm, f (m sm).1 = f sm.

Lemma keeps_ret {A B} (f : StateMachine W -> B) (a : A) : keeps f (mret a).
Proof. done. Qed.

Lemma keeps_bind {A A' B} (f : StateMachine W -> B) (m : M _ A) (k : A -> M _ A') :
  keeps f m -> (forall a, keeps f (k a)) -> keeps f (m ≫= k).
Proof.
  intros Hm Hk sm. unfold mbind, M_bind. specialize (Hm sm).
  destruct (m sm) as [sm' [a | e | ]]; cbn in *; [ | done | done]. by rewrite (Hk a sm').
Qed.

Lemma keeps_get {B} (f : StateMachine W -> B) : keeps f m_get.
Proof. done. Qed.

Lemma keeps_on_storage {A} (m : M (Storage W) A) : keeps pending_txs (on_storage m).
Proof. intros sm. unfold on_storage. by destruct (m (sm_storage sm)). Qed.

Lemma keeps_on_storage_result {A} (m : M (Storage W) A) : keeps pending_txs (on_storage_result m).
Proof. intros sm. unfold on_storage_result. by destruct (m (sm_storage sm)) as [? []]. Qed.
End Frame.

#[export] Hint Resolve keeps_ret keeps_get keeps_on_storage keeps_on_storage_result : kessel.

(** Goes through the binds and branches of a computation that keeps a field. *)
Ltac keeps_tac :=
  repeat first
    [ apply keeps_bind; [solve [auto with kessel] | intros ?]
    | solve [auto with kessel]
    | match goal with |- keeps _ (if ?b then _ else _) => destruct b end
    | match goal with |- keeps _ (match ?b with _ => _ end) => destruct b end ].

Section Arms.
Context {W : Type} `{Vfs W}.
Implicit Types sm : StateMachine W.

Lemma seq_append_window n payload : keeps pending_txs (seq_append n payload : M (StateMachine W) _).
Proof. unfold seq_append. keeps_tac. Qed.

Lemma seq_append_once_window n key payload : keeps pending_txs (seq_append_once n key payload : M (StateMachine W) _).
Proof. unfold seq_append_once, seq_append_new. keeps_tac. Qed.

Lemma seq_read_window from limit : keeps pending_txs (seq_read from limit : M (StateMachine W) _).
Proof. unfold seq_read. keeps_tac. Qed.

Lemma report_window r m : keeps pending_txs (report_active_snapshot r m : M (StateMachine W) _).
Proof. intros sm. unfold report_active_snapshot. mstep (m_get_ret sm). by repeat dcase. Qed.

Lemma reclaim_window n lwm sm : window_le (pending_txs (reclaim n lwm sm).1) (pending_txs sm).
Proof.
  unfold reclaim. pose proof (keeps_on_storage (delete_versions_older_than lwm) sm) as Hk.
  unfold mbind at 1, M_bind at 1. destruct (on_storage _ sm) as [sm1 [[d | e] | e | ]]; cbn in Hk;
    try (cbn; rewrite Hk; auto with kessel). cbn. rewrite <- Hk. apply window_le_split_off.
Qed.

Lemma advance_window n lwm sm : window_le (pending_txs (advance_watermark n lwm sm).1) (pending_txs sm).
Proof.
  unfold advance_watermark. mstep (m_get_ret sm). repeat dcase; auto using reclaim_window with kessel.
Qed.
End Arms.

(** ** Logs *)

(** What the wire format guarantees of a CommitTx: sorted sets. *)
Definition op_sorted (op : Op) : Prop :=
  match op with
  | CommitTx _ ws _ rs => sorted_keys ws.*1 /\ sorted_keys rs
  | _ => True
  end.

(** The number an operation at position [m] of the log works under: a CommitTx
    may bring its own, and takes the position when that is 0. *)
Definition stamp (m : Z) (op : Op) : Z :=
  match op with
  | CommitTx _ _ c _ => if c =? 0 then m else c
  | _ => m
  end.

(** The states a log leads to in which the numbers of the operations increase;
    the first argument is the last number. *)
Inductive log_reaches {W} `{Vfs W} : Z -> StateMachine W -> Prop :=
  | log_start w w' sm : sm_open w = (w', Ret sm) -> log_reaches 0 sm
  | log_apply n m sm op sm' r :
      log_reaches n sm -> n < stamp m op -> op_sorted op -> apply m op sm = (sm', Ret r) ->
      log_reaches (stamp m op) sm'.

Section Window.
Context {W : Type} `{Vfs W}.
Implicit Types sm : StateMachine W.

Lemma commit_tx_window n pos snap ws c rs sm :
  let m := stamp pos (CommitTx snap ws c rs) in
  sorted_keys ws.*1 -> sorted_keys rs -> n < m ->
  window_ok n (pending_txs sm) -> window_ok m (pending_txs (commit_tx pos snap ws c rs sm).1).
Proof.
  intros m Hws Hrs Hnm Hok. unfold commit_tx. cbv zeta. change (if c =? 0 then pos else c) with m. clearbody m.
  assert (window_ok m (pending_txs sm)) as Hok' by (eapply window_ok_le; [ | apply window_le_refl | done]; lia).
  destruct (m <? snap); [done | ]. mstep (m_get_ret sm). destruct (conflict_check _ _ _ _); [done | ].
  unfold ssi_check, ssi_record. destruct (bool_decide (rs = [])) eqn:Eb.
  { unfold mbind at 1, M_bind at 1. cbn. unfold on_storage, mbind, M_bind.
    by destruct (install m ws (sm_storage sm)) as [s' [[e | ] | e | ]]. }
  assert (window_ok n (prune_pending_txs (pending_txs sm) m MAX_TX_AGE)) as Hp
    by (eapply window_ok_le; [done | apply window_le_split_off | done]).
  set (p := prune_pending_txs _ _ _) in *.
  pose proof (window_ok_insert n m p snap rs ws.*1 Hp Hnm Hrs Hws) as Hins.
  pose proof (window_ok_le n m _ _ ltac:(lia) (window_le_detect snap rs ws.*1 m p) Hp) as Hdet.
  unfold mbind at 1, M_bind at 1. unfold mbind at 1, M_bind at 1. cbn [m_get].
  destruct (detect_dangerous_structure _ _ _ _ _) as [p' [other | ]]; [done | ].
  unfold mbind, M_bind, m_put, mret, M_ret, on_storage. cbn [sm_storage set_pending].
  destruct (install m ws (sm_storage sm)) as [s' [[e | ] | e | ]]; cbn; [exact Hdet | by apply Hins | exact Hdet | exact Hdet].
Qed.

Lemma apply_arm_window n m op sm :
  op_sorted op -> n < stamp m op -> window_ok n (pending_txs sm) ->
  window_ok (stamp m op) (pending_txs (apply_arm m op sm).1).
Proof.
  intros Hop Hnm Hok.
  assert (forall p, window_le p (pending_txs sm) -> window_ok (stamp m op) p) as Hle
    by (intros p Hp; eapply window_ok_le; [ | exact Hp | done]; lia).
  destruct op as [p | f l | k p | snap ws c rs | lwm | r mn]; cbn [apply_arm].
  - rewrite seq_append_window. auto with kessel.
  - rewrite seq_read_window. auto with kessel.
  - rewrite seq_append_once_window. auto with kessel.
  - destruct Hop. by apply (commit_tx_window n).
  - apply Hle, advance_window.
  - rewrite report_window. auto with kessel.
Qed.

Lemma sm_open_window (w w' : W) sm : sm_open w = (w', Ret sm) -> pending_txs sm = ∅.
Proof.
  unfold sm_open, mbind, M_bind. destruct (storage_open w) as [w1 [s | | ]]; [ | done | done].
  by intros [= <- <-].
Qed.

Lemma log_window n sm : log_reaches n sm -> window_ok n (pending_txs sm).
Proof.
  induction 1 as [w w' sm Ho | n m sm op sm' r _ IH Hnm Hop Ha].
  { rewrite (sm_open_window w w' sm Ho). by constructor; intros ? *; rewrite lookup_empty. }
  assert (window_ok (stamp m op) (pending_txs sm)) as Hok by (eapply window_ok_le; [ | apply window_le_refl | done]; lia).
  pose proof (apply_arm_window n m op sm Hop Hnm IH) as Harm.
  unfold apply in Ha. erewrite M_bind_ret in Ha by apply m_get_ret.
  destruct (high_op (sm_storage sm)) as [cur | ]; [ | by rewrite Ha in Harm].
  destruct (is_mutating op && (m <=? cur)); [by injection Ha as <- | by rewrite Ha in Harm].
Qed.
End Window.

(** C8: No write skew. Take any log, on any file system, in which the numbers
    of the operations increase (the log position, which is also the commit
    number of a transaction that leaves it open, or the explicit commit number
    of a transaction) and whose transactions come with sorted sets, as the wire
    format has them. In every state it leads to: of two transactions of the
    serializable window, the later not having seen the earlier, it is never the
    case that each read a row the other wrote. *)
Theorem no_write_skew {W} `{Vfs W} n (sm : StateMachine W) k1 k2 r1 r2 :
  log_reaches n sm -> pending_txs sm !! k1 = Some r1 -> pending_txs sm !! k2 = Some r2 ->
  rec_snapshot_opnum r2 < k1 < k2 ->
  ~ ((exists row, row ∈ rec_write_set r1 /\ row ∈ rec_read_set r2) /\
     (exists row, row ∈ rec_write_set r2 /\ row ∈ rec_read_set r1)).
Proof. intros Hl H1 H2 Hlt. exact (wo_skew _ _ (log_window n sm Hl) k1 k2 r1 r2 H1 H2 Hlt). Qed.

(** * The watermark *)

Lemma min_list_fold l a :
  exists g, fold_left (fun acc v => Some (match acc with Some a => Z.min a v | None => v end)) l (Some a) = Some g /\
    g <= a /\ (g = a \/ g ∈ l) /\ forall v, v ∈ l -> g <= v.
Proof.
  revert a. induction l as [ | x l IH]; intros a.
  { exists a. split_and!; [done | lia | by left | ]. intros v Hv. by apply elem_of_nil in Hv. }
  cbn [fold_left]. destruct (IH (Z.min a x)) as (g & -> & Hle & Hin & Hall). exists g. split_and!; [done | lia | | ].
  - destruct Hin as [-> | Hin]; [ | right; by apply list_elem_of_further].
    destruct (Z.min_spec a x) as [[_ ->] | [_ ->]]; [by left | right; apply list_elem_of_here].
  - intros v [-> | Hv]%elem_of_cons; [lia | by apply Hall].
Qed.

Lemma min_list_spec l :
  match min_list l with
  | Some g => g ∈ l /\ forall v, v ∈ l -> g <= v
  | None => l = []
  end.
Proof.
  destruct l as [ | x l]; [done | ]. unfold min_list. cbn [fold_left].
  destruct (min_list_fold l x) as (g & -> & Hle & Hin & Hall). split.
  - destruct Hin as [-> | Hin]; [apply list_elem_of_here | by apply list_elem_of_further].
  - intros v [-> | Hv]%elem_of_cons; [done | by apply Hall].
Qed.

Lemma global_min_spec {W} (sm : StateMachine W) :
  match global_min_active_snapshot sm with
  | Some g => (exists r, replica_min_snapshots sm !! r = Some g) /\
              forall r m, replica_min_snapshots sm !! r = Some m -> g <= m
  | None => replica_min_snapshots sm = ∅
  end.
Proof.
  unfold global_min_active_snapshot. pose proof (min_list_spec (bt_list (replica_min_snapshots sm)).*2) as Hm.
  destruct (min_list _) as [g | ].
  - destruct Hm as [Hin Hall]. split.
    + apply list_elem_of_fmap in Hin as ([r g'] & -> & Hin). exists r. by apply bt_list_elem.
    + intros r m Hr. apply Hall, list_elem_of_fmap. exists (r, m). split; [done | by apply bt_list_elem].
  - apply bt_list_nil. by apply fmap_nil_inv in Hm.
Qed.

(** Writing leaves the engine's own mark alone. *)
Section StorageMark.
Context {W : Type} `{Vfs W}.
Implicit Types s : Storage W.

Lemma on_vfs_lwm {A} (m : M W A) s : low_water_mark (on_vfs m s).1 = low_water_mark s.
Proof. unfold on_vfs. by destruct (m (vfs s)). Qed.

Lemma commit_lwm e s : low_water_mark (commit e s).1 = low_water_mark s.
Proof.
  unfold commit. mstep (m_get_ret s). destruct (txn s); [done | ]. unfold mbind, M_bind.
  pose proof (on_vfs_lwm (wal_append (wal_end s) e) s) as H1.
  destruct (on_vfs (wal_append (wal_end s) e) s) as [s1 [n | | ]]; [ | done | done]. cbn in *.
  destruct (autosync s); [ | done].
  pose proof (on_vfs_lwm wal_sync (set_wal_end n s1)) as H2.
  by destruct (on_vfs wal_sync (set_wal_end n s1)) as [s2 [[] | | ]]; cbn in *; rewrite H2.
Qed.

Lemma put_lwm n k v s : low_water_mark (put n k v s).1 = low_water_mark s.
Proof. unfold put. destruct (data_row_dispatch k); apply commit_lwm. Qed.

Lemma install_lwm c ws s : low_water_mark (install c ws s).1 = low_water_mark s.
Proof.
  revert s. induction ws as [ | [[t o] v] ws IH]; intros s; [done | ]. cbn [install].
  pose proof (commit_lwm {| op_number := c; entry_key := make_versioned_key t o c; entry_value := v |} s) as Hc.
  unfold put_versioned, put_entry_versioned. destruct (commit _ s) as [s1 [[] | | ]]; cbn in *; [ | done | done].
  by rewrite IH.
Qed.

Lemma delete_all_lwm n ks s : low_water_mark (delete_all n ks s).1 = low_water_mark s.
Proof.
  revert s. induction ks as [ | k ks IH]; intros s; [done | ]. cbn [delete_all].
  assert (low_water_mark (delete_key n k s).1 = low_water_mark s) as Hk
    by (unfold delete_key; destruct (data_row_dispatch k); apply commit_lwm).
  destruct (delete_key n k s) as [s1 [[] | | ]]; cbn in *; [by rewrite IH | done | done].
Qed.

Lemma gc_lwm lwm s : low_water_mark (delete_versions_older_than lwm s).1 = low_water_mark s.
Proof.
  unfold delete_versions_older_than. mstep (m_get_ret s). set (ks := older_keys _ _).
  pose proof (delete_all_lwm lwm ks s) as Hk. unfold mbind, M_bind.
  by destruct (delete_all lwm ks s) as [s1 [[e | ] | | ]].
Qed.
End StorageMark.

Definition marks {W} (sm : StateMachine W) : Z * Z := (low_water_mark (sm_storage sm), sm_low_water_mark sm).

Section Marks.
Context {W : Type} `{Vfs W}.
Implicit Types sm : StateMachine W.

Lemma keeps_on_storage_marks {A} (m : M (Storage W) A) :
  (forall s, low_water_mark (m s).1 = low_water_mark s) -> keeps marks (on_storage m).
Proof.
  intros Hm sm. unfold on_storage, marks. specialize (Hm (sm_storage sm)).
  destruct (m (sm_storage sm)); cbn in *. by rewrite Hm.
Qed.

Lemma keeps_on_storage_result_marks {A} (m : M (Storage W) A) :
  (forall s, low_water_mark (m s).1 = low_water_mark s) -> keeps marks (on_storage_result m).
Proof.
  intros Hm sm. unfold on_storage_result, marks. specialize (Hm (sm_storage sm)).
  destruct (m (sm_storage sm)) as [? []]; cbn in *; by rewrite Hm.
Qed.

Lemma keeps_ssi_check_marks snap c rs ws : keeps marks (ssi_check snap c rs ws : M (StateMachine W) _).
Proof.
  intros sm. unfold ssi_check. destruct (bool_decide _); [done | ]. mstep (m_get_ret sm).
  by destruct (detect_dangerous_structure _ _ _ _ _).
Qed.

Lemma keeps_ssi_record_marks snap c rs ws : keeps marks (ssi_record snap c rs ws : M (StateMachine W) _).
Proof. intros sm. unfold ssi_record. by destruct (bool_decide _). Qed.

#[local] Hint Resolve keeps_on_storage_marks keeps_on_storage_result_marks keeps_ssi_check_marks
  keeps_ssi_record_marks put_lwm install_lwm gc_lwm : kessel.

(** What an arm does to the marks: nothing, or AdvanceWatermark's success. *)
Lemma reclaim_marks n lwm sm :
  marks (reclaim n lwm sm).1 = marks sm \/
  (marks (reclaim n lwm sm).1 = (lwm, lwm) /\
   pending_txs (reclaim n lwm sm).1 = prune_pending_txs_by_watermark (pending_txs sm) lwm).
Proof.
  unfold reclaim. pose proof (keeps_on_storage_marks (delete_versions_older_than lwm) (gc_lwm lwm) sm) as Hm.
  pose proof (keeps_on_storage (delete_versions_older_than lwm) sm) as Hp.
  unfold mbind, M_bind, m_get, m_put, mret, M_ret.
  destruct (on_storage _ sm) as [sm1 [[d | e] | e | ]]; cbn in Hm, Hp; [right | by left..].
  cbn. by rewrite Hp.
Qed.

Lemma advance_marks n lwm sm :
  marks (advance_watermark n lwm sm).1 = marks sm \/
  (sm_low_water_mark sm < lwm <= n /\ marks (advance_watermark n lwm sm).1 = (lwm, lwm) /\
   pending_txs (advance_watermark n lwm sm).1 = prune_pending_txs_by_watermark (pending_txs sm) lwm).
Proof.
  unfold advance_watermark. erewrite !M_bind_ret by apply m_get_ret.
  destruct (lwm <=? _) eqn:E1; [by left | ]. destruct (n <? lwm) eqn:E2; [by left | ]. zb.
  pose proof (reclaim_marks n lwm sm) as Hr.
  destruct (global_min_active_snapshot sm) as [g | ]; [destruct (g <? lwm); [by left | ] | ];
    (destruct Hr as [ | [? ?]]; [by left | right; split_and!; done]).
Qed.

Lemma commit_tx_keys pos snap ws c rs sm k r :
  let m := stamp pos (CommitTx snap ws c rs) in
  pending_txs (commit_tx pos snap ws c rs sm).1 !! k = Some r -> k = m \/ is_Some (pending_txs sm !! k).
Proof.
  intros m. unfold commit_tx. cbv zeta. change (if c =? 0 then pos else c) with m. clearbody m. destruct (m <? snap); [intros Hk; right; by exists r | ].
  mstep (m_get_ret sm). destruct (conflict_check _ _ _ _); [intros Hk; right; by exists r | ].
  unfold ssi_check, ssi_record. destruct (bool_decide (rs = [])) eqn:Eb.
  { unfold mbind at 1, M_bind at 1. cbn. unfold on_storage, mbind, M_bind.
    destruct (install m ws (sm_storage sm)) as [s' [[e | ] | e | ]]; intros Hk; right; by exists r. }
  set (p := prune_pending_txs (pending_txs sm) m MAX_TX_AGE).
  pose proof (window_le_trans _ _ _ (window_le_detect snap rs ws.*1 m p) (window_le_split_off _ _)) as Hle.
  unfold mbind at 1, M_bind at 1. unfold mbind at 1, M_bind at 1. cbn [m_get].
  destruct (detect_dangerous_structure _ _ _ _ _) as [p' v]. cbn in Hle.
  assert (forall r, p' !! k = Some r -> k = m \/ is_Some (pending_txs sm !! k)) as Hin.
  { intros r' Hr. destruct (Hle k r' Hr) as (r0 & Hr0 & _). right. by exists r0. }
  destruct v as [other | ]; [by intros ?%Hin | ].
  unfold mbind, M_bind, m_put, mret, M_ret, on_storage. cbn [sm_storage set_pending].
  destruct (install m ws (sm_storage sm)) as [s' [[e | ] | e | ]]; cbn; [by intros ?%Hin | | by intros ?%Hin..].
  intros [[<- _] | [_ Hr]]%lookup_insert_Some; [by left | by eapply Hin].
Qed.

Lemma commit_tx_marks m snap ws c rs : keeps marks (commit_tx m snap ws c rs : M (StateMachine W) _).
Proof. unfold commit_tx. keeps_tac. Qed.

Lemma seq_append_marks n p : keeps marks (seq_append n p : M (StateMachine W) _).
Proof. unfold seq_append. keeps_tac. Qed.
Lemma seq_append_once_marks n k p : keeps marks (seq_append_once n k p : M (StateMachine W) _).
Proof. unfold seq_append_once, seq_append_new. keeps_tac. Qed.
Lemma seq_read_marks f l : keeps marks (seq_read f l : M (StateMachine W) _).
Proof. unfold seq_read. keeps_tac. Qed.
Lemma report_marks r m : keeps marks (report_active_snapshot r m : M (StateMachine W) _).
Proof. intros sm. unfold report_active_snapshot. mstep (m_get_ret sm). by repeat dcase. Qed.

(** The marks agree, are below the log position and below every record. *)
Record marks_ok (n : Z) sm : Prop := {
  mo_sync : low_water_mark (sm_storage sm) = sm_low_water_mark sm;
  mo_le : 0 <= sm_low_water_mark sm <= n;
  mo_window : forall k r, pending_txs sm !! k = Some r -> sm_low_water_mark sm <= k
}.

Lemma marks_ok_keep n m sm sm' :
  n < m -> marks_ok n sm -> marks sm' = marks sm ->
  (forall k r, pending_txs sm' !! k = Some r -> k = m \/ is_Some (pending_txs sm !! k)) -> marks_ok m sm'.
Proof.
  intros Hnm [Hs Hl Hw] Hm Hp. unfold marks in Hm. injection Hm as H1 H2. constructor.
  - congruence.
  - lia.
  - intros k r Hr. rewrite H2. destruct (Hp k r Hr) as [-> | [r0 Hr0]]; [lia | by eapply Hw].
Qed.

Lemma apply_arm_marks n m op sm :
  n < stamp m op -> marks_ok n sm -> marks_ok (stamp m op) (apply_arm m op sm).1.
Proof.
  intros Hnm Hok.
  assert (forall sm', marks sm' = marks sm -> window_le (pending_txs sm') (pending_txs sm) -> marks_ok (stamp m op) sm') as Hkeep.
  { intros sm' Hm Hp. eapply marks_ok_keep; [exact Hnm | done | done | ].
    intros k r Hr. destruct (Hp k r Hr) as (r0 & ? & _). right. by exists r0. }
  destruct op as [p | f l | k p | snap ws c rs | lwm | r mn]; cbn [apply_arm].
  - apply Hkeep; [apply seq_append_marks | rewrite seq_append_window; auto with kessel].
  - apply Hkeep; [apply seq_read_marks | rewrite seq_read_window; auto with kessel].
  - apply Hkeep; [apply seq_append_once_marks | rewrite seq_append_once_window; auto with kessel].
  - eapply marks_ok_keep; [exact Hnm | done | apply commit_tx_marks | ].
    intros k r. apply commit_tx_keys.
  - destruct (advance_marks m lwm sm) as [Hm | (Hlt & Hm & Hp)]; [apply Hkeep; [done | apply advance_window] | ].
    unfold marks in Hm. injection Hm as H1 H2. destruct Hok. cbn [stamp] in *. constructor; [congruence | lia | ].
    intros k r Hr. rewrite Hp in Hr. unfold prune_pending_txs_by_watermark in Hr.
    rewrite lookup_bt_split_off in Hr. destruct (decide (kle lwm k)) as [Hle | ]; [ | done].
    apply kle_Z in Hle. rewrite H2. exact Hle.
  - apply Hkeep; [apply report_marks | rewrite report_window; auto with kessel].
Qed.

Lemma sm_open_marks (w w' : W) sm : sm_open w = (w', Ret sm) -> marks_ok 0 sm.
Proof.
  unfold sm_open, mbind at 1, M_bind at 1. destruct (storage_open w) as [w1 [s | | ]] eqn:Ho; [ | done | done].
  intros [= <- <-]. constructor; cbn; [ | lia | intros ? *; by rewrite lookup_empty].
  revert Ho. unfold storage_open, mbind, M_bind.
  repeat match goal with |- context [match ?m ?w with _ => _ end] => destruct (m w) as [? [? | | ]]; [ | done | done] end.
  by intros [= <- <-].
Qed.

Lemma log_marks n sm : log_reaches n sm -> marks_ok n sm.
Proof.
  induction 1 as [w w' sm Ho | n m sm op sm' r _ IH Hnm Hop Ha]; [by eapply sm_open_marks | ].
  pose proof (apply_arm_marks n m op sm Hnm IH) as Harm.
  unfold apply in Ha. erewrite M_bind_ret in Ha by apply m_get_ret.
  destruct (high_op (sm_storage sm)) as [cur | ]; [ | by rewrite Ha in Harm].
  destruct (is_mutating op && (m <=? cur)); [ | by rewrite Ha in Harm].
  injection Ha as <-. destruct IH. constructor; [done | lia | done].
Qed.
End Marks.

Lemma apply_marks {W} `{Vfs W} m op (sm : StateMachine W) :
  sm_low_water_mark sm <= sm_low_water_mark (apply m op sm).1.
Proof.
  unfold apply. mstep (m_get_ret sm).
  assert (sm_low_water_mark sm <= sm_low_water_mark (apply_arm m op sm).1) as Harm.
  { assert (forall sm' : StateMachine W, marks sm' = marks sm -> sm_low_water_mark sm <= sm_low_water_mark sm') as Hm
      by (intros sm' [= _ ->]; lia).
    destruct op as [p | f l | k p | snap ws c rs | lwm | r mn]; cbn [apply_arm];
      [apply Hm, seq_append_marks | apply Hm, seq_read_marks | apply Hm, seq_append_once_marks
      | apply Hm, commit_tx_marks | | apply Hm, report_marks].
    destruct (advance_marks m lwm sm) as [Ha | (Hlt & Ha & _)]; [by apply Hm | ].
    injection Ha as _ ->. lia. }
  destruct (high_op (sm_storage sm)); [ | done]. by destruct (is_mutating op && _).
Qed.

(** C25: The watermark over a log in which the numbers of the operations
    increase (the log position, or the explicit commit number of a
    transaction) and whose transactions have sorted sets: each operation leaves
    it the same or raises it, never above its own number; the engine's copy,
    against which new transactions are checked, agrees with the state
    machine's; and no record of the serializable window is below it. *)
Theorem watermark_log_invariant {W} `{Vfs W} n m (sm : StateMachine W) op sm' r :
  log_reaches n sm -> n < stamp m op -> op_sorted op -> apply m op sm = (sm', Ret r) ->
  sm_low_water_mark sm <= sm_low_water_mark sm' <= stamp m op /\
  (forall snap, begin_rw (sm_storage sm') snap =
     if snap <? sm_low_water_mark sm' then inr (SnapshotTooOld (sm_low_water_mark sm'))
     else inl (mkTx (Exclusive (sm_storage sm')) snap ∅ ∅)) /\
  (forall k rec, pending_txs sm' !! k = Some rec -> sm_low_water_mark sm' <= k <= stamp m op).
Proof.
  intros Hl Hnm Hop Ha. assert (log_reaches (stamp m op) sm') as Hl' by (by eapply log_apply).
  pose proof (apply_marks m op sm) as Hmono. rewrite Ha in Hmono.
  destruct (log_marks _ sm' Hl') as [Hs Hle Hw]. destruct (log_window _ sm' Hl') as [Hk _ _]. split_and!.
  - done.
  - lia.
  - intros snap. unfold begin_rw. by rewrite Hs.
  - intros k rec Hr. split; [by eapply Hw | by eapply Hk].
Qed.

Section GcTotal.
Context {W : Type} `{VfsLaws W}.
Implicit Types s : Storage W.

Lemma delete_all_total n ks s :
  store_ok s -> u64_ok n -> Forall (fun k => zlen k = 28 /\ bytes_ok k) ks ->
  exists s', delete_all n ks s = (s', Ret None) /\ store_ok s'.
Proof.
  intros Hs Hn Hks. revert s Hs. induction Hks as [ | k ks [Hl Hb] _ IH]; intros s Hs; [by exists s | ].
  cbn [delete_all]. rewrite delete_key_versioned by done.
  destruct (commit_total {| op_number := n; entry_key := k; entry_value := None |} s Hs) as (s1 & -> & Hs1 & _).
  - constructor; cbn; [done | done | rewrite Hl; done | done | ].
    unfold encode_entry. cbn. autorewrite with zlen. rewrite Hl. unfold u32_max, zlen. rewrite ?le_bytes_length. cbn. lia.
  - apply (IH s1 Hs1).
Qed.

Lemma gc_total lwm s :
  store_ok s -> u64_ok lwm ->
  exists s' d, delete_versions_older_than lwm s = (s', Ret (inl d)) /\ store_ok s'.
Proof.
  intros Hs Hn. pose proof (store_ok_reads s Hs) as [Hwf Hk]. unfold delete_versions_older_than.
  mstep (m_get_ret s). rewrite scan_range_versions_spec by done. set (ks := older_keys _ _).
  destruct (delete_all_total lwm ks s Hs Hn) as (s' & Hd & Hs').
  - apply Forall_forall. intros k Hin. unfold ks in Hin.
    apply older_keys_elem in Hin as (v & c & [Hv _]%bt_range_elem & Hdec & _).
    split; [by eapply decode_inl_len | by eapply Hk].
  - exists s', (zlen ks). split; [ | done]. by mstep Hd.
Qed.
End GcTotal.

(** AdvanceWatermark on every branch, over any file system that keeps its
    laws: a mark not above the current one, above the operation's own position
    or above a snapshot some replica reported is rejected without effect;
    otherwise the operation succeeds, both marks move, exactly the window's
    records below the mark are evicted, and every read whose newest visible
    version is at or above the mark is unchanged. *)
Theorem advance_watermark_correct {W} `{VfsLaws W} n lwm (sm : StateMachine W) :
  store_ok (sm_storage sm) -> u64_ok lwm ->
  let allowed := sm_low_water_mark sm < lwm <= n /\
                 forall r g, replica_min_snapshots sm !! r = Some g -> lwm <= g in
  (~ allowed -> exists reason, advance_watermark n lwm sm = (sm, Ret (WatermarkRejected reason))) /\
  (allowed -> exists sm' d e,
     advance_watermark n lwm sm = (sm', Ret (WatermarkAdvanced lwm d e)) /\
     store_ok (sm_storage sm') /\ sm_low_water_mark sm' = lwm /\ low_water_mark (sm_storage sm') = lwm /\
     (forall k, pending_txs sm' !! k = if decide (lwm <= k) then pending_txs sm !! k else None) /\
     (forall t o snap c v, oid_ok o -> newest (view (sm_storage sm)) t o snap c v -> lwm <= c ->
        get_at_snapshot (sm_storage sm') t o snap = get_at_snapshot (sm_storage sm) t o snap)).
Proof.
  intros Hs Hu allowed. unfold advance_watermark. erewrite !M_bind_ret by apply m_get_ret.
  pose proof (global_min_spec sm) as Hg. split.
  - intros Hn. destruct (lwm <=? sm_low_water_mark sm) eqn:E1; [by eexists | ].
    destruct (n <? lwm) eqn:E2; [by eexists | ]. zb.
    destruct (global_min_active_snapshot sm) as [g | ].
    + destruct (g <? lwm) eqn:E3; [by eexists | ]. zb. destruct Hn. split; [lia | ].
      intros r m Hr. destruct Hg as [_ Hg]. specialize (Hg r m Hr). lia.
    + destruct Hn. split; [lia | ]. intros r g. by rewrite Hg, lookup_empty.
  - intros [Hlt Hr]. zif_false. zif_false.
    assert (match global_min_active_snapshot sm with
            | Some g => if g <? lwm then mret (WatermarkRejected (AboveCommitCeiling lwm g)) else reclaim n lwm
            | None => reclaim n lwm end = reclaim (W:=W) n lwm) as ->.
    { destruct (global_min_active_snapshot sm) as [g | ]; [ | done].
      destruct Hg as [(r & Hrg) _]. specialize (Hr r g Hrg). by zif_false. }
    destruct (gc_total lwm _ Hs Hu) as (s' & d & Hgc & Hs'). pose proof (store_ok_reads _ Hs) as [Hwf Hk].
    unfold reclaim. erewrite M_bind_ret by (unfold on_storage; rewrite Hgc; reflexivity).
    eexists _, d, _. split; [reflexivity | ]. cbn. split_and!; [ | done | done | | ].
    + destruct Hs' as [(es & ms & Hd) Ht Hks]. constructor; cbn; [ | done | done].
      exists es, ms. destruct Hd. by constructor.
    + intros k. unfold prune_pending_txs_by_watermark. rewrite lookup_bt_split_off.
      destruct (decide (lwm <= k)) as [Hle | Hle]; [by rewrite decide_True by (by apply kle_Z) | ].
      rewrite decide_False; [done | ]. by rewrite kle_Z.
    + intros t o snap c v Ho Hnew Hle. destruct (gc_view lwm d _ s' Hgc Hwf Hk) as [_ Hv].
      rewrite (get_at_snapshot_newest (sm_storage sm) t o snap c v Hwf Hk Ho Hnew).
      destruct (gc_reads_ok lwm d _ s' Hgc Hwf Hk) as [Hwf' Hk'].
      destruct Hnew as (Hc & Hcs & Hcv & Hn).
      apply (get_at_snapshot_newest (set_low_water_mark lwm s') t o snap c v); [done | done | done | ].
      split_and!; [done | done | | ].
      * change (view (set_low_water_mark lwm s')) with (view s'). rewrite Hv, Hcv, decode_versioned_key by done.
        by rewrite (proj2 (Z.ltb_ge _ _)).
      * intros c' Hc' Hlt'. change (view (set_low_water_mark lwm s')) with (view s'). by rewrite Hv, Hn.
Qed.

(** ** Applied to a sample *)

(** The state machine opened on an empty file system. *)
Definition sm_new : StateMachine MemVfs := mkSm (set_compact_threshold 8 empty_storage) ∅ 0 ∅ ∅.

Definition row (t x : Z) : RowKey := (t, replicate 16 x).
Definition row_a : RowKey := row 3 1.
Definition row_b : RowKey := row 3 2.
Definition row_c : RowKey := row 3 3.

Lemma sm_new_open : sm_open memvfs_new = (vfs empty_storage, Ret sm_new).
Proof. by vm_compute. Qed.

Lemma sm_new_store_ok : store_ok (sm_storage sm_new).
Proof.
  destruct empty_store_ok as [(es & ms & Hd) Ht Hk]. constructor; [ | done | done].
  exists es, ms. destruct Hd. by constructor.
Qed.

Lemma commit_tx_is_tx_commit_witness :
  (commit_tx 9 0 (bt_list (write_set sample_tx)) 4 [] (mkSm empty_storage ∅ 0 ∅ ∅)).2 = Ret (TxCommitted 4).
Proof.
  change 0 with (snapshot_opnum sample_tx).
  rewrite (commit_tx_is_tx_commit (mkSm empty_storage ∅ 0 ∅ ∅) sample_tx 9 4); [ | reflexivity | lia].
  by vm_compute.
Defined.

(** Two concurrent transactions: the second read what the first wrote. *)
Definition op_first : Op := CommitTx 0 [(row_a, Some [1])] 0 [row_b].
Definition op_second : Op := CommitTx 0 [(row_c, Some [2])] 0 [row_a].
Definition sm_first : StateMachine MemVfs := (apply 1 op_first sm_new).1.
Definition sm_second : StateMachine MemVfs := (apply 2 op_second sm_first).1.

Lemma first_reached : log_reaches 1 sm_first.
Proof.
  eapply (log_apply 0 1 sm_new op_first); [eapply log_start, sm_new_open | by vm_compute | | by vm_compute].
  split; repeat constructor.
Qed.

Lemma second_reached : log_reaches 2 sm_second.
Proof.
  eapply (log_apply 1 2 sm_first op_second); [apply first_reached | by vm_compute | | by vm_compute].
  split; repeat constructor.
Qed.

Lemma no_write_skew_witness :
  (exists x, x ∈ [row_a] /\ x ∈ [row_a]) /\ ~ (exists x, x ∈ [row_c] /\ x ∈ [row_b]).
Proof.
  assert (exists x, x ∈ [row_a] /\ x ∈ [row_a]) as Hx by (exists row_a; split; apply list_elem_of_here).
  split; [exact Hx | ]. intros Hy.
  refine (no_write_skew 2 sm_second 1 2
    {| rec_snapshot_opnum := 0; rec_read_set := [row_b]; rec_write_set := [row_a];
       rec_has_outgoing_rw := false; rec_has_incoming_rw := true |}
    {| rec_snapshot_opnum := 0; rec_read_set := [row_a]; rec_write_set := [row_c];
       rec_has_outgoing_rw := false; rec_has_incoming_rw := false |}
    second_reached _ _ _ (conj Hx Hy)); [by vm_compute.. | cbn; lia].
Defined.

Lemma watermark_log_invariant_witness :
  sm_low_water_mark sm_first <= sm_low_water_mark (apply 2 (AdvanceWatermark 1) sm_first).1 <= 2.
Proof.
  refine (proj1 (watermark_log_invariant 1 2 sm_first (AdvanceWatermark 1) _ _ first_reached _ I _));
    by vm_compute.
Defined.

Lemma advance_watermark_correct_witness :
  exists sm' d e, advance_watermark 5 3 sm_new = (sm', Ret (WatermarkAdvanced 3 d e)) /\ sm_low_water_mark sm' = 3.
Proof.
  destruct (advance_watermark_correct 5 3 sm_new sm_new_store_ok ltac:(lit)) as [_ Ha].
  destruct Ha as (sm' & d & e & Ha & _ & Hl & _).
  - split; [cbn; lia | ]. intros r g Hr. cbn in Hr. rewrite lookup_empty in Hr. discriminate Hr.
  - exists sm', d, e. split; [exact Ha | exact Hl].
Defined.

(** * Logs the source's comments describe differently *)

(** A transaction of a history: what it read and wrote. *)
Record HistTx := { h_reads : list (RowKey * SnapshotRead); h_writes : list (RowKey * Slot) }.

Definition history_of {W} (s : Storage W) (op : Op) : HistTx :=
  match op with
  | CommitTx snap ws _ rs =>
      {| h_reads := (fun k => (k, get_at_snapshot s k.1 k.2 snap)) <$> rs; h_writes := ws |}
  | _ => {| h_reads := []; h_writes := [] |}
  end.

(** Running the transactions one after the other on a database that starts
    empty: do all reads return what they returned in the history? *)
Fixpoint explained (db : gmap RowKey Slot) (order : list HistTx) : bool :=
  match order with
  | [] => true
  | t :: order' =>
      bool_decide (Forall (fun kr => kr.2 = match db !! kr.1 with Some v => read_of v | None => NotYetWritten end)
                     (h_reads t)) &&
      explained (fold_left (fun db kv => <[kv.1 := kv.2]> db) (h_writes t) db) order'
  end.

Definition serializable (txs : list HistTx) : bool := existsb (explained ∅) (permutations txs).

(** C writes b; the pivot P reads the old b and writes a; the reader R sees
    the new b and the old a. *)
Definition pivot_log : list (Z * Op) :=
  [(1, CommitTx 0 [(row_b, Some [1])] 0 [row_c]);
   (2, CommitTx 0 [(row_a, Some [2])] 0 [row_b]);
   (3, CommitTx 1 [] 0 [row_a; row_b])].

(** C36: The detector does not make the log serializable: three transactions in
    which the second is the pivot of a dangerous structure all commit, because
    the record of a committed transaction starts without the edges found when
    it committed, and no serial order of the three explains what they read. *)
Theorem committed_pivot_is_missed :
  exists sm, apply_all pivot_log sm_new = (sm, Ret [TxCommitted 1; TxCommitted 2; TxCommitted 3]) /\
    serializable (history_of (sm_storage sm) <$> pivot_log.*2) = false.
Proof.
  exists (apply_all pivot_log sm_new).1. split; by vm_compute.
Qed.

(** A write skew against [op_first]. *)
Definition op_skew : Op := CommitTx 0 [(row_b, Some [3])] 0 [row_a].

(** A restart forgets the serializable window: the replica that reopened
    its files and was fed the log again answers the first operation from the
    replay guard, without recording it, and then commits a transaction that a
    replica which did not restart aborts, so their rows differ. *)
Theorem restart_forgets_window :
  exists sm sm' w,
    sm_open (vfs (sm_storage sm_first)) = (w, Ret sm) /\
    apply_all [(1, op_first); (2, op_skew)] sm = (sm', Ret [OpOk; TxCommitted 2]) /\
    (apply 2 op_skew sm_first).2 = Ret (TxAborted (DangerousStructure 1)) /\
    get_at_snapshot (sm_storage sm') 3 row_b.2 9 = Found [3] /\
    get_at_snapshot (sm_storage (apply 2 op_skew sm_first).1) 3 row_b.2 9 = NotYetWritten.
Proof.
  destruct (sm_open (vfs (sm_storage sm_first))) as [w o] eqn:Ho.
  destruct o as [sm | e | ]; [ | vm_compute in Ho; discriminate Ho..].
  exists sm, (apply_all [(1, op_first); (2, op_skew)] sm).1, w.
  assert (sm = match (sm_open (vfs (sm_storage sm_first))).2 with Ret a => a | _ => sm_new end) as Hsm by (by rewrite Ho).
  split; [done | ]. rewrite Hsm. clear. split_and!; by vm_compute.
Qed.

Definition late_skew_log : list (Z * Op) :=
  [(10, CommitTx 0 [(row_a, Some [1])] 5 [row_b]); (11, CommitTx 0 [(row_b, Some [2])] 3 [row_a])].
Definition below_mark_log : list (Z * Op) :=
  [(5, AdvanceWatermark 4); (6, CommitTx 0 [(row_a, Some [1])] 2 [row_b])].

(** A commit number that the transaction brings itself is not checked against
    the log. With one below an earlier one, two halves of a write skew commit;
    with one below the watermark, the record goes into the window below it. *)
Theorem explicit_number_escapes_the_window :
  (exists sm, apply_all late_skew_log sm_new = (sm, Ret [TxCommitted 5; TxCommitted 3]) /\
    serializable (history_of (sm_storage sm) <$> late_skew_log.*2) = false) /\
  (exists sm, apply_all below_mark_log sm_new = (sm, Ret [WatermarkAdvanced 4 0 0; TxCommitted 2]) /\
    sm_low_water_mark sm = 4 /\ is_Some (pending_txs sm !! 2)).
Proof.
  split; [exists (apply_all late_skew_log sm_new).1 | exists (apply_all below_mark_log sm_new).1]; split_and!;
    [by vm_compute.. | ].
  vm_compute. by eexists.
Qed.
