(* ===== verification/Sequencer.v ===== *)
(** kessel-sm: the global sequencer is an append-only list.

    The sequencer keeps its log in a reserved key space: a counter, one entry
    per sequence number in big endian so that a range scan is in order, and a
    map from hashed request keys to sequence numbers. [seq_step] is the
    reference: a list of payloads and a finite map. The arms of the state
    machine are proved to refine it, on the bytes they return.

    Source: src/crates/kessel-sm/src/lib.rs (SeqAppend, SeqAppendOnce,
    SeqRead). *)

From Stdlib Require Import ZArith Lia String.
From stdpp Require Import base numbers list sorting gmap fin_maps.
From S2P Require Import Prelude BTree Proto Vfs Wal SsTable Storage View Recovery Crash Mvcc MvccSpec Engine Ssi Tx Sm SmSpec.

#[local] Open Scope Z_scope.
#[local] Set Warnings "-clear-no-such-hyp".

(** * The reference *)

(** Payloads in order, and for each key hash the last request stored under it
    with its sequence number. *)
Record SeqLog := { log : list bytes; dedup : gmap bytes (Z * bytes) }.

Definition seq_empty : SeqLog := {| log := []; dedup := ∅ |}.

Fixpoint number (i : Z) (l : list bytes) : list (Z * bytes) :=
  match l with
  | [] => []
  | p :: l' => (i, p) :: number (i + 1) l'
  end.

Definition encode_entries (l : list (Z * bytes)) : bytes :=
  concat (map (fun ip => le_bytes 8 ip.1 ++ le_bytes 4 (zlen ip.2) ++ ip.2) l).

(** The entries from [from] on, at most [limit] of them unless it is 0. *)
Definition entries_from (from limit : Z) (l : list bytes) : list (Z * bytes) :=
  let es := filter (fun ip => (Z.max from 1 <= ip.1)) (number 1 l) in
  if limit =? 0 then es else take (Z.to_nat limit) es.

Definition seq_push (payload : bytes) (q : SeqLog) : SeqLog :=
  {| log := log q ++ [payload]; dedup := dedup q |}.

Definition seq_step (op : Op) (q : SeqLog) : SeqLog * OpResult :=
  match op with
  | SeqAppend payload => (seq_push payload q, Got (le_bytes 8 (zlen (log q) + 1)))
  | SeqAppendOnce key payload =>
      let append :=
        ({| log := log q ++ [payload]; dedup := <[fnv16 key := (zlen (log q) + 1, key)]> (dedup q) |},
         Got (le_bytes 8 (zlen (log q) + 1))) in
      match dedup q !! fnv16 key with
      | Some (s, key') => if decide (key' = key) then (q, Got (le_bytes 8 s)) else append
      | None => append
      end
  | SeqRead from limit => (q, Got (encode_entries (entries_from from limit (log q))))
  | _ => (q, OpOk)
  end.

(** * Keys *)

Definition reserved (t : Z) : Prop := MAX_USER_TYPE_ID < t <= u32_max.

Lemma dispatch_reserved t o : reserved t -> oid_ok o -> data_row_dispatch (make_key t o) = None.
Proof.
  intros Ht Ho. unfold data_row_dispatch. destruct (_ =? PREFIX_LEN); [ | done].
  unfold make_key. rewrite take_app_length' by (by rewrite le_bytes_length).
  unfold reserved, MAX_USER_TYPE_ID in *. rewrite le_value_u32 by (unfold u32_ok; lia).
  rewrite (proj2 (Z.leb_gt t _)) by lia. by rewrite andb_false_r.
Qed.

Definition seq_oid (i : Z) : bytes := replicate 8 0 ++ be_bytes 8 i.

Lemma seq_oid_ok i : oid_ok (seq_oid i).
Proof.
  split; [unfold seq_oid; by rewrite length_app, length_replicate, be_bytes_length | ].
  apply bytes_ok_app. split; [lit | ]. unfold be_bytes. apply Forall_rev, le_bytes_ok.
Qed.

Lemma zero_oid_ok : oid_ok (replicate 16 0).
Proof. split; [done | lit]. Qed.

Lemma fnv16_ok k : oid_ok (fnv16 k).
Proof. split; [apply le_bytes_length | apply le_bytes_ok]. Qed.

Lemma seq_reserved : reserved SEQ_TYPE /\ reserved SEQ_DEDUP_TYPE.
Proof. unfold reserved, SEQ_TYPE, SEQ_DEDUP_TYPE, MAX_USER_TYPE_ID, u32_max. lia. Qed.

Lemma seq_entry_key_cmp i j :
  u64_ok i -> u64_ok j -> kcmp (seq_entry_key i) (seq_entry_key j) = (i ?= j).
Proof.
  intros Hi Hj. unfold seq_entry_key, make_key. cbn [kcmp list_OrdKey].
  rewrite !list_cmp_app. apply be_bytes_cmp; unfold u64_ok, u64_max in *; simpl; lia.
Qed.

Lemma seq_entry_key_le i j :
  u64_ok i -> u64_ok j -> kle (seq_entry_key i) (seq_entry_key j) <-> i <= j.
Proof. intros. unfold kle. rewrite seq_entry_key_cmp by done. apply Z.compare_le_iff. Qed.

Lemma seq_entry_key_inj i j : u64_ok i -> u64_ok j -> seq_entry_key i = seq_entry_key j -> i = j.
Proof. intros Hi Hj Heq. apply Z.compare_eq_iff. rewrite <- seq_entry_key_cmp by done. by apply kcmp_eq. Qed.

Lemma counter_is_entry_0 : seq_counter_key = seq_entry_key 0.
Proof. by vm_compute. Qed.

Lemma u64_0 : u64_ok 0. Proof. lit. Qed.
Lemma u64_max_ok : u64_ok u64_max. Proof. lit. Qed.

(** Dedup keys are above every entry key. *)
Lemma dedup_above h : klt (seq_entry_key u64_max) (make_key SEQ_DEDUP_TYPE h).
Proof. by with_strategy transparent [le_bytes] vm_compute. Qed.

Lemma dedup_key_inj h h' : make_key SEQ_DEDUP_TYPE h = make_key SEQ_DEDUP_TYPE h' -> h = h'.
Proof. apply app_inv_head. Qed.

Lemma seq_entry_key_get i : u64_ok i -> be_value <$> get_range (seq_entry_key i) 12 20 = Some i.
Proof.
  intros Hi. unfold seq_entry_key, make_key.
  rewrite app_assoc, (get_range_app_r (le_bytes 4 SEQ_TYPE ++ replicate 8 0)).
  - cbn. rewrite be_value_be_bytes; [done | ]. unfold u64_ok, u64_max in Hi. simpl. lia.
  - unfold zlen. by rewrite length_app, le_bytes_length.
  - unfold zlen. by rewrite length_app, le_bytes_length, be_bytes_length.
Qed.

(** * The invariant *)

Definition payload_ok (p : bytes) : Prop := bytes_ok p /\ zlen p <= 4294960000.

Section Seq.
Context {W : Type} `{VfsLaws W}.
Implicit Types (sm : StateMachine W) (s : Storage W) (q : SeqLog).

Definition counter_slot (n : Z) : option Slot := if n =? 0 then None else Some (Some (le_bytes 8 n)).

Record seq_ok s q : Prop := {
  sq_store : store_ok s;
  sq_len : zlen (log q) < u64_max;
  sq_payloads : Forall payload_ok (log q);
  sq_counter : view s !! seq_counter_key = counter_slot (zlen (log q));
  sq_entries : forall k v, kle (seq_entry_key 1) k -> kle k (seq_entry_key u64_max) ->
    view s !! k = Some v <-> exists i p, (i, p) ∈ number 1 (log q) /\ k = seq_entry_key i /\ v = Some p;
  sq_dedup : forall h, oid_ok h ->
    view s !! make_key SEQ_DEDUP_TYPE h = (fun e => Some (le_bytes 8 e.1 ++ e.2)) <$> dedup q !! h;
  sq_seqs : forall h e, dedup q !! h = Some e -> u64_ok e.1
}.

Lemma number_elem i l j p : (j, p) ∈ number i l <-> i <= j /\ l !! Z.to_nat (j - i) = Some p.
Proof.
  revert i. induction l as [ | x l IH]; intros i; cbn [number].
  { split; [intros Hin; by apply elem_of_nil in Hin | ]. intros [_ Hl]. by rewrite lookup_nil in Hl. }
  rewrite elem_of_cons, IH. split.
  - intros [[= -> ->] | [Hle Hl]]; [rewrite Z.sub_diag; split; [lia | done] | ].
    split; [lia | ]. replace (Z.to_nat (j - i)) with (S (Z.to_nat (j - (i + 1)))) by lia. done.
  - intros [Hle Hl]. destruct (decide (j = i)) as [-> | Hne].
    + rewrite Z.sub_diag in Hl. injection Hl as ->. by left.
    + right. split; [lia | ]. replace (Z.to_nat (j - i)) with (S (Z.to_nat (j - (i + 1)))) in Hl by lia. done.
Qed.

Lemma number_bound i l j p : (j, p) ∈ number i l -> i <= j < i + zlen l.
Proof.
  intros [Hle Hl]%number_elem. apply lookup_lt_Some in Hl. unfold zlen. lia.
Qed.

Lemma number_app i l l' : number i (l ++ l') = number i l ++ number (i + zlen l) l'.
Proof.
  revert i. induction l as [ | x l IH]; intros i; cbn [number app]; [by rewrite zlen_nil, Z.add_0_r | ].
  rewrite IH, zlen_cons. do 3 f_equal. lia.
Qed.

(** Writing under a reserved key. *)
Lemma put_reserved n t o v s :
  store_ok s -> u64_ok n -> reserved t -> oid_ok o -> bytes_ok v -> zlen v <= 4294967000 ->
  exists s', put n (make_key t o) v s = (s', Ret tt) /\ store_ok s' /\
    view s' = <[make_key t o := Some v]> (view s).
Proof.
  intros Hs Hn Ht Ho Hv Hl. unfold put. rewrite dispatch_reserved by done.
  destruct (commit_total {| op_number := n; entry_key := make_key t o; entry_value := Some v |} s Hs)
    as (s' & ? & ? & ? & _); [ | by exists s'].
  pose proof (make_key_length t o Ho) as Hk. constructor; cbn; [done | by apply make_key_ok | | | ].
  - unfold zlen. rewrite Hk. done.
  - by intros ? [= <-].
  - unfold encode_entry. cbn. autorewrite with zlen. cbn. autorewrite with zlen. unfold zlen in *. rewrite Hk.
    unfold u32_max. lia.
Qed.

Lemma get_reserved s t o : store_ok s -> reserved t -> oid_ok o ->
  Engine.get s (make_key t o) = mjoin (view s !! make_key t o).
Proof.
  intros Hs Ht Ho. apply get_other; [apply (store_ok_reads s Hs) | by apply dispatch_reserved].
Qed.

Lemma get_range_le8 n : get_range (le_bytes 8 n) 0 8 = Some (le_bytes 8 n).
Proof. apply (get_range_app_r [] (le_bytes 8 n)); unfold zlen; [done | by rewrite le_bytes_length]. Qed.

Lemma seq_counter_spec sm q : seq_ok (sm_storage sm) q -> seq_counter sm = zlen (log q).
Proof.
  intros Hq. unfold seq_counter. change seq_counter_key with (make_key SEQ_TYPE (replicate 16 0)) at 1.
  rewrite get_reserved; [ | apply Hq | apply seq_reserved | apply zero_oid_ok].
  change (make_key SEQ_TYPE (replicate 16 0)) with seq_counter_key. rewrite (sq_counter _ _ Hq).
  pose proof (zlen_nonneg (log q)). unfold counter_slot. destruct (zlen (log q) =? 0) eqn:E; zb; [done | ].
  cbn [mjoin option_join mbind option_bind]. rewrite get_range_le8. cbn.
  rewrite le_value_u64; [done | ]. destruct Hq. unfold u64_ok. lia.
Qed.

(** The two writes that append, whatever is put under the counter's key. *)
Lemma seq_ok_append s s' q payload :
  seq_ok s q -> payload_ok payload -> zlen (log q) + 1 < u64_max -> store_ok s' ->
  view s' = <[seq_counter_key := Some (le_bytes 8 (zlen (log q) + 1))]>
              (<[seq_entry_key (zlen (log q) + 1) := Some payload]> (view s)) ->
  seq_ok s' (seq_push payload q).
Proof.
  intros Hq Hp Hlen Hs Hv. pose proof (zlen_nonneg (log q)) as Hnn.
  set (n := zlen (log q)) in *.
  assert (u64_ok (n + 1)) as Hn by (unfold u64_ok; lia).
  assert (seq_counter_key <> seq_entry_key (n + 1)) as Hce.
  { rewrite counter_is_entry_0. intros Heq. apply seq_entry_key_inj in Heq; [lia | lit | done]. }
  assert (zlen (log q ++ [payload]) = n + 1) as Hl by (rewrite zlen_app, zlen_cons, zlen_nil; lia).
  constructor; cbn [log dedup seq_push]; rewrite ?Hl; [done | done | | | | | apply Hq].
  - apply Forall_app. split; [apply Hq | by constructor].
  - rewrite Hv, lookup_insert_eq. unfold counter_slot. by rewrite (proj2 (Z.eqb_neq _ _)) by lia.
  - intros k v Hlo Hhi. rewrite number_app. fold n.
    rewrite Hv, lookup_insert_ne.
    2: { intros <-. rewrite counter_is_entry_0 in Hlo. apply seq_entry_key_le in Hlo; [lia | lit | lit]. }
    setoid_rewrite elem_of_app. cbn [number]. destruct (decide (k = seq_entry_key (n + 1))) as [-> | Hne].
    + rewrite lookup_insert_eq. split.
      * intros [= <-]. exists (n + 1), payload. split_and!; [right | done | done]. rewrite (Z.add_comm n 1).
        apply list_elem_of_here.
      * intros (i & p & [Hin | Hin] & Heq & ->).
        -- apply number_bound in Hin. fold n in Hin.
           apply seq_entry_key_inj in Heq; [lia | done | unfold u64_ok; lia].
        -- apply list_elem_of_singleton in Hin as [= _ ->]. done.
    + rewrite lookup_insert_ne by done. rewrite (sq_entries _ _ Hq k v Hlo Hhi). split.
      * intros (i & p & Hin & -> & ->). eauto 6.
      * intros (i & p & [Hin | Hin] & -> & ->); [eauto | ].
        apply list_elem_of_singleton in Hin as [= -> _]. by rewrite Z.add_comm in Hne.
  - intros h Hh. rewrite Hv, !lookup_insert_ne; [by apply (sq_dedup _ _ Hq) | | ]; intros Heq;
      pose proof (dedup_above h) as Ha; rewrite <- Heq in Ha; rewrite ?counter_is_entry_0 in Ha;
      apply klt_kle, seq_entry_key_le in Ha; try lia; try lit; done.
Qed.

Lemma seq_ok_dedup s s' q h e :
  seq_ok s q -> oid_ok h -> u64_ok e.1 -> store_ok s' ->
  view s' = <[make_key SEQ_DEDUP_TYPE h := Some (le_bytes 8 e.1 ++ e.2)]> (view s) ->
  seq_ok s' {| log := log q; dedup := <[h := e]> (dedup q) |}.
Proof.
  intros Hq Hh He Hs Hv. pose proof (dedup_above h) as Ha. constructor; cbn [log dedup]; [done | apply Hq | apply Hq | | | | ].
  - rewrite Hv, lookup_insert_ne; [apply Hq | ]. intros Heq. rewrite Heq, counter_is_entry_0 in Ha.
    apply klt_kle, seq_entry_key_le in Ha; [unfold u64_max in Ha; lia | lit | lit].
  - intros k v Hlo Hhi. rewrite Hv, lookup_insert_ne; [by apply Hq | ]. intros <-.
    destruct (klt_irrefl (seq_entry_key u64_max)). by eapply klt_kle_trans.
  - intros h' Hh'. rewrite Hv. destruct (decide (h' = h)) as [-> | Hne].
    + by rewrite !lookup_insert_eq.
    + rewrite !lookup_insert_ne by (try done; intros ?%dedup_key_inj; congruence). by apply Hq.
  - intros h' e' [[<- <-] | [_ He']]%lookup_insert_Some; [done | by eapply Hq].
Qed.

(** ** The arms *)

Lemma put_step sm n t o v :
  store_ok (sm_storage sm) -> u64_ok n -> reserved t -> oid_ok o -> bytes_ok v -> zlen v <= 4294967000 ->
  exists s', on_storage_result (put n (make_key t o) v) sm = (set_storage s' sm, Ret (inl tt)) /\
    store_ok s' /\ view s' = <[make_key t o := Some v]> (view (sm_storage sm)).
Proof.
  intros Hs Hn Ht Ho Hv Hl. destruct (put_reserved n t o v _ Hs Hn Ht Ho Hv Hl) as (s' & Hp & ? & ?).
  exists s'. split; [ | done]. unfold on_storage_result. by rewrite Hp.
Qed.

(** Entry, then counter. *)
Lemma append_steps sm q n payload :
  seq_ok (sm_storage sm) q -> u64_ok n -> payload_ok payload -> zlen (log q) + 1 < u64_max ->
  let i := zlen (log q) + 1 in
  exists s1 s2,
    on_storage_result (put n (seq_entry_key i) payload) sm = (set_storage s1 sm, Ret (inl tt)) /\
    on_storage_result (put n seq_counter_key (le_bytes 8 i)) (set_storage s1 sm) = (set_storage s2 sm, Ret (inl tt)) /\
    seq_ok s2 (seq_push payload q).
Proof.
  intros Hq Hn [Hb Hl] Hlen i. pose proof (zlen_nonneg (log q)) as Hnn.
  destruct (put_step sm n SEQ_TYPE (seq_oid i) payload) as (s1 & H1 & Hs1 & Hv1);
    [apply Hq | done | apply seq_reserved | apply seq_oid_ok | done | lia | ].
  destruct (put_step (set_storage s1 sm) n SEQ_TYPE (replicate 16 0) (le_bytes 8 i)) as (s2 & H2 & Hs2 & Hv2);
    [done | done | apply seq_reserved | apply zero_oid_ok | apply le_bytes_ok | unfold zlen; by rewrite le_bytes_length | ].
  exists s1, s2. split_and!; [exact H1 | exact H2 | ].
  apply (seq_ok_append (sm_storage sm) s2 q payload Hq (conj Hb Hl) Hlen Hs2).
  rewrite Hv2. cbn [sm_storage set_storage]. by rewrite Hv1.
Qed.

Lemma counter_next sm q :
  seq_ok (sm_storage sm) q -> zlen (log q) + 1 < u64_max -> wrap64 (seq_counter sm + 1) = zlen (log q) + 1.
Proof.
  intros Hq Hlen. rewrite (seq_counter_spec sm q Hq). pose proof (zlen_nonneg (log q)). apply Z.mod_small.
  unfold u64_max in Hlen. lia.
Qed.

Lemma seq_append_spec sm q n payload :
  seq_ok (sm_storage sm) q -> u64_ok n -> payload_ok payload -> zlen (log q) + 1 < u64_max ->
  exists s', seq_append n payload sm = (set_storage s' sm, Ret (Got (le_bytes 8 (zlen (log q) + 1)))) /\
    seq_ok s' (seq_push payload q).
Proof.
  intros Hq Hn Hp Hlen. unfold seq_append. mstep (m_get_ret sm). rewrite (counter_next sm q Hq Hlen).
  destruct (append_steps sm q n payload Hq Hn Hp Hlen) as (s1 & s2 & H1 & H2 & Hq2).
  mstep H1. cbv beta iota. mstep H2. cbv beta iota. by exists s2.
Qed.

Lemma seq_append_once_spec sm q n key payload :
  seq_ok (sm_storage sm) q -> u64_ok n -> payload_ok key -> payload_ok payload -> zlen (log q) + 1 < u64_max ->
  exists s', seq_append_once n key payload sm = (set_storage s' sm, Ret (seq_step (SeqAppendOnce key payload) q).2) /\
    seq_ok s' (seq_step (SeqAppendOnce key payload) q).1.
Proof.
  intros Hq Hn Hk Hp Hlen. unfold seq_append_once.
  mstep (m_get_ret sm). pose proof (zlen_nonneg (log q)) as Hnn.
  set (q' := {| log := log q ++ [payload]; dedup := <[fnv16 key := (zlen (log q) + 1, key)]> (dedup q) |}).
  assert (exists s', seq_append_new n key payload sm = (set_storage s' sm, Ret (Got (le_bytes 8 (zlen (log q) + 1)))) /\ seq_ok s' q') as Happ.
  { unfold seq_append_new, seq_dedup_key. mstep (m_get_ret sm). rewrite (counter_next sm q Hq Hlen).
    destruct (append_steps sm q n payload Hq Hn Hp Hlen) as (s1 & s2 & H1 & H2 & Hq2).
    mstep H1. cbv beta iota. mstep H2. cbv beta iota.
    destruct (put_step (set_storage s2 sm) n SEQ_DEDUP_TYPE (fnv16 key) (le_bytes 8 (zlen (log q) + 1) ++ key))
      as (s3 & H3 & Hs3 & Hv3); [apply Hq2 | done | apply seq_reserved | apply fnv16_ok | | | ].
    - apply bytes_ok_app. split; [apply le_bytes_ok | apply Hk].
    - destruct Hk. rewrite zlen_app. unfold zlen in *. rewrite le_bytes_length. lia.
    - mstep H3. exists s3. split; [done | ].
      apply (seq_ok_dedup s2 s3 (seq_push payload q) (fnv16 key) (zlen (log q) + 1, key));
        [done | apply fnv16_ok | unfold u64_ok; cbn; lia | done | exact Hv3]. }
  unfold seq_dedup_key. rewrite get_reserved; [ | apply Hq | apply seq_reserved | apply fnv16_ok].
  rewrite (sq_dedup _ _ Hq) by apply fnv16_ok. cbn [seq_step].
  destruct (dedup q !! fnv16 key) as [[i key'] | ] eqn:Hd; cbn [fmap option_fmap option_map mjoin option_join fst snd];
    [ | exact Happ].
  rewrite zlen_app, drop_app_length', take_app_length' by (by rewrite le_bytes_length).
  pose proof (zlen_nonneg key'). replace (zlen (le_bytes 8 i)) with 8 by (unfold zlen; by rewrite le_bytes_length).
  rewrite (proj2 (Z.leb_le 8 _)) by lia. cbn [andb].
  destruct (decide (key' = key)) as [-> | Hne].
  - rewrite bool_decide_true by done. exists (sm_storage sm). rewrite set_storage_id. done.
  - rewrite bool_decide_false by done. exact Happ.
Qed.

(** The scan behind SeqRead. *)
Lemma number_sorted i l :
  1 <= i -> i + zlen l <= u64_max ->
  ssorted ((fun ip => (seq_entry_key ip.1, ip.2)) <$> number i l).
Proof.
  revert i. induction l as [ | p l IH]; intros i Hi Hl; [constructor | ]. rewrite zlen_cons in Hl.
  cbn [number]. rewrite fmap_cons. constructor; [apply IH; lia | ].
  apply Forall_forall. intros [k v] Hin. apply list_elem_of_fmap in Hin as ([j p'] & [= -> ->] & Hin).
  apply number_bound in Hin. unfold key_lt, klt. cbn [fst]. pose proof (zlen_nonneg l).
  rewrite seq_entry_key_cmp by (unfold u64_ok; lia). apply Z.compare_lt_iff. lia.
Qed.

Lemma seq_scan s q from :
  seq_ok s q -> u64_ok from ->
  scan_range s (seq_entry_key (Z.max from 1)) (seq_entry_key u64_max) =
  (fun ip => (seq_entry_key ip.1, ip.2)) <$> filter (fun ip => Z.max from 1 <= ip.1) (number 1 (log q)).
Proof.
  intros Hq Hf. pose proof (store_ok_reads s (sq_store _ _ Hq)) as [Hwf _]. pose proof (sq_len _ _ Hq) as Hlen.
  assert (u64_ok (Z.max from 1)) as Hm by (unfold u64_ok, u64_max in *; lia).
  unfold scan_range. change (seq_entry_key (Z.max from 1)) with (make_key SEQ_TYPE (seq_oid (Z.max from 1))) at 1.
  rewrite dispatch_reserved by (apply seq_reserved || apply seq_oid_ok).
  rewrite scan_range_raw_spec by done. apply ssorted_ext.
  - apply live_entries_sorted, bt_range_sorted.
  - assert (ssorted ((fun ip => (seq_entry_key ip.1, ip.2)) <$> number 1 (log q))) as Hs
      by (apply number_sorted; lia).
    induction (number 1 (log q)) as [ | ip l IH]; [constructor | ]. rewrite fmap_cons in Hs.
    inversion Hs as [ | ?? Hs' Hfa]; subst. rewrite filter_cons. destruct (decide _); [ | by apply IH].
    rewrite fmap_cons. constructor; [by apply IH | ]. rewrite Forall_forall in Hfa |- *. intros x Hx. apply Hfa.
    apply list_elem_of_fmap in Hx as (y & -> & [_ Hy]%list_elem_of_filter). apply list_elem_of_fmap. eauto.
  - intros [k v]. rewrite live_entries_elem, bt_range_elem, list_elem_of_fmap. split.
    + intros (Hk & Hlo & Hhi). apply (sq_entries _ _ Hq) in Hk as (i & p & Hin & -> & [= ->]); [ | | done].
      * exists (i, p). split; [done | ]. apply list_elem_of_filter. split; [ | done]. cbn.
        apply number_bound in Hin. apply seq_entry_key_le in Hlo; [done | done | unfold u64_ok; lia].
      * eapply kle_trans; [ | exact Hlo]. apply seq_entry_key_le; [lit | done | lia].
    + intros ([i p] & [= -> ->] & [Hle Hin]%list_elem_of_filter). cbn in *. pose proof (number_bound _ _ _ _ Hin) as Hb.
      assert (u64_ok i) by (unfold u64_ok; lia).
      assert (kle (seq_entry_key (Z.max from 1)) (seq_entry_key i)) by (by apply seq_entry_key_le).
      assert (kle (seq_entry_key i) (seq_entry_key u64_max)) by (apply seq_entry_key_le; [done | lit | lia]).
      split; [ | done]. apply (sq_entries _ _ Hq); [ | done | eauto].
      apply seq_entry_key_le; [lit | done | lia].
Qed.

Lemma seq_read_loop_spec l limit n :
  0 <= limit -> 0 <= n -> (limit = 0 \/ n <= limit) ->
  (forall i p, (i, p) ∈ l -> u64_ok i /\ zlen p <= u32_max) ->
  seq_read_loop ((fun ip => (seq_entry_key ip.1, ip.2)) <$> l) limit n =
  encode_entries (if limit =? 0 then l else take (Z.to_nat (limit - n)) l).
Proof.
  intros Hlim. revert n. induction l as [ | [i p] l IH]; intros n Hn Hle Hok.
  { rewrite take_nil. by destruct (limit =? 0). }
  rewrite fmap_cons. cbn [seq_read_loop fst snd].
  destruct (Hok i p (list_elem_of_here _ _)) as [Hi Hp]. rewrite seq_entry_key_get by done.
  assert (wrap32 (zlen p) = zlen p) as ->.
  { pose proof (zlen_nonneg p). apply Z.mod_small. unfold u32_max in Hp. lia. }
  assert (forall i' p', (i', p') ∈ l -> u64_ok i' /\ zlen p' <= u32_max) as Hok'
    by (intros i' p' Hin; by apply Hok, list_elem_of_further).
  destruct (limit =? 0) eqn:E0; zb; cbn [negb andb].
  - rewrite IH by (auto; lia). unfold encode_entries. cbn [map concat fst snd].
    cbn [from_option id default]. by rewrite <- !app_assoc.
  - destruct (limit <=? n) eqn:E1; zb.
    + replace (Z.to_nat (limit - n)) with 0%nat by lia. done.
    + rewrite IH by (auto; lia).
      replace (Z.to_nat (limit - n)) with (S (Z.to_nat (limit - (n + 1)))) by lia. cbn [take].
      unfold encode_entries. cbn [map concat fst snd from_option id default]. by rewrite <- !app_assoc.
Qed.

Lemma seq_read_spec sm q from limit :
  seq_ok (sm_storage sm) q -> u64_ok from -> 0 <= limit ->
  seq_read from limit sm = (sm, Ret (seq_step (SeqRead from limit) q).2).
Proof.
  intros Hq Hf Hl. unfold seq_read. mstep (m_get_ret sm). rewrite (seq_scan _ q from Hq Hf).
  rewrite seq_read_loop_spec; [ | done | done | lia | ].
  - cbn [seq_step snd]. unfold entries_from. by rewrite Z.sub_0_r.
  - intros i p [_ Hin]%list_elem_of_filter. pose proof (number_bound _ _ _ _ Hin) as Hb.
    apply number_elem in Hin as [_ Hin]. pose proof (sq_len _ _ Hq) as Hlen. split; [unfold u64_ok; lia | ].
    pose proof (proj1 (Forall_forall _ _) (sq_payloads _ _ Hq) p (list_elem_of_lookup_2 _ _ _ Hin)) as [_ Hp].
    unfold u32_max. lia.
Qed.
End Seq.

Definition is_seq_op (op : Op) : Prop :=
  match op with
  | SeqAppend payload => payload_ok payload
  | SeqAppendOnce key payload => payload_ok key /\ payload_ok payload
  | SeqRead from limit => u64_ok from /\ 0 <= limit
  | _ => False
  end.

(** The position of a new operation: above everything durable. *)
Definition fresh {W} (n : Z) (sm : StateMachine W) : Prop :=
  u64_ok n /\ forall cursor, high_op (sm_storage sm) = Some cursor -> cursor < n.

Lemma apply_fresh {W} `{Vfs W} n op (sm : StateMachine W) : fresh n sm -> apply n op sm = apply_arm n op sm.
Proof.
  intros [_ Hf]. unfold apply. mstep (m_get_ret sm). destruct (high_op (sm_storage sm)) as [c | ]; [ | done].
  specialize (Hf c eq_refl). rewrite (proj2 (Z.leb_gt n c)) by lia. by rewrite andb_false_r.
Qed.

(** C14: The global sequencer refines an append-only list with a table of
    request keys: at a new log position SeqAppend, SeqAppendOnce and SeqRead
    return, answer with exactly the bytes the reference gives (the assigned
    gap-free number, the number first assigned to a repeated key, the entries
    from a number on) and leave an engine that represents the reference's next
    state; nothing else of the state machine changes. *)
Theorem sequencer_refines {W} `{VfsLaws W} n op (sm : StateMachine W) q :
  seq_ok (sm_storage sm) q -> is_seq_op op -> fresh n sm -> zlen (log q) + 1 < u64_max ->
  exists s', apply n op sm = (set_storage s' sm, Ret (seq_step op q).2) /\ seq_ok s' (seq_step op q).1.
Proof.
  intros Hq Hop Hf Hlen. rewrite apply_fresh by done. destruct Hf as [Hn _].
  destruct op; cbn [is_seq_op apply_arm] in *; try done.
  - by apply seq_append_spec.
  - destruct Hop. exists (sm_storage sm). rewrite set_storage_id. split; [by apply seq_read_spec | done].
  - destruct Hop. by apply seq_append_once_spec.
Qed.

(** ** Applied to a sample *)

Lemma seq_empty_ok : seq_ok (sm_storage sm_new) seq_empty.
Proof.
  assert (view (sm_storage sm_new) = ∅) as Hv by apply empty_view.
  constructor; cbn [log dedup seq_empty].
  - apply sm_new_store_ok.
  - unfold zlen, u64_max. cbn. lia.
  - constructor.
  - by rewrite Hv, lookup_empty.
  - intros k v _ _. rewrite Hv, lookup_empty. split; [done | ].
    intros (i & p & Hin & _). by apply elem_of_nil in Hin.
  - intros h _. by rewrite Hv, !lookup_empty.
  - intros h e. by rewrite lookup_empty.
Qed.

Lemma sequencer_refines_witness :
  exists s', apply 1 (SeqAppendOnce [7] [9]) sm_new = (set_storage s' sm_new, Ret (Got (le_bytes 8 1))) /\
    seq_ok s' {| log := [[9]]; dedup := {[ fnv16 [7] := (1, [7]) ]} |}.
Proof.
  apply (sequencer_refines 1 (SeqAppendOnce [7] [9]) sm_new seq_empty seq_empty_ok).
  - split; split; lit.
  - split; [lit | ]. intros c Hc. discriminate Hc.
  - unfold zlen, u64_max. cbn. lia.
Defined.
