(* ===== verification/Vsr.v ===== *)
(** kessel-vsr: Viewstamped Replication.

    One replica is a state machine wrapped in the protocol: normal-case
    replication with a quorum of acknowledgements, a client table, state
    transfer and view change. A handler is a function on the replica and the
    effects it has collected ([&mut self] and [&mut out]). The state machine is
    an interface, [Machine]: one deterministic step per operation.

    Source: src/crates/kessel-vsr/src/lib.rs ([Replica]). *)

From Stdlib Require Import ZArith Lia.
From stdpp Require Import base numbers list gmap fin_maps.
From S2P Require Import Prelude BTree.

#[local] Open Scope Z_scope.

(** What the protocol asks of the state machine: [StateMachine::apply]. *)
Class Machine (S O R : Type) := sm_apply : Z -> O -> S -> S * R.

Definition PRIMARY_TIMEOUT_TICKS : Z := 8.

Record LogEntry (O : Type) := mkEntry { le_op_number : Z; le_client : Z; le_req : Z; le_op : O }.
Arguments mkEntry {O}. Arguments le_op_number {O}. Arguments le_client {O}.
Arguments le_req {O}. Arguments le_op {O}.

Inductive Msg (O : Type) :=
  | Request (client req : Z) (op : O)
  | Prepare (view op_number client req : Z) (op : O) (commit : Z)
  | PrepareOk (view op_number replica : Z)
  | Commit (view commit : Z)
  | StartViewChange (view replica : Z)
  | DoViewChange (view : Z) (log : list (LogEntry O)) (commit normal_view replica : Z)
  | StartView (view : Z) (log : list (LogEntry O)) (commit : Z)
  | GetState (view after replica : Z)
  | NewState (view : Z) (suffix : list (LogEntry O)) (commit : Z).
Arguments Request {O}. Arguments Prepare {O}. Arguments PrepareOk {O}. Arguments Commit {O}.
Arguments StartViewChange {O}. Arguments DoViewChange {O}. Arguments StartView {O}.
Arguments GetState {O}. Arguments NewState {O}.

Inductive Status := Normal | ViewChange.

#[global] Instance Status_eq_dec : EqDecision Status.
Proof. solve_decision. Defined.

(** The effects of handling one message or tick. *)
Record Out (O R : Type) := mkOut { o_msgs : list (Z * Msg O); o_replies : list (Z * Z * R) }.
Arguments mkOut {O R}. Arguments o_msgs {O R}. Arguments o_replies {O R}.

Definition out_default {O R} : Out O R := mkOut [] [].
Definition send {O R} (to : Z) (m : Msg O) (out : Out O R) : Out O R :=
  mkOut (o_msgs out ++ [(to, m)]) (o_replies out).
Definition reply {O R} (client req : Z) (res : R) (out : Out O R) : Out O R :=
  mkOut (o_msgs out) (o_replies out ++ [(client, req, res)]).

Section Replica.
Context {S O R : Type} `{Machine S O R}.

Record Replica := mkReplica {
  r_idx : Z;
  r_n : Z;
  r_view : Z;
  r_normal_view : Z;
  r_status : Status;
  r_log : list (LogEntry O);
  r_commit : Z;
  r_sm : S;
  r_client_table : gmap Z (Z * R);
  r_prepare_ok : gmap Z (gset Z);
  r_svc_votes : gmap Z (gset Z);
  r_dvc : gmap Z (list (Msg O));
  r_ticks_idle : Z;
  r_vc_retries : Z;
  r_max_view_seen : Z;
  r_view_changes_total : Z;
  r_last_primary_op_seen : Z;
  r_crashed : bool
}.

(** Field assignments. *)
Definition set_view (x : Z) (r : Replica) : Replica :=
  mkReplica (r_idx r) (r_n r) x (r_normal_view r) (r_status r) (r_log r) (r_commit r) (r_sm r)
    (r_client_table r) (r_prepare_ok r) (r_svc_votes r) (r_dvc r) (r_ticks_idle r) (r_vc_retries r)
    (r_max_view_seen r) (r_view_changes_total r) (r_last_primary_op_seen r) (r_crashed r).
Definition set_normal_view (x : Z) (r : Replica) : Replica :=
  mkReplica (r_idx r) (r_n r) (r_view r) x (r_status r) (r_log r) (r_commit r) (r_sm r)
    (r_client_table r) (r_prepare_ok r) (r_svc_votes r) (r_dvc r) (r_ticks_idle r) (r_vc_retries r)
    (r_max_view_seen r) (r_view_changes_total r) (r_last_primary_op_seen r) (r_crashed r).
Definition set_status (x : Status) (r : Replica) : Replica :=
  mkReplica (r_idx r) (r_n r) (r_view r) (r_normal_view r) x (r_log r) (r_commit r) (r_sm r)
    (r_client_table r) (r_prepare_ok r) (r_svc_votes r) (r_dvc r) (r_ticks_idle r) (r_vc_retries r)
    (r_max_view_seen r) (r_view_changes_total r) (r_last_primary_op_seen r) (r_crashed r).
Definition set_log (x : list (LogEntry O)) (r : Replica) : Replica :=
  mkReplica (r_idx r) (r_n r) (r_view r) (r_normal_view r) (r_status r) x (r_commit r) (r_sm r)
    (r_client_table r) (r_prepare_ok r) (r_svc_votes r) (r_dvc r) (r_ticks_idle r) (r_vc_retries r)
    (r_max_view_seen r) (r_view_changes_total r) (r_last_primary_op_seen r) (r_crashed r).
Definition set_commit (x : Z) (r : Replica) : Replica :=
  mkReplica (r_idx r) (r_n r) (r_view r) (r_normal_view r) (r_status r) (r_log r) x (r_sm r)
    (r_client_table r) (r_prepare_ok r) (r_svc_votes r) (r_dvc r) (r_ticks_idle r) (r_vc_retries r)
    (r_max_view_seen r) (r_view_changes_total r) (r_last_primary_op_seen r) (r_crashed r).
Definition set_sm (x : S) (r : Replica) : Replica :=
  mkReplica (r_idx r) (r_n r) (r_view r) (r_normal_view r) (r_status r) (r_log r) (r_commit r) x
    (r_client_table r) (r_prepare_ok r) (r_svc_votes r) (r_dvc r) (r_ticks_idle r) (r_vc_retries r)
    (r_max_view_seen r) (r_view_changes_total r) (r_last_primary_op_seen r) (r_crashed r).
Definition set_client_table (x : gmap Z (Z * R)) (r : Replica) : Replica :=
  mkReplica (r_idx r) (r_n r) (r_view r) (r_normal_view r) (r_status r) (r_log r) (r_commit r)
    (r_sm r) x (r_prepare_ok r) (r_svc_votes r) (r_dvc r) (r_ticks_idle r) (r_vc_retries r)
    (r_max_view_seen r) (r_view_changes_total r) (r_last_primary_op_seen r) (r_crashed r).
Definition set_prepare_ok (x : gmap Z (gset Z)) (r : Replica) : Replica :=
  mkReplica (r_idx r) (r_n r) (r_view r) (r_normal_view r) (r_status r) (r_log r) (r_commit r)
    (r_sm r) (r_client_table r) x (r_svc_votes r) (r_dvc r) (r_ticks_idle r) (r_vc_retries r)
    (r_max_view_seen r) (r_view_changes_total r) (r_last_primary_op_seen r) (r_crashed r).
Definition set_svc_votes (x : gmap Z (gset Z)) (r : Replica) : Replica :=
  mkReplica (r_idx r) (r_n r) (r_view r) (r_normal_view r) (r_status r) (r_log r) (r_commit r)
    (r_sm r) (r_client_table r) (r_prepare_ok r) x (r_dvc r) (r_ticks_idle r) (r_vc_retries r)
    (r_max_view_seen r) (r_view_changes_total r) (r_last_primary_op_seen r) (r_crashed r).
Definition set_dvc (x : gmap Z (list (Msg O))) (r : Replica) : Replica :=
  mkReplica (r_idx r) (r_n r) (r_view r) (r_normal_view r) (r_status r) (r_log r) (r_commit r)
    (r_sm r) (r_client_table r) (r_prepare_ok r) (r_svc_votes r) x (r_ticks_idle r) (r_vc_retries r)
    (r_max_view_seen r) (r_view_changes_total r) (r_last_primary_op_seen r) (r_crashed r).
Definition set_ticks_idle (x : Z) (r : Replica) : Replica :=
  mkReplica (r_idx r) (r_n r) (r_view r) (r_normal_view r) (r_status r) (r_log r) (r_commit r)
    (r_sm r) (r_client_table r) (r_prepare_ok r) (r_svc_votes r) (r_dvc r) x (r_vc_retries r)
    (r_max_view_seen r) (r_view_changes_total r) (r_last_primary_op_seen r) (r_crashed r).
Definition set_vc_retries (x : Z) (r : Replica) : Replica :=
  mkReplica (r_idx r) (r_n r) (r_view r) (r_normal_view r) (r_status r) (r_log r) (r_commit r)
    (r_sm r) (r_client_table r) (r_prepare_ok r) (r_svc_votes r) (r_dvc r) (r_ticks_idle r) x
    (r_max_view_seen r) (r_view_changes_total r) (r_last_primary_op_seen r) (r_crashed r).
Definition set_max_view_seen (x : Z) (r : Replica) : Replica :=
  mkReplica (r_idx r) (r_n r) (r_view r) (r_normal_view r) (r_status r) (r_log r) (r_commit r)
    (r_sm r) (r_client_table r) (r_prepare_ok r) (r_svc_votes r) (r_dvc r) (r_ticks_idle r)
    (r_vc_retries r) x (r_view_changes_total r) (r_last_primary_op_seen r) (r_crashed r).
Definition set_view_changes_total (x : Z) (r : Replica) : Replica :=
  mkReplica (r_idx r) (r_n r) (r_view r) (r_normal_view r) (r_status r) (r_log r) (r_commit r)
    (r_sm r) (r_client_table r) (r_prepare_ok r) (r_svc_votes r) (r_dvc r) (r_ticks_idle r)
    (r_vc_retries r) (r_max_view_seen r) x (r_last_primary_op_seen r) (r_crashed r).
Definition set_last_primary_op_seen (x : Z) (r : Replica) : Replica :=
  mkReplica (r_idx r) (r_n r) (r_view r) (r_normal_view r) (r_status r) (r_log r) (r_commit r)
    (r_sm r) (r_client_table r) (r_prepare_ok r) (r_svc_votes r) (r_dvc r) (r_ticks_idle r)
    (r_vc_retries r) (r_max_view_seen r) (r_view_changes_total r) x (r_crashed r).
Definition set_crashed (x : bool) (r : Replica) : Replica :=
  mkReplica (r_idx r) (r_n r) (r_view r) (r_normal_view r) (r_status r) (r_log r) (r_commit r)
    (r_sm r) (r_client_table r) (r_prepare_ok r) (r_svc_votes r) (r_dvc r) (r_ticks_idle r)
    (r_vc_retries r) (r_max_view_seen r) (r_view_changes_total r) (r_last_primary_op_seen r) x.

Implicit Types (r : Replica) (out : Out O R).

Definition replica_new (idx n : Z) (sm : S) : Replica :=
  mkReplica idx n 0 0 Normal [] 0 sm ∅ ∅ ∅ ∅ 0 0 0 0 0 false.

Definition quorum r : Z := r_n r / 2 + 1.
Definition primary_of r (view : Z) : Z := view mod r_n r.
Definition is_primary r : bool := primary_of r (r_view r) =? r_idx r.
Definition op_number r : Z := zlen (r_log r).
Definition is_active_primary r : bool := is_primary r && bool_decide (r_status r = Normal).

Definition replica_lag_opnum r : Z :=
  if is_primary r then 0 else sat_sub64 (r_last_primary_op_seen r) (op_number r).

Definition advance_view_to (new_view : Z) r : Replica :=
  if r_view r <? new_view then
    let bumps := new_view - r_view r in
    set_last_primary_op_seen 0
      (set_view new_view (set_view_changes_total (sat_add64 (r_view_changes_total r) bumps) r))
  else r.

(** One committed entry: apply, remember the result, answer as primary. *)
Definition apply_entry (ro : Replica * Out O R) (e : LogEntry O) : Replica * Out O R :=
  let '(r, out) := ro in
  let '(sm', result) := sm_apply (le_op_number e) (le_op e) (r_sm r) in
  let r := set_client_table (<[le_client e := (le_req e, result)]> (r_client_table r)) (set_sm sm' r) in
  let out := if is_primary r then reply (le_client e) (le_req e) result out else out in
  (set_commit (r_commit r + 1) r, out).

(** The entries from the commit point to [target], which is cut at the log's end. *)
Definition apply_through (target : Z) (ro : Replica * Out O R) : Replica * Out O R :=
  let r := ro.1 in
  let target := Z.min target (op_number r) in
  fold_left apply_entry
    (take (Z.to_nat (target - r_commit r)) (drop (Z.to_nat (r_commit r)) (r_log r))) ro.

Definition broadcast r (m : Msg O) out : Out O R :=
  fold_left (fun out to => if bool_decide (to = r_idx r) then out else send to m out)
    (seqZ 0 (r_n r)) out.

(** ** Normal operation *)

Definition vote (m : gmap Z (gset Z)) (k replica : Z) : gmap Z (gset Z) :=
  <[k := {[ replica ]} ∪ default ∅ (m !! k)]> m.

Definition votes (m : gmap Z (gset Z)) (k : Z) : Z := Z.of_nat (size (default ∅ (m !! k))).

Definition on_request_new (client req : Z) (op : O) (ro : Replica * Out O R) : Replica * Out O R :=
  let '(r, out) := ro in
  if negb (is_primary r) then
    let p := primary_of r (r_view r) in
    if bool_decide (p = r_idx r) then (r, out) else (r, send p (Request client req op) out)
  else
    let n := op_number r + 1 in
    let r := set_log (r_log r ++ [mkEntry n client req op]) r in
    let r := set_prepare_ok (vote (r_prepare_ok r) n (r_idx r)) r in
    (r, broadcast r (Prepare (r_view r) n client req op (r_commit r)) out).

Definition on_request (client req : Z) (op : O) (ro : Replica * Out O R) : Replica * Out O R :=
  let '(r, out) := ro in
  if negb (bool_decide (r_status r = Normal)) then (r, out) else
  match r_client_table r !! client with
  | Some (last, res) =>
      if req <=? last then (r, reply client req res out) else on_request_new client req op (r, out)
  | None => on_request_new client req op (r, out)
  end.

(** A message of a higher view: adopt the number and ask for the log. *)
Definition adopt_higher (view : Z) (ro : Replica * Out O R) : Replica * Out O R :=
  let '(r, out) := ro in
  let r := set_ticks_idle 0 (set_status ViewChange (advance_view_to view r)) in
  (r, send (primary_of r view) (GetState view 0 (r_idx r)) out).

Definition on_prepare (view n client req : Z) (op : O) (commit : Z) (ro : Replica * Out O R) :
    Replica * Out O R :=
  let '(r, out) := ro in
  if view <? r_view r then (r, out) else
  if r_view r <? view then adopt_higher view (r, out) else
  if negb (bool_decide (r_status r = Normal)) then (r, out) else
  let r := set_ticks_idle 0 r in
  let r := if r_last_primary_op_seen r <? n then set_last_primary_op_seen n r else r in
  let p := primary_of r (r_view r) in
  let '(r, out) :=
    if n =? op_number r + 1 then
      (set_log (r_log r ++ [mkEntry n client req op]) r,
       send p (PrepareOk (r_view r) n (r_idx r)) out)
    else if n <=? op_number r then (r, send p (PrepareOk (r_view r) n (r_idx r)) out)
    else (r, send p (GetState (r_view r) (op_number r) (r_idx r)) out) in
  apply_through commit (r, out).

(** The highest operation of an unbroken run of quorums above [target]; the
    fuel is the number of operations left in the log. *)
Fixpoint commit_target (fuel : nat) r (target : Z) : Z :=
  match fuel with
  | 0%nat => target
  | Datatypes.S fuel' =>
      let next := target + 1 in
      if match r_prepare_ok r !! next with
         | Some s => quorum r <=? Z.of_nat (size s)
         | None => false
         end
      then commit_target fuel' r next else target
  end.

Definition on_prepare_ok (view n replica : Z) (ro : Replica * Out O R) : Replica * Out O R :=
  let '(r, out) := ro in
  if negb (view =? r_view r) || negb (is_primary r) || negb (bool_decide (r_status r = Normal))
  then (r, out) else
  let r := set_prepare_ok (vote (vote (r_prepare_ok r) n replica) n (r_idx r)) r in
  if (quorum r <=? votes (r_prepare_ok r) n) && (r_commit r <? n) then
    let target := commit_target (Z.to_nat (op_number r - r_commit r)) r (r_commit r) in
    let '(r, out) := apply_through target (r, out) in
    (r, broadcast r (Commit (r_view r) (r_commit r)) out)
  else (r, out).

Definition on_commit_msg (view commit : Z) (ro : Replica * Out O R) : Replica * Out O R :=
  let '(r, out) := ro in
  if view <? r_view r then (r, out) else
  if r_view r <? view then adopt_higher view (r, out) else
  if negb (bool_decide (r_status r = Normal)) then (r, out) else
  let r := set_ticks_idle 0 r in
  let out :=
    if op_number r <? commit
    then send (primary_of r (r_view r)) (GetState (r_view r) (op_number r) (r_idx r)) out else out in
  apply_through commit (r, out).

(** ** View change *)

(** The most recent log among the collected messages, and the highest commit. *)
Definition best_step (acc : list (LogEntry O) * (Z * Z) * Z) (m : Msg O) : list (LogEntry O) * (Z * Z) * Z :=
  match m with
  | DoViewChange _ log commit normal_view _ =>
      let '(best_log, best_key, max_commit) := acc in
      let key := (normal_view, zlen log) in
      if kltb best_key key then (log, key, Z.max max_commit commit)
      else (best_log, best_key, Z.max max_commit commit)
  | _ => acc
  end.

Definition maybe_finish_view_change (view : Z) (ro : Replica * Out O R) : Replica * Out O R :=
  let '(r, out) := ro in
  if negb (primary_of r view =? r_idx r) || (view <? r_view r) then (r, out) else
  let msgs := default [] (r_dvc r !! view) in
  if zlen msgs <? quorum r then (r, out) else
  let '(best_log, _, max_commit) := fold_left best_step msgs ([], (0, 0), 0) in
  let r := set_prepare_ok ∅ (set_log best_log (set_status Normal (set_normal_view view (advance_view_to view r)))) in
  let out := broadcast r (StartView view (r_log r) max_commit) out in
  let '(r, out) := apply_through max_commit (r, out) in
  (set_ticks_idle 0 r, out).

Definition push_dvc (m : gmap Z (list (Msg O))) (view : Z) (d : Msg O) : gmap Z (list (Msg O)) :=
  <[view := default [] (m !! view) ++ [d]]> m.

Definition maybe_finish_svc (view : Z) (ro : Replica * Out O R) : Replica * Out O R :=
  let '(r, out) := ro in
  if bool_decide (r_status r = ViewChange) && (view =? r_view r) && (quorum r <=? votes (r_svc_votes r) view) then
    let dest := primary_of r view in
    let dvc := DoViewChange view (r_log r) (r_commit r) (r_normal_view r) (r_idx r) in
    if bool_decide (dest = r_idx r)
    then maybe_finish_view_change view (set_dvc (push_dvc (r_dvc r) view dvc) r, out)
    else (r, send dest dvc out)
  else (r, out).

Definition start_view_change (ro : Replica * Out O R) : Replica * Out O R :=
  let '(r, out) := ro in
  let new_view := wrap64 (Z.max (r_view r) (r_max_view_seen r) + 1) in
  let r := advance_view_to new_view r in
  let r := set_max_view_seen (Z.max (r_max_view_seen r) (r_view r)) r in
  let r := set_status ViewChange r in
  let r := set_svc_votes (vote (r_svc_votes r) (r_view r) (r_idx r)) r in
  let v := r_view r in
  maybe_finish_svc v (r, broadcast r (StartViewChange v (r_idx r)) out).

Definition on_svc (view replica : Z) (ro : Replica * Out O R) : Replica * Out O R :=
  let '(r, out) := ro in
  if view <? r_view r then (r, out) else
  let r := if r_view r <? view then set_status ViewChange (advance_view_to view r) else r in
  let r := set_svc_votes (vote (vote (r_svc_votes r) view replica) view (r_idx r)) r in
  maybe_finish_svc view (r, out).

Definition on_start_view (view : Z) (log : list (LogEntry O)) (commit : Z) (ro : Replica * Out O R) :
    Replica * Out O R :=
  let '(r, out) := ro in
  if view <? r_view r then (r, out) else
  let r := set_ticks_idle 0 (set_log log (set_status Normal (set_normal_view view (advance_view_to view r)))) in
  let '(r, out) := apply_through commit (r, out) in
  if is_primary r then (r, out)
  else (r, send (primary_of r view) (PrepareOk view (op_number r) (r_idx r)) out).

(** ** State transfer *)

Definition on_get_state (view after replica : Z) (ro : Replica * Out O R) : Replica * Out O R :=
  let '(r, out) := ro in
  if (view =? r_view r) && bool_decide (r_status r = Normal) && (after <=? op_number r)
  then (r, send replica (NewState (r_view r) (drop (Z.to_nat after) (r_log r)) (r_commit r)) out)
  else (r, out).

(** In-Normal gap fill: the contiguous tail. *)
Definition fill_gap (log suffix : list (LogEntry O)) : list (LogEntry O) :=
  fold_left (fun log e => if le_op_number e =? zlen log + 1 then log ++ [e] else log) suffix log.

Definition on_new_state (view : Z) (suffix : list (LogEntry O)) (commit : Z) (ro : Replica * Out O R) :
    Replica * Out O R :=
  let '(r, out) := ro in
  if negb (view =? r_view r) then (r, out) else
  let r :=
    if negb (bool_decide (r_status r = Normal))
    then set_normal_view view (set_status Normal (set_log suffix r))
    else set_log (fill_gap (r_log r) suffix) r in
  let r := set_ticks_idle 0 r in
  let '(r, out) := apply_through commit (r, out) in
  if is_primary r then (r, out)
  else (r, send (primary_of r (r_view r)) (PrepareOk (r_view r) (op_number r) (r_idx r)) out).

(** ** One message, one tick *)

Definition msg_view (m : Msg O) : Z :=
  match m with
  | Prepare view _ _ _ _ _ | PrepareOk view _ _ | Commit view _ | StartViewChange view _
  | DoViewChange view _ _ _ _ | StartView view _ _ | GetState view _ _ | NewState view _ _ => view
  | Request _ _ _ => 0
  end.

Definition dispatch (m : Msg O) (ro : Replica * Out O R) : Replica * Out O R :=
  match m with
  | Request client req op => on_request client req op ro
  | Prepare view n client req op commit => on_prepare view n client req op commit ro
  | PrepareOk view n replica => on_prepare_ok view n replica ro
  | Commit view commit => on_commit_msg view commit ro
  | StartViewChange view replica => on_svc view replica ro
  | DoViewChange view _ _ _ _ =>
      maybe_finish_view_change view (set_dvc (push_dvc (r_dvc ro.1) view m) ro.1, ro.2)
  | StartView view log commit => on_start_view view log commit ro
  | GetState view after replica => on_get_state view after replica ro
  | NewState view suffix commit => on_new_state view suffix commit ro
  end.

Definition handle (m : Msg O) r : Replica * Out O R :=
  if r_crashed r then (r, out_default) else
  let r := if r_max_view_seen r <? msg_view m then set_max_view_seen (msg_view m) r else r in
  dispatch m (r, out_default).

Definition retransmit r (out : Out O R) : Out O R :=
  fold_left (fun out e =>
      broadcast r (Prepare (r_view r) (le_op_number e) (le_client e) (le_req e) (le_op e) (r_commit r)) out)
    (drop (Z.to_nat (r_commit r)) (r_log r)) out.

Definition tick_view_change (ro : Replica * Out O R) : Replica * Out O R :=
  let '(r, out) := ro in
  let r := set_ticks_idle (r_ticks_idle r + 1) r in
  if r_ticks_idle r <? PRIMARY_TIMEOUT_TICKS then (r, out) else
  let r := set_vc_retries (r_vc_retries r + 1) (set_ticks_idle 0 r) in
  if 4 + r_idx r <=? r_vc_retries r then start_view_change (set_vc_retries 0 r, out) else
  let v := r_view r in
  let r := set_svc_votes (vote (r_svc_votes r) v (r_idx r)) r in
  let out := broadcast r (StartViewChange v (r_idx r)) out in
  maybe_finish_view_change v (maybe_finish_svc v (r, out)).

Definition tick r : Replica * Out O R :=
  if r_crashed r then (r, out_default) else
  let r := if bool_decide (r_status r = Normal) then set_vc_retries 0 r else r in
  if is_primary r && bool_decide (r_status r = Normal) then
    (r, retransmit r (broadcast r (Commit (r_view r) (r_commit r)) out_default))
  else if bool_decide (r_status r = Normal) then
    let r := set_ticks_idle (r_ticks_idle r + 1) r in
    if PRIMARY_TIMEOUT_TICKS <=? r_ticks_idle r then start_view_change (set_ticks_idle 0 r, out_default)
    else (r, out_default)
  else tick_view_change (r, out_default).
End Replica.

Arguments Replica : clear implicits.
