(* ===== verification/VsrSpec.v ===== *)
(** kessel-vsr: what one replica does to its state machine.

    Whatever messages arrive and however long it ticks, a replica changes its
    state machine and its client table only by applying entries in order, its
    commit number counts the entries applied, and its view never goes back.

    Source: src/crates/kessel-vsr/src/lib.rs ([Replica]). *)

From Stdlib Require Import ZArith Lia.
From stdpp Require Import base numbers list gmap fin_maps.
From S2P Require Import Prelude BTree Vsr.

#[local] Open Scope Z_scope.

Section Spec.
Context {S O R : Type} `{Machine S O R}.
Implicit Types (r : Replica S O R) (out : Out O R) (e : LogEntry O) (es : list (LogEntry O)).

(** ** Executing entries *)

Definition run_entry (st : S * gmap Z (Z * R)) e : S * gmap Z (Z * R) :=
  let '(sm', result) := sm_apply (le_op_number e) (le_op e) st.1 in
  (sm', <[le_client e := (le_req e, result)]> st.2).

Definition run_entries es (st : S * gmap Z (Z * R)) : S * gmap Z (Z * R) := fold_left run_entry es st.

Lemma run_entries_app es es' st : run_entries (es ++ es') st = run_entries es' (run_entries es st).
Proof. apply fold_left_app. Qed.

(** The replica after executing [es]. *)
Definition with_exec es r : Replica S O R :=
  let st := run_entries es (r_sm r, r_client_table r) in
  set_commit (r_commit r + zlen es) (set_client_table st.2 (set_sm st.1 r)).

Lemma with_exec_nil r : with_exec [] r = r.
Proof. destruct r. unfold with_exec. cbn. by rewrite zlen_nil, Z.add_0_r. Qed.

Lemma apply_entries_spec es r out :
  exists out', fold_left apply_entry es (r, out) = (with_exec es r, out') /\ o_msgs out' = o_msgs out.
Proof.
  revert r out. induction es as [ | e es IH]; intros r out.
  { exists out. by rewrite with_exec_nil. }
  cbn [fold_left]. unfold apply_entry at 2. destruct (sm_apply (le_op_number e) (le_op e) (r_sm r)) as [sm' res] eqn:Ha.
  set (r1 := set_commit _ _). set (o1 := if is_primary _ then _ else out).
  destruct (IH r1 o1) as (out' & -> & Hm). exists out'. split.
  - f_equal. unfold with_exec. rewrite zlen_cons.
    assert (run_entries (e :: es) (r_sm r, r_client_table r) = run_entries es (r_sm r1, r_client_table r1)) as ->.
    { unfold run_entries. cbn [fold_left]. f_equal. unfold run_entry. cbn [fst snd]. by rewrite Ha. }
    subst r1. destruct r. cbn. by rewrite Z.add_assoc.
  - rewrite Hm. unfold o1. by destruct (is_primary _).
Qed.

(** The entries a call of [apply_through] executes. *)
Definition through (target : Z) r : list (LogEntry O) :=
  take (Z.to_nat (Z.min target (op_number r) - r_commit r)) (drop (Z.to_nat (r_commit r)) (r_log r)).

Lemma apply_through_spec target r out :
  exists out', apply_through target (r, out) = (with_exec (through target r) r, out') /\ o_msgs out' = o_msgs out.
Proof. apply apply_entries_spec. Qed.

(** ** Progress of a replica *)

(** [r'] comes from [r] by executing entries and moving on in views. *)
Record progress r r' : Prop := {
  pg_idx : r_idx r' = r_idx r;
  pg_n : r_n r' = r_n r;
  pg_view : r_view r <= r_view r';
  pg_seen : r_max_view_seen r <= r_max_view_seen r';
  pg_exec : exists es, (r_sm r', r_client_table r') = run_entries es (r_sm r, r_client_table r) /\
                       r_commit r' = r_commit r + zlen es
}.

Lemma progress_refl r : progress r r.
Proof. constructor; [done | done | lia | lia | ]. exists []. by rewrite zlen_nil, Z.add_0_r. Qed.

Lemma progress_trans r1 r2 r3 : progress r1 r2 -> progress r2 r3 -> progress r1 r3.
Proof.
  intros [? ? ? ? (es & He & Hc)] [? ? ? ? (es' & He' & Hc')]. constructor; [congruence | congruence | lia | lia | ].
  exists (es ++ es'). rewrite run_entries_app, <- He, zlen_app. split; [done | lia].
Qed.

(** Fields the execution does not touch. *)
Lemma progress_same r r' :
  r_idx r' = r_idx r -> r_n r' = r_n r -> r_view r <= r_view r' -> r_max_view_seen r <= r_max_view_seen r' ->
  r_sm r' = r_sm r -> r_client_table r' = r_client_table r -> r_commit r' = r_commit r -> progress r r'.
Proof.
  intros ? ? ? ? Hs Ht Hc. constructor; try done. exists []. rewrite Hs, Ht, Hc, zlen_nil, Z.add_0_r. done.
Qed.

Lemma progress_exec es r : progress r (with_exec es r).
Proof.
  constructor; cbn; [done | done | lia | lia | ]. exists es. by destruct (run_entries es _).
Qed.

Lemma progress_advance v r : progress r (advance_view_to v r).
Proof.
  unfold advance_view_to. destruct (r_view r <? v) eqn:E; zb; [ | apply progress_refl].
  apply progress_same; cbn; done || lia.
Qed.

Lemma progress_through t r out : progress r (apply_through t (r, out)).1.
Proof. destruct (apply_through_spec t r out) as (out' & -> & _). apply progress_exec. Qed.
End Spec.

#[export] Hint Resolve progress_refl progress_exec progress_advance progress_through : kessel.

(** Closes [progress r r'] when [r'] is [r] with fields assigned that the
    execution does not use. *)
Ltac same_exec := apply progress_same; cbn; first [reflexivity | lia].

Section Handlers.
Context {S O R : Type} `{Machine S O R}.
Implicit Types (r : Replica S O R) (out : Out O R).

Lemma progress_with r r0 t out : progress r r0 -> progress r (apply_through t (r0, out)).1.
Proof. intros Hp. eapply progress_trans; [exact Hp | auto with kessel]. Qed.

Lemma progress_request_new client req op r out : progress r (on_request_new client req op (r, out)).1.
Proof. unfold on_request_new. repeat dcase; cbn [fst]; try apply progress_refl. same_exec. Qed.

Lemma progress_request client req op r out : progress r (on_request client req op (r, out)).1.
Proof. unfold on_request. repeat dcase; cbn [fst]; auto using progress_request_new with kessel. Qed.

Lemma progress_adopt v r out : progress r (adopt_higher v (r, out)).1.
Proof.
  unfold adopt_higher. cbn [fst]. eapply progress_trans; [apply (progress_advance v) | same_exec].
Qed.

Lemma progress_prepare v n c q op cm r out : progress r (on_prepare v n c q op cm (r, out)).1.
Proof.
  unfold on_prepare. destruct (v <? r_view r); [apply progress_refl | ].
  destruct (r_view r <? v); [apply progress_adopt | ]. destruct (negb _); [apply progress_refl | ].
  cbv zeta. destruct (r_last_primary_op_seen _ <? n); destruct (n =? _); [ | destruct (n <=? _) | | destruct (n <=? _)];
    apply progress_with; same_exec.
Qed.

Lemma progress_prepare_ok v n x r out : progress r (on_prepare_ok v n x (r, out)).1.
Proof.
  unfold on_prepare_ok. destruct (_ || _); [apply progress_refl | ]. cbv zeta. destruct (_ && _); [ | same_exec].
  set (r1 := set_prepare_ok _ r). set (t := commit_target _ _ _).
  assert (progress r (apply_through t (r1, out)).1) as Hp by (apply progress_with; same_exec).
  destruct (apply_through t (r1, out)). exact Hp.
Qed.

Lemma progress_commit v cm r out : progress r (on_commit_msg v cm (r, out)).1.
Proof.
  unfold on_commit_msg. destruct (v <? r_view r); [apply progress_refl | ].
  destruct (r_view r <? v); [apply progress_adopt | ]. destruct (negb _); [apply progress_refl | ].
  cbv zeta. destruct (_ <? cm); apply progress_with; same_exec.
Qed.

Lemma progress_finish v r out : progress r (maybe_finish_view_change v (r, out)).1.
Proof.
  unfold maybe_finish_view_change. destruct (_ || _); [apply progress_refl | ]. cbv zeta.
  destruct (_ <? quorum r); [apply progress_refl | ].
  destruct (fold_left best_step _ _) as [[best_log key] mc].
  set (r1 := set_prepare_ok ∅ _). set (o1 := broadcast _ _ _).
  assert (progress r (apply_through mc (r1, o1)).1) as Hp.
  { apply progress_with. eapply progress_trans; [apply (progress_advance v) | same_exec]. }
  destruct (apply_through mc (r1, o1)) as [r2 o2]. eapply progress_trans; [exact Hp | same_exec].
Qed.

Lemma progress_finish_svc v r out : progress r (maybe_finish_svc v (r, out)).1.
Proof.
  unfold maybe_finish_svc. destruct (_ && _); [ | apply progress_refl]. cbv zeta.
  destruct (bool_decide _); [ | apply progress_refl].
  eapply progress_trans; [ | apply progress_finish]. same_exec.
Qed.

Lemma progress_start_vc r out : progress r (start_view_change (r, out)).1.
Proof.
  unfold start_view_change. cbv zeta. eapply progress_trans; [ | apply progress_finish_svc].
  eapply progress_trans; [apply (progress_advance (wrap64 (Z.max (r_view r) (r_max_view_seen r) + 1))) | ]. same_exec.
Qed.

Lemma progress_svc v x r out : progress r (on_svc v x (r, out)).1.
Proof.
  unfold on_svc. destruct (v <? r_view r); [apply progress_refl | ]. cbv zeta.
  eapply progress_trans; [ | apply progress_finish_svc].
  destruct (r_view r <? v); [eapply progress_trans; [apply (progress_advance v) | ] | ]; same_exec.
Qed.

Lemma progress_start_view v l cm r out : progress r (on_start_view v l cm (r, out)).1.
Proof.
  unfold on_start_view. destruct (v <? r_view r); [apply progress_refl | ]. cbv zeta. set (r1 := set_ticks_idle 0 _).
  assert (progress r (apply_through cm (r1, out)).1) as Hp.
  { apply progress_with. eapply progress_trans; [apply (progress_advance v) | same_exec]. }
  destruct (apply_through cm (r1, out)) as [r2 o2]. cbn in Hp. by destruct (is_primary r2).
Qed.

Lemma progress_new_state v l cm r out : progress r (on_new_state v l cm (r, out)).1.
Proof.
  unfold on_new_state. destruct (negb (v =? _)); [apply progress_refl | ]. cbv zeta. set (r1 := set_ticks_idle 0 _).
  assert (progress r (apply_through cm (r1, out)).1) as Hp.
  { apply progress_with. unfold r1. destruct (negb _); same_exec. }
  destruct (apply_through cm (r1, out)) as [r2 o2]. cbn in Hp. by destruct (is_primary r2).
Qed.

Lemma progress_dispatch m r out : progress r (dispatch m (r, out)).1.
Proof.
  destruct m; cbn [dispatch fst snd]; auto using progress_request, progress_prepare, progress_prepare_ok,
    progress_commit, progress_svc, progress_start_view, progress_new_state.
  - eapply progress_trans; [ | apply progress_finish]. same_exec.
  - unfold on_get_state. destruct (_ && _); apply progress_refl.
Qed.

Lemma progress_handle m r : progress r (handle m r).1.
Proof.
  unfold handle. destruct (r_crashed r); [apply progress_refl | ]. cbv zeta.
  destruct (r_max_view_seen r <? msg_view m) eqn:E; zb; [ | apply progress_dispatch].
  eapply progress_trans; [ | apply progress_dispatch]. same_exec.
Qed.

Lemma progress_tick_vc r out : progress r (tick_view_change (r, out)).1.
Proof.
  unfold tick_view_change. cbv zeta. destruct (_ <? PRIMARY_TIMEOUT_TICKS); [same_exec | ].
  destruct (_ <=? _).
  - eapply progress_trans; [ | apply progress_start_vc]. same_exec.
  - set (r1 := set_svc_votes _ _). set (o1 := broadcast _ _ _).
    assert (progress r (maybe_finish_svc (r_view (set_vc_retries
      (r_vc_retries (set_ticks_idle (r_ticks_idle r + 1) r) + 1)
      (set_ticks_idle 0 (set_ticks_idle (r_ticks_idle r + 1) r)))) (r1, o1)).1) as Hp.
    { eapply progress_trans; [ | apply progress_finish_svc]. same_exec. }
    destruct (maybe_finish_svc _ (r1, o1)) as [r2 o2]. eapply progress_trans; [exact Hp | apply progress_finish].
Qed.

Lemma progress_tick r : progress r (tick r).1.
Proof.
  unfold tick. destruct (r_crashed r); [apply progress_refl | ]. cbv zeta.
  set (r1 := if bool_decide _ then _ else _).
  assert (progress r r1) as H1 by (unfold r1; destruct (bool_decide _); [same_exec | apply progress_refl]).
  clearbody r1. destruct (_ && _); [exact H1 | ]. destruct (bool_decide _).
  - destruct (_ <=? _); (eapply progress_trans; [exact H1 | ]); [ | same_exec].
    eapply progress_trans; [ | apply progress_start_vc]. same_exec.
  - eapply progress_trans; [exact H1 | apply progress_tick_vc].
Qed.
End Handlers.

(** ** What a handler executes *)

Section Executes.
Context {S O R : Type} `{Machine S O R}.
Implicit Types (r : Replica S O R) (out : Out O R).

(** The entries of the log of [r'] at the positions [r'] has committed and [r]
    had not. *)
Definition newly_committed r r' : list (LogEntry O) :=
  take (Z.to_nat (r_commit r' - r_commit r)) (drop (Z.to_nat (r_commit r)) (r_log r')).

(** From [r] to [r'] exactly these are executed, in order. *)
Record executes r r' : Prop := {
  xe_len : zlen (newly_committed r r') = r_commit r' - r_commit r;
  xe_run : (r_sm r', r_client_table r') = run_entries (newly_committed r r') (r_sm r, r_client_table r)
}.

(** Nothing is executed. *)
Definition quiet r r' : Prop :=
  r_sm r' = r_sm r /\ r_client_table r' = r_client_table r /\ r_commit r' = r_commit r.

Lemma executes_none r r' : quiet r r' -> executes r r'.
Proof.
  intros (Hs & Ht & Hc). assert (newly_committed r r' = []) as He by (unfold newly_committed; by rewrite Hc, Z.sub_diag).
  constructor; rewrite He; [rewrite zlen_nil; lia | cbn; congruence].
Qed.

Lemma executes_refl r : executes r r.
Proof. by apply executes_none. Qed.

Lemma executes_after r r1 r' : quiet r r1 -> executes r1 r' -> executes r r'.
Proof.
  intros (Hs & Ht & Hc) [Hl Hr]. assert (newly_committed r r' = newly_committed r1 r') as He by (unfold newly_committed; by rewrite Hc).
  constructor; rewrite He; [lia | by rewrite Hr, Hs, Ht].
Qed.

Lemma executes_before r r1 r' : executes r r1 -> quiet r1 r' -> r_log r' = r_log r1 -> executes r r'.
Proof.
  intros [Hl Hr] (Hs & Ht & Hc) Hlog. assert (newly_committed r r' = newly_committed r r1) as He by (unfold newly_committed; by rewrite Hc, Hlog).
  constructor; rewrite He; [lia | by rewrite <- Hr, Hs, Ht].
Qed.

Lemma executes_through t r out : executes r (apply_through t (r, out)).1.
Proof.
  destruct (apply_through_spec t r out) as (out' & -> & _). cbn [fst].
  assert (newly_committed r (with_exec (through t r) r) = through t r) as He.
  { unfold newly_committed, through. cbn. rewrite Z.add_simpl_l. unfold zlen. rewrite Nat2Z.id, length_take.
    destruct (Nat.min_spec (Z.to_nat (Z.min t (op_number r) - r_commit r)) (length (drop (Z.to_nat (r_commit r)) (r_log r)))) as [[_ ->] | [Hle ->]];
      [done | by rewrite !take_ge by lia]. }
  constructor; rewrite He; cbn; [lia | by destruct (run_entries _ _)].
Qed.

Lemma executes_with r r1 t out : quiet r r1 -> executes r (apply_through t (r1, out)).1.
Proof. intros Hq. eapply executes_after; [exact Hq | apply executes_through]. Qed.

Lemma quiet_advance v r : quiet r (advance_view_to v r).
Proof. unfold advance_view_to. by destruct (_ <? v). Qed.

Lemma quiet_trans r1 r2 r3 : quiet r1 r2 -> quiet r2 r3 -> quiet r1 r3.
Proof. intros (? & ? & ?) (? & ? & ?). split_and!; congruence. Qed.

Lemma executes_request client req op r out : executes r (on_request client req op (r, out)).1.
Proof. apply executes_none. unfold on_request, on_request_new. by repeat dcase. Qed.

Lemma quiet_adopt v r out : quiet r (adopt_higher v (r, out)).1.
Proof. eapply quiet_trans; [apply (quiet_advance v) | done]. Qed.

Lemma executes_prepare v n c q op cm r out : executes r (on_prepare v n c q op cm (r, out)).1.
Proof.
  unfold on_prepare. destruct (v <? r_view r); [apply executes_refl | ].
  destruct (r_view r <? v); [apply executes_none, quiet_adopt | ]. destruct (negb _); [apply executes_refl | ].
  cbv zeta. destruct (r_last_primary_op_seen _ <? n); destruct (n =? _); [ | destruct (n <=? _) | | destruct (n <=? _)];
    by apply executes_with.
Qed.

Lemma executes_prepare_ok v n x r out : executes r (on_prepare_ok v n x (r, out)).1.
Proof.
  unfold on_prepare_ok. destruct (_ || _); [apply executes_refl | ]. cbv zeta. destruct (_ && _); [ | by apply executes_none].
  set (r1 := set_prepare_ok _ r). set (t := commit_target _ _ _).
  assert (executes r (apply_through t (r1, out)).1) as Hp by (by apply executes_with).
  destruct (apply_through t (r1, out)). exact Hp.
Qed.

Lemma executes_commit v cm r out : executes r (on_commit_msg v cm (r, out)).1.
Proof.
  unfold on_commit_msg. destruct (v <? r_view r); [apply executes_refl | ].
  destruct (r_view r <? v); [apply executes_none, quiet_adopt | ]. destruct (negb _); [apply executes_refl | ].
  cbv zeta. destruct (_ <? cm); by apply executes_with.
Qed.

(** The new primary, its log and commit point chosen. *)
Definition elected (v : Z) (log : list (LogEntry O)) r : Replica S O R :=
  set_prepare_ok ∅ (set_log log (set_status Normal (set_normal_view v (advance_view_to v r)))).

(** A view change that finishes: which log is taken, and what is executed. *)
Lemma finish_spec v r out :
  (maybe_finish_view_change v (r, out)).1 = r \/
  exists log key mc, fold_left best_step (default [] (r_dvc r !! v)) ([], (0, 0), 0) = (log, key, mc) /\
    negb (primary_of r v =? r_idx r) || (v <? r_view r) = false /\ (zlen (default [] (r_dvc r !! v)) <? quorum r) = false /\
    (maybe_finish_view_change v (r, out)).1 = set_ticks_idle 0 (with_exec (through mc (elected v log r)) (elected v log r)).
Proof.
  unfold maybe_finish_view_change. destruct (_ || _); [by left | ]. cbv zeta.
  destruct (_ <? quorum r); [by left | ]. right.
  destruct (fold_left best_step _ _) as [[log key] mc]. fold (elected v log r). exists log, key, mc. split_and!; try done.
  destruct (apply_through_spec mc (elected v log r) (broadcast (elected v log r) (StartView v (r_log (elected v log r)) mc) out)) as (out' & -> & _).
  done.
Qed.

Lemma quiet_elected v log r : quiet r (elected v log r).
Proof. eapply quiet_trans; [apply (quiet_advance v) | done]. Qed.

Lemma executes_ticks x r r1 : executes r r1 -> executes r (set_ticks_idle x r1).
Proof. intros Hx. by apply (executes_before r r1). Qed.

Lemma executes_elected v log mc r : executes r (set_ticks_idle 0 (with_exec (through mc (elected v log r)) (elected v log r))).
Proof.
  apply executes_ticks.
  eapply executes_after; [apply quiet_elected | ].
  pose proof (executes_through mc (elected v log r) out_default) as Hx.
  destruct (apply_through_spec mc (elected v log r) out_default) as (out' & He & _). by rewrite He in Hx.
Qed.

Lemma executes_finish v r out : executes r (maybe_finish_view_change v (r, out)).1.
Proof.
  destruct (finish_spec v r out) as [-> | (log & key & mc & _ & _ & _ & ->)]; [apply executes_refl | apply executes_elected].
Qed.

(** A view change that has finished does not execute anything again. *)
Lemma elected_again v log mc r : 0 <= r_commit r -> r_view r <= v ->
  let r' := set_ticks_idle 0 (with_exec (through mc (elected v log r)) (elected v log r)) in
  through mc (elected v log r') = [] /\ r_dvc r' = r_dvc r /\ r_view r' = v /\ r_n r' = r_n r /\ r_idx r' = r_idx r /\ r_log r' = log.
Proof.
  intros Hc Hv r'. assert (r_view (advance_view_to v r) = v) as Hva.
  { unfold advance_view_to. destruct (Z.ltb_spec (r_view r) v); [done | lia]. }
  assert (r_dvc r' = r_dvc r /\ r_n r' = r_n r /\ r_idx r' = r_idx r) as (? & ? & ?)
    by (unfold r', elected, advance_view_to; by destruct (_ <? _)).
  split_and!; try done.
  assert (forall r0 : Replica S O R, r_commit (elected v log r0) = r_commit r0) as Hce by (intros r0; apply quiet_elected).
  assert (r_commit r' = r_commit r + zlen (through mc (elected v log r))) as Hc'
    by (change (r_commit r') with (r_commit (elected v log r) + zlen (through mc (elected v log r))); by rewrite Hce).
  unfold through at 1. rewrite Hce, Hc'. unfold through, op_number, zlen. rewrite Hce. cbn [r_log elected set_prepare_ok set_log].
  rewrite length_take, length_drop. match goal with |- take ?k _ = [] => replace k with 0%nat by lia end. done.
Qed.

Lemma executes_finish_twice v r out out' : 0 <= r_commit r ->
  executes r (maybe_finish_view_change v ((maybe_finish_view_change v (r, out)).1, out')).1.
Proof.
  intros Hc. destruct (finish_spec v r out) as [-> | (log & key & mc & Hf & Hg & Hq & ->)]; [apply executes_finish | ].
  apply orb_false_iff in Hg as [_ Hv]. zb. destruct (elected_again v log mc r Hc Hv) as (Ht & Hd & _ & _ & _ & Hl).
  pose proof (executes_elected v log mc r) as Hx. set (r1 := set_ticks_idle 0 _) in *.
  destruct (finish_spec v r1 out') as [-> | (log' & key' & mc' & Hf' & _ & _ & ->)]; [done | ].
  rewrite Hd, Hf in Hf'. injection Hf' as <- <- <-. rewrite Ht, with_exec_nil.
  eapply executes_before; [exact Hx | | by rewrite Hl]. apply (quiet_elected v log r1).
Qed.

Lemma executes_finish_svc v r out : executes r (maybe_finish_svc v (r, out)).1.
Proof.
  unfold maybe_finish_svc. destruct (_ && _); [ | apply executes_refl]. cbv zeta.
  destruct (bool_decide _); [ | apply executes_refl]. eapply executes_after; [ | apply executes_finish]. done.
Qed.

Lemma executes_start_vc r out : executes r (start_view_change (r, out)).1.
Proof.
  unfold start_view_change. cbv zeta. eapply executes_after; [ | apply executes_finish_svc].
  eapply quiet_trans; [apply (quiet_advance (wrap64 (Z.max (r_view r) (r_max_view_seen r) + 1))) | done].
Qed.

Lemma executes_svc v x r out : executes r (on_svc v x (r, out)).1.
Proof.
  unfold on_svc. destruct (v <? r_view r); [apply executes_refl | ]. cbv zeta.
  eapply executes_after; [ | apply executes_finish_svc].
  destruct (r_view r <? v); [eapply quiet_trans; [apply (quiet_advance v) | ] | ]; done.
Qed.

Lemma executes_start_view v l cm r out : executes r (on_start_view v l cm (r, out)).1.
Proof.
  unfold on_start_view. destruct (v <? r_view r); [apply executes_refl | ]. cbv zeta. set (r1 := set_ticks_idle 0 _).
  assert (executes r (apply_through cm (r1, out)).1) as Hp.
  { apply executes_with. eapply quiet_trans; [apply (quiet_advance v) | done]. }
  destruct (apply_through cm (r1, out)) as [r2 o2]. cbn in Hp. by destruct (is_primary r2).
Qed.

Lemma executes_new_state v l cm r out : executes r (on_new_state v l cm (r, out)).1.
Proof.
  unfold on_new_state. destruct (negb (v =? _)); [apply executes_refl | ]. cbv zeta. set (r1 := set_ticks_idle 0 _).
  assert (executes r (apply_through cm (r1, out)).1) as Hp by (apply executes_with; unfold r1; by destruct (negb _)).
  destruct (apply_through cm (r1, out)) as [r2 o2]. cbn in Hp. by destruct (is_primary r2).
Qed.

Lemma executes_dispatch m r out : executes r (dispatch m (r, out)).1.
Proof.
  destruct m; cbn [dispatch fst snd]; auto using executes_request, executes_prepare, executes_prepare_ok,
    executes_commit, executes_svc, executes_start_view, executes_new_state.
  - eapply executes_after; [ | apply executes_finish]. done.
  - apply executes_none. unfold on_get_state. by destruct (_ && _).
Qed.

Lemma executes_handle m r : executes r (handle m r).1.
Proof.
  unfold handle. destruct (r_crashed r); [apply executes_refl | ]. cbv zeta.
  eapply executes_after; [ | apply executes_dispatch]. by destruct (_ <? msg_view m).
Qed.

Lemma executes_tick_vc r out : 0 <= r_commit r -> executes r (tick_view_change (r, out)).1.
Proof.
  intros Hc. unfold tick_view_change. cbv zeta. destruct (_ <? PRIMARY_TIMEOUT_TICKS); [by apply executes_none | ].
  destruct (_ <=? _); [eapply executes_after; [ | apply executes_start_vc]; done | ].
  set (r1 := set_svc_votes _ _). set (o1 := broadcast _ _ _). set (v := r_view _). assert (quiet r r1) as Hq by done.
  eapply executes_after; [exact Hq | ]. assert (0 <= r_commit r1) as Hc1 by done. clearbody r1 o1 v. clear Hq.
  unfold maybe_finish_svc. destruct (_ && _); [ | apply executes_finish].
  destruct (bool_decide _); [ | apply executes_finish].
  set (r2 := set_dvc _ r1). apply (executes_after _ r2); [done | ].
  pose proof (executes_finish_twice v r2 o1 (maybe_finish_view_change v (r2, o1)).2 Hc1) as Hx. by rewrite <- surjective_pairing in Hx.
Qed.

Lemma executes_tick r : 0 <= r_commit r -> executes r (tick r).1.
Proof.
  intros Hc. unfold tick. destruct (r_crashed r); [apply executes_refl | ]. cbv zeta.
  set (r1 := if bool_decide _ then _ else _). assert (quiet r r1) as Hq by (unfold r1; by destruct (bool_decide _)).
  eapply executes_after; [exact Hq | ]. assert (0 <= r_commit r1) as Hc1 by (destruct Hq as (_ & _ & ->); done). clearbody r1. clear Hq.
  destruct (_ && _); [by apply executes_none | ]. destruct (bool_decide _); [ | by apply executes_tick_vc].
  destruct (_ <=? _); [ | by apply executes_none]. eapply executes_after; [ | apply executes_start_vc]. done.
Qed.
End Executes.

(** * Histories of one replica *)

Inductive Input (O : Type) := Receive (m : Msg O) | Tick | Crash.
Arguments Receive {O}. Arguments Tick {O}. Arguments Crash {O}.

Section History.
Context {S O R : Type} `{Machine S O R}.

Definition input_step (r : Replica S O R) (i : Input O) : Replica S O R :=
  match i with
  | Receive m => (handle m r).1
  | Tick => (tick r).1
  | Crash => set_crashed true r
  end.

Definition run_inputs (ins : list (Input O)) (r : Replica S O R) : Replica S O R := fold_left input_step ins r.

Lemma progress_inputs ins r : progress r (run_inputs ins r).
Proof.
  revert r. induction ins as [ | i ins IH]; intros r; [apply progress_refl | ].
  eapply progress_trans; [ | apply IH]. destruct i; [apply progress_handle | apply progress_tick | same_exec].
Qed.

Lemma executes_input i r : 0 <= r_commit r -> executes r (input_step r i).
Proof. intros Hc. destruct i; [apply executes_handle | by apply executes_tick | by apply executes_none]. Qed.

(** The entries a replica executes on a sequence of inputs: after each of them
    those of its log that became committed. *)
Fixpoint history (ins : list (Input O)) (r : Replica S O R) : list (LogEntry O) :=
  match ins with
  | [] => []
  | i :: ins => newly_committed r (input_step r i) ++ history ins (input_step r i)
  end.

Lemma history_executed ins r : 0 <= r_commit r ->
  let r' := run_inputs ins r in
  (r_sm r', r_client_table r') = run_entries (history ins r) (r_sm r, r_client_table r) /\
  r_commit r' = r_commit r + zlen (history ins r).
Proof.
  revert r. induction ins as [ | i ins IH]; intros r Hc; cbn [history run_inputs fold_left].
  { split; [done | ]. rewrite zlen_nil. lia. }
  destruct (executes_input i r Hc) as [Hl Hr]. pose proof (zlen_nonneg (newly_committed r (input_step r i))).
  destruct (IH (input_step r i)) as [He Hn]; [lia | ].
  split; [by rewrite run_entries_app, <- Hr | rewrite zlen_app; unfold run_inputs in Hn; lia].
Qed.

Lemma history_app ins more r : history (ins ++ more) r = history ins r ++ history more (run_inputs ins r).
Proof. revert r. induction ins as [ | i ins IH]; intros r; cbn; [done | ]. by rewrite IH, app_assoc. Qed.

(** C19: Whatever messages a replica receives, in any order and from anyone,
    however often it ticks and when it crashes: its state machine and its
    client table are the result of executing its history in order from the
    initial state, where the history is, input by input, the entries of its
    log at the positions that became committed, none left out and none twice;
    its commit number is the length of the history; and with more input the
    history only grows and the view never decreases. *)
Theorem replica_executes_history (idx n : Z) (sm0 : S) (ins more : list (Input O)) :
  let r := run_inputs ins (replica_new idx n sm0) in
  let r' := run_inputs more r in
  (r_sm r, r_client_table r) = run_entries (history ins (replica_new idx n sm0)) (sm0, ∅) /\
  r_commit r = zlen (history ins (replica_new idx n sm0)) /\
  history (ins ++ more) (replica_new idx n sm0) = history ins (replica_new idx n sm0) ++ history more r /\
  (r_sm r', r_client_table r') = run_entries (history more r) (r_sm r, r_client_table r) /\
  r_commit r' = r_commit r + zlen (history more r) /\
  r_view r <= r_view r'.
Proof.
  cbv zeta. destruct (history_executed ins (replica_new idx n sm0)) as [He Hc]; [done | ]. set (r := run_inputs ins _) in *.
  destruct (history_executed more r) as [He' Hc']; [rewrite Hc; apply zlen_nonneg | ].
  split_and!; [done | done | apply history_app | done | done | apply progress_inputs].
Qed.
End History.
