(* ===== verification/VsrSafety.v ===== *)
(** kessel-vsr: agreement in normal operation.

    A cluster is its replicas and every message ever sent: delivering any of
    them at any time covers loss, duplication and reordering. As long as no
    replica has left view 0, every log is a prefix of the primary's, every
    state machine is the result of executing a prefix of it, and whatever is
    committed is in the logs of a quorum.

    Source: src/crates/kessel-vsr/src/lib.rs ([Replica]). *)

From Stdlib Require Import ZArith Lia.
From stdpp Require Import base numbers list gmap fin_maps relations.
From S2P Require Import Prelude BTree Vsr VsrSpec.

#[local] Open Scope Z_scope.
#[local] Set Warnings "-clear-no-such-hyp".

Section Cluster.
Context {S O R : Type} `{Machine S O R}.
Implicit Types (r : Replica S O R) (out : Out O R) (m : Msg O) (L : list (LogEntry O)).

(** * Clusters *)

Record Cluster := mkCluster { cl_rs : gmap Z (Replica S O R); cl_net : list (Z * Msg O) }.

Definition cluster_new (n : Z) (sm0 : S) : Cluster :=
  mkCluster (list_to_map ((fun i => (i, replica_new i n sm0)) <$> seqZ 0 n)) [].

(** The effects of a replica's step on the cluster. *)
Definition absorb (i : Z) (ro : Replica S O R * Out O R) (c : Cluster) : Cluster :=
  mkCluster (<[i := ro.1]> (cl_rs c)) (cl_net c ++ o_msgs ro.2).

Inductive cstep : Cluster -> Cluster -> Prop :=
  | cs_request to client req op c :
      cstep c (mkCluster (cl_rs c) (cl_net c ++ [(to, Request client req op)]))
  | cs_deliver to m r c :
      (to, m) ∈ cl_net c -> cl_rs c !! to = Some r -> cstep c (absorb to (handle m r) c)
  | cs_tick i r c : cl_rs c !! i = Some r -> cstep c (absorb i (tick r) c)
  | cs_crash i r c : cl_rs c !! i = Some r -> cstep c (absorb i (set_crashed true r, out_default) c).

Definition reachable (n : Z) (sm0 : S) (c : Cluster) : Prop := rtc cstep (cluster_new n sm0) c.

(** * Effects *)

Definition sends (P : Msg O -> Prop) out : Prop := forall to m, (to, m) ∈ o_msgs out -> P m.

Lemma sends_default P : sends P (out_default : Out O R).
Proof. intros to m Hin. by apply elem_of_nil in Hin. Qed.

Lemma sends_send P to m out : P m -> sends P out -> sends P (send to m out).
Proof.
  intros Hm Ho to' m' Hin. cbn in Hin. apply elem_of_app in Hin as [Hin | Hin]; [by eapply Ho | ].
  apply list_elem_of_singleton in Hin as [= _ ->]. done.
Qed.

Lemma sends_reply P c q res out : sends P out -> sends P (reply c q res out).
Proof. done. Qed.

Lemma sends_broadcast P r m out : P m -> sends P out -> sends P (broadcast r m out).
Proof.
  intros Hm. unfold broadcast. generalize (seqZ 0 (r_n r)). intros l. revert out.
  induction l as [ | x l IH]; intros out Ho; [done | ]. cbn [fold_left]. apply IH.
  destruct (bool_decide _); [done | by apply sends_send].
Qed.

Lemma sends_same P out out' : o_msgs out' = o_msgs out -> sends P out -> sends P out'.
Proof. unfold sends. by intros ->. Qed.

Lemma sends_mono (P Q : Msg O -> Prop) out : (forall m, P m -> Q m) -> sends P out -> sends Q out.
Proof. intros HPQ Ho to m Hin. by eapply HPQ, Ho. Qed.

(** * The invariant *)

Context (n : Z) (sm0 : S).
Hypothesis n_pos : 0 < n.

Definition numbered L : Prop := forall j e, L !! j = Some e -> le_op_number e = Z.of_nat j + 1.

Record replica_ok L (C i : Z) r : Prop := {
  ro_idx : r_idx r = i;
  ro_n : r_n r = n;
  ro_view : r_view r = 0;
  ro_status : r_status r = Normal;
  ro_seen : r_max_view_seen r = 0;
  ro_log : r_log r `prefix_of` L;
  ro_commit : 0 <= r_commit r <= Z.min C (op_number r);
  ro_exec : (r_sm r, r_client_table r) = run_entries (take (Z.to_nat (r_commit r)) L) (sm0, ∅)
}.

(** [holds k x]: replica [x] has operation [k] in its log. *)
Definition entry_ok L (e : LogEntry O) : Prop := 1 <= le_op_number e /\ L !! Z.to_nat (le_op_number e - 1) = Some e.

Definition msg_ok L (C : Z) (holds : Z -> Z -> Prop) m : Prop :=
  match m with
  | Request _ _ _ => True
  | Prepare v k c q op cm => v = 0 /\ cm <= C /\ entry_ok L (mkEntry k c q op)
  | PrepareOk v k x => v = 0 /\ holds k x
  | Commit v cm => v = 0 /\ cm <= C
  | GetState v _ _ => v = 0
  | NewState v suffix cm => v = 0 /\ cm <= C /\ Forall (entry_ok L) suffix
  | _ => False
  end.

Lemma entry_ok_mono L L' e : L `prefix_of` L' -> entry_ok L e -> entry_ok L' e.
Proof. intros Hp [H1 H2]. split; [done | by eapply prefix_lookup_Some]. Qed.

Lemma msg_ok_mono L L' (C C' : Z) (h h' : Z -> Z -> Prop) m :
  L `prefix_of` L' -> C <= C' -> (forall k x, h k x -> h' k x) -> msg_ok L C h m -> msg_ok L' C' h' m.
Proof.
  intros HL HC Hh. destruct m; cbn; try done; try naive_solver lia.
  - intros (? & ? & ?). split_and!; [done | lia | by eapply entry_ok_mono].
  - intros (? & ? & Hf). split_and!; [done | lia | ]. eapply Forall_impl; [exact Hf | ].
    intros e. by apply entry_ok_mono.
Qed.

Lemma replica_ok_mono L L' (C C' i : Z) r :
  L `prefix_of` L' -> C <= C' -> replica_ok L C i r -> replica_ok L' C' i r.
Proof.
  intros HL HC [? ? ? ? ? Hl Hc He]. constructor; try done; [by etrans | lia | ].
  rewrite He. f_equal. destruct HL as [k ->]. destruct Hl as [k' ->]. unfold op_number, zlen in Hc.
  rewrite <- !app_assoc, !take_app_le; [done | lia | lia].
Qed.

Lemma numbered_entry L e : numbered L -> e ∈ L -> entry_ok L e.
Proof.
  intros Hn Hin. apply list_elem_of_lookup in Hin as [j Hj]. unfold entry_ok. rewrite (Hn j e Hj).
  split; [lia | ]. replace (Z.to_nat (Z.of_nat j + 1 - 1)) with j by lia. done.
Qed.

Lemma primary_0 L (C i : Z) r : replica_ok L C i r -> primary_of r (r_view r) = 0.
Proof. intros Hr. unfold primary_of. rewrite (ro_view _ _ _ _ Hr), (ro_n _ _ _ _ Hr). apply Z.mod_0_l. lia. Qed.

Lemma is_primary_0 L (C i : Z) r : replica_ok L C i r -> is_primary r = (i =? 0).
Proof.
  intros Hr. unfold is_primary. rewrite (primary_0 _ _ _ _ Hr), (ro_idx _ _ _ _ Hr). apply Z.eqb_sym.
Qed.

(** Executing committed entries. *)
Lemma replica_ok_through L (C i t : Z) r :
  replica_ok L C i r -> t <= C -> replica_ok L C i (with_exec (through t r) r).
Proof.
  intros Hr Ht. pose proof (ro_commit _ _ _ _ Hr) as Hc. pose proof (ro_log _ _ _ _ Hr) as [k HL].
  assert (zlen (through t r) = Z.max 0 (Z.min t (op_number r) - r_commit r)) as Hlen.
  { unfold through, zlen, op_number, zlen in *. rewrite length_take, length_drop. lia. }
  constructor; try apply Hr; cbn.
  - rewrite Hlen. unfold op_number in *. cbn. lia.
  - rewrite Hlen. rewrite <- surjective_pairing, (ro_exec _ _ _ _ Hr), <- run_entries_app. f_equal.
    unfold through, op_number, zlen in *. subst L.
    replace (Z.to_nat (r_commit r + Z.max 0 (Z.min t (Z.of_nat (length (r_log r))) - r_commit r)))
      with (Z.to_nat (r_commit r) + Z.to_nat (Z.min t (Z.of_nat (length (r_log r))) - r_commit r))%nat by lia.
    rewrite take_app_le by lia. rewrite take_app_le by lia. by rewrite take_take_drop.
Qed.

(** * One handler

    [step_ok]: from a good replica a handler leads to a good one with a longer
    log, and sends good messages, where the replica's own log counts as it is
    afterwards. For the primary the reference log and commit move with it. *)

Record step_ok L (C i : Z) (holds : Z -> Z -> Prop) r (ro : Replica S O R * Out O R) : Prop := {
  so_ok : replica_ok L C i ro.1;
  so_log : r_log r `prefix_of` r_log ro.1;
  so_acks : r_prepare_ok ro.1 = r_prepare_ok r;
  so_sends : sends (msg_ok L C (fun k x => holds k x \/ (x = i /\ k <= op_number ro.1))) ro.2
}.

Section Backup.
Context (L : list (LogEntry O)) (C i : Z) (holds : Z -> Z -> Prop).
Hypothesis Hnum : numbered L.

Lemma step_stay r out :
  replica_ok L C i r -> sends (msg_ok L C (fun k x => holds k x \/ (x = i /\ k <= op_number r))) out ->
  step_ok L C i holds r (r, out).
Proof. intros Hr Ho. by constructor. Qed.

Lemma set_ticks_ok x r : replica_ok L C i r -> replica_ok L C i (set_ticks_idle x r).
Proof. intros []. by constructor. Qed.
Lemma set_last_ok x r : replica_ok L C i r -> replica_ok L C i (set_last_primary_op_seen x r).
Proof. intros []. by constructor. Qed.

(** A longer log, still a prefix. *)
Lemma set_log_ok l r :
  replica_ok L C i r -> r_log r `prefix_of` l -> l `prefix_of` L -> replica_ok L C i (set_log l r).
Proof.
  intros Hr Hp HL. pose proof (prefix_length _ _ Hp) as Hl. destruct Hr. constructor; try done.
  unfold op_number, zlen in *. cbn. lia.
Qed.

Lemma step_through t r0 r out :
  replica_ok L C i r -> t <= C -> r_log r0 `prefix_of` r_log r -> r_prepare_ok r = r_prepare_ok r0 ->
  sends (msg_ok L C (fun k x => holds k x \/ (x = i /\ k <= op_number r))) out ->
  step_ok L C i holds r0 (apply_through t (r, out)).
Proof.
  intros Hr Ht Hp Ha Ho. destruct (apply_through_spec t r out) as (out' & -> & Hm).
  constructor; cbn [fst snd]; [by apply replica_ok_through | done | done | ]. by eapply sends_same.
Qed.

(** Appending the next entry of the reference log. *)
Lemma snoc_prefix (l : list (LogEntry O)) e :
  l `prefix_of` L -> L !! length l = Some e -> (l ++ [e]) `prefix_of` L.
Proof.
  intros [k ->] He.
  rewrite lookup_app_r, Nat.sub_diag in He by lia. destruct k as [ | e' k]; [done | ]. injection He as ->.
  exists k. by rewrite <- app_assoc.
Qed.

Lemma step_prepare v k c q op cm r :
  replica_ok L C i r -> msg_ok L C holds (Prepare v k c q op cm) ->
  step_ok L C i holds r (on_prepare v k c q op cm (r, out_default)).
Proof.
  intros Hr (-> & Hcm & Hk & He). cbn [le_op_number] in Hk, He. unfold on_prepare.
  rewrite (ro_view _ _ _ _ Hr), (ro_status _ _ _ _ Hr). cbn [Z.ltb Z.compare]. rewrite bool_decide_true by done.
  cbn [negb]. cbv zeta.
  set (r1 := if r_last_primary_op_seen _ <? k then _ else _).
  assert (replica_ok L C i r1 /\ r_log r1 = r_log r /\ r_prepare_ok r1 = r_prepare_ok r) as (Hr1 & Hl1 & Ha1).
  { unfold r1. destruct (_ <? k); split_and!; try done; auto using set_ticks_ok, set_last_ok. }
  clearbody r1. unfold op_number. rewrite Hl1, (ro_view _ _ _ _ Hr1), (ro_idx _ _ _ _ Hr1).
  destruct (k =? zlen (r_log r) + 1) eqn:E1; [ | destruct (k <=? zlen (r_log r)) eqn:E2]; zb.
  - apply step_through; [ | done | cbn; by apply prefix_app_r | done | ].
    + apply set_log_ok; [done | rewrite Hl1; by apply prefix_app_r | ].
      apply snoc_prefix; [apply Hr | ]. replace (length (r_log r)) with (Z.to_nat (k - 1)) by (unfold zlen in E1; lia). done.
    + apply sends_send; [ | apply sends_default]. cbn. split; [done | ]. right. split; [done | ].
      unfold op_number. cbn. rewrite zlen_app, zlen_cons, zlen_nil. lia.
  - apply step_through; [done | done | by rewrite Hl1 | done | ]. apply sends_send; [ | apply sends_default].
    cbn. split; [done | ]. right. unfold op_number. rewrite Hl1. done.
  - apply step_through; [done | done | by rewrite Hl1 | done | ]. by apply sends_send; [ | apply sends_default].
Qed.

Lemma step_commit v cm r :
  replica_ok L C i r -> msg_ok L C holds (Commit v cm) ->
  step_ok L C i holds r (on_commit_msg v cm (r, out_default)).
Proof.
  intros Hr (-> & Hcm). unfold on_commit_msg.
  rewrite (ro_view _ _ _ _ Hr), (ro_status _ _ _ _ Hr). cbn [Z.ltb Z.compare]. rewrite bool_decide_true by done.
  cbn [negb]. cbv zeta. apply step_through; [by apply set_ticks_ok | done | done | done | ].
  destruct (_ <? cm); [ | apply sends_default]. apply sends_send; [ | apply sends_default]. cbn. apply Hr.
Qed.

Lemma step_get_state v a x r :
  replica_ok L C i r -> msg_ok L C holds (GetState v a x) ->
  step_ok L C i holds r (on_get_state v a x (r, out_default)).
Proof.
  intros Hr Hv. unfold on_get_state. destruct (_ && _); apply step_stay; try done; [ | apply sends_default].
  apply sends_send; [ | apply sends_default]. cbn. split_and!; [apply Hr | pose proof (ro_commit _ _ _ _ Hr); lia | ].
  apply Forall_drop, Forall_forall. intros e Hin. apply numbered_entry; [done | ].
  destruct (ro_log _ _ _ _ Hr) as [k ->]. by apply elem_of_app; left.
Qed.

Lemma fill_gap_prefix (l suffix : list (LogEntry O)) :
  l `prefix_of` L -> Forall (entry_ok L) suffix ->
  l `prefix_of` fill_gap l suffix /\ fill_gap l suffix `prefix_of` L.
Proof.
  intros Hl Hs. revert l Hl. induction Hs as [ | e suffix [_ He] _ IH]; intros l Hl; [done | ].
  unfold fill_gap. cbn [fold_left]. destruct (le_op_number e =? zlen l + 1) eqn:E; zb; [ | by apply IH].
  destruct (IH (l ++ [e])) as [H1 H2].
  - apply snoc_prefix; [done | ]. replace (length l) with (Z.to_nat (le_op_number e - 1)) by (unfold zlen in E; lia). done.
  - split; [ | done]. etrans; [ | exact H1]. by apply prefix_app_r.
Qed.

Lemma step_new_state v suffix cm r :
  replica_ok L C i r -> msg_ok L C holds (NewState v suffix cm) ->
  step_ok L C i holds r (on_new_state v suffix cm (r, out_default)).
Proof.
  intros Hr (-> & Hcm & Hs). unfold on_new_state. rewrite (ro_view _ _ _ _ Hr), (ro_status _ _ _ _ Hr).
  cbn [Z.eqb negb]. rewrite bool_decide_true by done. cbn [negb]. cbv zeta. set (r1 := set_ticks_idle 0 _).
  destruct (fill_gap_prefix (r_log r) suffix (ro_log _ _ _ _ Hr) Hs) as [Hp1 Hp2].
  assert (replica_ok L C i r1) as Hr1 by (by apply set_ticks_ok, set_log_ok).
  destruct (step_through cm r r1 out_default Hr1 Hcm Hp1 eq_refl (sends_default _)) as [Ho Hl Ha Hsd].
  destruct (apply_through cm (r1, out_default)) as [r2 o2]. cbn [fst snd] in *.
  destruct (is_primary r2); [by constructor | ]. constructor; cbn [fst snd]; try done.
  apply sends_send; [ | done]. cbn. split; [apply Ho | ]. right. split; [apply Ho | lia].
Qed.

(** Requests away from the primary. *)
Lemma step_request c q op r :
  replica_ok L C i r -> i <> 0 -> step_ok L C i holds r (on_request c q op (r, out_default)).
Proof.
  intros Hr Hi. unfold on_request, on_request_new. rewrite (is_primary_0 _ _ _ _ Hr), (proj2 (Z.eqb_neq i 0)) by done.
  cbn [negb]. repeat dcase; apply step_stay; try done; try apply sends_default.
  all: apply sends_send; [done | apply sends_default].
Qed.

Lemma step_prepare_ok v k x r :
  replica_ok L C i r -> i <> 0 -> step_ok L C i holds r (on_prepare_ok v k x (r, out_default)).
Proof.
  intros Hr Hi. unfold on_prepare_ok. rewrite (is_primary_0 _ _ _ _ Hr), (proj2 (Z.eqb_neq i 0)) by done.
  rewrite orb_true_r. cbn [orb]. apply step_stay; [done | apply sends_default].
Qed.
End Backup.

(** ** The primary *)

Record primary_ok (holds : Z -> Z -> Prop) r (ro : Replica S O R * Out O R) : Prop := {
  po_ok : replica_ok (r_log ro.1) (r_commit ro.1) 0 ro.1;
  po_num : numbered (r_log ro.1);
  po_log : r_log r `prefix_of` r_log ro.1;
  po_commit : r_commit r <= r_commit ro.1;
  po_acks : forall k s x, r_prepare_ok ro.1 !! k = Some s -> x ∈ s -> holds k x \/ (x = 0 /\ k <= op_number ro.1);
  po_quorum : forall k, r_commit r < k <= r_commit ro.1 ->
    exists s, r_prepare_ok ro.1 !! k = Some s /\ n / 2 + 1 <= Z.of_nat (size s);
  po_sends : sends (msg_ok (r_log ro.1) (r_commit ro.1) (fun k x => holds k x \/ (x = 0 /\ k <= op_number ro.1))) ro.2
}.

Section Primary.
Context (holds : Z -> Z -> Prop) (r : Replica S O R).
Hypothesis Hok : replica_ok (r_log r) (r_commit r) 0 r.
Hypothesis Hnum : numbered (r_log r).
Hypothesis Hacks : forall k s x, r_prepare_ok r !! k = Some s -> x ∈ s -> holds k x.
(** Only replicas whose log the primary's extends are counted. *)
Hypothesis Hholds : forall k x, holds k x -> k <= op_number r.

(** A handler that leaves the primary's log and commit alone. *)
Lemma primary_of_step ro :
  r_commit r <= r_commit ro.1 -> step_ok (r_log r) (r_commit r) 0 holds r ro -> primary_ok holds r ro.
Proof.
  intros Hle [Hr Hl Ha Hs]. assert (r_log ro.1 = r_log r) as Hlog.
  { apply (anti_symm prefix); [apply Hr | done]. }
  pose proof (ro_commit _ _ _ _ Hr) as Hc. assert (r_commit ro.1 = r_commit r) as Hcm by lia.
  constructor; rewrite ?Hlog, ?Hcm; try done.
  - intros k s x. rewrite Ha. intros Hk Hx. left. by eapply Hacks.
  - intros k Hk. lia.
Qed.

Lemma lookup_vote (m : gmap Z (gset Z)) k x j s :
  vote m k x !! j = Some s -> (j = k /\ s = {[ x ]} ∪ default ∅ (m !! k)) \/ (j <> k /\ m !! j = Some s).
Proof. unfold vote. intros [[<- <-] | [? ?]]%lookup_insert_Some; [by left | right; split; [by apply not_eq_sym | done]]. Qed.

Lemma vote_elem (m : gmap Z (gset Z)) k x j s y :
  vote m k x !! j = Some s -> y ∈ s -> (j = k /\ y = x) \/ exists s', m !! j = Some s' /\ y ∈ s'.
Proof.
  intros [[-> ->] | [_ Hm]]%lookup_vote Hy; [ | eauto]. apply elem_of_union in Hy as [Hy | Hy].
  - left. split; [done | by apply elem_of_singleton in Hy].
  - right. destruct (m !! k) as [s' | ]; [eauto | ]. by apply elem_of_empty in Hy.
Qed.

Lemma numbered_snoc (L : list (LogEntry O)) e :
  numbered L -> le_op_number e = zlen L + 1 -> numbered (L ++ [e]).
Proof.
  intros HL He j x Hj. destruct (decide (j < length L)%nat) as [Hlt | Hge].
  - rewrite lookup_app_l in Hj by done. by apply HL.
  - rewrite lookup_app_r in Hj by lia. apply list_lookup_singleton_Some in Hj as [Hj <-].
    rewrite He. unfold zlen. lia.
Qed.

(** The primary with one more entry in its log. *)
Lemma primary_append e acks :
  le_op_number e = op_number r + 1 ->
  replica_ok (r_log r ++ [e]) (r_commit r) 0 (set_prepare_ok acks (set_log (r_log r ++ [e]) r)).
Proof.
  intros He. pose proof (replica_ok_mono (r_log r) (r_log r ++ [e]) (r_commit r) (r_commit r) 0 r
    ltac:(by apply prefix_app_r) ltac:(lia) Hok) as [? ? ? ? ? ? Hc Hx].
  constructor; try done. change (0 <= r_commit r <= Z.min (r_commit r) (zlen (r_log r ++ [e]))).
  rewrite zlen_app. pose proof (zlen_nonneg [e]). unfold op_number in Hc. lia.
Qed.

Lemma primary_stay out : o_msgs out = [] -> primary_ok holds r (r, out).
Proof.
  intros Ho. apply primary_of_step; [done | ]. apply step_stay; [done | ].
  eapply (sends_same _ out_default); [exact Ho | apply sends_default].
Qed.

Lemma primary_request_new c q op : primary_ok holds r (on_request_new c q op (r, out_default)).
Proof.
  unfold on_request_new. rewrite (is_primary_0 _ _ _ _ Hok), Z.eqb_refl. cbn [negb]. cbv zeta.
  set (e := mkEntry (op_number r + 1) c q op). set (acks := vote _ _ _).
  pose proof (primary_append e acks eq_refl) as Hr. set (r' := set_prepare_ok acks _) in *.
  assert (op_number r' = op_number r + 1) as Hlen
    by (unfold op_number; cbn; rewrite zlen_app, zlen_cons, zlen_nil; lia).
  constructor; cbn [fst snd]; [done | by apply numbered_snoc | by apply prefix_app_r | done | | cbn; lia | ].
  - intros k s x Hk Hx. cbn in Hk. apply (vote_elem _ _ _ _ _ _ Hk) in Hx as [[-> ->] | (s' & Hs & Hx)].
    + right. split; [apply Hok | lia].
    + left. by eapply Hacks.
  - apply sends_broadcast; [ | apply sends_default]. cbn. split_and!; [apply Hok | lia | ].
    unfold entry_ok. cbn. unfold op_number. pose proof (zlen_nonneg (r_log r)). split; [lia | ].
    apply list_lookup_middle. unfold zlen. lia.
Qed.

Lemma primary_request c q op : primary_ok holds r (on_request c q op (r, out_default)).
Proof.
  unfold on_request. destruct (negb _); [by apply primary_stay | ].
  destruct (r_client_table r !! c) as [[last res] | ]; [ | apply primary_request_new].
  destruct (q <=? last); [by apply primary_stay | apply primary_request_new].
Qed.

Lemma commit_target_spec fuel r0 t :
  let t' := commit_target fuel r0 t in
  t <= t' <= t + Z.of_nat fuel /\
  forall k, t < k <= t' -> exists s, r_prepare_ok r0 !! k = Some s /\ quorum r0 <= Z.of_nat (size s).
Proof.
  revert t. induction fuel as [ | fuel IH]; intros t; cbn [commit_target].
  { split; [lia | ]. intros k Hk. lia. }
  destruct (r_prepare_ok r0 !! (t + 1)) as [s | ] eqn:E; [destruct (quorum r0 <=? _) eqn:Eq; zb | ].
  2, 3: split; [lia | intros k Hk; lia].
  destruct (IH (t + 1)) as [Hb Hq]. split; [lia | ]. intros k Hk.
  destruct (decide (k = t + 1)) as [-> | Hne]; [eauto | apply Hq; lia].
Qed.

Lemma primary_prepare_ok v k x :
  msg_ok (r_log r) (r_commit r) holds (PrepareOk v k x) ->
  primary_ok holds r (on_prepare_ok v k x (r, out_default)).
Proof.
  intros (-> & Hx). unfold on_prepare_ok.
  rewrite (is_primary_0 _ _ _ _ Hok), (ro_view _ _ _ _ Hok), (ro_status _ _ _ _ Hok), !Z.eqb_refl.
  rewrite bool_decide_true by done. cbn [negb orb]. cbv zeta. set (r1 := set_prepare_ok _ r).
  assert (replica_ok (r_log r) (r_commit r) 0 r1) as Hr1 by (destruct Hok; by constructor).
  assert (forall k s x, r_prepare_ok r1 !! k = Some s -> x ∈ s -> holds k x \/ (x = 0 /\ k <= op_number r1)) as Ha1.
  { intros k' s y Hk Hy. cbn in Hk. apply (vote_elem _ _ _ _ _ _ Hk) in Hy as [[-> ->] | (s' & Hs & Hy)].
    { right. split; [apply Hok | by apply Hholds in Hx]. }
    apply (vote_elem _ _ _ _ _ _ Hs) in Hy as [[-> ->] | (s2 & Hs2 & Hy)]; left; [done | by eapply Hacks]. }
  destruct (_ && _).
  2: { constructor; cbn [fst snd]; [done | done | done | done | done | cbn; lia | apply sends_default]. }
  pose proof (commit_target_spec (Z.to_nat (op_number r1 - r_commit r1)) r1 (r_commit r1)) as [Hb Hq].
  set (t := commit_target _ _ _) in *. pose proof (ro_commit _ _ _ _ Hr1) as Hc1.
  change (r_commit r1) with (r_commit r) in *.
  assert (replica_ok (r_log r) t 0 (with_exec (through t r1) r1)) as Hr2.
  { apply replica_ok_through; [ | lia]. eapply (replica_ok_mono _ _ (r_commit r)); [done | lia | exact Hr1]. }
  assert (r_commit (with_exec (through t r1) r1) = t) as Hct.
  { cbn. unfold through, zlen, op_number, zlen in *. rewrite length_take, length_drop. cbn in *. lia. }
  destruct (apply_through_spec t r1 out_default) as (out' & -> & Hm).
  constructor; cbn [fst snd].
  - by rewrite Hct.
  - done.
  - done.
  - rewrite Hct. lia.
  - done.
  - rewrite Hct. intros k' Hk'. destruct (Hq k' Hk') as (s & Hs & Hqs). exists s. split; [done | ].
    unfold quorum in Hqs. by rewrite (ro_n _ _ _ _ Hr1) in Hqs.
  - apply sends_broadcast; [cbn; split; [apply Hok | done] | ]. eapply sends_same; [exact Hm | apply sends_default].
Qed.

Lemma primary_handle m :
  msg_ok (r_log r) (r_commit r) holds m -> primary_ok holds r (handle m r).
Proof.
  intros Hm. unfold handle. destruct (r_crashed r); [by apply primary_stay | ].
  assert (msg_view m = 0) as Hv by (destruct m; cbn in *; try done; by destruct Hm).
  rewrite Hv, (ro_seen _ _ _ _ Hok). cbn [Z.ltb Z.compare]. cbv zeta.
  assert (forall ro, step_ok (r_log r) (r_commit r) 0 holds r ro -> r_commit r <= r_commit ro.1 ->
            primary_ok holds r ro) as Hs by (intros; by apply primary_of_step).
  pose proof (progress_dispatch m r out_default) as [_ _ _ _ (es & _ & Hc)].
  pose proof (zlen_nonneg es). destruct m; cbn [dispatch] in *; try done.
  - apply primary_request.
  - apply Hs; [by apply step_prepare | lia].
  - by apply primary_prepare_ok.
  - apply Hs; [by apply step_commit | lia].
  - apply Hs; [by apply step_get_state | lia].
  - apply Hs; [by apply step_new_state | lia].
Qed.

Lemma sends_retransmit (P : Msg O -> Prop) r0 out :
  (forall e, e ∈ r_log r0 ->
     P (Prepare (r_view r0) (le_op_number e) (le_client e) (le_req e) (le_op e) (r_commit r0))) ->
  sends P out -> sends P (retransmit r0 out).
Proof.
  intros HP. unfold retransmit.
  assert (forall e, e ∈ drop (Z.to_nat (r_commit r0)) (r_log r0) -> e ∈ r_log r0) as Hsub.
  { intros e He. rewrite <- (take_drop (Z.to_nat (r_commit r0)) (r_log r0)). apply elem_of_app. by right. }
  revert Hsub out. generalize (drop (Z.to_nat (r_commit r0)) (r_log r0)).
  intros l. induction l as [ | e l IH]; intros Hsub out Ho; [done | ]. cbn [fold_left]. apply IH.
  - intros e' He'. by apply Hsub, list_elem_of_further.
  - apply sends_broadcast; [ | done]. apply HP, Hsub, list_elem_of_here.
Qed.

Lemma primary_tick : primary_ok holds r (tick r).
Proof.
  unfold tick. destruct (r_crashed r); [by apply primary_stay | ].
  rewrite (ro_status _ _ _ _ Hok), bool_decide_true by done. cbv zeta. set (r1 := set_vc_retries 0 r).
  assert (replica_ok (r_log r) (r_commit r) 0 r1) as Hr1 by (destruct Hok; by constructor).
  change (r_status r1) with (r_status r). rewrite (is_primary_0 _ _ _ _ Hr1), (ro_status _ _ _ _ Hok).
  rewrite bool_decide_true by done. cbn [Z.eqb andb]. apply primary_of_step; [done | ].
  constructor; cbn [fst snd]; [done | done | done | ]. apply sends_retransmit.
  - intros e He. change (r_log r1) with (r_log r) in He. cbn. split_and!; [apply Hok | lia | ].
    destruct e. by apply numbered_entry.
  - apply sends_broadcast; [ | apply sends_default]. cbn. split; [apply Hok | done].
Qed.
End Primary.

(** ** Backups *)

Lemma backup_handle L (C i : Z) holds m r :
  numbered L -> i <> 0 -> replica_ok L C i r -> msg_ok L C holds m -> step_ok L C i holds r (handle m r).
Proof.
  intros Hnum Hi Hok Hm. unfold handle. destruct (r_crashed r); [apply step_stay; [done | apply sends_default] | ].
  assert (msg_view m = 0) as Hv by (destruct m; cbn in *; try done; by destruct Hm).
  rewrite Hv, (ro_seen _ _ _ _ Hok). cbn [Z.ltb Z.compare]. cbv zeta.
  destruct m; cbn [dispatch] in *; try done;
    auto using step_request, step_prepare, step_prepare_ok, step_commit, step_get_state, step_new_state.
Qed.

Lemma start_view_change_leaves r out : r_view r = 0 -> r_max_view_seen r = 0 -> 0 < r_view (start_view_change (r, out)).1.
Proof.
  intros Hv Hs. unfold start_view_change. rewrite Hv, Hs. cbv zeta.
  set (r1 := advance_view_to _ r).
  assert (r_view r1 = 1) as H1 by (unfold r1, advance_view_to; by rewrite Hv).
  eapply Z.lt_le_trans; [ | apply (pg_view _ _ (progress_finish_svc _ _ _))].
  change (0 < r_view r1). rewrite H1. lia.
Qed.

Lemma backup_tick L (C i : Z) holds r :
  i <> 0 -> replica_ok L C i r -> r_view (tick r).1 = 0 -> step_ok L C i holds r (tick r).
Proof.
  intros Hi Hok. unfold tick. destruct (r_crashed r).
  { intros _. apply step_stay; [done | apply sends_default]. }
  rewrite (ro_status _ _ _ _ Hok), bool_decide_true by done. cbv zeta. set (r1 := set_vc_retries 0 r).
  assert (replica_ok L C i r1) as Hr1 by (destruct Hok; by constructor).
  change (r_status r1) with (r_status r). rewrite (is_primary_0 _ _ _ _ Hr1), (ro_status _ _ _ _ Hok).
  rewrite bool_decide_true by done. rewrite (proj2 (Z.eqb_neq i 0)) by done. cbn [andb].
  destruct (_ <=? _).
  - intros Hv. exfalso. match type of Hv with r_view (start_view_change (?r2, ?o)).1 = 0 =>
      pose proof (start_view_change_leaves r2 o (ro_view _ _ _ _ Hok) (ro_seen _ _ _ _ Hok)) end. lia.
  - intros _. constructor; cbn [fst snd]; [ | done | done | apply sends_default]. destruct Hok. by constructor.
Qed.

Lemma set_crashed_step L (C i : Z) holds r :
  replica_ok L C i r -> step_ok L C i holds r (set_crashed true r, out_default).
Proof. intros Hok. constructor; cbn [fst snd]; [ | done | done | apply sends_default]. destruct Hok. by constructor. Qed.

(** * The cluster *)

(** Replica [x] has operation [k] in its log. *)
Definition holds (c : Cluster) (k x : Z) : Prop := exists r, cl_rs c !! x = Some r /\ k <= op_number r.

Record inv r0 (c : Cluster) : Prop := {
  iv_0 : cl_rs c !! 0 = Some r0;
  iv_num : numbered (r_log r0);
  iv_rs : forall i r, cl_rs c !! i = Some r -> replica_ok (r_log r0) (r_commit r0) i r;
  iv_net : forall to m, (to, m) ∈ cl_net c -> msg_ok (r_log r0) (r_commit r0) (holds c) m;
  iv_acks : forall k s x, r_prepare_ok r0 !! k = Some s -> x ∈ s -> holds c k x;
  iv_quorum : forall k, 1 <= k <= r_commit r0 ->
    exists Q : gset Z, n / 2 + 1 <= Z.of_nat (size Q) /\ forall x, x ∈ Q -> holds c k x
}.

Lemma holds_absorb c i r ro k x :
  cl_rs c !! i = Some r -> r_log r `prefix_of` r_log ro.1 ->
  holds c k x \/ (x = i /\ k <= op_number ro.1) -> holds (absorb i ro c) k x.
Proof.
  intros Hi Hp [(r' & Hx & Hk) | [-> Hk]]; unfold holds, absorb; cbn [cl_rs].
  - destruct (decide (x = i)) as [-> | Hne].
    + exists ro.1. rewrite lookup_insert_eq. split; [done | ]. rewrite Hi in Hx. injection Hx as <-.
      apply prefix_length in Hp. unfold op_number, zlen in *. lia.
    + exists r'. rewrite lookup_insert_ne by (by apply not_eq_sym). done.
  - exists ro.1. by rewrite lookup_insert_eq.
Qed.

Lemma inv_holds_log r0 c k x : inv r0 c -> holds c k x -> k <= op_number r0.
Proof.
  intros Hinv (r & Hr & Hk). pose proof (ro_log _ _ _ _ (iv_rs _ _ Hinv x r Hr)) as Hp.
  apply prefix_length in Hp. unfold op_number, zlen in *. lia.
Qed.

Lemma inv_backup r0 c i r ro :
  inv r0 c -> cl_rs c !! i = Some r -> i <> 0 ->
  step_ok (r_log r0) (r_commit r0) i (holds c) r ro -> inv r0 (absorb i ro c).
Proof.
  intros Hinv Hi Hne [Hr Hl Ha Hs].
  assert (forall k x, holds c k x -> holds (absorb i ro c) k x) as Hh by (intros; eapply holds_absorb; eauto).
  constructor.
  - cbn. rewrite lookup_insert_ne by done. apply Hinv.
  - apply Hinv.
  - cbn. intros j r' [[<- <-] | [_ Hj]]%lookup_insert_Some; [done | by apply Hinv].
  - intros to m [Hin | Hin]%elem_of_app.
    + eapply msg_ok_mono; [done | done | exact Hh | by eapply Hinv].
    + eapply msg_ok_mono; [done | done | | by eapply Hs]. intros k x. by eapply holds_absorb.
  - intros k s x Hk Hx. by eapply Hh, iv_acks.
  - intros k Hk. destruct (iv_quorum _ _ Hinv k Hk) as (Q & HQ & Hall). exists Q. auto.
Qed.

Lemma inv_primary r0 c ro :
  inv r0 c -> primary_ok (holds c) r0 ro -> inv ro.1 (absorb 0 ro c).
Proof.
  intros Hinv [Hr Hnum Hl Hc Ha Hq Hs]. pose proof (iv_0 _ _ Hinv) as H0.
  assert (forall k x, holds c k x \/ (x = 0 /\ k <= op_number ro.1) -> holds (absorb 0 ro c) k x) as Hh
    by (intros; eapply holds_absorb; eauto).
  constructor.
  - cbn. apply lookup_insert_eq.
  - done.
  - cbn. intros j r' [[<- <-] | [_ Hj]]%lookup_insert_Some; [done | ].
    eapply replica_ok_mono; [exact Hl | exact Hc | by apply Hinv].
  - intros to m [Hin | Hin]%elem_of_app.
    + eapply msg_ok_mono; [exact Hl | exact Hc | | by eapply Hinv]. auto.
    + eapply (msg_ok_mono (r_log ro.1) _ (r_commit ro.1)); [done | lia | | by eapply Hs]. auto.
  - intros k s x Hk Hx. by eapply Hh, Ha.
  - intros k Hk. destruct (decide (k <= r_commit r0)) as [Hle | Hgt].
    + destruct (iv_quorum _ _ Hinv k) as (Q & HQ & Hall); [lia | ]. exists Q. auto.
    + destruct (Hq k) as (s & Hks & Hsz); [lia | ]. exists s. split; [done | ]. intros x Hx. by eapply Hh, Ha.
Qed.

Lemma cluster_new_lookup i r : cl_rs (cluster_new n sm0) !! i = Some r <-> 0 <= i < n /\ r = replica_new i n sm0.
Proof.
  unfold cluster_new. cbn [cl_rs]. rewrite <- elem_of_list_to_map.
  - rewrite list_elem_of_fmap. split.
    + intros (j & [= -> ->] & Hj%elem_of_seqZ). split; [lia | done].
    + intros [Hi ->]. exists i. split; [done | ]. apply elem_of_seqZ. lia.
  - rewrite <- list_fmap_compose. cbn. rewrite list_fmap_id. apply NoDup_seqZ.
Qed.

Lemma inv_new : inv (replica_new 0 n sm0) (cluster_new n sm0).
Proof.
  constructor; cbn.
  - apply cluster_new_lookup. split; [lia | done].
  - intros j e Hj. by rewrite lookup_nil in Hj.
  - intros i r [Hi ->]%cluster_new_lookup. constructor; cbn; try done.
  - intros to m Hin. by apply elem_of_nil in Hin.
  - intros k s x. by rewrite lookup_empty.
  - intros k Hk. lia.
Qed.

(** No replica has left view 0. *)
Definition view0 (c : Cluster) : Prop := forall i r, cl_rs c !! i = Some r -> r_view r = 0.

Lemma inv_step r0 c c' : inv r0 c -> cstep c c' -> view0 c' -> exists r0', inv r0' c'.
Proof.
  intros Hinv Hst Hv. destruct Hst as [to client req op c | to m r c Hm Hr | i r c Hr | i r c Hr].
  - exists r0. destruct Hinv as [? ? ? Hnet ? ?]. constructor; try done. cbn.
    intros to' m' [Hin | Hin]%elem_of_app; [by eapply Hnet | ].
    apply list_elem_of_singleton in Hin as [= _ ->]. done.
  - pose proof (iv_net _ _ Hinv _ _ Hm) as Hok. destruct (decide (to = 0)) as [-> | Hne].
    + rewrite (iv_0 _ _ Hinv) in Hr. injection Hr as <-. eexists. eapply inv_primary; [exact Hinv | ].
      apply primary_handle; [by apply (iv_rs _ _ Hinv), Hinv | apply (iv_num _ _ Hinv) | apply (iv_acks _ _ Hinv) | | done].
      intros k x. by apply inv_holds_log.
    + exists r0. eapply inv_backup; [done | done | done | ].
      apply backup_handle; [apply Hinv | done | by apply Hinv | done].
  - destruct (decide (i = 0)) as [-> | Hne].
    + rewrite (iv_0 _ _ Hinv) in Hr. injection Hr as <-. eexists. eapply inv_primary; [exact Hinv | ].
      apply primary_tick; [by apply (iv_rs _ _ Hinv), Hinv | apply (iv_num _ _ Hinv) | apply (iv_acks _ _ Hinv)].
    + exists r0. eapply inv_backup; [done | done | done | ].
      apply backup_tick; [done | by apply Hinv | ]. apply (Hv i). cbn. apply lookup_insert_eq.
  - destruct (decide (i = 0)) as [-> | Hne].
    + rewrite (iv_0 _ _ Hinv) in Hr. injection Hr as <-. eexists. eapply inv_primary; [exact Hinv | ].
      apply primary_of_step; [apply (iv_num _ _ Hinv) | apply (iv_acks _ _ Hinv) | done | ].
      apply set_crashed_step. by apply (iv_rs _ _ Hinv), Hinv.
    + exists r0. eapply inv_backup; [done | done | done | ]. apply set_crashed_step. by apply Hinv.
Qed.

(** Every step of the cluster is a step of one replica, or of none. *)
Lemma insert_progress (rs : gmap Z (Replica S O R)) j r r2 i r' :
  rs !! j = Some r -> progress r r2 -> <[j := r2]> rs !! i = Some r' ->
  exists r, rs !! i = Some r /\ progress r r'.
Proof.
  intros Hj Hp [[<- <-] | [_ Hr]]%lookup_insert_Some; [eauto | ]. exists r'. split; [done | apply progress_refl].
Qed.

Lemma cstep_progress c c' i r' :
  cstep c c' -> cl_rs c' !! i = Some r' -> exists r, cl_rs c !! i = Some r /\ progress r r'.
Proof.
  intros Hst. destruct Hst as [to client req op c | to m r c Hm Hr | j r c Hr | j r c Hr]; cbn.
  - intros Hr. exists r'. split; [done | apply progress_refl].
  - apply (insert_progress _ _ r); [done | apply progress_handle].
  - apply (insert_progress _ _ r); [done | apply progress_tick].
  - apply (insert_progress _ _ r); [done | ]. same_exec.
Qed.

Lemma cstep_keeps c c' i r : cstep c c' -> cl_rs c !! i = Some r -> is_Some (cl_rs c' !! i).
Proof.
  intros Hst Hr. destruct Hst as [to client req op c | to m r1 c Hm Hr1 | j r1 c Hr1 | j r1 c Hr1]; cbn; [by exists r | ..];
    rewrite lookup_insert; case_decide; by eexists.
Qed.

Lemma reachable_inv c :
  reachable n sm0 c ->
  (forall i r, cl_rs c !! i = Some r -> 0 <= r_view r) /\ (view0 c -> exists r0, inv r0 c).
Proof.
  intros Hc. unfold reachable in Hc.
  refine (rtc_ind_r (fun c => (forall i r, cl_rs c !! i = Some r -> 0 <= r_view r) /\ (view0 c -> exists r0, inv r0 c))
            (cluster_new n sm0) _ _ c Hc).
  - split; [intros i r [_ ->]%cluster_new_lookup; done | ]. intros _. eexists. apply inv_new.
  - intros c1 c2 _ Hst [Hpos Hinv]. split.
    + intros i r Hr. destruct (cstep_progress _ _ _ _ Hst Hr) as (r1 & Hr1 & Hp). specialize (Hpos i r1 Hr1).
      pose proof (pg_view _ _ Hp). lia.
    + intros Hv. assert (view0 c1) as Hv1.
      { intros i r Hr. specialize (Hpos i r Hr).
        destruct (cstep_keeps _ _ _ _ Hst Hr) as [r' Hr'].
        destruct (cstep_progress _ _ _ _ Hst Hr') as (r1 & Hr1 & Hp). rewrite Hr in Hr1. injection Hr1 as <-.
        specialize (Hv i r' Hr'). pose proof (pg_view _ _ Hp). lia. }
      destruct (Hinv Hv1) as (r0 & Hi). by eapply inv_step.
Qed.
End Cluster.

Arguments Cluster : clear implicits.

(** C3: Agreement in normal operation, for any number of replicas and any
    deterministic state machine, under loss, duplication and reordering of
    messages and crashes: as long as no replica has left view 0 there is one
    sequence of entries of which every log is a prefix and of which every
    state machine has executed a prefix; replicas that have executed equally
    many entries are in the same state; and every entry some replica has
    executed is in the logs of a majority. *)
Theorem normal_operation_agrees {S O R} `{Machine S O R} n (sm0 : S) (c : Cluster S O R) :
  0 < n -> reachable n sm0 c -> view0 c ->
  exists L : list (LogEntry O),
    (forall i r, cl_rs c !! i = Some r ->
       r_log r `prefix_of` L /\ 0 <= r_commit r <= op_number r /\
       (r_sm r, r_client_table r) = run_entries (take (Z.to_nat (r_commit r)) L) (sm0, ∅)) /\
    (forall i j ri rj, cl_rs c !! i = Some ri -> cl_rs c !! j = Some rj -> r_commit ri = r_commit rj ->
       r_sm ri = r_sm rj /\ r_client_table ri = r_client_table rj) /\
    (forall i r k, cl_rs c !! i = Some r -> 1 <= k <= r_commit r ->
       exists Q : gset Z, n / 2 + 1 <= Z.of_nat (size Q) /\
         forall x, x ∈ Q -> exists rx, cl_rs c !! x = Some rx /\ k <= op_number rx).
Proof.
  intros Hn Hc Hv. destruct (reachable_inv n sm0 Hn c Hc) as [_ Hi]. destruct (Hi Hv) as (r0 & Hinv).
  exists (r_log r0). split_and!.
  - intros i r Hr. pose proof (iv_rs _ _ _ _ Hinv i r Hr) as Hok. pose proof (ro_commit _ _ _ _ _ _ Hok).
    split_and!; [apply Hok | lia | lia | apply Hok].
  - intros i j ri rj Hri Hrj Heq. pose proof (ro_exec _ _ _ _ _ _ (iv_rs _ _ _ _ Hinv i ri Hri)) as Ei.
    pose proof (ro_exec _ _ _ _ _ _ (iv_rs _ _ _ _ Hinv j rj Hrj)) as Ej.
    rewrite Heq, <- Ej in Ei. by injection Ei.
  - intros i r k Hr Hk. pose proof (ro_commit _ _ _ _ _ _ (iv_rs _ _ _ _ Hinv i r Hr)).
    apply (iv_quorum _ _ _ _ Hinv k). lia.
Qed.

(** * Executable schedules *)

Inductive Event (O : Type) :=
  | EvRequest (to client req : Z) (op : O)
  | EvDeliver (i : nat)
  | EvTick (i : Z)
  | EvCrash (i : Z).
Arguments EvRequest {O}. Arguments EvDeliver {O}. Arguments EvTick {O}. Arguments EvCrash {O}.

Section Schedule.
Context {S O R : Type} `{Machine S O R}.

(** [EvDeliver i] delivers the [i]-th message ever sent. *)
Definition run_event (c : Cluster S O R) (e : Event O) : Cluster S O R :=
  match e with
  | EvRequest to client req op => mkCluster (cl_rs c) (cl_net c ++ [(to, Request client req op)])
  | EvDeliver i =>
      match cl_net c !! i with
      | Some (to, m) => match cl_rs c !! to with Some r => absorb to (handle m r) c | None => c end
      | None => c
      end
  | EvTick i => match cl_rs c !! i with Some r => absorb i (tick r) c | None => c end
  | EvCrash i => match cl_rs c !! i with Some r => absorb i (set_crashed true r, out_default) c | None => c end
  end.

Definition run_schedule (evs : list (Event O)) (c : Cluster S O R) : Cluster S O R := fold_left run_event evs c.

Lemma run_schedule_rtc evs c : rtc cstep c (run_schedule evs c).
Proof.
  revert c. induction evs as [ | e evs IH]; intros c; [apply rtc_refl | ].
  etrans; [ | apply IH]. destruct e as [to client req op | i | i | i]; cbn [run_event].
  - apply rtc_once, cs_request.
  - destruct (cl_net c !! i) as [[to m] | ] eqn:Em; [ | apply rtc_refl].
    destruct (cl_rs c !! to) as [r | ] eqn:Er; [ | apply rtc_refl].
    apply rtc_once, cs_deliver; [by eapply list_elem_of_lookup_2 | done].
  - destruct (cl_rs c !! i) as [r | ] eqn:Er; [ | apply rtc_refl]. by apply rtc_once, cs_tick.
  - destruct (cl_rs c !! i) as [r | ] eqn:Er; [ | apply rtc_refl]. by apply rtc_once, cs_crash.
Qed.

Lemma run_schedule_reachable n sm0 evs : reachable n sm0 (run_schedule evs (cluster_new n sm0)).
Proof. apply run_schedule_rtc. Qed.
End Schedule.

(** ** Applied to a sample *)

(** A running sum as the state machine; three replicas commit one request. *)
#[local] Instance sum_machine : Machine Z Z Z := fun _ op s => (s + op, s + op).

Definition sum_cluster : Cluster Z Z Z :=
  run_schedule [EvRequest 0 7 1 5; EvDeliver 0; EvDeliver 2; EvDeliver 3; EvDeliver 5] (cluster_new 3 0).

Lemma normal_operation_agrees_witness :
  (r_commit <$> cl_rs sum_cluster !! 2 = Some 1) /\
  exists L : list (LogEntry Z), forall i r, cl_rs sum_cluster !! i = Some r ->
    (r_sm r, r_client_table r) = run_entries (take (Z.to_nat (r_commit r)) L) (0, ∅).
Proof.
  split; [by vm_compute | ].
  destruct (normal_operation_agrees 3 0 sum_cluster) as (L & HL & _); [lia | apply run_schedule_reachable | | ].
  - intros i r Hr.
    assert (forall kv, kv ∈ map_to_list (cl_rs sum_cluster) -> r_view kv.2 = 0) as Hall.
    { intros kv Hkv. apply list_elem_of_In in Hkv. revert kv Hkv. apply List.Forall_forall. vm_compute.
      repeat constructor. }
    exact (Hall (i, r) (proj2 (elem_of_map_to_list (cl_rs sum_cluster) i r) Hr)).
  - exists L. intros i r Hr. apply (HL i r Hr).
Defined.
