(* ===== verification/VsrProgress.v ===== *)
(** kessel-vsr: progress in normal operation.

    Whatever loss, reordering and crashes have done to a cluster that is still
    in view 0, a live primary with a live majority can commit: one tick of the
    primary repeats what is not committed, state transfer brings a replica
    back that has missed committed operations, and the acknowledgements move
    the commit point to the end of the log.

    Source: src/crates/kessel-vsr/src/lib.rs ([Replica]). *)

From Stdlib Require Import ZArith Lia.
From stdpp Require Import base numbers list gmap fin_maps relations.
From S2P Require Import Prelude BTree Vsr VsrSpec VsrSafety.

#[local] Open Scope Z_scope.

Section Progress.
Context {S O R : Type} `{Machine S O R}.
Context (n : Z) (sm0 : S).
Hypothesis n_pos : 0 < n.
Implicit Types (r : Replica S O R) (c : Cluster S O R) (out : Out O R) (L : list (LogEntry O)).

(** * What a run keeps *)











(** * Handlers *)







(** ** Counting *)




(** ** Repetition *)





(** ** Round trips *)



(** * Many replicas, many operations *)




Section Majority.
Context (xs : list Z).
Hypothesis Hxs : forall x, x ∈ xs -> 0 < x < n.






End Majority.

(** * A request *)





End Progress.



(** ** Applied to a sample *)

#[local] Existing Instance sum_machine.



