(* ===== verification/VsrRuns.v ===== *)
(** kessel-vsr with kessel-sm: two runs of a three-replica cluster.

    The replicas run the state machine of [Sm] over the in-memory file system.
    Each run is a schedule of deliveries, losses (messages never delivered),
    ticks and at most one crash, and ends in a state the comments of the source
    exclude.

    Source: src/crates/kessel-vsr/src/lib.rs ([Replica]),
    src/crates/kessel-sm/src/lib.rs. *)

From Stdlib Require Import ZArith Lia.
From stdpp Require Import base numbers list gmap fin_maps.
From S2P Require Import Prelude BTree Vfs Storage Engine Ssi Tx Sm SmSpec Vsr VsrSpec VsrSafety.

#[local] Open Scope Z_scope.

(** The replicated state machine. A panicking operation would end the process;
    the result keeps that case apart. *)
#[global] Instance kessel_machine : Machine (StateMachine MemVfs) Op (outcome OpResult) :=
  fun n op sm => Sm.apply n op sm.

Abbreviation KesselCluster := (Cluster (StateMachine MemVfs) Op (outcome OpResult)).

Definition ticks (i : Z) : list (Event Op) := replicate 8 (EvTick i).

(** What replica [i] of a cluster has under a sequencer entry. *)
Definition entry_at (c : KesselCluster) (i seq : Z) : option bytes :=
  r ← cl_rs c !! i; Engine.get (sm_storage (r_sm r)) (seq_entry_key seq).

Definition position (c : KesselCluster) (i : Z) : option (Z * Status * Z * list (Z * Z)) :=
  (fun r => (r_view r, r_status r, r_commit r, (fun e => (le_client e, le_req e)) <$> r_log r)) <$> cl_rs c !! i.

(** ** A view change with one replica's log *)

(** Client 7's append is executed by replicas 0 and 2, a majority. *)
Definition committed_schedule : list (Event Op) :=
  [EvRequest 0 7 1 (SeqAppend [1]); EvDeliver 0; EvDeliver 2; EvDeliver 3; EvDeliver 5].

(** Replica 0 crashes. Replica 1 starts view 1; the DoViewChange messages of
    replica 2 are lost; replica 1 adds its own to the collected ones at every
    retry and then has two. Client 8 appends. *)
Definition lone_schedule : list (Event Op) :=
  [EvCrash 0] ++ ticks 1 ++ [EvDeliver 7] ++ ticks 2 ++ [EvDeliver 10] ++ ticks 1 ++
  [EvDeliver 15; EvRequest 1 8 1 (SeqAppend [2]); EvDeliver 19; EvDeliver 21; EvDeliver 22; EvDeliver 24].

(** C37: A view change can lose a committed operation: with one crash and lost
    messages the new primary counts its own DoViewChange twice, starts the
    view with its own log, and the operation a majority had executed is
    replaced. The two live replicas end in the same view with the same log and
    the same commit number and in different states. *)
Theorem lone_view_change_loses_commit :
  exists c1 c2 : KesselCluster,
    reachable 3 sm_new c1 /\
    position c1 0 = Some (0, Normal, 1, [(7, 1)]) /\ position c1 2 = Some (0, Normal, 1, [(7, 1)]) /\
    rtc cstep c1 c2 /\
    position c2 1 = Some (1, Normal, 1, [(8, 1)]) /\ position c2 2 = Some (1, Normal, 1, [(8, 1)]) /\
    entry_at c2 1 1 = Some [2] /\ entry_at c2 2 1 = Some [1].
Proof.
  exists (run_schedule committed_schedule (cluster_new 3 sm_new)),
    (run_schedule lone_schedule (run_schedule committed_schedule (cluster_new 3 sm_new))).
  split; [apply run_schedule_reachable | ]. split; [by vm_compute | ]. split; [by vm_compute | ].
  split; [apply run_schedule_rtc | ]. split_and!; by vm_compute.
Qed.

(** ** A retransmitted request *)

(** Client 7 sends its request again before it is committed. *)
Definition twice_schedule : list (Event Op) :=
  [EvRequest 0 7 1 (SeqAppend [1]); EvDeliver 0; EvRequest 0 7 1 (SeqAppend [1]); EvDeliver 3;
   EvDeliver 2; EvDeliver 5; EvDeliver 6; EvDeliver 7].

(** A request that is retransmitted before it is committed is executed
    twice: the client table knows only committed requests, so the primary
    assigns the same request a second log position, and the append of one
    request is in the sequencer's log twice. *)
Theorem retransmission_executes_twice :
  exists c : KesselCluster, reachable 3 sm_new c /\
    position c 0 = Some (0, Normal, 2, [(7, 1); (7, 1)]) /\
    entry_at c 0 1 = Some [1] /\ entry_at c 0 2 = Some [1].
Proof.
  exists (run_schedule twice_schedule (cluster_new 3 sm_new)).
  split; [apply run_schedule_reachable | ]. split_and!; by vm_compute.
Qed.
