(* ===== verification/Catalog.v ===== *)
(** kessel-catalog: object types, their record layout and their encoding.

    A type is a list of fields of fixed width; its layout places them behind a
    header of fixed size. The catalog is persisted as one blob: types with
    their definition (itself a blob with optional trailers for defaults, the
    serial key and foreign keys) and a versioned trailer for external sources.

    Source: src/crates/kessel-catalog/src/lib.rs. *)

From Stdlib Require Import ZArith Lia.
From stdpp Require Import base numbers list.
From S2P Require Import Prelude Reader.

#[local] Open Scope Z_scope.

Definition MAX_FIELDS : Z := 64.
Definition NULL_BITMAP_BYTES : Z := 8.
Definition SCHEMA_VER_BYTES : Z := 4.
Definition FIELD_COUNT_BYTES : Z := 2.
Definition HEADER_BYTES : Z := SCHEMA_VER_BYTES + FIELD_COUNT_BYTES + NULL_BITMAP_BYTES.

Inductive FieldKind :=
  | U8 | U16 | U32 | U64 | U128
  | I8 | I16 | I32 | I64 | I128
  | Bool
  | Fixed (scale : Z)
  | Char (n : Z)
  | Bytes (n : Z)
  | Timestamp
  | Ref
  | OverflowRef.

#[global] Instance FieldKind_eq_dec : EqDecision FieldKind.
Proof. solve_decision. Defined.

Definition width (k : FieldKind) : Z :=
  match k with
  | U8 | I8 | Bool => 1
  | U16 | I16 => 2
  | U32 | I32 => 4
  | U64 | I64 | Timestamp => 8
  | Fixed _ => 8
  | U128 | I128 => 16
  | Ref => 16
  | OverflowRef => 8
  | Char n | Bytes n => n
  end.

Definition tag (k : FieldKind) : Z :=
  match k with
  | U8 => 1 | U16 => 2 | U32 => 3 | U64 => 4 | U128 => 5
  | I8 => 6 | I16 => 7 | I32 => 8 | I64 => 9 | I128 => 10
  | Bool => 11
  | Fixed _ => 12
  | Char _ => 13
  | Bytes _ => 14
  | Timestamp => 15
  | Ref => 16
  | OverflowRef => 17
  end.

(** [arg as u8] keeps the low byte. *)
Definition from_tag (tag arg : Z) : option FieldKind :=
  match tag with
  | 1 => Some U8 | 2 => Some U16 | 3 => Some U32 | 4 => Some U64 | 5 => Some U128
  | 6 => Some I8 | 7 => Some I16 | 8 => Some I32 | 9 => Some I64 | 10 => Some I128
  | 11 => Some Bool
  | 12 => Some (Fixed (arg mod 256))
  | 13 => Some (Char arg)
  | 14 => Some (Bytes arg)
  | 15 => Some Timestamp
  | 16 => Some Ref
  | 17 => Some OverflowRef
  | _ => None
  end.

Definition arg (k : FieldKind) : Z :=
  match k with
  | Fixed scale => scale
  | Char n | Bytes n => n
  | _ => 0
  end.

(** Text is the list of its scalar values. *)
Abbreviation text := (list Z).

Record Field := mkField { field_id : Z; f_name : text; f_kind : FieldKind; f_nullable : bool }.

Record ObjectType := mkObjectType {
  type_id : Z;
  ot_name : text;
  schema_ver : Z;
  fields : list Field;
  indexes : list Z;
  unique : list Z;
  fks : list (Z * Z * Z);
  checks : list bytes;
  triggers : list bytes;
  ordered : list Z;
  composite : list (list Z);
  defaults : list (Z * bytes);
  serial_pk : bool;
  serial_field_id : option Z;
}.

(** ** Layout *)

Record Layout := mkLayout { record_size : Z; offsets : list Z }.

(** The loop of [next_pow2]; 64 doublings reach any size an address space has. *)
Fixpoint next_pow2_loop (fuel : nat) (p n : Z) : Z :=
  match fuel with
  | O => p
  | S fuel' => if p <? n then next_pow2_loop fuel' (2 * p) n else p
  end.
Definition next_pow2 (n : Z) : Z := next_pow2_loop 64 16 n.

(** The offsets of the fields from [cur] on, and the end of the last one. *)
Fixpoint place (cur : Z) (fs : list Field) : list Z * Z :=
  match fs with
  | [] => ([], cur)
  | f :: fs' => let '(os, e) := place (cur + width (f_kind f)) fs' in (cur :: os, e)
  end.

Definition compute_layout (ot : ObjectType) : Layout :=
  let '(os, cur) := place HEADER_BYTES (fields ot) in
  {| record_size := next_pow2 cur; offsets := os |}.

Definition from_def (name : text) (fs : list Field) : ObjectType :=
  mkObjectType 0 name 1 fs [] [] [] [] [] [] [] [] false None.

(** [iter().position(..)]. *)
Fixpoint position_of (id : Z) (fs : list Field) (i : Z) : option Z :=
  match fs with
  | [] => None
  | f :: fs' => if field_id f =? id then Some i else position_of id fs' (i + 1)
  end.

Definition field_index (ot : ObjectType) (id : Z) : option Z := position_of id (fields ot) 0.

(** ** Type definitions *)

Definition b2z (b : bool) : Z := if b then 1 else 0.

Definition put_str (s : text) : bytes := put_string 2 s.
Definition put_str32 (s : text) : bytes := put_string 4 s.
Definition get_str : Reader text := rd_string 2.
Definition get_str32 : Reader text := rd_string 4.

Definition encode_field (f : Field) : bytes :=
  le_bytes 2 (field_id f) ++ [b2z (f_nullable f)] ++ [tag (f_kind f)] ++
  le_bytes 2 (arg (f_kind f)) ++ put_str (f_name f).

Definition rd_field : Reader Field :=
  id ← rd_le 2;
  nullable ← rd_u8;
  tag ← rd_u8;
  arg ← rd_le 2;
  kind ← rd_opt (from_tag tag arg);
  name ← get_str;
  mret (mkField id name kind (negb (nullable =? 0))).

Definition decode_field (b : bytes) : option Field := rd_run rd_field b.

Definition encode_type_def (name : text) (fs : list Field) : bytes :=
  put_str name ++ put_list 2 (fun f => with_len 2 (encode_field f)) fs.

Definition rd_type_def : Reader (text * list Field) :=
  name ← get_str;
  fs ← rd_put_list 2 (fb ← rd_with_len 2; rd_opt (decode_field fb));
  mret (name, fs).

Definition decode_type_def (b : bytes) : option (text * list Field) := rd_run rd_type_def b.

Definition put_default (d : Z * bytes) : bytes := le_bytes 2 d.1 ++ with_len 2 d.2.

Definition encode_type_def_full (name : text) (fs : list Field) (ds : list (Z * bytes)) (spk : bool)
    (sf : option Z) : bytes :=
  encode_type_def name fs ++
  (if negb (bool_decide (ds = [])) || spk then put_list 2 put_default ds else []) ++
  (if spk then [1] ++ match sf with Some fid => [1] ++ le_bytes 2 fid | None => [0] end else []).

Definition encode_type_def_with_defaults (name : text) (fs : list Field) (ds : list (Z * bytes)) : bytes :=
  encode_type_def_full name fs ds false None.

Record FkSpec := mkFkSpec { child_col : text; ref_table : text; ref_col : option text; on_delete : Z }.

Definition FK_TRAILER_MARKER : Z := 0xFE.

Definition put_fk (fk : FkSpec) : bytes :=
  put_str (child_col fk) ++ put_str (ref_table fk) ++
  match ref_col fk with Some rc => [1] ++ put_str rc | None => [0] end ++ [on_delete fk].

Definition encode_type_def_full_fk (name : text) (fs : list Field) (ds : list (Z * bytes)) (spk : bool)
    (sf : option Z) (fks : list FkSpec) : bytes :=
  encode_type_def_full name fs ds spk sf ++
  if bool_decide (fks = []) then [] else
    (if bool_decide (ds = []) && negb spk then le_bytes 2 0 else []) ++
    [FK_TRAILER_MARKER] ++ put_list 2 put_fk fks.

(** The name and the fields, skipped by their lengths. *)
Definition skip_base : Reader unit :=
  _ ← get_str;
  n ← rd_le 2;
  rd_iter (Z.to_nat n) (fl ← rd_le 2; rd_skip fl).

(** Moves the cursor behind the defaults; fails when there is no trailer. *)
Definition serial_trailer_offset : Reader unit :=
  _ ← skip_base;
  r ← rd_rest;
  if bool_decide (r = []) then rd_fail else
  nd ← rd_le 2;
  rd_iter (Z.to_nat nd) (_ ← rd_skip 2; l ← rd_le 2; rd_skip l).

Definition decode_type_serial_pk (b : bytes) : bool :=
  match rd_run (_ ← serial_trailer_offset; rd_u8) b with
  | Some x => x =? 1
  | None => false
  end.

Definition decode_type_serial_field (b : bytes) : option Z :=
  rd_run (_ ← serial_trailer_offset;
          x ← rd_u8;
          if negb (x =? 1) then rd_fail else
          y ← rd_u8;
          if negb (y =? 1) then rd_fail else rd_le 2) b.

Definition rd_default : Reader (Z * bytes) := fid ← rd_le 2; raw ← rd_with_len 2; mret (fid, raw).

Definition decode_type_defaults (b : bytes) : list (Z * bytes) :=
  default [] (rd_run (_ ← skip_base;
                      r ← rd_rest;
                      if bool_decide (r = []) then mret [] else rd_put_list 2 rd_default) b).

Definition fk_trailer_offset : Reader unit :=
  _ ← serial_trailer_offset;
  r ← rd_rest;
  match r with
  | 1 :: _ =>
      _ ← rd_skip 1;
      has_field ← rd_u8;
      if has_field =? 1 then rd_skip 2 else mret tt
  | _ => mret tt
  end.

Definition rd_fk : Reader FkSpec :=
  child ← get_str;
  table ← get_str;
  has_ref ← rd_u8;
  rc ← (if has_ref =? 1 then s ← get_str; mret (Some s) else mret None);
  od ← rd_u8;
  mret (mkFkSpec child table rc od).

Definition decode_type_fks (b : bytes) : list FkSpec :=
  default [] (rd_run (_ ← fk_trailer_offset;
                      m ← rd_u8;
                      if negb (m =? FK_TRAILER_MARKER) then mret [] else rd_put_list 2 rd_fk) b).

(** ** The catalog blob *)

Inductive ExternalAuth :=
  | AuthNone
  | BearerEnv (env : text)
  | HeaderEnv (header env : text)
  | ObjStoreEnv (provider : Z) (a_env b_env : text) (account : option text).

Inductive PaginationRecipe :=
  | NextUrlJson (path : text)
  | NextLink
  | CursorJson (path param : text).

Record ExternalRecipe := mkRecipe {
  er_type_id : Z;
  er_url : text;
  er_format : Z;
  er_key_field_id : Z;
  er_auth : ExternalAuth;
  er_mapping : list (Z * text);
  er_rows_path : option text;
  er_pagination : option PaginationRecipe;
  er_region : option text;
  er_endpoint : option text;
}.

Record Catalog := mkCatalog { types : list ObjectType; next_type_id : Z; external : list ExternalRecipe }.

Definition catalog_default : Catalog := mkCatalog [] 0 [].

(** [Catalog::get]. *)
Definition catalog_get (c : Catalog) (id : Z) : option ObjectType :=
  list_find (fun t => type_id t = id) (types c) ≫= fun p => Some p.2.

(** A [u8] tag and the text, as the recipes have it. *)
Definition put_opt (o : option text) : bytes :=
  match o with None => [0] | Some s => [1] ++ put_str32 s end.

Definition rd_opt_str : Reader (option text) :=
  t ← rd_u8;
  match t with
  | 0 => mret None
  | 1 => s ← get_str32; mret (Some s)
  | _ => rd_fail
  end.

Definition put_auth (a : ExternalAuth) : bytes :=
  match a with
  | AuthNone => [0]
  | BearerEnv env => [1] ++ put_str32 env
  | HeaderEnv header env => [2] ++ put_str32 header ++ put_str32 env
  | ObjStoreEnv provider a_env b_env account =>
      [3] ++ [provider] ++ put_str32 a_env ++ put_str32 b_env ++ put_opt account
  end.

Definition rd_auth : Reader ExternalAuth :=
  tag ← rd_u8;
  match tag with
  | 0 => mret AuthNone
  | 1 => env ← get_str32; mret (BearerEnv env)
  | 2 => header ← get_str32; env ← get_str32; mret (HeaderEnv header env)
  | 3 =>
      provider ← rd_u8;
      a_env ← get_str32;
      b_env ← get_str32;
      account ← rd_opt_str;
      mret (ObjStoreEnv provider a_env b_env account)
  | _ => rd_fail
  end.

Definition put_pagination (p : option PaginationRecipe) : bytes :=
  match p with
  | None => [0]
  | Some (NextUrlJson path) => [1] ++ put_str32 path
  | Some NextLink => [2]
  | Some (CursorJson path param) => [3] ++ put_str32 path ++ put_str32 param
  end.

Definition rd_pagination : Reader (option PaginationRecipe) :=
  tag ← rd_u8;
  match tag with
  | 0 => mret None
  | 1 => path ← get_str32; mret (Some (NextUrlJson path))
  | 2 => mret (Some NextLink)
  | 3 => path ← get_str32; param ← get_str32; mret (Some (CursorJson path param))
  | _ => rd_fail
  end.

Definition put_mapping (m : Z * text) : bytes := le_bytes 2 m.1 ++ put_str32 m.2.
Definition rd_mapping : Reader (Z * text) := fid ← rd_le 2; src ← get_str32; mret (fid, src).

Definition put_recipe (ver : Z) (r : ExternalRecipe) : bytes :=
  le_bytes 4 (er_type_id r) ++ [er_format r] ++ le_bytes 2 (er_key_field_id r) ++ put_str32 (er_url r) ++
  put_auth (er_auth r) ++ put_list 4 put_mapping (er_mapping r) ++
  put_opt (er_rows_path r) ++ put_pagination (er_pagination r) ++
  if ver =? 3 then put_opt (er_region r) ++ put_opt (er_endpoint r) else [].

Definition rd_recipe (is_v2 is_v3 : bool) : Reader ExternalRecipe :=
  type_id ← rd_le 4;
  format ← rd_u8;
  key_field_id ← rd_le 2;
  url ← get_str32;
  auth ← rd_auth;
  mapping ← rd_put_list 4 rd_mapping;
  '(rows_path, pagination) ← (if is_v2 then rp ← rd_opt_str; pg ← rd_pagination; mret (rp, pg)
                              else mret (None, None));
  '(region, endpoint) ← (if is_v3 then rg ← rd_opt_str; en ← rd_opt_str; mret (rg, en)
                         else mret (None, None));
  mret (mkRecipe type_id url format key_field_id auth mapping rows_path pagination region endpoint).

Definition needs_v3 (r : ExternalRecipe) : bool :=
  match er_auth r with ObjStoreEnv _ _ _ _ => true | _ => false end ||
  bool_decide (is_Some (er_region r)) || bool_decide (is_Some (er_endpoint r)).

Definition encode_external (rs : list ExternalRecipe) : bytes :=
  if bool_decide (rs = []) then [] else
    let ver := if existsb needs_v3 rs then 3 else 2 in
    le_bytes 4 0 ++ [ver] ++ put_list 4 (put_recipe ver) rs.

Definition rd_external : Reader (list ExternalRecipe) :=
  r ← rd_rest;
  if bool_decide (r = []) then mret [] else
  first ← rd_le 4;
  if first =? 0 then
    ver ← rd_u8;
    if negb (ver =? 2) && negb (ver =? 3) then rd_fail else
    n ← rd_le 4;
    rd_list (Z.to_nat n) (rd_recipe true (ver =? 3))
  else rd_list (Z.to_nat first) (rd_recipe false false).

Definition put_u16s (l : list Z) : bytes := put_list 2 (le_bytes 2) l.
Definition rd_u16s : Reader (list Z) := rd_put_list 2 (rd_le 2).
Definition put_programs (l : list bytes) : bytes := put_list 2 (with_len 4) l.
Definition rd_programs : Reader (list bytes) := rd_put_list 2 (rd_with_len 4).

Definition put_type (t : ObjectType) : bytes :=
  le_bytes 4 (type_id t) ++ le_bytes 4 (schema_ver t) ++
  with_len 4 (encode_type_def_full (ot_name t) (fields t) (defaults t) (serial_pk t) (serial_field_id t)) ++
  put_u16s (indexes t) ++ put_u16s (unique t) ++
  put_list 2 (fun '(fid, rt, od) => le_bytes 2 fid ++ le_bytes 4 rt ++ [od]) (fks t) ++
  put_programs (checks t) ++ put_programs (triggers t) ++
  put_u16s (ordered t) ++ put_list 2 put_u16s (composite t).

Definition rd_type : Reader ObjectType :=
  type_id ← rd_le 4;
  schema_ver ← rd_le 4;
  def_slice ← rd_with_len 4;
  '(name, fields) ← rd_opt (decode_type_def def_slice);
  let defaults := decode_type_defaults def_slice in
  let serial_pk := decode_type_serial_pk def_slice in
  let serial_field_id := decode_type_serial_field def_slice in
  indexes ← rd_u16s;
  unique ← rd_u16s;
  fks ← rd_put_list 2 (fid ← rd_le 2; rt ← rd_le 4; od ← rd_u8; mret (fid, rt, od));
  checks ← rd_programs;
  triggers ← rd_programs;
  ordered ← rd_u16s;
  composite ← rd_put_list 2 rd_u16s;
  mret (mkObjectType type_id name schema_ver fields indexes unique fks checks triggers ordered composite
          defaults serial_pk serial_field_id).

(** [Catalog::encode]. *)
Definition catalog_encode (c : Catalog) : bytes :=
  le_bytes 4 (next_type_id c) ++ put_list 4 put_type (types c) ++ encode_external (external c).

(** [Catalog::decode]; a trailer that does not parse is dropped. *)
Definition catalog_decode (b : bytes) : option Catalog :=
  if zlen b <? 8 then Some catalog_default else
  rd_run (next ← rd_le 4;
          ts ← rd_put_list 4 rd_type;
          r ← rd_rest;
          mret (mkCatalog ts next (default [] (rd_run rd_external r)))) b.

(** * Round trips *)

Definition kind_ok (k : FieldKind) : Prop :=
  match k with
  | Fixed scale => 0 <= scale < 256
  | Char n | Bytes n => u16_ok n
  | _ => True
  end.

Lemma from_tag_tag k : kind_ok k -> from_tag (tag k) (arg k) = Some k.
Proof. destruct k; cbn; try done. intros H. by rewrite Z.mod_small. Qed.

Lemma arg_u16 k : kind_ok k -> u16_ok (arg k).
Proof. unfold u16_ok, u16_max. destruct k; cbn; unfold u16_ok, u16_max; lia. Qed.

Definition field_ok (f : Field) : Prop :=
  u16_ok (field_id f) /\ kind_ok (f_kind f) /\ str_ok 2 (f_name f) /\ zlen (encode_field f) < 65536.

(** Follows a decoder along the encoding it reads. *)
Ltac rd_step := first
  [ apply reads_u8 | apply reads_u16; assumption | apply reads_u32; assumption
  | apply reads_string; assumption | eassumption ].
Ltac rd_steps := repeat (eapply reads_bind; [by rd_step | cbv beta]).

Lemma reads_field f : field_ok f -> reads rd_field (encode_field f) f.
Proof.
  intros (Hid & Hk & Hn & _). unfold rd_field, encode_field, get_str, put_str.
  pose proof (arg_u16 _ Hk). rd_steps.
  eapply reads_bind_nil; [by apply reads_opt, from_tag_tag | cbv beta].
  eapply reads_last; [by apply reads_string | ]. by destruct f as [? ? ? []].
Qed.

Lemma decode_encode_field f : field_ok f -> decode_field (encode_field f) = Some f.
Proof. intros Hf. by apply reads_run, reads_field. Qed.

Definition def_ok (name : text) (fs : list Field) : Prop :=
  str_ok 2 name /\ zlen fs < 65536 /\ Forall field_ok fs.

Lemma reads_type_def name fs : def_ok name fs -> reads rd_type_def (encode_type_def name fs) (name, fs).
Proof.
  intros (Hn & Hl & Hf). unfold rd_type_def, encode_type_def, get_str, put_str. rd_steps.
  eapply reads_last; [ | done]. apply reads_put_list; [done | ].
  eapply Forall_impl; [exact Hf | ]. intros f Hfo. cbv beta.
  rewrite <- (app_nil_r (with_len 2 _)). eapply reads_bind.
  - apply reads_with_len. by apply Hfo.
  - by apply reads_opt, decode_encode_field.
Qed.

(** The base of a definition is skipped by its lengths alone. *)
Lemma reads_skip_base name fs : def_ok name fs -> reads skip_base (encode_type_def name fs) tt.
Proof.
  intros (Hn & Hl & Hf). unfold skip_base, encode_type_def, get_str, put_str, put_list. rd_steps.
  eapply reads_bind; [apply reads_u16; pose proof (zlen_nonneg fs); unfold u16_ok, u16_max; lia | ].
  unfold zlen. rewrite Nat2Z.id. apply reads_iter. eapply Forall_impl; [exact Hf | ].
  intros f Hfo. cbv beta. unfold with_len. eapply reads_bind.
  - apply reads_u16. pose proof (zlen_nonneg (encode_field f)). unfold u16_ok, u16_max.
    destruct Hfo as (_ & _ & _ & ?). lia.
  - by apply reads_skip.
Qed.

Definition default_ok (d : Z * bytes) : Prop := u16_ok d.1 /\ zlen d.2 < 65536.
Definition defaults_ok (ds : list (Z * bytes)) : Prop := zlen ds < 65536 /\ Forall default_ok ds.

Lemma reads_default d : default_ok d -> reads rd_default (put_default d) d.
Proof.
  destruct d as [fid raw]. intros [? ?]. unfold rd_default, put_default. cbn [fst snd] in *. rd_steps.
  eapply reads_last; [by apply reads_with_len | done].
Qed.

Lemma reads_defaults ds : defaults_ok ds -> reads (rd_put_list 2 rd_default) (put_list 2 put_default ds) ds.
Proof.
  intros [? Hd]. apply reads_put_list; [done | ]. eapply Forall_impl; [exact Hd | apply reads_default].
Qed.

Lemma reads_skip_defaults ds : defaults_ok ds ->
  reads (nd ← rd_le 2; rd_iter (Z.to_nat nd) (_ ← rd_skip 2; l ← rd_le 2; rd_skip l))
    (put_list 2 put_default ds) tt.
Proof.
  intros [Hl Hd]. unfold put_list.
  eapply reads_bind; [apply reads_u16; pose proof (zlen_nonneg ds); unfold u16_ok, u16_max; lia | ].
  unfold zlen. rewrite Nat2Z.id. apply reads_iter. eapply Forall_impl; [exact Hd | ].
  intros [fid raw] [? Hr]. cbn [fst snd] in *. unfold put_default, with_len. cbn [fst snd].
  eapply reads_bind; [by apply reads_skip; rewrite le_bytes_zlen | ].
  eapply reads_bind; [ | by apply reads_skip].
  apply reads_u16. pose proof (zlen_nonneg raw). unfold u16_ok, u16_max. lia.
Qed.

Definition serial_tail (spk : bool) (sf : option Z) : bytes :=
  if spk then [1] ++ match sf with Some fid => [1] ++ le_bytes 2 fid | None => [0] end else [].
Definition fk_tail (fks : list FkSpec) : bytes :=
  if bool_decide (fks = []) then [] else [FK_TRAILER_MARKER] ++ put_list 2 put_fk fks.

(** Every definition is its base alone, or the base, the defaults (maybe none),
    the serial key and the foreign keys. *)
Lemma type_def_shape name fs ds spk sf fks :
  encode_type_def_full_fk name fs ds spk sf fks =
  encode_type_def name fs ++
  if bool_decide (ds = []) && negb spk && bool_decide (fks = []) then []
  else put_list 2 put_default ds ++ serial_tail spk sf ++ fk_tail fks.
Proof.
  unfold encode_type_def_full_fk, encode_type_def_full, serial_tail, fk_tail.
  destruct (decide (ds = [])) as [-> | Hd]; [rewrite !(bool_decide_eq_true_2 (@nil (Z * bytes) = [])) by done
    | rewrite !(bool_decide_eq_false_2 (ds = [])) by done];
  destruct spk; case_bool_decide; cbn [andb negb orb]; rewrite <- ?app_assoc, ?app_nil_r; done.
Qed.

Section Trailers.
Context (name : text) (fs : list Field) (ds : list (Z * bytes)).
Context (Hdef : def_ok name fs) (Hds : defaults_ok ds).

Lemma reads_serial_offset :
  reads serial_trailer_offset (encode_type_def name fs ++ put_list 2 put_default ds) tt.
Proof using Hdef Hds.
  intros rest. unfold serial_trailer_offset. rewrite <- app_assoc.
  erewrite bind_some by (by apply reads_skip_base).
  erewrite bind_some by reflexivity. rewrite bool_decide_eq_false_2 by done.
  by apply reads_skip_defaults.
Qed.

Lemma serial_offset_none : serial_trailer_offset (encode_type_def name fs) = None.
Proof using Hdef.
  unfold serial_trailer_offset. rewrite <- (app_nil_r (encode_type_def _ _)).
  erewrite bind_some by (by apply reads_skip_base). reflexivity.
Qed.

Lemma fk_offset spk sf t : head t <> Some 1 ->
  fk_trailer_offset ((encode_type_def name fs ++ put_list 2 put_default ds) ++ serial_tail spk sf ++ t) =
  Some (tt, t).
Proof using Hdef Hds.
  intros Ht. unfold fk_trailer_offset. erewrite bind_some by apply reads_serial_offset.
  erewrite bind_some by reflexivity. destruct spk; [destruct sf as [fid | ] | ]; cbn.
  - reflexivity.
  - reflexivity.
  - destruct t as [ | x t]; [done | ]. by destruct x as [ | [] | ].
Qed.

Lemma decode_defaults_tail t :
  decode_type_defaults (encode_type_def name fs ++ put_list 2 put_default ds ++ t) = ds.
Proof using Hdef Hds.
  unfold decode_type_defaults, rd_run. erewrite bind_some by (by apply reads_skip_base).
  erewrite bind_some by reflexivity. rewrite bool_decide_eq_false_2 by done.
  by rewrite reads_defaults.
Qed.

Lemma decode_defaults_bare : decode_type_defaults (encode_type_def name fs) = [].
Proof using Hdef.
  unfold decode_type_defaults, rd_run. rewrite <- (app_nil_r (encode_type_def _ _)).
  by erewrite bind_some by (by apply reads_skip_base).
Qed.
End Trailers.

Definition fk_ok (fk : FkSpec) : Prop :=
  str_ok 2 (child_col fk) /\ str_ok 2 (ref_table fk) /\ forall rc, ref_col fk = Some rc -> str_ok 2 rc.

Lemma reads_fk fk : fk_ok fk -> reads rd_fk (put_fk fk) fk.
Proof.
  destruct fk as [child table rc od]. intros (? & ? & Hrc). cbn in *.
  unfold rd_fk, put_fk, put_str, get_str. cbn. rd_steps.
  destruct rc as [rc | ]; (eapply (reads_bind rd_u8 _ [_]); [apply reads_u8 | cbn [Z.eqb Pos.eqb]]).
  - eapply reads_bind; [ | apply (reads_last _ _ [od] od); [apply reads_u8 | done]].
    eapply reads_last; [by apply reads_string, Hrc | done].
  - eapply reads_bind_nil; [apply reads_ret | ]. apply (reads_last _ _ [od] od); [apply reads_u8 | done].
Qed.

Definition fks_ok (fks : list FkSpec) : Prop := zlen fks < 65536 /\ Forall fk_ok fks.

Definition serial_ok (spk : bool) (sf : option Z) : Prop :=
  forall fid, sf = Some fid -> spk = true /\ u16_ok fid.

Lemma fk_tail_head fks : head (fk_tail fks) <> Some 1.
Proof. unfold fk_tail. by case_bool_decide. Qed.

Lemma serial_pk_tail spk sf fks :
  match rd_run rd_u8 (serial_tail spk sf ++ fk_tail fks) with Some x => x =? 1 | None => false end = spk.
Proof. unfold serial_tail, fk_tail. destruct spk; [done | ]. by case_bool_decide. Qed.

Lemma serial_field_tail spk sf fks : serial_ok spk sf ->
  rd_run (x ← rd_u8; if negb (x =? 1) then rd_fail else
          y ← rd_u8; if negb (y =? 1) then rd_fail else rd_le 2) (serial_tail spk sf ++ fk_tail fks) = sf.
Proof.
  intros Hs. unfold serial_tail, fk_tail. destruct spk.
  - destruct sf as [fid | ]; [ | done]. destruct (Hs fid) as [_ Hf]; [done | ].
    unfold rd_run, mbind, Reader_bind. cbn [rd_u8 app negb Z.eqb Pos.eqb].
    by rewrite reads_u16.
  - destruct sf as [fid | ]; [by destruct (Hs fid) | ]. by case_bool_decide.
Qed.

Definition decode_all (b : bytes) : option (text * list Field) * list (Z * bytes) * bool * option Z * list FkSpec :=
  (decode_type_def b, decode_type_defaults b, decode_type_serial_pk b, decode_type_serial_field b,
   decode_type_fks b).

Lemma decode_bare name fs : def_ok name fs ->
  decode_all (encode_type_def name fs) = (Some (name, fs), [], false, None, []).
Proof.
  intros Hd. pose proof (serial_offset_none name fs Hd) as Hn. unfold decode_all. repeat f_equal.
  - by apply reads_run, reads_type_def.
  - by apply decode_defaults_bare.
  - unfold decode_type_serial_pk, rd_run. by rewrite bind_none.
  - unfold decode_type_serial_field, rd_run. by rewrite bind_none.
  - unfold decode_type_fks, rd_run. rewrite bind_none; [done | ].
    unfold fk_trailer_offset. by rewrite bind_none.
Qed.

Lemma decode_tail name fs ds spk sf fks :
  def_ok name fs -> defaults_ok ds -> serial_ok spk sf -> fks_ok fks ->
  decode_all (encode_type_def name fs ++ put_list 2 put_default ds ++ serial_tail spk sf ++ fk_tail fks) =
  (Some (name, fs), ds, spk, sf, fks).
Proof.
  intros Hd Hds Hs [Hl Hfk]. unfold decode_all. repeat f_equal.
  - by apply reads_run_app, reads_type_def.
  - by apply decode_defaults_tail.
  - unfold decode_type_serial_pk, rd_run. rewrite app_assoc.
    erewrite bind_some by (by apply reads_serial_offset). apply (serial_pk_tail spk sf fks).
  - unfold decode_type_serial_field, rd_run. rewrite app_assoc.
    erewrite bind_some by (by apply reads_serial_offset). by apply (serial_field_tail spk sf fks).
  - unfold decode_type_fks, rd_run. rewrite app_assoc.
    erewrite bind_some by (apply fk_offset; [done | done | apply fk_tail_head]).
    unfold fk_tail. case_bool_decide as Hn; [by subst | ]. cbn [app].
    erewrite bind_some by reflexivity. cbn [negb Z.eqb Pos.eqb FK_TRAILER_MARKER].
    rewrite <- (app_nil_r (put_list _ _ _)), reads_put_list; [done | done | ].
    eapply Forall_impl; [exact Hfk | apply reads_fk].
Qed.

Lemma decode_full name fs ds spk sf : def_ok name fs -> defaults_ok ds -> serial_ok spk sf ->
  decode_all (encode_type_def_full name fs ds spk sf) = (Some (name, fs), ds, spk, sf, []).
Proof.
  intros Hd Hds Hs. replace (encode_type_def_full name fs ds spk sf)
    with (encode_type_def_full_fk name fs ds spk sf []) by apply app_nil_r.
  rewrite type_def_shape. destruct (bool_decide (ds = []) && negb spk) eqn:E; cbn [andb].
  - rewrite bool_decide_eq_true_2, app_nil_r by done. zb. apply bool_decide_eq_true_1 in H. subst.
    rewrite decode_bare by done. destruct sf as [fid | ]; [by destruct (Hs fid) | done].
  - by apply decode_tail.
Qed.

(** ** The catalog *)

Definition opt_ok (o : option text) : Prop := forall s, o = Some s -> str_ok 4 s.

Definition auth_ok (a : ExternalAuth) : Prop :=
  match a with
  | AuthNone => True
  | BearerEnv env => str_ok 4 env
  | HeaderEnv header env => str_ok 4 header /\ str_ok 4 env
  | ObjStoreEnv _ a_env b_env account => str_ok 4 a_env /\ str_ok 4 b_env /\ opt_ok account
  end.

Definition pagination_ok (p : option PaginationRecipe) : Prop :=
  match p with
  | Some (NextUrlJson path) => str_ok 4 path
  | Some (CursorJson path param) => str_ok 4 path /\ str_ok 4 param
  | _ => True
  end.

Definition mapping_ok (m : Z * text) : Prop := u16_ok m.1 /\ str_ok 4 m.2.

Definition recipe_ok (r : ExternalRecipe) : Prop :=
  u32_ok (er_type_id r) /\ u16_ok (er_key_field_id r) /\ str_ok 4 (er_url r) /\ auth_ok (er_auth r) /\
  (zlen (er_mapping r) < 2 ^ 32 /\ Forall mapping_ok (er_mapping r)) /\
  opt_ok (er_rows_path r) /\ pagination_ok (er_pagination r) /\ opt_ok (er_region r) /\ opt_ok (er_endpoint r).

Lemma reads_opt_str o : opt_ok o -> reads rd_opt_str (put_opt o) o.
Proof.
  intros Ho. unfold rd_opt_str, put_opt, get_str32, put_str32. destruct o as [s | ].
  - eapply reads_bind; [apply reads_u8 | ]. eapply reads_last; [by apply reads_string, Ho | done].
  - apply (reads_bind rd_u8 _ [0] []  0 None); [apply reads_u8 | apply reads_ret].
Qed.

Lemma reads_tag {A} (k : Z -> Reader A) t x : reads (k t) [] x -> reads (rd_u8 ≫= k) [t] x.
Proof. intros Hk. apply (reads_bind rd_u8 k [t] []  t x); [apply reads_u8 | done]. Qed.

Lemma reads_auth a : auth_ok a -> reads rd_auth (put_auth a) a.
Proof.
  unfold rd_auth, get_str32. destruct a as [ | env | header env | provider a_env b_env account];
    cbn [auth_ok put_auth]; unfold put_str32.
  - intros _. apply reads_tag, reads_ret.
  - intros ?. eapply reads_bind; [apply reads_u8 | ]. eapply reads_last; [by apply reads_string | done].
  - intros [? ?]. rd_steps. eapply reads_last; [by apply reads_string | done].
  - intros (? & ? & ?). rd_steps. eapply reads_last; [by apply reads_opt_str | done].
Qed.

Lemma reads_pagination p : pagination_ok p -> reads rd_pagination (put_pagination p) p.
Proof.
  unfold rd_pagination, get_str32. destruct p as [[path | | path param] | ];
    cbn [pagination_ok put_pagination]; unfold put_str32.
  - intros ?. eapply reads_bind; [apply reads_u8 | ]. eapply reads_last; [by apply reads_string | done].
  - intros _. apply reads_tag, reads_ret.
  - intros [? ?]. rd_steps. eapply reads_last; [by apply reads_string | done].
  - intros _. apply reads_tag, reads_ret.
Qed.

Lemma reads_mapping m : mapping_ok m -> reads rd_mapping (put_mapping m) m.
Proof.
  destruct m as [fid src]. intros [? ?]. unfold rd_mapping, put_mapping, put_str32, get_str32. cbn [fst snd] in *.
  rd_steps. eapply reads_last; [by apply reads_string | done].
Qed.

Lemma needs_v3_false r : needs_v3 r = false -> er_region r = None /\ er_endpoint r = None.
Proof.
  unfold needs_v3. intros H. zb. repeat case_bool_decide; try done.
  split; by apply eq_None_not_Some.
Qed.

(** A recipe written at version 2 or 3 reads back as itself; at version 2 when
    it has nothing that needs version 3. *)
Lemma reads_recipe v3 r : recipe_ok r -> (v3 = false -> needs_v3 r = false) ->
  reads (rd_recipe true v3) (put_recipe (if v3 then 3 else 2) r) r.
Proof.
  destruct r as [tid url fmt key auth mp rp pg rg en].
  intros (? & ? & ? & Ha & [Hm Hmo] & Hrp & Hpg & Hrg & Hen) Hv. cbn in *.
  unfold rd_recipe, put_recipe, get_str32, put_str32. cbn.
  rd_steps. eapply reads_bind; [by apply reads_auth | ].
  eapply reads_bind; [apply reads_put_list; [done | ]; eapply Forall_impl; [exact Hmo | apply reads_mapping] | ].
  rewrite (app_assoc (put_opt rp)). eapply (reads_bind _ _ _ _ (rp, pg)).
  { eapply reads_bind; [by apply reads_opt_str | ]. eapply reads_last; [by apply reads_pagination | done]. }
  cbv beta iota. destruct v3; cbn.
  - eapply (reads_bind_last _ _ _ (rg, en)); [ | apply reads_ret].
    eapply reads_bind; [by apply reads_opt_str | ]. eapply reads_last; [by apply reads_opt_str | done].
  - destruct (needs_v3_false _ (Hv eq_refl)) as [? ?]. cbn in *. subst.
    eapply (reads_bind_last _ _ [] (None, None)); apply reads_ret.
Qed.

Definition external_ok (rs : list ExternalRecipe) : Prop := zlen rs < 2 ^ 32 /\ Forall recipe_ok rs.

Lemma decode_external rs : external_ok rs -> rd_run rd_external (encode_external rs) = Some rs.
Proof.
  intros [Hl Hr]. unfold rd_run, rd_external, encode_external. case_bool_decide as Hn; [by subst | ].
  erewrite bind_some by reflexivity. rewrite bool_decide_eq_false_2 by done.
  erewrite bind_some by (by apply (reads_le 4 0); lia). cbn [Z.eqb app].
  erewrite bind_some by reflexivity.
  set (v3 := existsb needs_v3 rs). replace (negb _ && negb _) with false by (by destruct v3).
  assert (Forall (fun r => reads (rd_recipe true v3) (put_recipe (if v3 then 3 else 2) r) r) rs) as Hf.
  { apply Forall_forall. intros r Hin. rewrite Forall_forall in Hr. apply reads_recipe; [by apply Hr | ].
    subst v3. intros Hv. destruct (needs_v3 r) eqn:E; [ | done].
    apply not_true_iff_false in Hv. destruct Hv. apply existsb_exists. exists r. split; [ | done].
    by apply list_elem_of_In. }
  pose proof (reads_put_list 4 _ _ rs ltac:(lia) Hf []) as H. rewrite app_nil_r in H.
  unfold rd_put_list in H. replace ((if v3 then 3 else 2) =? 3) with v3 by (by destruct v3). by rewrite H.
Qed.

Definition u16s_ok (l : list Z) : Prop := zlen l < 65536 /\ Forall u16_ok l.
Definition programs_ok (l : list bytes) : Prop := zlen l < 65536 /\ Forall (fun p => zlen p < 2 ^ 32) l.

Definition type_def_ok (name : text) (fs : list Field) (ds : list (Z * bytes)) (spk : bool) (sf : option Z) : Prop :=
  def_ok name fs /\ defaults_ok ds /\ serial_ok spk sf.

(** What the widths of the format hold: counts of 16 bits, lengths of 16 or 32
    bits, and a serial field only in a type with a serial key. *)
Record type_ok (t : ObjectType) : Prop := {
  ty_id : u32_ok (type_id t) /\ u32_ok (schema_ver t);
  ty_def : type_def_ok (ot_name t) (fields t) (defaults t) (serial_pk t) (serial_field_id t);
  ty_len : zlen (encode_type_def_full (ot_name t) (fields t) (defaults t) (serial_pk t) (serial_field_id t)) < 2 ^ 32;
  ty_indexes : u16s_ok (indexes t);
  ty_unique : u16s_ok (unique t);
  ty_fks : zlen (fks t) < 65536 /\ Forall (fun f => u16_ok f.1.1 /\ u32_ok f.1.2) (fks t);
  ty_checks : programs_ok (checks t);
  ty_triggers : programs_ok (triggers t);
  ty_ordered : u16s_ok (ordered t);
  ty_composite : zlen (composite t) < 65536 /\ Forall u16s_ok (composite t);
}.

Lemma reads_u16s l : u16s_ok l -> reads rd_u16s (put_u16s l) l.
Proof. intros [? Hl]. apply reads_put_list; [done | ]. eapply Forall_impl; [exact Hl | apply reads_u16]. Qed.

Lemma reads_programs l : programs_ok l -> reads rd_programs (put_programs l) l.
Proof.
  intros [? Hl]. apply reads_put_list; [done | ]. eapply Forall_impl; [exact Hl | ].
  intros p Hp. by apply reads_with_len.
Qed.

Lemma reads_type t : type_ok t -> reads rd_type (put_type t) t.
Proof.
  intros [[? ?] [Hd [Hds Hs]] Hlen ? ? [Hfl Hf] ? ? ? [Hcl Hc]]. unfold rd_type, put_type. rd_steps.
  eapply reads_bind; [by apply reads_with_len | cbv beta].
  pose proof (decode_full _ _ _ _ _ Hd Hds Hs) as Hall. unfold decode_all in Hall.
  injection Hall as H1 H2 H3 H4 _. rewrite H2, H3, H4.
  eapply reads_bind_nil; [by apply reads_opt | cbv beta iota zeta].
  do 2 (eapply reads_bind; [by apply reads_u16s | cbv beta]).
  eapply reads_bind.
  { apply reads_put_list; [done | ]. eapply Forall_impl; [exact Hf | ]. intros [[fid rt] od] [? ?]. cbn in *.
    rd_steps. apply (reads_last _ _ [od] od); [apply reads_u8 | done]. }
  do 2 (eapply reads_bind; [by apply reads_programs | cbv beta]).
  eapply reads_bind; [by apply reads_u16s | cbv beta].
  eapply (reads_last _ _ _ (composite t)); [ | by destruct t].
  apply reads_put_list; [done | ]. eapply Forall_impl; [exact Hc | apply reads_u16s].
Qed.

Record catalog_ok (c : Catalog) : Prop := {
  cat_next : u32_ok (next_type_id c);
  cat_types : zlen (types c) < 2 ^ 32 /\ Forall type_ok (types c);
  cat_external : external_ok (external c);
}.

(** * Properties *)

(** A type definition with any defaults, serial key and foreign keys that
    the widths of the format hold is read back by its five decoders as the
    name, fields, defaults, serial key, serial field and foreign keys it was
    written from, each independently of the trailers behind it. *)
Theorem type_def_roundtrip name fs ds spk sf fks :
  def_ok name fs -> defaults_ok ds -> serial_ok spk sf -> fks_ok fks ->
  let b := encode_type_def_full_fk name fs ds spk sf fks in
  decode_type_def b = Some (name, fs) /\ decode_type_defaults b = ds /\ decode_type_serial_pk b = spk /\
  decode_type_serial_field b = sf /\ decode_type_fks b = fks.
Proof.
  intros Hd Hds Hs Hf b. cut (decode_all b = (Some (name, fs), ds, spk, sf, fks)).
  { unfold decode_all. by intros [= ? ? ? ? ?]. }
  subst b. rewrite type_def_shape. destruct (bool_decide (fks = [])) eqn:E; rewrite ?andb_true_r, ?andb_false_r.
  - apply bool_decide_eq_true_1 in E as ->.
    pose proof (decode_full name fs ds spk sf Hd Hds Hs) as H.
    replace (encode_type_def_full name fs ds spk sf)
      with (encode_type_def_full_fk name fs ds spk sf []) in H by apply app_nil_r.
    by rewrite type_def_shape, (bool_decide_eq_true_2 ([] = [])), andb_true_r in H.
  - by apply decode_tail.
Qed.

(** C30: Every catalog whose counts and lengths fit the format is read back from
    its encoding as itself: types with their definitions, indexes,
    constraints, programs and defaults, and the external sources in the
    version of the trailer they need. *)
Theorem catalog_roundtrip c : catalog_ok c -> catalog_decode (catalog_encode c) = Some c.
Proof.
  intros [? [Hl Ht] Hx]. unfold catalog_decode, catalog_encode.
  rewrite (proj2 (Z.ltb_ge _ _))
    by (unfold put_list; rewrite !zlen_app, !le_bytes_zlen; pose proof (zlen_nonneg (concat (put_type <$> types c)));
        pose proof (zlen_nonneg (encode_external (external c))); lia).
  unfold rd_run. erewrite bind_some by (by apply reads_u32).
  erewrite bind_some by (apply reads_put_list; [done | ]; eapply Forall_impl; [exact Ht | apply reads_type]).
  erewrite bind_some by reflexivity. cbv beta.
  pose proof (decode_external _ Hx) as He. unfold rd_run in He. rewrite He. by destruct c.
Qed.

(** ** Witnesses *)

(** Closes [str_ok] on a literal. *)
Ltac str_lit := split; [repeat (apply Forall_cons; split; [reflexivity | ]); apply Forall_nil; done | done].

Definition sample_fields : list Field :=
  [mkField 1 [105; 100] I64 false; mkField 2 [110; 0xE9] (Char 8) true; mkField 3 [] (Fixed 2) false].

Lemma sample_fields_ok : def_ok [116] sample_fields.
Proof.
  unfold def_ok, sample_fields, field_ok, str_ok, string_ok, u16_ok, u16_max, zlen.
  split_and!; repeat constructor; cbn; unfold u16_ok, u16_max; lia || done.
Qed.

Definition sample_defaults : list (Z * bytes) := [(3, [1; 0; 0; 0; 0; 0; 0; 0])].
Definition sample_fks : list FkSpec := [mkFkSpec [105; 100] [117] (Some [105; 100]) 2; mkFkSpec [110] [118] None 0].

Lemma sample_defaults_ok : defaults_ok sample_defaults.
Proof. unfold defaults_ok, default_ok. split; lit. Qed.

Lemma sample_fks_ok : fks_ok sample_fks.
Proof.
  split; [done | ]. unfold sample_fks.
  apply Forall_cons. split; [ | apply Forall_singleton];
    (split_and!; cbn; [str_lit | str_lit | intros rc [=]; subst; try str_lit]).
Qed.

Lemma sample_serial_ok : serial_ok true (Some 1).
Proof. intros fid [= <-]. split; [done | lit]. Qed.

Lemma type_def_roundtrip_witness :
  let b := encode_type_def_full_fk [116] sample_fields sample_defaults true (Some 1) sample_fks in
  decode_type_def b = Some ([116], sample_fields) /\ decode_type_fks b = sample_fks.
Proof.
  intros b. pose proof (type_def_roundtrip [116] sample_fields sample_defaults true (Some 1) sample_fks
    sample_fields_ok sample_defaults_ok sample_serial_ok sample_fks_ok) as H.
  split; apply H.
Defined.

Definition sample_catalog : Catalog :=
  mkCatalog
    [mkObjectType 5 [116] 2 sample_fields [1] [1] [(1, 7, 2)] [[0; 1]] [] [2] [[1; 3]] sample_defaults true (Some 1)]
    6
    [mkRecipe 5 [104] 0 1 (HeaderEnv [97] [98]) [(1, [105])] (Some [114]) (Some NextLink) None (Some [101])].

Lemma sample_type_ok : Forall type_ok (types sample_catalog).
Proof.
  apply Forall_singleton. split; cbn [type_id schema_ver ot_name fields defaults serial_pk serial_field_id
    indexes unique fks checks triggers ordered composite].
  - split; lit.
  - split_and!; [apply sample_fields_ok | apply sample_defaults_ok | apply sample_serial_ok].
  - reflexivity.
  - split; lit.
  - split; lit.
  - split; [done | ]. apply Forall_singleton. split; lit.
  - split; [done | ]. by apply Forall_singleton.
  - split; [done | apply Forall_nil; done].
  - split; lit.
  - split; [done | ]. apply Forall_singleton. split; lit.
Qed.

Lemma sample_recipe_ok : Forall recipe_ok (external sample_catalog).
Proof.
  apply Forall_singleton. unfold recipe_ok. cbn [er_type_id er_url er_key_field_id er_auth er_mapping
    er_rows_path er_pagination er_region er_endpoint].
  split_and!; [lit | lit | str_lit | split; str_lit | done | | | done | | ].
  - apply Forall_singleton. split; [lit | str_lit].
  - intros s [= <-]. str_lit.
  - intros s [=].
  - intros s [= <-]. str_lit.
Qed.

Lemma sample_catalog_ok : catalog_ok sample_catalog.
Proof.
  split; [lit | | ]; (split; [done | ]); [apply sample_type_ok | apply sample_recipe_ok].
Qed.

Lemma catalog_roundtrip_witness : catalog_decode (catalog_encode sample_catalog) = Some sample_catalog.
Proof. apply catalog_roundtrip, sample_catalog_ok. Defined.
