(* ===== verification/Codec.v ===== *)
(** kessel-codec: records of an object type.

    A record is [schema_ver u32, field_count u16, null bitmap of 8 bytes] and
    the fields at the offsets of the layout, padded to the record size. A field
    appended to the type later is beyond the record's field count and reads as
    NULL.

    Source: src/crates/kessel-codec/src/lib.rs. *)

From Stdlib Require Import ZArith Lia.
From stdpp Require Import base numbers list.
From S2P Require Import Prelude Reader Catalog.

#[local] Open Scope Z_scope.

Inductive Value :=
  | Null
  | Uint (u : Z)
  | Int (v : Z)
  | Blob (b : bytes).

Inductive CodecError :=
  | ArityMismatch (expected got : Z)
  | NullInNonNullable (i : Z)
  | BlobTooLong (field max got : Z)
  | ShortRecord
  | BadSchemaTag.

Definition fc_off : Z := SCHEMA_VER_BYTES.
Definition bitmap_off : Z := SCHEMA_VER_BYTES + 2.

(** [bitmap\[i / 8\] |= 1 << (i % 8)]; an index outside the bitmap panics. *)
Definition set_null (bitmap : bytes) (i : Z) : outcome bytes :=
  match get_at bitmap (i / 8) with
  | Some x => Ret (<[Z.to_nat (i / 8) := Z.lor x (Z.shiftl 1 (i mod 8))]> bitmap)
  | None => Panic
  end.

Definition is_null (bitmap : bytes) (i : Z) : bool :=
  match get_at bitmap (i / 8) with
  | Some x => negb (Z.land x (Z.shiftl 1 (i mod 8)) =? 0)
  | None => false
  end.

(** [buf\[off..off + d.len()\].copy_from_slice(d)]. *)
Definition copy_into (buf : bytes) (off : Z) (d : bytes) : outcome bytes :=
  if off + zlen d <=? zlen buf then Ret (splice buf off d) else Panic.

(** [&v.to_le_bytes()\[..w\]] of a 128-bit integer. *)
Definition le_prefix (v w : Z) : outcome bytes :=
  if w <=? 16 then Ret (take (Z.to_nat w) (le_bytes 16 v)) else Panic.

(** One field: the buffer and the bitmap after it, or the error. *)
Definition encode_value (i off : Z) (f : Field) (v : Value) (buf bitmap : bytes) :
    outcome (bytes * bytes + CodecError) :=
  let w := width (f_kind f) in
  match v with
  | Null =>
      if negb (f_nullable f) then Ret (inr (NullInNonNullable i))
      else bm ← set_null bitmap i; Ret (inl (buf, bm))
  | Uint x | Int x => d ← le_prefix x w; b ← copy_into buf off d; Ret (inl (b, bitmap))
  | Blob d =>
      if w <? zlen d then Ret (inr (BlobTooLong i w (zlen d)))
      else b ← copy_into buf off d; Ret (inl (b, bitmap))
  end.

Fixpoint encode_loop (i : Z) (items : list (Z * (Field * Value))) (buf bitmap : bytes) :
    outcome (bytes * bytes + CodecError) :=
  match items with
  | [] => Ret (inl (buf, bitmap))
  | (off, (f, v)) :: items' =>
      r ← encode_value i off f v buf bitmap;
      match r with
      | inl (buf', bitmap') => encode_loop (i + 1) items' buf' bitmap'
      | inr e => Ret (inr e)
      end
  end.

Definition encode (ot : ObjectType) (values : list Value) : outcome (bytes + CodecError) :=
  if negb (zlen values =? zlen (fields ot)) then Ret (inr (ArityMismatch (zlen (fields ot)) (zlen values)))
  else
  let layout := compute_layout ot in
  let buf := replicate (Z.to_nat (record_size layout)) 0 in
  b ← copy_into buf 0 (le_bytes 4 (schema_ver ot));
  b ← copy_into b fc_off (le_bytes 2 (zlen (fields ot)));
  r ← encode_loop 0 (zip (offsets layout) (zip (fields ot) values)) b (replicate (Z.to_nat NULL_BITMAP_BYTES) 0);
  match r with
  | inl (buf, bitmap) => b ← copy_into buf bitmap_off bitmap; Ret (inl b)
  | inr e => Ret (inr e)
  end.

Definition is_signed (k : FieldKind) : bool :=
  match k with I8 | I16 | I32 | I64 | I128 | Fixed _ => true | _ => false end.
Definition is_blob (k : FieldKind) : bool :=
  match k with Char _ | Bytes _ | Ref | OverflowRef => true | _ => false end.

(** [i128::from_le_bytes]. *)
Definition i128_from_le (b : bytes) : Z :=
  let v := le_value b in if v <? 2 ^ 127 then v else v - 2 ^ 128.

(** A 16-byte buffer with [raw] in front, filled with 0xFF when the top bit of
    a shorter [raw] is set and [sign] is true. *)
Definition extend16 (sign : bool) (raw : bytes) : bytes :=
  let w := zlen raw in
  let fill := if sign && (0 <? w) && (w <? 16) && negb (Z.land (default 0 (last raw)) 0x80 =? 0)
              then 0xFF else 0 in
  raw ++ replicate (Z.to_nat (16 - w)) fill.

Definition value_from_raw (k : FieldKind) (raw : bytes) : outcome Value :=
  if is_signed k then if zlen raw <=? 16 then Ret (Int (i128_from_le (extend16 true raw))) else Panic
  else if is_blob k then Ret (Blob raw)
  else Ret (Uint (le_value (extend16 false (take 16 raw)))).

Definition raw_from_value (k : FieldKind) (v : Value) : option bytes :=
  let w := width k in
  match v with
  | Null => None
  | Int x | Uint x => Some (take (Z.to_nat (Z.min w 16)) (le_bytes 16 x))
  | Blob b =>
      let n := Z.min (zlen b) w in
      Some (take (Z.to_nat n) b ++ replicate (Z.to_nat (w - n)) 0)
  end.

Fixpoint decode_loop (rec bitmap : bytes) (stored_fc i : Z) (items : list (Z * Field)) :
    outcome (list Value + CodecError) :=
  match items with
  | [] => Ret (inl [])
  | (off, f) :: items' =>
      r ← (if (stored_fc <=? i) || is_null bitmap i then Ret (inl Null) else
           match get_range rec off (off + width (f_kind f)) with
           | None => Ret (inr ShortRecord)
           | Some raw => v ← value_from_raw (f_kind f) raw; Ret (inl v)
           end);
      match r with
      | inr e => Ret (inr e)
      | inl v =>
          rest ← decode_loop rec bitmap stored_fc (i + 1) items';
          match rest with
          | inl vs => Ret (inl (v :: vs))
          | inr e => Ret (inr e)
          end
      end
  end.

Definition decode (ot : ObjectType) (rec : bytes) : outcome (list Value + CodecError) :=
  if zlen rec <? HEADER_BYTES then Ret (inr ShortRecord) else
  fc ← or_panic (get_range rec fc_off (fc_off + 2));
  bitmap ← or_panic (get_range rec bitmap_off (bitmap_off + NULL_BITMAP_BYTES));
  decode_loop rec bitmap (le_value fc) 0 (zip (offsets (compute_layout ot)) (fields ot)).

Definition record_schema_ver (rec : bytes) : option Z := le_value <$> get_range rec 0 4.

(** * Bits and bytes *)

Lemma land_bit x k : 0 <= k -> negb (Z.land x (Z.shiftl 1 k) =? 0) = Z.testbit x k.
Proof.
  intros Hk. rewrite Z.shiftl_1_l. destruct (Z.testbit x k) eqn:E.
  - apply negb_true_iff, Z.eqb_neq. intros H.
    assert (Z.testbit (Z.land x (2 ^ k)) k = false) as Hf by (rewrite H; apply Z.bits_0).
    by rewrite Z.land_spec, E, Z.pow2_bits_true in Hf by done.
  - apply negb_false_iff, Z.eqb_eq. apply Z.bits_inj'. intros n Hn.
    rewrite Z.land_spec, Z.bits_0, Z.pow2_bits_eqb by lia.
    destruct (Z.eqb_spec k n) as [<- | ]; [by rewrite E | apply andb_false_r].
Qed.

Lemma le_bytes_app n m v : le_bytes (n + m) v = le_bytes n v ++ le_bytes m (v / 256 ^ Z.of_nat n).
Proof.
  revert v. induction n as [ | n IH]; intros v; [cbn; by rewrite Z.div_1_r | ].
  cbn [le_bytes Nat.add app]. rewrite IH, Z.div_div by lia.
  do 3 f_equal. rewrite Nat2Z.inj_succ, Z.pow_succ_r by lia. done.
Qed.

Lemma le_bytes_take n m v : (n <= m)%nat -> take n (le_bytes m v) = le_bytes n v.
Proof.
  intros H. replace m with (n + (m - n))%nat by lia. rewrite le_bytes_app.
  by rewrite <- (le_bytes_length n v) at 1; rewrite take_app_length.
Qed.

Lemma le_bytes_0 m : le_bytes m 0 = replicate m 0.
Proof. induction m as [ | m IH]; [done | ]. cbn [le_bytes replicate]. change (0 / 256) with 0. by rewrite IH. Qed.

Lemma le_bytes_m1 m : le_bytes m (-1) = replicate m 255.
Proof. induction m as [ | m IH]; [done | ]. cbn [le_bytes replicate]. change (-1 / 256) with (-1). by rewrite IH. Qed.

Lemma last_le_bytes n v : last (le_bytes (S n) v) = Some (v / 256 ^ Z.of_nat n mod 256).
Proof.
  replace (S n) with (n + 1)%nat by lia. rewrite le_bytes_app. cbn [le_bytes]. by rewrite last_snoc.
Qed.

Lemma le_value_zeros a n : le_value (a ++ replicate n 0) = le_value a.
Proof.
  induction a as [ | x a IH]; cbn [app le_value]; [ | by rewrite IH].
  induction n as [ | n IH]; cbn [replicate le_value]; [done | lia].
Qed.

(** The sign of an integer of [n + 1] bytes is the top bit of its last byte. *)
Lemma sign_byte n v : - 128 * 256 ^ Z.of_nat n <= v < 128 * 256 ^ Z.of_nat n ->
  negb (Z.land (v / 256 ^ Z.of_nat n mod 256) 0x80 =? 0) = (v <? 0).
Proof.
  intros Hv. change 0x80 with (Z.shiftl 1 7). rewrite land_bit by lia.
  assert (0 < 256 ^ Z.of_nat n) by lia.
  assert (-128 <= v / 256 ^ Z.of_nat n) by (apply Z.div_le_lower_bound; lia).
  assert (v / 256 ^ Z.of_nat n < 128) by (apply Z.div_lt_upper_bound; lia).
  assert (v / 256 ^ Z.of_nat n < 0 <-> v < 0) as Hs.
  { split; intros; [ | apply Z.div_lt_upper_bound; lia].
    destruct (Z.lt_ge_cases v 0); [done | ]. pose proof (Z.div_pos v (256 ^ Z.of_nat n)). lia. }
  set (q := v / _) in *. apply eq_bool_prop_intro. rewrite !Is_true_true, Z.ltb_lt, Z.testbit_true, <- Hs by lia.
  change (2 ^ 7) with 128. zdiv.
Qed.

Lemma extend16_signed n v : (S n <= 16)%nat -> - 128 * 256 ^ Z.of_nat n <= v < 128 * 256 ^ Z.of_nat n ->
  extend16 true (le_bytes (S n) v) = le_bytes 16 v.
Proof.
  intros Hn Hv. unfold extend16. rewrite le_bytes_zlen, last_le_bytes.
  transitivity (le_bytes (S n + (16 - S n)) v); [ | by replace (S n + (16 - S n))%nat with 16%nat by lia].
  rewrite le_bytes_app. f_equal.
  replace (Z.to_nat (16 - Z.of_nat (S n))) with (16 - S n)%nat by lia.
  destruct (decide (n = 15)%nat) as [-> | Hne]; [done | ].
  rewrite (proj2 (Z.ltb_lt 0 _)), (proj2 (Z.ltb_lt _ 16)) by lia. cbn [andb].
  cbn [from_option]. unfold id. rewrite sign_byte by done.
  assert (0 < 256 ^ Z.of_nat n) by lia.
  rewrite Nat2Z.inj_succ, Z.pow_succ_r by lia. destruct (Z.ltb_spec v 0).
  - replace (v / (256 * _)) with (-1); [by rewrite le_bytes_m1 | ].
    apply (Z.div_unique _ _ _ (v + 256 * 256 ^ Z.of_nat n)); lia.
  - rewrite Z.div_small, le_bytes_0; [done | lia].
Qed.

Lemma i128_from_le_bytes v : - 2 ^ 127 <= v < 2 ^ 127 -> i128_from_le (le_bytes 16 v) = v.
Proof.
  intros Hv. unfold i128_from_le. rewrite le_value_le_bytes.
  change (256 ^ Z.of_nat 16) with (2 ^ 128). destruct (Z.lt_ge_cases v 0).
  - replace (v mod 2 ^ 128) with (v + 2 ^ 128) by (apply (Z.mod_unique _ _ (-1)); lia).
    rewrite (proj2 (Z.ltb_ge _ _)); lia.
  - rewrite Z.mod_small by lia. rewrite (proj2 (Z.ltb_lt _ _)); lia.
Qed.

(** * The record as its parts *)

(** What a value leaves in its field of width [w]. *)
Definition slot (w : Z) (v : Value) : bytes :=
  match v with
  | Null => replicate (Z.to_nat w) 0
  | Uint x | Int x => le_bytes (Z.to_nat w) x
  | Blob b => b ++ replicate (Z.to_nat (w - zlen b)) 0
  end.

Definition is_Null (v : Value) : bool := match v with Null => true | _ => false end.

(** The values a field holds without loss. *)
Definition value_ok (f : Field) (v : Value) : Prop :=
  let k := f_kind f in
  match v with
  | Null => f_nullable f = true
  | Uint u => is_signed k = false /\ is_blob k = false /\ 0 <= u < 256 ^ width k
  | Int v => is_signed k = true /\ - 128 * 256 ^ (width k - 1) <= v < 128 * 256 ^ (width k - 1)
  | Blob b => is_blob k = true /\ zlen b <= width k
  end.

Lemma width_nonneg k : kind_ok k -> 0 <= width k <= 65535.
Proof. unfold kind_ok, u16_ok, u16_max. destruct k; cbn; lia. Qed.

Lemma width_int k : is_blob k = false -> 1 <= width k <= 16.
Proof. destruct k; cbn; (lia || done). Qed.

Lemma slot_zlen f v : kind_ok (f_kind f) -> value_ok f v -> zlen (slot (width (f_kind f)) v) = width (f_kind f).
Proof.
  intros Hk Hv. pose proof (width_nonneg _ Hk). unfold zlen in *. destruct v; cbn in *;
    rewrite ?length_app, ?length_replicate, ?le_bytes_length; unfold zlen in *; lia.
Qed.

Lemma zlen_replicate {A} n (x : A) : zlen (replicate n x) = Z.of_nat n.
Proof. unfold zlen. by rewrite length_replicate. Qed.

Lemma replicate_split {A} (n m : nat) (x : A) : (m <= n)%nat ->
  replicate n x = replicate m x ++ replicate (n - m) x.
Proof. intros H. rewrite <- replicate_add. f_equal. lia. Qed.

Lemma copy_into_parts a b c d off : off = zlen a -> zlen d = zlen b ->
  copy_into (a ++ b ++ c) off d = Ret (a ++ d ++ c).
Proof.
  intros -> Hd. unfold copy_into, splice. pose proof (zlen_nonneg c).
  rewrite !zlen_app, (proj2 (Z.leb_le _ _)) by lia. f_equal.
  replace (Z.to_nat (zlen a + zlen d - (zlen a + (zlen b + zlen c)))) with 0%nat by lia.
  cbn [replicate]. rewrite app_nil_r. f_equal.
  - rewrite take_app_le by (unfold zlen; lia). apply firstn_all2. unfold zlen. lia.
  - f_equal. rewrite app_assoc. apply drop_app_length'. rewrite length_app. unfold zlen in *. lia.
Qed.

Lemma copy_into_zeros pre d n off : off = zlen pre -> zlen d <= Z.of_nat n ->
  copy_into (pre ++ replicate n 0) off d = Ret (pre ++ d ++ replicate (n - length d) 0).
Proof.
  intros -> Hd. unfold zlen in Hd. rewrite (replicate_split n (length d)) by lia.
  apply copy_into_parts; [done | ]. by rewrite zlen_replicate.
Qed.

(** The bitmap after the values from index [i] on. *)
Fixpoint marks (i : Z) (vs : list Value) (bm : bytes) : bytes :=
  match vs with
  | [] => bm
  | v :: vs' =>
      marks (i + 1) vs'
        (if is_Null v then <[Z.to_nat (i / 8) := Z.lor (default 0 (bm !! Z.to_nat (i / 8))) (Z.shiftl 1 (i mod 8))]> bm
         else bm)
  end.

Lemma encode_value_ok i f v pre n bm :
  kind_ok (f_kind f) -> value_ok f v -> 0 <= i < 8 * zlen bm -> width (f_kind f) <= Z.of_nat n ->
  encode_value i (zlen pre) f v (pre ++ replicate n 0) bm =
  Ret (inl (pre ++ slot (width (f_kind f)) v ++ replicate (n - Z.to_nat (width (f_kind f))) 0, marks i [v] bm)).
Proof.
  intros Hk Hv Hi Hn. pose proof (width_nonneg _ Hk) as Hw. unfold encode_value.
  destruct v as [ | u | x | b]; cbn [slot marks is_Null] in *.
  - unfold value_ok in Hv. rewrite Hv. cbn [negb]. unfold set_null, get_at.
    assert (0 <= i / 8 < zlen bm) as Hq by zdiv. repeat zif_true. cbn [andb].
    destruct (bm !! Z.to_nat (i / 8)) as [y | ] eqn:E; cbn.
    + by rewrite <- replicate_split by lia.
    + apply lookup_ge_None in E. unfold zlen in Hq. lia.
  - destruct Hv as (_ & Hb & _). apply width_int in Hb. unfold le_prefix. zif_true. ob.
    rewrite le_bytes_take by lia. rewrite copy_into_zeros by (rewrite ?le_bytes_zlen; lia). ob.
    by rewrite le_bytes_length.
  - destruct Hv as (Hs & _). assert (is_blob (f_kind f) = false) as Hb by (by destruct (f_kind f)).
    apply width_int in Hb. unfold le_prefix. zif_true. ob.
    rewrite le_bytes_take by lia. rewrite copy_into_zeros by (rewrite ?le_bytes_zlen; lia). ob.
    by rewrite le_bytes_length.
  - destruct Hv as (_ & Hb). pose proof (zlen_nonneg b). zif_false. rewrite copy_into_zeros by lia. ob.
    do 4 f_equal. rewrite <- app_assoc, <- replicate_add. do 2 f_equal. unfold zlen in *. lia.
Qed.

Definition total_width (fs : list Field) : Z :=
  Z.of_nat (sum_list_with (fun f => Z.to_nat (width (f_kind f))) fs).

Definition slots (fs : list Field) (vs : list Value) : bytes :=
  concat (zip_with (fun f v => slot (width (f_kind f)) v) fs vs).

Definition row_ok (fs : list Field) (vs : list Value) : Prop :=
  Forall2 (fun f v => kind_ok (f_kind f) /\ value_ok f v) fs vs.

Lemma total_width_cons f fs : kind_ok (f_kind f) ->
  total_width (f :: fs) = width (f_kind f) + total_width fs.
Proof. intros Hk. apply width_nonneg in Hk. unfold total_width. cbn. lia. Qed.

Lemma place_fst f fs cur : (place cur (f :: fs)).1 = cur :: (place (cur + width (f_kind f)) fs).1.
Proof. cbn. by destruct (place _ fs). Qed.

Lemma place_snd fs cur : Forall (fun f => kind_ok (f_kind f)) fs -> (place cur fs).2 = cur + total_width fs.
Proof.
  intros H. revert cur. induction H as [ | f fs Hf H IH]; intros cur; [unfold total_width; cbn; lia | ].
  rewrite total_width_cons by done. specialize (IH (cur + width (f_kind f))). cbn.
  destruct (place _ fs). cbn in *. lia.
Qed.

Lemma marks_length i vs bm : length (marks i vs bm) = length bm.
Proof.
  revert i bm. induction vs as [ | v vs IH]; intros i bm; [done | ]. cbn. rewrite IH.
  destruct (is_Null v); [apply length_insert | done].
Qed.

Lemma encode_loop_ok fs vs : row_ok fs vs -> forall i pre n bm,
  0 <= i -> i + zlen fs <= 8 * zlen bm -> total_width fs <= Z.of_nat n ->
  encode_loop i (zip (place (zlen pre) fs).1 (zip fs vs)) (pre ++ replicate n 0) bm =
  Ret (inl (pre ++ slots fs vs ++ replicate (n - Z.to_nat (total_width fs)) 0, marks i vs bm)).
Proof.
  induction 1 as [ | f v fs vs [Hk Hv] H IH]; intros i pre n bm Hi Hb Hn.
  { cbn. by rewrite Nat.sub_0_r. }
  rewrite zlen_cons in Hb. pose proof (zlen_nonneg fs). pose proof (width_nonneg _ Hk) as Hw.
  rewrite total_width_cons in Hn |- * by done.
  assert (0 <= total_width fs) by (unfold total_width; lia).
  rewrite place_fst. cbn [zip zip_with encode_loop].
  rewrite encode_value_ok by (done || lia). ob. rewrite app_assoc.
  replace (zlen pre + width (f_kind f)) with (zlen (pre ++ slot (width (f_kind f)) v))
    by (rewrite zlen_app, slot_zlen by done; lia).
  rewrite IH; [ | lia | | lia].
  - unfold slots. cbn [zip_with concat marks]. rewrite <- !app_assoc.
    by replace (n - Z.to_nat (width (f_kind f)) - Z.to_nat (total_width fs))%nat
      with (n - Z.to_nat (width (f_kind f) + total_width fs))%nat by lia.
  - cbn. destruct (is_Null v); rewrite ?zlen_cons; unfold zlen in *; rewrite ?length_insert; lia.
Qed.

(** The bit of index [j] after index [i] was marked. *)
Lemma is_null_mark bm i j : 0 <= i < 8 * zlen bm -> 0 <= j ->
  is_null (<[Z.to_nat (i / 8) := Z.lor (default 0 (bm !! Z.to_nat (i / 8))) (Z.shiftl 1 (i mod 8))]> bm) j =
  (i =? j) || is_null bm j.
Proof.
  intros Hi Hj. unfold is_null, get_at, zlen. rewrite length_insert.
  assert (0 <= i / 8 < Z.of_nat (length bm)) as Hq by (unfold zlen in Hi; zdiv).
  assert (0 <= j / 8) by zdiv. rewrite (proj2 (Z.leb_le 0 (j / 8))) by done. cbn [andb].
  destruct (Z.ltb_spec (j / 8) (Z.of_nat (length bm))).
  2: { rewrite orb_false_r. symmetry. apply Z.eqb_neq. intros ->. lia. }
  destruct (decide (i / 8 = j / 8)) as [E | E].
  - rewrite E, list_lookup_insert_eq by lia. destruct (lookup_lt_is_Some_2 bm (Z.to_nat (j / 8))) as [x Hx]; [lia | ].
    rewrite Hx. cbn [from_option]. unfold id. rewrite !land_bit by zdiv. rewrite Z.lor_spec, Z.shiftl_1_l.
    rewrite Z.pow2_bits_eqb, orb_comm by zdiv. f_equal. apply eq_bool_prop_intro.
    rewrite !Is_true_true, !Z.eqb_eq. zdiv.
  - rewrite list_lookup_insert_ne by lia. rewrite (proj2 (Z.eqb_neq i j)) by (intros ->; done). done.
Qed.

Lemma is_null_marks vs : forall i bm j, 0 <= i -> i + zlen vs <= 8 * zlen bm -> 0 <= j ->
  is_null (marks i vs bm) j = is_null bm j || from_option is_Null false (if i <=? j then vs !! Z.to_nat (j - i) else None).
Proof.
  induction vs as [ | v vs IH]; intros i bm j Hi Hb Hj.
  { cbn. destruct (i <=? j); cbn; by rewrite orb_false_r. }
  rewrite zlen_cons in Hb. pose proof (zlen_nonneg vs). cbn [marks]. rewrite IH; [ | lia | | lia].
  2: { destruct (is_Null v); unfold zlen in *; rewrite ?length_insert; lia. }
  assert (is_null (if is_Null v
      then <[Z.to_nat (i / 8) := Z.lor (default 0 (bm !! Z.to_nat (i / 8))) (Z.shiftl 1 (i mod 8))]> bm else bm) j =
    is_null bm j || (is_Null v && (i =? j))) as ->.
  { destruct (is_Null v); [rewrite is_null_mark by lia; apply orb_comm | by rewrite orb_false_r]. }
  rewrite <- orb_assoc. f_equal. destruct (Z.lt_trichotomy i j) as [H0 | [-> | H0]].
  - rewrite (proj2 (Z.eqb_neq i j)), andb_false_r by lia. repeat zif_true. cbn [orb].
    by replace (Z.to_nat (j - i)) with (S (Z.to_nat (j - (i + 1)))) by lia.
  - rewrite Z.eqb_refl, andb_true_r, (proj2 (Z.leb_gt (j + 1) j)), Z.leb_refl, Z.sub_diag by lia.
    cbn. apply orb_false_r.
  - rewrite (proj2 (Z.eqb_neq i j)), andb_false_r by lia. repeat zif_false. done.
Qed.

Lemma next_pow2_loop_ge fuel p n : 0 < p -> n <= p * 2 ^ Z.of_nat fuel -> n <= next_pow2_loop fuel p n.
Proof.
  revert p. induction fuel as [ | fuel IH]; intros p Hp Hn; cbn [next_pow2_loop]; [cbn in Hn; lia | ].
  destruct (Z.ltb_spec p n); [ | done]. apply IH; [lia | ].
  rewrite Nat2Z.inj_succ, Z.pow_succ_r in Hn by lia. nia.
Qed.

Lemma next_pow2_ge n : n <= 2 ^ 68 -> n <= next_pow2 n.
Proof. intros Hn. apply next_pow2_loop_ge; [lia | ]. change (16 * 2 ^ Z.of_nat 64) with (2 ^ 68). done. Qed.

Lemma total_width_nonneg fs : 0 <= total_width fs.
Proof. unfold total_width. lia. Qed.

Lemma total_width_bound fs : Forall (fun f => kind_ok (f_kind f)) fs -> total_width fs <= 65535 * zlen fs.
Proof.
  induction 1 as [ | f fs Hf H IH]; [done | ]. rewrite total_width_cons, zlen_cons by done.
  apply width_nonneg in Hf. lia.
Qed.

Lemma row_kinds fs vs : row_ok fs vs -> Forall (fun f => kind_ok (f_kind f)) fs.
Proof. intros H. eapply Forall2_Forall_l; [exact H | ]. apply Forall_true. by intros v f [? _]. Qed.

Lemma compute_layout_eq ot : Forall (fun f => kind_ok (f_kind f)) (fields ot) ->
  compute_layout ot = mkLayout (next_pow2 (HEADER_BYTES + total_width (fields ot))) (place HEADER_BYTES (fields ot)).1.
Proof.
  intros H. unfold compute_layout. pose proof (place_snd (fields ot) HEADER_BYTES H) as Hs.
  destruct (place _ _) as [os cur]. cbn in *. by rewrite Hs.
Qed.

Definition header (ot : ObjectType) (vs : list Value) : bytes :=
  le_bytes 4 (schema_ver ot) ++ le_bytes 2 (zlen (fields ot)) ++ marks 0 vs (replicate 8 0).

(** The record that [encode] builds. *)
Lemma encode_shape ot vs : row_ok (fields ot) vs -> zlen (fields ot) <= MAX_FIELDS ->
  exists n, encode ot vs = Ret (inl (header ot vs ++ slots (fields ot) vs ++ replicate n 0)) /\
    HEADER_BYTES + total_width (fields ot) + Z.of_nat n = record_size (compute_layout ot).
Proof.
  intros Hrow Hmax. unfold MAX_FIELDS in Hmax. pose proof (row_kinds _ _ Hrow) as Hk.
  pose proof (total_width_bound _ Hk). assert (0 <= total_width (fields ot)) by (unfold total_width; lia).
  pose proof (next_pow2_ge (HEADER_BYTES + total_width (fields ot)) ltac:(change HEADER_BYTES with 14; lia)) as Hge.
  unfold encode. rewrite (compute_layout_eq ot Hk). cbn [record_size offsets].
  assert (zlen vs = zlen (fields ot)) as Hl.
  { unfold zlen. by rewrite (Forall2_length _ _ _ Hrow). }
  rewrite Hl, Z.eqb_refl. cbn [negb].
  set (size := next_pow2 _) in *. change HEADER_BYTES with 14 in *. set (n := Z.to_nat (size - 14)).
  assert (replicate (Z.to_nat size) 0 = replicate 4 0 ++ replicate 2 0 ++ replicate 8 0 ++ replicate n 0) as ->.
  { rewrite <- !replicate_add. f_equal. lia. }
  pose proof (copy_into_parts [] (replicate 4 0) (replicate 2 0 ++ replicate 8 0 ++ replicate n 0)
    (le_bytes 4 (schema_ver ot)) 0 eq_refl eq_refl) as Hver. cbn [app] in Hver. rewrite Hver. ob.
  rewrite (copy_into_parts (le_bytes 4 _) (replicate 2 0)) by done. ob.
  rewrite !app_assoc. change (Z.to_nat NULL_BITMAP_BYTES) with 8%nat.
  change 14 with (zlen ((le_bytes 4 (schema_ver ot) ++ le_bytes 2 (zlen (fields ot))) ++ replicate 8 0)) at 1.
  rewrite encode_loop_ok; [ | done | lia | change (zlen (replicate 8 0)) with 8; lia | subst n; lia]. ob. rewrite <- !app_assoc, app_assoc.
  rewrite copy_into_parts; [ | done | ]. 2: { unfold zlen. by rewrite marks_length. }
  ob. exists (n - Z.to_nat (total_width (fields ot)))%nat. unfold header. rewrite <- !app_assoc.
  split; [done | subst n; lia].
Qed.

(** ** Reading back *)

(** The value a field reads as: byte strings are padded to the width. *)
Definition pad (f : Field) (v : Value) : Value :=
  match v with
  | Blob b => Blob (b ++ replicate (Z.to_nat (width (f_kind f) - zlen b)) 0)
  | v => v
  end.

Lemma value_from_slot f v : kind_ok (f_kind f) -> value_ok f v -> is_Null v = false ->
  value_from_raw (f_kind f) (slot (width (f_kind f)) v) = Ret (pad f v).
Proof.
  intros Hk Hv Hn. unfold value_from_raw. destruct v as [ | u | x | b]; cbn [slot pad value_ok] in *; [done | | | ].
  - destruct Hv as (Hs & Hb & Hu). pose proof (width_int _ Hb). rewrite Hs, Hb. do 2 f_equal.
    rewrite (take_ge (le_bytes _ _)) by (rewrite le_bytes_length; lia).
    unfold extend16. cbn [andb]. rewrite le_value_zeros. apply le_value_le_bytes_small. by rewrite Z2Nat.id by lia.
  - destruct Hv as (Hs & Hx). assert (is_blob (f_kind f) = false) as Hb by (by destruct (f_kind f)).
    pose proof (width_int _ Hb). rewrite Hs, le_bytes_zlen. zif_true. do 2 f_equal.
    replace (Z.to_nat (width (f_kind f))) with (S (Z.to_nat (width (f_kind f) - 1))) by lia.
    assert (256 ^ (width (f_kind f) - 1) <= 256 ^ 15) by (apply Z.pow_le_mono_r; lia).
    rewrite extend16_signed; [ | lia | by rewrite Z2Nat.id by lia]. apply i128_from_le_bytes. lia.
  - destruct Hv as (Hb & _). assert (is_signed (f_kind f) = false) as -> by (by destruct (f_kind f)).
    by rewrite Hb.
Qed.

Lemma decode_loop_absent rec bm fc fs : forall i cur, fc <= i ->
  decode_loop rec bm fc i (zip (place cur fs).1 fs) = Ret (inl (replicate (length fs) Null)).
Proof.
  induction fs as [ | f fs IH]; intros i cur Hi; [done | ]. rewrite place_fst. cbn [zip zip_with decode_loop].
  zif_true. cbn [orb]. ob. by rewrite IH by lia.
Qed.

Lemma decode_loop_ok rec bm fc extra fs vs : row_ok fs vs -> forall i pre post,
  fc = i + zlen fs -> rec = pre ++ slots fs vs ++ post ->
  (forall k v, vs !! k = Some v -> is_null bm (i + Z.of_nat k) = is_Null v) ->
  decode_loop rec bm fc i (zip (place (zlen pre) (fs ++ extra)).1 (fs ++ extra)) =
  Ret (inl (zip_with pad fs vs ++ replicate (length extra) Null)).
Proof.
  induction 1 as [ | f v fs vs [Hk Hv] H IH]; intros i pre post Hfc Hrec Hbm.
  { apply decode_loop_absent. rewrite zlen_nil in Hfc. lia. }
  rewrite zlen_cons in Hfc. pose proof (zlen_nonneg fs). pose proof (slot_zlen _ _ Hk Hv) as Hs.
  cbn [app]. rewrite place_fst. cbn [zip zip_with decode_loop].
  pose proof (Hbm 0%nat v eq_refl) as Hb. rewrite Z.add_0_r in Hb. rewrite Hb.
  rewrite (proj2 (Z.leb_gt fc i)) by lia. cbn [orb].
  assert (decode_loop rec bm fc (i + 1) (zip (place (zlen pre + width (f_kind f)) (fs ++ extra)).1 (fs ++ extra)) =
    Ret (inl (zip_with pad fs vs ++ replicate (length extra) Null))) as Hrest.
  { replace (zlen pre + _) with (zlen (pre ++ slot (width (f_kind f)) v)) by (rewrite zlen_app; lia).
    apply (IH (i + 1) _ post); [lia | | ].
    - rewrite Hrec. unfold slots. cbn. by rewrite <- !app_assoc.
    - intros k w Hk'. specialize (Hbm (S k) w Hk'). by replace (i + 1 + Z.of_nat k) with (i + Z.of_nat (S k)) by lia. }
  destruct (is_Null v) eqn:Hn.
  - destruct v; try done. ob. by rewrite Hrest.
  - assert (get_range rec (zlen pre) (zlen pre + width (f_kind f)) = Some (slot (width (f_kind f)) v)) as ->.
    { rewrite Hrec. unfold slots. cbn. rewrite <- app_assoc. apply get_range_app; lia. }
    rewrite value_from_slot by done. ob. by rewrite Hrest.
Qed.

Lemma header_zlen ot vs : zlen (header ot vs) = 14.
Proof. unfold header, zlen. by rewrite !length_app, !le_bytes_length, marks_length, length_replicate. Qed.

Lemma header_count ot vs body :
  get_range (header ot vs ++ body) fc_off (fc_off + 2) = Some (le_bytes 2 (zlen (fields ot))).
Proof. unfold header. rewrite <- !app_assoc. by apply get_range_app. Qed.

Lemma header_bitmap ot vs body :
  get_range (header ot vs ++ body) bitmap_off (bitmap_off + NULL_BITMAP_BYTES) =
  Some (marks 0 vs (replicate 8 0)).
Proof.
  unfold header. rewrite app_assoc, <- (app_assoc _ _ body). apply get_range_app; [done | ].
  unfold zlen. by rewrite marks_length.
Qed.

Lemma slots_zlen fs vs : row_ok fs vs -> zlen (slots fs vs) = total_width fs.
Proof.
  induction 1 as [ | f v fs vs [Hk Hv] H IH]; [done | ].
  rewrite total_width_cons by done. unfold slots in *. cbn. by rewrite zlen_app, slot_zlen, IH.
Qed.

Lemma is_null_zeros n j : is_null (replicate n 0) j = false.
Proof.
  unfold is_null, get_at. destruct (_ && _); [ | done].
  destruct (replicate n 0 !! _) as [x | ] eqn:E; [ | done]. by apply lookup_replicate in E as [-> _].
Qed.

(** * Offsets and sizes *)

Lemma place_lookup fs : forall cur i off, Forall (fun f => kind_ok (f_kind f)) fs ->
  (place cur fs).1 !! i = Some off -> cur <= off /\ (i < length fs)%nat.
Proof.
  induction fs as [ | f fs IH]; intros cur i off Hk Hi; [done | ]. rewrite place_fst in Hi.
  inversion_clear Hk as [ | ? ? Hf Hfs]. pose proof (width_nonneg _ Hf). destruct i as [ | i].
  - injection Hi as <-. cbn. lia.
  - apply IH in Hi; [ | done]. cbn. lia.
Qed.

Lemma place_end fs : forall cur i off f, Forall (fun f => kind_ok (f_kind f)) fs ->
  (place cur fs).1 !! i = Some off -> fs !! i = Some f -> off + width (f_kind f) <= cur + total_width fs.
Proof.
  induction fs as [ | g fs IH]; intros cur i off f Hk Ho Hi; [done | ]. rewrite place_fst in Ho.
  inversion_clear Hk as [ | ? ? Hg Hfs]. pose proof (width_nonneg _ Hg). rewrite total_width_cons by done.
  destruct i as [ | i].
  - injection Ho as <-. injection Hi as <-. unfold total_width. lia.
  - specialize (IH _ _ _ _ Hfs Ho Hi). lia.
Qed.

Lemma place_length fs cur : length (place cur fs).1 = length fs.
Proof.
  revert cur. induction fs as [ | f fs IH]; intros cur; [done | ]. rewrite place_fst. cbn. by rewrite IH.
Qed.

Lemma place_before fs : forall cur i j f offi offj, Forall (fun f => kind_ok (f_kind f)) fs -> (i < j)%nat ->
  (place cur fs).1 !! i = Some offi -> fs !! i = Some f -> (place cur fs).1 !! j = Some offj -> offi + width (f_kind f) <= offj.
Proof.
  induction fs as [ | g fs IH]; intros cur i j f offi offj Hk Hij Hi Hf Hj; [done | ]. rewrite place_fst in Hi, Hj.
  inversion_clear Hk as [ | ? ? Hg Hfs]. destruct j as [ | j]; [lia | ]. cbn in Hj. destruct i as [ | i]; cbn in Hi, Hf.
  - injection Hi as <-. injection Hf as <-. by apply place_lookup in Hj as [? _].
  - eapply IH; [done | | done..]. lia.
Qed.

Lemma next_pow2_loop_min fuel p n : 0 < p -> p <= next_pow2_loop fuel p n.
Proof.
  revert p. induction fuel as [ | fuel IH]; intros p Hp; cbn [next_pow2_loop]; [done | ].
  destruct (p <? n); [ | done]. specialize (IH (2 * p)). lia.
Qed.

Lemma next_pow2_loop_le fuel p n : 0 < p -> next_pow2_loop fuel p n <= Z.max p (2 * n).
Proof.
  revert p. induction fuel as [ | fuel IH]; intros p Hp; cbn [next_pow2_loop]; [lia | ].
  destruct (Z.ltb_spec p n); [ | lia]. specialize (IH (2 * p)). lia.
Qed.

(** The loop stops at the first power that is large enough. *)
Lemma next_pow2_loop_lt fuel p n : 0 < p -> p < 2 * n -> next_pow2_loop fuel p n < 2 * n.
Proof.
  revert p. induction fuel as [ | fuel IH]; intros p Hp Hn; cbn [next_pow2_loop]; [done | ].
  destruct (Z.ltb_spec p n); [apply IH; lia | done].
Qed.

Lemma next_pow2_loop_pow fuel k n : exists j, next_pow2_loop fuel (2 ^ Z.of_nat k) n = 2 ^ Z.of_nat j.
Proof.
  revert k. induction fuel as [ | fuel IH]; intros k; cbn [next_pow2_loop]; [by exists k | ].
  destruct (_ <? n); [ | by exists k]. destruct (IH (S k)) as [j Hj]. exists j. rewrite <- Hj. f_equal. rewrite Nat2Z.inj_succ, Z.pow_succ_r; lia.
Qed.

Lemma range_bytes (p q : bytes) lo hi : get_range p lo hi = Some q -> bytes_ok p -> bytes_ok q.
Proof. unfold get_range. intros Hg Hp. dcase_in Hg; [ | done]. injection Hg as <-. by apply Forall_take, Forall_drop. Qed.

(** * The types of decoded values *)

(** NULL, or a value of the field's kind and in its range. *)
Definition typed (f : Field) (v : Value) : Prop := v = Null \/ value_ok f v.

Lemma le_bytes_mod_eq n a b : a mod 256 ^ Z.of_nat n = b mod 256 ^ Z.of_nat n -> le_bytes n a = le_bytes n b.
Proof.
  intros E. pose proof (le_bytes_le_value (le_bytes n a) (le_bytes_ok n a)) as Ha. pose proof (le_bytes_le_value (le_bytes n b) (le_bytes_ok n b)) as Hb.
  rewrite le_bytes_length, le_value_le_bytes in Ha, Hb. by rewrite <- Ha, <- Hb, E.
Qed.

Lemma signed_value_range raw : bytes_ok raw -> 1 <= zlen raw <= 16 ->
  - 128 * 256 ^ (zlen raw - 1) <= i128_from_le (extend16 true raw) < 128 * 256 ^ (zlen raw - 1).
Proof.
  intros Hb Hl. pose proof (le_value_bound raw Hb) as Hv. destruct (length raw) as [ | n] eqn:Hn; [unfold zlen in Hl; lia | ].
  assert (zlen raw = Z.of_nat (S n)) as Hz by (unfold zlen; by rewrite Hn). rewrite Hz in *. replace (Z.of_nat (S n) - 1) with (Z.of_nat n) by lia.
  rewrite Nat2Z.inj_succ, Z.pow_succ_r in Hv by lia. set (u := le_value raw) in *.
  pose (v := if u <? 128 * 256 ^ Z.of_nat n then u else u - 256 * 256 ^ Z.of_nat n).
  assert (- 128 * 256 ^ Z.of_nat n <= v < 128 * 256 ^ Z.of_nat n) as Hr by (unfold v; destruct (Z.ltb_spec u (128 * 256 ^ Z.of_nat n)); lia).
  assert (le_bytes (S n) v = raw) as Hraw.
  { rewrite <- (le_bytes_le_value raw Hb), Hn. fold u. apply le_bytes_mod_eq. rewrite Nat2Z.inj_succ, Z.pow_succ_r by lia. unfold v.
    destruct (_ <? _); [done | ]. rewrite <- (Z.mod_add u (-1) (256 * 256 ^ Z.of_nat n)) by lia. f_equal; lia. }
  rewrite <- Hraw, extend16_signed by (done || unfold zlen in *; lia). rewrite i128_from_le_bytes; [done | ].
  assert (256 ^ Z.of_nat n <= 256 ^ 15) by (apply Z.pow_le_mono_r; lia). change (256 ^ 15) with (2 ^ 120) in *. lia.
Qed.

Lemma value_from_raw_typed f raw : kind_ok (f_kind f) -> zlen raw = width (f_kind f) -> bytes_ok raw ->
  exists v, value_from_raw (f_kind f) raw = Ret v /\ typed f v.
Proof.
  intros Hk Hl Hb. unfold value_from_raw. destruct (is_signed (f_kind f)) eqn:Hs.
  - assert (1 <= zlen raw <= 16) as Hw by (rewrite Hl; by destruct (f_kind f); cbn in *; lia).
    rewrite (proj2 (Z.leb_le _ _)) by lia. eexists. split; [done | ]. right. split; [done | ]. rewrite <- Hl. by apply signed_value_range.
  - destruct (is_blob (f_kind f)) eqn:Hbl; eexists; (split; [done | ]); right.
    + split; [done | lia].
    + assert (zlen raw <= 16) as Hw by (rewrite Hl; by destruct (f_kind f); cbn in *; lia). split_and!; [done | done | ..].
      all: unfold extend16; cbn [andb]; rewrite le_value_zeros, take_ge by (unfold zlen in *; lia).
      all: pose proof (le_value_bound raw Hb) as Hv; rewrite Hl in Hv; apply Hv.
Qed.

Lemma decode_loop_typed rec bm fc fs : bytes_ok rec -> Forall (fun f => kind_ok (f_kind f)) fs -> forall i cur,
  exists r, decode_loop rec bm fc i (zip (place cur fs).1 fs) = Ret r /\ forall vs, r = inl vs -> Forall2 typed fs vs.
Proof.
  intros Hb. induction 1 as [ | f fs Hf Hfs IH]; intros i cur.
  { eexists. split; [done | ]. intros vs [= <-]. constructor. }
  rewrite place_fst. cbn [zip zip_with decode_loop]. pose proof (width_nonneg _ Hf).
  assert (exists r, (if (fc <=? i) || is_null bm i then Ret (inl Null) else
           match get_range rec cur (cur + width (f_kind f)) with
           | None => Ret (inr ShortRecord)
           | Some raw => v ← value_from_raw (f_kind f) raw; Ret (inl v)
           end) = Ret r /\ forall v, r = inl v -> typed f v) as (r & -> & Hr).
  { destruct (_ || _); [eexists; split; [done | intros v [= <-]; by left] | ].
    destruct (get_range rec cur _) as [raw | ] eqn:Hg; [ | by eexists].
    destruct (value_from_raw_typed f raw Hf) as (v & -> & Hv); [apply get_range_length in Hg; lia | by eapply range_bytes | ].
    eexists. split; [done | ]. by intros ? [= <-]. }
  ob. destruct r as [v | e]; [ | by eexists]. destruct (IH (i + 1) (cur + width (f_kind f))) as (r & -> & Hvs).
  ob. destruct r as [vs | e]; (eexists; split; [done | ]); [ | done]. intros ? [= <-]. constructor; [by apply Hr | by apply Hvs].
Qed.

Lemma decode_ret ot rec : Forall (fun f => kind_ok (f_kind f)) (fields ot) -> bytes_ok rec ->
  exists d, decode ot rec = Ret d /\ forall vs, d = inl vs -> Forall2 typed (fields ot) vs.
Proof.
  intros Hk Hb. unfold decode. destruct (Z.ltb_spec (zlen rec) HEADER_BYTES) as [ | Hl]; [by eexists | ].
  change HEADER_BYTES with 14 in Hl. change fc_off with 4. change bitmap_off with 6. change NULL_BITMAP_BYTES with 8.
  unfold get_range at 1 2. repeat zif_true. cbn [andb or_panic]. ob. rewrite compute_layout_eq by done. by apply decode_loop_typed.
Qed.

(** * Properties *)

(** C27: A row whose values fit their fields is encoded, the record has the size
    of the layout, and decoding it under any later version of the type, with
    fields appended, gives back every value (byte strings zero-padded to their
    width, integers with their sign) and NULL for every appended field. *)
Theorem codec_roundtrip ot ot' extra vs :
  zlen (fields ot) <= MAX_FIELDS -> row_ok (fields ot) vs ->
  fields ot' = fields ot ++ extra -> Forall (fun f => kind_ok (f_kind f)) extra ->
  exists rec, encode ot vs = Ret (inl rec) /\ zlen rec = record_size (compute_layout ot) /\
    decode ot' rec = Ret (inl (zip_with pad (fields ot) vs ++ replicate (length extra) Null)).
Proof.
  intros Hmax Hrow Hf Hx. destruct (encode_shape ot vs Hrow Hmax) as (n & He & Hn).
  pose proof (row_kinds _ _ Hrow) as Hk. unfold MAX_FIELDS in Hmax. pose proof (zlen_nonneg (fields ot)).
  pose proof (header_zlen ot vs) as Hh. pose proof (slots_zlen _ _ Hrow) as Hs.
  eexists. split; [exact He | ].
  split. { rewrite !zlen_app, zlen_replicate, Hh, Hs. change HEADER_BYTES with 14 in Hn. lia. }
  unfold decode. rewrite (proj2 (Z.ltb_ge _ _))
    by (rewrite !zlen_app, zlen_replicate, Hh, Hs; change HEADER_BYTES with 14; unfold total_width; lia).
  set (body := slots (fields ot) vs ++ _).
  rewrite (header_count ot vs body), (header_bitmap ot vs body). ob. cbn [or_panic]. ob.
  rewrite le_value_u16 by (unfold u16_ok, u16_max; lia).
  rewrite compute_layout_eq by (rewrite Hf; apply Forall_app; done). cbn [offsets]. rewrite Hf.
  change HEADER_BYTES with 14. rewrite <- Hh.
  eapply decode_loop_ok; [done | lia | reflexivity | ].
  intros k v Hkv. pose proof (lookup_lt_Some _ _ _ Hkv). pose proof (Forall2_length _ _ _ Hrow).
  rewrite is_null_marks by (change (zlen (replicate 8 0)) with 8; unfold zlen in *; lia).
  rewrite (proj2 (Z.leb_le 0 _)) by lia. replace (Z.to_nat (0 + Z.of_nat k - 0)) with k by lia.
  rewrite Hkv, is_null_zeros. done.
Qed.

(** C28: decoding is total and typed. Under any type, decoding any bytes returns
    and never panics, and the values it gives are one for each field of the
    type: NULL, or a value of the kind of the field and within its range. *)
Theorem decode_typed ot rec : Forall (fun f => kind_ok (f_kind f)) (fields ot) -> bytes_ok rec ->
  exists d, decode ot rec = Ret d /\ forall vs, d = inl vs -> Forall2 typed (fields ot) vs.
Proof. apply decode_ret. Qed.

(** C29: the layout of a type of at most 64 fields. The record's size is a power of two, at least 16,
    with room for the header and every field and less than twice that; every
    field lies behind the header and inside the record, and no two overlap. *)
Theorem layout_bounds ot : Forall (fun f => kind_ok (f_kind f)) (fields ot) -> zlen (fields ot) <= MAX_FIELDS ->
  let size := record_size (compute_layout ot) in
  let need := HEADER_BYTES + total_width (fields ot) in
  (exists k, size = 2 ^ Z.of_nat k) /\ 16 <= size /\ need <= size < 2 * need /\
  length (offsets (compute_layout ot)) = length (fields ot) /\
  (forall i off f, offsets (compute_layout ot) !! i = Some off -> fields ot !! i = Some f ->
     HEADER_BYTES <= off /\ off + width (f_kind f) <= size) /\
  (forall i j off off' f, (i < j)%nat -> offsets (compute_layout ot) !! i = Some off -> fields ot !! i = Some f ->
     offsets (compute_layout ot) !! j = Some off' -> off + width (f_kind f) <= off').
Proof.
  intros Hk Hc. unfold MAX_FIELDS in Hc. pose proof (total_width_bound _ Hk) as Hb. rewrite compute_layout_eq by done. cbn [record_size offsets].
  set (need := HEADER_BYTES + total_width (fields ot)). assert (need <= next_pow2 need) as Hn.
  { apply next_pow2_ge. unfold need. change HEADER_BYTES with 14. lia. }
  split_and!.
  - apply (next_pow2_loop_pow 64 4).
  - by apply next_pow2_loop_min.
  - done.
  - apply next_pow2_loop_lt; [done | ]. pose proof (total_width_nonneg (fields ot)). unfold need. change HEADER_BYTES with 14. lia.
  - apply place_length.
  - intros i off f Ho Hf. split; [by apply place_lookup in Ho as [? _] | ]. etrans; [ | exact Hn]. by eapply place_end.
  - intros i j off off' f Hij Ho Hf Ho'. by eapply place_before.
Qed.

Definition sample_ot : ObjectType := from_def [116] sample_fields.
Definition sample_row : list Value := [Int (-5); Null; Int 150].

Lemma sample_row_ok : row_ok (fields sample_ot) sample_row.
Proof.
  unfold row_ok, sample_row. cbn [fields sample_ot from_def]. unfold sample_fields.
  do 3 (apply Forall2_cons; split; [split; cbn; unfold u16_ok, u16_max; (done || lia) | ]). by apply Forall2_nil.
Qed.

Lemma codec_roundtrip_witness :
  exists rec, encode sample_ot sample_row = Ret (inl rec) /\ zlen rec = 64 /\
    decode (from_def [116] (sample_fields ++ [mkField 9 [120] Bool true])) rec =
    Ret (inl [Int (-5); Null; Int 150; Null]).
Proof.
  apply (codec_roundtrip sample_ot (from_def [116] (sample_fields ++ [mkField 9 [120] Bool true]))
    [mkField 9 [120] Bool true] sample_row); [done | apply sample_row_ok | reflexivity | by apply Forall_singleton].
Defined.

Lemma decode_typed_witness :
  exists d, decode sample_ot (replicate 64 255) = Ret d /\ forall vs, d = inl vs -> Forall2 typed (fields sample_ot) vs.
Proof.
  apply (decode_typed sample_ot (replicate 64 255)); [ | apply Forall_replicate; unfold byte_ok; lia].
  apply (row_kinds _ sample_row), sample_row_ok.
Defined.

Lemma layout_bounds_witness : exists k, record_size (compute_layout sample_ot) = 2 ^ Z.of_nat k.
Proof. apply (layout_bounds sample_ot); [apply (row_kinds _ sample_row), sample_row_ok | by vm_compute]. Defined.
