(* ===== verification/Crypto.v ===== *)
(** kessel-crypto: hashes, keyed hashes and base64.

    The word arithmetic is on [Z] below 2^32 with the wrap-around written out.
    The hash functions are checked on published vectors; base64 is proved to
    round trip.

    Source: src/crates/kessel-crypto/src/lib.rs. *)

From Stdlib Require Import ZArith Lia.
From stdpp Require Import base numbers list.
From S2P Require Import Prelude Reader.

#[local] Open Scope Z_scope.

Definition rotate_right (x n : Z) : Z := Z.lor (Z.shiftr x n) (wrap32 (Z.shiftl x (32 - n))).
Definition rotate_left (x n : Z) : Z := Z.lor (wrap32 (Z.shiftl x n)) (Z.shiftr x (32 - n)).
Definition not32 (x : Z) : Z := Z.lxor x u32_max.
Definition add32 (x y : Z) : Z := wrap32 (x + y).

(** [chunks_exact(n)]: the pieces of exactly [n] elements; the fuel is the
    length of the list, and a piece takes at least one element. *)
Fixpoint chunks_loop {A} (fuel n : nat) (l : list A) : list (list A) :=
  match fuel with
  | O => []
  | S fuel' => if (length l <? n)%nat then [] else take n l :: chunks_loop fuel' n (drop n l)
  end.
Definition chunks_exact {A} (n : nat) (l : list A) : list (list A) := chunks_loop (length l) n l.

(** The padding loop: zeros until the length is 56 modulo 64. *)
Fixpoint pad_loop (fuel : nat) (data : bytes) : bytes :=
  match fuel with
  | O => data
  | S fuel' => if zlen data mod 64 =? 56 then data else pad_loop fuel' (data ++ [0])
  end.

Definition padded (msg : bytes) : bytes :=
  let bitlen := wrap64 (zlen msg * 8) in
  pad_loop 64 (msg ++ [0x80]) ++ be_bytes 8 bitlen.

Definition block_words (block : bytes) : list Z := be_value <$> chunks_exact 4 block.

(** ** SHA-256 *)

(** The source writes [H0] and [K] as literals. Here they are computed from
    what FIPS 180-4 says they are: the first 32 bits of the fractional parts of
    the square roots of the first 8 primes and of the cube roots of the first
    64. The test vectors below depend on every one of them. *)
Module Sha256.
Definition is_prime (n : Z) : bool :=
  forallb (fun d => negb (n mod d =? 0)) (seqZ 2 (n - 2)).
Definition primes : list Z := List.filter is_prime (seqZ 2 310).

(** The integer cube root of [n], one bit at a time from [2 ^ b] down. *)
Fixpoint cbrt_bits (b : nat) (n r : Z) : Z :=
  let r1 := r + 2 ^ Z.of_nat b in
  let r2 := if r1 * r1 * r1 <=? n then r1 else r in
  match b with O => r2 | S b' => cbrt_bits b' n r2 end.

Definition H0 : list Z :=
  Eval vm_compute in (fun p => wrap32 (Z.sqrt (p * 2 ^ 64))) <$> take 8 primes.
Definition K : list Z :=
  Eval vm_compute in (fun p => wrap32 (cbrt_bits 35 (p * 2 ^ 96) 0)) <$> primes.
End Sha256.

(** The message schedule from [w\[i\]] on, [n] words more. *)
Fixpoint schedule256 (n : nat) (w : list Z) : list Z :=
  match n with
  | O => w
  | S n' =>
      let i := length w in
      let w15 := w !!! (i - 15)%nat in
      let w2 := w !!! (i - 2)%nat in
      let s0 := Z.lxor (Z.lxor (rotate_right w15 7) (rotate_right w15 18)) (Z.shiftr w15 3) in
      let s1 := Z.lxor (Z.lxor (rotate_right w2 17) (rotate_right w2 19)) (Z.shiftr w2 10) in
      schedule256 n' (w ++ [add32 (add32 (add32 (w !!! (i - 16)%nat) s0) (w !!! (i - 7)%nat)) s1])
  end.

Abbreviation State256 := (Z * Z * Z * Z * Z * Z * Z * Z)%type.

Definition round256 (st : State256) (kw : Z * Z) : State256 :=
  let '(a, b, c, d, e, f, g, hh) := st in
  let '(k, w) := kw in
  let s1 := Z.lxor (Z.lxor (rotate_right e 6) (rotate_right e 11)) (rotate_right e 25) in
  let ch := Z.lxor (Z.land e f) (Z.land (not32 e) g) in
  let t1 := add32 (add32 (add32 (add32 hh s1) ch) k) w in
  let s0 := Z.lxor (Z.lxor (rotate_right a 2) (rotate_right a 13)) (rotate_right a 22) in
  let maj := Z.lxor (Z.lxor (Z.land a b) (Z.land a c)) (Z.land b c) in
  let t2 := add32 s0 maj in
  (add32 t1 t2, a, b, c, add32 d t1, e, f, g).

Definition compress256 (h : list Z) (block : bytes) : list Z :=
  let w := schedule256 48 (block_words block) in
  match h with
  | [h0; h1; h2; h3; h4; h5; h6; h7] =>
      let '(a, b, c, d, e, f, g, hh) := fold_left round256 (zip Sha256.K w) (h0, h1, h2, h3, h4, h5, h6, h7) in
      zip_with add32 h [a; b; c; d; e; f; g; hh]
  | _ => h
  end.

Definition digest_bytes (h : list Z) : bytes := concat (be_bytes 4 <$> h).

Definition sha256 (msg : bytes) : bytes :=
  digest_bytes (fold_left compress256 (chunks_exact 64 (padded msg)) Sha256.H0).

(** ** SHA-1 *)

Fixpoint schedule1 (n : nat) (w : list Z) : list Z :=
  match n with
  | O => w
  | S n' =>
      let i := length w in
      schedule1 n' (w ++ [rotate_left (Z.lxor (Z.lxor (Z.lxor (w !!! (i - 3)%nat) (w !!! (i - 8)%nat))
                                         (w !!! (i - 14)%nat)) (w !!! (i - 16)%nat)) 1])
  end.

Definition round1 (st : Z * Z * Z * Z * Z) (iw : Z * Z) : Z * Z * Z * Z * Z :=
  let '(a, b, c, d, e) := st in
  let '(i, wi) := iw in
  let '(f, k) :=
    if i <=? 19 then (Z.lor (Z.land b c) (Z.land (not32 b) d), 0x5A827999)
    else if i <=? 39 then (Z.lxor (Z.lxor b c) d, 0x6ED9EBA1)
    else if i <=? 59 then (Z.lor (Z.lor (Z.land b c) (Z.land b d)) (Z.land c d), 0x8F1BBCDC)
    else (Z.lxor (Z.lxor b c) d, 0xCA62C1D6) in
  let temp := add32 (add32 (add32 (add32 (rotate_left a 5) f) e) k) wi in
  (temp, a, rotate_left b 30, c, d).

Definition compress1 (h : list Z) (block : bytes) : list Z :=
  let w := schedule1 64 (block_words block) in
  match h with
  | [h0; h1; h2; h3; h4] =>
      let '(a, b, c, d, e) := fold_left round1 (zip (seqZ 0 80) w) (h0, h1, h2, h3, h4) in
      zip_with add32 h [a; b; c; d; e]
  | _ => h
  end.

Definition sha1 (msg : bytes) : bytes :=
  digest_bytes (fold_left compress1 (chunks_exact 64 (padded msg))
                  [0x67452301; 0xEFCDAB89; 0x98BADCFE; 0x10325476; 0xC3D2E1F0]).

(** ** Keyed hashes *)

Definition hmac_block : Z := 64.

Definition hmac_sha256 (key msg : bytes) : bytes :=
  let k0 := if hmac_block <? zlen key then sha256 key else key in
  let k := k0 ++ replicate (Z.to_nat (hmac_block - zlen k0)) 0 in
  let ipad := (fun x => Z.lxor x 0x36) <$> k in
  let opad := (fun x => Z.lxor x 0x5c) <$> k in
  let ih := sha256 (ipad ++ msg) in
  sha256 (opad ++ ih).

Fixpoint pbkdf2_loop (n : nat) (password u t : bytes) : bytes :=
  match n with
  | O => t
  | S n' =>
      let u := hmac_sha256 password u in
      pbkdf2_loop n' password u (zip_with Z.lxor t u)
  end.

Definition pbkdf2_hmac_sha256 (password salt : bytes) (iterations : Z) : outcome bytes :=
  if iterations =? 0 then Panic else
  let u := hmac_sha256 password (salt ++ be_bytes 4 1) in
  Ret (pbkdf2_loop (Z.to_nat (iterations - 1)) password u u).

(** ** Text *)

Definition hex_digit (x : Z) : Z := if x <? 10 then 48 + x else 87 + x.
Definition hex (bs : bytes) : bytes := concat ((fun b => [hex_digit (b / 16); hex_digit (b mod 16)]) <$> bs).

Definition ALPHABET : bytes :=
  ((fun i => 65 + i) <$> seqZ 0 26) ++ ((fun i => 97 + i) <$> seqZ 0 26) ++
  ((fun i => 48 + i) <$> seqZ 0 10) ++ [43; 47].

Definition alpha (x : Z) : Z := ALPHABET !!! Z.to_nat (Z.land x 63).
Definition PAD : Z := 61.

Definition encode_chunk (b0 : Z) (b1 b2 : option Z) : bytes :=
  let n := Z.lor (Z.lor (Z.shiftl b0 16) (Z.shiftl (default 0 b1) 8)) (default 0 b2) in
  [alpha (Z.shiftr n 18); alpha (Z.shiftr n 12);
   match b1 with Some _ => alpha (Z.shiftr n 6) | None => PAD end;
   match b2 with Some _ => alpha n | None => PAD end].

Fixpoint base64_encode (input : bytes) : bytes :=
  match input with
  | b0 :: b1 :: b2 :: rest => encode_chunk b0 (Some b1) (Some b2) ++ base64_encode rest
  | [b0; b1] => encode_chunk b0 (Some b1) None
  | [b0] => encode_chunk b0 None None
  | [] => []
  end.

Definition b64_val (b : Z) : option Z :=
  if (65 <=? b) && (b <=? 90) then Some (b - 65)
  else if (97 <=? b) && (b <=? 122) then Some (b - 97 + 26)
  else if (48 <=? b) && (b <=? 57) then Some (b - 48 + 52)
  else if b =? 43 then Some 62
  else if b =? 47 then Some 63
  else None.

(** One group of four characters; padding is allowed in the last group only. *)
Definition decode_chunk (is_last : bool) (c0 c1 c2 c3 : Z) : option bytes :=
  let pad2 := c2 =? PAD in
  let pad3 := c3 =? PAD in
  if (pad2 || pad3) && negb is_last then None else
  if pad2 && negb pad3 then None else
  v0 ← b64_val c0;
  v1 ← b64_val c1;
  v2 ← (if pad2 then Some 0 else b64_val c2);
  v3 ← (if pad3 then Some 0 else b64_val c3);
  let n := Z.lor (Z.lor (Z.lor (Z.shiftl v0 18) (Z.shiftl v1 12)) (Z.shiftl v2 6)) v3 in
  Some ([Z.shiftr n 16 mod 256] ++ (if pad2 then [] else [Z.shiftr n 8 mod 256]) ++
        (if pad3 then [] else [n mod 256])).

Fixpoint decode_chunks (bs : bytes) : option bytes :=
  match bs with
  | [] => Some []
  | c0 :: c1 :: c2 :: c3 :: rest =>
      out ← decode_chunk (bool_decide (rest = [])) c0 c1 c2 c3;
      more ← decode_chunks rest;
      Some (out ++ more)
  | _ => None
  end.

Definition base64_decode (input : bytes) : option bytes :=
  if negb (zlen input mod 4 =? 0) then None else decode_chunks input.

(** * Padding and published vectors *)

Lemma pad_loop_mod fuel data : (56 - zlen data) mod 64 <= Z.of_nat fuel -> zlen (pad_loop fuel data) mod 64 = 56.
Proof.
  revert data. induction fuel as [ | fuel IH]; intros data Hf; cbn [pad_loop].
  - zdiv.
  - destruct (Z.eqb_spec (zlen data mod 64) 56); [done | ]. apply IH. rewrite zlen_app, zlen_cons, zlen_nil. zdiv.
Qed.

(** The padding loop ends, and the padded message is whole blocks. *)
Lemma padded_blocks msg : zlen (padded msg) mod 64 = 0.
Proof.
  unfold padded. rewrite zlen_app, be_bytes_zlen.
  pose proof (pad_loop_mod 64 (msg ++ [0x80]) ltac:(zdiv)). zdiv.
Qed.

Example sha256_empty : hex (sha256 []) = hex (be_bytes 32
  0xe3b0c44298fc1c149afbf4c8996fb92427ae41e4649b934ca495991b7852b855).
Proof. vm_compute. reflexivity. Qed.

Example sha256_abc : sha256 [97; 98; 99] =
  be_bytes 32 0xba7816bf8f01cfea414140de5dae2223b00361a396177a9cb410ff61f20015ad.
Proof. vm_compute. reflexivity. Qed.

Example sha1_abc : sha1 [97; 98; 99] = be_bytes 20 0xa9993e364706816aba3e25717850c26c9cd0d89d.
Proof. vm_compute. reflexivity. Qed.

(** RFC 4231, test case 1. *)
Example hmac_rfc4231 : hmac_sha256 (replicate 20 0x0b) [72; 105; 32; 84; 104; 101; 114; 101] =
  be_bytes 32 0xb0344c61d8db38535ca8afceaf0bf12b881dc200c9833da726e9376c2e32cff7.
Proof. vm_compute. reflexivity. Qed.

(** * Base64 *)

Lemma lor_shift_add a b k : 0 <= k -> 0 <= b < 2 ^ k -> Z.lor (Z.shiftl a k) b = a * 2 ^ k + b.
Proof.
  intros Hk Hb. rewrite <- (Z.shiftl_mul_pow2 a k) by lia.
  assert (Z.land (Z.shiftl a k) b = 0) as H.
  { apply Z.bits_inj'. intros n Hn. rewrite Z.land_spec, Z.bits_0.
    destruct (Z.lt_ge_cases n k); [by rewrite Z.shiftl_spec_low | ].
    rewrite <- (Z.mod_small b (2 ^ k)), Z.mod_pow2_bits_high, andb_false_r by lia. done. }
  by rewrite Z.add_nocarry_lxor, Z.lxor_lor.
Qed.

Lemma alpha_mod x : alpha x = ALPHABET !!! Z.to_nat (x mod 64).
Proof. unfold alpha. change 63 with (Z.ones 6). by rewrite Z.land_ones. Qed.

(** Every digit decodes to itself and is no padding. *)
Lemma val_digit k : 0 <= k < 64 -> b64_val (ALPHABET !!! Z.to_nat k) = Some k /\ ALPHABET !!! Z.to_nat k <> PAD.
Proof.
  intros Hk. pose (ok k := bool_decide (b64_val (ALPHABET !!! Z.to_nat k) = Some k /\ ALPHABET !!! Z.to_nat k <> PAD)).
  assert (forallb ok (seqZ 0 64) = true) as H by (vm_compute; reflexivity).
  assert (In k (seqZ 0 64)) as Hin by (apply list_elem_of_In, elem_of_seqZ; lia).
  rewrite forallb_forall in H. apply (bool_decide_eq_true_1 _ (H k Hin)).
Qed.

Lemma val_alpha x : b64_val (alpha x) = Some (x mod 64).
Proof. rewrite alpha_mod. apply val_digit. zdiv. Qed.

Lemma alpha_pad x : (alpha x =? PAD) = false.
Proof. rewrite alpha_mod. apply Z.eqb_neq, val_digit. zdiv. Qed.

(** The 24 bits of a group, split and joined in sixes. *)
Lemma sixes n : 0 <= n < 2 ^ 24 ->
  Z.lor (Z.lor (Z.lor (Z.shiftl (Z.shiftr n 18 mod 64) 18) (Z.shiftl (Z.shiftr n 12 mod 64) 12))
           (Z.shiftl (Z.shiftr n 6 mod 64) 6)) (n mod 64) = n.
Proof.
  intros Hn. rewrite !Z.shiftr_div_pow2 by lia.
  change (2 ^ 18) with 262144. change (2 ^ 12) with 4096. change (2 ^ 6) with 64.
  rewrite <- !Z.lor_assoc. rewrite (lor_shift_add _ (n mod 64) 6) by zdiv.
  rewrite (lor_shift_add _ (_ * 2 ^ 6 + _) 12) by (change (2 ^ 6) with 64; zdiv).
  rewrite lor_shift_add by (change (2 ^ 6) with 64; change (2 ^ 12) with 4096; zdiv).
  change (2 ^ 18) with 262144. change (2 ^ 12) with 4096. change (2 ^ 6) with 64. zdiv.
Qed.

Lemma octets b0 b1 b2 : byte_ok b0 -> byte_ok b1 -> byte_ok b2 ->
  Z.lor (Z.lor (Z.shiftl b0 16) (Z.shiftl b1 8)) b2 = b0 * 65536 + b1 * 256 + b2.
Proof.
  unfold byte_ok. intros H0 H1 H2. rewrite <- Z.lor_assoc, (lor_shift_add b1 b2 8) by lia.
  rewrite lor_shift_add by (change (2 ^ 8) with 256; lia). lia.
Qed.

Lemma decode_encode_chunk3 last b0 b1 b2 : byte_ok b0 -> byte_ok b1 -> byte_ok b2 ->
  match encode_chunk b0 (Some b1) (Some b2) with
  | [c0; c1; c2; c3] => decode_chunk last c0 c1 c2 c3
  | _ => None
  end = Some [b0; b1; b2].
Proof.
  intros H0 H1 H2. unfold encode_chunk, decode_chunk. cbn [from_option]. unfold id. rewrite octets by done.
  unfold byte_ok in *. set (n := b0 * 65536 + b1 * 256 + b2).
  rewrite !alpha_pad. cbn [orb andb]. rewrite !val_alpha. ob. cbn [app]. rewrite sixes by (subst n; lia).
  rewrite !Z.shiftr_div_pow2 by lia. change (2 ^ 16) with 65536. change (2 ^ 8) with 256. subst n.
  do 2 f_equal; [zdiv | f_equal; [zdiv | f_equal; zdiv]].
Qed.

Lemma decode_encode_chunk2 b0 b1 : byte_ok b0 -> byte_ok b1 ->
  match encode_chunk b0 (Some b1) None with
  | [c0; c1; c2; c3] => decode_chunk true c0 c1 c2 c3
  | _ => None
  end = Some [b0; b1].
Proof.
  intros H0 H1. unfold encode_chunk, decode_chunk. cbn [from_option]. unfold id.
  rewrite octets by (done || unfold byte_ok; lia).
  unfold byte_ok in *. set (n := b0 * 65536 + b1 * 256 + 0).
  rewrite !alpha_pad, Z.eqb_refl. cbn [orb andb negb]. rewrite !val_alpha. ob. cbn [app].
  pose proof (sixes n ltac:(subst n; lia)) as Hs. replace (n mod 64) with 0 in Hs by (subst n; zdiv). rewrite Hs.
  rewrite !Z.shiftr_div_pow2 by lia. change (2 ^ 16) with 65536. change (2 ^ 8) with 256. subst n.
  do 2 f_equal; [zdiv | f_equal; zdiv].
Qed.

Lemma decode_encode_chunk1 b0 : byte_ok b0 ->
  match encode_chunk b0 None None with
  | [c0; c1; c2; c3] => decode_chunk true c0 c1 c2 c3
  | _ => None
  end = Some [b0].
Proof.
  intros H0. unfold encode_chunk, decode_chunk. cbn [from_option]. unfold id.
  rewrite octets by (done || unfold byte_ok; lia).
  unfold byte_ok in *. set (n := b0 * 65536 + 0 * 256 + 0).
  rewrite Z.eqb_refl. cbn [orb andb negb]. rewrite !val_alpha. ob. cbn [app].
  pose proof (sixes n ltac:(subst n; lia)) as Hs. replace (n mod 64) with 0 in Hs by (subst n; zdiv).
  replace (Z.shiftr n 6 mod 64) with 0 in Hs
    by (rewrite Z.shiftr_div_pow2 by lia; change (2 ^ 6) with 64; subst n; zdiv).
  rewrite Hs.
  rewrite !Z.shiftr_div_pow2 by lia. change (2 ^ 16) with 65536. subst n. do 2 f_equal. zdiv.
Qed.

(** Induction over groups of three. *)
Lemma triples_ind (P : bytes -> Prop) :
  P [] -> (forall a, P [a]) -> (forall a b, P [a; b]) ->
  (forall a b c l, P l -> P (a :: b :: c :: l)) -> forall l, P l.
Proof.
  intros H0 H1 H2 H3. fix IH 1. intros [ | a [ | b [ | c l]]]; [done | apply H1 | apply H2 | ].
  apply H3, IH.
Qed.

Lemma decode_chunks_encode l : bytes_ok l -> decode_chunks (base64_encode l) = Some l.
Proof.
  induction l as [ | a | a b | a b c l IH] using triples_ind; intros Hl; [done | | | ].
  - inversion_clear Hl as [ | ? ? Ha _]. pose proof (decode_encode_chunk1 a Ha) as H.
    cbn [base64_encode]. unfold encode_chunk in *. cbn [decode_chunks]. rewrite bool_decide_eq_true_2 by done.
    by rewrite H.
  - inversion_clear Hl as [ | ? ? Ha Hr]. inversion_clear Hr as [ | ? ? Hb _].
    pose proof (decode_encode_chunk2 a b Ha Hb) as H.
    cbn [base64_encode]. unfold encode_chunk in *. cbn [decode_chunks]. rewrite bool_decide_eq_true_2 by done.
    by rewrite H.
  - inversion_clear Hl as [ | ? ? Ha Hr]. inversion_clear Hr as [ | ? ? Hb Hr']. inversion_clear Hr' as [ | ? ? Hc Hl].
    pose proof (decode_encode_chunk3 (bool_decide (base64_encode l = [])) a b c Ha Hb Hc) as H.
    cbn [base64_encode]. unfold encode_chunk in *. cbn [app decode_chunks]. rewrite H, IH by done. done.
Qed.

Lemma encode_length l : zlen (base64_encode l) mod 4 = 0.
Proof.
  induction l as [ | a | a b | a b c l IH] using triples_ind; [done.. | ].
  cbn [base64_encode]. rewrite zlen_app. change (zlen (encode_chunk a (Some b) (Some c))) with 4. zdiv.
Qed.

(** * Properties *)

(** Base64 of any bytes has whole groups of four characters and decodes to
    the bytes it was made from. *)
Theorem base64_roundtrip bs : bytes_ok bs ->
  zlen (base64_encode bs) mod 4 = 0 /\ base64_decode (base64_encode bs) = Some bs.
Proof.
  intros Hb. pose proof (encode_length bs) as Hl. split; [done | ]. unfold base64_decode. rewrite Hl.
  by apply decode_chunks_encode.
Qed.

Lemma base64_roundtrip_witness : base64_decode (base64_encode [77; 97; 110; 0; 255]) = Some [77; 97; 110; 0; 255].
Proof. apply (base64_roundtrip [77; 97; 110; 0; 255]). lit. Defined.
