(* ===== verification/Expr.v ===== *)
(** kessel-expr: the bytecode of CHECK constraints, triggers and filters.

    Programs are byte strings run on a stack of values against one record.
    [run_with] is the interpreter with the comparison of two values as an
    argument: [run] uses [cmp_values], the one of the source; the compiled
    filters of [Filter] are related to another one.

    Source: src/crates/kessel-expr/src/lib.rs, up to [eval_trigger]. *)

From Stdlib Require Import ZArith Lia.
From stdpp Require Import base numbers list.
From S2P Require Import Prelude BTree Reader Catalog Codec Crypto.

#[local] Open Scope Z_scope.

Definition GAS_LIMIT : Z := 100000.

(** The values of the stack; [i128] integers are in their range. *)
Inductive EValue :=
  | VInt (n : Z)
  | VBytes (b : bytes)
  | VNull.

#[global] Instance EValue_eq_dec : EqDecision EValue.
Proof. solve_decision. Defined.

Inductive ExprError :=
  | BadProgram
  | StackUnderflow
  | DivByZero
  | OutOfGas
  | TypeMismatch
  | EmptyResult.

(** ** Text *)

Fixpoint drop_while (p : Z -> bool) (b : bytes) : bytes :=
  match b with
  | [] => []
  | x :: b' => if p x then drop_while p b' else b
  end.

(** The bytes up to the last one that [p] does not hold of. *)
Definition rtrim (p : Z -> bool) (b : bytes) : bytes := rev (drop_while p (rev b)).

Definition right_trim_char_pad (b : bytes) : bytes := rtrim (fun c => (c =? 0) || (c =? 32)) b.

Definition PERCENT : Z := 37.
Definition UNDERSCORE : Z := 95.

(** The loop of [like_match]: positions in text and pattern, the last [%] and
    the text position it was last tried at. *)
Fixpoint like_loop (fuel : nat) (s p : bytes) (i j : nat) (star : option nat) (mark : nat) : option (option nat) :=
  match fuel with
  | O => None
  | S fuel' =>
      match s !! i with
      | None => Some (Some j)
      | Some c =>
          let pj := p !! j in
          if bool_decide (pj = Some UNDERSCORE \/ pj = Some c) then like_loop fuel' s p (S i) (S j) star mark
          else if bool_decide (pj = Some PERCENT) then like_loop fuel' s p i (S j) (Some j) i
          else
            match star with
            | Some sj => like_loop fuel' s p (S mark) (S sj) star (S mark)
            | None => Some None
            end
      end
  end.

Definition like_fuel (s p : bytes) : nat := S ((S (length s)) * (S (length p)))%nat.

(** [like_match]; the fuel is shown to be enough. *)
Definition like_match (s p : bytes) : bool :=
  match like_loop (like_fuel s p) s p 0 0 None 0 with
  | Some (Some j) => forallb (fun c => c =? PERCENT) (drop j p)
  | _ => false
  end.

(** ** Records *)

Definition is_codec_record (ot : ObjectType) (rec : bytes) : bool :=
  match get_range rec SCHEMA_VER_BYTES (SCHEMA_VER_BYTES + 2) with
  | None => false
  | Some b =>
      let fc := le_value b in
      if (fc =? 0) || (zlen (fields ot) <? fc) then false else
      let prefix := from_def (ot_name ot) (take (Z.to_nat fc) (fields ot)) in
      zlen rec =? record_size (compute_layout prefix)
  end.

(** The stored field count and the bitmap of a record. *)
Definition stored_fc (rec : bytes) : Z :=
  le_value (default [] (get_range rec SCHEMA_VER_BYTES (SCHEMA_VER_BYTES + 2))).
Definition null_bit (rec : bytes) (i : Z) : bool :=
  match get_range rec (SCHEMA_VER_BYTES + 2) (SCHEMA_VER_BYTES + 2 + 8) ≫= (fun bm => get_at bm (i / 8)) with
  | Some x => negb (Z.land x (Z.shiftl 1 (i mod 8)) =? 0)
  | None => true
  end.

Definition field_is_null (ot : ObjectType) (rec : bytes) (i : Z) : bool :=
  if negb (is_codec_record ot rec) then false
  else if stored_fc rec <=? i then true
  else null_bit rec i.

(** The bytes of a field as a stack value. *)
Definition load_raw (k : FieldKind) (raw : bytes) : EValue :=
  if is_blob k then VBytes raw
  else VInt (i128_from_le (extend16 (is_signed k) (take 16 raw))).

Definition load_field (ot : ObjectType) (rec : bytes) (fid : Z) : EValue :=
  match field_index ot fid with
  | None => VNull
  | Some i =>
      if field_is_null ot rec i then VNull else
      match offsets (compute_layout ot) !! Z.to_nat i, fields ot !! Z.to_nat i with
      | Some off, Some f =>
          match get_range rec off (off + width (f_kind f)) with
          | Some raw => load_raw (f_kind f) raw
          | None => VNull
          end
      | _, _ => VNull
      end
  end.

Definition truthy (v : EValue) : bool :=
  match v with
  | VInt n => negb (n =? 0)
  | _ => false
  end.

(** [work\[at\] = f(work\[at\])]. *)
Definition update_byte (work : bytes) (at_ : Z) (f : Z -> Z) : outcome bytes :=
  match get_at work at_ with
  | Some x => Ret (<[Z.to_nat at_ := f x]> work)
  | None => Panic
  end.

Definition codec_shaped (ot : ObjectType) (work : bytes) : bool :=
  (zlen work =? record_size (compute_layout ot)) && (stored_fc work =? zlen (fields ot)).

Definition bit_at (i : Z) : Z := SCHEMA_VER_BYTES + 2 + i / 8.
Definition clear_null (shaped : bool) (i : Z) (work : bytes) : outcome bytes :=
  if shaped then update_byte work (bit_at i) (fun x => Z.land x (Z.lxor 255 (Z.shiftl 1 (i mod 8)))) else Ret work.
Definition mark_null (shaped : bool) (i : Z) (work : bytes) : outcome bytes :=
  if shaped then update_byte work (bit_at i) (fun x => Z.lor x (Z.shiftl 1 (i mod 8))) else Ret work.

(** The field at index [i], [w] bytes at [off]; an integer does not fit a field
    of more than 16 bytes and panics. *)
Definition write_at_field (shaped : bool) (work : bytes) (i off w : Z) (val : EValue) : outcome bytes :=
  match val with
  | VInt n =>
      if 16 <? w then Panic else
      work ← copy_into work off (take (Z.to_nat w) (le_bytes 16 n));
      clear_null shaped i work
  | VBytes b =>
      let n := Z.min (zlen b) w in
      work ← copy_into work off (take (Z.to_nat n) b ++ replicate (Z.to_nat (w - n)) 0);
      clear_null shaped i work
  | VNull =>
      work ← copy_into work off (replicate (Z.to_nat w) 0);
      mark_null shaped i work
  end.

Definition write_field (ot : ObjectType) (work : bytes) (fid : Z) (val : EValue) : outcome bytes :=
  match field_index ot fid with
  | None => Ret work
  | Some i =>
      match offsets (compute_layout ot) !! Z.to_nat i, fields ot !! Z.to_nat i with
      | Some off, Some f =>
          if zlen work <? off + width (f_kind f) then Ret work
          else write_at_field (codec_shaped ot work) work i off (width (f_kind f)) val
      | _, _ => Ret work
      end
  end.

(** ** Instructions *)

Inductive CmpOp := CmpEq | CmpNe | CmpLt | CmpLe | CmpGt | CmpGe.
Inductive ArithOp := Add | Sub | Mul | Div | Mod.

Inductive Instr :=
  | PushInt (n : Z)
  | PushBytes (b : bytes)
  | LoadField (fid : Z)
  | IsNull (fid : Z)
  | Compare (op : CmpOp)
  | Arith (op : ArithOp)
  | And | Or | Not
  | Like | Sha | Hmac
  | SetField (fid : Z)
  | RejectRow.

(** The instruction at [pc] and the position behind it; [None] is a truncated
    operand or an unknown opcode. *)
Definition fetch (code : bytes) (pc : Z) : option (Instr * Z) :=
  let u16_at p := le_value <$> get_range code p (p + 2) in
  op ← get_at code pc;
  let pc := pc + 1 in
  match op with
  | 0 => b ← get_range code pc (pc + 16); Some (PushInt (i128_from_le b), pc + 16)
  | 17 => l ← u16_at pc; b ← get_range code (pc + 2) (pc + 2 + l); Some (PushBytes b, pc + 2 + l)
  | 1 => fid ← u16_at pc; Some (LoadField fid, pc + 2)
  | 2 => fid ← u16_at pc; Some (IsNull fid, pc + 2)
  | 3 => Some (Compare CmpEq, pc)
  | 4 => Some (Compare CmpNe, pc)
  | 5 => Some (Compare CmpLt, pc)
  | 6 => Some (Compare CmpLe, pc)
  | 7 => Some (Compare CmpGt, pc)
  | 8 => Some (Compare CmpGe, pc)
  | 9 => Some (Arith Add, pc)
  | 10 => Some (Arith Sub, pc)
  | 11 => Some (Arith Mul, pc)
  | 12 => Some (Arith Div, pc)
  | 13 => Some (Arith Mod, pc)
  | 14 => Some (And, pc)
  | 15 => Some (Or, pc)
  | 16 => Some (Not, pc)
  | 18 => fid ← u16_at pc; Some (SetField fid, pc + 2)
  | 19 => Some (RejectRow, pc)
  | 20 => Some (Like, pc)
  | 21 => Some (Sha, pc)
  | 22 => Some (Hmac, pc)
  | _ => None
  end.

(** ** The interpreter *)

Definition wrap_i128 (z : Z) : Z :=
  let r := z mod 2 ^ 128 in if r <? 2 ^ 127 then r else r - 2 ^ 128.

(** Wrapping arithmetic; division truncates. *)
Definition arith (op : ArithOp) (x y : Z) : Z + ExprError :=
  match op with
  | Add => inl (wrap_i128 (x + y))
  | Sub => inl (wrap_i128 (x - y))
  | Mul => inl (wrap_i128 (x * y))
  | Div => if y =? 0 then inr DivByZero else inl (wrap_i128 (Z.quot x y))
  | Mod => if y =? 0 then inr DivByZero else inl (Z.rem x y)
  end.

Definition cmp_apply (o : comparison) (op : CmpOp) : bool :=
  match op, o with
  | CmpEq, Eq => true
  | CmpEq, _ => false
  | CmpNe, Eq => false
  | CmpNe, _ => true
  | CmpLt, Lt => true
  | CmpLt, _ => false
  | CmpLe, Gt => false
  | CmpLe, _ => true
  | CmpGt, Gt => true
  | CmpGt, _ => false
  | CmpGe, Lt => false
  | CmpGe, _ => true
  end.

Definition cmp_bytes (x y : bytes) : comparison := list_cmp (right_trim_char_pad x) (right_trim_char_pad y).

(** [EQ] and [NE] compare any two values, the orders only values of one type. *)
Definition eq_values (a b : EValue) : bool :=
  match a, b with
  | VBytes x, VBytes y => bool_decide (right_trim_char_pad x = right_trim_char_pad y)
  | _, _ => bool_decide (a = b)
  end.

Definition ord_values (op : CmpOp) (a b : EValue) : bool :=
  match a, b with
  | VInt x, VInt y => cmp_apply (x ?= y) op
  | VBytes x, VBytes y => cmp_apply (cmp_bytes x y) op
  | _, _ => false
  end.

Definition cmp_values (op : CmpOp) (a b : EValue) : bool :=
  match op with
  | CmpEq => eq_values a b
  | CmpNe => negb (eq_values a b)
  | _ => ord_values op a b
  end.

Definition hash_bytes (v : EValue) : bytes :=
  match v with
  | VBytes b => b
  | VInt n => le_bytes 16 n
  | VNull => []
  end.

Definition like_values (val pat : EValue) : bool :=
  match val, pat with
  | VBytes v, VBytes p => like_match (rtrim (fun c => c =? 0) v) p
  | _, _ => false
  end.

(** What one instruction does: go on, stop with a rejected row, or fail. *)
Inductive step_end :=
  | Next (st : list EValue) (work : bytes)
  | Rejected
  | Failed (e : ExprError).

Definition push_bool (b : bool) (st : list EValue) (work : bytes) : outcome step_end :=
  Ret (Next (VInt (b2z b) :: st) work).

Section Interpreter.
Context (cmpf : CmpOp -> EValue -> EValue -> bool) (ot : ObjectType) (rec : bytes).

Definition exec (i : Instr) (st : list EValue) (work : bytes) : outcome step_end :=
  match i, st with
  | PushInt n, _ => Ret (Next (VInt n :: st) work)
  | PushBytes b, _ => Ret (Next (VBytes b :: st) work)
  | LoadField fid, _ => Ret (Next (load_field ot rec fid :: st) work)
  | IsNull fid, _ => push_bool (bool_decide (load_field ot rec fid = VNull)) st work
  | Compare op, b :: a :: st => push_bool (cmpf op a b) st work
  | Arith op, VInt y :: VInt x :: st =>
      match arith op x y with
      | inl r => Ret (Next (VInt r :: st) work)
      | inr e => Ret (Failed e)
      end
  | Arith _, _ :: _ :: _ => Ret (Failed TypeMismatch)
  | And, b :: a :: st => push_bool (truthy a && truthy b) st work
  | Or, b :: a :: st => push_bool (truthy a || truthy b) st work
  | Not, a :: st => push_bool (negb (truthy a)) st work
  | Like, pat :: val :: st => push_bool (like_values val pat) st work
  | Sha, v :: st => Ret (Next (VBytes (sha256 (hash_bytes v)) :: st) work)
  | Hmac, key :: msg :: st => Ret (Next (VBytes (hmac_sha256 (hash_bytes key) (hash_bytes msg)) :: st) work)
  | SetField fid, v :: st => work ← write_field ot work fid v; Ret (Next st work)
  | RejectRow, _ => Ret Rejected
  | _, _ => Ret (Failed StackUnderflow)
  end.

Record RunEnd := mkRunEnd { rejected : bool; top : option EValue; final_work : bytes }.

(** The loop from [pc] on. Every instruction has at least one byte, so the
    length of the program is enough fuel. *)
Fixpoint run_loop (fuel : nat) (code : bytes) (pc gas : Z) (st : list EValue) (work : bytes) :
    outcome (RunEnd + ExprError) :=
  if zlen code <=? pc then Ret (inl (mkRunEnd false (head st) work)) else
  match fuel with
  | O => Panic
  | S fuel' =>
      if GAS_LIMIT <? gas + 1 then Ret (inr OutOfGas) else
      match fetch code pc with
      | None => Ret (inr BadProgram)
      | Some (i, pc') =>
          r ← exec i st work;
          match r with
          | Next st' work' => run_loop fuel' code pc' (gas + 1) st' work'
          | Rejected => Ret (inl (mkRunEnd true None work))
          | Failed e => Ret (inr e)
          end
      end
  end.

Definition run_with (code work : bytes) : outcome (RunEnd + ExprError) :=
  run_loop (length code) code 0 0 [] work.

Definition eval_with (code : bytes) : outcome (bool + ExprError) :=
  r ← run_with code rec;
  match r with
  | inr e => Ret (inr e)
  | inl end_ =>
      match top end_ with
      | Some v => Ret (inl (truthy v))
      | None => Ret (inr EmptyResult)
      end
  end.
End Interpreter.

Definition run (code : bytes) (ot : ObjectType) (rec work : bytes) : outcome (RunEnd + ExprError) :=
  run_with cmp_values ot rec code work.

Definition eval (code : bytes) (ot : ObjectType) (rec : bytes) : outcome (bool + ExprError) :=
  eval_with cmp_values ot rec code.

Definition eval_trigger (code : bytes) (ot : ObjectType) (rec : bytes) : outcome (option bytes + ExprError) :=
  r ← run code ot rec rec;
  match r with
  | inr e => Ret (inr e)
  | inl end_ => Ret (inl (if rejected end_ then None else Some (final_work end_)))
  end.
