(* ===== verification/ExprSpec.v ===== *)
(** kessel-expr: LIKE, and that programs end.

    The matcher with one backtrack point is compared with the recursive
    meaning of a pattern; the interpreter is shown to end on every byte string.

    Source: src/crates/kessel-expr/src/lib.rs. *)

From Stdlib Require Import ZArith Lia.
From stdpp Require Import base numbers list.
From S2P Require Import Prelude BTree Reader Catalog Codec Crypto Expr.

#[local] Open Scope Z_scope.

(** * LIKE *)

(** The suffixes of a text, longest first. *)
Fixpoint suffixes (s : bytes) : list bytes :=
  s :: match s with [] => [] | _ :: s' => suffixes s' end.

(** The meaning of a pattern: [%] any run of bytes, [_] one byte, any other
    byte itself. *)
Fixpoint like_ref (p s : bytes) : bool :=
  match p with
  | [] => bool_decide (s = [])
  | c :: p' =>
      if c =? PERCENT then existsb (like_ref p') (suffixes s)
      else match s with
           | [] => false
           | x :: s' => ((c =? UNDERSCORE) || (c =? x)) && like_ref p' s'
           end
  end.

Lemma suffixes_drop s t : In t (suffixes s) <-> exists k, (k <= length s)%nat /\ t = drop k s.
Proof.
  induction s as [ | x s IH]; cbn [suffixes In].
  - split; [intros [<- | []]; by exists 0%nat | ]. intros (k & Hk & ->). left. by rewrite drop_nil.
  - rewrite IH. split.
    + intros [<- | (k & Hk & ->)]; [exists 0%nat; cbn; split; [lia | done] | ].
      exists (S k). cbn. split; [lia | done].
    + intros ([ | k] & Hk & ->); [by left | right]. exists k. cbn in Hk. split; [lia | done].
Qed.

Lemma existsb_suffixes f s :
  existsb f (suffixes s) = true <-> exists k, (k <= length s)%nat /\ f (drop k s) = true.
Proof.
  rewrite existsb_exists. split.
  - intros (t & (k & Hk & ->)%suffixes_drop & Hf). eauto.
  - intros (k & Hk & Hf). exists (drop k s). split; [ | done]. apply suffixes_drop. eauto.
Qed.

Section Like.
Context (s p : bytes).

(** The pattern from [j] on matches the text from [i] on. *)
Definition matches (i j : nat) : Prop := like_ref (drop j p) (drop i s) = true.

Lemma matches_percent i j : p !! j = Some PERCENT ->
  matches i j <-> exists k, (i <= k <= i `max` length s)%nat /\ matches k (S j).
Proof.
  intros Hj. unfold matches. rewrite (drop_S p PERCENT j Hj). cbn [like_ref]. rewrite Z.eqb_refl.
  rewrite existsb_suffixes, length_drop. split.
  - intros (k & Hk & Hm). exists (i + k)%nat. rewrite drop_drop in Hm. split; [lia | done].
  - intros (k & Hk & Hm). exists (k - i)%nat. split; [lia | ]. rewrite drop_drop.
    by replace (i + (k - i))%nat with k by lia.
Qed.

Lemma matches_char i j c x : p !! j = Some c -> c <> PERCENT -> s !! i = Some x ->
  matches i j <-> (c = UNDERSCORE \/ c = x) /\ matches (S i) (S j).
Proof.
  intros Hj Hc Hi. unfold matches. rewrite (drop_S p c j Hj), (drop_S s x i Hi). cbn [like_ref].
  rewrite (proj2 (Z.eqb_neq _ _)) by done. by rewrite andb_true_iff, orb_true_iff, !Z.eqb_eq.
Qed.

Lemma matches_char_end i j c : p !! j = Some c -> c <> PERCENT -> s !! i = None -> ~ matches i j.
Proof.
  intros Hj Hc Hi. unfold matches. apply lookup_ge_None in Hi.
  rewrite (drop_S p c j Hj), (drop_ge s i) by lia. cbn [like_ref].
  by rewrite (proj2 (Z.eqb_neq _ _)).
Qed.

Lemma matches_end i j x : p !! j = None -> s !! i = Some x -> ~ matches i j.
Proof.
  intros Hj Hi. unfold matches. apply lookup_ge_None in Hj. rewrite (drop_ge p j) by lia.
  rewrite (drop_S s x i Hi). done.
Qed.

(** A stretch of the pattern without [%] consumes as much text. *)
Lemma matches_segment k j0 n :
  (forall m, (m < n)%nat -> exists c, p !! (j0 + m)%nat = Some c /\ c <> PERCENT) -> (k <= length s)%nat ->
  matches k j0 -> (k + n <= length s)%nat /\ matches (k + n) (j0 + n).
Proof.
  revert k j0. induction n as [ | n IH]; intros k j0 Hseg Hk Hm; [by rewrite !Nat.add_0_r | ].
  pose proof (Hseg 0%nat (Nat.lt_0_succ n)) as (c & Hc & Hne). rewrite Nat.add_0_r in Hc.
  destruct (s !! k) as [x | ] eqn:Hx; [ | by destruct (matches_char_end k j0 c Hc Hne Hx)].
  destruct (proj1 (matches_char k j0 c x Hc Hne Hx) Hm) as [_ Hm'].
  destruct (IH (S k) (S j0)) as [H1 H2]; [ | | done | ].
  - intros m Hmn. pose proof (Hseg (S m) (proj1 (Nat.succ_lt_mono m n) Hmn)) as (c' & Hc' & ?). exists c'.
    by replace (S j0 + m)%nat with (j0 + S m)%nat by lia.
  - apply lookup_lt_Some in Hx. lia.
  - replace (k + S n)%nat with (S k + n)%nat by lia. by replace (j0 + S n)%nat with (S j0 + n)%nat by lia.
Qed.

(** ** The loop *)

(** The last [%] is before [j], what follows it up to [j] has none and is
    aligned with the text from [mark] to [i]. *)
Definition aligned (i j : nat) (star : option nat) (mark : nat) : Prop :=
  match star with
  | None => True
  | Some sj =>
      exists n, (j = S sj + n)%nat /\ (i = mark + n)%nat /\
        forall m, (m < n)%nat -> exists c, p !! (S sj + m)%nat = Some c /\ c <> PERCENT
  end.

(** What the state of the loop can still find: a match from here, or one from a
    later position of the last [%]. *)
Definition reachable_match (i j : nat) (star : option nat) (mark : nat) : Prop :=
  matches i j \/ exists sj k, star = Some sj /\ (mark < k <= length s)%nat /\ matches k (S sj).

Definition loop_result (r : option (option nat)) : bool :=
  match r with
  | Some (Some j) => forallb (fun c => c =? PERCENT) (drop j p)
  | _ => false
  end.

Lemma matches_at_end j : matches (length s) j <-> forallb (fun c => c =? PERCENT) (drop j p) = true.
Proof.
  unfold matches. rewrite drop_all. induction (drop j p) as [ | c q IH]; [done | ].
  cbn. destruct (c =? PERCENT); [ | done]. cbn. by rewrite orb_false_r.
Qed.

(** At the end of the text a later position of the last [%] cannot match. *)
Lemma reachable_at_end j star mark : aligned (length s) j star mark ->
  reachable_match (length s) j star mark <-> matches (length s) j.
Proof.
  intros Ha. split; [ | by left]. intros [ | (sj & k & -> & Hk & Hm)]; [done | ].
  destruct Ha as (n & -> & Hn & Hseg). destruct (matches_segment k (S sj) n Hseg ltac:(lia) Hm). lia.
Qed.

(** A new [%] makes the alternatives of the last one superfluous. *)
Lemma reachable_percent i j star mark : (i <= length s)%nat -> aligned i j star mark -> p !! j = Some PERCENT ->
  reachable_match i j star mark <-> reachable_match i (S j) (Some j) i.
Proof.
  intros Hi Ha Hj. unfold reachable_match. split.
  - assert (matches i j -> matches i (S j) \/ exists sj k, Some j = Some sj /\ (i < k <= length s)%nat /\ matches k (S sj)) as Hnew.
    { intros Hm. apply (matches_percent i j Hj) in Hm as (k & Hk & Hm).
      destruct (decide (k = i)) as [-> | ]; [by left | ]. right. exists j, k. split_and!; [done | lia | lia | done]. }
    intros [Hm | (sj & k & -> & Hk & Hm)]; [by apply Hnew | ]. apply Hnew.
    destruct Ha as (n & -> & -> & Hseg). destruct (matches_segment k (S sj) n Hseg ltac:(lia) Hm) as [Hl Hm'].
    apply (matches_percent _ _ Hj) in Hm' as (k' & Hk' & Hm'). apply (matches_percent _ _ Hj). exists k'.
    split; [lia | done].
  - intros [Hm | (sj & k & [= <-] & Hk & Hm)]; left; apply (matches_percent i j Hj); [exists i | exists k];
      (split; [lia | done]).
Qed.

(** After a mismatch only later positions of the last [%] are left. *)
Lemma reachable_backtrack i j sj mark : (mark < length s)%nat -> ~ matches i j ->
  reachable_match i j (Some sj) mark <-> reachable_match (S mark) (S sj) (Some sj) (S mark).
Proof.
  intros Hi Hn. unfold reachable_match. split.
  - intros [ | (sj' & k & [= <-] & Hk & Hm)]; [done | ].
    destruct (decide (k = S mark)) as [-> | ]; [by left | right]. exists sj, k. split_and!; [done | lia | lia | done].
  - intros [Hm | (sj' & k & [= <-] & Hk & Hm)]; right; [exists sj, (S mark) | exists sj, k];
      (split_and!; [done | lia | lia | done]).
Qed.

Definition measure (j mark : nat) : nat := ((length s - mark) * S (length p) + (length p - j))%nat.

Context (Htext : PERCENT ∉ s).

Lemma reachable_char i j star mark c d :
  s !! i = Some c -> p !! j = Some d -> d = UNDERSCORE \/ d = c ->
  reachable_match i j star mark <-> reachable_match (S i) (S j) star mark.
Proof using Htext.
  intros Hi Hj Hd. assert (d <> PERCENT) as Hne.
  { intros ->. destruct Hd as [ | <-]; [done | ]. by apply Htext, (list_elem_of_lookup_2 _ i). }
  unfold reachable_match. rewrite (matches_char i j d c Hj Hne Hi). tauto.
Qed.

Lemma aligned_char i j star mark c d :
  s !! i = Some c -> p !! j = Some d -> d = UNDERSCORE \/ d = c ->
  aligned i j star mark -> aligned (S i) (S j) star mark.
Proof using Htext.
  intros Hi Hj Hd. destruct star as [sj | ]; [ | done]. intros (n & -> & -> & Hseg).
  exists (S n). split_and!; [lia | lia | ]. intros m Hm. destruct (decide (m = n)) as [-> | ]; [ | apply Hseg; lia].
  exists d. split; [done | ]. intros ->. destruct Hd as [ | <-]; [done | ].
  by apply Htext, (list_elem_of_lookup_2 _ (mark + n)).
Qed.

Lemma no_match i j c : s !! i = Some c -> ~ (p !! j = Some UNDERSCORE \/ p !! j = Some c) ->
  p !! j <> Some PERCENT -> ~ matches i j.
Proof.
  intros Hi Hn Hp Hm. destruct (p !! j) as [d | ] eqn:Hj.
  - destruct (proj1 (matches_char i j d c Hj ltac:(congruence) Hi) Hm) as [[-> | ->] _]; apply Hn; auto.
  - by apply (matches_end i j c Hj Hi).
Qed.

(** With this much fuel the loop returns, and what it returns is right. *)
Lemma like_loop_spec fuel : forall i j star mark,
  (mark <= i <= length s)%nat -> (j <= length p)%nat -> aligned i j star mark -> (measure j mark < fuel)%nat ->
  exists r, like_loop fuel s p i j star mark = Some r /\
    (loop_result (Some r) = true <-> reachable_match i j star mark).
Proof using Htext.
  induction fuel as [ | fuel IH]; intros i j star mark Hi Hj Ha Hf; [lia | ].
  unfold measure in *. cbn [like_loop]. destruct (s !! i) as [c | ] eqn:Hc.
  2: { apply lookup_ge_None in Hc. assert (i = length s) as -> by lia. eexists. split; [done | ].
       rewrite reachable_at_end by done. by rewrite matches_at_end. }
  pose proof (lookup_lt_Some _ _ _ Hc). case_bool_decide as Hm.
  { assert (exists d, p !! j = Some d /\ (d = UNDERSCORE \/ d = c)) as (d & Hd & Hdc) by (destruct Hm; eauto).
    pose proof (lookup_lt_Some _ _ _ Hd). setoid_rewrite (reachable_char i j star mark c d Hc Hd Hdc).
    apply IH; [lia | lia | by eapply aligned_char | nia]. }
  case_bool_decide as Hp.
  { pose proof (lookup_lt_Some _ _ _ Hp). setoid_rewrite (reachable_percent i j star mark ltac:(lia) Ha Hp).
    apply IH; [lia | lia | | nia]. exists 0%nat. split_and!; [lia | lia | lia]. }
  pose proof (no_match i j c Hc Hm Hp) as Hn. destruct star as [sj | ].
  - setoid_rewrite (reachable_backtrack i j sj mark ltac:(lia) Hn). destruct Ha as (n & -> & -> & _).
    apply IH; [lia | lia | | nia]. exists 0%nat. split_and!; [lia | lia | lia].
  - eexists. split; [done | ]. split; [done | ]. by intros [ | (? & ? & [=] & _)].
Qed.
End Like.

Lemma like_match_spec s p : PERCENT ∉ s -> like_match s p = like_ref p s.
Proof.
  intros Hs. unfold like_match.
  destruct (like_loop_spec s p Hs (like_fuel s p) 0 0 None 0) as (r & -> & Hr);
    [lia | lia | done | unfold measure, like_fuel; lia | ].
  apply eq_bool_prop_intro. rewrite !Is_true_true. unfold loop_result in Hr. etrans; [exact Hr | ].
  unfold reachable_match, matches. rewrite !drop_0. split; [ | by left]. by intros [ | (? & ? & [=] & _)].
Qed.

(** * Programs end *)

(** A type as the catalog admits it: at most 64 fields of valid kinds. *)
Definition type_sized (ot : ObjectType) : Prop :=
  zlen (fields ot) <= MAX_FIELDS /\ Forall (fun f => kind_ok (f_kind f)) (fields ot).

(** The field is no wider than an integer, or there is none. *)
Definition narrow_field (ot : ObjectType) (fid : Z) : bool :=
  match field_index ot fid ≫= (fun i => fields ot !! Z.to_nat i) with
  | Some f => width (f_kind f) <=? 16
  | None => true
  end.

(** No instruction from [pc] on assigns a field wider than an integer. *)
Fixpoint assigns_narrow (ot : ObjectType) (code : bytes) (fuel : nat) (pc : Z) : bool :=
  match fuel with
  | O => true
  | S fuel' =>
      match fetch code pc with
      | Some (i, pc') => match i with SetField fid => narrow_field ot fid | _ => true end && assigns_narrow ot code fuel' pc'
      | None => true
      end
  end.

Definition safe_program (ot : ObjectType) (code : bytes) : Prop := assigns_narrow ot code (length code) 0 = true.

(** Only the fields of the type matter. *)
Lemma safe_program_ext ot ot' code : fields ot' = fields ot -> safe_program ot code -> safe_program ot' code.
Proof.
  intros Hf. unfold safe_program. assert (forall fid, narrow_field ot' fid = narrow_field ot fid) as Hn
    by (intros fid; unfold narrow_field, field_index; by rewrite Hf).
  assert (forall fuel pc, assigns_narrow ot' code fuel pc = assigns_narrow ot code fuel pc) as He; [ | by rewrite He].
  induction fuel as [ | fuel IH]; intros pc; cbn [assigns_narrow]; [done | ]. destruct (fetch code pc) as [[i pc'] | ]; [ | done].
  rewrite IH. f_equal. destruct i; try done.
Qed.

Lemma copy_into_ret work off d : 0 <= off -> off + zlen d <= zlen work ->
  exists work', copy_into work off d = Ret work' /\ zlen work' = zlen work.
Proof.
  intros Hoff Hl. unfold copy_into. rewrite (proj2 (Z.leb_le _ _)) by done. eexists. split; [done | ].
  unfold splice. rewrite !zlen_app. pose proof (zlen_nonneg d). unfold zlen in *.
  rewrite length_take, length_drop, length_app, length_replicate. lia.
Qed.

Lemma update_byte_ret work i f : 0 <= i < zlen work -> exists work', update_byte work i f = Ret work' /\ zlen work' = zlen work.
Proof.
  intros Hi. unfold update_byte, get_at. repeat zif_true. cbn [andb].
  destruct (lookup_lt_is_Some_2 work (Z.to_nat i)) as [x Hx]; [unfold zlen in Hi; lia | ]. rewrite Hx.
  eexists. split; [done | ]. unfold zlen. by rewrite length_insert.
Qed.

Lemma position_of_bound id fs : forall i j, position_of id fs i = Some j -> i <= j < i + zlen fs.
Proof.
  induction fs as [ | f fs IH]; intros i j H; [done | ]. cbn in H. rewrite zlen_cons. pose proof (zlen_nonneg fs).
  destruct (field_id f =? id); [injection H as <-; lia | ]. apply IH in H. lia.
Qed.

Lemma bit_ret ot work w1 i f : 0 <= i < 64 -> zlen w1 = zlen work ->
  exists w2, (if codec_shaped ot work then update_byte w1 (bit_at i) f else Ret w1) = Ret w2 /\ zlen w2 = zlen work.
Proof.
  intros Hi Hl. destruct (codec_shaped ot work) eqn:E; [ | eauto]. unfold codec_shaped in E. zb.
  assert (16 <= zlen work).
  { rewrite H. unfold compute_layout. destruct (place _ _). apply next_pow2_loop_min. lia. }
  destruct (update_byte_ret w1 (bit_at i) f) as (w2 & -> & ?); [ | eexists; split; [done | lia]].
  unfold bit_at. change SCHEMA_VER_BYTES with 4. zdiv.
Qed.

Lemma write_at_ret ot work i off w v : 0 <= i < 64 -> 0 <= off -> 0 <= w <= 16 -> off + w <= zlen work ->
  exists work', write_at_field (codec_shaped ot work) work i off w v = Ret work' /\ zlen work' = zlen work.
Proof.
  intros Hi Hoff Hw Hl. assert (forall d f, zlen d = w -> exists w2,
    (w1 ← copy_into work off d; if codec_shaped ot work then update_byte w1 (bit_at i) f else Ret w1) = Ret w2 /\
    zlen w2 = zlen work) as Hret.
  { intros d f Hd. destruct (copy_into_ret work off d Hoff) as (w1 & -> & H1); [lia | ]. ob. by apply bit_ret. }
  unfold write_at_field, clear_null, mark_null. destruct v as [n | b | ].
  - rewrite (proj2 (Z.ltb_ge 16 _)) by lia. apply Hret. unfold zlen. rewrite length_take, le_bytes_length. lia.
  - apply Hret. pose proof (zlen_nonneg b). unfold zlen in *. rewrite length_app, length_take, length_replicate. lia.
  - apply Hret. unfold zlen. rewrite length_replicate. lia.
Qed.

Lemma write_field_ret ot work fid v : type_sized ot -> narrow_field ot fid = true ->
  exists work', write_field ot work fid v = Ret work' /\ zlen work' = zlen work.
Proof.
  intros [Hmax Hk] Hn. unfold MAX_FIELDS in Hmax. unfold write_field. unfold narrow_field in Hn.
  destruct (field_index ot fid) as [i | ] eqn:Hi; [ | eauto]. apply position_of_bound in Hi. cbn in Hn.
  rewrite compute_layout_eq by done. cbn [offsets]. destruct ((place _ _).1 !! _) as [off | ] eqn:Ho; [ | eauto].
  destruct (fields ot !! _) as [f | ] eqn:Hf; [ | eauto]. destruct (Z.ltb_spec (zlen work) (off + width (f_kind f))); [eauto | ].
  apply place_lookup in Ho as [Ho _]; [ | done]. change HEADER_BYTES with 14 in Ho.
  zb. rewrite Forall_lookup in Hk. pose proof (width_nonneg _ (Hk _ _ Hf)).
  apply write_at_ret; lia.
Qed.

Lemma exec_ret cmpf ot rec i st work : type_sized ot -> (forall fid, i = SetField fid -> narrow_field ot fid = true) ->
  exists r, exec cmpf ot rec i st work = Ret r /\ forall st' work', r = Next st' work' -> zlen work' = zlen work.
Proof.
  intros Hs Hn. assert (forall fid v st', i = SetField fid -> exists r,
    (w ← write_field ot work fid v; Ret (Next st' w)) = Ret r /\
    forall st' work', r = Next st' work' -> zlen work' = zlen work) as Hset.
  { intros fid v st' Hi. destruct (write_field_ret ot work fid v Hs (Hn _ Hi)) as (w & -> & Hl). ob. eexists. split; [done | ].
    by intros ? ? [= _ <-]. }
  unfold exec, push_bool. repeat case_match; try (by apply Hset); eexists; (split; [done | ]); try done; by intros ? ? [= _ <-].
Qed.

Lemma get_range_some {A} (p : list A) lo hi b : get_range p lo hi = Some b -> lo <= hi.
Proof. intros H. apply get_range_length in H. lia. Qed.

Lemma fetch_advances code pc i pc' : fetch code pc = Some (i, pc') -> pc < pc'.
Proof.
  unfold fetch. destruct (get_at code pc) as [op | ]; [ | done]. ob. intros H.
  assert (forall (f : Z -> Instr), (le_value <$> get_range code (pc + 1) (pc + 1 + 2)) ≫= (fun fid => Some (f fid, pc + 1 + 2)) =
    Some (i, pc') -> pc < pc') as Hu.
  { intros f Hf. destruct (get_range code (pc + 1) (pc + 1 + 2)); cbn in Hf; [injection Hf; lia | done]. }
  repeat (case_match; try done); try (injection H; lia); try (by eapply Hu; exact H).
  - destruct (get_range code (pc + 1) (pc + 1 + 16)); cbn in H; [injection H; lia | done].
  - destruct (get_range code (pc + 1) (pc + 1 + 2)) as [l | ]; cbn in H; [ | done].
    destruct (get_range code (pc + 1 + 2) _) eqn:E2; cbn in H; [ | done]. apply get_range_some in E2. injection H. lia.
Qed.

Lemma run_loop_ret cmpf ot rec code : type_sized ot -> forall fuel pc gas st work,
  zlen code - pc <= Z.of_nat fuel -> assigns_narrow ot code fuel pc = true ->
  exists r, run_loop cmpf ot rec fuel code pc gas st work = Ret r /\
    forall e, r = inl e -> zlen (final_work e) = zlen work.
Proof.
  intros Hs fuel. induction fuel as [ | fuel IH]; intros pc gas st work Hf Ha; cbn [run_loop assigns_narrow] in *.
  - rewrite (proj2 (Z.leb_le _ _)) by lia. eexists. split; [done | ]. by intros e [= <-].
  - destruct (zlen code <=? pc) eqn:E. { eexists. split; [done | ]. by intros e [= <-]. }
    destruct (GAS_LIMIT <? gas + 1); [by eexists | ]. destruct (fetch code pc) as [[i pc'] | ] eqn:Hi; [ | by eexists].
    apply andb_true_iff in Ha as [Hi0 Ha]. apply fetch_advances in Hi.
    destruct (exec_ret cmpf ot rec i st work Hs) as (r & -> & Hr); [by intros fid -> | ]. ob.
    destruct r as [st' work' | | e].
    + destruct (IH pc' (gas + 1) st' work' ltac:(lia) Ha) as (r & -> & Hl). exists r. split; [done | ].
      intros e He. rewrite (Hl e He). by eapply Hr.
    + eexists. split; [done | ]. by intros e [= <-].
    + by eexists.
Qed.

(** ** Records stay byte strings *)

Definition value_bytes (v : EValue) : Prop := match v with VBytes b => bytes_ok b | _ => True end.

Lemma splice_bytes_ok d off b : bytes_ok d -> bytes_ok b -> bytes_ok (splice d off b).
Proof.
  intros Hd Hb. unfold splice.
  assert (bytes_ok (d ++ replicate (Z.to_nat (off + zlen b - zlen d)) 0)) as Hx
    by (apply bytes_ok_app; split; [done | apply Forall_replicate; unfold byte_ok; lia]).
  rewrite !bytes_ok_app. split_and!; [by apply Forall_take | done | by apply Forall_drop].
Qed.

Lemma copy_into_bytes d off b d' : copy_into d off b = Ret d' -> bytes_ok d -> bytes_ok b -> bytes_ok d'.
Proof. unfold copy_into. destruct (_ <=? _); [ | done]. intros [= <-]. by apply splice_bytes_ok. Qed.

Lemma byte_lor x y : byte_ok x -> byte_ok y -> byte_ok (Z.lor x y).
Proof.
  unfold byte_ok. intros Hx Hy. split; [apply Z.lor_nonneg; lia | ].
  destruct (decide (Z.lor x y = 0)) as [-> | Hne]; [lia | ]. apply (Z.log2_lt_pow2 _ 8).
  - assert (0 <= Z.lor x y) by (apply Z.lor_nonneg; lia). lia.
  - rewrite Z.log2_lor by lia. apply Z.max_lub_lt; (destruct (decide (x = 0)), (decide (y = 0)); subst; cbn; try lia;
      apply Z.log2_lt_pow2; lia).
Qed.

Lemma byte_land x y : byte_ok x -> 0 <= y -> byte_ok (Z.land x y).
Proof.
  unfold byte_ok. intros Hx Hy. assert (0 <= Z.land x y) by (apply Z.land_nonneg; lia). split; [done | ].
  destruct (decide (Z.land x y = 0)) as [-> | Hne]; [lia | ]. apply (Z.log2_lt_pow2 _ 8); [lia | ].
  pose proof (Z.log2_land x y ltac:(lia) Hy). destruct (decide (x = 0)) as [-> | ]; [done | ].
  assert (Z.log2 x < 8) by (apply Z.log2_lt_pow2; lia). lia.
Qed.

Lemma update_byte_bytes d i f d' :
  update_byte d i f = Ret d' -> bytes_ok d -> (forall x, byte_ok x -> byte_ok (f x)) -> bytes_ok d'.
Proof.
  unfold update_byte, get_at. intros Hu Hd Hf. dcase_in Hu; [ | done]. destruct (d !! _) as [x | ] eqn:Hx; [ | done].
  injection Hu as <-. apply Forall_insert; [done | ]. apply Hf. unfold bytes_ok in Hd. rewrite Forall_lookup in Hd. by eapply Hd.
Qed.

Lemma bit_byte i : 0 <= i -> byte_ok (Z.shiftl 1 (i mod 8)).
Proof.
  intros Hi. rewrite Z.shiftl_1_l. pose proof (Z.mod_pos_bound i 8 ltac:(lia)). unfold byte_ok. split; [lia | ].
  apply (Z.pow_lt_mono_r 2 _ 8); lia.
Qed.

Lemma write_field_bytes ot work fid v work' :
  write_field ot work fid v = Ret work' -> bytes_ok work -> value_bytes v -> bytes_ok work'.
Proof.
  intros Hw Hb Hv. unfold write_field in Hw. destruct (field_index ot fid) as [i | ] eqn:Hi; [ | by injection Hw as <-].
  apply position_of_bound in Hi. destruct (offsets _ !! _) as [off | ]; [ | by injection Hw as <-].
  destruct (fields ot !! _) as [f | ]; [ | by injection Hw as <-]. destruct (_ <? _); [by injection Hw as <-; done | ].
  assert (forall d g, (w1 ← copy_into work off d; if codec_shaped ot work then update_byte w1 (bit_at i) g else Ret w1) =
    Ret work' -> bytes_ok d -> (forall x, byte_ok x -> byte_ok (g x)) -> bytes_ok work') as Hstep.
  { intros d g Hd Hdb Hg. destruct (copy_into work off d) as [w1 | | ] eqn:Hc; [ | done..]. cbn in Hd.
    apply copy_into_bytes in Hc; [ | done..]. destruct (codec_shaped ot work); [by eapply update_byte_bytes | by injection Hd as <-]. }
  unfold write_at_field, clear_null, mark_null in Hw. destruct v as [n | b | ].
  - destruct (16 <? _); [done | ]. eapply Hstep; [exact Hw | by apply Forall_take, le_bytes_ok | ].
    intros x Hx. apply byte_land; [done | ]. apply Z.lxor_nonneg. pose proof (bit_byte i ltac:(lia)) as []. lia.
  - eapply Hstep; [exact Hw | | ].
    + apply bytes_ok_app. split; [by apply Forall_take | apply Forall_replicate; unfold byte_ok; lia].
    + intros x Hx. apply byte_land; [done | ]. apply Z.lxor_nonneg. pose proof (bit_byte i ltac:(lia)) as []. lia.
  - eapply Hstep; [exact Hw | apply Forall_replicate; unfold byte_ok; lia | ].
    intros x Hx. apply byte_lor; [done | apply bit_byte; lia].
Qed.

Lemma load_field_bytes ot rec fid : bytes_ok rec -> value_bytes (load_field ot rec fid).
Proof.
  intros Hr. unfold load_field, load_raw. repeat (case_match; try done). cbn. by eapply range_bytes.
Qed.

Lemma digest_bytes_ok h : bytes_ok (digest_bytes h).
Proof.
  unfold digest_bytes. induction h as [ | x h IH]; [constructor | ]. cbn. apply bytes_ok_app. split; [ | done].
  unfold be_bytes. apply Forall_rev, le_bytes_ok.
Qed.

Lemma exec_bytes cmpf ot rec i st work st' work' :
  exec cmpf ot rec i st work = Ret (Next st' work') ->
  bytes_ok rec -> bytes_ok work -> Forall value_bytes st -> (forall b, i = PushBytes b -> bytes_ok b) ->
  Forall value_bytes st' /\ bytes_ok work'.
Proof.
  intros He Hr Hw Hst Hi. unfold exec, push_bool in He.
  repeat (case_match; try done); simplify_eq/=; rewrite ?Forall_cons in *; destruct_and?; 
    try (split_and!; try done; first [by apply load_field_bytes | by apply Hi | apply digest_bytes_ok | done]).
  all: destruct (write_field _ _ _ _) as [w | | ] eqn:Hwf; [ | done..]; cbn in He; injection He as <- <-;
    split; [done | by eapply write_field_bytes].
Qed.

Lemma run_loop_bytes cmpf ot rec code : bytes_ok code -> bytes_ok rec -> forall fuel pc gas st work e,
  run_loop cmpf ot rec fuel code pc gas st work = Ret (inl e) -> bytes_ok work -> Forall value_bytes st ->
  bytes_ok (final_work e).
Proof.
  intros Hc Hr fuel. induction fuel as [ | fuel IH]; intros pc gas st work e; cbn [run_loop].
  - destruct (_ <=? _); [by intros [= <-] | done].
  - destruct (_ <=? _); [by intros [= <-] | ]. destruct (GAS_LIMIT <? _); [done | ].
    destruct (fetch code pc) as [[i pc'] | ] eqn:Hi; [ | done].
    destruct (exec cmpf ot rec i st work) as [r | | ] eqn:He; [ | done..]. cbn. intros Hrun Hw Hst.
    destruct r as [st' work' | | ]; [ | by injection Hrun as <- | done].
    destruct (exec_bytes _ _ _ _ _ _ _ _ He Hr Hw Hst) as [Hst' Hw']; [ | by eapply IH].
    intros b ->. unfold fetch in Hi. destruct (get_at code pc) as [opc | ]; [ | done]. cbn in Hi.
    repeat (case_match; try done); simplify_eq/=;
      repeat match goal with H : (_ ≫= _) = Some _ |- _ => apply bind_Some in H as (? & ? & H) end; simplify_eq/=.
    by eapply range_bytes.
Qed.

Lemma eval_trigger_bytes code ot rec r :
  bytes_ok code -> bytes_ok rec -> eval_trigger code ot rec = Ret (inl (Some r)) -> bytes_ok r.
Proof.
  intros Hc Hr. unfold eval_trigger, run, run_with.
  destruct (run_loop _ _ _ _ _ _ _ _ _) as [[e | e] | | ] eqn:He; cbn; try done.
  destruct (rejected e); [done | ]. intros [= <-]. eapply run_loop_bytes; [exact Hc | exact Hr | exact He | exact Hr | by apply Forall_nil].
Qed.

(** * Properties *)

(** [like_match] ends on every text and pattern, and on a text without a
    percent sign it says whether the pattern matches: [%] any run of bytes,
    [_] one byte, other bytes themselves. *)
Theorem like_match_correct s p : PERCENT ∉ s ->
  (exists r, like_loop (like_fuel s p) s p 0 0 None 0 = Some r) /\ like_match s p = like_ref p s.
Proof.
  intros Hs. split; [ | by apply like_match_spec].
  destruct (like_loop_spec s p Hs (like_fuel s p) 0 0 None 0) as (r & Hr & _);
    [lia | lia | done | unfold measure, like_fuel; lia | ]. by exists r.
Qed.

(** [aab] LIKE [%a_]. *)
Lemma like_match_correct_witness : like_match [97; 97; 98] [37; 97; 95] = like_ref [37; 97; 95] [97; 97; 98].
Proof.
  apply (like_match_correct [97; 97; 98] [37; 97; 95]). intros H.
  repeat (apply elem_of_cons in H as [[=] | H]). by apply not_elem_of_nil in H.
Defined.

(** C33: Programs end. On a type of at most 64 fields of any width, every byte
    string in which no instruction assigns a field wider than 16 bytes returns,
    as a predicate and as a trigger, a verdict or an error on any record,
    without a panic and within as many steps as it has bytes; a trigger keeps
    the length of the record. *)
Theorem programs_end code ot rec : type_sized ot -> safe_program ot code ->
  (exists r, eval code ot rec = Ret r) /\
  (exists r, eval_trigger code ot rec = Ret r /\ forall rec', r = inl (Some rec') -> zlen rec' = zlen rec).
Proof.
  intros Hs Hn. unfold eval, eval_trigger, run, eval_with, run_with.
  destruct (run_loop_ret cmp_values ot rec code Hs (length code) 0 0 [] rec) as (r & -> & Hl); [unfold zlen; lia | done | ].
  ob. destruct r as [e | e].
  - split; [destruct (top e); by eexists | ]. eexists. split; [done | ]. intros rec'.
    destruct (rejected e); [done | ]. intros [= <-]. by apply Hl.
  - split; by eexists.
Qed.

(** A program that compares a CHAR(20) column and assigns the integer one. *)
Definition wide_and_int : ObjectType := from_def [116] [mkField 1 [97] (Char 20) false; mkField 2 [98] I64 true].
Definition assigning_program : bytes := [1; 1; 0; 1; 1; 0; 3; 18; 2; 0; 1; 2; 0].

Lemma programs_end_witness : exists r, eval assigning_program wide_and_int [0] = Ret r.
Proof.
  apply (programs_end assigning_program wide_and_int [0]); [ | by vm_compute]. split; [done | ].
  repeat constructor; by vm_compute.
Defined.

Definition two_ints : ObjectType := from_def [116] [mkField 1 [97] I32 false; mkField 2 [98] I64 true].

(** LIKE compares the bytes of pattern and text before it looks for [%], so
    a percent sign in the text that meets the wildcard is taken as that byte
    and the wildcard is lost: the pattern [%] does not match [%a]. *)
Theorem like_percent_in_text :
  like_match [37; 97] [37] = false /\ like_ref [37] [37; 97] = true.
Proof. split; reflexivity. Qed.

(** A trigger that assigns an integer to a field of more than 16 bytes
    panics instead of returning an error. *)
Theorem set_wide_field_panics :
  eval_trigger ([0] ++ le_bytes 16 1 ++ [18; 1; 0]) (from_def [116] [mkField 1 [97] (Char 32) false])
    (replicate 64 0) = Panic.
Proof. reflexivity. Qed.
