(* ===== verification/Filter.v ===== *)
(** kessel-expr: compiled filters.

    [compile_filter] turns a predicate program into a tree once and evaluates
    the tree per row. It is compared with the interpreter of [Expr]: on the
    rows of the current schema it computes what the interpreter computes when a
    comparison with NULL or between types is false.

    Source: src/crates/kessel-expr/src/lib.rs, from [FilterFn] on. *)

From Stdlib Require Import ZArith Lia String.
From stdpp Require Import base numbers list.
From S2P Require Import Prelude BTree Reader Catalog Codec Crypto Expr ExprSpec.

#[local] Open Scope Z_scope.
#[local] Set Warnings "-register-all".

Inductive CompileError :=
  | Unsupported (op_name : string)
  | CBadProgram
  | CStackUnderflow
  | Malformed
  | UnknownField (fid : Z).

Record CodecShape := mkShape { expected_record_size : Z; expected_fc : Z }.

(** An operand may be a boolean node; [B] is the type of these nodes. *)
Inductive Operand (B : Type) :=
  | ConstInt (v : Z)
  | ConstBytes (b : bytes)
  | LoadInt (off w : Z) (signed : bool) (fid_idx : Z) (sh : CodecShape)
  | LoadBytes (off w fid_idx : Z) (sh : CodecShape)
  | BoolAsInt (n : B).
Arguments ConstInt {B}. Arguments ConstBytes {B}. Arguments LoadInt {B}.
Arguments LoadBytes {B}. Arguments BoolAsInt {B}.

Inductive BoolNode :=
  | BTrue
  | BFalse
  | BIsNull (fid_idx : Z) (sh : CodecShape)
  | BCmp (lhs rhs : Operand BoolNode) (op : CmpOp)
  | BAnd (a b : BoolNode)
  | BOr (a b : BoolNode)
  | BNot (a : BoolNode)
  | BoolCmp (lhs rhs : BoolNode) (op : CmpOp).

Inductive StackItem :=
  | SOp (o : Operand BoolNode)
  | SBn (b : BoolNode).

Definition into_operand (it : StackItem) : Operand BoolNode :=
  match it with
  | SOp o => o
  | SBn b => BoolAsInt b
  end.

Definition into_bool (it : StackItem) : BoolNode :=
  match it with
  | SBn b => b
  | SOp (ConstInt n) => if n =? 0 then BFalse else BTrue
  | SOp other => BCmp other (ConstInt 0) CmpNe
  end.

Definition codec_shape_for (ot : ObjectType) : CodecShape :=
  mkShape (record_size (compute_layout ot)) (zlen (fields ot)).

(** ** Rows *)

Definition null_at (rec : bytes) (fid_idx : Z) (sh : CodecShape) : bool :=
  if zlen rec <? SCHEMA_VER_BYTES + 2 + 8 then false else
  let fc := stored_fc rec in
  if (fc =? 0) || (expected_fc sh <? fc) then false
  else if negb (zlen rec =? expected_record_size sh) then false
  else if fc <=? fid_idx then true
  else null_bit rec fid_idx.

Definition read_int (rec : bytes) (off w : Z) (signed : bool) : option Z :=
  raw ← get_range rec off (off + w);
  Some (i128_from_le (extend16 signed (take 16 raw))).

Definition read_bytes (rec : bytes) (off w : Z) : option bytes := get_range rec off (off + w).

Definition load_vs_const_int_cmp (off w : Z) (signed : bool) (fid_idx : Z) (sh : CodecShape) (v : Z) (op : CmpOp)
    (rec : bytes) : bool :=
  if null_at rec fid_idx sh then false else
  match read_int rec off w signed with
  | Some a => cmp_apply (a ?= v) op
  | None => false
  end.

Definition is_bytes (o : Operand BoolNode) : bool :=
  match o with ConstBytes _ | LoadBytes _ _ _ _ => true | _ => false end.

Definition operand_to_bytes_fn (o : Operand BoolNode) (rec : bytes) : option bytes :=
  match o with
  | ConstBytes b => Some b
  | LoadBytes off w fid_idx sh => if null_at rec fid_idx sh then None else read_bytes rec off w
  | _ => None
  end.

Definition swapped (op : CmpOp) : CmpOp :=
  match op with
  | CmpLt => CmpGt
  | CmpLe => CmpGe
  | CmpGt => CmpLt
  | CmpGe => CmpLe
  | CmpEq => CmpEq
  | CmpNe => CmpNe
  end.

(** The comparison node; [fa] and [fb] are the operands as integers. *)
Definition materialise_cmp (lhs rhs : Operand BoolNode) (op : CmpOp) (fa fb : bytes -> option Z) (rec : bytes) : bool :=
  if is_bytes lhs && is_bytes rhs then
    match operand_to_bytes_fn lhs rec, operand_to_bytes_fn rhs rec with
    | Some a, Some b => cmp_apply (cmp_bytes a b) op
    | _, _ => false
    end
  else if negb (is_bytes lhs) && negb (is_bytes rhs) then
    match lhs, rhs with
    | LoadInt off w signed fid_idx sh, ConstInt v => load_vs_const_int_cmp off w signed fid_idx sh v op rec
    | ConstInt v, LoadInt off w signed fid_idx sh => load_vs_const_int_cmp off w signed fid_idx sh v (swapped op) rec
    | _, _ =>
        match fa rec, fb rec with
        | Some a, Some b => cmp_apply (a ?= b) op
        | _, _ => false
        end
    end
  else false.

(** An operand as an integer; [bool_fn] computes the boolean nodes. *)
Definition operand_to_int_fn (bool_fn : BoolNode -> bytes -> bool) (o : Operand BoolNode) (rec : bytes) : option Z :=
  match o with
  | ConstInt v => Some v
  | ConstBytes _ => None
  | LoadInt off w signed fid_idx sh => if null_at rec fid_idx sh then None else read_int rec off w signed
  | LoadBytes _ _ _ _ => None
  | BoolAsInt node => Some (b2z (bool_fn node rec))
  end.

Fixpoint materialise_bool (n : BoolNode) (rec : bytes) : bool :=
  match n with
  | BTrue => true
  | BFalse => false
  | BIsNull fid_idx sh => null_at rec fid_idx sh
  | BCmp lhs rhs op =>
      materialise_cmp lhs rhs op (operand_to_int_fn materialise_bool lhs) (operand_to_int_fn materialise_bool rhs) rec
  | BAnd a b => materialise_bool a rec && materialise_bool b rec
  | BOr a b => materialise_bool a rec || materialise_bool b rec
  | BNot a => negb (materialise_bool a rec)
  | BoolCmp lhs rhs op => cmp_apply (b2z (materialise_bool lhs rec) ?= b2z (materialise_bool rhs rec)) op
  end.

(** ** The compiler *)

(** The opcodes that are declined, before their operands are read. *)
Definition unsupported (op : Z) : option string :=
  match op with
  | 9 => Some "ADD"%string
  | 10 => Some "SUB"%string
  | 11 => Some "MUL"%string
  | 12 => Some "DIV"%string
  | 13 => Some "MOD"%string
  | 20 => Some "LIKE"%string
  | 21 => Some "SHA256"%string
  | 22 => Some "HMAC256"%string
  | 18 => Some "SET_FIELD"%string
  | 19 => Some "REJECT"%string
  | _ => None
  end.

Definition load_operand (ot : ObjectType) (idx : Z) : option (Operand BoolNode) :=
  off ← offsets (compute_layout ot) !! Z.to_nat idx;
  f ← fields ot !! Z.to_nat idx;
  let w := width (f_kind f) in
  let codec := codec_shape_for ot in
  Some (if is_blob (f_kind f) then LoadBytes off w idx codec
        else LoadInt off w (is_signed (f_kind f)) idx codec).

Definition compile_instr (ot : ObjectType) (i : Instr) (stack : list StackItem) : list StackItem + CompileError :=
  match i, stack with
  | PushInt n, _ => inl (SOp (ConstInt n) :: stack)
  | PushBytes b, _ => inl (SOp (ConstBytes b) :: stack)
  | LoadField fid, _ =>
      match field_index ot fid ≫= load_operand ot with
      | Some o => inl (SOp o :: stack)
      | None => inr (UnknownField fid)
      end
  | IsNull fid, _ =>
      match field_index ot fid with
      | Some idx => inl (SBn (BIsNull idx (codec_shape_for ot)) :: stack)
      | None => inr (UnknownField fid)
      end
  | Compare op, SBn rb :: SBn lb :: stack => inl (SBn (BoolCmp lb rb op) :: stack)
  | Compare op, rhs :: lhs :: stack => inl (SBn (BCmp (into_operand lhs) (into_operand rhs) op) :: stack)
  | And, b :: a :: stack => inl (SBn (BAnd (into_bool a) (into_bool b)) :: stack)
  | Or, b :: a :: stack => inl (SBn (BOr (into_bool a) (into_bool b)) :: stack)
  | Not, a :: stack => inl (SBn (BNot (into_bool a)) :: stack)
  | (Compare _ | And | Or | Not), _ => inr CStackUnderflow
  | _, _ => inr CBadProgram
  end.

Fixpoint compile_loop (fuel : nat) (ot : ObjectType) (code : bytes) (pc : Z) (stack : list StackItem) :
    list StackItem + CompileError :=
  match get_at code pc with
  | None => inl stack
  | Some op =>
      match fuel, unsupported op, fetch code pc with
      | _, Some name, _ => inr (Unsupported name)
      | O, _, _ | _, _, None => inr CBadProgram
      | S fuel', None, Some (i, pc') =>
          match compile_instr ot i stack with
          | inl stack' => compile_loop fuel' ot code pc' stack'
          | inr e => inr e
          end
      end
  end.

(** The root of the tree. *)
Definition compile_root (code : bytes) (ot : ObjectType) : BoolNode + CompileError :=
  match compile_loop (length code) ot code 0 [] with
  | inr e => inr e
  | inl [it] => inl (into_bool it)
  | inl _ => inr Malformed
  end.

Definition compile_filter (code : bytes) (ot : ObjectType) : (bytes -> bool) + CompileError :=
  match compile_root code ot with
  | inl root => inl (materialise_bool root)
  | inr e => inr e
  end.

(** * Against the interpreter *)

(** A comparison is false when an operand is NULL or the types differ. *)
Definition cmp_strict (op : CmpOp) (a b : EValue) : bool :=
  match a, b with
  | VInt x, VInt y => cmp_apply (x ?= y) op
  | VBytes x, VBytes y => cmp_apply (cmp_bytes x y) op
  | _, _ => false
  end.

Definition of_int (o : option Z) : EValue := match o with Some z => VInt z | None => VNull end.
Definition of_bytes (o : option bytes) : EValue := match o with Some b => VBytes b | None => VNull end.

(** What an operand and an item of the compile-time stack stand for. *)
Definition operand_value (rec : bytes) (o : Operand BoolNode) : EValue :=
  if is_bytes o then of_bytes (operand_to_bytes_fn o rec) else of_int (operand_to_int_fn materialise_bool o rec).

Definition item_value (rec : bytes) (it : StackItem) : EValue :=
  match it with
  | SOp o => operand_value rec o
  | SBn b => VInt (b2z (materialise_bool b rec))
  end.

Lemma into_operand_value rec it : operand_value rec (into_operand it) = item_value rec it.
Proof. by destruct it. Qed.

Lemma cmp_apply_swap x y op : cmp_apply (x ?= y) (swapped op) = cmp_apply (y ?= x) op.
Proof. rewrite (Z.compare_antisym y x). by destruct op, (y ?= x). Qed.

Lemma int_cmp_value rec lhs rhs op : is_bytes lhs = false -> is_bytes rhs = false ->
  match operand_to_int_fn materialise_bool lhs rec, operand_to_int_fn materialise_bool rhs rec with
  | Some a, Some b => cmp_apply (a ?= b) op
  | _, _ => false
  end = cmp_strict op (operand_value rec lhs) (operand_value rec rhs).
Proof.
  intros Hl Hr. unfold operand_value. rewrite Hl, Hr.
  destruct (operand_to_int_fn materialise_bool lhs rec), (operand_to_int_fn materialise_bool rhs rec); done.
Qed.

Lemma load_const_value rec off w signed idx sh v op :
  load_vs_const_int_cmp off w signed idx sh v op rec =
  match operand_to_int_fn materialise_bool (LoadInt off w signed idx sh) rec with
  | Some a => cmp_apply (a ?= v) op
  | None => false
  end.
Proof. unfold load_vs_const_int_cmp. cbn. by destruct (null_at rec idx sh). Qed.

Lemma cmp_node_value rec lhs rhs op :
  materialise_bool (BCmp lhs rhs op) rec = cmp_strict op (operand_value rec lhs) (operand_value rec rhs).
Proof.
  cbn [materialise_bool]. unfold materialise_cmp. destruct (is_bytes lhs) eqn:Hl, (is_bytes rhs) eqn:Hr; cbn [andb negb].
  - unfold operand_value. rewrite Hl, Hr. by destruct (operand_to_bytes_fn lhs rec), (operand_to_bytes_fn rhs rec).
  - unfold operand_value. rewrite Hl, Hr. by destruct (operand_to_bytes_fn lhs rec), (operand_to_int_fn materialise_bool rhs rec).
  - unfold operand_value. rewrite Hl, Hr. by destruct (operand_to_int_fn materialise_bool lhs rec), (operand_to_bytes_fn rhs rec).
  - rewrite <- int_cmp_value by done. destruct lhs, rhs; try done; rewrite load_const_value; try done.
    + cbn [operand_to_int_fn]. destruct (null_at rec fid_idx sh); [done | ].
      destruct (read_int rec off w signed); [ | done]. apply cmp_apply_swap.
Qed.

Lemma into_bool_value rec it : materialise_bool (into_bool it) rec = truthy (item_value rec it).
Proof.
  destruct it as [o | b]; [ | cbn; by destruct (materialise_bool b rec)].
  assert (materialise_bool (BCmp o (ConstInt 0) CmpNe) rec = truthy (operand_value rec o)) as Hne.
  { rewrite cmp_node_value. destruct (operand_value rec o) as [n | b | ]; cbn; [ | done..]. by destruct n. }
  destruct o; try exact Hne. cbn. by destruct (v =? 0).
Qed.

(** ** Rows of the current schema *)

Record row_of (ot : ObjectType) (rec : bytes) : Prop := {
  row_size : zlen rec = record_size (compute_layout ot);
  row_count : stored_fc rec = zlen (fields ot);
  row_fields : 1 <= zlen (fields ot) <= MAX_FIELDS;
  row_kinds_ok : Forall (fun f => kind_ok (f_kind f)) (fields ot);
}.

Lemma row_long ot rec : row_of ot rec -> 16 <= zlen rec.
Proof.
  intros [-> _ _ _]. unfold compute_layout. destruct (place _ _). apply next_pow2_loop_min. lia.
Qed.

Lemma get_range_is_some {A} (p : list A) lo hi : 0 <= lo <= hi -> hi <= zlen p -> is_Some (get_range p lo hi).
Proof. intros. unfold get_range. repeat zif_true. by eexists. Qed.

Lemma row_codec ot rec : row_of ot rec -> is_codec_record ot rec = true.
Proof.
  intros Hrow. pose proof (row_long _ _ Hrow). destruct Hrow as [Hs Hc [Hf Hm] _]. unfold is_codec_record.
  unfold stored_fc in Hc. change SCHEMA_VER_BYTES with 4 in *.
  destruct (get_range_is_some rec 4 (4 + 2) ltac:(lia) ltac:(lia)) as [b Hb]. rewrite Hb in Hc |- *.
  cbn [from_option] in Hc. unfold id in Hc. rewrite Hc.
  rewrite (proj2 (Z.eqb_neq _ _)), (proj2 (Z.ltb_ge _ _)) by lia. cbn [orb].
  rewrite take_ge by (unfold zlen; lia). apply Z.eqb_eq. rewrite Hs. reflexivity.
Qed.

Lemma null_agree ot rec i : row_of ot rec -> null_at rec i (codec_shape_for ot) = field_is_null ot rec i.
Proof.
  intros Hrow. unfold null_at, field_is_null. rewrite (row_codec _ _ Hrow). pose proof (row_long _ _ Hrow).
  destruct Hrow as [Hs Hc [Hf Hm] _]. cbn [negb codec_shape_for expected_fc expected_record_size].
  change (SCHEMA_VER_BYTES + 2 + 8) with 14. rewrite (proj2 (Z.ltb_ge _ 14)) by lia. rewrite Hc.
  rewrite (proj2 (Z.eqb_neq _ 0)), (proj2 (Z.ltb_ge (zlen (fields ot)) _)) by lia. cbn [orb].
  by rewrite Hs, Z.eqb_refl.
Qed.

(** A field of the schema is inside the row. *)
Lemma field_inside ot rec idx : row_of ot rec -> 0 <= idx < zlen (fields ot) ->
  exists off f raw, offsets (compute_layout ot) !! Z.to_nat idx = Some off /\ fields ot !! Z.to_nat idx = Some f /\
    get_range rec off (off + width (f_kind f)) = Some raw.
Proof.
  intros [Hs _ [_ Hm] Hk] Hi. unfold MAX_FIELDS in Hm. rewrite compute_layout_eq in Hs |- * by done. cbn [offsets record_size] in *.
  destruct (lookup_lt_is_Some_2 (fields ot) (Z.to_nat idx)) as [f Hf]; [unfold zlen in Hi; lia | ].
  destruct (lookup_lt_is_Some_2 (place HEADER_BYTES (fields ot)).1 (Z.to_nat idx)) as [off Ho];
    [rewrite place_length; unfold zlen in Hi; lia | ].
  pose proof (place_end _ _ _ _ _ Hk Ho Hf) as He. pose proof (place_lookup _ _ _ _ Hk Ho) as [H0 _].
  pose proof (total_width_bound _ Hk). change HEADER_BYTES with 14 in *.
  rewrite Forall_lookup in Hk. pose proof (width_nonneg _ (Hk _ _ Hf)).
  pose proof (next_pow2_ge (14 + total_width (fields ot)) ltac:(lia)).
  destruct (get_range_is_some rec off (off + width (f_kind f))) as [raw Hr]; [lia | lia | ]. eauto 10.
Qed.

Lemma load_agree ot rec fid idx o : row_of ot rec -> field_index ot fid = Some idx -> load_operand ot idx = Some o ->
  load_field ot rec fid = operand_value rec o /\ (field_is_null ot rec idx = false -> operand_value rec o <> VNull).
Proof.
  intros Hrow Hi Ho. unfold load_field. rewrite Hi. apply position_of_bound in Hi.
  destruct (field_inside ot rec idx Hrow ltac:(lia)) as (off & f & raw & Hoff & Hf & Hraw).
  unfold load_operand in Ho. rewrite Hoff, Hf in Ho |- *. cbn [mbind option_bind] in Ho. injection Ho as <-.
  rewrite Hraw. unfold load_raw, operand_value. destruct (is_blob (f_kind f)) eqn:Hb; cbn;
    rewrite null_agree by done; destruct (field_is_null ot rec idx); unfold read_bytes, read_int; rewrite ?Hraw; done.
Qed.

Lemma load_null ot rec fid idx : row_of ot rec -> field_index ot fid = Some idx ->
  bool_decide (load_field ot rec fid = VNull) = field_is_null ot rec idx.
Proof.
  intros Hrow Hi. pose proof Hi as Hb. apply position_of_bound in Hb.
  destruct (field_inside ot rec idx Hrow ltac:(lia)) as (off & f & raw & Hoff & Hf & Hraw).
  unfold load_field. rewrite Hi, Hoff, Hf, Hraw. destruct (field_is_null ot rec idx); [done | ].
  unfold load_raw. by destruct (is_blob (f_kind f)).
Qed.

(** ** Simulation *)

(** [ok] holds of every instruction with the compile-time stack it is compiled
    at. *)
Fixpoint all_steps (ok : Instr -> list StackItem -> bool) (fuel : nat) (ot : ObjectType) (code : bytes) (pc : Z)
    (stack : list StackItem) : bool :=
  match fuel, fetch code pc with
  | S fuel', Some (i, pc') =>
      ok i stack &&
      match compile_instr ot i stack with
      | inl stack' => all_steps ok fuel' ot code pc' stack'
      | inr _ => true
      end
  | _, _ => true
  end.

Section Simulation.
Context (cmpf : CmpOp -> EValue -> EValue -> bool) (ok : Instr -> list StackItem -> bool) (P : StackItem -> Prop).
Context (ot : ObjectType) (rec code : bytes) (Hgas : zlen code <= GAS_LIMIT).
Context (Hstep : forall i stack stack1, Forall P stack -> ok i stack = true -> compile_instr ot i stack = inl stack1 ->
  Forall P stack1 /\
  forall work, exec cmpf ot rec i (item_value rec <$> stack) work = Ret (Next (item_value rec <$> stack1) work)).

Lemma compile_loop_sim work fuel : forall pc gas stack stack',
  Forall P stack -> 0 <= gas <= pc -> all_steps ok fuel ot code pc stack = true ->
  compile_loop fuel ot code pc stack = inl stack' ->
  Forall P stack' /\
  run_loop cmpf ot rec fuel code pc gas (item_value rec <$> stack) work =
  Ret (inl (mkRunEnd false (head (item_value rec <$> stack')) work)).
Proof using Hgas Hstep.
  induction fuel as [ | fuel IH]; intros pc gas stack stack' HP Hg Hok Hc; cbn [compile_loop run_loop all_steps] in *.
  - destruct (get_at code pc) as [op | ] eqn:Hop.
    { destruct (unsupported op); [done | ]. by destruct (fetch code pc). }
    injection Hc as <-. unfold get_at in Hop. destruct (Z.ltb_spec pc (zlen code)).
    + rewrite (proj2 (Z.leb_le 0 pc)) in Hop by lia. apply lookup_ge_None in Hop. unfold zlen in *. lia.
    + by rewrite (proj2 (Z.leb_le _ _)) by lia.
  - destruct (get_at code pc) as [op | ] eqn:Hop.
    + assert (pc < zlen code) as Hlt.
      { unfold get_at in Hop. destruct (Z.ltb_spec pc (zlen code)); [done | ]. by rewrite andb_false_r in Hop. }
      destruct (unsupported op); [done | ]. destruct (fetch code pc) as [[i pc'] | ] eqn:Hf; [ | done].
      destruct (compile_instr ot i stack) as [stack1 | e] eqn:Hi; [ | done]. apply andb_true_iff in Hok as [Hok1 Hok2].
      rewrite (proj2 (Z.leb_gt _ _)), (proj2 (Z.ltb_ge GAS_LIMIT _)) by lia.
      destruct (Hstep i stack stack1 HP Hok1 Hi) as [HP1 Hex]. rewrite Hex. ob.
      apply fetch_advances in Hf. apply IH; [done | lia | done | done].
    + injection Hc as <-. unfold get_at in Hop. destruct (Z.ltb_spec pc (zlen code)).
      * rewrite (proj2 (Z.leb_le 0 pc)) in Hop by lia. apply lookup_ge_None in Hop. unfold zlen in *. lia.
      * by rewrite (proj2 (Z.leb_le _ _)) by lia.
Qed.

Lemma compile_root_sim root :
  all_steps ok (length code) ot code 0 [] = true -> compile_root code ot = inl root ->
  eval_with cmpf ot rec code = Ret (inl (materialise_bool root rec)).
Proof using Hgas Hstep.
  intros Hok. unfold compile_root. destruct (compile_loop _ _ _ _ _) as [[ | it [ | it' l]] | e] eqn:Hc; try done.
  intros [= <-]. destruct (compile_loop_sim rec (length code) 0 0 [] [it]) as [_ Hr]; [done | lia | done | done | ].
  unfold eval_with, run_with. cbn [fmap list_fmap] in Hr. rewrite Hr. ob. cbn [top head]. by rewrite into_bool_value.
Qed.
End Simulation.

(** Both stacks have the same height, so the arms of the two correspond. *)
Lemma compile_instr_exec cmpf ot rec i stack stack1 work : row_of ot rec ->
  (forall op b a rest, i = Compare op -> stack = b :: a :: rest ->
     cmpf op (item_value rec a) (item_value rec b) = cmp_strict op (item_value rec a) (item_value rec b)) ->
  compile_instr ot i stack = inl stack1 ->
  exec cmpf ot rec i (item_value rec <$> stack) work = Ret (Next (item_value rec <$> stack1) work).
Proof.
  intros Hrow Hcmp Hc. destruct i as [n | b | fid | fid | op | op | | | | | | | fid | ];
    cbn [compile_instr] in Hc; try done.
  - by injection Hc as <-.
  - by injection Hc as <-.
  - destruct (field_index ot fid) as [idx | ] eqn:Hi; [ | done]. cbn [mbind option_bind] in Hc.
    destruct (load_operand ot idx) as [o | ] eqn:Ho; [ | done]. injection Hc as <-. cbn.
    by destruct (load_agree ot rec fid idx o Hrow Hi Ho) as [-> _].
  - destruct (field_index ot fid) as [idx | ] eqn:Hi; [ | done]. injection Hc as <-. cbn. unfold push_bool.
    by rewrite (load_null ot rec fid idx Hrow Hi), null_agree.
  - destruct stack as [ | b [ | a rest]]; [done | by destruct b | ]. cbn [exec fmap list_fmap]. unfold push_bool.
    rewrite (Hcmp op b a rest) by done.
    destruct b as [ob | nb], a as [oa | na]; injection Hc as <-; cbn [fmap list_fmap item_value]; rewrite ?cmp_node_value; done.
  - destruct stack as [ | b [ | a rest]]; [done | done | ]. injection Hc as <-. cbn [exec fmap list_fmap item_value].
    cbn [materialise_bool]. by rewrite !into_bool_value.
  - destruct stack as [ | b [ | a rest]]; [done | done | ]. injection Hc as <-. cbn [exec fmap list_fmap item_value].
    cbn [materialise_bool]. by rewrite !into_bool_value.
  - destruct stack as [ | a rest]; [done | ]. injection Hc as <-. cbn [exec fmap list_fmap item_value].
    cbn [materialise_bool]. by rewrite !into_bool_value.
Qed.

(** ** Where the two comparisons agree *)

Definition ne_typed (i : Instr) (stack : list StackItem) : bool :=
  match i, stack with
  | Compare CmpNe, b :: a :: _ => Bool.eqb (is_bytes (into_operand a)) (is_bytes (into_operand b))
  | _, _ => true
  end.

Definition same_type (a b : EValue) : Prop :=
  match a, b with
  | VInt _, VInt _ | VBytes _, VBytes _ => True
  | _, _ => False
  end.

Lemma eq_same_type a b : same_type a b -> eq_values a b = cmp_strict CmpEq a b.
Proof.
  destruct a as [x | x | ], b as [y | y | ]; try done; intros _; cbn.
  - destruct (Z.compare_spec x y) as [-> | | ]; [by apply bool_decide_eq_true_2 | | ];
      apply bool_decide_eq_false_2; intros [= ->]; lia.
  - unfold cmp_bytes. set (u := right_trim_char_pad x). set (v := right_trim_char_pad y).
    destruct (kcmp u v) eqn:E; change (list_cmp u v) with (kcmp u v); rewrite E.
    + apply kcmp_eq in E. by apply bool_decide_eq_true_2.
    + apply bool_decide_eq_false_2. intros Huv. rewrite Huv, kcmp_refl in E. done.
    + apply bool_decide_eq_false_2. intros Huv. rewrite Huv, kcmp_refl in E. done.
Qed.

Lemma cmp_agree op a b : a <> VNull -> b <> VNull -> (op = CmpNe -> same_type a b) ->
  cmp_values op a b = cmp_strict op a b.
Proof.
  intros Ha Hb Hne. destruct op; cbn; try (by destruct a, b).
  - destruct a as [x | x | ], b as [y | y | ]; try done; by apply eq_same_type.
  - rewrite eq_same_type by (by apply Hne). specialize (Hne eq_refl). destruct a as [x | x | ], b as [y | y | ]; try done; cbn.
    + by destruct (x ?= y).
    + by destruct (cmp_bytes x y).
Qed.

Lemma item_type rec it : item_value rec it <> VNull ->
  if is_bytes (into_operand it) then exists b, item_value rec it = VBytes b else exists n, item_value rec it = VInt n.
Proof.
  rewrite <- into_operand_value. unfold operand_value. destruct (is_bytes (into_operand it)).
  - destruct (operand_to_bytes_fn _ rec); [by eexists | done].
  - destruct (operand_to_int_fn materialise_bool _ rec); [by eexists | done].
Qed.

Lemma ne_typed_same rec rest a b : item_value rec a <> VNull -> item_value rec b <> VNull ->
  ne_typed (Compare CmpNe) (b :: a :: rest) = true -> same_type (item_value rec a) (item_value rec b).
Proof.
  intros Ha%item_type Hb%item_type Ht. cbn in Ht. apply eqb_prop in Ht. rewrite Ht in Ha.
  destruct (is_bytes (into_operand b)); destruct Ha as [? ->], Hb as [? ->]; done.
Qed.

Definition no_nulls (ot : ObjectType) (rec : bytes) : Prop :=
  forall i, 0 <= i < zlen (fields ot) -> field_is_null ot rec i = false.

Lemma compile_instr_values ot rec i stack stack1 : row_of ot rec -> no_nulls ot rec ->
  Forall (fun it => item_value rec it <> VNull) stack -> compile_instr ot i stack = inl stack1 ->
  Forall (fun it => item_value rec it <> VNull) stack1.
Proof.
  intros Hrow Hn HP Hc. destruct i as [n | b | fid | fid | op | op | | | | | | | fid | ];
    cbn [compile_instr] in Hc; try done.
  - injection Hc as <-. by constructor.
  - injection Hc as <-. by constructor.
  - destruct (field_index ot fid) as [idx | ] eqn:Hi; [ | done]. cbn [mbind option_bind] in Hc.
    destruct (load_operand ot idx) as [o | ] eqn:Ho; [ | done]. injection Hc as <-. constructor; [ | done].
    destruct (load_agree ot rec fid idx o Hrow Hi Ho) as [_ H]. apply H, Hn. apply position_of_bound in Hi. lia.
  - destruct (field_index ot fid); [ | done]. injection Hc as <-. by constructor.
  - destruct stack as [ | b [ | a rest]]; [done | by destruct b | ]. inversion_clear HP as [ | ? ? _ HP']. inversion_clear HP'.
    destruct b, a; injection Hc as <-; by constructor.
  - destruct stack as [ | b [ | a rest]]; [done | done | ]. inversion_clear HP as [ | ? ? _ HP']. inversion_clear HP'.
    injection Hc as <-. by constructor.
  - destruct stack as [ | b [ | a rest]]; [done | done | ]. inversion_clear HP as [ | ? ? _ HP']. inversion_clear HP'.
    injection Hc as <-. by constructor.
  - destruct stack as [ | a rest]; [done | ]. inversion_clear HP. injection Hc as <-. by constructor.
Qed.

Lemma all_steps_true fuel ot code : forall pc stack, all_steps (fun _ _ => true) fuel ot code pc stack = true.
Proof.
  induction fuel as [ | fuel IH]; intros pc stack; [done | ]. cbn. destruct (fetch code pc) as [[i pc'] | ]; [ | done].
  by destruct (compile_instr ot i stack).
Qed.

(** * Properties *)

(** C22: A filter that compiles, from a program no longer than the gas limit,
    computes on every row of the current schema the verdict of the interpreter
    in which a comparison with NULL or between an integer and bytes is false.
    On rows without NULL, when no [NE] of the program compares an integer with
    bytes, that is the verdict of [eval] itself. *)
Theorem compile_filter_correct code ot f rec :
  compile_filter code ot = inl f -> zlen code <= GAS_LIMIT -> row_of ot rec ->
  eval_with cmp_strict ot rec code = Ret (inl (f rec)) /\
  (no_nulls ot rec -> all_steps ne_typed (length code) ot code 0 [] = true -> eval code ot rec = Ret (inl (f rec))).
Proof.
  unfold compile_filter. intros Hc Hgas Hrow. destruct (compile_root code ot) as [root | ] eqn:Hr; [ | done].
  injection Hc as <-. split.
  - apply (compile_root_sim cmp_strict (fun _ _ => true) (fun _ => True) ot rec code Hgas); [ | apply all_steps_true | done].
    intros i stack stack1 _ _ Hi. split; [by apply Forall_true | ]. intros work. by apply compile_instr_exec.
  - intros Hn Hok. apply (compile_root_sim cmp_values ne_typed (fun it => item_value rec it <> VNull) ot rec code Hgas);
      [ | done | done].
    intros i stack stack1 HP Hi Hc. split; [by eapply compile_instr_values | ]. intros work.
    apply compile_instr_exec; [done | | done]. intros op b a rest -> ->.
    inversion HP as [ | ? ? Hb HP']. inversion HP' as [ | ? ? Ha _]. subst. apply cmp_agree; [done | done | ].
    intros ->. by apply (ne_typed_same rec rest).
Qed.

(** [age >= 18 AND bal <> 0]. *)
Definition sample_program : bytes :=
  [1; 1; 0] ++ [0] ++ le_bytes 16 18 ++ [8] ++ [1; 2; 0] ++ [0] ++ le_bytes 16 0 ++ [4] ++ [14].

Definition row_bytes (vs : list Value) : bytes :=
  match encode two_ints vs with Ret (inl b) => b | _ => [] end.

Lemma two_ints_row vs : zlen (row_bytes vs) = 32 -> stored_fc (row_bytes vs) = 2 -> row_of two_ints (row_bytes vs).
Proof.
  intros Hl Hc. split; [by rewrite Hl | by rewrite Hc | by unfold MAX_FIELDS, zlen; cbn; lia | ].
  repeat (apply Forall_cons; split; [done | ]). by apply Forall_nil.
Qed.

Definition sample_filter (rec : bytes) : bool :=
  match compile_filter sample_program two_ints with inl f => f rec | inr _ => false end.

Lemma compile_filter_correct_witness :
  eval sample_program two_ints (row_bytes [Int 21; Int (-3)]) =
  Ret (inl (sample_filter (row_bytes [Int 21; Int (-3)]))).
Proof.
  apply (compile_filter_correct sample_program two_ints sample_filter (row_bytes [Int 21; Int (-3)]));
    [reflexivity | done | by apply two_ints_row | | reflexivity].
  intros i Hi. change (zlen (fields two_ints)) with 2 in Hi. assert (i = 0 \/ i = 1) as [-> | ->] by lia; reflexivity.
Defined.

(** The compiled filter is not the interpreter on rows with NULL: for
    [bal <> 5] and a row whose [bal] is NULL, the interpreter accepts the row
    and the filter the same program compiles to rejects it. *)
Theorem filter_differs_on_null :
  let code := [1; 2; 0] ++ [0] ++ le_bytes 16 5 ++ [4] in
  let rec := row_bytes [Int 21; Null] in
  row_of two_ints rec /\ eval code two_ints rec = Ret (inl true) /\
  match compile_filter code two_ints with inl f => f rec | inr _ => true end = false.
Proof. split_and!; [by apply two_ints_row | reflexivity | reflexivity]. Qed.

(** Nor where [NE] compares an integer with bytes: the interpreter takes the
    two as different, the filter takes every mixed comparison as false. *)
Theorem filter_differs_on_types :
  let code := [0] ++ le_bytes 16 5 ++ [17; 1; 0; 97] ++ [4] in
  let rec := row_bytes [Int 21; Int (-3)] in
  row_of two_ints rec /\ eval code two_ints rec = Ret (inl true) /\
  match compile_filter code two_ints with inl f => f rec | inr _ => true end = false.
Proof. split_and!; [by apply two_ints_row | reflexivity | reflexivity]. Qed.
