(* ===== verification/Cache.v ===== *)
(** kessel-cache: the bounded read cache.

    The cache keeps a map from keys to values with the tick of their last use
    and an ordered set of (tick, key), from which the victim of an eviction is
    taken. It is proved to be a list of entries in the order of their last use,
    most recent first, of bounded length.

    Source: src/crates/kessel-cache/src/lib.rs ([ReadCache]). *)

From Stdlib Require Import ZArith Lia.
From stdpp Require Import base numbers list gmap sorting fin_maps fin_sets.
From S2P Require Import Prelude BTree.

#[local] Open Scope Z_scope.

Abbreviation CacheKey := bytes.

Record ReadCache := mkCache {
  cap : Z;
  c_map : gmap CacheKey (bytes * Z);
  c_order : gset (Z * CacheKey);
  clock : Z;
  hits : Z;
  misses : Z;
}.

Definition cache_new (n : Z) : ReadCache := mkCache (Z.max n 1) ∅ ∅ 0 0 0.

Definition cache_tick (c : ReadCache) : ReadCache * Z :=
  let t := wrap64 (clock c + 1) in
  (mkCache (cap c) (c_map c) (c_order c) t (hits c) (misses c), t).

Definition cache_get (c : ReadCache) (key : CacheKey) : ReadCache * option bytes :=
  let '(c, t) := cache_tick c in
  match c_map c !! key with
  | Some (val, old) =>
      (mkCache (cap c) (<[key := (val, t)]> (c_map c))
         ({[ (t, key) ]} ∪ (c_order c ∖ {[ (old, key) ]})) (clock c) (wrap64 (hits c + 1)) (misses c), Some val)
  | None => (mkCache (cap c) (c_map c) (c_order c) (clock c) (hits c) (wrap64 (misses c + 1)), None)
  end.

Definition cache_insert (c : ReadCache) (key : CacheKey) (val : bytes) : ReadCache :=
  let '(c, t) := cache_tick c in
  let '(m, o) :=
    match c_map c !! key with
    | Some (_, old) => (c_map c, c_order c ∖ {[ (old, key) ]})
    | None =>
        if cap c <=? Z.of_nat (size (c_map c)) then
          match head (bs_list (c_order c)) with
          | Some victim => (delete victim.2 (c_map c), c_order c ∖ {[ victim ]})
          | None => (c_map c, c_order c)
          end
        else (c_map c, c_order c)
    end in
  mkCache (cap c) (<[key := (val, t)]> m) ({[ (t, key) ]} ∪ o) (clock c) (hits c) (misses c).

Definition cache_invalidate (c : ReadCache) (key : CacheKey) : ReadCache :=
  match c_map c !! key with
  | Some (_, t) =>
      mkCache (cap c) (delete key (c_map c)) (c_order c ∖ {[ (t, key) ]}) (clock c) (hits c) (misses c)
  | None => c
  end.

Definition cache_clear (c : ReadCache) : ReadCache := mkCache (cap c) ∅ ∅ (clock c) (hits c) (misses c).

Definition cache_len (c : ReadCache) : Z := Z.of_nat (size (c_map c)).

(** * The reference: a list in the order of last use *)

Abbreviation Lru := (list (CacheKey * bytes)).

Definition lru_without (k : CacheKey) (l : Lru) : Lru := filter (fun e => e.1 <> k) l.
Definition lru_find (k : CacheKey) (l : Lru) : option bytes := snd ∘ snd <$> list_find (fun e => e.1 = k) l.

Inductive CacheOp :=
  | CGet (k : CacheKey)
  | CInsert (k : CacheKey) (v : bytes)
  | CInvalidate (k : CacheKey)
  | CClear.

Definition lru_step (n : Z) (op : CacheOp) (l : Lru) : Lru * option bytes :=
  match op with
  | CGet k =>
      match lru_find k l with
      | Some v => ((k, v) :: lru_without k l, Some v)
      | None => (l, None)
      end
  | CInsert k v => ((k, v) :: take (Z.to_nat n - 1) (lru_without k l), None)
  | CInvalidate k => (lru_without k l, None)
  | CClear => ([], None)
  end.

Definition cache_step (op : CacheOp) (c : ReadCache) : ReadCache * option bytes :=
  match op with
  | CGet k => cache_get c k
  | CInsert k v => (cache_insert c k v, None)
  | CInvalidate k => (cache_invalidate c k, None)
  | CClear => (cache_clear c, None)
  end.

(** ** Representation *)

Abbreviation item := (Z * (CacheKey * bytes))%type.

Record rep (m : gmap CacheKey (bytes * Z)) (o : gset (Z * CacheKey)) (items : list item) : Prop := {
  rep_map : forall k v t, m !! k = Some (v, t) <-> (t, (k, v)) ∈ items;
  rep_order : forall k t, (t, k) ∈ o <-> exists v, (t, (k, v)) ∈ items;
  rep_sorted : StronglySorted (fun a b => b.1 < a.1) items;
  rep_nodup : NoDup (items.*2).*1;
}.

Definition forget (k : CacheKey) (items : list item) : list item := filter (fun it => it.2.1 <> k) items.

Lemma forget_snd k items : (forget k items).*2 = lru_without k items.*2.
Proof.
  unfold forget, lru_without. induction items as [ | it items IH]; [done | ].
  rewrite !fmap_cons, !filter_cons. destruct (decide (it.2.1 <> k)); by rewrite ?fmap_cons, IH.
Qed.

Lemma rep_size m o items : rep m o items -> size m = length items.
Proof.
  intros [Hm _ _ Hn].
  assert (map_to_list m ≡ₚ (fun it : item => (it.2.1, (it.2.2, it.1))) <$> items) as Hp.
  { apply NoDup_Permutation.
    - apply NoDup_map_to_list.
    - apply (NoDup_fmap_1 fst). eapply (eq_ind _ NoDup Hn). clear.
      induction items as [ | it items IH]; [done | ]. rewrite !fmap_cons. by f_equal.
    - intros [k [v t]]. rewrite elem_of_map_to_list, Hm, list_elem_of_fmap. split.
      + intros H. by exists (t, (k, v)).
      + by intros ([t' [k' v']] & [= -> -> ->] & H). }
  rewrite <- length_map_to_list. by rewrite Hp, length_fmap.
Qed.

Lemma forget_elem k items t j v : (t, (j, v)) ∈ forget k items <-> j <> k /\ (t, (j, v)) ∈ items.
Proof. unfold forget. by rewrite list_elem_of_filter. Qed.

Lemma forget_sorted k items :
  StronglySorted (fun a b => b.1 < a.1) items -> StronglySorted (fun a b => b.1 < a.1) (forget k items).
Proof.
  unfold forget. induction 1 as [ | it items Hs IH Hf]; [constructor | ].
  rewrite filter_cons. destruct (decide _); [ | done]. constructor; [done | ].
  apply Forall_forall. intros x [_ Hx]%list_elem_of_filter. by rewrite Forall_forall in Hf; apply Hf.
Qed.

Lemma forget_nodup k items : NoDup (items.*2).*1 -> NoDup ((forget k items).*2).*1.
Proof.
  unfold forget. induction items as [ | it items IH]; [done | ]. rewrite !fmap_cons, NoDup_cons, filter_cons.
  intros [Hn Hr]. destruct (decide _); [ | by apply IH]. rewrite !fmap_cons, NoDup_cons. split; [ | by apply IH].
  intros (e & He & (x & -> & [_ Hx]%list_elem_of_filter)%list_elem_of_fmap)%list_elem_of_fmap.
  apply Hn, list_elem_of_fmap. exists x.2. split; [done | ]. apply list_elem_of_fmap. by exists x.
Qed.

Lemma rep_forget m o items k v t : rep m o items -> m !! k = Some (v, t) ->
  rep (delete k m) (o ∖ {[ (t, k) ]}) (forget k items).
Proof.
  intros [Hm Ho Hs Hn] Hk. assert (forall t' v', (t', (k, v')) ∈ items -> t' = t) as Hu.
  { intros t' v' H. apply Hm in H. rewrite Hk in H. by injection H. }
  split; [ | | by apply forget_sorted | by apply forget_nodup].
  - intros j v' t'. rewrite lookup_delete_Some, Hm, forget_elem. split; intros [? ?]; split; congruence || done.
  - intros j t'. rewrite elem_of_difference, elem_of_singleton, Ho. setoid_rewrite forget_elem. split.
    + intros [[v' H] Hne]. exists v'. split; [ | done]. intros ->. by rewrite (Hu t' v' H) in Hne.
    + intros (v' & Hne & H). split; [by exists v' | congruence].
Qed.

Lemma forget_fresh m o items k : rep m o items -> m !! k = None -> forget k items = items.
Proof.
  intros [Hm _ _ _] Hk. assert (forall t v, ~ (t, (k, v)) ∈ items) as Hf by (intros t v H; apply Hm in H; congruence).
  clear Hm Hk. unfold forget. induction items as [ | [t [j v]] items IH]; [done | ].
  rewrite filter_cons_True, IH; [done | | ].
  - intros t' v' H. by apply (Hf t' v'), list_elem_of_further.
  - cbn. intros ->. apply (Hf t v), list_elem_of_here.
Qed.

Lemma rep_push m o items k v t : rep m o items -> m !! k = None -> Forall (fun it => it.1 < t) items ->
  rep (<[k := (v, t)]> m) ({[ (t, k) ]} ∪ o) ((t, (k, v)) :: items).
Proof.
  intros [Hm Ho Hs Hn] Hk Ht. assert (forall t' v', ~ (t', (k, v')) ∈ items) as Hf.
  { intros t' v' H. apply Hm in H. congruence. }
  split.
  - intros j v' t'. rewrite elem_of_cons. destruct (decide (j = k)) as [-> | Hj].
    + rewrite lookup_insert_eq. split; [intros [= -> ->]; by left | ].
      intros [[= -> ->] | H]; [done | by apply Hf in H].
    + rewrite lookup_insert_ne, Hm by done. split; [by right | ]. by intros [[=] | H].
  - intros j t'. rewrite elem_of_union, elem_of_singleton, Ho. setoid_rewrite elem_of_cons. split.
    + intros [[= -> ->] | [v' H]]; [exists v; by left | exists v'; by right].
    + intros (v' & [[= -> -> ->] | H]); [by left | right; by exists v'].
  - by constructor.
  - rewrite !fmap_cons, NoDup_cons. split; [ | done]. cbn.
    intros ([j v'] & Hj & ([t' e] & He & Hin)%list_elem_of_fmap)%list_elem_of_fmap. cbn in *. subst. by apply Hf in Hin.
Qed.

Lemma forget_last items t k v : NoDup ((items ++ [(t, (k, v))]).*2).*1 -> forget k (items ++ [(t, (k, v))]) = items.
Proof.
  unfold forget. induction items as [ | it items IH]; cbn [app].
  - intros _. rewrite filter_cons_False; [done | ]. cbn. intros H. by apply H.
  - rewrite !fmap_cons, NoDup_cons. intros [Hn Hr]. rewrite filter_cons_True, IH; [done.. | ].
    intros Hk. apply Hn. rewrite !fmap_app. apply elem_of_app. right. cbn. rewrite Hk. by apply list_elem_of_singleton.
Qed.

(** The least (tick, key) is the stamp of the last entry. *)
Lemma rep_victim m o items t k v : rep m o (items ++ [(t, (k, v))]) -> head (bs_list o) = Some (t, k).
Proof.
  intros [_ Ho Hs _]. pose proof (bs_list_sorted o) as Hb.
  assert ((t, k) ∈ bs_list o) as Hin.
  { apply bs_list_elem, Ho. exists v. apply elem_of_app. right. by apply list_elem_of_singleton. }
  destruct (bs_list o) as [ | [t' k'] l] eqn:E; [by apply not_elem_of_nil in Hin | ]. cbn. f_equal.
  apply elem_of_cons in Hin as [-> | Hin]; [done | ].
  apply StronglySorted_inv in Hb as [_ Hall]. rewrite Forall_forall in Hall. specialize (Hall _ Hin).
  assert ((t', k') ∈ o) as Ho' by (apply bs_list_elem; rewrite E; apply list_elem_of_here).
  apply Ho in Ho' as [v' Hv]. apply elem_of_app in Hv as [Hv | Hv].
  - exfalso. assert (t < t') as Hlt.
    { clear -Hs Hv. induction items as [ | it items IH]; [by apply not_elem_of_nil in Hv | ].
      apply StronglySorted_inv in Hs as [Hs Hf]. apply elem_of_cons in Hv as [<- | Hv]; [ | by apply IH].
      rewrite Forall_forall in Hf. specialize (Hf (t, (k, v))). cbn in Hf. apply Hf, elem_of_app. right.
      by apply list_elem_of_singleton. }
    unfold klt in Hall. cbn in Hall. unfold pair_cmp in Hall. cbn in Hall.
    rewrite (proj2 (Z.compare_gt_iff t' t)) in Hall by lia. done.
  - apply list_elem_of_singleton in Hv as [= -> -> ->]. done.
Qed.

Record cache_is (c : ReadCache) (l : Lru) : Prop := {
  ci_cap : 1 <= cap c /\ zlen l <= cap c;
  ci_clock : 0 <= clock c;
  ci_rep : exists items, items.*2 = l /\ rep (c_map c) (c_order c) items /\
             Forall (fun it => it.1 <= clock c) items;
}.

Lemma rep_find m o items k : rep m o items -> lru_find k items.*2 = fst <$> m !! k.
Proof.
  intros Hr. unfold lru_find. destruct (list_find _ _) as [[i [k' v]] | ] eqn:E; cbn.
  - apply list_find_Some in E as (Hi & <- & _). apply list_elem_of_lookup_2, list_elem_of_fmap in Hi as ([t e] & Ee & Hin).
    cbn in *. subst e. apply (rep_map _ _ _ Hr) in Hin. by rewrite Hin.
  - destruct (m !! k) as [[v t] | ] eqn:Hk; [ | done]. apply (rep_map _ _ _ Hr) in Hk.
    apply list_find_None in E. rewrite Forall_forall in E. destruct (E (k, v)); [ | done].
    apply list_elem_of_fmap. by exists (t, (k, v)).
Qed.

Lemma forget_ticks k n items : Forall (fun it => it.1 <= n) items -> Forall (fun it => it.1 < n + 1) (forget k items).
Proof.
  intros H. apply Forall_forall. intros it [_ Hin]%list_elem_of_filter.
  rewrite Forall_forall in H. specialize (H it Hin). lia.
Qed.

Lemma forget_length m o items k v t : rep m o items -> m !! k = Some (v, t) -> length items = S (length (forget k items)).
Proof.
  intros Hr Hk. pose proof (rep_size _ _ _ Hr). pose proof (rep_size _ _ _ (rep_forget _ _ _ _ _ _ Hr Hk)) as Hd.
  rewrite map_size_delete_Some in Hd by (by rewrite Hk).
  assert (size m <> 0%nat); [ | lia]. apply (map_size_ne_0_lookup_2 m k). by rewrite Hk.
Qed.

Lemma wrap_clock c : 0 <= clock c < u64_max -> wrap64 (clock c + 1) = clock c + 1.
Proof. unfold u64_max, wrap64. intros H. apply Z.mod_small. lia. Qed.

(** A new stamp on top of what is kept. *)
Lemma touch_is c l m o items k v h ms :
  cache_is c l -> clock c < u64_max -> rep m o items -> m !! k = None ->
  Forall (fun it => it.1 < clock c + 1) items -> 1 + zlen items <= cap c ->
  cache_is (mkCache (cap c) (<[k := (v, wrap64 (clock c + 1))]> m) ({[ (wrap64 (clock c + 1), k) ]} ∪ o)
              (wrap64 (clock c + 1)) h ms) ((k, v) :: items.*2).
Proof.
  intros [[? ?] ? _] Hc Hr Hk Ht Hl. rewrite wrap_clock by lia. split; cbn.
  - split; [lia | ]. rewrite zlen_cons. unfold zlen in *. rewrite length_fmap. lia.
  - lia.
  - exists ((clock c + 1, (k, v)) :: items). split; [done | ]. split; [by apply rep_push | ].
    constructor; [cbn; lia | ]. eapply Forall_impl; [exact Ht | ]. cbn. intros. lia.
Qed.

Lemma get_is c l k : cache_is c l -> clock c < u64_max ->
  (cache_get c k).2 = (lru_step (cap c) (CGet k) l).2 /\ cache_is (cache_get c k).1 (lru_step (cap c) (CGet k) l).1.
Proof.
  intros Hc Hclk. pose proof Hc as [[Hcap Hlen] Hn (items & <- & Hr & Ht)]. unfold cache_get, lru_step. cbn.
  rewrite (rep_find _ _ _ _ Hr). destruct (c_map c !! k) as [[v t] | ] eqn:Hk; cbn.
  - split; [done | ]. rewrite <- (insert_delete_eq (c_map c)), <- forget_snd.
    apply (touch_is c items.*2); [done.. | | | | ].
    + by eapply rep_forget.
    + apply lookup_delete_eq.
    + by apply forget_ticks.
    + pose proof (forget_length _ _ _ _ _ _ Hr Hk). unfold zlen in *. rewrite length_fmap in Hlen. lia.
  - split; [done | ]. rewrite wrap_clock by lia. split; cbn; [done | lia | ].
    exists items. split_and!; [done.. | ]. eapply Forall_impl; [exact Ht | ]. cbn. intros. lia.
Qed.

Lemma insert_is c l k v : cache_is c l -> clock c < u64_max ->
  cache_is (cache_insert c k v) (lru_step (cap c) (CInsert k v) l).1.
Proof.
  intros Hc Hclk. pose proof Hc as [[Hcap Hlen] Hn (items & <- & Hr & Ht)]. unfold zlen in Hlen. rewrite length_fmap in Hlen.
  unfold cache_insert, lru_step. cbn [cache_tick c_map c_order cap clock fst].
  rewrite <- forget_snd, <- fmap_take. destruct (c_map c !! k) as [[v0 t] | ] eqn:Hk.
  - pose proof (forget_length _ _ _ _ _ _ Hr Hk). rewrite take_ge by lia. rewrite <- (insert_delete_eq (c_map c)).
    apply (touch_is c items.*2); [done.. | | | | ].
    + by eapply rep_forget.
    + apply lookup_delete_eq.
    + by apply forget_ticks.
    + unfold zlen. lia.
  - rewrite (forget_fresh _ _ _ _ Hr Hk), (rep_size _ _ _ Hr). pose proof (forget_ticks k _ _ Ht) as Hlt.
    rewrite (forget_fresh _ _ _ _ Hr Hk) in Hlt. destruct (Z.leb_spec (cap c) (Z.of_nat (length items))).
    + destruct items as [ | it items _] using rev_ind; [cbn in *; lia | ]. destruct it as [tv [kv vv]].
      rewrite (rep_victim _ _ _ _ _ _ Hr). cbn [snd fst]. rewrite length_app in *. cbn [length] in *.
      rewrite take_app_length' by lia.
      assert (c_map c !! kv = Some (vv, tv)) as Hv.
      { apply (rep_map _ _ _ Hr), elem_of_app. right. by apply list_elem_of_singleton. }
      pose proof (rep_forget _ _ _ _ _ _ Hr Hv) as Hf. rewrite forget_last in Hf by (by destruct Hr).
      apply (touch_is c (items ++ [(tv, (kv, vv))]).*2); [done.. | | | ].
      * rewrite lookup_delete_None. by right.
      * by apply Forall_app in Hlt as [? _].
      * unfold zlen. lia.
    + rewrite take_ge by lia. apply (touch_is c items.*2); try done. unfold zlen. lia.
Qed.

Lemma step_is op c l : cache_is c l -> clock c < u64_max ->
  (cache_step op c).2 = (lru_step (cap c) op l).2 /\ cache_is (cache_step op c).1 (lru_step (cap c) op l).1 /\
  cap (cache_step op c).1 = cap c /\ clock (cache_step op c).1 <= clock c + 1.
Proof.
  intros Hc Hclk. pose proof Hc as [[Hcap Hlen] Hn (items & Hl & Hr & Ht)]. destruct op as [k | k v | k | ].
  - destruct (get_is c l k Hc Hclk) as [? ?]. split_and!; [done.. | | ];
      cbn; destruct (c_map c !! k) as [[? ?] | ]; cbn; rewrite ?wrap_clock by lia; done || lia.
  - split_and!; [done | by apply insert_is | | ]; cbn [cache_step fst]; unfold cache_insert, cache_tick;
      cbn [c_map c_order cap clock]; repeat dcase; cbn [cap clock]; rewrite ?wrap_clock by lia; done || lia.
  - cbn [cache_step lru_step fst snd]. unfold cache_invalidate. subst l.
    destruct (c_map c !! k) as [[v t] | ] eqn:Hk; cbn [cap clock].
    + split_and!; [done | | done | lia]. rewrite <- forget_snd. pose proof (forget_length _ _ _ _ _ _ Hr Hk).
      split; cbn; [unfold zlen in *; rewrite length_fmap in *; lia | done | ].
      exists (forget k items). split_and!; [done | by eapply rep_forget | ].
      eapply Forall_impl; [by apply (forget_ticks k) | ]. cbn. intros. lia.
    + split_and!; [done | | done | lia]. rewrite <- forget_snd. by rewrite (forget_fresh _ _ _ _ Hr Hk).
  - cbn. split_and!; [done | | done | lia]. split; cbn; [split; [done | rewrite zlen_nil; lia] | done | ].
    exists []. split_and!; [done | | done].
    split; [ | | constructor | constructor].
    + intros k v t. rewrite lookup_empty. split; [done | by intros ?%not_elem_of_nil].
    + intros k t. rewrite elem_of_empty. split; [done | by intros (v & ?%not_elem_of_nil)].
Qed.

(** Runs of operations with the results of the reads. *)
Fixpoint cache_run (ops : list CacheOp) (c : ReadCache) : ReadCache * list (option bytes) :=
  match ops with
  | [] => (c, [])
  | op :: ops' =>
      let '(c', r) := cache_step op c in
      let '(c'', rs) := cache_run ops' c' in (c'', r :: rs)
  end.

Fixpoint lru_run (n : Z) (ops : list CacheOp) (l : Lru) : Lru * list (option bytes) :=
  match ops with
  | [] => (l, [])
  | op :: ops' =>
      let '(l', r) := lru_step n op l in
      let '(l'', rs) := lru_run n ops' l' in (l'', r :: rs)
  end.

Lemma run_is ops : forall c l, cache_is c l -> clock c + zlen ops <= u64_max ->
  (cache_run ops c).2 = (lru_run (cap c) ops l).2 /\ cache_is (cache_run ops c).1 (lru_run (cap c) ops l).1 /\
  cap (cache_run ops c).1 = cap c.
Proof.
  induction ops as [ | op ops IH]; intros c l Hc Hclk; [done | ].
  rewrite zlen_cons in Hclk. pose proof (zlen_nonneg ops).
  destruct (step_is op c l Hc ltac:(lia)) as (Hr & Hs & Hcap & Hck). cbn.
  destruct (cache_step op c) as [c' r], (lru_step (cap c) op l) as [l' r']. cbn in *. subst r'.
  destruct (IH c' l' Hs ltac:(lia)) as (Hrs & Hss & Hcap'). rewrite Hcap in *.
  destruct (cache_run ops c') as [c'' rs], (lru_run (cap c) ops l') as [l'' rs']. cbn in *. by subst rs'.
Qed.

Lemma new_is n : cache_is (cache_new n) [].
Proof.
  split; cbn; [rewrite zlen_nil; lia | lia | ]. exists []. split_and!; [done | | done].
  split; [ | | constructor | constructor].
  - intros k v t. rewrite lookup_empty. split; [done | by intros ?%not_elem_of_nil].
  - intros k t. rewrite elem_of_empty. split; [done | by intros (v & ?%not_elem_of_nil)].
Qed.

(** * Properties *)

(** C31: From a new cache, any sequence of reads, inserts, invalidations and
    clears (up to the range of the clock) returns what a list of entries kept
    in the order of last use returns: a read finds a value exactly when the
    key was inserted and since then neither invalidated nor evicted, an insert
    into a full cache evicts the least recently used entry and no other, and
    the cache never holds more than its capacity. *)
Theorem cache_refines_lru n ops : zlen ops <= u64_max ->
  let '(c, rs) := cache_run ops (cache_new n) in
  let '(l, rs') := lru_run (Z.max n 1) ops [] in
  rs = rs' /\ cache_len c = zlen l /\ cache_len c <= Z.max n 1 /\ forall k, fst <$> c_map c !! k = lru_find k l.
Proof.
  intros Hl. destruct (run_is ops (cache_new n) [] (new_is n) ltac:(cbn; lia)) as (Hr & Hs & Hcap). cbn in Hr, Hs, Hcap.
  destruct (cache_run _ _) as [c rs], (lru_run _ _ _) as [l rs']. cbn in *.
  destruct Hs as [[? ?] _ (items & <- & Hrep & _)]. unfold cache_len. rewrite (rep_size _ _ _ Hrep).
  unfold zlen in *. rewrite length_fmap in *. split_and!; [done | done | lia | ]. intros k. symmetry.
  by eapply rep_find.
Qed.

Lemma cache_refines_lru_witness :
  (cache_run [CInsert [1] [10]; CInsert [2] [20]; CGet [1]; CInsert [3] [30]; CGet [2]; CGet [1]] (cache_new 2)).2 =
  [None; None; Some [10]; None; None; Some [10]].
Proof.
  pose proof (cache_refines_lru 2
    [CInsert [1] [10]; CInsert [2] [20]; CGet [1]; CInsert [3] [30]; CGet [2]; CGet [1]] ltac:(lit)) as H.
  destruct (cache_run _ _) as [c rs]. cbn in H. destruct H as [-> _]. reflexivity.
Defined.
