(* ===== verification/Shard.v ===== *)
(** kessel-shard: routing keys to shards.

    Rendezvous hashing: every shard has a weight for a key, a checksum of the
    key and the shard number, and the shard with the greatest weight owns the
    key.

    Source: src/crates/kessel-shard/src/lib.rs ([ShardMap]). *)

From Stdlib Require Import ZArith Lia.
From stdpp Require Import base numbers list.
From S2P Require Import Prelude Proto.

#[local] Open Scope Z_scope.

Record ShardMap := mkShardMap { shards : Z }.

Definition shard_map_new (n : Z) : ShardMap := mkShardMap (Z.max n 1).

Definition weight (key : bytes) (s : Z) : Z := crc32c (key ++ le_bytes 4 s).

Definition shard_step (key : bytes) (best : Z * Z) (s : Z) : Z * Z :=
  let w := weight key s in
  if (best.2 <? w) || ((w =? best.2) && (s <? best.1)) then (s, w) else best.

(** A key that has not the 20 bytes of the buffer panics. *)
Definition shard_of (m : ShardMap) (key : bytes) : outcome Z :=
  if zlen key =? 20 then Ret (fold_left (shard_step key) (seqZ 0 (shards m)) (0, 0)).1 else Panic.

Definition is_cross_shard (m : ShardMap) (a b : bytes) : outcome bool :=
  x ← shard_of m a; y ← shard_of m b; Ret (negb (x =? y)).

(** * The owner *)

Lemma weight_nonneg key s : bytes_ok key -> 0 <= weight key s.
Proof.
  intros Hk. apply (crc32c_u32 (key ++ le_bytes 4 s)), bytes_ok_app. split; [done | apply le_bytes_ok].
Qed.

(** [b] owns the key among the shards below [n]. *)
Definition owner (key : bytes) (n b : Z) : Prop :=
  0 <= b < n /\ forall s, 0 <= s < n -> weight key s <= weight key b /\ (weight key s = weight key b -> b <= s).

Lemma owner_unique key n b b' : owner key n b -> owner key n b' -> b = b'.
Proof.
  intros [Hb H] [Hb' H']. destruct (H b' Hb') as [? Hle]. destruct (H' b Hb) as [? Hle']. apply Z.le_antisymm; lia.
Qed.

(** After the shards below [n + 1] the loop holds their owner and its weight. *)
Lemma shard_loop key n : bytes_ok key -> 0 <= n ->
  exists b, fold_left (shard_step key) (seqZ 0 (n + 1)) (0, 0) = (b, weight key b) /\ owner key (n + 1) b.
Proof.
  intros Hk Hn. pattern n. apply natlike_ind; [ | | done].
  - exists 0. pose proof (weight_nonneg key 0 Hk). split.
    + change (seqZ 0 (0 + 1)) with [0]. cbn [fold_left]. unfold shard_step. cbn [fst snd]. destruct (Z.ltb_spec 0 (weight key 0)); cbn [orb]; [done | ].
      rewrite andb_false_r. f_equal. lia.
    + split; [lia | ]. intros s Hs. assert (s = 0) as -> by lia. lia.
  - intros m Hm (b & Hf & Hb & Ho). replace (Z.succ m + 1) with (m + 1 + 1) by lia.
    rewrite (seqZ_app 0 (m + 1) 1), fold_left_app, Hf by lia.
    change (seqZ (0 + (m + 1)) 1) with [m + 1]. cbn [fold_left].
    unfold shard_step. cbn [fst snd]. rewrite (proj2 (Z.ltb_ge (m + 1) b)), andb_false_r, orb_false_r by lia.
    destruct (Z.ltb_spec (weight key b) (weight key (m + 1))); eexists; (split; [reflexivity | ]).
    + split; [lia | ]. intros s Hs. destruct (Z.eq_dec s (m + 1)) as [-> | ]; [lia | ].
      destruct (Ho s ltac:(lia)). lia.
    + split; [lia | ]. intros s Hs. destruct (Z.eq_dec s (m + 1)) as [-> | ]; [lia | ].
      apply Ho. lia.
Qed.

Lemma shard_of_owner n key : bytes_ok key -> zlen key = 20 ->
  exists b, shard_of (shard_map_new n) key = Ret b /\ owner key (Z.max n 1) b.
Proof.
  intros Hk Hl. destruct (shard_loop key (Z.max n 1 - 1) Hk ltac:(lia)) as (b & Hf & Ho).
  rewrite Z.sub_add in Hf, Ho. exists b. split; [ | done]. unfold shard_of. cbn [shard_map_new shards].
  by rewrite Hl, Hf.
Qed.

(** * Properties *)

(** C34: The owner of a 20-byte key is the shard of greatest weight, the least
    of those with equal weight, and growing the shard map moves a key only to
    one of the new shards: whatever an old shard owns after growing it owned
    before. *)
Theorem rendezvous_minimal_remap key n m : bytes_ok key -> zlen key = 20 -> 1 <= n <= m ->
  exists a b, shard_of (shard_map_new n) key = Ret a /\ shard_of (shard_map_new m) key = Ret b /\
    owner key n a /\ owner key m b /\ (b < n -> b = a).
Proof.
  intros Hk Hl Hnm. destruct (shard_of_owner n key Hk Hl) as (a & Ha & Hoa).
  destruct (shard_of_owner m key Hk Hl) as (b & Hb & Hob).
  rewrite (Z.max_l n), (Z.max_l m) in * by lia. exists a, b. split_and!; try done.
  intros Hlt. apply (owner_unique key n); [ | done]. destruct Hob as [? H]. split; [lia | ].
  intros s Hs. apply H. lia.
Qed.

Definition sample_key : bytes := [7; 0; 0; 0; 1; 2; 3; 4; 5; 6; 7; 8; 9; 10; 11; 12; 13; 14; 15; 16].

Lemma rendezvous_minimal_remap_witness :
  exists a b, shard_of (shard_map_new 4) sample_key = Ret a /\ shard_of (shard_map_new 5) sample_key = Ret b /\
    owner sample_key 4 a /\ owner sample_key 5 b /\ (b < 4 -> b = a).
Proof. apply (rendezvous_minimal_remap sample_key 4 5); [lit | reflexivity | lia]. Defined.
