(* ===== verification/VsrWire.v ===== *)
(** kessel-vsr on the wire: messages as bytes.

    A message is a tag and its fields in little endian; operations and logs are
    length-prefixed. The codec of the operations is an interface, [OpCodec];
    the operations of [Sm] have the one of kessel-proto.

    Source: src/crates/kessel-vsr/src/lib.rs (module [wire]),
    src/crates/kessel-proto/src/lib.rs ([Op::encode], [Op::decode], module
    [codec]). *)

From Stdlib Require Import ZArith Lia.
From stdpp Require Import base numbers list gmap.
From S2P Require Import Prelude BTree Reader Vfs SsTable Storage Engine Ssi Tx Sm Vsr.

#[local] Open Scope Z_scope.

Class OpCodec (O : Type) := {
  op_encode : O -> bytes;
  op_decode : bytes -> option O;
  op_ok : O -> Prop;
  op_roundtrip o : op_ok o -> op_decode (op_encode o) = Some o;
}.

Section Wire.
Context {O : Type} `{OpCodec O}.
Implicit Types (m : Msg O) (e : LogEntry O).

Definition pop (op : O) : bytes := with_len 4 (op_encode op).
Definition plog_entry e : bytes :=
  le_bytes 8 (le_op_number e) ++ le_bytes 16 (le_client e) ++ le_bytes 8 (le_req e) ++ pop (le_op e).
Definition plog (log : list (LogEntry O)) : bytes := put_list 4 plog_entry log.

Definition rd_op : Reader O := b ← rd_with_len 4; rd_opt (op_decode b).
Definition rd_entry : Reader (LogEntry O) :=
  n ← rd_le 8; client ← rd_le 16; req ← rd_le 8; op ← rd_op; mret (mkEntry n client req op).
Definition rd_log : Reader (list (LogEntry O)) := rd_put_list 4 rd_entry.

Definition wire_encode m : bytes :=
  match m with
  | Request client req op => [1] ++ le_bytes 16 client ++ le_bytes 8 req ++ pop op
  | Prepare view n client req op commit =>
      [2] ++ le_bytes 8 view ++ le_bytes 8 n ++ le_bytes 16 client ++ le_bytes 8 req ++ le_bytes 8 commit ++ pop op
  | PrepareOk view n replica => [3] ++ le_bytes 8 view ++ le_bytes 8 n ++ le_bytes 4 replica
  | Commit view commit => [4] ++ le_bytes 8 view ++ le_bytes 8 commit
  | StartViewChange view replica => [5] ++ le_bytes 8 view ++ le_bytes 4 replica
  | DoViewChange view log commit normal_view replica =>
      [6] ++ le_bytes 8 view ++ le_bytes 8 commit ++ le_bytes 8 normal_view ++ le_bytes 4 replica ++ plog log
  | StartView view log commit => [7] ++ le_bytes 8 view ++ le_bytes 8 commit ++ plog log
  | GetState view after replica => [8] ++ le_bytes 8 view ++ le_bytes 8 after ++ le_bytes 4 replica
  | NewState view suffix commit => [9] ++ le_bytes 8 view ++ le_bytes 8 commit ++ plog suffix
  end.

Definition rd_msg : Reader (Msg O) :=
  tag ← rd_u8;
  match tag with
  | 1 => client ← rd_le 16; req ← rd_le 8; op ← rd_op; mret (Request client req op)
  | 2 =>
      view ← rd_le 8; n ← rd_le 8; client ← rd_le 16; req ← rd_le 8; commit ← rd_le 8; op ← rd_op;
      mret (Prepare view n client req op commit)
  | 3 => view ← rd_le 8; n ← rd_le 8; replica ← rd_le 4; mret (PrepareOk view n replica)
  | 4 => view ← rd_le 8; commit ← rd_le 8; mret (Commit view commit)
  | 5 => view ← rd_le 8; replica ← rd_le 4; mret (StartViewChange view replica)
  | 6 =>
      view ← rd_le 8; commit ← rd_le 8; normal_view ← rd_le 8; replica ← rd_le 4; log ← rd_log;
      mret (DoViewChange view log commit normal_view replica)
  | 7 => view ← rd_le 8; commit ← rd_le 8; log ← rd_log; mret (StartView view log commit)
  | 8 => view ← rd_le 8; after ← rd_le 8; replica ← rd_le 4; mret (GetState view after replica)
  | 9 => view ← rd_le 8; commit ← rd_le 8; suffix ← rd_log; mret (NewState view suffix commit)
  | _ => rd_fail
  end.

Definition wire_decode (b : bytes) : option (Msg O) := rd_run rd_msg b.

(** ** Round trip *)

Definition op_fits (op : O) : Prop := op_ok op /\ zlen (op_encode op) < 2 ^ 32.
Definition entry_fits e : Prop :=
  u64_ok (le_op_number e) /\ u128_ok (le_client e) /\ u64_ok (le_req e) /\ op_fits (le_op e).
Definition log_fits (log : list (LogEntry O)) : Prop := zlen log < 2 ^ 32 /\ Forall entry_fits log.

(** Numbers of 64 bits, clients of 128, replicas, lengths and counts of 32. *)
Definition msg_fits m : Prop :=
  match m with
  | Request client req op => u128_ok client /\ u64_ok req /\ op_fits op
  | Prepare view n client req op commit =>
      u64_ok view /\ u64_ok n /\ u128_ok client /\ u64_ok req /\ u64_ok commit /\ op_fits op
  | PrepareOk view n replica => u64_ok view /\ u64_ok n /\ u32_ok replica
  | Commit view commit => u64_ok view /\ u64_ok commit
  | StartViewChange view replica => u64_ok view /\ u32_ok replica
  | DoViewChange view log commit normal_view replica =>
      u64_ok view /\ u64_ok commit /\ u64_ok normal_view /\ u32_ok replica /\ log_fits log
  | StartView view log commit => u64_ok view /\ u64_ok commit /\ log_fits log
  | GetState view after replica => u64_ok view /\ u64_ok after /\ u32_ok replica
  | NewState view suffix commit => u64_ok view /\ u64_ok commit /\ log_fits suffix
  end.

Lemma reads_u128 v : u128_ok v -> reads (rd_le 16) (le_bytes 16 v) v.
Proof. intros Hv. apply reads_le. exact Hv. Qed.

Lemma reads_op op : op_fits op -> reads rd_op (pop op) op.
Proof.
  intros [Hok Hl]. eapply reads_bind_last; [by apply reads_with_len | ]. by apply reads_opt, op_roundtrip.
Qed.

(** Reads the next number of a message. *)
Ltac msg_step := eapply reads_bind;
  [first [apply reads_u8 | apply reads_u64; assumption | apply reads_u128; assumption | apply reads_u32; assumption] | cbv beta].

Lemma reads_entry e : entry_fits e -> reads rd_entry (plog_entry e) e.
Proof.
  intros (? & ? & ? & ?). unfold rd_entry, plog_entry. do 3 msg_step.
  eapply reads_last; [by apply reads_op | by destruct e].
Qed.

Lemma reads_log log : log_fits log -> reads rd_log (plog log) log.
Proof.
  intros [? Hl]. apply reads_put_list; [done | ]. eapply Forall_impl; [exact Hl | apply reads_entry].
Qed.

Lemma reads_msg m : msg_fits m -> reads rd_msg (wire_encode m) m.
Proof.
  unfold rd_msg. destruct m; cbn [msg_fits wire_encode]; intros; destruct_and?; repeat msg_step;
    (eapply reads_last; [ | reflexivity]);
    first [by apply reads_op | by apply reads_log | by apply reads_u32 | by apply reads_u64].
Qed.
End Wire.

(** * The operations *)

Definition op_kind (op : Op) : Z :=
  match op with
  | SeqAppend _ => 34
  | SeqRead _ _ => 35
  | SeqAppendOnce _ _ => 37
  | CommitTx _ _ _ _ => 44
  | AdvanceWatermark _ => 45
  | ReportActiveSnapshot _ _ => 46
  end.

Definition put_row (k : RowKey) : bytes := le_bytes 4 k.1 ++ k.2.
Definition put_write (w : RowKey * Slot) : bytes :=
  put_row w.1 ++ match w.2 with None => [0] | Some v => [1] ++ with_len 4 v end.

(** [Op::CommitTx] on the wire. *)
Definition put_commit_tx (snapshot_opnum : Z) (write_set : list (RowKey * Slot)) (commit_opnum : Z)
    (read_set : list RowKey) : bytes :=
  le_bytes 8 snapshot_opnum ++ put_list 4 put_write write_set ++ le_bytes 8 commit_opnum ++ put_list 4 put_row read_set.

(** [Op::encode]. *)
Definition proto_encode (op : Op) : bytes :=
  [op_kind op] ++
  match op with
  | SeqAppend payload => with_len 4 payload
  | SeqRead from limit => le_bytes 8 from ++ le_bytes 4 limit
  | SeqAppendOnce key payload => with_len 4 key ++ with_len 4 payload
  | CommitTx snapshot_opnum write_set commit_opnum read_set =>
      put_commit_tx snapshot_opnum write_set commit_opnum read_set
  | AdvanceWatermark low_water_mark => le_bytes 8 low_water_mark
  | ReportActiveSnapshot replica_id min_active_snapshot => le_bytes 4 replica_id ++ le_bytes 8 min_active_snapshot
  end.

Definition rd_row : Reader RowKey := type_id ← rd_le 4; object_id ← rd_bytes 16; mret (type_id, object_id).
Definition rd_write : Reader (RowKey * Slot) :=
  k ← rd_row;
  presence ← rd_u8;
  match presence with
  | 0 => mret (k, None)
  | 1 => v ← rd_with_len 4; mret (k, Some v)
  | _ => rd_fail
  end.

(** A frame that ends behind the commit number has no read set. *)
Definition rd_commit_tx : Reader Op :=
  snapshot_opnum ← rd_le 8;
  write_set ← rd_put_list 4 rd_write;
  commit_opnum ← rd_le 8;
  r ← rd_rest;
  read_set ← (if bool_decide (r = []) then mret [] else rd_put_list 4 rd_row);
  mret (CommitTx snapshot_opnum write_set commit_opnum read_set).

(** [Op::decode]; bytes behind the operation are ignored. *)
Definition rd_proto : Reader Op :=
  kind ← rd_u8;
  match kind with
  | 34 => payload ← rd_with_len 4; mret (SeqAppend payload)
  | 35 => from ← rd_le 8; limit ← rd_le 4; mret (SeqRead from limit)
  | 37 => key ← rd_with_len 4; payload ← rd_with_len 4; mret (SeqAppendOnce key payload)
  | 44 => rd_commit_tx
  | 45 => low_water_mark ← rd_le 8; mret (AdvanceWatermark low_water_mark)
  | 46 => replica_id ← rd_le 4; min_active_snapshot ← rd_le 8; mret (ReportActiveSnapshot replica_id min_active_snapshot)
  | _ => rd_fail
  end.
Definition proto_decode (b : bytes) : option Op := rd_run rd_proto b.

Definition row_fits (k : RowKey) : Prop := u32_ok k.1 /\ zlen k.2 = 16.
Definition write_fits (w : RowKey * Slot) : Prop :=
  row_fits w.1 /\ forall v, w.2 = Some v -> zlen v < 2 ^ 32.

Definition proto_ok (op : Op) : Prop :=
  match op with
  | SeqAppend payload => zlen payload < 2 ^ 32
  | SeqRead from limit => u64_ok from /\ u32_ok limit
  | SeqAppendOnce key payload => zlen key < 2 ^ 32 /\ zlen payload < 2 ^ 32
  | CommitTx snapshot_opnum write_set commit_opnum read_set =>
      u64_ok snapshot_opnum /\ (zlen write_set < 2 ^ 32 /\ Forall write_fits write_set) /\
      u64_ok commit_opnum /\ (zlen read_set < 2 ^ 32 /\ Forall row_fits read_set)
  | AdvanceWatermark low_water_mark => u64_ok low_water_mark
  | ReportActiveSnapshot replica_id min_active_snapshot => u32_ok replica_id /\ u64_ok min_active_snapshot
  end.

Lemma reads_row k : row_fits k -> reads rd_row (put_row k) k.
Proof.
  destruct k as [t o]. intros [? ?]. cbn in *. eapply reads_bind; [by apply reads_u32 | ].
  eapply reads_last; [by apply reads_bytes | done].
Qed.

Lemma reads_write w : write_fits w -> reads rd_write (put_write w) w.
Proof.
  destruct w as [k [v | ]]; intros [Hk Hv]; cbn in *; (eapply reads_bind; [by apply reads_row | ]).
  - eapply reads_bind; [apply reads_u8 | ]. eapply reads_last; [by apply reads_with_len, Hv | done].
  - apply (reads_bind_last rd_u8 _ [0] 0); [apply reads_u8 | apply reads_ret].
Qed.

Lemma reads_commit_tx snap ws c rs : proto_ok (CommitTx snap ws c rs) ->
  reads rd_commit_tx (put_commit_tx snap ws c rs) (CommitTx snap ws c rs).
Proof.
  intros (? & [Hl Hw] & ? & [Hr Hrs]). unfold rd_commit_tx, put_commit_tx.
  eapply reads_bind; [by apply reads_u64 | cbv beta].
  eapply reads_bind; [apply reads_put_list; [done | ]; eapply Forall_impl; [exact Hw | apply reads_write] | cbv beta].
  eapply reads_bind; [by apply reads_u64 | cbv beta].
  intros rest. erewrite bind_some by reflexivity. cbv beta. rewrite bool_decide_eq_false_2 by done.
  revert rest. change (reads (rs' ← rd_put_list 4 rd_row; mret (CommitTx snap ws c rs')) (put_list 4 put_row rs)
    (CommitTx snap ws c rs)).
  eapply reads_last; [ | done]. apply reads_put_list; [done | ]. eapply Forall_impl; [exact Hrs | apply reads_row].
Qed.

Lemma reads_proto op : proto_ok op -> reads rd_proto (proto_encode op) op.
Proof.
  intros Hop. unfold rd_proto, proto_encode. eapply reads_bind; [apply reads_u8 | ].
  destruct op; cbn [op_kind proto_ok] in *; cbv beta iota; destruct_and?.
  - eapply reads_last; [by apply reads_with_len | done].
  - eapply reads_bind; [by apply reads_u64 | ]. eapply reads_last; [by apply reads_u32 | done].
  - eapply reads_bind; [by apply reads_with_len | ]. eapply reads_last; [by apply reads_with_len | done].
  - by apply reads_commit_tx.
  - eapply reads_last; [by apply reads_u64 | done].
  - eapply reads_bind; [by apply reads_u32 | ]. eapply reads_last; [by apply reads_u64 | done].
Qed.

#[global, program] Instance proto_codec : OpCodec Op := {|
  op_encode := proto_encode; op_decode := proto_decode; op_ok := proto_ok |}.
Next Obligation. intros op Hop. by apply reads_run, reads_proto. Qed.

(** * Properties *)

(** C32: Every message whose numbers, lengths and counts are in the range of
    their fields, with any of the modelled operations inside, is decoded from
    its frame as itself. *)
Theorem wire_roundtrip (m : Msg Op) : msg_fits m -> wire_decode (wire_encode m) = Some m.
Proof. intros Hm. by apply reads_run, reads_msg. Qed.

Definition sample_msg : Msg Op :=
  DoViewChange 3 [mkEntry 1 7 1 (CommitTx 0 [((9, replicate 16 1), Some [5]); ((9, replicate 16 2), None)] 1
                                   [(9, replicate 16 3)])] 1 2 0.

Lemma sample_msg_fits : msg_fits sample_msg.
Proof.
  unfold sample_msg. cbn [msg_fits]. split_and!; try lit. split; [done | ]. apply Forall_singleton.
  split_and!; cbn [le_op_number le_client le_req le_op]; try lit. split; [ | done].
  cbn [op_ok proto_codec proto_ok]. split_and!; [lit | done | | lit | done | ].
  - repeat (apply Forall_cons; split; [split; [split; [lit | done] | intros v [=]; subst; done] | ]). by apply Forall_nil.
  - apply Forall_singleton. split; [lit | done].
Qed.

Lemma wire_roundtrip_witness : wire_decode (wire_encode sample_msg) = Some sample_msg.
Proof. apply wire_roundtrip, sample_msg_fits. Defined.
