(* ===== verification/Rows.v ===== *)
(** kessel-sm: types, records, constraints and secondary indexes.

    The arms of [apply] that work on typed records: the catalog operations,
    record creation, update, deletion with its ON DELETE closure, reads through
    the cache, and equality, composite and ordered indexes. [Db] is the whole [StateMachine] of the
    source: the fields of [Sm.StateMachine] and the catalog, the cache and the
    schema epoch. The texts of errors are the constructors of [Message].

    Source: src/crates/kessel-sm/src/lib.rs ([StateMachine]). *)

From Stdlib Require Import ZArith Lia String.
From stdpp Require Import base numbers list sorting gmap fin_maps.
From S2P Require Import Prelude BTree Proto Vfs Wal SsTable Storage Mvcc Engine Ssi Tx Sm.
From S2P Require Import Reader Catalog Codec Expr Cache.

#[local] Open Scope Z_scope.
#[local] Set Warnings "-register-all".

(** ** Reserved keys *)

Definition catalog_key : Key := make_key 0 (replicate 16 0).
Definition OVERFLOW_TYPE : Z := 0xFFFFFFFF.
Definition handle_key (handle : Z) : Key := make_key OVERFLOW_TYPE (le_bytes 8 handle ++ replicate 8 0).
Definition XSHARD_TYPE : Z := 0xFFFFFFF1.
Definition xshard_cursor_key : Key := make_key XSHARD_TYPE (replicate 16 0).
Definition XVOTE_TYPE : Z := 0xFFFFFFF3.
Definition xvote_key (seq : Z) : Key := make_key XVOTE_TYPE (replicate 8 0 ++ be_bytes 8 seq).
Definition SERIAL_TYPE : Z := 0xFFFFFFF4.
Definition serial_counter_key (type_id : Z) : Key := make_key SERIAL_TYPE (le_bytes 4 type_id ++ replicate 12 0).
Definition SERIAL_SENTINEL : bytes := replicate 16 255.
Definition DEFAULT_READ_CACHE : Z := 8192.

(** ** Results *)

Inductive Message :=
  | NoType (type_id : Z)
  | NoField (field_id : Z)
  | Text (s : string)
  | Store (place : string) (e : io_error)
  | TypeExists (name : text)
  | TypeIdsExhausted (next : Z)
  | UnknownColumn (name : text)
  | UnknownTable (name : text)
  | SerialOverflow (type_id : Z)
  | SerialPatch (type_id field_id : Z)
  | UpdateSetDecode (e : CodecError)
  | UpdateSetEncode (e : CodecError)
  | TriggerRejected (n : Z)
  | TriggerError (n : Z) (e : ExprError)
  | NotNullViolated (name : text)
  | UniqueViolated (name : option text)
  | FkViolated (name : option text) (ref_type : Z)
  | CheckFailed (n : Z)
  | CheckError (n : Z) (e : ExprError)
  | BadProgramError (e : ExprError)
  | RestrictViolated (child_type field_id target_type : Z)
  | BudgetExceeded
  | XshardOutOfOrder (have got : Z)
  | ProgramError (place : string) (e : ExprError)
  | NoGroupField (field_id : Z)
  | NoSortField (field_id : Z)
  | TypeReferenced (type_id : Z) (by_type : text)
  | NameInUse (name : text)
  | DropDecode (e : CodecError)
  | DropEncode (e : CodecError).

Inductive DbResult :=
  | Core (r : OpResult)
  | ResOk
  | ResGot (v : bytes)
  | ResExists
  | ResNotFound
  | ResSchemaError (m : Message)
  | ResConstraint (m : Message)
  | TypeCreated (type_id : Z)
  | Created (id : Z)
  | CreatedMany (ids : list Z).

(** The results a batch rolls back on. *)
Definition failed (r : DbResult) : bool :=
  match r with
  | ResExists | ResNotFound | ResSchemaError _ | ResConstraint _ => true
  | Core (SchemaError _ _) => true
  | _ => false
  end.

(** ** State *)

Record Db (W : Type) := mkDb {
  db_sm : StateMachine W;
  db_catalog : Catalog;
  db_cache : option ReadCache;
  catalog_epoch : Z
}.
Arguments mkDb {W}. Arguments db_sm {W}. Arguments db_catalog {W}. Arguments db_cache {W}. Arguments catalog_epoch {W}.

(** [catalog.get_mut(id)] with [f] run on the type it finds. *)
Fixpoint update_first (id : Z) (f : ObjectType -> ObjectType) (ts : list ObjectType) : list ObjectType :=
  match ts with
  | [] => []
  | t :: ts' => if type_id t =? id then f t :: ts' else t :: update_first id f ts'
  end.
Definition catalog_update (id : Z) (f : ObjectType -> ObjectType) (c : Catalog) : Catalog :=
  mkCatalog (update_first id f (types c)) (next_type_id c) (external c).

(** The fields of a type that DDL changes. *)
Definition push_index (fid : Z) (t : ObjectType) : ObjectType :=
  mkObjectType (type_id t) (ot_name t) (schema_ver t) (fields t) (indexes t ++ [fid]) (unique t) (fks t) (checks t)
    (triggers t) (ordered t) (composite t) (defaults t) (serial_pk t) (serial_field_id t).
Definition push_unique (fid : Z) (t : ObjectType) : ObjectType :=
  mkObjectType (type_id t) (ot_name t) (schema_ver t) (fields t) (indexes t) (unique t ++ [fid]) (fks t) (checks t)
    (triggers t) (ordered t) (composite t) (defaults t) (serial_pk t) (serial_field_id t).
Definition push_fk (fk : Z * Z * Z) (t : ObjectType) : ObjectType :=
  mkObjectType (type_id t) (ot_name t) (schema_ver t) (fields t) (indexes t) (unique t) (fks t ++ [fk]) (checks t)
    (triggers t) (ordered t) (composite t) (defaults t) (serial_pk t) (serial_field_id t).
Definition push_check (p : bytes) (t : ObjectType) : ObjectType :=
  mkObjectType (type_id t) (ot_name t) (schema_ver t) (fields t) (indexes t) (unique t) (fks t) (checks t ++ [p])
    (triggers t) (ordered t) (composite t) (defaults t) (serial_pk t) (serial_field_id t).
Definition push_trigger (p : bytes) (t : ObjectType) : ObjectType :=
  mkObjectType (type_id t) (ot_name t) (schema_ver t) (fields t) (indexes t) (unique t) (fks t) (checks t)
    (triggers t ++ [p]) (ordered t) (composite t) (defaults t) (serial_pk t) (serial_field_id t).
Definition push_ordered (fid : Z) (t : ObjectType) : ObjectType :=
  mkObjectType (type_id t) (ot_name t) (schema_ver t) (fields t) (indexes t) (unique t) (fks t) (checks t)
    (triggers t) (ordered t ++ [fid]) (composite t) (defaults t) (serial_pk t) (serial_field_id t).
Definition push_composite (fs : list Z) (t : ObjectType) : ObjectType :=
  mkObjectType (type_id t) (ot_name t) (schema_ver t) (fields t) (indexes t) (unique t) (fks t) (checks t)
    (triggers t) (ordered t) (composite t ++ [fs]) (defaults t) (serial_pk t) (serial_field_id t).
Definition push_field (f : Field) (t : ObjectType) : ObjectType :=
  mkObjectType (type_id t) (ot_name t) (wrap32 (schema_ver t + 1)) (fields t ++ [f]) (indexes t) (unique t) (fks t)
    (checks t) (triggers t) (ordered t) (composite t) (defaults t) (serial_pk t) (serial_field_id t).

(** ** Fields of a record *)

(** Index, offset and field of a field id. *)
Definition field_pos (ot : ObjectType) (fid : Z) : option (Z * Z * Field) :=
  i ← field_index ot fid;
  off ← offsets (compute_layout ot) !! Z.to_nat i;
  f ← fields ot !! Z.to_nat i;
  Some (i, off, f).

Definition idx_field_pos (ot : ObjectType) (fid : Z) : option (Z * Z) :=
  '(_, off, f) ← field_pos ot fid;
  if bool_decide (f_kind f = OverflowRef) then None else Some (off, width (f_kind f)).

Definition slot_of (rec : bytes) (off w : Z) : option bytes := get_range rec off (off + w).

(** [norm], and [v.resize(w, 0)]. *)
Definition norm (v : bytes) (w : Z) : bytes := take (Z.to_nat w) v ++ replicate (Z.to_nat (w - zlen v)) 0.

(** [f.name] of a field id, for messages. *)
Definition name_of (ot : ObjectType) (fid : Z) : option text := (fun x => f_name x.2) <$> field_pos ot fid.

(** Null and shape tests of kessel-sm; [Expr] has its own. *)
Definition row_field_is_null (rec : bytes) (i : Z) : bool :=
  if zlen rec <? HEADER_BYTES then true
  else if stored_fc rec <=? i then true
  else null_bit rec i.

Definition row_is_codec (ot : ObjectType) (rec : bytes) : bool :=
  (zlen rec =? record_size (compute_layout ot)) && (stored_fc rec =? zlen (fields ot)).

Fixpoint first_null (rec : bytes) (i : Z) (fs : list Field) : option text :=
  match fs with
  | [] => None
  | f :: fs' => if negb (f_nullable f) && row_field_is_null rec i then Some (f_name f) else first_null rec (i + 1) fs'
  end.

Definition check_not_null (ot : ObjectType) (rec : bytes) : unit + Message :=
  if negb (row_is_codec ot rec) then inl tt else
  match first_null rec 0 (fields ot) with
  | Some name => inr (NotNullViolated name)
  | None => inl tt
  end.

(** ** Keys of the indexes *)

Definition idx_ns (tag ut : Z) : bytes := le_bytes 4 (Z.lor tag (Z.land ut 0xFFFF)).

Definition idx_prefix (ut fid : Z) (v : bytes) : bytes := idx_ns 0xFFFE0000 ut ++ le_bytes 2 fid ++ v.
Definition idx_entry_key (ut fid : Z) (v obj : bytes) : Key := idx_prefix ut fid v ++ obj.

Definition composite_fid (n : Z) : Z := Z.lor 0xC000 (Z.land n 0x3FFF).

Fixpoint composite_concat (ot : ObjectType) (flist : list Z) (rec : bytes) : option bytes :=
  match flist with
  | [] => Some []
  | fid :: flist' =>
      '(_, off, f) ← field_pos ot fid;
      v ← slot_of rec off (width (f_kind f));
      rest ← composite_concat ot flist' rec;
      Some (v ++ rest)
  end.

(** Ordered indexes on numbers of at most 8 bytes. *)
Definition is_ord_kind (k : FieldKind) : bool :=
  match k with
  | U8 | U16 | U32 | U64 | I8 | I16 | I32 | I64 | Bool | Timestamp | Fixed _ => true
  | _ => false
  end.

Definition ord_field_pos (ot : ObjectType) (fid : Z) : option (Z * Z * FieldKind) :=
  '(_, off, f) ← field_pos ot fid;
  if is_ord_kind (f_kind f) then Some (off, width (f_kind f), f_kind f) else None.

(** The top bit of the last byte of a little-endian number. *)
Definition sign_bit (raw : bytes) : bool :=
  match last raw with Some x => negb (Z.land x 0x80 =? 0) | None => false end.

Definition extend_le (n : nat) (signed : bool) (raw : bytes) : bytes :=
  raw ++ replicate (n - length raw) (if signed && sign_bit raw then 255 else 0).

Definition order_key (k : FieldKind) (raw : bytes) : option bytes :=
  let w := width k in
  if (8 <? w) || (zlen raw <? w) then None else
  let v := le_value (extend_le 8 (is_signed k) (take (Z.to_nat w) raw)) in
  Some (be_bytes 8 (if is_signed k then Z.lxor v (2 ^ 63) else v)).

Definition oidx_id (fid : Z) (ok tail : bytes) : bytes := le_bytes 2 fid ++ ok ++ tail.
Definition oidx_key (ut fid : Z) (ok : bytes) : Key := idx_ns 0xFFFD0000 ut ++ oidx_id fid ok (replicate 6 0).

(** Ordered indexes on byte columns and 128-bit integers. *)
Definition is_vord_kind (k : FieldKind) : bool :=
  match k with Char _ | Bytes _ | U128 | I128 => true | _ => false end.

Definition vord_field_pos (ot : ObjectType) (fid : Z) : option (Z * Z * FieldKind) :=
  '(_, off, f) ← field_pos ot fid;
  if is_vord_kind (f_kind f) then Some (off, width (f_kind f), f_kind f) else None.

Definition vorder_key (k : FieldKind) (raw : bytes) (w : Z) : bytes :=
  match k with
  | U128 => be_bytes 16 (le_value (extend_le 16 false (take 16 raw)))
  | I128 => be_bytes 16 (Z.lxor (le_value (extend_le 16 true (take 16 raw))) (2 ^ 127))
  | _ => norm raw w
  end.

Definition voidx_key (ut fid : Z) (ok : bytes) : Key := idx_ns 0xFFFC0000 ut ++ le_bytes 2 fid ++ ok.

(** A bucket of object ids: whole 16-byte chunks, in order. [insert_id] and
    [remove_id] are the binary searches on a sorted bucket. *)
Fixpoint bucket_loop (fuel : nat) (b : bytes) : list bytes :=
  match fuel with
  | O => []
  | S fuel' => if zlen b <? 16 then [] else take 16 b :: bucket_loop fuel' (drop 16 b)
  end.
Definition bucket_ids (b : bytes) : list bytes := bucket_loop (length b) b.

Fixpoint insert_id (o : bytes) (ids : list bytes) : list bytes :=
  match ids with
  | [] => [o]
  | x :: ids' =>
      match kcmp o x with
      | Lt => o :: ids
      | Eq => ids
      | Gt => x :: insert_id o ids'
      end
  end.
Definition remove_id (o : bytes) (ids : list bytes) : list bytes := filter (fun x => x <> o) ids.

(** [sort_unstable(); dedup()]. *)
Fixpoint dedup_sorted (l : list bytes) : list bytes :=
  match l with
  | x :: ((y :: _) as l') => if bool_decide (x = y) then dedup_sorted l' else x :: dedup_sorted l'
  | l => l
  end.
Definition sort_dedup (ids : list bytes) : list bytes := dedup_sorted (merge_sort kle ids).

Section Rows.
Context {W : Type} `{Vfs W}.
Implicit Types db : Db W.

Abbreviation DM := (M (Db W)).

Definition db_storage db : Storage W := sm_storage (db_sm db).
Definition set_sm (x : StateMachine W) db : Db W := mkDb x (db_catalog db) (db_cache db) (catalog_epoch db).
Definition set_db_storage (x : Storage W) db : Db W := set_sm (set_storage x (db_sm db)) db.
Definition set_catalog (x : Catalog) db : Db W := mkDb (db_sm db) x (db_cache db) (catalog_epoch db).
Definition set_cache (x : option ReadCache) db : Db W := mkDb (db_sm db) (db_catalog db) x (catalog_epoch db).
Definition set_epoch (x : Z) db : Db W := mkDb (db_sm db) (db_catalog db) (db_cache db) x.

Definition on_sm {A} (m : M (StateMachine W) A) : DM A := fun db =>
  let '(sm', r) := m (db_sm db) in (set_sm sm' db, r).

(** A storage call whose [io::Result] is matched on or dropped. *)
Definition db_put (op_number : Z) (k : Key) (v : bytes) : DM (unit + io_error) :=
  on_sm (on_storage_result (put op_number k v)).
Definition db_delete (op_number : Z) (k : Key) : DM (unit + io_error) :=
  on_sm (on_storage_result (delete_key op_number k)).
Definition db_commit_txn : DM (unit + io_error) := on_sm (on_storage_result commit_txn).
Definition db_begin_txn : DM unit := m_modify (fun db => set_db_storage (begin_txn (db_storage db)) db).
Definition db_abort_txn : DM unit := m_modify (fun db => set_db_storage (abort_txn (db_storage db)) db).

Definition db_get db (k : Key) : Slot := Engine.get (db_storage db) k.
Definition get_type db (id : Z) : option ObjectType := catalog_get (db_catalog db) id.

Definition with_cache (f : ReadCache -> ReadCache) : DM unit :=
  m_modify (fun db => set_cache (f <$> db_cache db) db).

Definition db_open : M W (Db W) :=
  sm ← sm_open;
  let c := default catalog_default (b ← Engine.get (sm_storage sm) catalog_key; catalog_decode b) in
  let c := if next_type_id c =? 0 then mkCatalog (types c) 1 (external c) else c in
  mret (mkDb sm c (Some (cache_new DEFAULT_READ_CACHE)) 0).

Definition persist_catalog (op_number : Z) : DM DbResult :=
  db ← m_get;
  r ← db_put op_number catalog_key (catalog_encode (db_catalog db));
  match r with
  | inl _ => _ ← m_modify (fun db => set_epoch (wrap64 (catalog_epoch db + 1)) db); mret ResOk
  | inr e => mret (ResSchemaError (Store "catalog persist" e))
  end.

(** Every row of a type, in key order. *)
Definition type_rows db (t : Z) : list (Key * bytes) :=
  scan_range (db_storage db) (make_key t (replicate 16 0)) (make_key t (replicate 16 255)).
Definition row_id (k : Key) : bytes := take 16 (drop 4 k).

(** ** Overflow blobs *)

(** [n] entries of the trailer from [p] on, written and patched in order. *)
Fixpoint overflow_loop (op_number : Z) (lay : Layout) (tr : bytes) (n : nat) (p : Z) (fixed : bytes) :
    DM (bytes + DbResult) :=
  match n with
  | O => mret (inl fixed)
  | S n' =>
      match get_range tr p (p + 6) with
      | None => mret (inr (ResSchemaError (Text "truncated overflow entry")))
      | Some h =>
          let field_idx := le_value (take 2 h) in
          let len := le_value (drop 2 h) in
          match get_range tr (p + 6) (p + 6 + len) with
          | None => mret (inr (ResSchemaError (Text "overflow blob overruns")))
          | Some blob =>
              match offsets lay !! Z.to_nat field_idx with
              | Some off =>
                  if off + 8 <=? record_size lay then
                    let handle := Z.lor (wrap64 (Z.shiftl op_number 20)) field_idx in
                    r ← db_put op_number (handle_key handle) blob;
                    match r with
                    | inr e => mret (inr (ResSchemaError (Store "overflow store" e)))
                    | inl _ => overflow_loop op_number lay tr n' (p + 6 + len) (splice fixed off (le_bytes 8 handle))
                    end
                  else mret (inr (ResSchemaError (Text "bad overflow field_idx")))
              | None => mret (inr (ResSchemaError (Text "bad overflow field_idx")))
              end
          end
      end
  end.

Definition materialize_overflow (op_number t : Z) (record : bytes) : DM (bytes + DbResult) :=
  db ← m_get;
  match get_type db t with
  | None => mret (inr (ResSchemaError (NoType t)))
  | Some ot =>
      let lay := compute_layout ot in
      if zlen record <=? record_size lay then mret (inl record) else
      let fixed := take (Z.to_nat (record_size lay)) record in
      let tr := drop (Z.to_nat (record_size lay)) record in
      match get_range tr 0 2 with
      | None => mret (inr (ResSchemaError (Text "bad overflow trailer")))
      | Some h => overflow_loop op_number lay tr (Z.to_nat (le_value h)) 2 fixed
      end
  end.

Fixpoint handles_of (os : list Z) (fs : list Field) (rec : bytes) : list Z :=
  match os, fs with
  | off :: os', f :: fs' =>
      let rest := handles_of os' fs' rec in
      if bool_decide (f_kind f = OverflowRef) then
        match slot_of rec off 8 with
        | Some b => if le_value b =? 0 then rest else le_value b :: rest
        | None => rest
        end
      else rest
  | _, _ => []
  end.

Definition overflow_handles db (t : Z) (rec : bytes) : list Z :=
  match get_type db t with
  | Some ot => handles_of (offsets (compute_layout ot)) (fields ot) rec
  | None => []
  end.

Fixpoint reclaim_overflow (op : Z) (freed : list Z) : DM unit :=
  match freed with
  | [] => mret tt
  | h :: freed' => _ ← db_delete op (handle_key h); reclaim_overflow op freed'
  end.

(** ** Index maintenance *)

Definition idx_add (op ut fid : Z) (v obj : bytes) : DM unit :=
  _ ← db_put op (idx_entry_key ut fid v obj) []; mret tt.
Definition idx_remove (op ut fid : Z) (v obj : bytes) : DM unit :=
  _ ← db_delete op (idx_entry_key ut fid v obj); mret tt.

Definition idx_lookup db (ut fid : Z) (v : bytes) : list bytes :=
  let prefix := idx_prefix ut fid v in
  let ks := scan_prefix (db_storage db) (prefix ++ replicate 16 0) (prefix ++ replicate 16 255) in
  sort_dedup
    (drop (length prefix) <$>
       filter (fun k => length k = (length prefix + 16)%nat /\ take (length prefix) k = prefix) ks).

(** The buckets of the ordered indexes, under the key of either kind. *)
Definition bucket_add (op : Z) (key : Key) (obj : bytes) : DM unit :=
  db ← m_get;
  let ids := match db_get db key with Some b => bucket_ids b | None => [] end in
  _ ← db_put op key (concat (insert_id obj ids));
  mret tt.

Definition bucket_remove (op : Z) (key : Key) (obj : bytes) : DM unit :=
  db ← m_get;
  match db_get db key with
  | None => mret tt
  | Some b =>
      let ids := remove_id obj (bucket_ids b) in
      if bool_decide (ids = []) then _ ← db_delete op key; mret tt
      else _ ← db_put op key (concat ids); mret tt
  end.

Definition oidx_add (op ut fid : Z) (ok obj : bytes) : DM unit := bucket_add op (oidx_key ut fid ok) obj.
Definition oidx_remove (op ut fid : Z) (ok obj : bytes) : DM unit := bucket_remove op (oidx_key ut fid ok) obj.
Definition voidx_add (op ut fid : Z) (ok obj : bytes) : DM unit := bucket_add op (voidx_key ut fid ok) obj.
Definition voidx_remove (op ut fid : Z) (ok obj : bytes) : DM unit := bucket_remove op (voidx_key ut fid ok) obj.

(** An entry moves from [ov] to [nv]: nothing when they are equal, else the old
    one is removed and the new one added. *)
Definition move_entry (add remove : bytes -> DM unit) (ov nv : option bytes) : DM unit :=
  if bool_decide (ov = nv) then mret tt else
  _ ← match ov with Some o => remove o | None => mret tt end;
  match nv with Some n => add n | None => mret tt end.

(** The loop body over each list of indexes. *)
Fixpoint for_each {A} (f : A -> DM unit) (l : list A) : DM unit :=
  match l with
  | [] => mret tt
  | x :: l' => _ ← f x; for_each f l'
  end.

Definition maintain_eq (op t : Z) (ot : ObjectType) (obj : bytes) (old new : option bytes) (fid : Z) : DM unit :=
  match idx_field_pos ot fid with
  | None => mret tt
  | Some (off, w) =>
      move_entry (fun v => idx_add op t fid v obj) (fun v => idx_remove op t fid v obj)
        (r ← old; slot_of r off w) (r ← new; slot_of r off w)
  end.

(** Ordered indexes compare the stored bytes and move the order keys. *)
Definition move_ordered (f : bytes -> option bytes) (add remove : bytes -> DM unit) (ov nv : option bytes) : DM unit :=
  if bool_decide (ov = nv) then mret tt else
  _ ← match ov ≫= f with Some o => remove o | None => mret tt end;
  match nv ≫= f with Some n => add n | None => mret tt end.

Definition maintain_ord (op t : Z) (ot : ObjectType) (obj : bytes) (old new : option bytes) (fid : Z) : DM unit :=
  match ord_field_pos ot fid with
  | None => mret tt
  | Some (off, w, kind) =>
      move_ordered (order_key kind) (fun k => oidx_add op t fid k obj) (fun k => oidx_remove op t fid k obj)
        (r ← old; slot_of r off w) (r ← new; slot_of r off w)
  end.

Definition maintain_vord (op t : Z) (ot : ObjectType) (obj : bytes) (old new : option bytes) (fid : Z) : DM unit :=
  match vord_field_pos ot fid with
  | None => mret tt
  | Some (off, w, kind) =>
      move_ordered (fun b => Some (vorder_key kind b w))
        (fun k => voidx_add op t fid k obj) (fun k => voidx_remove op t fid k obj)
        (r ← old; slot_of r off w) (r ← new; slot_of r off w)
  end.

(** A dropped composite index keeps its slot as an empty list. *)
Definition maintain_composite (op t : Z) (ot : ObjectType) (obj : bytes) (old new : option bytes)
    (c : nat * list Z) : DM unit :=
  if bool_decide (c.2 = []) then mret tt else
  let cfid := composite_fid (Z.of_nat c.1) in
  move_entry (fun v => idx_add op t cfid v obj) (fun v => idx_remove op t cfid v obj)
    (r ← old; composite_concat ot c.2 r) (r ← new; composite_concat ot c.2 r).

Definition idx_maintain (op t : Z) (obj : bytes) (old new : option bytes) : DM unit :=
  db ← m_get;
  match get_type db t with
  | None => mret tt
  | Some ot =>
      _ ← for_each (maintain_eq op t ot obj old new) (indexes ot);
      _ ← for_each (maintain_ord op t ot obj old new) (ordered ot);
      _ ← for_each (maintain_vord op t ot obj old new) (ordered ot);
      for_each (maintain_composite op t ot obj old new) (imap pair (composite ot))
  end.

(** ** Constraints *)

Definition unique_conflict db (ut fid : Z) (v self_obj : bytes) : bool :=
  existsb (fun id => negb (bool_decide (id = self_obj))) (idx_lookup db ut fid v).

Fixpoint unique_loop db (t : Z) (ot : ObjectType) (rec self_obj : bytes) (fids : list Z) : unit + Message :=
  match fids with
  | [] => inl tt
  | fid :: fids' =>
      match ('(off, w) ← idx_field_pos ot fid; slot_of rec off w) with
      | Some v =>
          if unique_conflict db t fid v self_obj then inr (UniqueViolated (name_of ot fid))
          else unique_loop db t ot rec self_obj fids'
      | None => unique_loop db t ot rec self_obj fids'
      end
  end.

Definition check_unique db (t : Z) (rec self_obj : bytes) : unit + Message :=
  match get_type db t with
  | None => inl tt
  | Some ot => unique_loop db t ot rec self_obj (unique ot)
  end.

(** The object id a foreign-key field holds; [None] when it is not checked. *)
Definition fk_target (ot : ObjectType) (rec : bytes) (fid : Z) : option bytes :=
  '(i, off, f) ← field_pos ot fid;
  if row_field_is_null rec i then None else
  fv ← slot_of rec off (width (f_kind f));
  Some (norm fv 16).

Fixpoint fk_loop db (ot : ObjectType) (rec : bytes) (l : list (Z * Z * Z)) : unit + Message :=
  match l with
  | [] => inl tt
  | (fid, rt, _) :: l' =>
      match fk_target ot rec fid with
      | None => fk_loop db ot rec l'
      | Some id16 =>
          match db_get db (make_key rt id16) with
          | Some _ => fk_loop db ot rec l'
          | None => inr (FkViolated (name_of ot fid) rt)
          end
      end
  end.

Definition check_fk db (t : Z) (rec : bytes) : unit + Message :=
  match get_type db t with
  | None => inl tt
  | Some ot => if bool_decide (fks ot = []) || negb (row_is_codec ot rec) then inl tt else fk_loop db ot rec (fks ot)
  end.

Fixpoint trigger_loop (ot : ObjectType) (n : Z) (progs : list bytes) (rec : bytes) : outcome (bytes + Message) :=
  match progs with
  | [] => Ret (inl rec)
  | prog :: progs' =>
      r ← eval_trigger prog ot rec;
      match r with
      | inl (Some next) => trigger_loop ot (n + 1) progs' next
      | inl None => Ret (inr (TriggerRejected n))
      | inr e => Ret (inr (TriggerError n e))
      end
  end.

Definition run_triggers db (t : Z) (rec : bytes) : outcome (bytes + Message) :=
  match get_type db t with
  | None => Ret (inl rec)
  | Some ot => trigger_loop ot 0 (triggers ot) rec
  end.

Fixpoint check_loop (ot : ObjectType) (n : Z) (progs : list bytes) (rec : bytes) : outcome (unit + Message) :=
  match progs with
  | [] => Ret (inl tt)
  | prog :: progs' =>
      r ← eval prog ot rec;
      match r with
      | inl true => check_loop ot (n + 1) progs' rec
      | inl false => Ret (inr (CheckFailed n))
      | inr e => Ret (inr (CheckError n e))
      end
  end.

Definition check_checks db (t : Z) (rec : bytes) : outcome (unit + Message) :=
  match get_type db t with
  | None => Ret (inl tt)
  | Some ot => check_loop ot 0 (checks ot) rec
  end.

(** ** Writing records *)

(** The steps Create and Update share: overflow blobs, triggers, NOT NULL,
    UNIQUE, foreign keys, CHECKs. *)
Definition admit_record (op_number t : Z) (id record : bytes) : DM (bytes + DbResult) :=
  m ← materialize_overflow op_number t record;
  match m with
  | inr e => mret (inr e)
  | inl record =>
      db ← m_get;
      r ← m_lift (run_triggers db t record);
      match r with
      | inr e => mret (inr (ResConstraint e))
      | inl record =>
          match match get_type db t with Some ot => check_not_null ot record | None => inl tt end with
          | inr e => mret (inr (ResConstraint e))
          | inl _ =>
              match check_unique db t record id with
              | inr e => mret (inr (ResConstraint e))
              | inl _ =>
                  match check_fk db t record with
                  | inr e => mret (inr (ResConstraint e))
                  | inl _ =>
                      c ← m_lift (check_checks db t record);
                      match c with
                      | inr e => mret (inr (ResConstraint e))
                      | inl _ => mret (inl record)
                      end
                  end
              end
          end
      end
  end.

Definition need_idx db (t : Z) : bool :=
  match get_type db t with
  | Some ot => negb (bool_decide (indexes ot = []) && bool_decide (ordered ot = []) && bool_decide (composite ot = []))
  | None => false
  end.

Definition patch_serial_field db (t : Z) (rec : bytes) (seq : Z) : bytes + Message :=
  match get_type db t with
  | None => inl rec
  | Some ot =>
      match serial_field_id ot with
      | None => inl rec
      | Some fid =>
          if negb (zlen rec =? record_size (compute_layout ot)) then inl rec else
          match idx_field_pos ot fid with
          | None => inl rec
          | Some (off, w) =>
              if (w =? 0) || (16 <? w) || (zlen rec <? off + w) then inr (SerialPatch t fid)
              else inl (splice rec off (take (Z.to_nat w) (le_bytes 16 seq)))
          end
      end
  end.

Definition serial_counter db (t : Z) : Z :=
  default 0 (b ← db_get db (serial_counter_key t); h ← get_range b 0 8; Some (le_value h)).

(** Create past the choice of the id; [seq] is the assigned serial. *)
Definition create_at (op_number t : Z) (id : bytes) (seq : option Z) (record : bytes) : DM DbResult :=
  db ← m_get;
  let key := make_key t id in
  match db_get db key with
  | Some _ => mret ResExists
  | None =>
      a ← admit_record op_number t id record;
      match a with
      | inr e => mret e
      | inl record =>
          db ← m_get;
          match match seq with Some s => patch_serial_field db t record s | None => inl record end with
          | inr e => mret (ResSchemaError e)
          | inl record =>
              r ← db_put op_number key record;
              match r with
              | inr e => mret (ResSchemaError (Store "store" e))
              | inl _ =>
                  _ ← with_cache (fun c => cache_insert c key record);
                  _ ← (if need_idx db t then idx_maintain op_number t id None (Some record) else mret tt);
                  match seq with
                  | None => mret ResOk
                  | Some s =>
                      r ← db_put op_number (serial_counter_key t) (le_bytes 8 s);
                      match r with
                      | inr e => mret (ResSchemaError (Store "serial counter store" e))
                      | inl _ => mret (Created (le_value id))
                      end
                  end
              end
          end
      end
  end.

Definition create_row (op_number t : Z) (id record : bytes) : DM DbResult :=
  db ← m_get;
  match get_type db t with
  | None => mret (ResSchemaError (NoType t))
  | Some ot =>
      if serial_pk ot && bool_decide (id = SERIAL_SENTINEL) then
        let cur := serial_counter db t in
        if cur =? u64_max then mret (ResSchemaError (SerialOverflow t))
        else create_at op_number t (le_bytes 16 (cur + 1)) (Some (cur + 1)) record
      else create_at op_number t id None record
  end.

Definition update_row (op_number t : Z) (id record : bytes) : DM DbResult :=
  db ← m_get;
  match get_type db t with
  | None => mret (ResSchemaError (NoType t))
  | Some _ =>
      let key := make_key t id in
      match db_get db key with
      | None => mret ResNotFound
      | Some old =>
          a ← admit_record op_number t id record;
          match a with
          | inr e => mret e
          | inl record =>
              db ← m_get;
              let new_h := overflow_handles db t record in
              let freed := filter (fun h => h ∉ new_h) (overflow_handles db t old) in
              r ← db_put op_number key record;
              match r with
              | inr e => mret (ResSchemaError (Store "store" e))
              | inl _ =>
                  _ ← with_cache (fun c => cache_insert c key record);
                  _ ← (if need_idx db t then idx_maintain op_number t id (Some old) (Some record) else mret tt);
                  _ ← reclaim_overflow op_number freed;
                  mret ResOk
              end
          end
      end
  end.

(** UpdateSet: the stored record with the given fields replaced. *)
Fixpoint set_fields (ot : ObjectType) (sets : list (Z * bytes)) (vals : list Value) : outcome (list Value + Message) :=
  match sets with
  | [] => Ret (inl vals)
  | (fid, raw) :: sets' =>
      match field_pos ot fid with
      | None => Ret (inr (NoField fid))
      | Some (i, _, f) =>
          v ← value_from_raw (f_kind f) (norm raw (width (f_kind f)));
          set_fields ot sets' (<[Z.to_nat i := v]> vals)
      end
  end.

(** The record UpdateSet hands to Update, or its early result. *)
Definition update_set_record db (t : Z) (id : bytes) (sets : list (Z * bytes)) : outcome (bytes + DbResult) :=
  match db_get db (make_key t id) with
  | None => Ret (inr ResNotFound)
  | Some old =>
      match get_type db t with
      | None => Ret (inr (ResSchemaError (NoType t)))
      | Some ot =>
          d ← decode ot old;
          match d with
          | inr e => Ret (inr (ResSchemaError (UpdateSetDecode e)))
          | inl vals =>
              s ← set_fields ot sets vals;
              match s with
              | inr m => Ret (inr (ResSchemaError m))
              | inl vals =>
                  r ← encode ot vals;
                  match r with
                  | inr e => Ret (inr (ResSchemaError (UpdateSetEncode e)))
                  | inl record => Ret (inl record)
                  end
              end
          end
      end
  end.

(** ** Deleting records *)

Abbreviation Target := (Z * bytes)%type.

(** The foreign keys of every type: child type, field, referenced type and
    action. *)
Definition fk_edges db : list (ObjectType * (Z * Z * Z)) :=
  ct ← types (db_catalog db);
  fk ← fks ct;
  [(ct, fk)].

Record Cascade := mkCascade { closure : list Target; visited : gset Target; budget : Z }.

(** A loop with early return. *)
Fixpoint try_each {A B E} (f : A -> B -> outcome (B + E)) (l : list A) (b : B) : outcome (B + E) :=
  match l with
  | [] => Ret (inl b)
  | x :: l' =>
      r ← f x b;
      match r with
      | inl b' => try_each f l' b'
      | inr e => Ret (inr e)
      end
  end.

(** The rows of [ct] whose field [fid] holds [id]. *)
Definition children db (ct : ObjectType) (fid : Z) (id : bytes) : option (list bytes) :=
  '(_, _, f) ← field_pos ct fid;
  Some (idx_lookup db (type_id ct) fid (norm id (width (f_kind f)))).

(** The call stack of the source is the fuel. *)
Fixpoint cascade_collect (fuel : nat) db (t : Z) (id : bytes) (st : Cascade) : outcome (Cascade + Message) :=
  match fuel with
  | O => Panic
  | S fuel' =>
      if decide ((t, id) ∈ visited st) then Ret (inl st) else
      if budget st =? 0 then Ret (inr BudgetExceeded) else
      let st := mkCascade (closure st ++ [(t, id)]) ({[ (t, id) ]} ∪ visited st) (budget st - 1) in
      try_each (fun e st =>
        let '(ct, (fid, rt, od)) := e in
        if negb (rt =? t) || (od =? 0) then Ret (inl st) else
        match children db ct fid id with
        | None => Ret (inl st)
        | Some ids =>
            if od =? 1 then
              (if bool_decide (ids = []) then Ret (inl st) else Ret (inr (RestrictViolated (type_id ct) fid t)))
            else if od =? 2 then try_each (fun cid st => cascade_collect fuel' db (type_id ct) cid st) ids st
            else Ret (inl st)
        end) (fk_edges db) st
  end.

Definition CASCADE_BUDGET : Z := 200000.
Definition cascade_root db (t : Z) (id : bytes) : outcome (Cascade + Message) :=
  cascade_collect (S (S (Z.to_nat CASCADE_BUDGET))) db t id (mkCascade [] ∅ CASCADE_BUDGET).

(** A child whose field is to be nulled or set to its default. *)
Record SetNull := mkSetNull {
  sn_type : Z; sn_id : bytes; sn_idx : Z; sn_off : Z; sn_width : Z; sn_default : option bytes
}.

Definition set_null_edge db (cl : list Target) (did : bytes) (e : ObjectType * (Z * Z * Z))
    (acc : list SetNull) : list SetNull :=
  let '(ct, (fid, _, od)) := e in
  match field_pos ct fid with
  | None => acc
  | Some (fi, off, f) =>
      let w := width (f_kind f) in
      let dflt := if od =? 4 then (fun d => norm d.2 w) <$> List.find (fun d => d.1 =? fid) (defaults ct) else None in
      fold_left (fun acc cid =>
        if decide ((type_id ct, cid) ∈ cl) then acc
        else if existsb (fun s => (sn_type s =? type_id ct) && bool_decide (sn_id s = cid) && (sn_idx s =? fi)) acc
        then acc
        else acc ++ [mkSetNull (type_id ct) cid fi off w dflt])
        (idx_lookup db (type_id ct) fid (norm did w)) acc
  end.

Definition collect_set_null db (cl : list Target) : list SetNull :=
  fold_left (fun acc d =>
    fold_left (fun acc e =>
      let '(_, (_, rt, od)) := e in
      if (rt =? d.1) && ((od =? 3) || (od =? 4)) then set_null_edge db cl d.2 e acc else acc)
      (fk_edges db) acc) cl [].

(** The record with the field set to the default, or zeroed and marked NULL. *)
Definition nulled_record db (s : SetNull) (old : bytes) : bytes :=
  match sn_default s with
  | Some d => if zlen old <? sn_off s + sn_width s then old else splice old (sn_off s) (norm d (sn_width s))
  | None =>
      let new := if zlen old <? sn_off s + sn_width s then old
                 else splice old (sn_off s) (replicate (Z.to_nat (sn_width s)) 0) in
      match get_type db (sn_type s) with
      | Some t =>
          if row_is_codec t new then
            match get_at new (bit_at (sn_idx s)) with
            | Some x => <[Z.to_nat (bit_at (sn_idx s)) := Z.lor x (Z.shiftl 1 (sn_idx s mod 8))]> new
            | None => new
            end
          else new
      | None => new
      end
  end.

Definition invalidate (k : Key) : DM unit := with_cache (fun c => cache_invalidate c k).

(** The two loops of Delete; an error aborts the transaction Delete opened. *)
Fixpoint null_children (op_number : Z) (own : bool) (l : list SetNull) : DM (unit + DbResult) :=
  match l with
  | [] => mret (inl tt)
  | s :: l' =>
      db ← m_get;
      let k := make_key (sn_type s) (sn_id s) in
      match db_get db k with
      | None => null_children op_number own l'
      | Some old =>
          let new := nulled_record db s old in
          r ← db_put op_number k new;
          match r with
          | inr e => _ ← (if own then db_abort_txn else mret tt); mret (inr (ResSchemaError (Store "set-null store" e)))
          | inl _ =>
              _ ← invalidate k;
              _ ← idx_maintain op_number (sn_type s) (sn_id s) (Some old) (Some new);
              null_children op_number own l'
          end
      end
  end.

Fixpoint delete_closure (op_number : Z) (own : bool) (l : list Target) : DM (unit + DbResult) :=
  match l with
  | [] => mret (inl tt)
  | (t, oid) :: l' =>
      db ← m_get;
      let k := make_key t oid in
      let oldr := db_get db k in
      let freed := match oldr with Some r => overflow_handles db t r | None => [] end in
      r ← db_delete op_number k;
      match r with
      | inr e => _ ← (if own then db_abort_txn else mret tt); mret (inr (ResSchemaError (Store "store" e)))
      | inl _ =>
          _ ← invalidate k;
          _ ← idx_maintain op_number t oid oldr None;
          _ ← reclaim_overflow op_number freed;
          delete_closure op_number own l'
      end
  end.

Definition delete_row (op_number t : Z) (id : bytes) : DM DbResult :=
  db ← m_get;
  match db_get db (make_key t id) with
  | None => mret ResNotFound
  | Some _ =>
      c ← m_lift (cascade_root db t id);
      match c with
      | inr e => mret (ResConstraint e)
      | inl st =>
          let set_null := collect_set_null db (closure st) in
          let own := negb (in_txn (db_storage db)) in
          _ ← (if own then db_begin_txn else mret tt);
          r ← null_children op_number own set_null;
          match r with
          | inr e => mret e
          | inl _ =>
              r ← delete_closure op_number own (closure st);
              match r with
              | inr e => mret e
              | inl _ =>
                  if own then
                    r ← db_commit_txn;
                    match r with
                    | inr e => mret (ResSchemaError (Store "txn commit" e))
                    | inl _ => mret ResOk
                    end
                  else mret ResOk
              end
          end
      end
  end.

(** ** Reading *)

(** A lookup in the cache, which updates it; [None] without a cache. *)
Definition cache_lookup (k : Key) : DM (option bytes) := fun db =>
  match db_cache db with
  | None => (db, Ret None)
  | Some c => let '(c', r) := cache_get c k in (set_cache (Some c') db, Ret r)
  end.

Definition get_by_id (t : Z) (id : bytes) : DM DbResult :=
  let key := make_key t id in
  hit ← cache_lookup key;
  match hit with
  | Some v => mret (ResGot v)
  | None =>
      db ← m_get;
      match db_get db key with
      | Some b => _ ← with_cache (fun c => cache_insert c key b); mret (ResGot b)
      | None => mret ResNotFound
      end
  end.

Definition get_blob (handle : Z) : DM DbResult :=
  db ← m_get;
  mret (match db_get db (handle_key handle) with Some b => ResGot b | None => ResNotFound end).

Definition describe (t : Z) : DM DbResult :=
  db ← m_get;
  mret (match get_type db t with
        | Some ot => ResGot (encode_type_def (ot_name ot) (fields ot))
        | None => ResNotFound
        end).

Definition find_by (t fid : Z) (value : bytes) : DM DbResult :=
  db ← m_get;
  mret match get_type db t with
       | None => ResSchemaError (NoType t)
       | Some ot =>
           match idx_field_pos ot fid with
           | None => ResSchemaError (Text "field not indexable")
           | Some (_, w) =>
               if bool_decide (fid ∈ indexes ot) then ResGot (concat (idx_lookup db t fid (norm value w)))
               else ResSchemaError (Text "field is not indexed")
           end
       end.

Fixpoint composite_value (ot : ObjectType) (l : list (Z * bytes)) : bytes + Message :=
  match l with
  | [] => inl []
  | (fid, v) :: l' =>
      match field_pos ot fid with
      | None => inr (NoField fid)
      | Some (_, _, f) =>
          match composite_value ot l' with
          | inl rest => inl (norm v (width (f_kind f)) ++ rest)
          | inr m => inr m
          end
      end
  end.

(** [composite.iter().position(|c| *c == fields)]. *)
Fixpoint composite_no (fs : list Z) (l : list (list Z)) (n : Z) : option Z :=
  match l with
  | [] => None
  | c :: l' => if bool_decide (c = fs) then Some n else composite_no fs l' (n + 1)
  end.

Definition find_by_composite (t : Z) (fs : list Z) (values : list bytes) : DM DbResult :=
  db ← m_get;
  mret match get_type db t with
       | None => ResSchemaError (NoType t)
       | Some ot =>
           match composite_no fs (composite ot) 0 with
           | None => ResSchemaError (Text "no such composite index")
           | Some n =>
               if negb (bool_decide (length values = length fs))
               then ResSchemaError (Text "values/fields arity mismatch") else
               match composite_value ot (zip fs values) with
               | inr m => ResSchemaError m
               | inl v => ResGot (concat (idx_lookup db t (composite_fid n) v))
               end
           end
       end.

(** The bounds of a range on the index keys. *)
Definition range_keys (ot : ObjectType) (t fid : Z) (lo hi : bytes) : Key * Key + Message :=
  match ord_field_pos ot fid with
  | Some (_, w, kind) =>
      match order_key kind (norm lo w), order_key kind (norm hi w) with
      | Some a, Some b =>
          inl (idx_ns 0xFFFD0000 t ++ oidx_id fid a (replicate 6 0),
               idx_ns 0xFFFD0000 t ++ oidx_id fid b (replicate 6 255))
      | None, _ => inr (Text "bad range lo")
      | _, None => inr (Text "bad range hi")
      end
  | None =>
      match vord_field_pos ot fid with
      | Some (_, w, k) => inl (voidx_key t fid (vorder_key k lo w), voidx_key t fid (vorder_key k hi w))
      | None => inr (Text "field not range-indexable")
      end
  end.

Definition find_range (t fid : Z) (lo hi : bytes) : DM DbResult :=
  db ← m_get;
  mret match get_type db t with
       | None => ResSchemaError (NoType t)
       | Some ot =>
           if negb (bool_decide (fid ∈ ordered ot)) then ResSchemaError (Text "field is not range-indexed") else
           match range_keys ot t fid lo hi with
           | inr m => ResSchemaError m
           | inl (klo, khi) =>
               ResGot (concat (sort_dedup (concat ((fun e => bucket_ids e.2) <$> scan_range (db_storage db) klo khi))))
           end
       end.

(** ** Schema changes *)

Definition edit_type (t : Z) (f : ObjectType -> ObjectType) : DM unit :=
  m_modify (fun db => set_catalog (catalog_update t f (db_catalog db)) db).

(** [persist_catalog] where only an error returns early. *)
Definition then_persist (op_number : Z) (k : DM DbResult) : DM DbResult :=
  r ← persist_catalog op_number;
  match r with
  | ResSchemaError e => mret (ResSchemaError e)
  | _ => k
  end.

(** Index entries for the rows that exist. *)
Definition backfill (op_number t fid off w : Z) : DM unit :=
  db ← m_get;
  for_each (fun kr : Key * bytes =>
    match slot_of kr.2 off w with
    | Some v => idx_add op_number t fid v (row_id kr.1)
    | None => mret tt
    end) (type_rows db t).

Definition create_index (op_number t fid : Z) : DM DbResult :=
  db ← m_get;
  match get_type db t with
  | None => mret (ResSchemaError (NoType t))
  | Some ot =>
      if negb (existsb (fun f => field_id f =? fid) (fields ot)) then mret (ResSchemaError (NoField fid)) else
      match idx_field_pos ot fid with
      | None => mret (ResSchemaError (Text "cannot index an OverflowRef field"))
      | Some (off, w) =>
          if bool_decide (fid ∈ indexes ot) then mret ResOk else
          _ ← edit_type t (push_index fid);
          then_persist op_number (_ ← backfill op_number t fid off w; mret ResOk)
      end
  end.

(** Whether two rows hold the same bytes in the field. *)
Fixpoint has_duplicate (seen : list bytes) (off w : Z) (rows : list (Key * bytes)) : bool :=
  match rows with
  | [] => false
  | (_, rec) :: rows' =>
      match slot_of rec off w with
      | Some v => if bool_decide (v ∈ seen) then true else has_duplicate (v :: seen) off w rows'
      | None => has_duplicate seen off w rows'
      end
  end.

Definition add_unique (op_number t fid : Z) : DM DbResult :=
  db ← m_get;
  match get_type db t with
  | None => mret (ResSchemaError (NoType t))
  | Some ot =>
      match idx_field_pos ot fid with
      | None => mret (ResSchemaError (Text "field not indexable"))
      | Some (off, w) =>
          if bool_decide (fid ∈ unique ot) then mret ResOk else
          let finish :=
            db ← m_get;
            if has_duplicate [] off w (type_rows db t)
            then mret (ResConstraint (Text "AddUnique: existing duplicate values")) else
            _ ← edit_type t (push_unique fid);
            persist_catalog op_number in
          if bool_decide (fid ∈ indexes ot) then finish else
          _ ← edit_type t (push_index fid);
          then_persist op_number (_ ← backfill op_number t fid off w; finish)
      end
  end.

(** A row whose reference is set and has no target. *)
Definition dangling db (ot : ObjectType) (fid rt : Z) (rec : bytes) : bool :=
  row_is_codec ot rec &&
  match fk_target ot rec fid with
  | Some id16 => match db_get db (make_key rt id16) with Some _ => false | None => true end
  | None => false
  end.

Definition add_foreign_key (op_number t fid rt on_delete : Z) : DM DbResult :=
  db ← m_get;
  if 4 <? on_delete then mret (ResSchemaError (Text "on_delete must be 0|1|2|3|4")) else
  match get_type db t with
  | None => mret (ResSchemaError (NoType t))
  | Some ot =>
      match get_type db rt with
      | None => mret (ResSchemaError (NoType rt))
      | Some _ =>
          match field_pos ot fid with
          | None => mret (ResSchemaError (NoField fid))
          | Some (_, off, f) =>
              if bool_decide (f_kind f = OverflowRef)
              then mret (ResSchemaError (Text "cannot FK an OverflowRef field")) else
              if existsb (fun k => (k.1.1 =? fid) && (k.1.2 =? rt)) (fks ot) then mret ResOk else
              if existsb (fun kr => dangling db ot fid rt kr.2) (type_rows db t)
              then mret (ResConstraint (Text "AddForeignKey: existing dangling reference")) else
              let finish := _ ← edit_type t (push_fk (fid, rt, on_delete)); persist_catalog op_number in
              if (on_delete =? 0) || bool_decide (fid ∈ indexes ot) then finish else
              _ ← edit_type t (push_index fid);
              then_persist op_number (_ ← backfill op_number t fid off (width (f_kind f)); finish)
          end
      end
  end.

(** Errors that reject a program when it is added. *)
Definition bad_check (e : ExprError) : bool :=
  match e with BadProgram | StackUnderflow | EmptyResult => true | _ => false end.
Definition bad_trigger (e : ExprError) : bool := match e with BadProgram | StackUnderflow => true | _ => false end.
Definition zero_record (ot : ObjectType) : bytes := replicate (Z.to_nat (record_size (compute_layout ot))) 0.

Fixpoint rows_pass (ot : ObjectType) (program : bytes) (rows : list (Key * bytes)) : outcome bool :=
  match rows with
  | [] => Ret true
  | (_, rec) :: rows' =>
      r ← eval program ot rec;
      match r with inl true => rows_pass ot program rows' | _ => Ret false end
  end.

Definition add_check (op_number t : Z) (program : bytes) : DM DbResult :=
  db ← m_get;
  match get_type db t with
  | None => mret (ResSchemaError (NoType t))
  | Some ot =>
      z ← m_lift (eval program ot (zero_record ot));
      let go :=
        ok ← m_lift (rows_pass ot program (type_rows db t));
        if (ok : bool) then _ ← edit_type t (push_check program); persist_catalog op_number
        else mret (ResConstraint (Text "AddCheck: existing row violates CHECK")) in
      match z with
      | inr e => if bad_check e then mret (ResSchemaError (BadProgramError e)) else go
      | inl _ => go
      end
  end.

Definition add_trigger (op_number t : Z) (program : bytes) : DM DbResult :=
  db ← m_get;
  match get_type db t with
  | None => mret (ResSchemaError (NoType t))
  | Some ot =>
      z ← m_lift (eval_trigger program ot (zero_record ot));
      let go := _ ← edit_type t (push_trigger program); persist_catalog op_number in
      match z with
      | inr e => if bad_trigger e then mret (ResSchemaError (BadProgramError e)) else go
      | inl _ => go
      end
  end.

(** The first member that cannot be part of a composite index. *)
Fixpoint composite_error (ot : ObjectType) (fs : list Z) : option Message :=
  match fs with
  | [] => None
  | fid :: fs' =>
      match field_pos ot fid with
      | None => Some (NoField fid)
      | Some (_, _, f) =>
          if bool_decide (f_kind f = OverflowRef) then Some (Text "cannot composite-index an OverflowRef field")
          else composite_error ot fs'
      end
  end.

Definition add_composite_index (op_number t : Z) (fs : list Z) : DM DbResult :=
  db ← m_get;
  match get_type db t with
  | None => mret (ResSchemaError (NoType t))
  | Some ot =>
      if bool_decide (fs = []) then mret (ResSchemaError (Text "composite index needs a field")) else
      match composite_error ot fs with
      | Some m => mret (ResSchemaError m)
      | None =>
          if bool_decide (fs ∈ composite ot) then mret ResOk else
          let cfid := composite_fid (zlen (composite ot)) in
          _ ← edit_type t (push_composite fs);
          then_persist op_number
            (db ← m_get;
             _ ← for_each (fun kr : Key * bytes =>
                   match composite_concat ot fs kr.2 with
                   | Some v => idx_add op_number t cfid v (row_id kr.1)
                   | None => mret tt
                   end) (type_rows db t);
             mret ResOk)
      end
  end.

Definition ordered_backfill (op_number t fid : Z) (ot : ObjectType) (kr : Key * bytes) : DM unit :=
  match ord_field_pos ot fid with
  | Some (off, w, kind) =>
      match slot_of kr.2 off w ≫= order_key kind with
      | Some ok => oidx_add op_number t fid ok (row_id kr.1)
      | None => mret tt
      end
  | None =>
      match vord_field_pos ot fid with
      | Some (off, w, kind) =>
          match slot_of kr.2 off w with
          | Some b => voidx_add op_number t fid (vorder_key kind b w) (row_id kr.1)
          | None => mret tt
          end
      | None => mret tt
      end
  end.

Definition add_ordered_index (op_number t fid : Z) : DM DbResult :=
  db ← m_get;
  match get_type db t with
  | None => mret (ResSchemaError (NoType t))
  | Some ot =>
      match ord_field_pos ot fid, vord_field_pos ot fid with
      | None, None => mret (ResSchemaError (Text "field kind not supported for ordered index"))
      | _, _ =>
          if bool_decide (fid ∈ ordered ot) then mret ResOk else
          _ ← edit_type t (push_ordered fid);
          then_persist op_number
            (db ← m_get; _ ← for_each (ordered_backfill op_number t fid ot) (type_rows db t); mret ResOk)
      end
  end.

(** Field ids 1 to n, in the order of the definition. *)
Definition renumber (fs : list Field) : list Field :=
  imap (fun i f => mkField (Z.of_nat i + 1) (f_name f) (f_kind f) (f_nullable f)) fs.

(** The declared foreign keys as field, type and action. *)
Fixpoint resolve_fks (c : Catalog) (fs : list Field) (specs : list FkSpec) : list (Z * Z * Z) + Message :=
  match specs with
  | [] => inl []
  | fk :: specs' =>
      match List.find (fun f => bool_decide (f_name f = child_col fk)) fs with
      | None => inr (UnknownColumn (child_col fk))
      | Some f =>
          match List.find (fun t => bool_decide (ot_name t = ref_table fk)) (types c) with
          | None => inr (UnknownTable (ref_table fk))
          | Some t =>
              match resolve_fks c fs specs' with
              | inl r => inl ((field_id f, type_id t, on_delete fk) :: r)
              | inr m => inr m
              end
          end
      end
  end.

Fixpoint register_fks (op_number t : Z) (l : list (Z * Z * Z)) : DM DbResult :=
  match l with
  | [] => mret (TypeCreated t)
  | (fid, rt, od) :: l' =>
      r ← add_foreign_key op_number t fid rt od;
      match r with ResOk => register_fks op_number t l' | _ => mret r end
  end.

Definition create_type (op_number : Z) (def : bytes) : DM DbResult :=
  db ← m_get;
  let c := db_catalog db in
  match decode_type_def def with
  | None => mret (ResSchemaError (Text "bad type def"))
  | Some (name, raw) =>
      if MAX_FIELDS <? zlen raw then mret (ResSchemaError (Text "too many fields")) else
      if existsb (fun t => bool_decide (ot_name t = name)) (types c) then mret (ResSchemaError (TypeExists name)) else
      if MAX_USER_TYPE_ID <? next_type_id c then mret (ResSchemaError (TypeIdsExhausted (next_type_id c))) else
      let t := next_type_id c in
      let fs := renumber raw in
      match resolve_fks c fs (decode_type_fks def) with
      | inr m => mret (ResSchemaError m)
      | inl fkl =>
          let ot := mkObjectType t name 1 fs [] [] [] [] [] [] [] (decode_type_defaults def)
                      (decode_type_serial_pk def) (decode_type_serial_field def) in
          _ ← m_modify (set_catalog (mkCatalog (types c ++ [ot]) (t + 1) (external c)));
          then_persist op_number (register_fks op_number t fkl)
      end
  end.

Definition alter_type_add_field (op_number t : Z) (field : bytes) : DM DbResult :=
  db ← m_get;
  match decode_field field with
  | None => mret (ResSchemaError (Text "bad field"))
  | Some f =>
      if negb (f_nullable f) then mret (ResSchemaError (Text "added fields must be nullable")) else
      match get_type db t with
      | None => mret (ResSchemaError (NoType t))
      | Some ot =>
          let next_fid := (fold_left Z.max (field_id <$> fields ot) 0 + 1) mod 65536 in
          if MAX_FIELDS <? zlen (fields ot) + 1 then mret (ResSchemaError (Text "too many fields")) else
          _ ← edit_type t (push_field (mkField next_fid (f_name f) (f_kind f) (f_nullable f)));
          persist_catalog op_number
      end
  end.
End Rows.
