(* ===== verification/RowQuery.v ===== *)
(** kessel-sm: queries.

    The read arms of [apply] that filter, project, sort and aggregate the rows
    of a type, with the planner that narrows a scan through the equality,
    composite and ordered indexes and the parallel fold of large aggregates.
    [read_only_op] has the same arms on a shared reference; both are these
    definitions. They are functions of the database, and return [Panic] where a
    program of the caller does.

    The workers of a parallel fold share nothing but the rows they are dealt,
    so a worker is the fold over its own batches. When a row fails a worker
    stops, and the producer with it at its next batch for that worker; the
    model deals all batches and reports the error of the first worker that has
    one, where the source may report another worker's.

    Source: src/crates/kessel-sm/src/lib.rs ([StateMachine]). *)

From Stdlib Require Import ZArith Lia String.
From stdpp Require Import base numbers list sorting gmap fin_maps.
From S2P Require Import Prelude BTree Proto Vfs Wal SsTable Storage Mvcc Engine Ssi Tx Sm.
From S2P Require Import Reader Catalog Codec Expr Filter Cache Rows.

#[local] Open Scope Z_scope.
#[local] Set Warnings "-register-all".

(** ** Comparing fields *)

Definition load_u (w : Z) (x : bytes) : Z := le_value (take (Z.to_nat (Z.min w 16)) x).
Definition load_i (w : Z) (x : bytes) : Z := i128_from_le (extend16 true (take (Z.to_nat (Z.min w 16)) x)).

Definition cmp_field (kind : FieldKind) (a b : bytes) : comparison :=
  let w := width kind in
  let a := norm a w in
  let b := norm b w in
  match kind with
  | U8 | U16 | U32 | U64 | U128 | Bool | Timestamp => Z.compare (load_u w a) (load_u w b)
  | I8 | I16 | I32 | I64 | I128 | Fixed _ => Z.compare (load_i w a) (load_i w b)
  | Char _ | Bytes _ => list_cmp (right_trim_char_pad a) (right_trim_char_pad b)
  | Ref | OverflowRef => list_cmp a b
  end.

(** ** Predicates *)

Record Pred := mkPred { pr_field : Z; pr_op : Z; pr_value : bytes }.

(** A predicate resolved against the schema. *)
Record Plan := mkPlan {
  p_off : Z; p_w : Z; p_kind : FieldKind; p_fid : Z; p_op : Z; p_val : bytes; p_indexed : bool
}.

Definition resolve_pred (ot : ObjectType) (pr : Pred) : Plan + Message :=
  match field_pos ot (pr_field pr) with
  | None => inr (NoField (pr_field pr))
  | Some (_, off, f) =>
      if 2 <? pr_op pr then inr (Text "bad predicate op") else
      let w := width (f_kind f) in
      inl (mkPlan off w (f_kind f) (pr_field pr) (pr_op pr) (norm (pr_value pr) w)
             (bool_decide (pr_field pr ∈ indexes ot) && bool_decide (is_Some (idx_field_pos ot (pr_field pr)))))
  end.

Fixpoint resolve_preds (ot : ObjectType) (preds : list Pred) : list Plan + Message :=
  match preds with
  | [] => inl []
  | pr :: preds' =>
      match resolve_pred ot pr with
      | inr m => inr m
      | inl p => match resolve_preds ot preds' with inl ps => inl (p :: ps) | inr m => inr m end
      end
  end.

Definition pred_holds (rec : bytes) (p : Plan) : bool :=
  match slot_of rec (p_off p) (p_w p) with
  | Some fv =>
      match cmp_field (p_kind p) fv (p_val p) with
      | Eq => true
      | Lt => negb (p_op p =? 0) && negb (p_op p =? 1)
      | Gt => p_op p =? 1
      end
  | None => false
  end.

(** A candidate set, narrowed by another one. *)
Definition narrow_cand (cand : option (list bytes)) (ids : list bytes) : option (list bytes) :=
  Some match cand with None => ids | Some prev => filter (fun i => i ∈ ids) prev end.

(** [u16] field ids of the hints, each once and in order. *)
Definition field_set (fids : list Z) : list Z := merge_sort Z.le (remove_dups fids).

(** The interval of the hints on one field: lower and upper bound, and whether
    any hint was usable. *)
Definition range_step (rop : Z) (vk : bytes) (acc : bytes * bytes * bool) : bytes * bytes * bool :=
  let '(lo, hi, usable) := acc in
  if (rop =? 0) || (rop =? 1) then ((if kltb lo vk then vk else lo), hi, true)
  else if (rop =? 2) || (rop =? 3) then (lo, (if kltb vk hi then vk else hi), true)
  else acc.

Definition range_interval (fid : Z) (key : bytes -> option bytes) (preds : list (Z * Z * bytes)) (lo hi : bytes) :
    option (bytes * bytes) :=
  let '(lo, hi, usable) :=
    fold_left (fun acc p =>
      let '(f, rop, val) := p in
      if negb (f =? fid) then acc else
      match key val with Some vk => range_step rop vk acc | None => acc end) preds (lo, hi, false) in
  if usable then Some (lo, hi) else None.

(** The bounds of the order index that the hints on [fid] give. *)
Definition hint_keys (ot : ObjectType) (t fid : Z) (preds : list (Z * Z * bytes)) : option (Key * Key) :=
  match ord_field_pos ot fid with
  | Some (_, w, kind) =>
      '(lo, hi) ← range_interval fid (fun val => order_key kind (norm val w)) preds (replicate 8 0) (replicate 8 255);
      Some (idx_ns 0xFFFD0000 t ++ oidx_id fid lo (replicate 6 0),
            idx_ns 0xFFFD0000 t ++ oidx_id fid hi (replicate 6 255))
  | None =>
      '(_, w, k) ← vord_field_pos ot fid;
      '(lo, hi) ← range_interval fid (fun val => Some (vorder_key k val w)) preds
                    (replicate (Z.to_nat w) 0) (replicate (Z.to_nat w) 255);
      Some (voidx_key t fid lo, voidx_key t fid hi)
  end.

(** The records a query returns, each behind its length. *)
Definition emit (rec : bytes) : bytes := le_bytes 4 (zlen rec) ++ rec.

(** The rows a program accepts, up to [limit] of them when it is not zero; the
    first row it fails on fails the query. *)
Fixpoint filter_rows {A} (place : string) (program : bytes) (ot : ObjectType) (limit n : Z) (rows : list (A * bytes)) :
    outcome (list (A * bytes) + Message) :=
  match rows with
  | [] => Ret (inl [])
  | (k, rec) :: rows' =>
      if negb (limit =? 0) && (limit <=? n) then Ret (inl []) else
      r ← eval program ot rec;
      match r with
      | inr e => Ret (inr (ProgramError place e))
      | inl false => filter_rows place program ot limit n rows'
      | inl true =>
          rest ← filter_rows place program ot limit (n + 1) rows';
          Ret match rest with inl l => inl ((k, rec) :: l) | inr m => inr m end
      end
  end.

(** The answer over the rows that passed. *)
Definition answer {A} (r : outcome (list (A * bytes) + Message)) (f : list (A * bytes) -> bytes) : outcome DbResult :=
  l ← r;
  Ret match l with inl l => ResGot (f l) | inr m => ResSchemaError m end.

Definition project (cols : list (Z * Z)) (rec : bytes) : bytes :=
  concat ((fun c => default (replicate (Z.to_nat c.2) 0) (slot_of rec c.1 c.2)) <$> cols).

Fixpoint resolve_cols (err : Z -> Message) (ot : ObjectType) (fids : list Z) : list (Z * Z) + Message :=
  match fids with
  | [] => inl []
  | fid :: fids' =>
      match field_pos ot fid with
      | None => inr (err fid)
      | Some (_, off, f) =>
          match resolve_cols err ot fids' with
          | inl cols => inl ((off, width (f_kind f)) :: cols)
          | inr m => inr m
          end
      end
  end.

(** The order of SelectSorted: by the sort field, then by the object id. *)
Definition sort_cmp (kind : FieldKind) (a b : bytes * bytes * bytes) : comparison :=
  match cmp_field kind a.1.1 b.1.1 with Eq => list_cmp a.1.2 b.1.2 | c => c end.
Definition sort_le (kind : FieldKind) (a b : bytes * bytes * bytes) : Prop := sort_cmp kind a b <> Gt.
#[global] Instance sort_le_dec kind : RelDecision (sort_le kind) := fun a b => decide (sort_cmp kind a b <> Gt).

Section Query.
Context {W : Type} `{Vfs W}.
Implicit Types db : Db W.

(** ** Filters *)

Definition plan_candidates db (t : Z) (plan : list Plan) : option (list bytes) :=
  fold_left (fun cand p => narrow_cand cand (idx_lookup db t (p_fid p) (p_val p)))
    (List.filter (fun p => (p_op p =? 0) && p_indexed p) plan) None.

Definition query db (t : Z) (preds : list Pred) : DbResult :=
  match get_type db t with
  | None => ResSchemaError (NoType t)
  | Some ot =>
      match resolve_preds ot preds with
      | inr m => ResSchemaError m
      | inl plan =>
          let ok rec := forallb (pred_holds rec) plan in
          let matched :=
            match plan_candidates db t plan with
            | Some ids =>
                List.filter (fun id => match db_get db (make_key t id) with Some rec => ok rec | None => false end) ids
            | None => row_id ∘ fst <$> List.filter (fun kr => ok kr.2) (type_rows db t)
            end in
          ResGot (concat (merge_sort kle matched))
      end
  end.

Definition query_expr db (t : Z) (program : bytes) : outcome DbResult :=
  match get_type db t with
  | None => Ret (ResSchemaError (NoType t))
  | Some ot =>
      answer (filter_rows "query program" program ot 0 0 (type_rows db t))
        (fun l => concat (merge_sort kle (row_id ∘ fst <$> l)))
  end.

Definition select db (t : Z) (program : bytes) (limit : Z) : outcome DbResult :=
  match get_type db t with
  | None => Ret (ResSchemaError (NoType t))
  | Some ot =>
      answer (filter_rows "select program" program ot limit 0 (type_rows db t)) (fun l => concat (emit ∘ snd <$> l))
  end.

Definition select_fields db (t : Z) (program : bytes) (fs : list Z) (limit : Z) : outcome DbResult :=
  match get_type db t with
  | None => Ret (ResSchemaError (NoType t))
  | Some ot =>
      match resolve_cols NoField ot fs with
      | inr m => Ret (ResSchemaError m)
      | inl cols =>
          answer (filter_rows "project program" program ot limit 0 (type_rows db t))
            (fun l => concat (emit ∘ project cols ∘ snd <$> l))
      end
  end.

Definition select_sorted db (t : Z) (program : bytes) (sort_field : Z) (desc : bool) (offset limit : Z) : outcome DbResult :=
  match get_type db t with
  | None => Ret (ResSchemaError (NoType t))
  | Some ot =>
      match field_pos ot sort_field with
      | None => Ret (ResSchemaError (NoSortField sort_field))
      | Some (_, soff, f) =>
          answer (filter_rows "sort program" program ot 0 0 (type_rows db t)) (fun l =>
            let rows := (fun kr => (default [] (slot_of kr.2 soff (width (f_kind f))), row_id kr.1, kr.2)) <$> l in
            let sorted := merge_sort (sort_le (f_kind f)) rows in
            let page := drop (Z.to_nat offset) (if desc then rev sorted else sorted) in
            concat (emit ∘ snd <$> (if limit =? 0 then page else take (Z.to_nat limit) page)))
      end
  end.

(** ** The planner *)

(** The ids in the buckets between two keys of an order index. *)
Definition bucket_scan db (klo khi : Key) : list bytes :=
  sort_dedup (concat ((fun e => bucket_ids e.2) <$> scan_range (db_storage db) klo khi)).

Definition narrow_ranges db (t : Z) (ot : ObjectType) (preds : list (Z * Z * bytes)) (cand : option (list bytes)) :
    option (list bytes) :=
  fold_left (fun cand fid =>
    if negb (bool_decide (fid ∈ ordered ot)) then cand else
    match hint_keys ot t fid preds with
    | Some (klo, khi) => narrow_cand cand (bucket_scan db klo khi)
    | None => cand
    end) (field_set ((fun p => p.1.1) <$> preds)) cand.

Definition narrow_by_range_preds db (t : Z) (ot : ObjectType) (preds : list (Z * Z * bytes)) : option (list bytes) :=
  if bool_decide (preds = []) then None else narrow_ranges db t ot preds None.

(** Equality hints on indexed fields. *)
Definition narrow_eq db (t : Z) (ot : ObjectType) (eq_preds : list (Z * bytes)) : option (list bytes) :=
  fold_left (fun cand p =>
    match field_pos ot p.1 with
    | None => cand
    | Some (_, _, f) =>
        if bool_decide (p.1 ∈ indexes ot) then narrow_cand cand (idx_lookup db t p.1 (norm p.2 (width (f_kind f)))) else cand
    end) eq_preds None.

(** The composite index whose fields are exactly those of the hints. *)
Fixpoint covering_index (qfields : gset Z) (cs : list (list Z)) (n : Z) : option (Z * list Z) :=
  match cs with
  | [] => None
  | c :: cs' =>
      if bool_decide (length c = size qfields /\ list_to_set c = qfields) then Some (n, c)
      else covering_index qfields cs' (n + 1)
  end.

Fixpoint hint_concat (ot : ObjectType) (eq_preds : list (Z * bytes)) (fs : list Z) : option bytes :=
  match fs with
  | [] => Some []
  | fid :: fs' =>
      '(_, v) ← List.find (fun p => p.1 =? fid) eq_preds;
      '(_, _, f) ← field_pos ot fid;
      rest ← hint_concat ot eq_preds fs';
      Some (norm v (width (f_kind f)) ++ rest)
  end.

Definition narrow_composite db (t : Z) (ot : ObjectType) (eq_preds : list (Z * bytes)) (cand : option (list bytes)) :
    option (list bytes) :=
  if bool_decide (eq_preds = []) then cand else
  match covering_index (list_to_set eq_preds.*1) (composite ot) 0 with
  | None => cand
  | Some (n, c) =>
      match hint_concat ot eq_preds c with
      | Some v => narrow_cand cand (idx_lookup db t (composite_fid n) v)
      | None => cand
      end
  end.

Definition query_candidates db (t : Z) (ot : ObjectType) (eq_preds : list (Z * bytes)) (range_preds : list (Z * Z * bytes)) :
    option (list bytes) :=
  narrow_ranges db t ot range_preds (narrow_composite db t ot eq_preds (narrow_eq db t ot eq_preds)).

(** The stored rows of the candidates. *)
Definition fetch_rows db (t : Z) (ids : list bytes) : list (Key * bytes) :=
  omap (fun id => (fun rec => (make_key t id, rec)) <$> db_get db (make_key t id)) ids.

(** The rows a query looks at. *)
Definition source_rows db (t : Z) (cand : option (list bytes)) : list (Key * bytes) :=
  match cand with Some ids => fetch_rows db t ids | None => type_rows db t end.

Definition query_rows db (t : Z) (eq_preds : list (Z * bytes)) (program : bytes) (limit : Z)
    (range_preds : list (Z * Z * bytes)) : outcome DbResult :=
  match get_type db t with
  | None => Ret (ResSchemaError (NoType t))
  | Some ot =>
      answer (filter_rows "query program" program ot limit 0
                (source_rows db t (query_candidates db t ot eq_preds range_preds)))
        (fun l => concat (emit ∘ snd <$> l))
  end.
End Query.

(** ** Aggregates *)

(** The program the planner compiles a missing WHERE to. *)
Definition always_true : bytes := 0 :: le_bytes 16 1.

Definition MIN_PARALLEL_ROWS : Z := 8192.
Definition NUM_HASH_AGG_WORKERS : nat := 4.
Definition BATCH_SIZE : nat := 256.

(** A field as the aggregates decode it. *)
Definition dec (raw : bytes) (w : Z) (signed : bool) : Z :=
  i128_from_le (extend16 signed (take (Z.to_nat (Z.min w 16)) raw)).

(** Count, sum, least and greatest value. *)
Record Acc := mkAcc { a_count : Z; a_sum : Z; a_min : option Z; a_max : option Z }.
Definition acc_init : Acc := mkAcc 0 0 None None.

Definition acc_row (a : Acc) : Acc := mkAcc (a_count a + 1) (a_sum a) (a_min a) (a_max a).
Definition acc_value (v : Z) (a : Acc) : Acc :=
  mkAcc (a_count a) (wrap_i128 (a_sum a + v))
    (Some match a_min a with Some m => Z.min m v | None => v end)
    (Some match a_max a with Some m => Z.max m v | None => v end).

(** A row added to an accumulator; [pos] is the field's offset, width and sign. *)
Definition acc_fold (pos : option (Z * Z * bool)) (rec : bytes) (a : Acc) : Acc :=
  let a := acc_row a in
  match pos with
  | None => a
  | Some (off, w, signed) =>
      match slot_of rec off w with Some raw => acc_value (dec raw w signed) a | None => a end
  end.

Definition opt_merge (f : Z -> Z -> Z) (a b : option Z) : option Z :=
  match a, b with None, b => b | a, None => a | Some a, Some b => Some (f a b) end.
Definition acc_merge (a b : Acc) : Acc :=
  mkAcc (a_count a + a_count b) (wrap_i128 (a_sum a + a_sum b))
    (opt_merge Z.min (a_min a) (a_min b)) (opt_merge Z.max (a_max a) (a_max b)).

(** The result of an aggregate of kind 0 to 4. *)
Definition acc_result (kind : Z) (a : Acc) : Z :=
  if kind =? 0 then a_count a
  else if kind =? 1 then a_sum a
  else if kind =? 2 then default 0 (a_min a)
  else if kind =? 3 then default 0 (a_max a)
  else if a_count a =? 0 then 0 else Z.quot (a_sum a) (a_count a).

(** The filter of an aggregate: none, the compiled one, or the interpreter. *)
Definition row_filter (program : bytes) (ot : ObjectType) : bytes -> outcome (bool + ExprError) :=
  if bool_decide (program = always_true) then fun _ => Ret (inl true) else
  match compile_filter program ot with
  | inl f => fun rec => Ret (inl (f rec))
  | inr _ => eval program ot
  end.

(** The rows that pass folded into [s], up to the first that fails. *)
Fixpoint fold_rows {S} (keep : bytes -> outcome (bool + ExprError)) (place : string) (f : bytes -> S -> S)
    (s : S) (rows : list bytes) : outcome (S + Message) :=
  match rows with
  | [] => Ret (inl s)
  | rec :: rows' =>
      r ← keep rec;
      match r with
      | inr e => Ret (inr (ProgramError place e))
      | inl b => fold_rows keep place f (if b : bool then f rec s else s) rows'
      end
  end.

(** Rows in batches of [n], and the batches each worker gets. *)
Fixpoint batches {A} (fuel n : nat) (rows : list A) : list (list A) :=
  match fuel, rows with
  | S fuel', _ :: _ => take n rows :: batches fuel' n (drop n rows)
  | _, _ => []
  end.
Fixpoint deal_from {A} (next : nat) (bs : list A) (shares : list (list A)) : list (list A) :=
  match bs with
  | [] => shares
  | b :: bs' => deal_from ((next + 1) mod length shares) bs' (alter (fun l => l ++ [b]) next shares)
  end.
Definition deal {A} (workers n : nat) (rows : list A) : list (list A) :=
  (fun bs => concat bs) <$> deal_from 0 (batches (length rows) n rows) (replicate workers []).

(** Each worker's fold, and the first error in the order of the workers. *)
Fixpoint run_workers {S} (work : list bytes -> outcome (S + Message)) (shares : list (list bytes)) :
    outcome (list S + Message) :=
  match shares with
  | [] => Ret (inl [])
  | rows :: shares' =>
      r ← work rows;
      rest ← run_workers work shares';
      Ret match r, rest with
          | inr m, _ => inr m
          | inl _, inr m => inr m
          | inl s, inl l => inl (s :: l)
          end
  end.

(** The partial folds: one below the threshold, one per worker above it. *)
Definition partial_folds {S} (keep : bytes -> outcome (bool + ExprError)) (place : string) (f : bytes -> S -> S) (init : S)
    (rows : list bytes) : outcome (list S + Message) :=
  let work := fold_rows keep place f init in
  if zlen rows <? MIN_PARALLEL_ROWS then run_workers work [rows]
  else run_workers work (deal NUM_HASH_AGG_WORKERS BATCH_SIZE rows).

(** The sign an aggregate reads a numeric column with. *)
Definition agg_signed (k : FieldKind) : bool := match k with I8 | I16 | I32 | I64 | Fixed _ => true | _ => false end.
Definition agg_pos (ot : ObjectType) (kind fid : Z) : option (option (Z * Z * bool)) :=
  if kind =? 0 then Some None else
  '(off, w, fk) ← ord_field_pos ot fid;
  Some (Some (off, w, agg_signed fk)).

Definition got_i128 (v : Z) : DbResult := ResGot (le_bytes 16 v).

(** The better of two values of a column. *)
Definition better (want_max : bool) (kind : FieldKind) (raw : bytes) (best : option bytes) : option bytes :=
  match best with
  | None => Some raw
  | Some b =>
      match cmp_field kind raw b with
      | Gt => if want_max then Some raw else Some b
      | Lt => if want_max then Some b else Some raw
      | Eq => Some b
      end
  end.

Section Aggregate.
Context {W : Type} `{Vfs W}.
Implicit Types db : Db W.

(** The column's bytes in the row under the first or last bucket. *)
Definition bucket_row db (t off w : Z) (entry : bytes) : option bytes :=
  oid ← get_range entry 0 16;
  rec ← db_get db (make_key t oid);
  slot_of rec off w.

Definition agg_extreme db (t fid off w : Z) (want_max : bool) : option bytes :=
  let idx tail := idx_ns 0xFFFD0000 t ++ le_bytes 2 fid ++ replicate 14 tail in
  '(_, entry) ← bound_in (db_storage db) (idx 0) (idx 255) want_max;
  bucket_row db t off w entry.

Definition agg_extreme_var db (t fid off w : Z) (want_max : bool) : option bytes :=
  '(_, entry) ← bound_in (db_storage db) (voidx_key t fid []) (voidx_key t fid (replicate (Z.to_nat w) 255)) want_max;
  bucket_row db t off w entry.

Definition aggregate_numeric_scan db (t : Z) (program : bytes) (kind fid : Z) (range_preds : list (Z * Z * bytes)) :
    outcome DbResult :=
  if 4 <? kind then Ret (ResSchemaError (Text "agg kind must be 0|1|2|3|4")) else
  match get_type db t with
  | None => Ret (ResSchemaError (NoType t))
  | Some ot =>
      let cand := narrow_by_range_preds db t ot range_preds in
      match agg_pos ot kind fid with
      | None => Ret (ResSchemaError (Text "Aggregate field must be numeric ≤8B"))
      | Some pos =>
          p ← partial_folds (row_filter program ot) "agg program" (acc_fold pos) acc_init (snd <$> source_rows db t cand);
          match p with
          | inr m => Ret (ResSchemaError m)
          | inl parts => Ret (got_i128 (acc_result kind (fold_left acc_merge parts acc_init)))
          end
      end
  end.

(** MIN and MAX of a byte or 128-bit column. *)
Definition aggregate_var db (t : Z) (program : bytes) (ot : ObjectType) (kind fid : Z) (cand : option (list bytes)) :
    outcome DbResult :=
  match vord_field_pos ot fid with
  | None => Ret (ResSchemaError (Text "Aggregate MIN/MAX field must be numeric ≤8B, CHAR/BYTES, or U128/I128"))
  | Some (off, w, fk) =>
      let uncond := bool_decide (program = always_true) in
      if uncond && bool_decide (fid ∈ ordered ot) && bool_decide (cand = None)
      then Ret (ResGot (default [] (agg_extreme_var db t fid off w (kind =? 3))))
      else
        r ← fold_rows (if uncond then fun _ => Ret (inl true) else eval program ot) "agg program"
              (fun rec best => match slot_of rec off w with Some raw => better (kind =? 3) fk raw best | None => best end)
              None (snd <$> source_rows db t cand);
        Ret match r with inl best => ResGot (default [] best) | inr m => ResSchemaError m end
  end.

Definition aggregate db (t : Z) (program : bytes) (kind fid : Z) (range_preds : list (Z * Z * bytes)) : outcome DbResult :=
  match get_type db t with
  | None => Ret (ResSchemaError (NoType t))
  | Some ot =>
      let cand := narrow_by_range_preds db t ot range_preds in
      let extreme := (kind =? 2) || (kind =? 3) in
      if extreme && bool_decide (ord_field_pos ot fid = None) then aggregate_var db t program ot kind fid cand else
      match agg_pos ot kind fid with
      | None => Ret (ResSchemaError (Text "Aggregate field must be numeric ≤8B"))
      | Some pos =>
          match pos with
          | Some (off, w, signed) =>
              if bool_decide (program = always_true) && bool_decide (cand = None) && extreme && bool_decide (fid ∈ ordered ot)
              then Ret (got_i128 (from_option (fun raw => dec raw w signed) 0 (agg_extreme db t fid off w (kind =? 3))))
              else aggregate_numeric_scan db t program kind fid range_preds
          | None => aggregate_numeric_scan db t program kind fid range_preds
          end
      end
  end.
End Aggregate.

(** ** Groups *)

Record HavingPred := mkHaving { agg_index : Z; h_op : Z; h_value : Z }.
Definition keep (h : HavingPred) (agg_results : list Z) : bool :=
  match agg_results !! Z.to_nat (agg_index h) with
  | None => true
  | Some lhs =>
      match h_op h with
      | 0 => h_value h <? lhs
      | 1 => h_value h <=? lhs
      | 2 => lhs <? h_value h
      | 3 => lhs <=? h_value h
      | 4 => lhs =? h_value h
      | 5 => negb (lhs =? h_value h)
      | _ => true
      end
  end.

Inductive GroupSortTarget := SortKey | SortAgg (i : Z).
Record GroupSort := mkGroupSort { gs_target : GroupSortTarget; gs_desc : bool; gs_limit : option Z; gs_offset : option Z }.

(** A group of the answer: its key, the further columns of it, its results. *)
Abbreviation GroupRow := (bytes * list bytes * list Z)%type.

Definition composite_cmp (a b : GroupRow) : comparison :=
  match list_cmp a.1.1 b.1.1 with Eq => list_cmp a.1.2 b.1.2 | c => c end.
Definition group_cmp (target : GroupSortTarget) (a b : GroupRow) : comparison :=
  match target with
  | SortKey => composite_cmp a b
  | SortAgg i =>
      let value (g : GroupRow) := default 0 (g.2 !! Z.to_nat i) in
      match Z.compare (value a) (value b) with Eq => composite_cmp a b | c => c end
  end.
Definition group_le (target : GroupSortTarget) (a b : GroupRow) : Prop := group_cmp target a b <> Gt.
#[global] Instance group_le_dec target : RelDecision (group_le target) := fun a b => decide (group_cmp target a b <> Gt).

Definition page_groups (sort : option GroupSort) (kept : list GroupRow) : list GroupRow :=
  match sort with
  | None => kept
  | Some s =>
      let sorted := merge_sort (group_le (gs_target s)) kept in
      let sorted := if gs_desc s then rev sorted else sorted in
      let sorted := drop (Z.to_nat (default 0 (gs_offset s))) sorted in
      match gs_limit s with Some n => take (Z.to_nat n) sorted | None => sorted end
  end.

Definition emit_group (g : GroupRow) : bytes :=
  emit g.1.1 ++ concat (emit <$> g.1.2) ++ concat (le_bytes 16 <$> g.2).
Definition emit_group_results_composite (kept : list GroupRow) (sort : option GroupSort) : DbResult :=
  let kept := page_groups sort kept in
  ResGot (le_bytes 4 (zlen kept) ++ concat (emit_group <$> kept)).

(** The key of a row's group: the bytes of the columns. *)
Fixpoint group_key (cols : list (Z * Z)) (rec : bytes) : option bytes :=
  match cols with
  | [] => Some []
  | (off, w) :: cols' => b ← slot_of rec off w; rest ← group_key cols' rec; Some (b ++ rest)
  end.

Fixpoint split_extras (key : bytes) (widths : list Z) : list bytes :=
  match widths with
  | [] => []
  | w :: widths' => take (Z.to_nat w) key :: split_extras (drop (Z.to_nat w) key) widths'
  end.
Definition split_composite_key (key : bytes) (gwidth : Z) (extra_widths : list Z) : bytes * list bytes :=
  (take (Z.to_nat gwidth) key, split_extras (drop (Z.to_nat gwidth) key) extra_widths).

(** The columns of a group, the first one and the extra ones. *)
Definition group_cols (ot : ObjectType) (group_field : Z) (extra : list Z) : (Z * Z) * list (Z * Z) + Message :=
  match field_pos ot group_field with
  | None => inr (NoGroupField group_field)
  | Some (_, off, f) =>
      match resolve_cols NoGroupField ot extra with
      | inl cols => inl ((off, width (f_kind f)), cols)
      | inr m => inr m
      end
  end.

(** A row added to its group. *)
Definition group_fold (cols : list (Z * Z)) (poss : list (option (Z * Z * bool))) (rec : bytes)
    (groups : gmap bytes (list Acc)) : gmap bytes (list Acc) :=
  match group_key cols rec with
  | None => groups
  | Some k =>
      <[k := zip_with (fun pos a => acc_fold pos rec a) poss
               (default (replicate (length poss) acc_init) (groups !! k))]> groups
  end.

(** A worker's groups merged into those so far. *)
Definition merge_groups (n : nat) (groups part : gmap bytes (list Acc)) : gmap bytes (list Acc) :=
  foldr (fun kv g => <[kv.1 := zip_with acc_merge (default (replicate n acc_init) (g !! kv.1)) kv.2]> g) groups (map_to_list part).

(** The groups in the order of their keys, with HAVING. *)
Definition group_rows (gw : Z) (extra_widths : list Z) (kinds : list Z) (having : option HavingPred)
    (groups : gmap bytes (list Acc)) : list GroupRow :=
  omap (fun kv : bytes * list Acc =>
    let results := zip_with acc_result kinds kv.2 in
    if match having with Some h => keep h results | None => true end
    then Some (split_composite_key kv.1 gw extra_widths, results) else None) (bt_list groups).

Section Group.
Context {W : Type} `{Vfs W}.
Implicit Types db : Db W.

Definition group_aggregate db (t : Z) (program : bytes) (group_field kind agg_field : Z) (range_preds : list (Z * Z * bytes))
    (extra : list Z) (having : option HavingPred) (sort : option GroupSort) : outcome DbResult :=
  match get_type db t with
  | None => Ret (ResSchemaError (NoType t))
  | Some ot =>
      let cand := narrow_by_range_preds db t ot range_preds in
      match group_cols ot group_field extra with
      | inr m => Ret (ResSchemaError m)
      | inl (g, cols) =>
          match agg_pos ot kind agg_field with
          | None => Ret (ResSchemaError (Text "GroupAggregate agg field must be numeric ≤8B"))
          | Some pos =>
              r ← fold_rows (if bool_decide (program = always_true) then fun _ => Ret (inl true) else eval program ot)
                    "group program" (group_fold (g :: cols) [pos]) ∅ (snd <$> source_rows db t cand);
              Ret match r with
                  | inr m => ResSchemaError m
                  | inl groups =>
                      if (4 <? kind) && negb (bool_decide (groups = ∅))
                      then ResSchemaError (Text "agg kind must be 0|1|2|3|4")
                      else emit_group_results_composite (group_rows g.2 cols.*2 [kind] having groups) sort
                  end
          end
      end
  end.

(** The columns of the aggregates, or the first error. *)
Fixpoint multi_pos (ot : ObjectType) (aggs : list (Z * Z)) : list (option (Z * Z * bool)) + Message :=
  match aggs with
  | [] => inl []
  | (kind, fid) :: aggs' =>
      if 4 <? kind then inr (Text "agg kind must be 0|1|2|3|4") else
      match agg_pos ot kind fid with
      | None => inr (Text "GroupAggregateMulti agg field must be numeric ≤8B")
      | Some pos => match multi_pos ot aggs' with inl l => inl (pos :: l) | inr m => inr m end
      end
  end.

Definition group_aggregate_multi db (t : Z) (program : bytes) (group_field : Z) (aggs : list (Z * Z))
    (range_preds : list (Z * Z * bytes)) (extra : list Z) (having : option HavingPred) (sort : option GroupSort) :
    outcome DbResult :=
  if bool_decide (aggs = []) then Ret (ResSchemaError (Text "GroupAggregateMulti needs ≥1 aggregate")) else
  match get_type db t with
  | None => Ret (ResSchemaError (NoType t))
  | Some ot =>
      let cand := narrow_by_range_preds db t ot range_preds in
      match group_cols ot group_field extra with
      | inr m => Ret (ResSchemaError m)
      | inl (g, cols) =>
          match multi_pos ot aggs with
          | inr m => Ret (ResSchemaError m)
          | inl poss =>
              p ← partial_folds (row_filter program ot) "group-multi program" (group_fold (g :: cols) poss) ∅
                    (snd <$> source_rows db t cand);
              Ret match p with
                  | inr m => ResSchemaError m
                  | inl parts =>
                      emit_group_results_composite
                        (group_rows g.2 cols.*2 aggs.*1 having (fold_left (merge_groups (length aggs)) parts ∅)) sort
                  end
          end
      end
  end.
End Group.
