(* ===== verification/RowSchema.v ===== *)
(** kessel-sm: dropping and renaming.

    The catalog operations that take something away: DropType with its rows,
    DropIndex, DropField, which rewrites every row, and RenameField.

    Source: src/crates/kessel-sm/src/lib.rs ([StateMachine::apply]). *)

From Stdlib Require Import ZArith Lia String.
From stdpp Require Import base numbers list sorting gmap fin_maps.
From S2P Require Import Prelude BTree Proto Vfs Wal SsTable Storage Mvcc Engine Ssi Tx Sm.
From S2P Require Import Reader Catalog Codec Expr Cache Rows.

#[local] Open Scope Z_scope.
#[local] Set Warnings "-register-all".

(** ** Types without something *)

Definition without (fid : Z) (fids : list Z) : list Z := List.filter (fun f => negb (f =? fid)) fids.

Definition drop_indexes (fid : Z) (t : ObjectType) : ObjectType :=
  mkObjectType (type_id t) (ot_name t) (schema_ver t) (fields t) (without fid (indexes t)) (without fid (unique t)) (fks t)
    (checks t) (triggers t) (without fid (ordered t)) (composite t) (defaults t) (serial_pk t) (serial_field_id t).
Definition clear_composite (n : nat) (t : ObjectType) : ObjectType :=
  mkObjectType (type_id t) (ot_name t) (schema_ver t) (fields t) (indexes t) (unique t) (fks t) (checks t)
    (triggers t) (ordered t) (<[n := []]> (composite t)) (defaults t) (serial_pk t) (serial_field_id t).

Fixpoint rename_first (fid : Z) (name : text) (fs : list Field) : list Field :=
  match fs with
  | [] => []
  | f :: fs' =>
      if field_id f =? fid then mkField (field_id f) name (f_kind f) (f_nullable f) :: fs' else f :: rename_first fid name fs'
  end.
Definition rename_in (fid : Z) (name : text) (t : ObjectType) : ObjectType :=
  mkObjectType (type_id t) (ot_name t) (schema_ver t) (rename_first fid name (fields t)) (indexes t) (unique t) (fks t)
    (checks t) (triggers t) (ordered t) (composite t) (defaults t) (serial_pk t) (serial_field_id t).

(** The type without the [i]-th field, as rows are encoded for it. *)
Definition shrunk (i : nat) (t : ObjectType) : ObjectType :=
  mkObjectType (type_id t) (ot_name t) (schema_ver t) (delete i (fields t)) (indexes t) (unique t) (fks t)
    (checks t) (triggers t) (ordered t) (composite t) (defaults t) (serial_pk t) (serial_field_id t).
(** The type the catalog has afterwards. *)
Definition drop_field_in (fid : Z) (i : nat) (t : ObjectType) : ObjectType :=
  mkObjectType (type_id t) (ot_name t) (wrap32 (schema_ver t + 1)) (delete i (fields t)) (without fid (indexes t))
    (without fid (unique t)) (fks t) (checks t) (triggers t) (without fid (ordered t))
    ((fun c => if bool_decide (fid ∈ c) then [] else c) <$> composite t) (defaults t) (serial_pk t) (serial_field_id t).

(** Prefixes of the entries of an ordered index, numbers and bytes. *)
Definition oidx_prefix (t fid : Z) : bytes := idx_ns 0xFFFD0000 t ++ le_bytes 2 fid.
Definition voidx_prefix (t fid : Z) : bytes := idx_ns 0xFFFC0000 t ++ le_bytes 2 fid.

Section Schema.
Context {W : Type} `{Vfs W}.
Implicit Types db : Db W.

Abbreviation DM := (M (Db W)).

(** The transaction an operation opens unless it runs in one. *)
Definition begin_own (own : bool) : DM unit := if own then db_begin_txn else mret tt.
Definition abort_own (own : bool) : DM unit := if own then db_abort_txn else mret tt.
Definition commit_own (own : bool) (place : string) : DM DbResult :=
  if own then
    r ← db_commit_txn;
    mret match r with inl _ => ResOk | inr e => ResSchemaError (Store place e) end
  else mret ResOk.

(** [persist_catalog] and the end of the transaction. *)
Definition persist_own (op_number : Z) (own : bool) (place : string) : DM DbResult :=
  pc ← persist_catalog op_number;
  match pc with
  | ResOk => commit_own own place
  | _ => _ ← abort_own own; mret pc
  end.

(** ** DropType *)

Fixpoint drop_rows (op_number : Z) (own : bool) (t : Z) (rows : list (Key * bytes)) : DM (unit + DbResult) :=
  match rows with
  | [] => mret (inl tt)
  | (k, rec) :: rows' =>
      _ ← idx_maintain op_number t (row_id k) (Some rec) None;
      r ← db_delete op_number k;
      match r with
      | inl _ => drop_rows op_number own t rows'
      | inr e => _ ← abort_own own; mret (inr (ResSchemaError (Store "drop" e)))
      end
  end.

Definition referencing db (t : Z) : option ObjectType :=
  List.find (fun x => negb (type_id x =? t) && existsb (fun fk => fk.1.2 =? t) (fks x)) (types (db_catalog db)).

Definition drop_type (op_number t : Z) : DM DbResult :=
  db ← m_get;
  match get_type db t with
  | None => mret ResNotFound
  | Some _ =>
      match referencing db t with
      | Some x => mret (ResConstraint (TypeReferenced t (ot_name x)))
      | None =>
          let own := negb (in_txn (db_storage db)) in
          _ ← begin_own own;
          db ← m_get;
          r ← drop_rows op_number own t (type_rows db t);
          match r with
          | inr e => mret e
          | inl _ =>
              _ ← m_modify (fun db => set_catalog
                    (mkCatalog (List.filter (fun x => negb (type_id x =? t)) (types (db_catalog db)))
                       (next_type_id (db_catalog db)) (external (db_catalog db))) db);
              persist_own op_number own "drop commit"
          end
      end
  end.

(** ** DropIndex *)

(** Deletes the entries whose keys begin with [prefix]. *)
Definition drop_prefix (op_number : Z) (prefix : bytes) : DM unit :=
  db ← m_get;
  for_each (fun kv : Key * bytes => _ ← db_delete op_number kv.1; mret tt)
    (scan_range (db_storage db) prefix (prefix ++ replicate 64 255)).

Definition drop_index (op_number t : Z) (fs : list Z) : DM DbResult :=
  db ← m_get;
  match get_type db t with
  | None => mret (ResSchemaError (NoType t))
  | Some ot =>
      match fs with
      | [fid] =>
          let eq := bool_decide (fid ∈ indexes ot) in
          let ord := bool_decide (fid ∈ ordered ot) in
          _ ← (if eq then drop_prefix op_number (idx_prefix t fid []) else mret tt);
          _ ← (if ord then _ ← drop_prefix op_number (oidx_prefix t fid); drop_prefix op_number (voidx_prefix t fid)
               else mret tt);
          if eq || ord then _ ← edit_type t (drop_indexes fid); persist_catalog op_number else mret ResNotFound
      | _ =>
          match composite_no fs (composite ot) 0 with
          | None => mret ResNotFound
          | Some ci =>
              _ ← drop_prefix op_number (idx_prefix t (composite_fid ci) []);
              _ ← edit_type t (clear_composite (Z.to_nat ci));
              persist_catalog op_number
          end
      end
  end.

(** ** RenameField *)

Definition rename_field (op_number t fid : Z) (name : text) : DM DbResult :=
  db ← m_get;
  match get_type db t with
  | None => mret (ResSchemaError (NoType t))
  | Some ot =>
      if negb (existsb (fun f => field_id f =? fid) (fields ot)) then mret (ResSchemaError (NoField fid)) else
      if existsb (fun f => bool_decide (f_name f = name) && negb (field_id f =? fid)) (fields ot)
      then mret (ResConstraint (NameInUse name)) else
      _ ← edit_type t (rename_in fid name);
      persist_catalog op_number
  end.

(** ** DropField *)

(** The index entries of a column. *)
Definition field_prefixes (t fid : Z) (ot : ObjectType) : list bytes :=
  (if bool_decide (fid ∈ indexes ot) then [idx_prefix t fid []] else []) ++
  (if bool_decide (fid ∈ ordered ot) then [oidx_prefix t fid; voidx_prefix t fid] else []) ++
  concat (imap (fun ci c => if bool_decide (fid ∈ c) then [idx_prefix t (composite_fid (Z.of_nat ci)) []] else [])
            (composite ot)).

Fixpoint rewrite_rows (op_number : Z) (own : bool) (ot : ObjectType) (fi : nat) (rows : list (Key * bytes)) :
    DM (unit + DbResult) :=
  match rows with
  | [] => mret (inl tt)
  | (k, rec) :: rows' =>
      d ← m_lift (decode ot rec);
      match d with
      | inr e => _ ← abort_own own; mret (inr (ResSchemaError (DropDecode e)))
      | inl vals =>
          n ← m_lift (encode (shrunk fi ot) (delete fi vals));
          match n with
          | inr e => _ ← abort_own own; mret (inr (ResSchemaError (DropEncode e)))
          | inl nr =>
              r ← db_put op_number k nr;
              match r with
              | inl _ => rewrite_rows op_number own ot fi rows'
              | inr e => _ ← abort_own own; mret (inr (ResSchemaError (Store "DROP COLUMN" e)))
              end
          end
      end
  end.

Definition drop_field (op_number t fid : Z) : DM DbResult :=
  db ← m_get;
  match get_type db t with
  | None => mret (ResSchemaError (NoType t))
  | Some ot =>
      match field_pos ot fid with
      | None => mret (ResSchemaError (NoField fid))
      | Some (i, _, f) =>
          if zlen (fields ot) =? 1 then mret (ResSchemaError (Text "DROP COLUMN: a table must keep at least one column (use DROP TABLE)")) else
          if bool_decide (f_kind f = OverflowRef)
          then mret (ResSchemaError (Text "DROP COLUMN: overflow columns are not supported")) else
          if existsb (fun fk => fk.1.1 =? fid) (fks ot)
          then mret (ResConstraint (Text "DROP COLUMN: column backs a foreign key")) else
          if negb (bool_decide (checks ot = [])) || negb (bool_decide (triggers ot = []))
          then mret (ResSchemaError (Text "DROP COLUMN: not supported on a table with CHECK constraints or triggers (their programs are position-encoded)")) else
          let own := negb (in_txn (db_storage db)) in
          _ ← begin_own own;
          _ ← for_each (drop_prefix op_number) (field_prefixes t fid ot);
          db ← m_get;
          r ← rewrite_rows op_number own ot (Z.to_nat i) (type_rows db t);
          match r with
          | inr e => mret e
          | inl _ =>
              _ ← edit_type t (drop_field_in fid (Z.to_nat i));
              persist_own op_number own "DROP COLUMN commit"
          end
      end
  end.
End Schema.
