(* ===== verification/RowApply.v ===== *)
(** kessel-sm: operations and batches.

    The operations of the record layer as one type, their dispatch with the
    replay guard of [apply], and the batches that run several of them
    atomically: transactions, and the slices and votes of the cross-shard
    protocol.

    Source: src/crates/kessel-sm/src/lib.rs ([StateMachine::apply]). *)

From Stdlib Require Import ZArith Lia String.
From stdpp Require Import base numbers list sorting gmap fin_maps.
From S2P Require Import Prelude BTree Proto Vfs Wal SsTable Storage Mvcc Engine Ssi Tx Sm.
From S2P Require Import Reader Catalog Codec Expr Cache Rows RowQuery RowSchema.

#[local] Open Scope Z_scope.
#[local] Set Warnings "-register-all".

(** ** Operations and batches *)

Inductive DbOp :=
  | CoreOp (op : Op)
  | CreateType (def : bytes)
  | AlterTypeAddField (type_id : Z) (field : bytes)
  | Create (type_id : Z) (id record : bytes)
  | Update (type_id : Z) (id record : bytes)
  | UpdateSet (type_id : Z) (id : bytes) (sets : list (Z * bytes))
  | Delete (type_id : Z) (id : bytes)
  | GetById (type_id : Z) (id : bytes)
  | GetBlob (handle : Z)
  | Describe (type_id : Z)
  | CreateIndex (type_id field_id : Z)
  | FindBy (type_id field_id : Z) (value : bytes)
  | AddCompositeIndex (type_id : Z) (fs : list Z)
  | FindByComposite (type_id : Z) (fs : list Z) (values : list bytes)
  | AddUnique (type_id field_id : Z)
  | AddForeignKey (type_id field_id ref_type_id on_delete : Z)
  | AddCheck (type_id : Z) (program : bytes)
  | AddTrigger (type_id : Z) (program : bytes)
  | AddOrderedIndex (type_id field_id : Z)
  | FindRange (type_id field_id : Z) (lo hi : bytes)
  | Query (type_id : Z) (preds : list Pred)
  | QueryExpr (type_id : Z) (program : bytes)
  | Select (type_id : Z) (program : bytes) (limit : Z)
  | QueryRows (type_id : Z) (eq_preds : list (Z * bytes)) (program : bytes) (limit : Z) (range_preds : list (Z * Z * bytes))
  | SelectFields (type_id : Z) (program : bytes) (fs : list Z) (limit : Z)
  | SelectSorted (type_id : Z) (program : bytes) (sort_field : Z) (desc : bool) (offset limit : Z)
  | Aggregate (type_id : Z) (program : bytes) (kind field_id : Z) (range_preds : list (Z * Z * bytes))
  | GroupAggregate (type_id : Z) (program : bytes) (group_field kind agg_field : Z) (range_preds : list (Z * Z * bytes))
      (extra : list Z) (having : option HavingPred) (sort : option GroupSort)
  | GroupAggregateMulti (type_id : Z) (program : bytes) (group_field : Z) (aggregates : list (Z * Z))
      (range_preds : list (Z * Z * bytes)) (extra : list Z) (having : option HavingPred) (sort : option GroupSort)
  | DropType (type_id : Z)
  | DropIndex (type_id : Z) (fs : list Z)
  | RenameField (type_id field_id : Z) (name : text)
  | DropField (type_id field_id : Z)
  | AddBalanceGuard (type_id field_id : Z)
  | Txn (ops : list DbOp)
  | XshardApply (seq : Z) (ops : list DbOp)
  | XshardDecide (seq : Z) (ops : list DbOp)
  | XshardCommit (seq : Z) (ops : list DbOp) (commit : bool).

(** The reads of the record layer. *)
Definition row_read (op : DbOp) : bool :=
  match op with
  | GetById _ _ | GetBlob _ | Describe _ | FindBy _ _ _ | FindByComposite _ _ _ | FindRange _ _ _ _
  | Query _ _ | QueryExpr _ _ | Select _ _ _ | QueryRows _ _ _ _ _ | SelectFields _ _ _ _ | SelectSorted _ _ _ _ _ _
  | Aggregate _ _ _ _ _ | GroupAggregate _ _ _ _ _ _ _ _ _ | GroupAggregateMulti _ _ _ _ _ _ _ _ => true
  | _ => false
  end.

Definition db_is_mutating (op : DbOp) : bool :=
  match op with
  | CoreOp op => is_mutating op
  | _ => negb (row_read op)
  end.

(** What a transaction, and a slice of a cross-shard one, may hold. *)
Definition txn_allowed (op : DbOp) : bool :=
  match op with
  | Create _ _ _ | Update _ _ _ | UpdateSet _ _ _ | Delete _ _ => true
  | _ => row_read op
  end.
Definition slice_allowed (op : DbOp) : bool :=
  match op with Create _ _ _ | Update _ _ _ | Delete _ _ => true | _ => false end.

Section Apply.
Context {W : Type} `{Vfs W}.
Implicit Types db : Db W.

Abbreviation DM := (M (Db W)).

(** The replay guard of [apply]. *)
Definition guard (op_number : Z) (mutating : bool) (arm : DM DbResult) : DM DbResult :=
  db ← m_get;
  match high_op (db_storage db) with
  | Some cursor => if mutating && (op_number <=? cursor) then mret ResOk else arm
  | None => arm
  end.

Definition update_set (op_number t : Z) (id : bytes) (sets : list (Z * bytes)) : DM DbResult :=
  db ← m_get;
  r ← m_lift (update_set_record db t id sets);
  match r with
  | inr e => mret e
  | inl record => guard op_number true (update_row op_number t id record)
  end.

(** A guard that a signed column is not negative: a CHECK. *)
Definition balance_program (fid : Z) : bytes := 1 :: le_bytes 2 fid ++ 0 :: le_bytes 16 0 ++ [8].
Definition add_balance_guard (op_number t fid : Z) : DM DbResult :=
  db ← m_get;
  match get_type db t with
  | None => mret (ResSchemaError (NoType t))
  | Some ot =>
      match List.find (fun f => field_id f =? fid) (fields ot) with
      | None => mret (ResSchemaError (NoField fid))
      | Some f =>
          if is_signed (f_kind f) then guard op_number true (add_check op_number t (balance_program fid))
          else mret (ResSchemaError (Text "balance guard requires a signed numeric column (a guard on an unsigned column is always true)"))
      end
  end.

(** A read that leaves the database as it is. *)
Definition reading (f : Db W -> outcome DbResult) : DM DbResult := db ← m_get; m_lift (f db).

(** The operations of a batch, the [i]-th at [op_number + i]: the results, or
    the first failure. *)
Definition run_batch (run : Z -> DbOp -> DM DbResult) (op_number : Z) :=
  fix go (i : Z) (ops : list DbOp) : DM (list DbResult + DbResult) :=
    match ops with
    | [] => mret (inl [])
    | o :: ops' =>
        r ← run (wrap64 (op_number + i)) o;
        if failed r then mret (inr r) else
        rest ← go (i + 1) ops';
        mret (match rest with inl rs => inl (r :: rs) | inr e => inr e end)
    end.

(** Rolling a batch back: the overlay and whatever it put into the cache. *)
Definition roll_back : DM unit := _ ← db_abort_txn; with_cache cache_clear.

Definition created_id (r : DbResult) : option Z := match r with Created id => Some id | _ => None end.

Definition txn_result (rs : list DbResult) : DbResult :=
  match mapM created_id rs with
  | Some ((_ :: _) as ids) => CreatedMany ids
  | _ => ResOk
  end.

Definition txn_arm (allowed : bool) (batch : DM (list DbResult + DbResult)) : DM DbResult :=
  if negb allowed then mret (ResSchemaError (Text "Txn: only data ops allowed")) else
  _ ← db_begin_txn;
  r ← batch;
  match r with
  | inr e => _ ← roll_back; mret e
  | inl rs =>
      c ← db_commit_txn;
      match c with
      | inl _ => mret (txn_result rs)
      | inr e => mret (ResSchemaError (Store "txn commit" e))
      end
  end.

Definition xshard_cursor db : Z :=
  default 0 (b ← db_get db xshard_cursor_key; h ← get_range b 0 8; Some (le_value h)).

(** XshardApply, and XshardCommit with its batch empty when it does not commit. *)
Definition xshard_arm (op_number seq : Z) (allowed : bool) (batch : DM (list DbResult + DbResult)) : DM DbResult :=
  db ← m_get;
  let c := xshard_cursor db in
  if seq <=? c then mret ResOk else
  if negb (seq =? wrap64 (c + 1)) then mret (ResSchemaError (XshardOutOfOrder c seq)) else
  if negb allowed then mret (ResSchemaError (Text "xshard: only Create/Update/Delete allowed")) else
  let own := negb (in_txn (db_storage db)) in
  _ ← (if own then db_begin_txn else mret tt);
  r ← batch;
  match r with
  | inr e => _ ← (if own then roll_back else mret tt); mret e
  | inl _ =>
      p ← db_put op_number xshard_cursor_key (le_bytes 8 seq);
      match p with
      | inr e => _ ← (if own then db_abort_txn else mret tt); mret (ResSchemaError (Store "xshard cursor" e))
      | inl _ =>
          if own then
            q ← db_commit_txn;
            mret (match q with inl _ => ResOk | inr e => ResSchemaError (Store "xshard commit" e) end)
          else mret ResOk
      end
  end.

Definition decide_arm (op_number seq : Z) (allowed : bool) (batch : DM (list DbResult + DbResult)) : DM DbResult :=
  db ← m_get;
  match db_get db (xvote_key seq) with
  | Some v => mret (ResGot v)
  | None =>
      if negb allowed then mret (ResSchemaError (Text "xshard decide: only Create/Update/Delete")) else
      let own := negb (in_txn (db_storage db)) in
      _ ← (if own then db_begin_txn else mret tt);
      r ← batch;
      _ ← (if own then roll_back else mret tt);
      let verdict := [match r with inl _ => 1 | inr _ => 0 end] in
      _ ← db_put op_number (xvote_key seq) verdict;
      mret (ResGot verdict)
  end.

Fixpoint db_apply (op_number : Z) (op : DbOp) {struct op} : DM DbResult :=
  let batch ops := run_batch db_apply op_number 0 ops in
  match op with
  | CoreOp op => r ← on_sm (apply op_number op); mret (Core r)
  | _ => guard op_number (db_is_mutating op)
      match op with
      | CoreOp _ => mret ResOk
      | CreateType def => create_type op_number def
      | AlterTypeAddField t field => alter_type_add_field op_number t field
      | Create t id record => create_row op_number t id record
      | Update t id record => update_row op_number t id record
      | UpdateSet t id sets => update_set op_number t id sets
      | Delete t id => delete_row op_number t id
      | GetById t id => get_by_id t id
      | GetBlob handle => get_blob handle
      | Describe t => describe t
      | CreateIndex t fid => create_index op_number t fid
      | FindBy t fid value => find_by t fid value
      | AddCompositeIndex t fs => add_composite_index op_number t fs
      | FindByComposite t fs values => find_by_composite t fs values
      | AddUnique t fid => add_unique op_number t fid
      | AddForeignKey t fid rt od => add_foreign_key op_number t fid rt od
      | AddCheck t program => add_check op_number t program
      | AddTrigger t program => add_trigger op_number t program
      | AddOrderedIndex t fid => add_ordered_index op_number t fid
      | FindRange t fid lo hi => find_range t fid lo hi
      | Query t preds => reading (fun db => Ret (query db t preds))
      | QueryExpr t program => reading (fun db => query_expr db t program)
      | Select t program limit => reading (fun db => select db t program limit)
      | QueryRows t eqs program limit ranges => reading (fun db => query_rows db t eqs program limit ranges)
      | SelectFields t program fs limit => reading (fun db => select_fields db t program fs limit)
      | SelectSorted t program f desc offset limit => reading (fun db => select_sorted db t program f desc offset limit)
      | Aggregate t program kind fid ranges => reading (fun db => aggregate db t program kind fid ranges)
      | GroupAggregate t program g kind fid ranges extra having sort =>
          reading (fun db => group_aggregate db t program g kind fid ranges extra having sort)
      | GroupAggregateMulti t program g aggs ranges extra having sort =>
          reading (fun db => group_aggregate_multi db t program g aggs ranges extra having sort)
      | DropType t => drop_type op_number t
      | DropIndex t fs => drop_index op_number t fs
      | RenameField t fid name => rename_field op_number t fid name
      | DropField t fid => drop_field op_number t fid
      | AddBalanceGuard t fid => add_balance_guard op_number t fid
      | Txn ops => txn_arm (forallb txn_allowed ops) (batch ops)
      | XshardApply seq ops => xshard_arm op_number seq (forallb slice_allowed ops) (batch ops)
      | XshardDecide seq ops => decide_arm op_number seq (forallb slice_allowed ops) (batch ops)
      | XshardCommit seq ops commit =>
          xshard_arm op_number seq (forallb slice_allowed ops) (if commit then batch ops else mret (inl []))
      end
  end.

Fixpoint db_apply_all (ops : list (Z * DbOp)) : DM (list DbResult) :=
  match ops with
  | [] => mret []
  | (n, op) :: ops' => r ← db_apply n op; rs ← db_apply_all ops'; mret (r :: rs)
  end.

(** ** The read path *)

(** [read_only_op]: the reads on a shared reference, without the cache. *)
Fixpoint read_only_op db (op : DbOp) {struct op} : outcome DbResult :=
  match op with
  | GetById t id =>
      Ret match db_get db (make_key t id) with Some b => ResGot b | None => ResNotFound end
  | GetBlob handle => (get_blob handle db).2
  | Describe t => (describe t db).2
  | CoreOp (SeqRead from limit) => r ← (seq_read from limit (db_sm db)).2; Ret (Core r)
  | FindBy t fid value => (find_by t fid value db).2
  | FindByComposite t fs values => (find_by_composite t fs values db).2
  | FindRange t fid lo hi => (find_range t fid lo hi db).2
  | Query t preds => Ret (query db t preds)
  | QueryExpr t program => query_expr db t program
  | Select t program limit => select db t program limit
  | QueryRows t eqs program limit ranges => query_rows db t eqs program limit ranges
  | SelectFields t program fs limit => select_fields db t program fs limit
  | SelectSorted t program f desc offset limit => select_sorted db t program f desc offset limit
  | Aggregate t program kind fid ranges => aggregate db t program kind fid ranges
  | GroupAggregate t program g kind fid ranges extra having sort =>
      group_aggregate db t program g kind fid ranges extra having sort
  | GroupAggregateMulti t program g aggs ranges extra having sort =>
      group_aggregate_multi db t program g aggs ranges extra having sort
  | Txn ops =>
      if negb (forallb row_read ops) then Ret (ResSchemaError (Text "Txn: only data ops allowed")) else
      (fix go (ops : list DbOp) : outcome DbResult :=
         match ops with
         | [] => Ret ResOk
         | o :: ops' => r ← read_only_op db o; if failed r then Ret r else go ops'
         end) ops
  | _ => Ret (ResSchemaError (Text "read_only_op: non-read Op routed to read path"))
  end.
End Apply.
