(* ===== verification/RowStore.v ===== *)
(** What the record layer uses of the engine.

    The record operations read and write whole keys; versions, overlays and
    files are below them. [kv_ok s n] is the engine in order, inside or outside
    of a transaction, with no version above [n]; on it a write at a number from
    [n] on returns, and changes what [get] reads under its key and nothing
    else.

    Source: src/crates/kessel-storage/src/lib.rs ([Storage::put],
    [Storage::delete], [Storage::get]). *)

From Stdlib Require Import ZArith Lia.
From stdpp Require Import base numbers list sorting gmap fin_maps.
From S2P Require Import Prelude BTree Proto Vfs Wal SsTable Storage View Recovery Crash Mvcc MvccSpec Engine.

#[local] Open Scope Z_scope.

(** ** Keys *)

Definition user_type (t : Z) : Prop := 0 < t <= MAX_USER_TYPE_ID.

(** The type slot of a key. *)
Definition key_type (k : Key) : Z := le_value (take 4 k).

(** Keys of the reserved spaces: the catalog's, and those above the user types. *)
Definition reserved_key (k : Key) : Prop := key_type k = CATALOG_TYPE_ID \/ MAX_USER_TYPE_ID < key_type k.

(** The keys the record layer uses: rows of user types and reserved keys. *)
Definition key_ok (k : Key) : Prop :=
  bytes_ok k /\ zlen k <= 65535 /\
  ((exists t o, user_type t /\ oid_ok o /\ k = make_key t o) \/ reserved_key k).

Definition slot_ok (v : Slot) : Prop := forall b, v = Some b -> bytes_ok b /\ zlen b <= 4294900000.

Lemma key_type_app t x : u32_ok t -> key_type (le_bytes 4 t ++ x) = t.
Proof. intros Ht. unfold key_type. rewrite take_app_length' by (by rewrite le_bytes_length). by apply le_value_u32. Qed.

Lemma user_u32 t : user_type t -> u32_ok t.
Proof. unfold user_type, u32_ok, u32_max, MAX_USER_TYPE_ID. lia. Qed.

Lemma reserved_dispatch k : reserved_key k -> data_row_dispatch k = None.
Proof.
  unfold reserved_key, key_type, data_row_dispatch. intros Hk. destruct (_ =? PREFIX_LEN); [ | done].
  destruct Hk as [-> | Hk]; [done | ]. rewrite (proj2 (Z.leb_gt _ _)) by lia. by rewrite andb_false_r.
Qed.

Lemma reserved_not_version k t o c : reserved_key k -> user_type t -> k <> make_versioned_key t o c.
Proof.
  intros Hk Ht ->. unfold reserved_key, make_versioned_key in Hk. rewrite <- ?app_assoc in Hk.
  rewrite key_type_app in Hk by (by apply user_u32). unfold user_type in Ht. unfold CATALOG_TYPE_ID in Hk. lia.
Qed.

Section RowStore.
Context {W : Type} `{VfsLaws W}.
Implicit Types s : Storage W.

Record kv_ok s (n : Z) : Prop := {
  kv_disk : exists es ms, disk_ok s es ms;
  kv_overlay : overlay_ok (txn s);
  kv_keys : keys_ok (view s);
  kv_versions t o c v : user_type t -> oid_ok o -> u64_ok c ->
    view s !! make_versioned_key t o c = Some v -> c <= n;
}.

Lemma kv_ok_reads s n : kv_ok s n -> tables_wf s /\ keys_ok (view s).
Proof. intros [(es & ms & Hd) _ Hk _]. split; [by eapply disk_ok_tables_wf | done]. Qed.

Lemma kv_ok_mono s n m : kv_ok s n -> n <= m -> kv_ok s m.
Proof. intros [Hd Ho Hk Hv] Hle. constructor; try done. intros t o c v Ht Hoid Hc Hl. specialize (Hv t o c v Ht Hoid Hc Hl). lia. Qed.

(** ** Writing *)

(** [put] or [delete]. *)
Definition write (op : Z) (k : Key) (v : Slot) : M (Storage W) unit :=
  match v with Some b => put op k b | None => delete_key op k end.

(** The physical entry a write makes. *)
Definition write_entry (op : Z) (k : Key) (v : Slot) : Entry :=
  match data_row_dispatch k with
  | Some t => {| op_number := op; entry_key := make_versioned_key t (drop 4 k) op; entry_value := v |}
  | None => {| op_number := op; entry_key := k; entry_value := v |}
  end.

Lemma write_commit op k v s : write op k v s = commit (write_entry op k v) s.
Proof. unfold write, write_entry, put, delete_key, put_versioned, put_entry_versioned. by destruct v, (data_row_dispatch k). Qed.

Lemma dispatch_row t o : user_type t -> oid_ok o -> data_row_dispatch (make_key t o) = Some t /\ drop 4 (make_key t o) = o.
Proof.
  intros Ht Ho. split; [by apply data_row_dispatch_key | ].
  unfold make_key. by rewrite drop_app_length' by (by rewrite le_bytes_length).
Qed.

Lemma write_entry_ok op k v : u64_ok op -> key_ok k -> slot_ok v -> entry_ok (write_entry op k v).
Proof.
  intros Hop (Hb & Hl & Hk) Hv.
  assert (exists k', write_entry op k v = {| op_number := op; entry_key := k'; entry_value := v |} /\
            bytes_ok k' /\ zlen k' <= 65535) as (k' & -> & Hb' & Hl').
  { destruct Hk as [(t & o & Ht & Ho & ->) | Hr]; unfold write_entry.
    - destruct (dispatch_row t o Ht Ho) as [-> ->]. exists (make_versioned_key t o op).
      split_and!; [done | by apply make_versioned_key_ok | by rewrite make_versioned_key_len]. 
    - rewrite reserved_dispatch by done. by exists k. }
  constructor; cbn; [done | done | unfold u16_max; lia | intros b Hb1; by apply Hv | ].
  unfold encode_entry. cbn. pose proof (zlen_nonneg k'). destruct v as [b | ]; autorewrite with zlen; cbn;
    autorewrite with zlen; unfold u32_max; [destruct (Hv b eq_refl); lia | lia].
Qed.

(** A physical write in or out of a transaction. *)
Lemma kv_commit s n e :
  kv_ok s n -> entry_ok e ->
  exists s', commit e s = (s', Ret tt) /\ (exists es ms, disk_ok s' es ms) /\ overlay_ok (txn s') /\
    keys_ok (view s') /\ in_txn s' = in_txn s /\ view s' = <[entry_key e := entry_value e]> (view s).
Proof.
  intros Hs He. pose proof (kv_ok_reads s n Hs) as [Hwf Hk]. destruct Hs as [(es & ms & Hd) Hov _ _].
  assert (exists s', commit e s = (s', Ret tt) /\ (exists es ms, disk_ok s' es ms) /\ overlay_ok (txn s') /\
            in_txn s' = in_txn s /\ view s' = <[entry_key e := entry_value e]> (view s))
    as (s' & Hc & Hd' & Hov' & Hin & Hv).
  { destruct (txn s) as [ov | ] eqn:Htx.
    - eexists. split; [by apply commit_overlay_spec | ]. split_and!.
      + exists es, ms. destruct Hd. by constructor.
      + by apply overlay_ok_insert.
      + unfold in_txn. by rewrite Htx.
      + by apply commit_overlay_view.
    - destruct (commit_spec s es ms e Hd Htx He) as (s' & Hc & Hd' & Htx' & _ & _ & _ & _ & Hv).
      exists s'. split_and!; [done | eauto | by rewrite Htx' | | done]. unfold in_txn. by rewrite Htx, Htx'. }
  exists s'. split_and!; try done. eapply commit_reads_ok; [exact Hc | apply He | done | done].
Qed.

Lemma get_row_versions s s' t o :
  tables_wf s -> keys_ok (view s) -> tables_wf s' -> keys_ok (view s') -> user_type t -> oid_ok o ->
  (forall c, u64_ok c -> view s' !! make_versioned_key t o c = view s !! make_versioned_key t o c) ->
  get s' (make_key t o) = get s (make_key t o).
Proof.
  intros Hwf Hk Hwf' Hk' Ht Ho Heq. rewrite !get_row by done.
  by rewrite (get_at_snapshot_ext s s' t o u64_max) by (done || intros; by apply Heq).
Qed.

(** What a row and a reserved key read after the view changed at one entry. *)
Definition reads_well (s : Storage W) : Prop := tables_wf s /\ keys_ok (view s).

Lemma get_written_row s s' n op t o v :
  kv_ok s n -> n <= op -> u64_ok op -> user_type t -> oid_ok o -> reads_well s' ->
  view s' = <[make_versioned_key t o op := v]> (view s) ->
  get s' (make_key t o) = v.
Proof.
  intros Hs Hn Hop Ht Ho [Hwf' Hk'] Hview. rewrite get_row by done.
  rewrite (get_at_snapshot_newest s' t o u64_max op v); [by destruct v | done.. | ].
  split_and!; [done | apply Hop | by rewrite Hview, lookup_insert_eq | ].
  intros c Hc Hlt. rewrite Hview, lookup_insert_ne.
  - destruct (view s !! _) as [v' | ] eqn:E; [ | done]. pose proof (kv_versions s n Hs t o c v' Ht Ho Hc E). lia.
  - intros E. apply versioned_key_inj in E as (_ & _ & ->); try done; first [lia | by apply user_u32].
Qed.

Lemma get_other_key s s' k v k' :
  reads_well s -> reads_well s' -> key_ok k' ->
  view s' = <[k := v]> (view s) ->
  (forall t o c, user_type t -> oid_ok o -> u64_ok c -> k' = make_key t o -> k <> make_versioned_key t o c) ->
  (reserved_key k' -> k <> k') ->
  get s' k' = get s k'.
Proof.
  intros [Hwf Hk] [Hwf' Hk'] (_ & _ & [(t & o & Ht & Ho & ->) | Hr]) Hview Hne Hne'.
  - apply get_row_versions; try done. intros c Hc. rewrite Hview, lookup_insert_ne; [done | ]. by apply Hne.
  - rewrite !get_other by (done || by apply reserved_dispatch). rewrite Hview, lookup_insert_ne; [done | auto].
Qed.

Lemma make_key_inj t o t' o' : u32_ok t -> u32_ok t' -> make_key t o = make_key t' o' -> t = t' /\ o = o'.
Proof.
  intros Ht Ht' E. apply app_inj_1 in E as [E ->]; [ | by rewrite !le_bytes_length]. split; [ | done].
  by rewrite <- (le_value_u32 t), E, le_value_u32.
Qed.

Lemma kv_write_row s n op t o v :
  kv_ok s n -> n <= op -> u64_ok op -> user_type t -> oid_ok o -> slot_ok v ->
  exists s', write op (make_key t o) v s = (s', Ret tt) /\ kv_ok s' op /\ in_txn s' = in_txn s /\
    forall k', key_ok k' -> get s' k' = if decide (k' = make_key t o) then v else get s k'.
Proof.
  intros Hs Hn Hop Ht Ho Hv. pose proof (kv_ok_reads s n Hs) as Hr. destruct (dispatch_row t o Ht Ho) as [Hdi Hdr].
  destruct (kv_commit s n (write_entry op (make_key t o) v) Hs) as (s' & Hc & Hd & Hov & Hks' & Hin & Hview).
  { apply write_entry_ok; [done | | done]. split_and!; [by apply make_key_ok | | eauto 6].
    unfold zlen. by rewrite make_key_length. }
  assert (tables_wf s') as Hwf' by (destruct Hd as (es & ms & Hd); by eapply disk_ok_tables_wf).
  exists s'. rewrite write_commit. unfold write_entry in Hview. rewrite Hdi, Hdr in Hview. cbn in Hview.
  split_and!; [done | | done | ].
  - constructor; try done. intros t' o' c v' Ht' Ho' Hc'. rewrite Hview. intros [[Heq _] | [_ Hl']]%lookup_insert_Some.
    + apply versioned_key_inj in Heq as (_ & _ & ->); try done; first [lia | by apply user_u32].
    + pose proof (kv_versions s n Hs t' o' c v' Ht' Ho' Hc' Hl'). lia.
  - intros k' Hk'. case_decide as Heq; [subst k'; by eapply get_written_row | ].
    apply (get_other_key s s' (make_versioned_key t o op) v); try done.
    + intros t' o' c Ht' Ho' Hc' -> E. apply versioned_key_inj in E as (<- & <- & _); try done; by apply user_u32.
    + intros Hr' <-. by apply (reserved_not_version (make_versioned_key t o op) t o op).
Qed.

Lemma kv_write_reserved s n op k v :
  kv_ok s n -> n <= op -> u64_ok op -> key_ok k -> reserved_key k -> slot_ok v ->
  exists s', write op k v s = (s', Ret tt) /\ kv_ok s' op /\ in_txn s' = in_txn s /\
    forall k', key_ok k' -> get s' k' = if decide (k' = k) then v else get s k'.
Proof.
  intros Hs Hn Hop Hk Hr Hv. pose proof (kv_ok_reads s n Hs) as Hrd.
  destruct (kv_commit s n _ Hs (write_entry_ok op k v Hop Hk Hv)) as (s' & Hc & Hd & Hov & Hks' & Hin & Hview).
  assert (tables_wf s') as Hwf' by (destruct Hd as (es & ms & Hd); by eapply disk_ok_tables_wf).
  exists s'. rewrite write_commit. unfold write_entry in Hview. rewrite reserved_dispatch in Hview by done. cbn in Hview.
  split_and!; [done | | done | ].
  - constructor; try done. intros t' o' c v' Ht' Ho' Hc'. rewrite Hview, lookup_insert_ne by (by apply reserved_not_version).
    intros Hl'. pose proof (kv_versions s n Hs t' o' c v' Ht' Ho' Hc' Hl'). lia.
  - intros k' Hk'. case_decide as Heq.
    + subst k'. rewrite get_other by (done || by apply reserved_dispatch). by rewrite Hview, lookup_insert_eq.
    + apply (get_other_key s s' k v); try done. intros. by apply reserved_not_version.
Qed.

(** A write at [op] or later changes what is read under its key, to what was
    written, and nothing else. *)
Lemma kv_write s n op k v :
  kv_ok s n -> n <= op -> u64_ok op -> key_ok k -> slot_ok v ->
  exists s', write op k v s = (s', Ret tt) /\ kv_ok s' op /\ in_txn s' = in_txn s /\
    forall k', key_ok k' -> get s' k' = if decide (k' = k) then v else get s k'.
Proof.
  intros Hs Hn Hop Hk Hv. pose proof Hk as (_ & _ & [(t & o & Ht & Ho & ->) | Hr]);
    [by eapply kv_write_row | by eapply kv_write_reserved].
Qed.

(** Beginning and committing a transaction change no read. *)
Lemma kv_begin s n : kv_ok s n -> txn s = None -> kv_ok (begin_txn s) n /\ view (begin_txn s) = view s.
Proof.
  intros Hs Htx. assert (view (begin_txn s) = view s) as Hv.
  { unfold view, begin_txn. rewrite Htx. cbn. by rewrite fmap_empty. }
  destruct Hs as [(es & ms & Hd) Hov Hk Hver]. split; [ | done]. constructor; rewrite ?Hv; try done.
  - exists es, ms. destruct Hd. by constructor.
  - constructor.
Qed.

Lemma kv_commit_txn s n :
  kv_ok s n -> exists s', commit_txn s = (s', Ret tt) /\ kv_ok s' n /\ txn s' = None /\ view s' = view s.
Proof.
  intros [(es & ms & Hd) Hov Hk Hver]. destruct (txn s) as [ov | ] eqn:Htx.
  - destruct (commit_txn_spec s es ms ov Hd Htx Hov) as (s' & Hc & Hd' & Htx' & _ & _ & _ & _ & Hv).
    exists s'. split_and!; try done. constructor; rewrite ?Hv; [eauto | by rewrite Htx' | done | done].
  - exists s. split_and!; try done; [unfold commit_txn; mstep (m_get_ret s); by rewrite Htx | ].
    constructor; [eauto | by rewrite Htx | done | done].
Qed.

Lemma get_same_view s s' n m k : kv_ok s n -> kv_ok s' m -> view s' = view s -> key_ok k -> get s' k = get s k.
Proof.
  intros Hs Hs' Hv (_ & _ & [(t & o & Ht & Ho & ->) | Hr]).
  - destruct (kv_ok_reads s n Hs), (kv_ok_reads s' m Hs'). apply get_row_versions; try done. intros c _. by rewrite Hv.
  - destruct (kv_ok_reads s n Hs), (kv_ok_reads s' m Hs').
    rewrite !get_other by (done || by apply reserved_dispatch). by rewrite Hv.
Qed.
End RowStore.
