(* ===== verification/RowsSpec.v ===== *)
(** kessel-sm: the equality indexes follow the rows.

    An index entry is a key made of type, field, value and object id. The
    invariant [index_ok] says that the entries of an indexed field are exactly
    the values the stored rows hold in it; the record operations keep it, so an
    equality lookup returns the rows that have the value, and no two rows share
    a unique one.

    Source: src/crates/kessel-sm/src/lib.rs. *)

From Stdlib Require Import ZArith Lia String.
From stdpp Require Import base numbers list sorting gmap fin_maps.
From S2P Require Import Prelude BTree Proto Vfs Wal SsTable Storage View Recovery Crash Mvcc MvccSpec Engine Ssi Tx Sm.
From S2P Require Import Reader Catalog Codec Expr ExprSpec Cache Rows RowApply RowStore.

#[local] Open Scope Z_scope.
#[local] Set Warnings "-clear-no-such-hyp".

(** * Keys *)

Lemma idx_ns_value tag ut :
  0 <= ut < 65536 -> (tag = 0xFFFE0000 \/ tag = 0xFFFD0000 \/ tag = 0xFFFC0000) ->
  Z.lor tag (Z.land ut 0xFFFF) = tag + ut.
Proof.
  intros Hu Ht. change 0xFFFF with (Z.ones 16). rewrite Z.land_ones, Z.mod_small by lia.
  rewrite <- (Z.add_lor_land tag ut). enough (Z.land tag ut = 0) as -> by lia.
  replace tag with (Z.shiftl (tag / 65536) 16) by (rewrite Z.shiftl_mul_pow2 by lia; destruct Ht as [-> | [-> | ->]]; done).
  apply Z.bits_inj'. intros i Hi. rewrite Z.land_spec, Z.bits_0.
  destruct (Z.lt_ge_cases i 16); [by rewrite Z.shiftl_spec_low | ].
  rewrite (Z.bits_above_log2 ut i), andb_false_r; [done | lia | ].
  destruct (decide (ut = 0)) as [-> | Hne]; [cbn; lia | ]. apply Z.log2_lt_pow2; [lia | ].
  apply Z.lt_le_trans with (2 ^ 16); [lia | ]. apply Z.pow_le_mono_r; lia.
Qed.

(** The entries of one field of one type. *)
Definition small_type (t : Z) : Prop := 0 < t < 65536.

Lemma small_user t : small_type t -> user_type t.
Proof. unfold small_type, user_type, MAX_USER_TYPE_ID. lia. Qed.

Lemma idx_ns_bytes ut : small_type ut -> idx_ns 0xFFFE0000 ut = le_bytes 4 (0xFFFE0000 + ut).
Proof. intros Hu. unfold idx_ns. rewrite idx_ns_value; [done | unfold small_type in Hu; lia | by left]. Qed.

Lemma entry_key_reserved ut fid v o : small_type ut -> reserved_key (idx_entry_key ut fid v o).
Proof.
  intros Hu. unfold reserved_key, idx_entry_key, idx_prefix. rewrite idx_ns_bytes by done. rewrite <- !app_assoc.
  unfold small_type in Hu. rewrite key_type_app by (unfold u32_ok, u32_max; lia). unfold MAX_USER_TYPE_ID. right. lia.
Qed.

Lemma entry_key_ok ut fid v o :
  small_type ut -> bytes_ok v -> zlen v <= 65000 -> oid_ok o -> key_ok (idx_entry_key ut fid v o).
Proof.
  intros Hu Hv Hl [Ho Hob]. split_and!.
  - unfold idx_entry_key, idx_prefix, idx_ns. rewrite !bytes_ok_app. auto 8 using le_bytes_ok.
  - unfold idx_entry_key, idx_prefix, idx_ns. autorewrite with zlen. unfold zlen in *. rewrite Ho. lia.
  - right. by apply entry_key_reserved.
Qed.

(** A row key is no index entry. *)
Lemma row_not_entry t o ut fid v o' : user_type t -> small_type ut -> make_key t o <> idx_entry_key ut fid v o'.
Proof.
  intros Ht Hu E. pose proof (entry_key_reserved ut fid v o' Hu) as Hr. rewrite <- E in Hr. unfold reserved_key, make_key in Hr.
  rewrite key_type_app in Hr by (by apply user_u32). unfold user_type in Ht. unfold CATALOG_TYPE_ID in Hr. lia.
Qed.

Lemma entry_key_inj ut fid v o ut' fid' v' o' :
  small_type ut -> small_type ut' -> u16_ok fid -> u16_ok fid' -> oid_ok o -> oid_ok o' ->
  idx_entry_key ut fid v o = idx_entry_key ut' fid' v' o' ->
  ut = ut' /\ fid = fid' /\ v = v' /\ o = o'.
Proof.
  intros Hu Hu' Hf Hf' [Ho _] [Ho' _]. unfold idx_entry_key, idx_prefix. rewrite !idx_ns_bytes by done.
  rewrite <- !app_assoc. intros E. unfold small_type in *.
  apply app_inj_1 in E as [E1 E]; [ | by rewrite !le_bytes_length].
  apply app_inj_1 in E as [E2 E]; [ | by rewrite !le_bytes_length].
  apply app_inj_2 in E as [-> ->]; [ | congruence]. split_and!; [ | | done | done].
  - apply (f_equal le_value) in E1. rewrite !le_value_u32 in E1 by (unfold u32_ok, u32_max; lia). lia.
  - apply (f_equal le_value) in E2. by rewrite !le_value_u16 in E2.
Qed.

(** The type and the object of an entry, whatever its field is. *)
Lemma entry_key_ends ut fid v o ut' fid' v' o' :
  small_type ut -> small_type ut' -> oid_ok o -> oid_ok o' ->
  idx_entry_key ut fid v o = idx_entry_key ut' fid' v' o' -> ut = ut' /\ o = o'.
Proof.
  intros Hu Hu' [Ho _] [Ho' _]. unfold idx_entry_key, idx_prefix. rewrite !idx_ns_bytes by done. intros E.
  apply app_inj_2 in E as [E ->]; [ | congruence]. split; [ | done].
  apply app_inj_1 in E as [E _]; [ | by rewrite !le_bytes_length]. apply (f_equal le_value) in E.
  unfold small_type in *. rewrite !le_value_u32 in E by (unfold u32_ok, u32_max; lia). lia.
Qed.

(** * Sorting out object ids *)

Lemma dedup_sorted_elem l x : x ∈ dedup_sorted l <-> x ∈ l.
Proof.
  induction l as [ | y l IH]; [done | ]. destruct l as [ | z l]; [done | ]. cbn [dedup_sorted] in *.
  case_bool_decide as E; rewrite ?elem_of_cons in *; rewrite IH; [subst; set_solver | set_solver].
Qed.

Lemma dedup_sorted_sorted l : StronglySorted kle l -> StronglySorted klt (dedup_sorted l).
Proof.
  induction 1 as [ | y l Hs IH Hf]; [constructor | ]. destruct l as [ | z l]; [repeat constructor | ].
  cbn [dedup_sorted] in *. case_bool_decide as E; [done | ]. constructor; [done | ].
  apply Forall_forall. intros x Hx. apply (dedup_sorted_elem (z :: l)) in Hx. rewrite Forall_forall in Hf.
  assert (klt y z) as Hyz by (destruct (proj1 (kle_lteq y z)); [apply Hf, list_elem_of_here | done | done]).
  apply elem_of_cons in Hx as [-> | Hx]; [done | ]. eapply klt_kle_trans; [exact Hyz | ].
  inversion Hs as [ | ? ? _ Hz]. subst. rewrite Forall_forall in Hz. by apply Hz.
Qed.

Lemma sort_dedup_elem l x : x ∈ sort_dedup l <-> x ∈ l.
Proof. unfold sort_dedup. by rewrite dedup_sorted_elem, merge_sort_Permutation. Qed.

Lemma sort_dedup_sorted l : StronglySorted klt (sort_dedup l).
Proof. apply dedup_sorted_sorted, StronglySorted_merge_sort; apply _. Qed.

Section Lookup.
Context {W : Type} `{VfsLaws W}.
Implicit Types db : Db W.

(** An index lookup returns the ids whose entry is there, in order. *)
Lemma idx_lookup_elem db n ut fid v o :
  kv_ok (db_storage db) n -> small_type ut -> bytes_ok v ->
  o ∈ idx_lookup db ut fid v <-> oid_ok o /\ is_Some (db_get db (idx_entry_key ut fid v o)).
Proof.
  intros Hs Hu Hv. destruct (kv_ok_reads _ _ Hs) as [Hwf Hk]. set (p := idx_prefix ut fid v).
  assert (forall o, db_get db (p ++ o) = mjoin (view (db_storage db) !! (p ++ o))) as Hget.
  { intros o'. apply get_other; [done | ]. apply reserved_dispatch. by apply entry_key_reserved. }
  unfold idx_lookup, idx_entry_key. fold p. rewrite Hget, sort_dedup_elem, list_elem_of_fmap.
  setoid_rewrite list_elem_of_filter. setoid_rewrite scan_prefix_spec; [ | done].
  setoid_rewrite scan_range_raw_spec; [ | done]. setoid_rewrite list_elem_of_fmap. split.
  - intros (k & -> & [Hl Ht] & [[k' b] [-> Hin]]). cbn [fst] in *.
    apply live_entries_elem, bt_range_elem in Hin as [Hin _].
    assert (k' = p ++ drop (length p) k') as Hkp by (rewrite <- Ht at 1; by rewrite take_drop).
    rewrite <- Hkp, Hin. split; [ | by eexists]. split; [rewrite length_drop; lia | ].
    apply Forall_drop. by eapply Hk.
  - intros [[Ho Hob] [b Hb]]. exists (p ++ o). split_and!.
    + by rewrite drop_app_length.
    + rewrite length_app. lia.
    + apply take_app_length.
    + exists (p ++ o, b). split; [done | ]. apply live_entries_elem, bt_range_elem.
      destruct (bytes_between 16 o Hob Ho) as [Hlo Hhi].
      split_and!; [ | unfold kle; cbn [kcmp list_OrdKey]; by rewrite list_cmp_app..].
      destruct (view (db_storage db) !! (p ++ o)) as [[x | ] | ]; by simplify_eq/=.
Qed.

Lemma idx_lookup_sorted db ut fid v : StronglySorted klt (idx_lookup db ut fid v).
Proof. apply sort_dedup_sorted. Qed.
End Lookup.

(** * Effects on what is read *)

Section Effects.
Context {W : Type} `{VfsLaws W}.
Implicit Types db : Db W.

(** The engine is in order up to [n] and every value fits an entry. *)
Record db_at db (n : Z) : Prop := {
  at_store : kv_ok (db_storage db) n;
  at_values k : key_ok k -> slot_ok (db_get db k);
}.

(** What is read after the writes [d]. *)
Definition overwrite (d : gmap Key Slot) (k : Key) (old : Slot) : Slot := default old (d !! k).

Record effect (op : Z) db db' (d : gmap Key Slot) : Prop := {
  ef_at : db_at db' op;
  ef_catalog : db_catalog db' = db_catalog db;
  ef_txn : in_txn (db_storage db') = in_txn (db_storage db);
  ef_cache : db_cache db' = db_cache db;
  ef_get k : key_ok k -> db_get db' k = overwrite d k (db_get db k);
}.

(** [m] returns and has the effect [d]. *)
Definition does {A} (op : Z) (m : M (Db W) A) db (a : A) (d : gmap Key Slot) : Prop :=
  exists db', m db = (db', Ret a) /\ effect op db db' d.

Lemma db_at_mono db n m : db_at db n -> n <= m -> db_at db m.
Proof. intros [Hs Hv] Hle. constructor; [by eapply kv_ok_mono | done]. Qed.

Lemma effect_refl op db n : db_at db n -> n <= op -> effect op db db ∅.
Proof. intros Ha Hle. constructor; try done. by eapply db_at_mono. Qed.

Lemma effect_trans op db db1 db2 d1 d2 :
  effect op db db1 d1 -> effect op db1 db2 d2 -> effect op db db2 (d2 ∪ d1).
Proof.
  intros [Ha1 Hc1 Ht1 Hx1 Hg1] [Ha2 Hc2 Ht2 Hx2 Hg2]. constructor; [done | congruence | congruence | congruence | ].
  intros k Hk. rewrite Hg2, Hg1 by done. unfold overwrite. rewrite lookup_union. by destruct (d2 !! k), (d1 !! k).
Qed.

Lemma does_ret {A} op db n (a : A) : db_at db n -> n <= op -> does op (mret a) db a ∅.
Proof. intros Ha Hle. exists db. split; [done | by eapply effect_refl]. Qed.

Lemma does_bind {A B} op (m : M (Db W) A) (k : A -> M (Db W) B) db a b d1 d2 db1 :
  m db = (db1, Ret a) -> effect op db db1 d1 -> does op (k a) db1 b d2 -> does op (m ≫= k) db b (d2 ∪ d1).
Proof.
  intros Hm He (db2 & Hk & He2). exists db2. split; [by rewrite (M_bind_ret _ _ _ _ _ Hm) | by eapply effect_trans].
Qed.

Lemma does_get {A} op (k : Db W -> M (Db W) A) db a d : does op (k db) db a d -> does op (m_get ≫= k) db a d.
Proof. done. Qed.

Lemma on_write_spec op k v db n :
  db_at db n -> n <= op -> u64_ok op -> key_ok k -> slot_ok v ->
  does op (on_sm (on_storage_result (write op k v))) db (inl tt) {[ k := v ]}.
Proof.
  intros [Hs Hv] Hle Hop Hk Hsl. destruct (kv_write _ n op k v Hs Hle Hop Hk Hsl) as (s' & Hw & Hs' & Hin & Hg).
  unfold on_sm, on_storage_result. unfold db_storage in Hw. eexists. rewrite Hw. split; [done | ].
  assert (forall k', key_ok k' -> db_get (set_sm (set_storage s' (db_sm db)) db) k' =
            overwrite {[ k := v ]} k' (db_get db k')) as Hget.
  { intros k' Hk'. unfold db_get, overwrite. cbn. rewrite Hg by done. case_decide as E; [subst; by rewrite lookup_singleton_eq | ].
    by rewrite lookup_singleton_ne. }
  constructor; try done. constructor; [done | ]. intros k' Hk'. rewrite Hget by done. unfold overwrite.
  destruct (decide (k = k')) as [-> | Hne]; [by rewrite lookup_singleton_eq | rewrite lookup_singleton_ne by done; by apply Hv].
Qed.

Lemma db_put_spec op k b db n :
  db_at db n -> n <= op -> u64_ok op -> key_ok k -> slot_ok (Some b) ->
  does op (db_put op k b) db (inl tt) {[ k := Some b ]}.
Proof. apply (on_write_spec op k (Some b)). Qed.

Lemma db_delete_spec op k db n :
  db_at db n -> n <= op -> u64_ok op -> key_ok k -> does op (db_delete op k) db (inl tt) {[ k := None ]}.
Proof. intros. by eapply (on_write_spec op k None). Qed.
End Effects.

(** * Maintaining the indexes *)

Fixpoint composite_width (ot : ObjectType) (fs : list Z) : Z :=
  match fs with
  | [] => 0
  | fid :: fs' => match field_pos ot fid with Some (_, _, f) => width (f_kind f) | None => 0 end + composite_width ot fs'
  end.

(** Types whose index keys are in the range of the key format: ids below 2^16,
    field ids below the composite ones, keys below 64 KiB. No trigger or check
    assigns a field wider than 16 bytes, which may panic. Ordered indexes are
    outside of this section. *)
Record type_wf (ot : ObjectType) : Prop := {
  tw_id : small_type (type_id ot);
  tw_count : zlen (fields ot) <= MAX_FIELDS;
  tw_fields : Forall (fun f => kind_ok (f_kind f) /\ width (f_kind f) <= 60000) (fields ot);
  tw_field_ids : Forall (fun f => 0 <= field_id f < 0xC000) (fields ot);
  tw_triggers : Forall (fun p => bytes_ok p /\ safe_program ot p) (triggers ot);
  tw_checks : Forall (safe_program ot) (checks ot);
  tw_defaults : Forall (fun d => bytes_ok d.2) (defaults ot);
  tw_indexes : Forall (fun fid => 0 <= fid < 0xC000) (indexes ot);
  tw_ordered : ordered ot = [];
  tw_composites : zlen (composite ot) <= 0x4000;
  tw_composite : Forall (fun fs => composite_width ot fs <= 65000) (composite ot);
}.

Lemma slot_of_ok rec off w v : slot_of rec off w = Some v -> bytes_ok rec -> bytes_ok v /\ zlen v = w.
Proof.
  unfold slot_of. intros Hg Hr. split; [by eapply range_bytes | ]. apply get_range_length in Hg. lia.
Qed.

Lemma field_pos_width ot fid i off f :
  type_wf ot -> field_pos ot fid = Some (i, off, f) -> 0 <= width (f_kind f) <= 60000.
Proof.
  intros Hwf. unfold field_pos. destruct (field_index ot fid) as [j | ]; [ | done]. cbn.
  destruct (offsets _ !! _); [ | done]. cbn. destruct (fields ot !! _) as [f' | ] eqn:Hf; [ | done]. cbn.
  intros [= <- <- <-]. pose proof (tw_fields _ Hwf) as Hw. rewrite Forall_lookup in Hw.
  destruct (Hw _ _ Hf) as [Hk Hl]. split; [by apply width_nonneg | done].
Qed.

Lemma idx_field_pos_width ot fid off w : type_wf ot -> idx_field_pos ot fid = Some (off, w) -> 0 <= w <= 60000.
Proof.
  intros Hwf. unfold idx_field_pos. destruct (field_pos ot fid) as [[[i o] f] | ] eqn:Hp; [ | done]. cbn.
  case_bool_decide; [done | ]. intros [= <- <-]. by eapply field_pos_width.
Qed.

Lemma composite_concat_ok ot fs rec v :
  type_wf ot -> bytes_ok rec -> composite_concat ot fs rec = Some v -> bytes_ok v /\ zlen v = composite_width ot fs.
Proof.
  intros Hwf Hr. revert v. induction fs as [ | fid fs IH]; intros v; cbn [composite_concat composite_width].
  { intros [= <-]. split; [constructor | done]. }
  destruct (field_pos ot fid) as [[[i off] f] | ]; [ | done]. cbn.
  destruct (slot_of rec off _) as [x | ] eqn:Hx; [ | done]. cbn.
  destruct (composite_concat ot fs rec) as [r | ]; [ | done]. cbn. intros [= <-].
  destruct (slot_of_ok _ _ _ _ Hx Hr) as [Hxb Hxl]. destruct (IH r eq_refl) as [Hrb Hrl].
  split; [by apply bytes_ok_app | rewrite zlen_app; lia].
Qed.

Lemma composite_fid_eq n : composite_fid (Z.of_nat n) = 0xC000 + Z.of_nat n mod 0x4000.
Proof.
  unfold composite_fid. change 0x3FFF with (Z.ones 14). rewrite Z.land_ones by lia.
  pose proof (Z.mod_pos_bound (Z.of_nat n) (2 ^ 14) ltac:(lia)) as Hb. set (m := Z.of_nat n mod 2 ^ 14) in *.
  rewrite <- Z.lxor_lor; [rewrite <- Z.add_nocarry_lxor | ]; [done | | ].
  all: apply Z.bits_inj'; intros i Hi; rewrite Z.land_spec, Z.bits_0; destruct (Z.lt_ge_cases i 14).
  all: try (rewrite (Z.bits_above_log2 m i), andb_false_r; [done | lia | ];
    destruct (decide (m = 0)) as [-> | ]; [cbn; lia | ]; apply Z.log2_lt_pow2; [lia | ];
    apply Z.lt_le_trans with (2 ^ 14); [lia | apply Z.pow_le_mono_r; lia]).
  all: change 0xC000 with (Z.shiftl 3 14); by rewrite Z.shiftl_spec_low.
Qed.

Lemma composite_fid_range n : 0xC000 <= composite_fid (Z.of_nat n) <= 65535.
Proof. rewrite composite_fid_eq. pose proof (Z.mod_pos_bound (Z.of_nat n) 0x4000 ltac:(lia)). lia. Qed.

(** The writes that move the entry of [obj] from [ov] to [nv]. *)
Definition moved (t fid : Z) (obj : bytes) (ov nv : option bytes) : gmap Key Slot :=
  if bool_decide (ov = nv) then ∅ else
  match nv with Some v => {[ idx_entry_key t fid v obj := Some [] ]} | None => ∅ end ∪
  match ov with Some v => {[ idx_entry_key t fid v obj := None ]} | None => ∅ end.

(** The writes of a loop, later ones first. *)
Definition loop_writes {A} (d : A -> gmap Key Slot) (l : list A) : gmap Key Slot :=
  foldr (fun x acc => acc ∪ d x) ∅ l.

(** The writes of [idx_maintain]. *)
Definition eq_writes (t : Z) (ot : ObjectType) (obj : bytes) (old new : option bytes) (fid : Z) : gmap Key Slot :=
  match idx_field_pos ot fid with
  | None => ∅
  | Some (off, w) => moved t fid obj (r ← old; slot_of r off w) (r ← new; slot_of r off w)
  end.
Definition composite_writes (t : Z) (ot : ObjectType) (obj : bytes) (old new : option bytes) (c : nat * list Z) :
    gmap Key Slot :=
  if bool_decide (c.2 = []) then ∅ else
  moved t (composite_fid (Z.of_nat c.1)) obj (r ← old; composite_concat ot c.2 r) (r ← new; composite_concat ot c.2 r).
Definition index_writes (t : Z) (ot : ObjectType) (obj : bytes) (old new : option bytes) : gmap Key Slot :=
  loop_writes (composite_writes t ot obj old new) (imap pair (composite ot)) ∪
  loop_writes (eq_writes t ot obj old new) (indexes ot).

Section Maintain.
Context {W : Type} `{VfsLaws W}.
Implicit Types db : Db W.

Definition value_fits (v : option bytes) : Prop := forall b, v = Some b -> bytes_ok b /\ zlen b <= 65000.

Lemma empty_slot_ok : slot_ok (Some []).
Proof. intros b [= <-]. split; [constructor | done]. Qed.

Lemma idx_add_spec op t fid v obj db n :
  db_at db n -> n <= op -> u64_ok op -> small_type t -> value_fits (Some v) -> oid_ok obj ->
  does op (idx_add op t fid v obj) db tt {[ idx_entry_key t fid v obj := Some [] ]}.
Proof.
  intros Ha Hle Hop Ht Hv Ho. destruct (Hv v eq_refl) as [Hb Hl].
  destruct (db_put_spec op (idx_entry_key t fid v obj) [] db n Ha Hle Hop) as (db1 & Hp & He);
    [by apply entry_key_ok | apply empty_slot_ok | ].
  rewrite <- (map_empty_union {[ _ := _ ]}). eapply does_bind; [exact Hp | exact He | ].
  eapply does_ret; [apply He | done].
Qed.

Lemma idx_remove_spec op t fid v obj db n :
  db_at db n -> n <= op -> u64_ok op -> small_type t -> value_fits (Some v) -> oid_ok obj ->
  does op (idx_remove op t fid v obj) db tt {[ idx_entry_key t fid v obj := None ]}.
Proof.
  intros Ha Hle Hop Ht Hv Ho. destruct (Hv v eq_refl) as [Hb Hl].
  destruct (db_delete_spec op (idx_entry_key t fid v obj) db n Ha Hle Hop) as (db1 & Hp & He); [by apply entry_key_ok | ].
  rewrite <- (map_empty_union {[ _ := _ ]}). eapply does_bind; [exact Hp | exact He | ].
  eapply does_ret; [apply He | done].
Qed.

Lemma move_entry_spec op t fid obj ov nv db n :
  db_at db n -> n <= op -> u64_ok op -> small_type t -> value_fits ov -> value_fits nv -> oid_ok obj ->
  does op (move_entry (fun v => idx_add op t fid v obj) (fun v => idx_remove op t fid v obj) ov nv) db tt
    (moved t fid obj ov nv).
Proof.
  intros Ha Hle Hop Ht Hov Hnv Ho. unfold move_entry, moved. case_bool_decide; [by eapply does_ret | ].
  assert (exists db1, match ov with Some o => idx_remove op t fid o obj | None => mret tt end db = (db1, Ret tt) /\
            effect op db db1 match ov with Some v => {[ idx_entry_key t fid v obj := None ]} | None => ∅ end)
    as (db1 & Hm1 & He1).
  { destruct ov as [o | ]; [by eapply idx_remove_spec | by eapply does_ret]. }
  eapply does_bind; [exact Hm1 | exact He1 | ].
  destruct nv as [v | ]; [apply (idx_add_spec op t fid v obj db1 op) | apply (does_ret op db1 op)]; try done; apply He1.
Qed.

Lemma for_each_spec {A} (op : Z) (f : A -> M (Db W) unit) (d : A -> gmap Key Slot) (l : list A) :
  (forall x, x ∈ l -> forall db, db_at db op -> does op (f x) db tt (d x)) ->
  forall db, db_at db op -> does op (for_each f l) db tt (loop_writes d l).
Proof.
  induction l as [ | x l IH]; intros Hf db Ha; cbn [for_each loop_writes foldr]; [by eapply does_ret | ].
  destruct (Hf x (list_elem_of_here _ _) db Ha) as (db1 & Hm1 & He1).
  eapply does_bind; [exact Hm1 | exact He1 | ]. apply IH; [ | apply He1]. intros y Hy. apply Hf. by apply list_elem_of_further.
Qed.

(** Old and new records of a row, as the indexes see them. *)
Definition rec_ok (r : option bytes) : Prop := forall b, r = Some b -> bytes_ok b.

Lemma slot_fits ot r fid off w :
  type_wf ot -> rec_ok r -> idx_field_pos ot fid = Some (off, w) -> value_fits (x ← r; slot_of x off w).
Proof.
  intros Hwf Hr Hp b Hb. destruct r as [x | ]; [ | done]. cbn in Hb. apply slot_of_ok in Hb as [? ->]; [ | by apply Hr].
  split; [done | ]. pose proof (idx_field_pos_width _ _ _ _ Hwf Hp). lia.
Qed.

Lemma composite_fits ot r fs :
  type_wf ot -> rec_ok r -> fs ∈ composite ot -> value_fits (x ← r; composite_concat ot fs x).
Proof.
  intros Hwf Hr Hin b Hb. destruct r as [x | ]; [ | done]. cbn in Hb.
  apply composite_concat_ok in Hb as [? ->]; [ | done | by apply Hr]. split; [done | ].
  pose proof (tw_composite _ Hwf) as Hc. rewrite Forall_forall in Hc. by apply Hc.
Qed.

Lemma idx_maintain_spec op t ot obj old new db :
  db_at db op -> u64_ok op -> get_type db t = Some ot -> type_id ot = t -> type_wf ot -> oid_ok obj ->
  rec_ok old -> rec_ok new ->
  does op (idx_maintain op t obj old new) db tt (index_writes t ot obj old new).
Proof.
  intros Ha Hop Hot Hid Hwf Ho Hold Hnew. pose proof (tw_id _ Hwf) as Ht. rewrite Hid in Ht.
  unfold idx_maintain, index_writes.
  apply does_get. rewrite Hot, (tw_ordered _ Hwf).
  destruct (for_each_spec op (maintain_eq op t ot obj old new) (eq_writes t ot obj old new) (indexes ot)) with db
    as (db1 & Hm1 & He1); [ | done | ].
  { intros fid _ db0 Ha0. unfold maintain_eq, eq_writes. destruct (idx_field_pos ot fid) as [[off w] | ] eqn:Hp;
      [ | by eapply does_ret]. eapply move_entry_spec; eauto using slot_fits. done. }
  eapply does_bind; [exact Hm1 | exact He1 | ]. 
  destruct (for_each_spec op (maintain_composite op t ot obj old new) (composite_writes t ot obj old new)
              (imap pair (composite ot))) with db1 as (db2 & Hm2 & He2); [ | apply He1 | by exists db2].
  intros [i fs] Hin db0 Ha0. unfold maintain_composite, composite_writes. cbn [fst snd].
  case_bool_decide; [by eapply does_ret | ].
  assert (fs ∈ composite ot) by (apply elem_of_lookup_imap in Hin as (j & x & [= _ ->] & Hl); by eapply list_elem_of_lookup_2).
  eapply move_entry_spec; eauto using composite_fits. done.
Qed.
End Maintain.

(** ** What the maintenance writes *)

(** The value a record has in the index [fid] of its type: the bytes of the
    field, or the concatenation of a composite index. *)
Definition index_value (ot : ObjectType) (fid : Z) (r : option bytes) : option bytes :=
  if fid <? 0xC000 then
    if bool_decide (fid ∈ indexes ot) then '(off, w) ← idx_field_pos ot fid; rec ← r; slot_of rec off w else None
  else
    fs ← composite ot !! Z.to_nat (fid - 0xC000);
    if bool_decide (fs = []) then None else rec ← r; composite_concat ot fs rec.

Section Writes.
Context (t : Z) (ot : ObjectType) (obj : bytes) (old new : option bytes).
Context (Ht : small_type t) (Hwf : type_wf ot) (Hobj : oid_ok obj).

Lemma moved_other fid ov nv k : (forall v, k <> idx_entry_key t fid v obj) -> moved t fid obj ov nv !! k = None.
Proof.
  intros Hk. unfold moved. case_bool_decide; [done | ]. rewrite lookup_union_None.
  split; [destruct nv | destruct ov]; try done; by rewrite lookup_singleton_ne.
Qed.

Lemma moved_entry fid ov nv v :
  u16_ok fid ->
  moved t fid obj ov nv !! idx_entry_key t fid v obj =
  if bool_decide (ov = nv) then None
  else if bool_decide (nv = Some v) then Some (Some []) else if bool_decide (ov = Some v) then Some None else None.
Proof.
  intros Hf. unfold moved. case_bool_decide as E; [done | ].
  assert (forall x, x <> v -> idx_entry_key t fid x obj <> idx_entry_key t fid v obj) as Hne.
  { intros x Hx Heq. apply entry_key_inj in Heq as (_ & _ & ? & _); done. }
  rewrite lookup_union.
  destruct nv as [x | ]; [destruct (decide (x = v)) as [-> | Hx] | ];
    (destruct ov as [y | ]; [destruct (decide (y = v)) as [-> | Hy] | ]);
    rewrite ?lookup_singleton_eq, ?lookup_singleton_ne by (apply Hne; done); rewrite ?lookup_empty;
    repeat case_bool_decide; simplify_eq; done.
Qed.

Lemma loop_writes_None {A} (d : A -> gmap Key Slot) (l : list A) k :
  (forall x, x ∈ l -> d x !! k = None) -> loop_writes d l !! k = None.
Proof.
  induction l as [ | x l IH]; intros Hd; [done | ]. cbn. rewrite lookup_union_None. split.
  - apply IH. intros y Hy. apply Hd. by apply list_elem_of_further.
  - apply Hd, list_elem_of_here.
Qed.

Lemma index_writes_other k :
  (forall fid v, k <> idx_entry_key t fid v obj) -> index_writes t ot obj old new !! k = None.
Proof.
  intros Hk. unfold index_writes. rewrite lookup_union_None. split; apply loop_writes_None.
  - intros c _. unfold composite_writes. case_bool_decide; [done | ]. by apply moved_other.
  - intros fid _. unfold eq_writes. destruct (idx_field_pos ot fid) as [[off w] | ]; [by apply moved_other | done].
Qed.

Lemma index_u16 fid : fid ∈ indexes ot -> u16_ok fid /\ fid < 0xC000.
Proof.
  intros Hin. pose proof (tw_indexes _ Hwf) as Hi. rewrite Forall_forall in Hi. specialize (Hi _ Hin). simpl in Hi.
  unfold u16_ok, u16_max. lia.
Qed.

(** A loop in which only [x] writes [k]. *)
Lemma loop_writes_one `{EqDecision A} (d : A -> gmap Key Slot) (l : list A) x k :
  (forall y, y ∈ l -> y <> x -> d y !! k = None) -> loop_writes d l !! k = if bool_decide (x ∈ l) then d x !! k else None.
Proof.
  induction l as [ | y l IH]; intros Hd; [done | ]. cbn [loop_writes foldr]. change (foldr _ ∅ l) with (loop_writes d l).
  rewrite lookup_union, IH by (intros; apply Hd; [by right | done]). destruct (decide (y = x)) as [-> | Hne].
  - rewrite (bool_decide_eq_true_2 (x ∈ x :: l)) by left. case_bool_decide; destruct (d x !! k); done.
  - rewrite (Hd y (list_elem_of_here _ _) Hne), (right_id_L None _). case_bool_decide as E1; case_bool_decide as E2; try done; set_solver.
Qed.

Lemma eq_writes_other x fid v : x ∈ indexes ot -> u16_ok fid -> x <> fid -> eq_writes t ot obj old new x !! idx_entry_key t fid v obj = None.
Proof.
  intros Hx Hf Hne. unfold eq_writes. destruct (idx_field_pos ot x) as [[off w] | ]; [ | done]. apply moved_other.
  intros v' E. destruct (index_u16 x Hx). apply entry_key_inj in E as (_ & ? & _); by subst.
Qed.

Lemma composite_writes_other c fid v :
  u16_ok fid -> composite_fid (Z.of_nat c.1) <> fid -> composite_writes t ot obj old new c !! idx_entry_key t fid v obj = None.
Proof.
  intros Hf Hne. unfold composite_writes. case_bool_decide; [done | ]. apply moved_other. intros v' E.
  pose proof (composite_fid_range c.1) as Hc.
  apply entry_key_inj in E as (_ & ? & _); [by subst | done | done | done | unfold u16_ok, u16_max; lia | done | done].
Qed.

Lemma elem_of_imap_pair {A} (l : list A) c : c ∈ imap pair l <-> l !! c.1 = Some c.2.
Proof.
  destruct c as [i x]. rewrite elem_of_lookup_imap. cbn. split; [by intros (? & ? & [= -> ->] & ?) | eauto].
Qed.

Lemma composite_fid_small i : (i < length (composite ot))%nat -> composite_fid (Z.of_nat i) = 0xC000 + Z.of_nat i.
Proof.
  intros Hi. rewrite composite_fid_eq. pose proof (tw_composites _ Hwf) as Hc. unfold zlen in Hc. rewrite Z.mod_small; lia.
Qed.

(** The writes at an entry are those of the index it belongs to. *)
Lemma index_writes_lookup fid v : u16_ok fid ->
  index_writes t ot obj old new !! idx_entry_key t fid v obj =
  moved t fid obj (index_value ot fid old) (index_value ot fid new) !! idx_entry_key t fid v obj.
Proof.
  intros Hf. unfold index_writes. rewrite lookup_union. unfold index_value. destruct (Z.ltb_spec fid 0xC000) as [Hlt | Hge].
  - rewrite (loop_writes_None (composite_writes t ot obj old new)), (left_id_L None _).
    2: { intros c _. apply composite_writes_other; [done | ]. pose proof (composite_fid_range c.1). lia. }
    rewrite (loop_writes_one _ _ fid) by (intros; by apply eq_writes_other). case_bool_decide; [ | by rewrite moved_entry].
    unfold eq_writes. destruct (idx_field_pos ot fid) as [[off w] | ]; [done | by rewrite moved_entry].
  - rewrite (loop_writes_None (eq_writes t ot obj old new)), (right_id_L None _).
    2: { intros x Hx. apply eq_writes_other; [done | done | ]. destruct (index_u16 x Hx). lia. }
    destruct (composite ot !! Z.to_nat (fid - 0xC000)) as [fs | ] eqn:Hfs; cbn.
    + apply lookup_lt_Some in Hfs as Hl. set (i := Z.to_nat (fid - 0xC000)) in *.
      assert (composite_fid (Z.of_nat i) = fid) as Hci by (rewrite composite_fid_small by done; lia).
      rewrite (loop_writes_one _ _ (i, fs)).
      * rewrite bool_decide_eq_true_2 by (by apply elem_of_imap_pair). unfold composite_writes. cbn [fst snd]. rewrite Hci.
        case_bool_decide; [by rewrite moved_entry | done].
      * intros [j fs'] Hj%elem_of_imap_pair Hne. apply composite_writes_other; [done | ]. cbn in *. intros E. apply Hne.
        apply lookup_lt_Some in Hj as Hlj. rewrite composite_fid_small in E by done. replace j with i in * by lia. by simplify_eq.
    + rewrite loop_writes_None, moved_entry by done || (intros [j fs'] Hj%elem_of_imap_pair; cbn in Hj;
        apply lookup_lt_Some in Hj as Hlj; apply composite_writes_other; [done | ]; cbn; rewrite composite_fid_small by done;
        intros E; apply lookup_ge_None in Hfs; lia). done.
Qed.

(** An entry is there afterwards iff the new record has the value. *)
Lemma index_writes_entry fid v s :
  u16_ok fid -> (is_Some s <-> index_value ot fid old = Some v) ->
  is_Some (overwrite (index_writes t ot obj old new) (idx_entry_key t fid v obj) s) <-> index_value ot fid new = Some v.
Proof.
  intros Hf Hs. unfold overwrite. rewrite index_writes_lookup, moved_entry by done.
  assert (~ is_Some (None : Slot)) as Hno by apply is_Some_None.
  repeat case_bool_decide; cbn [default from_option id]; split; intros Hx; try congruence; try tauto;
    first [rewrite Hs in Hx; congruence | apply Hs; congruence | done].
Qed.
End Writes.

(** * The invariant *)

(** Keys of the catalog, the counters, verdicts and blobs. *)
Definition aux_key (k : Key) : Prop := key_type k = CATALOG_TYPE_ID \/ 0xFFFF0000 <= key_type k.

Lemma aux_not_row k t o : aux_key k -> user_type t -> k <> make_key t o.
Proof.
  intros Hk Ht ->. unfold aux_key, make_key in Hk. rewrite key_type_app in Hk by (by apply user_u32).
  unfold user_type, MAX_USER_TYPE_ID in Ht. unfold CATALOG_TYPE_ID in Hk. lia.
Qed.

Lemma aux_not_entry k t fid v o : aux_key k -> small_type t -> k <> idx_entry_key t fid v o.
Proof.
  intros Hk Ht ->. unfold aux_key, idx_entry_key, idx_prefix in Hk. rewrite idx_ns_bytes in Hk by done.
  rewrite <- !app_assoc in Hk. unfold small_type in Ht. rewrite key_type_app in Hk by (unfold u32_ok, u32_max; lia).
  unfold CATALOG_TYPE_ID in Hk. lia.
Qed.

Section Invariant.
Context {W : Type} `{VfsLaws W}.
Implicit Types db : Db W.

(** The entries of the indexes are the values of the rows, and there are no
    others. *)
Definition index_ok db : Prop :=
  forall t fid v o, small_type t -> u16_ok fid -> oid_ok o -> bytes_ok v -> zlen v <= 65000 ->
    is_Some (db_get db (idx_entry_key t fid v o)) <->
    (ot ← get_type db t; index_value ot fid (db_get db (make_key t o))) = Some v.

(** What the read cache has for a key. *)
Definition cached db (k : Key) : option bytes := c ← db_cache db; fst <$> c_map c !! k.

(** The cache has no row the engine does not have. *)
Definition cache_ok db : Prop :=
  forall t o v, small_type t -> oid_ok o -> cached db (make_key t o) = Some v -> db_get db (make_key t o) = Some v.

(** The rows of two databases. *)
Definition rows_same db db' : Prop :=
  forall t o, small_type t -> oid_ok o -> db_get db' (make_key t o) = db_get db (make_key t o).
Definition row_set db db' (t : Z) (obj : bytes) (v : Slot) : Prop :=
  forall t' o, small_type t' -> oid_ok o ->
    db_get db' (make_key t' o) = if decide (t' = t /\ o = obj) then v else db_get db (make_key t' o).

Record db_inv db (n : Z) : Prop := {
  iv_at : db_at db n;
  iv_types : Forall type_wf (types (db_catalog db));
  iv_ids : NoDup (type_id <$> types (db_catalog db));
  iv_next : Forall (fun ot => type_id ot < next_type_id (db_catalog db)) (types (db_catalog db)) /\
    0 < next_type_id (db_catalog db);
  iv_index : index_ok db;
  iv_cache : cache_ok db;
}.

Lemma get_type_elem db t ot : get_type db t = Some ot -> ot ∈ types (db_catalog db) /\ type_id ot = t.
Proof.
  unfold get_type, catalog_get. destruct (list_find _ _) as [[i x] | ] eqn:Hf; [ | done]. intros [= <-].
  apply list_find_Some in Hf as (Hl & He & _). split; [by eapply list_elem_of_lookup_2 | done].
Qed.

Lemma same_id db ot ot' :
  NoDup (type_id <$> types (db_catalog db)) -> ot ∈ types (db_catalog db) -> ot' ∈ types (db_catalog db) ->
  type_id ot = type_id ot' -> ot = ot'.
Proof.
  intros Hn [i Hi]%list_elem_of_lookup_1 [j Hj]%list_elem_of_lookup_1 E.
  assert (i = j) as ->; [ | by simplify_eq].
  eapply NoDup_lookup; [exact Hn | | ]; rewrite list_lookup_fmap, ?Hi, ?Hj; cbn; [done | by rewrite E].
Qed.

Lemma row_key_ok t o : small_type t -> oid_ok o -> key_ok (make_key t o).
Proof.
  intros Ht Ho. split_and!; [by apply make_key_ok | unfold zlen; by rewrite make_key_length | left].
  exists t, o. split_and!; [by apply small_user | done | done].
Qed.

Lemma get_type_same db db' t : db_catalog db' = db_catalog db -> get_type db' t = get_type db t.
Proof. unfold get_type. by intros ->. Qed.

(** Writing keys that are neither rows nor index entries. *)
Lemma index_ok_aux op db db' d :
  effect op db db' d -> index_ok db -> (forall k, is_Some (d !! k) -> aux_key k) -> index_ok db'.
Proof.
  intros He Hi Hd t fid v o Ht Hfid Ho Hv Hl. rewrite (get_type_same db) by apply He.
  rewrite !(ef_get _ _ _ _ He) by (apply entry_key_ok || apply row_key_ok; done || lia). unfold overwrite.
  destruct (d !! idx_entry_key _ _ _ _) eqn:E1.
  { destruct (aux_not_entry (idx_entry_key t fid v o) t fid v o); [apply Hd; eauto | done | done]. }
  destruct (d !! make_key _ _) eqn:E2.
  { destruct (aux_not_row (make_key t o) t o); [apply Hd; eauto | by apply small_user | done]. }
  by apply Hi.
Qed.

Lemma aux_rows op db db' d :
  effect op db db' d -> (forall k, is_Some (d !! k) -> aux_key k) -> rows_same db db'.
Proof.
  intros He Hd t o Ht Ho. rewrite (ef_get _ _ _ _ He) by (by apply row_key_ok). unfold overwrite.
  destruct (d !! make_key t o) eqn:Hk; [ | done]. exfalso. eapply (aux_not_row (make_key t o) t o); [by apply Hd | | done].
  by apply small_user.
Qed.

Lemma cache_ok_same db db' : rows_same db db' -> db_cache db' = db_cache db -> cache_ok db -> cache_ok db'.
Proof. intros Hr Hc Hok t o v Ht Ho. unfold cached. rewrite Hc, Hr by done. by apply Hok. Qed.

Lemma rows_same_refl db : rows_same db db.
Proof. done. Qed.

Lemma rows_same_trans db db1 db2 : rows_same db db1 -> rows_same db1 db2 -> rows_same db db2.
Proof. intros H1r H2r t o Ht Ho. by rewrite H2r, H1r. Qed.

Lemma row_set_same db db1 db2 t obj v : row_set db db1 t obj v -> rows_same db1 db2 -> row_set db db2 t obj v.
Proof. intros H1r H2r t' o Ht Ho. by rewrite H2r, H1r. Qed.

Lemma same_row_set db db1 db2 t obj v : rows_same db db1 -> row_set db1 db2 t obj v -> row_set db db2 t obj v.
Proof. intros H1r H2r t' o Ht Ho. by rewrite H2r, H1r. Qed.

(** Writing a row and moving its index entries. *)
Lemma index_ok_row db db' t ot obj new :
  db_catalog db' = db_catalog db ->
  (forall k, key_ok k -> db_get db' k =
     overwrite (index_writes t ot obj (db_get db (make_key t obj)) new ∪ {[ make_key t obj := new ]}) k (db_get db k)) ->
  index_ok db -> type_wf ot -> get_type db t = Some ot -> small_type t -> oid_ok obj -> index_ok db'.
Proof.
  intros Hc Hg Hi Hwo Hgt Ht Hobj t' fid v o Ht' Hfid Ho Hv Hl. rewrite (get_type_same db) by done.
  rewrite !Hg by (apply entry_key_ok || apply row_key_ok; done || lia).
  set (old := db_get db (make_key t obj)). unfold overwrite. rewrite !lookup_union.
  rewrite (lookup_singleton_ne (make_key t obj) (idx_entry_key _ _ _ _)) by (apply row_not_entry; [by apply small_user | done]).
  rewrite (right_id_L None _).
  rewrite (index_writes_other t ot obj old new (make_key t' o)), (left_id_L None _)
    by (intros; apply row_not_entry; [by apply small_user | done]).
  destruct (decide (t' = t /\ o = obj)) as [[-> ->] | Hne].
  - rewrite lookup_singleton_eq, Hgt. cbn [default from_option id mbind option_bind].
    apply (index_writes_entry t ot obj old new Ht Hwo Hobj fid v); [done | ].
    specialize (Hi t fid v obj Ht Hfid Ho Hv Hl). by rewrite Hgt in Hi.
  - rewrite lookup_singleton_ne.
    2: { intros E. apply make_key_inj in E as [? ?]; [by destruct Hne | by apply user_u32, small_user..]. }
    rewrite (index_writes_other t ot obj old new (idx_entry_key _ _ _ _)).
    2: { intros fid' v' E. apply entry_key_ends in E; [by destruct Hne | done..]. }
    cbn [default from_option id]. by apply Hi.
Qed.
End Invariant.
