(* ===== verification/RowOps.v ===== *)
(** kessel-sm: the record operations against their specification.

    Create, Update, UpdateSet and Delete are followed step by step: each returns,
    keeps the invariant of [RowsSpec], and changes the stored rows as
    [create_spec], [update_spec] and [delete_spec] say.

    Source: src/crates/kessel-sm/src/lib.rs. *)

From Stdlib Require Import ZArith Lia String.
From stdpp Require Import base numbers list sorting gmap fin_maps.
From S2P Require Import Prelude BTree Proto Vfs Wal SsTable Storage View Recovery Crash Mvcc MvccSpec Engine Ssi Tx Sm.
From S2P Require Import Reader Catalog Codec Expr ExprSpec Cache Rows RowApply RowStore RowsSpec.

#[local] Open Scope Z_scope.

Section Arms.
Context {W : Type} `{VfsLaws W}.
Implicit Types db : Db W.

(** Records that fit an entry. *)
Definition record_ok (r : bytes) : Prop := bytes_ok r /\ zlen r <= 4294900000.

(** [m] returns and writes nothing but counters and blobs. *)
Definition quiet {A} (op : Z) (m : M (Db W) A) db (Q : A -> Prop) : Prop :=
  exists db' a d, m db = (db', Ret a) /\ effect op db db' d /\ (forall k, is_Some (d !! k) -> aux_key k) /\ Q a.

Lemma quiet_ret {A} op db n (a : A) (Q : A -> Prop) : db_at db n -> n <= op -> Q a -> quiet op (mret a) db Q.
Proof. intros Ha Hle Hq. exists db, a, ∅. split_and!; [done | by eapply effect_refl | by intros k [? ?] | done]. Qed.

Lemma quiet_bind {A B} op (m : M (Db W) A) (k : A -> M (Db W) B) db Q R :
  quiet op m db Q ->
  (forall db' a d, effect op db db' d -> (forall k, is_Some (d !! k) -> aux_key k) -> Q a -> quiet op (k a) db' R) ->
  quiet op (m ≫= k) db R.
Proof.
  intros (db1 & a & d1 & Hm & He1 & Hd1 & Hq) Hk.
  destruct (Hk db1 a d1) as (db2 & b & d2 & Hk2 & He2 & Hd2 & Hr); [done | done | done | ].
  exists db2, b, (d2 ∪ d1). split_and!; [by rewrite (M_bind_ret _ _ _ _ _ Hm) | by eapply effect_trans | | done].
  intros x [v [Hv | [_ Hv]]%lookup_union_Some_raw]; eauto.
Qed.

Lemma quiet_get {A} op (k : Db W -> M (Db W) A) db Q : quiet op (k db) db Q -> quiet op (m_get ≫= k) db Q.
Proof. done. Qed.

Lemma quiet_lift {A B} op (o : outcome A) a (k : A -> M (Db W) B) db Q :
  o = Ret a -> quiet op (k a) db Q -> quiet op (m_lift o ≫= k) db Q.
Proof. by intros ->. Qed.

(** Results that acknowledge nothing. *)
Definition refused (r : DbResult) : Prop := match r with ResOk | Created _ => False | _ => True end.

(** A record that satisfies [P], or a refusal. *)
Definition or_refused (P : bytes -> Prop) (r : bytes + DbResult) : Prop :=
  match r with inl x => P x | inr e => refused e end.

Lemma handle_aux h : aux_key (handle_key h) /\ key_ok (handle_key h).
Proof.
  assert (key_type (handle_key h) = OVERFLOW_TYPE) as Ht by (apply key_type_app; unfold u32_ok, u32_max, OVERFLOW_TYPE; lia).
  split; [unfold aux_key; rewrite Ht; by right | ]. split_and!.
  - unfold handle_key, make_key. rewrite !bytes_ok_app. split_and!; try apply le_bytes_ok.
    apply Forall_replicate. unfold byte_ok. lia.
  - unfold handle_key, make_key. autorewrite with zlen. done.
  - right. unfold reserved_key. rewrite Ht. by right.
Qed.

Lemma overflow_loop_quiet op ot tr n : forall p fixed db,
  db_at db op -> u64_ok op -> record_ok tr -> bytes_ok fixed -> zlen fixed = record_size (compute_layout ot) ->
  Forall (fun f => kind_ok (f_kind f)) (fields ot) ->
  quiet op (overflow_loop op (compute_layout ot) tr n p fixed) db
    (or_refused (fun x => bytes_ok x /\ zlen x = zlen fixed)).
Proof.
  induction n as [ | n IH]; intros p fixed db Ha Hop [Htr Htl] Hf Hl Hk; cbn [overflow_loop].
  { by eapply quiet_ret. }
  destruct (get_range tr p (p + 6)) as [h | ]; [ | by eapply quiet_ret].
  destruct (get_range tr (p + 6) _) as [blob | ] eqn:Hb; [ | by eapply quiet_ret].
  destruct (offsets _ !! _) as [off | ] eqn:Ho; [ | by eapply quiet_ret].
  destruct (Z.leb_spec (off + 8) (record_size (compute_layout ot))); [ | by eapply quiet_ret].
  set (handle := Z.lor _ _).
  assert (0 <= off) as Hoff.
  { rewrite compute_layout_eq in Ho by done. apply place_lookup in Ho as [Ho _]; [ | done].
    change HEADER_BYTES with 14 in Ho. lia. }
  apply (quiet_bind _ _ _ _ (fun r => r = inl tt)).
  - destruct (db_put_spec op (handle_key handle) blob db op Ha ltac:(lia) Hop) as (db1 & Hp & He);
      [apply handle_aux | | ].
    { intros b [= <-]. split; [by eapply range_bytes | ]. apply get_range_length in Hb. lia. }
    exists db1, (inl tt), {[ handle_key handle := Some blob ]}. split_and!; [exact Hp | exact He | | done].
    intros k [v [<- _]%lookup_singleton_Some]. apply handle_aux.
  - intros db1 r d1 [Ha1 _ _ _ _] _ ->. assert (zlen (splice fixed off (le_bytes 8 handle)) = zlen fixed) as Hs.
    { destruct (copy_into_ret fixed off (le_bytes 8 handle) Hoff) as (w' & Hc & Hw);
        [unfold zlen at 1; rewrite le_bytes_length; lia | ].
      unfold copy_into in Hc. dcase_in Hc; [ | done]. by injection Hc as <-. }
    rewrite <- Hs. apply IH; [done | done | done | apply splice_bytes_ok; [done | apply le_bytes_ok] | lia | done].
Qed.

Lemma kinds_ok ot : type_wf ot -> Forall (fun f => kind_ok (f_kind f)) (fields ot).
Proof. intros Hwf. eapply Forall_impl; [apply (tw_fields _ Hwf) | by intros f []]. Qed.

Lemma record_size_pos ot : 16 <= record_size (compute_layout ot).
Proof. unfold compute_layout. destruct (place _ _). apply next_pow2_loop_min. lia. Qed.

Lemma materialize_quiet op t ot record db n :
  db_at db n -> n <= op -> u64_ok op -> get_type db t = Some ot -> type_wf ot -> record_ok record ->
  quiet op (materialize_overflow op t record) db
    (or_refused (fun x => record_ok x /\ (zlen record <= record_size (compute_layout ot) -> x = record))).
Proof.
  intros Ha Hle Hop Hot Hwf [Hr Hl]. apply (db_at_mono _ _ op) in Ha; [ | done]. unfold materialize_overflow.
  apply quiet_get. rewrite Hot. pose proof (record_size_pos ot) as Hsz.
  set (size := record_size (compute_layout ot)) in *.
  destruct (Z.leb_spec (zlen record) size).
  { by eapply quiet_ret. }
  destruct (get_range (drop (Z.to_nat size) record) 0 2) as [h | ]; [ | eapply quiet_ret; [exact Ha | lia | done]].
  assert (zlen (take (Z.to_nat size) record) = size) as Hfl by (unfold zlen in *; rewrite length_take; lia).
  assert (record_ok (drop (Z.to_nat size) record)) as Htr
    by (split; [by apply Forall_drop | unfold zlen in *; rewrite length_drop; lia]).
  destruct (overflow_loop_quiet op ot _ (Z.to_nat (le_value h)) 2 _ db Ha Hop Htr (Forall_take _ (Z.to_nat size) _ Hr) Hfl
              (kinds_ok ot Hwf)) as (db' & r & d & Hm & He & Hd & Hq).
  exists db', r, d. split_and!; [exact Hm | done | done | ]. destruct r as [x | e]; [ | done]. destruct Hq as [Hxb Hxl].
  split; [split; [done | lia] | unfold size in *; lia].
Qed.

Lemma type_wf_sized ot : type_wf ot -> type_sized ot.
Proof. intros Hwf. split; [apply Hwf | ]. eapply Forall_impl; [apply (tw_fields _ Hwf) | by intros f []]. Qed.

Lemma trigger_loop_ok ot progs : type_sized ot -> forall n rec,
  Forall (fun p => bytes_ok p /\ safe_program ot p) progs -> record_ok rec ->
  exists r, trigger_loop ot n progs rec = Ret r /\ forall x, r = inl x -> record_ok x.
Proof.
  intros Hs. induction progs as [ | p progs IH]; intros n rec Hp Hr; cbn [trigger_loop].
  { eexists. split; [done | ]. by intros x [= <-]. }
  apply Forall_cons in Hp as [[Hpb Hps] Hp]. unfold eval_trigger at 1, run, run_with.
  destruct (run_loop_ret cmp_values ot rec p Hs (length p) 0 0 [] rec) as (r & Hrun & Hl); [unfold zlen; lia | done | ].
  rewrite Hrun. cbn. destruct r as [e | e]; cbn; [ | by eexists].
  destruct (rejected e) eqn:Ej; [by eexists | ]. apply IH; [done | ]. split.
  - eapply run_loop_bytes; [exact Hpb | apply Hr | exact Hrun | apply Hr | by apply Forall_nil].
  - rewrite (Hl e eq_refl). apply Hr.
Qed.

Lemma check_loop_ret ot progs : type_sized ot -> forall n rec,
  Forall (safe_program ot) progs -> exists r, check_loop ot n progs rec = Ret r.
Proof.
  intros Hs. induction progs as [ | p progs IH]; intros n rec Hp; cbn [check_loop]; [by eexists | ].
  apply Forall_cons in Hp as [Hps Hp]. unfold eval, eval_with, run_with.
  destruct (run_loop_ret cmp_values ot rec p Hs (length p) 0 0 [] rec) as (r & -> & _); [unfold zlen; lia | done | ].
  cbn. destruct r as [e | e]; cbn; [ | by eexists].
  destruct (top e) as [v | ]; cbn; [destruct (truthy v); [by apply IH | by eexists] | by eexists].
Qed.

(** [m] returns and keeps the invariant, the catalog and the open transaction,
    with [Q] of the database and the result afterwards. *)
Definition preserves {A} (op : Z) (m : M (Db W) A) db (Q : Db W -> A -> Prop) : Prop :=
  exists db' a, m db = (db', Ret a) /\ db_inv db' op /\ db_catalog db' = db_catalog db /\
    in_txn (db_storage db') = in_txn (db_storage db) /\ Q db' a.

Lemma aux_inv op db db' n d :
  db_inv db n -> effect op db db' d -> (forall k, is_Some (d !! k) -> aux_key k) -> db_inv db' op.
Proof.
  intros Hi He Hd. pose proof Hi as [Ha Ht Hx Hn Hix Hc].
  constructor; [apply He | by rewrite (ef_catalog _ _ _ _ He).. | by eapply index_ok_aux | ].
  eapply cache_ok_same; [by eapply aux_rows | apply He | done].
Qed.

Lemma inv_mono db n op : db_inv db n -> n <= op -> db_inv db op.
Proof. intros Hi Hle. eapply aux_inv; [done | eapply effect_refl; [apply Hi | done] | by intros k [? ?]]. Qed.

(** Steps that write no row leave the rows as they are. *)
Lemma quiet_preserves {A} op (m : M (Db W) A) db n Q :
  db_inv db n -> quiet op m db Q -> preserves op m db (fun db' a => rows_same db db' /\ Q a).
Proof.
  intros Hi (db' & a & d & Hm & He & Hd & Hq). exists db', a.
  split_and!; [done | by eapply aux_inv | apply He | apply He | by eapply aux_rows | done].
Qed.

Lemma preserves_ret {A} op db n (a : A) (Q : Db W -> A -> Prop) : db_inv db n -> n <= op -> Q db a -> preserves op (mret a) db Q.
Proof. intros Hi Hle Hq. exists db, a. split_and!; try done. by eapply inv_mono. Qed.

Lemma preserves_get {A} op (k : Db W -> M (Db W) A) db Q : preserves op (k db) db Q -> preserves op (m_get ≫= k) db Q.
Proof. done. Qed.

Lemma preserves_lift {A B} op (a : A) (k : A -> M (Db W) B) db Q : preserves op (k a) db Q -> preserves op (m_lift (Ret a) ≫= k) db Q.
Proof. done. Qed.

Lemma preserves_impl {A} op (m : M (Db W) A) db (Q R : Db W -> A -> Prop) :
  preserves op m db Q -> (forall db' a, Q db' a -> R db' a) -> preserves op m db R.
Proof. intros (db' & a & ? & ? & ? & ? & ?) Hq. exists db', a. split_and!; auto. Qed.

Lemma preserves_bind {A B} op (m : M (Db W) A) (k : A -> M (Db W) B) db Q R :
  preserves op m db Q ->
  (forall db' a, db_inv db' op -> db_catalog db' = db_catalog db -> Q db' a -> preserves op (k a) db' R) ->
  preserves op (m ≫= k) db R.
Proof.
  intros (db1 & a & Hm & Hi & Hc & Ht & Hq) Hk. destruct (Hk db1 a Hi Hc Hq) as (db2 & b & Hk2 & Hi2 & Hc2 & Ht2 & Hr).
  exists db2, b. split_and!; [by rewrite (M_bind_ret _ _ _ _ _ Hm) | done | congruence | congruence | done].
Qed.

(** ** Writing a row *)

(** A change of the cache that goes with the row at [k] becoming [v]. *)
Definition cache_follows (f : ReadCache -> ReadCache) (k : Key) (v : Slot) : Prop :=
  forall c k' x, fst <$> c_map (f c) !! k' = Some x ->
    k' = k /\ v = Some x \/ k' <> k /\ fst <$> c_map c !! k' = Some x.

Lemma insert_follows k b : cache_follows (fun c => cache_insert c k b) k (Some b).
Proof.
  intros c k' x. unfold cache_insert. cbn -[bs_list].
  destruct (match c_map c !! k with Some _ => _ | None => _ end) as [m o] eqn:Hm. cbn.
  assert (forall y, m !! k' = Some y -> c_map c !! k' = Some y) as Hsub.
  { intros y. repeat (case_match; simplify_eq; try done). by intros [_ ?]%lookup_delete_Some. }
  destruct (decide (k' = k)) as [-> | Hne]; [rewrite lookup_insert_eq; cbn; intros [= ->]; by left | ].
  rewrite lookup_insert_ne by done. destruct (m !! k') as [y | ] eqn:Hy; [ | done]. rewrite (Hsub y eq_refl). by right.
Qed.

Lemma invalidate_follows k v : cache_follows (fun c => cache_invalidate c k) k v.
Proof.
  intros c k' x. unfold cache_invalidate. destruct (c_map c !! k) as [[y t] | ] eqn:Hk; cbn.
  - destruct (decide (k' = k)) as [-> | Hne]; [by rewrite lookup_delete_eq | ]. rewrite lookup_delete_ne by done. by right.
  - intros Hx. right. split; [ | done]. intros ->. by rewrite Hk in Hx.
Qed.

(** The row is written, the cache changed, the indexes moved. *)
Lemma row_steps op t ot obj v f db db1 db3 n :
  db_inv db n -> get_type db t = Some ot -> oid_ok obj -> cache_follows f (make_key t obj) v ->
  effect op db db1 {[ make_key t obj := v ]} ->
  effect op (set_cache (f <$> db_cache db1) db1) db3 (index_writes t ot obj (db_get db (make_key t obj)) v) ->
  db_inv db3 op /\ row_set db db3 t obj v.
Proof.
  intros Hi Hot Ho Hf H1 H3. destruct (get_type_elem _ _ _ Hot) as [Hin Hid].
  pose proof (iv_types _ _ Hi) as Hws. rewrite Forall_forall in Hws. pose proof (Hws _ Hin) as Hwf.
  pose proof (tw_id _ Hwf) as Hs. rewrite Hid in Hs.
  assert (db_catalog db3 = db_catalog db) as Hc by (rewrite (ef_catalog _ _ _ _ H3); apply H1).
  assert (forall k, key_ok k -> db_get db3 k = overwrite (index_writes t ot obj (db_get db (make_key t obj)) v ∪ {[ make_key t obj := v ]}) k (db_get db k)) as Hg.
  { intros k Hk. rewrite (ef_get _ _ _ _ H3) by done. change (db_get (set_cache _ db1) k) with (db_get db1 k).
    rewrite (ef_get _ _ _ _ H1) by done. unfold overwrite. rewrite lookup_union. by destruct (index_writes _ _ _ _ _ !! k), ({[ _ := _ ]} !! k). }
  assert (row_set db db3 t obj v) as Hrs.
  { intros t' o Ht' Ho'. rewrite Hg by (by apply row_key_ok). unfold overwrite. rewrite lookup_union.
    rewrite index_writes_other, (left_id_L None _) by (intros; apply row_not_entry; [by apply small_user | done]).
    destruct (decide (t' = t /\ o = obj)) as [[-> ->] | Hne]; [by rewrite lookup_singleton_eq | ].
    rewrite lookup_singleton_ne; [done | ]. intros E. apply make_key_inj in E as [? ?]; [by destruct Hne | by apply user_u32, small_user..]. }
  split; [ | done]. constructor; [apply H3 | rewrite Hc; apply Hi.. | by eapply index_ok_row; [ | | apply Hi | .. ] | ].
  intros t' o x Ht' Ho' Hx. rewrite Hrs by done. unfold cached in Hx. rewrite (ef_cache _ _ _ _ H3) in Hx. cbn in Hx.
  rewrite (ef_cache _ _ _ _ H1) in Hx. destruct (db_cache db) as [c | ] eqn:Hcd; [ | done]. cbn in Hx.
  destruct (Hf c _ x Hx) as [[E ->] | [E Hold]].
  - apply make_key_inj in E as [-> ->]; [by rewrite decide_True | by apply user_u32, small_user..].
  - rewrite decide_False by (by intros [-> ->]). apply (iv_cache _ _ Hi); [done | done | ]. unfold cached. by rewrite Hcd.
Qed.

Lemma no_index_writes db t ot obj old new :
  need_idx db t = false -> get_type db t = Some ot -> index_writes t ot obj old new = ∅.
Proof.
  intros Hn Hot. unfold need_idx in Hn. rewrite Hot in Hn. apply negb_false_iff in Hn.
  apply andb_true_iff in Hn as [[H1 _]%andb_true_iff H3]. apply bool_decide_eq_true in H1, H3.
  unfold index_writes. by rewrite H1, H3.
Qed.

Lemma maybe_maintain_spec op t ot obj old new db :
  db_at db op -> u64_ok op -> get_type db t = Some ot -> type_wf ot -> oid_ok obj -> rec_ok old -> rec_ok new ->
  exists db', (if need_idx db t then idx_maintain op t obj old new else mret tt) db = (db', Ret tt) /\
    effect op db db' (index_writes t ot obj old new).
Proof.
  intros Ha Hop Hot Hwf Ho Hold Hnew. destruct (need_idx db t) eqn:Hn.
  - apply idx_maintain_spec; try done. by apply (get_type_elem db).
  - rewrite (no_index_writes db) by done. by eapply does_ret.
Qed.

Lemma need_idx_same db db' t : db_catalog db' = db_catalog db -> need_idx db' t = need_idx db t.
Proof. intros Hc. unfold need_idx. by rewrite (get_type_same db db'). Qed.

(** The tail that Create, Update and the loops of Delete share: a row is
    written, the cache changed, and the indexes brought in line by [mt]. *)
Lemma write_row_keeps {B} op t ot obj v f (mt : M (Db W) unit) (kerr : io_error -> M (Db W) B) (k : M (Db W) B) db Q :
  db_inv db op -> u64_ok op -> get_type db t = Some ot -> oid_ok obj -> slot_ok v -> cache_follows f (make_key t obj) v ->
  (forall db', db_at db' op -> db_catalog db' = db_catalog db ->
     does op mt db' tt (index_writes t ot obj (db_get db (make_key t obj)) v)) ->
  (forall db', db_inv db' op -> db_catalog db' = db_catalog db -> row_set db db' t obj v -> preserves op k db' Q) ->
  preserves op (r ← on_sm (on_storage_result (write op (make_key t obj) v));
                match r with
                | inr e => kerr e
                | inl _ => _ ← with_cache f; _ ← mt; k
                end) db Q.
Proof.
  intros Hi Hop Hot Ho Hv Hf Hmt Hk. destruct (get_type_elem _ _ _ Hot) as [Hin Hid].
  pose proof (iv_types _ _ Hi) as Hws. rewrite Forall_forall in Hws. pose proof (tw_id _ (Hws _ Hin)) as Hs. rewrite Hid in Hs.
  destruct (on_write_spec op (make_key t obj) v db op (iv_at _ _ Hi)) as (db1 & Hm1 & He1); [done | done | by apply row_key_ok | done | ].
  set (db2 := set_cache (f <$> db_cache db1) db1). assert (db_at db2 op) as Ha2 by (destruct (ef_at _ _ _ _ He1); by constructor).
  destruct (Hmt db2 Ha2) as (db3 & Hm3 & He3); [apply He1 | ].
  destruct (row_steps op t ot obj v f db db1 db3 op Hi Hot Ho Hf He1 He3) as [Hi3 Hrs].
  assert (db_catalog db3 = db_catalog db) as Hc3 by (rewrite (ef_catalog _ _ _ _ He3); apply He1).
  destruct (Hk db3 Hi3 Hc3 Hrs) as (db4 & b & Hm4 & Hi4 & Hc4 & Ht4 & Hq). exists db4, b.
  split_and!; [ | done | congruence | rewrite Ht4, (ef_txn _ _ _ _ He3); apply He1 | done].
  mstep Hm1. cbv beta iota. rewrite (M_bind_ret _ _ _ db2 tt) by done. mstep Hm3. exact Hm4.
Qed.

Lemma row_rec_ok db n t ot obj : db_inv db n -> get_type db t = Some ot -> oid_ok obj -> rec_ok (db_get db (make_key t obj)).
Proof.
  intros Hi Hot Ho b Hb. destruct (get_type_elem _ _ _ Hot) as [Hin Hid]. pose proof (iv_types _ _ Hi) as Hw.
  rewrite Forall_forall in Hw. pose proof (tw_id _ (Hw _ Hin)) as Hs. rewrite Hid in Hs.
  eapply (at_values _ _ (iv_at _ _ Hi)); [by apply row_key_ok | done].
Qed.

(** Reclaimed overflow records are in their own key space. *)
Lemma reclaim_quiet op l : forall db, db_at db op -> u64_ok op -> quiet op (reclaim_overflow op l) db (fun _ => True).
Proof.
  induction l as [ | h l IH]; intros db Ha Hop; [by eapply quiet_ret | ]. cbn [reclaim_overflow].
  eapply (quiet_bind _ _ _ _ (fun _ => True)); [ | intros db1 r d1 [Ha1 _ _ _ _] _ _; by apply IH].
  destruct (db_delete_spec op (handle_key h) db op Ha) as (db1 & Hm & He); [done | done | apply handle_aux | ].
  exists db1, (inl tt), {[ handle_key h := None ]}. split_and!; [exact Hm | exact He | | done].
  intros k [v [<- _]%lookup_singleton_Some]. apply handle_aux.
Qed.

Lemma serial_aux t : aux_key (serial_counter_key t) /\ key_ok (serial_counter_key t).
Proof.
  assert (key_type (serial_counter_key t) = SERIAL_TYPE) as Ht by (apply key_type_app; unfold u32_ok, u32_max, SERIAL_TYPE; lia).
  split; [unfold aux_key; rewrite Ht; by right | ]. split_and!.
  - unfold serial_counter_key, make_key. rewrite !bytes_ok_app. split_and!; try apply le_bytes_ok.
    apply Forall_replicate. unfold byte_ok. lia.
  - unfold serial_counter_key, make_key. autorewrite with zlen. done.
  - right. unfold reserved_key. rewrite Ht. by right.
Qed.

Lemma field_pos_offset ot fid i off f : type_wf ot -> field_pos ot fid = Some (i, off, f) -> 0 <= off.
Proof.
  intros Hwf. unfold field_pos. destruct (field_index ot fid) as [j | ]; [ | done]. cbn.
  destruct (offsets _ !! _) as [o | ] eqn:Ho; [ | done]. cbn. destruct (fields ot !! _); [ | done]. cbn.
  intros [= <- <- <-]. rewrite compute_layout_eq in Ho by (by apply kinds_ok).
  apply place_lookup in Ho as [Ho _]; [ | by apply kinds_ok]. change HEADER_BYTES with 14 in Ho. lia.
Qed.

Lemma splice_len d off b : 0 <= off -> off + zlen b <= zlen d -> zlen (splice d off b) = zlen d.
Proof.
  intros Hoff Hl. destruct (copy_into_ret d off b Hoff Hl) as (w' & Hc & Hw).
  unfold copy_into in Hc. dcase_in Hc; [ | done]. by injection Hc as <-.
Qed.

Lemma patch_serial_ok db t rec seq rec' :
  Forall type_wf (types (db_catalog db)) -> record_ok rec ->
  patch_serial_field db t rec seq = inl rec' -> record_ok rec'.
Proof.
  intros Hwf Hr Hp. unfold patch_serial_field in Hp. destruct (get_type db t) as [ot | ] eqn:Hot; [ | by injection Hp as <-].
  destruct (get_type_elem _ _ _ Hot) as [Hin _]. rewrite Forall_forall in Hwf. specialize (Hwf _ Hin).
  destruct (serial_field_id ot) as [fid | ]; [ | by injection Hp as <-].
  destruct (negb _); [by injection Hp as <- | ]. unfold idx_field_pos in Hp.
  destruct (field_pos ot fid) as [[[i off] f] | ] eqn:Hpos; [ | by injection Hp as <-]. cbn in Hp.
  destruct (bool_decide _); [by injection Hp as <- | ]. destruct (_ || _) eqn:Eb; [done | ]. injection Hp as <-. zb.
  apply field_pos_offset in Hpos as Hoff; [ | done]. apply field_pos_width in Hpos; [ | done]. destruct Hr as [Hb Hl].
  split; [apply splice_bytes_ok; [done | by apply Forall_take, le_bytes_ok] | ].
  rewrite splice_len; [done | done | ]. unfold zlen in *. rewrite length_take, le_bytes_length. lia.
Qed.

Lemma record_slot_ok rec : record_ok rec -> slot_ok (Some rec).
Proof. intros Hr b [= <-]. exact Hr. Qed.

Lemma record_rec_ok rec : record_ok rec -> rec_ok (Some rec).
Proof. intros Hr b [= <-]. apply Hr. Qed.

(** The indexes of a type that has none need no maintenance. *)
Lemma maybe_maintain_does op t ot obj old new db db' :
  db_at db' op -> db_catalog db' = db_catalog db -> u64_ok op -> get_type db t = Some ot -> type_wf ot -> oid_ok obj ->
  rec_ok old -> rec_ok new ->
  does op (if need_idx db t then idx_maintain op t obj old new else mret tt) db' tt (index_writes t ot obj old new).
Proof.
  intros Ha Hc Hop Hot Hwf Ho Hold Hnew. rewrite <- (need_idx_same db db') by done.
  apply maybe_maintain_spec; try done. by rewrite (get_type_same db).
Qed.

Lemma get_type_wf db n t ot : db_inv db n -> get_type db t = Some ot -> type_wf ot.
Proof.
  intros Hi Hot. destruct (get_type_elem _ _ _ Hot) as [Hin _]. pose proof (iv_types _ _ Hi) as Hw.
  rewrite Forall_forall in Hw. by apply Hw.
Qed.

Lemma get_type_small db n t ot : db_inv db n -> get_type db t = Some ot -> small_type t.
Proof.
  intros Hi Hot. destruct (get_type_elem _ _ _ Hot) as [_ <-]. by eapply tw_id, get_type_wf.
Qed.

(** An equality lookup in the index [fid]. *)
Lemma lookup_correct db n t ot fid v :
  db_inv db n -> get_type db t = Some ot -> u16_ok fid -> bytes_ok v -> zlen v <= 65000 ->
  StronglySorted klt (idx_lookup db t fid v) /\
  forall o, o ∈ idx_lookup db t fid v <-> oid_ok o /\ index_value ot fid (db_get db (make_key t o)) = Some v.
Proof.
  intros Hi Hot Hf Hv Hl. split; [apply idx_lookup_sorted | ]. intros o. pose proof (get_type_small _ _ _ _ Hi Hot) as Hs.
  rewrite (idx_lookup_elem db n) by (done || apply Hi). split; intros [Ho Hx]; (split; [done | ]).
  - apply (iv_index _ _ Hi) in Hx; [ | done..]. by rewrite Hot in Hx.
  - apply (iv_index _ _ Hi); [done.. | ]. by rewrite Hot.
Qed.

(** ** Accepting a record *)

(** What the constraints of a type ask of the record [rec] that is stored as
    [id] for the client's [record]: it is the client's record, or the record
    with its blobs moved out, after the triggers; its NOT NULL fields are set;
    its CHECK programs hold; no other row has its value in a unique field that
    is indexed; and the rows its foreign keys name exist. *)
Record accepted db (t : Z) (ot : ObjectType) (id record rec : bytes) : Prop := {
  ac_record : exists fixed, (zlen record <= record_size (compute_layout ot) -> fixed = record) /\
    trigger_loop ot 0 (triggers ot) fixed = Ret (inl rec);
  ac_not_null : check_not_null ot rec = inl tt;
  ac_checks : check_loop ot 0 (checks ot) rec = Ret (inl tt);
  ac_unique fid off w v o : fid ∈ unique ot -> fid ∈ indexes ot -> idx_field_pos ot fid = Some (off, w) ->
    slot_of rec off w = Some v -> oid_ok o -> o <> id -> (r ← db_get db (make_key t o); slot_of r off w) <> Some v;
  ac_fk fid rt od o : (fid, rt, od) ∈ fks ot -> small_type rt -> row_is_codec ot rec = true ->
    fk_target ot rec fid = Some o -> is_Some (db_get db (make_key rt o));
}.

Lemma unique_loop_ok db t ot rec id fids fid off w v :
  unique_loop db t ot rec id fids = inl tt -> fid ∈ fids -> idx_field_pos ot fid = Some (off, w) -> slot_of rec off w = Some v ->
  forall o, o ∈ idx_lookup db t fid v -> o = id.
Proof.
  intros Hl Hin Hp Hv o Ho. induction fids as [ | f fids IH]; [by apply elem_of_nil in Hin | ]. cbn [unique_loop] in Hl.
  apply elem_of_cons in Hin as [<- | Hin].
  - rewrite Hp in Hl. cbn in Hl. rewrite Hv in Hl. unfold unique_conflict in Hl. destruct (existsb _ _) eqn:He; [done | ].
    destruct (decide (o = id)) as [-> | Hne]; [done | ]. rewrite <- not_true_iff_false in He. destruct He. apply existsb_exists.
    exists o. split; [by apply list_elem_of_In | by rewrite bool_decide_eq_false_2].
  - apply IH; [ | done]. destruct (_ ≫= _); [ | done]. by destruct (unique_conflict _ _ _ _ _).
Qed.

Lemma fk_loop_ok db ot rec l fid rt od o :
  fk_loop db ot rec l = inl tt -> (fid, rt, od) ∈ l -> fk_target ot rec fid = Some o -> is_Some (db_get db (make_key rt o)).
Proof.
  intros Hl Hin Ht. induction l as [ | [[f r] d] l IH]; [by apply elem_of_nil in Hin | ]. cbn [fk_loop] in Hl.
  apply elem_of_cons in Hin as [[= -> -> ->] | Hin].
  - rewrite Ht in Hl. destruct (db_get db (make_key r o)); [by eexists | done].
  - apply IH; [ | done]. destruct (fk_target ot rec f); [ | done]. by destruct (db_get db _).
Qed.

Lemma norm_zlen v w : 0 <= w -> zlen (norm v w) = w.
Proof. intros Hw. unfold norm, zlen. rewrite length_app, length_take, length_replicate. lia. Qed.

Lemma norm_bytes v w : bytes_ok v -> bytes_ok (norm v w).
Proof. intros Hv. unfold norm. apply bytes_ok_app. split; [by apply Forall_take | ]. apply Forall_replicate. unfold byte_ok. lia. Qed.

Lemma fk_target_oid ot rec fid o : bytes_ok rec -> fk_target ot rec fid = Some o -> oid_ok o.
Proof.
  intros Hr. unfold fk_target. destruct (field_pos ot fid) as [[[i off] f] | ]; [ | done]. cbn.
  destruct (row_field_is_null rec i); [done | ]. destruct (slot_of rec off _) as [v | ] eqn:Hv; [ | done]. cbn. intros [= <-].
  apply slot_of_ok in Hv as [Hb _]; [ | done]. split; [ | by apply norm_bytes].
  pose proof (norm_zlen v 16 ltac:(lia)). unfold zlen in *. lia.
Qed.

Lemma unique_value db n t ot fid off w v o id rec :
  db_inv db n -> get_type db t = Some ot -> bytes_ok rec -> unique_loop db t ot rec id (unique ot) = inl tt ->
  fid ∈ unique ot -> fid ∈ indexes ot -> idx_field_pos ot fid = Some (off, w) -> slot_of rec off w = Some v ->
  oid_ok o -> o <> id -> (r ← db_get db (make_key t o); slot_of r off w) <> Some v.
Proof.
  intros Hi Hot Hb Hu Hin Hx Hp Hv Ho Hne Hr. pose proof (get_type_wf _ _ _ _ Hi Hot) as Hwf. apply Hne.
  eapply unique_loop_ok; [exact Hu | exact Hin | exact Hp | exact Hv | ].
  pose proof (tw_indexes _ Hwf) as Hxs. rewrite Forall_forall in Hxs. specialize (Hxs _ Hx). cbn in Hxs.
  pose proof (idx_field_pos_width _ _ _ _ Hwf Hp). apply slot_of_ok in Hv as [Hvb Hvl]; [ | done].
  apply (lookup_correct db n t ot); [done | done | unfold u16_ok, u16_max; lia | done | lia | ]. split; [done | ].
  unfold index_value. by rewrite (proj2 (Z.ltb_lt _ _)), bool_decide_eq_true_2, Hp by (done || lia).
Qed.

Lemma admit_record_quiet op t ot id record db n :
  db_inv db n -> n <= op -> u64_ok op -> get_type db t = Some ot -> record_ok record ->
  quiet op (admit_record op t id record) db (or_refused (fun x => record_ok x /\ accepted db t ot id record x)).
Proof.
  intros Hi Hle Hop Hot Hr. pose proof (get_type_wf _ _ _ _ Hi Hot) as Hwf. unfold admit_record.
  eapply quiet_bind; [by eapply materialize_quiet; [apply Hi | .. ] | ]. cbn beta.
  intros db1 [fx | e] d He Hd Hq; [ | eapply quiet_ret; [apply He | done | done]].
  destruct Hq as [Hfx Hsame]. pose proof (aux_inv _ _ _ _ _ Hi He Hd) as Hi1. pose proof (aux_rows _ _ _ _ He Hd) as Hrows.
  pose proof (iv_at _ _ Hi1) as Ha1. apply quiet_get.
  assert (get_type db1 t = Some ot) as Hot1 by (rewrite (get_type_same db); [done | apply He]).
  pose proof (type_wf_sized _ Hwf) as Hsz. unfold run_triggers, check_checks, check_unique, check_fk. rewrite Hot1.
  destruct (trigger_loop_ok ot (triggers ot) Hsz 0 fx (tw_triggers _ Hwf)) as (r & Ht & Hrt); [done | ].
  eapply quiet_lift; [exact Ht | ]. destruct r as [rec | m]; [ | by eapply quiet_ret]. specialize (Hrt _ eq_refl).
  destruct (check_not_null ot rec) as [[] | ] eqn:Hnn; [ | by eapply quiet_ret].
  destruct (unique_loop _ _ _ _ _ _) as [[] | ] eqn:Hun; [ | by eapply quiet_ret].
  destruct (if bool_decide (fks ot = []) || _ then _ else _) as [[] | ] eqn:Hfk; [ | by eapply quiet_ret].
  destruct (check_loop_ret ot (checks ot) Hsz 0 rec (tw_checks _ Hwf)) as (c & Hc). eapply quiet_lift; [exact Hc | ].
  destruct c as [[] | ]; [ | by eapply quiet_ret]. eapply quiet_ret; [done | done | ]. split; [done | ].
  pose proof (get_type_small _ _ _ _ Hi Hot) as Hs. constructor; [by exists fx | done | done | | ].
  - intros fid off w v o Hin Hx Hp Hv Ho Hne. rewrite <- Hrows by done. eapply unique_value; try done. apply Hrt.
  - intros fid rt od o Hin Hsm Hcod Htg. rewrite <- Hrows by (done || by eapply fk_target_oid; [apply Hrt | ]).
    rewrite Hcod in Hfk. rewrite bool_decide_eq_false_2 in Hfk by (by destruct (fks ot); [apply elem_of_nil in Hin | ]).
    cbn in Hfk. by eapply fk_loop_ok.
Qed.

(** ** Create and Update *)

Lemma serial_put_keeps op t s db :
  db_inv db op -> u64_ok op ->
  preserves op (db_put op (serial_counter_key t) (le_bytes 8 s)) db
    (fun db' r => rows_same db db' /\ r = inl tt /\ db_get db' (serial_counter_key t) = Some (le_bytes 8 s)).
Proof.
  intros Hi Hop. destruct (serial_aux t) as [Hx Hk].
  destruct (db_put_spec op (serial_counter_key t) (le_bytes 8 s) db op (iv_at _ _ Hi)) as (db1 & Hm & He); [done | done | done | | ].
  { intros b [= <-]. split; [apply le_bytes_ok | unfold zlen; by rewrite le_bytes_length]. }
  assert (forall k, is_Some (({[ serial_counter_key t := Some (le_bytes 8 s) ]} : gmap Key Slot) !! k) -> aux_key k) as Hd
    by (by intros k [v [<- _]%lookup_singleton_Some]).
  exists db1, (inl tt). split_and!; [exact Hm | by eapply aux_inv | apply He | apply He | by eapply aux_rows | done | ].
  rewrite (ef_get _ _ _ _ He) by done. unfold overwrite. by rewrite lookup_singleton_eq.
Qed.

(** The record Create stores; a serial one has the number written into it. *)
Definition stored db (t : Z) (ot : ObjectType) (id record : bytes) (seq : option Z) (rec : bytes) : Prop :=
  exists rec0, accepted db t ot id record rec0 /\
    match seq with Some s => patch_serial_field db t rec0 s | None => inl rec0 end = inl rec.

(** What Create does to the rows: it adds the one it acknowledges. *)
Definition create_spec (t : Z) (id record : bytes) db db' (r : DbResult) : Prop :=
  match r with
  | ResOk => exists ot rec, get_type db t = Some ot /\ db_get db (make_key t id) = None /\
      stored db t ot id record None rec /\ row_set db db' t id (Some rec)
  | Created seq => exists ot rec, get_type db t = Some ot /\ id = SERIAL_SENTINEL /\ seq = serial_counter db t + 1 /\
      serial_counter db' t = seq /\ db_get db (make_key t (le_bytes 16 seq)) = None /\
      stored db t ot (le_bytes 16 seq) record (Some seq) rec /\ row_set db db' t (le_bytes 16 seq) (Some rec)
  | _ => rows_same db db'
  end.

(** What Update does to the rows: it replaces the one it acknowledges. *)
Definition update_spec (t : Z) (id record : bytes) db db' (r : DbResult) : Prop :=
  match r with
  | ResOk => exists ot rec, get_type db t = Some ot /\ is_Some (db_get db (make_key t id)) /\
      accepted db t ot id record rec /\ row_set db db' t id (Some rec)
  | _ => rows_same db db'
  end.

(** The steps before a record is written change no row. *)
Lemma admit_keeps {B} op t ot id record (k : bytes + DbResult -> M (Db W) B) db n Q :
  db_inv db n -> n <= op -> u64_ok op -> get_type db t = Some ot -> record_ok record ->
  (forall db1 a, db_inv db1 op -> db_catalog db1 = db_catalog db -> rows_same db db1 ->
     or_refused (fun x => record_ok x /\ accepted db t ot id record x) a -> preserves op (k a) db1 Q) ->
  preserves op (admit_record op t id record ≫= k) db Q.
Proof.
  intros Hi Hle Hop Hot Hr Hk. eapply preserves_bind; [by eapply quiet_preserves, admit_record_quiet | ].
  intros db1 a Hi1 Hc1 [Hrows Hq]. by apply Hk.
Qed.

Lemma refused_spec {A} (P : A) (Q : Z -> A) (R : A) r : refused r -> match r with ResOk => P | Created s => Q s | _ => R end = R.
Proof. by destruct r. Qed.

(** Create past the choice of the id. *)
Definition create_at_spec (t : Z) (ot : ObjectType) (id record : bytes) (seq : option Z) db db' (r : DbResult) : Prop :=
  let done rec := db_get db (make_key t id) = None /\ stored db t ot id record seq rec /\ row_set db db' t id (Some rec) in
  match r with
  | ResOk => seq = None /\ exists rec, done rec
  | Created x => exists s rec, seq = Some s /\ x = le_value id /\ db_get db' (serial_counter_key t) = Some (le_bytes 8 s) /\ done rec
  | _ => rows_same db db'
  end.

Lemma create_at_keeps op t ot id seq record db n :
  db_inv db n -> n <= op -> u64_ok op -> get_type db t = Some ot -> oid_ok id -> record_ok record ->
  preserves op (create_at op t id seq record) db (create_at_spec t ot id record seq db).
Proof.
  intros Hi Hle Hop Hot Hid Hr. pose proof (get_type_wf _ _ _ _ Hi Hot) as Hwf. pose proof (get_type_small _ _ _ _ Hi Hot) as Hs.
  unfold create_at. apply preserves_get. destruct (db_get db (make_key t id)) eqn:Hold; [by eapply preserves_ret | ].
  eapply admit_keeps; try done. intros db1 [rec0 | e] Hi1 Hc1 Hrow Hq.
  2: { eapply preserves_ret; [done | done | ]. unfold create_at_spec. by rewrite refused_spec. }
  destruct Hq as [Hr0 Hacc]. apply preserves_get. assert (get_type db1 t = Some ot) as Hot1 by (by rewrite (get_type_same db)).
  destruct (match seq with Some s => _ | None => _ end) as [rec | e] eqn:Hp; [ | by eapply preserves_ret].
  assert (record_ok rec) as Hrec. { destruct seq; [by eapply patch_serial_ok; [apply Hi1 | | exact Hp] | by injection Hp as <-]. }
  assert (stored db t ot id record seq rec) as Hst.
  { exists rec0. split; [done | ]. destruct seq; [ | done]. unfold patch_serial_field in *. by rewrite Hot1 in Hp; rewrite Hot. }
  eapply (write_row_keeps op t ot id (Some rec)); try done.
  - by apply record_slot_ok.
  - apply insert_follows.
  - rewrite (Hrow t id Hs Hid), Hold. intros db2 Ha2 Hc2. apply (maybe_maintain_does _ _ _ _ _ _ db1); try done. by apply record_rec_ok.
  - intros db2 Hi2 _ Hset. apply (same_row_set db) in Hset; [ | done]. destruct seq as [s | ]; [ | eapply preserves_ret; [done | done | by split; [ | exists rec]]].
    eapply preserves_bind; [by apply serial_put_keeps | ]. intros db3 ? Hi3 _ (Hsame & -> & Hctr).
    eapply preserves_ret; [done | done | ]. exists s, rec. split_and!; try done. by eapply row_set_same.
Qed.

Lemma serial_counter_range db n t : db_inv db n -> 0 <= serial_counter db t <= u64_max.
Proof.
  intros Hi. unfold serial_counter. destruct (db_get db (serial_counter_key t)) as [b | ] eqn:Hb; [ | done]. cbn.
  destruct (get_range b 0 8) as [h | ] eqn:Hh; [ | done]. cbn.
  apply (at_values _ _ (iv_at _ _ Hi)) in Hb as [Hok _]; [ | apply serial_aux].
  apply get_range_length in Hh as Hl. destruct Hl as (_ & _ & Hl). apply range_bytes in Hh; [ | done]. pose proof (le_value_bound h Hh) as Hv.
  rewrite Hl in Hv. unfold u64_max. change (256 ^ (8 - 0)) with 18446744073709551616 in Hv. lia.
Qed.

Lemma get_range_whole (b : bytes) n : zlen b = n -> get_range b 0 n = Some b.
Proof.
  intros <-. unfold get_range. rewrite !(proj2 (Z.leb_le _ _)) by (pose proof (zlen_nonneg b); lia). cbn.
  f_equal. rewrite drop_0. apply take_ge. unfold zlen. lia.
Qed.

Lemma create_row_keeps op t id record db n :
  db_inv db n -> n <= op -> u64_ok op -> oid_ok id -> record_ok record ->
  preserves op (create_row op t id record) db (create_spec t id record db).
Proof.
  intros Hi Hle Hop Hid Hr. unfold create_row. apply preserves_get.
  destruct (get_type db t) as [ot | ] eqn:Hot; [ | by eapply preserves_ret].
  destruct (_ && _) eqn:Hser.
  - destruct (Z.eqb_spec (serial_counter db t) u64_max) as [ | Hmax]; [by eapply preserves_ret | ].
    apply andb_true_iff in Hser as [_ ->%bool_decide_eq_true]. set (seq := serial_counter db t + 1) in *.
    eapply preserves_impl; [eapply (create_at_keeps op t ot (le_bytes 16 seq)); try done | ].
    { split; [by rewrite le_bytes_length | apply le_bytes_ok]. }
    pose proof (serial_counter_range db n t Hi) as Hrange.
    intros db' r Hr'. destruct r; try done; [by destruct Hr' | ]. destruct Hr' as (s & rec & [= <-] & -> & Hctr & Hn & Hst & Hset).
    rewrite le_value_le_bytes_small by (unfold seq, u64_max in *; cbn; lia).
    exists ot, rec. split_and!; try done. unfold serial_counter. rewrite Hctr. cbn.
    rewrite get_range_whole by (by rewrite le_bytes_zlen). cbn. apply le_value_le_bytes_small. unfold seq, u64_max in *. cbn. lia.
  - eapply preserves_impl; [by eapply create_at_keeps | ]. intros db' r Hr'. destruct r; try done.
    + destruct Hr' as (_ & rec & ? & ? & ?). by exists ot, rec.
    + by destruct Hr' as (s & rec & ? & _).
Qed.

Lemma update_row_keeps op t id record db n :
  db_inv db n -> n <= op -> u64_ok op -> oid_ok id -> record_ok record ->
  preserves op (update_row op t id record) db (update_spec t id record db).
Proof.
  intros Hi Hle Hop Hid Hr. unfold update_row. apply preserves_get.
  destruct (get_type db t) as [ot | ] eqn:Hot; [ | by eapply preserves_ret]. pose proof (get_type_small _ _ _ _ Hi Hot) as Hs.
  pose proof (get_type_wf _ _ _ _ Hi Hot) as Hwf.
  destruct (db_get db (make_key t id)) as [old | ] eqn:Hold; [ | by eapply preserves_ret].
  eapply admit_keeps; try done. intros db1 [rec | e] Hi1 Hc1 Hrow Hq.
  2: { eapply preserves_ret; [done | done | ]. by destruct e. }
  destruct Hq as [Hr0 Hacc]. apply preserves_get. assert (get_type db1 t = Some ot) as Hot1 by (by rewrite (get_type_same db)).
  eapply (write_row_keeps op t ot id (Some rec)); try done.
  - by apply record_slot_ok.
  - apply insert_follows.
  - intros db2 Ha2 Hc2. rewrite (Hrow t id Hs Hid), Hold. apply (maybe_maintain_does _ _ _ _ _ _ db1); try done.
    + rewrite <- Hold. by eapply row_rec_ok.
    + by apply record_rec_ok.
  - intros db2 Hi2 _ Hset. apply (same_row_set db) in Hset; [ | done].
    eapply preserves_bind; [eapply quiet_preserves, reclaim_quiet; [done | apply Hi2 | done] | ].
    intros db3 [] Hi3 _ [Hsame _]. eapply preserves_ret; [done | done | ]. exists ot, rec. split_and!; try done.
    by eapply row_set_same.
Qed.

(** The record of UpdateSet: decoding any stored row gives values that encode
    without a panic. *)
Definition fits (f : Field) (v : Value) : Prop :=
  kind_ok (f_kind f) /\
  match v with Null => True | Uint _ | Int _ => width (f_kind f) <= 16 | Blob b => bytes_ok b /\ zlen b <= width (f_kind f) end.

Lemma value_from_raw_fits f raw :
  kind_ok (f_kind f) -> zlen raw = width (f_kind f) -> bytes_ok raw ->
  exists v, value_from_raw (f_kind f) raw = Ret v /\ fits f v.
Proof.
  intros Hk Hl Hb. unfold value_from_raw, fits. rewrite Hl.
  destruct (f_kind f); cbn [is_signed is_blob width]; cbn -[extend16 i128_from_le le_value]; eexists; (split; [done | ]); cbn in *; split_and!; try done; lia.
Qed.

Lemma decode_loop_fits rec bm fc fs : bytes_ok rec -> Forall (fun f => kind_ok (f_kind f)) fs -> forall i cur, 0 <= cur ->
  exists r, decode_loop rec bm fc i (zip (place cur fs).1 fs) = Ret r /\ forall vs, r = inl vs -> Forall2 fits fs vs.
Proof.
  intros Hb. induction 1 as [ | f fs Hf Hfs IH]; intros i cur Hcur.
  { eexists. split; [done | ]. intros vs [= <-]. constructor. }
  rewrite place_fst. cbn [zip zip_with decode_loop]. pose proof (width_nonneg _ Hf).
  assert (exists r, (if (fc <=? i) || is_null bm i then Ret (inl Null) else
           match get_range rec cur (cur + width (f_kind f)) with
           | None => Ret (inr ShortRecord)
           | Some raw => v ← value_from_raw (f_kind f) raw; Ret (inl v)
           end) = Ret r /\ forall v, r = inl v -> fits f v) as (r & -> & Hr).
  { destruct (_ || _); [eexists; split; [done | by intros v [= <-]] | ].
    destruct (get_range rec cur _) as [raw | ] eqn:Hg; [ | by eexists].
    destruct (value_from_raw_fits f raw Hf) as (v & -> & Hv); [apply get_range_length in Hg; lia | by eapply range_bytes | ].
    eexists. split; [done | ]. by intros ? [= <-]. }
  ob. destruct r as [v | e]; [ | by eexists]. destruct (IH (i + 1) (cur + width (f_kind f))) as (r & -> & Hvs); [lia | ].
  ob. destruct r as [vs | e]; (eexists; split; [done | ]); [ | done]. intros ? [= <-]. constructor; [by apply Hr | by apply Hvs].
Qed.

Lemma encode_value_ret i off f v buf bm :
  fits f v -> 0 <= off -> off + width (f_kind f) <= zlen buf -> 0 <= i < 8 * zlen bm -> bytes_ok buf -> bytes_ok bm ->
  exists r, encode_value i off f v buf bm = Ret r /\
    forall buf' bm', r = inl (buf', bm') -> zlen buf' = zlen buf /\ zlen bm' = zlen bm /\ bytes_ok buf' /\ bytes_ok bm'.
Proof.
  intros [Hk Hf] Hoff Hw Hi Hbuf Hbm. pose proof (width_nonneg _ Hk).
  assert (forall d, bytes_ok d -> zlen d <= width (f_kind f) -> exists r, (b ← copy_into buf off d; Ret (inl (b, bm))) = Ret r /\
    forall buf' bm', r = @inl _ CodecError (buf', bm') -> zlen buf' = zlen buf /\ zlen bm' = zlen bm /\ bytes_ok buf' /\ bytes_ok bm') as Hcp.
  { intros d Hd Hl. destruct (copy_into_ret buf off d) as (b & Hc & Hbl); [done | lia | ]. rewrite Hc. ob. eexists. split; [done | ].
    intros ? ? [= <- <-]. split_and!; try done. by eapply copy_into_bytes. }
  assert (forall x, bytes_ok (take (Z.to_nat (width (f_kind f))) (le_bytes 16 x)) /\ (width (f_kind f) <= 16 ->
    zlen (take (Z.to_nat (width (f_kind f))) (le_bytes 16 x)) <= width (f_kind f))) as Hint.
  { intros x. split; [by apply Forall_take, le_bytes_ok | ]. unfold zlen. rewrite length_take, le_bytes_length. lia. }
  destruct v as [ | x | x | d]; unfold encode_value.
  - destruct (negb _); [by eexists | ]. unfold set_null, get_at. assert (0 <= i / 8 < zlen bm) by zdiv. repeat zif_true. cbn [andb].
    destruct (bm !! Z.to_nat (i / 8)) as [x | ] eqn:Hx; cbn.
    + eexists. split; [done | ]. intros ? ? [= <- <-]. unfold zlen. rewrite length_insert. split_and!; try done.
      apply Forall_insert; [done | ]. apply byte_lor; [ | apply bit_byte; lia]. unfold bytes_ok in Hbm. rewrite Forall_lookup in Hbm. by eapply Hbm.
    + apply lookup_ge_None in Hx. exfalso. unfold zlen in *. lia.
  - unfold le_prefix. rewrite (proj2 (Z.leb_le _ _)) by lia. ob. destruct (Hint x) as [Hxb Hxl]. apply Hcp; [done | by apply Hxl].
  - unfold le_prefix. rewrite (proj2 (Z.leb_le _ _)) by lia. ob. destruct (Hint x) as [Hxb Hxl]. apply Hcp; [done | by apply Hxl].
  - destruct (_ <? _); [by eexists | ]. destruct Hf as [Hd Hl]. by apply Hcp.
Qed.

Lemma encode_loop_ret fs vs : Forall2 fits fs vs -> forall i cur buf bm,
  0 <= cur -> cur + total_width fs <= zlen buf -> 0 <= i -> i + zlen fs <= 8 * zlen bm -> bytes_ok buf -> bytes_ok bm ->
  exists r, encode_loop i (zip (place cur fs).1 (zip fs vs)) buf bm = Ret r /\
    forall buf' bm', r = inl (buf', bm') -> zlen buf' = zlen buf /\ zlen bm' = zlen bm /\ bytes_ok buf' /\ bytes_ok bm'.
Proof.
  induction 1 as [ | f v fs vs Hf Hfs IH]; intros i cur buf bm Hcur Hw Hi Hm Hbuf Hbm.
  { eexists. split; [done | ]. by intros ? ? [= <- <-]. }
  rewrite place_fst. cbn [zip zip_with encode_loop]. rewrite zlen_cons in Hm. pose proof (zlen_nonneg fs).
  pose proof (width_nonneg _ (proj1 Hf)). rewrite total_width_cons in Hw by apply Hf.
  assert (0 <= total_width fs) by (unfold total_width; clear; induction fs; cbn; lia).
  destruct (encode_value_ret i cur f v buf bm Hf) as (r & -> & Hr); [lia | lia | lia | done | done | ]. ob.
  destruct r as [[buf1 bm1] | e]; [ | by eexists]. destruct (Hr _ _ eq_refl) as (Hl1 & Hl2 & Hb1 & Hb2).
  destruct (IH (i + 1) (cur + width (f_kind f)) buf1 bm1) as (r & -> & Hr2); [lia | lia | lia | lia | done | done | ].
  eexists. split; [done | ]. intros ? ? Heq. rewrite <- Hl1, <- Hl2. by apply Hr2.
Qed.

Lemma encode_ret ot vs : type_wf ot -> Forall2 fits (fields ot) vs ->
  exists r, encode ot vs = Ret r /\ forall x, r = inl x -> record_ok x.
Proof.
  intros Hwf Hv. pose proof (kinds_ok _ Hwf) as Hk. pose proof (tw_count _ Hwf) as Hmax. unfold MAX_FIELDS in Hmax.
  unfold encode. destruct (negb _); [by eexists | ]. rewrite compute_layout_eq by done. cbn [record_size offsets].
  pose proof (total_width_bound _ Hk) as Hb. pose proof (zlen_nonneg (fields ot)).
  assert (0 <= total_width (fields ot)) by (unfold total_width; clear; induction (fields ot); cbn; lia).
  change HEADER_BYTES with 14 in *. change (Z.to_nat NULL_BITMAP_BYTES) with 8%nat.
  set (size := next_pow2 _). assert (14 + total_width (fields ot) <= size <= 10000000) as Hsz.
  { split; [apply next_pow2_ge; lia | ]. unfold size, next_pow2. pose proof (next_pow2_loop_le 64 16 (14 + total_width (fields ot))). lia. }
  assert (zlen (replicate (Z.to_nat size) 0) = size) as Hz by (unfold zlen; rewrite length_replicate; lia).
  assert (bytes_ok (replicate (Z.to_nat size) 0)) as Hb0 by (apply Forall_replicate; unfold byte_ok; lia).
  destruct (copy_into_ret (replicate (Z.to_nat size) 0) 0 (le_bytes 4 (schema_ver ot))) as (b1 & H1c & Hl1); [lia | rewrite le_bytes_zlen; lia | ].
  rewrite H1c. ob. apply copy_into_bytes in H1c as Hb1; [ | done | apply le_bytes_ok].
  destruct (copy_into_ret b1 fc_off (le_bytes 2 (zlen (fields ot)))) as (b2 & H2c & Hl2);
    [done | rewrite le_bytes_zlen; change fc_off with 4; lia | ].
  rewrite H2c. ob. apply copy_into_bytes in H2c as Hb2; [ | done | apply le_bytes_ok].
  destruct (encode_loop_ret _ _ Hv 0 14 b2 (replicate 8 0)) as (r & -> & Hr); [lia | lia | lia | change (zlen (replicate 8 0)) with 8; lia | done | | ].
  { apply Forall_replicate. unfold byte_ok. lia. }
  ob. destruct r as [[b3 bm] | e]; [ | by eexists]. destruct (Hr _ _ eq_refl) as (Hl3 & Hlb & Hb3 & Hbm).
  change (zlen (replicate 8 0)) with 8 in Hlb.
  destruct (copy_into_ret b3 bitmap_off bm) as (b4 & H4c & Hl4); [done | change bitmap_off with 6; lia | ].
  rewrite H4c. ob. eexists. split; [done | ]. intros ? [= <-]. apply copy_into_bytes in H4c; [ | done | done]. split; [done | lia].
Qed.

Lemma set_fields_fits ot sets : type_wf ot -> Forall (fun s => bytes_ok s.2) sets -> forall vals, Forall2 fits (fields ot) vals ->
  exists r, set_fields ot sets vals = Ret r /\ forall vs, r = inl vs -> Forall2 fits (fields ot) vs.
Proof.
  intros Hwf. induction 1 as [ | [fid raw] sets Hraw Hs IH]; intros vals Hv; cbn [set_fields].
  { eexists. split; [done | ]. by intros ? [= <-]. }
  destruct (field_pos ot fid) as [[[i off] f] | ] eqn:Hp; [ | by eexists].
  assert (fields ot !! Z.to_nat i = Some f) as Hf.
  { unfold field_pos in Hp. destruct (field_index ot fid) as [j | ]; [ | done]. cbn in Hp. destruct (offsets _ !! _); [ | done]. cbn in Hp.
    destruct (fields ot !! _) eqn:Hf; [ | done]. by injection Hp as <- <- <-. }
  pose proof (field_pos_width _ _ _ _ _ Hwf Hp). pose proof (kinds_ok _ Hwf) as Hk. rewrite Forall_lookup in Hk.
  destruct (value_from_raw_fits f (norm raw (width (f_kind f)))) as (v & -> & Hfv);
    [by eapply Hk | apply norm_zlen; lia | by apply norm_bytes | ].
  ob. apply IH. rewrite <- (list_insert_id _ _ _ Hf). by apply Forall2_insert.
Qed.

Lemma update_set_record_ret db n t id sets :
  db_inv db n -> oid_ok id -> Forall (fun s => bytes_ok s.2) sets ->
  exists r, update_set_record db t id sets = Ret r /\ or_refused record_ok r.
Proof.
  intros Hi Hid Hs. unfold update_set_record. destruct (db_get db (make_key t id)) as [old | ] eqn:Hold; [ | by eexists].
  destruct (get_type db t) as [ot | ] eqn:Hot; [ | by eexists]. pose proof (get_type_wf _ _ _ _ Hi Hot) as Hwf.
  assert (bytes_ok old) as Ho by (eapply row_rec_ok; eauto). pose proof (kinds_ok _ Hwf) as Hk.
  assert (exists d, decode ot old = Ret d /\ forall vs, d = inl vs -> Forall2 fits (fields ot) vs) as (d & -> & Hd).
  { unfold decode. destruct (Z.ltb_spec (zlen old) HEADER_BYTES) as [ | Hl]; [by eexists | ].
    destruct (get_range old fc_off (fc_off + 2)) as [fc | ] eqn:Hfc.
    2: { unfold get_range in Hfc. change HEADER_BYTES with 14 in Hl. change fc_off with 4 in Hfc. dcase_in Hfc; zb; [done | lia]. }
    destruct (get_range old bitmap_off _) as [bm | ] eqn:Hbm.
    2: { unfold get_range in Hbm. change HEADER_BYTES with 14 in Hl. change bitmap_off with 6 in Hbm. change NULL_BITMAP_BYTES with 8 in Hbm. dcase_in Hbm; zb; [done | lia]. }
    ob. rewrite compute_layout_eq by done. by apply decode_loop_fits. }
  ob. destruct d as [vals | e]; [ | by eexists]. destruct (set_fields_fits ot sets Hwf Hs vals (Hd _ eq_refl)) as (s & -> & Hsv).
  ob. destruct s as [vals' | m]; [ | by eexists]. destruct (encode_ret ot vals' Hwf (Hsv _ eq_refl)) as (r & -> & Hr).
  ob. destruct r as [rec | e]; (eexists; split; [done | ]); [by apply Hr | done].
Qed.

Lemma guard_keeps op mutating (m : M (Db W) DbResult) db n Q :
  db_inv db n -> n <= op -> Q db ResOk -> preserves op m db Q -> preserves op (guard op mutating m) db Q.
Proof.
  intros Hi Hle Hq Hm. unfold guard. apply preserves_get. destruct (high_op _); [ | done].
  destruct (_ && _); [by eapply preserves_ret | done].
Qed.

(** What UpdateSet does to the rows: it stores the row with the fields given
    replaced, as Update does with a whole record. *)
Definition update_set_spec (t : Z) (id : bytes) (sets : list (Z * bytes)) db db' (r : DbResult) : Prop :=
  match r with
  | ResOk => exists record, update_set_record db t id sets = Ret (inl record) /\ update_spec t id record db db' ResOk
  | _ => rows_same db db'
  end.

(** The log entry is not one the engine has seen. *)
Definition fresh (op : Z) db : Prop := match high_op (db_storage db) with Some c => c < op | None => True end.

Lemma guard_fresh op mutating (m : M (Db W) DbResult) db : fresh op db -> guard op mutating m db = m db.
Proof.
  unfold fresh, guard. intros Hf. mstep (m_get_ret db). destruct (high_op _) as [c | ]; [ | done].
  rewrite (proj2 (Z.leb_gt _ _)) by lia. by rewrite andb_false_r.
Qed.

Lemma update_set_keeps op t id sets db n :
  db_inv db n -> n <= op -> u64_ok op -> oid_ok id -> Forall (fun s => bytes_ok s.2) sets ->
  preserves op (update_set op t id sets) db (fun db' r => fresh op db -> update_set_spec t id sets db db' r).
Proof.
  intros Hi Hle Hop Hid Hs. unfold update_set. apply preserves_get.
  destruct (update_set_record_ret db n t id sets Hi Hid Hs) as (r & Hrec & Hr). rewrite Hrec. apply preserves_lift.
  destruct r as [rec | e].
  2: { eapply preserves_ret; [done | done | ]. intros _. by destruct e. }
  destruct (update_row_keeps op t id rec db n Hi Hle Hop Hid Hr) as (db1 & r & Hm & Hi1 & Hc1 & Ht1 & Hq).
  unfold guard. apply preserves_get. destruct (high_op (db_storage db)) as [c | ] eqn:Hh; [destruct (Z.leb_spec op c) | ]; cbn.
  - eapply preserves_ret; [done | done | ]. unfold fresh. rewrite Hh. lia.
  - exists db1, r. split_and!; try done. intros _. destruct r; try done. by exists rec.
  - exists db1, r. split_and!; try done. intros _. destruct r; try done. by exists rec.
Qed.

(** ** Delete *)

Lemma try_each_ret {A B E} (P : B -> Prop) (f : A -> B -> outcome (B + E)) l : forall b,
  (forall x b, x ∈ l -> P b -> exists r, f x b = Ret r /\ forall b', r = inl b' -> P b') -> P b ->
  exists r, try_each f l b = Ret r /\ forall b', r = inl b' -> P b'.
Proof.
  induction l as [ | x l IH]; intros b Hf Hb; cbn [try_each]; [eexists; split; [done | by intros ? [= <-]] | ].
  destruct (Hf x b) as (r & -> & Hr); [left | done | ]. ob. destruct r as [b' | e]; [ | by eexists].
  apply IH; [intros; apply Hf; [by right | done] | by apply Hr].
Qed.

Lemma fold_left_inv {A B} (P : B -> Prop) (f : B -> A -> B) l : forall b,
  (forall x b, x ∈ l -> P b -> P (f b x)) -> P b -> P (fold_left f l b).
Proof.
  induction l as [ | x l IH]; intros b Hf Hb; [done | ]. cbn. apply IH; [ | apply Hf; [left | done]].
  intros; apply Hf; [by right | done].
Qed.

Definition target_ok db (d : Z * bytes) : Prop := is_Some (get_type db d.1) /\ oid_ok d.2.

Lemma get_type_is_Some db ct : ct ∈ types (db_catalog db) -> is_Some (get_type db (type_id ct)).
Proof.
  intros Hin. unfold get_type, catalog_get. destruct (list_find _ _) as [[i x] | ] eqn:Hf; [by eexists | ].
  apply list_find_None in Hf. rewrite Forall_forall in Hf. by destruct (Hf _ Hin).
Qed.

Lemma fk_edges_type db e : e ∈ fk_edges db -> e.1 ∈ types (db_catalog db).
Proof.
  unfold fk_edges. intros (ct & He & Hin)%list_elem_of_bind. apply list_elem_of_bind in He as (fk & He & _).
  by apply list_elem_of_singleton in He as ->.
Qed.

Lemma fk_edges_fk db e : e ∈ fk_edges db -> e.2 ∈ fks e.1.
Proof.
  unfold fk_edges. intros (ct & He & Hin)%list_elem_of_bind. apply list_elem_of_bind in He as (fk & He & Hfk).
  by apply list_elem_of_singleton in He as ->.
Qed.

Lemma lookup_ids_ok db n ct fid v o :
  db_inv db n -> ct ∈ types (db_catalog db) -> bytes_ok v -> o ∈ idx_lookup db (type_id ct) fid v -> oid_ok o.
Proof.
  intros Hi Hin Hv Ho. pose proof (iv_types _ _ Hi) as Hw. rewrite Forall_forall in Hw.
  eapply (idx_lookup_elem db n) in Ho; [by destruct Ho | apply Hi | apply (Hw _ Hin) | done].
Qed.

(** The walk ends: each visit but the last takes one from the budget. *)
Lemma cascade_collect_ret db n fuel : db_inv db n -> forall t id st,
  target_ok db (t, id) -> Forall (target_ok db) (closure st) -> 0 <= budget st < Z.of_nat fuel ->
  exists r, cascade_collect fuel db t id st = Ret r /\
    forall st', r = inl st' -> Forall (target_ok db) (closure st') /\ 0 <= budget st' <= budget st.
Proof.
  intros Hi. induction fuel as [ | fuel IH]; intros t id st Ht Hcl Hb; [lia | ]. cbn [cascade_collect].
  destruct (decide (_ ∈ visited st)); [eexists; split; [done | ]; intros ? [= <-]; split; [done | lia] | ].
  destruct (Z.eqb_spec (budget st) 0); [by eexists | ]. set (st1 := mkCascade _ _ _).
  destruct (try_each_ret (fun st' => Forall (target_ok db) (closure st') /\ 0 <= budget st' <= budget st - 1)
    (fun e st => let '(ct, (fid, rt, od)) := e in
        if negb (rt =? t) || (od =? 0) then Ret (inl st) else
        match children db ct fid id with
        | None => Ret (inl st)
        | Some ids =>
            if od =? 1 then
              (if bool_decide (ids = []) then Ret (inl st) else Ret (inr (RestrictViolated (type_id ct) fid t)))
            else if od =? 2 then try_each (fun cid st => cascade_collect fuel db (type_id ct) cid st) ids st
            else Ret (inl st)
        end) (fk_edges db) st1) as (r & -> & Hr).
  - intros [ct [[fid rt] od]] st2 He%fk_edges_type Hst2. cbn in He. assert (forall r : Cascade + Message, r = inl st2 \/ (exists m, r = inr m) ->
      exists r', @Ret (Cascade + Message) r = Ret r' /\ forall st', r' = inl st' -> Forall (target_ok db) (closure st') /\ 0 <= budget st' <= budget st - 1) as Hret.
    { intros r [-> | [m ->]]; (eexists; split; [done | ]); [by intros ? [= <-] | done]. }
    destruct (_ || _); [apply Hret; by left | ]. destruct (children db ct fid id) as [ids | ] eqn:Hch; [ | apply Hret; by left].
    destruct (od =? 1); [case_bool_decide; apply Hret; eauto | ]. destruct (od =? 2); [ | apply Hret; by left].
    apply try_each_ret; [ | done]. intros cid st3 Hcid [Hc3 Hb3].
    destruct (IH (type_id ct) cid st3) as (r & -> & Hr); [ | done | lia | ].
    + split; [by apply get_type_is_Some | ]. unfold children in Hch. destruct (field_pos ct fid) as [[[? ?] f] | ]; [ | done].
      injection Hch as <-. eapply lookup_ids_ok; [done | done | | done]. apply norm_bytes, Ht.
    + eexists. split; [done | ]. intros st' ->. destruct (Hr _ eq_refl). split; [done | lia].
  - cbn. split; [ | lia]. apply Forall_app. split; [done | ]. by apply Forall_singleton.
  - eexists. split; [done | ]. intros st' ->. destruct (Hr _ eq_refl). split; [done | lia].
Qed.

Lemma cascade_root_ret db n t id : db_inv db n -> target_ok db (t, id) ->
  exists r, cascade_root db t id = Ret r /\ forall st, r = inl st -> Forall (target_ok db) (closure st).
Proof.
  intros Hi Ht. destruct (cascade_collect_ret db n (S (S (Z.to_nat CASCADE_BUDGET))) Hi t id (mkCascade [] ∅ CASCADE_BUDGET))
    as (r & Hr & Hst); [done | constructor | cbn [budget]; unfold CASCADE_BUDGET; lia | ].
  exists r. split; [done | ]. intros st ->. by apply Hst.
Qed.

Record sn_ok db (s : SetNull) : Prop := {
  sno_type : is_Some (get_type db (sn_type s));
  sno_id : oid_ok (sn_id s);
  sno_pos : 0 <= sn_idx s /\ 0 <= sn_off s /\ 0 <= sn_width s;
  sno_default d : sn_default s = Some d -> bytes_ok d;
}.

Lemma sn_ok_same db db' l : db_catalog db' = db_catalog db -> Forall (sn_ok db) l -> Forall (sn_ok db') l.
Proof.
  intros Hc Hl. eapply Forall_impl; [exact Hl | ]. intros s [? ? ? ?]. constructor; [by rewrite (get_type_same db) | done..].
Qed.

Lemma target_ok_same db db' l : db_catalog db' = db_catalog db -> Forall (target_ok db) l -> Forall (target_ok db') l.
Proof. intros Hc Hl. eapply Forall_impl; [exact Hl | ]. intros d [? ?]. split; [by rewrite (get_type_same db) | done]. Qed.

Lemma field_pos_index ot fid i off f : field_pos ot fid = Some (i, off, f) -> 0 <= i.
Proof.
  unfold field_pos. destruct (field_index ot fid) as [j | ] eqn:Hj; [ | done]. cbn. destruct (offsets _ !! _); [ | done]. cbn.
  destruct (fields ot !! _); [ | done]. cbn. intros [= <- <- <-]. apply position_of_bound in Hj. lia.
Qed.

Lemma set_null_edge_ok db n cl did e acc :
  db_inv db n -> e ∈ fk_edges db -> oid_ok did -> Forall (sn_ok db) acc -> Forall (sn_ok db) (set_null_edge db cl did e acc).
Proof.
  intros Hi He%fk_edges_type Hd Hacc. destruct e as [ct [[fid rt] od]]. cbn in He. unfold set_null_edge.
  destruct (field_pos ct fid) as [[[fi off] f] | ] eqn:Hp; [ | done].
  pose proof (iv_types _ _ Hi) as Hws. rewrite Forall_forall in Hws. pose proof (Hws _ He) as Hwf.
  apply fold_left_inv; [ | done]. intros cid acc' Hcid Hacc'. destruct (decide _); [done | ]. destruct (existsb _ _); [done | ].
  apply Forall_app. split; [done | ]. apply Forall_singleton. constructor; cbn.
  - by apply get_type_is_Some.
  - eapply lookup_ids_ok; [done | done | | done]. apply norm_bytes, Hd.
  - split_and!; [by eapply field_pos_index | by eapply field_pos_offset | by eapply field_pos_width].
  - destruct (od =? 4); [ | done]. destruct (List.find _ _) as [d | ] eqn:Hf; [ | done]. intros ? [= <-].
    apply norm_bytes. apply find_some in Hf as [Hf _]. pose proof (tw_defaults _ Hwf) as Hdf. rewrite List.Forall_forall in Hdf.
    by apply Hdf.
Qed.

Lemma collect_set_null_ok db n cl : db_inv db n -> Forall (target_ok db) cl -> Forall (sn_ok db) (collect_set_null db cl).
Proof.
  intros Hi Hcl. rewrite Forall_forall in Hcl. unfold collect_set_null. apply fold_left_inv; [ | constructor]. intros d acc Hd Hacc.
  apply fold_left_inv; [ | done]. intros [ct [[fid rt] od]] acc' He Hacc'. destruct (_ && _); [ | done].
  eapply set_null_edge_ok; [done | done | by apply Hcl | done].
Qed.

Lemma nulled_record_ok db s old : sn_ok db s -> record_ok old -> record_ok (nulled_record db s old).
Proof.
  intros [_ _ (Hidx & Hoff & Hw) Hdef] [Hb Hl]. unfold nulled_record.
  assert (forall b, bytes_ok b -> zlen b = sn_width s ->
    record_ok (if zlen old <? sn_off s + sn_width s then old else splice old (sn_off s) b)) as Hsp.
  { intros b Hbb Hbl. destruct (Z.ltb_spec (zlen old) (sn_off s + sn_width s)); [done | ].
    split; [by apply splice_bytes_ok | ]. rewrite splice_len; [done | done | lia]. }
  destruct (sn_default s) as [d | ] eqn:Hsd; [apply Hsp; [by apply norm_bytes, Hdef | by apply norm_zlen] | ].
  assert (record_ok (if zlen old <? sn_off s + sn_width s then old
                     else splice old (sn_off s) (replicate (Z.to_nat (sn_width s)) 0))) as [Hnb Hnl].
  { apply Hsp; [apply Forall_replicate; unfold byte_ok; lia | unfold zlen; rewrite length_replicate; lia]. }
  set (new := if zlen old <? _ then old else splice _ _ _) in *. destruct (get_type db (sn_type s)) as [ot | ]; [ | done].
  destruct (row_is_codec ot new); [ | done]. unfold get_at. destruct (_ && _); [ | done].
  destruct (new !! Z.to_nat (bit_at (sn_idx s))) as [x | ] eqn:Hx; [ | done].
  split; [ | unfold zlen; by rewrite length_insert]. apply Forall_insert; [done | ].
  apply byte_lor; [ | by apply bit_byte]. unfold bytes_ok in Hnb. rewrite Forall_lookup in Hnb. by eapply Hnb.
Qed.

Lemma row_record_ok db n t ot obj r :
  db_inv db n -> get_type db t = Some ot -> oid_ok obj -> db_get db (make_key t obj) = Some r -> record_ok r.
Proof.
  intros Hi Hot Ho Hr. pose proof (get_type_wf _ _ _ _ Hi Hot) as Hwf. pose proof (tw_id _ Hwf) as Hs.
  destruct (get_type_elem _ _ _ Hot) as [_ Hid]. rewrite Hid in Hs.
  eapply (at_values _ _ (iv_at _ _ Hi)); [by apply row_key_ok | done].
Qed.

Lemma idx_maintain_does op t ot obj old new db n db' :
  db_inv db n -> db_at db' op -> db_catalog db' = db_catalog db -> u64_ok op -> get_type db t = Some ot -> oid_ok obj ->
  rec_ok old -> rec_ok new -> does op (idx_maintain op t obj old new) db' tt (index_writes t ot obj old new).
Proof.
  intros Hi Ha Hc Hop Hot Ho Hold Hnew. destruct (get_type_elem _ _ _ Hot) as [_ Hid].
  apply idx_maintain_spec; try done; [by rewrite (get_type_same db) | by eapply get_type_wf].
Qed.

(** The row after the fields that [l] names in it were reset. *)
Definition null_row db (l : list SetNull) (t : Z) (o : bytes) (r : Slot) : Slot :=
  fold_left (fun r s => if decide (sn_type s = t /\ sn_id s = o) then nulled_record db s <$> r else r) l r.

Lemma nulled_record_same db db' s r : db_catalog db' = db_catalog db -> nulled_record db' s r = nulled_record db s r.
Proof. intros Hc. unfold nulled_record. by rewrite (get_type_same db). Qed.

Lemma null_row_same db db' l t o : db_catalog db' = db_catalog db -> forall r, null_row db' l t o r = null_row db l t o r.
Proof.
  intros Hc. unfold null_row. induction l as [ | s l IH]; intros r; [done | ]. cbn. rewrite IH. f_equal. case_decide; [ | done].
  destruct r; [cbn; by rewrite (nulled_record_same db) | done].
Qed.

Lemma null_row_none db l t o : null_row db l t o None = None.
Proof. unfold null_row. induction l as [ | s l IH]; [done | ]. cbn. by case_decide. Qed.

Lemma null_children_keeps op own l : forall db, db_inv db op -> u64_ok op -> Forall (sn_ok db) l ->
  preserves op (null_children op own l) db (fun db' r => r = inl tt /\
    forall t o, small_type t -> oid_ok o -> db_get db' (make_key t o) = null_row db l t o (db_get db (make_key t o))).
Proof.
  induction l as [ | s l IH]; intros db Hi Hop Hl; [by eapply preserves_ret | ]. cbn [null_children]. apply preserves_get.
  apply Forall_cons in Hl as [Hs Hl]. destruct (sno_type _ _ Hs) as [ot Hot]. destruct (db_get db _) as [old | ] eqn:Hold.
  2: { eapply preserves_impl; [by apply IH | ]. intros db' r [-> Hrows]. split; [done | ]. intros t o Ht Ho. rewrite Hrows by done.
       cbn. case_decide as E; [ | done]. destruct E as [<- <-]. by rewrite Hold. }
  assert (record_ok old) as Hro by (eapply row_record_ok; eauto using sno_id).
  pose proof (nulled_record_ok _ _ _ Hs Hro) as Hrn.
  eapply (write_row_keeps op (sn_type s) ot (sn_id s) (Some (nulled_record db s old))); try done.
  - apply Hs.
  - by apply record_slot_ok.
  - apply invalidate_follows.
  - intros db' Ha Hc. rewrite Hold. eapply idx_maintain_does; try done; [apply Hs | by apply record_rec_ok..].
  - intros db1 Hi1 Hc1 Hset. eapply preserves_impl; [apply IH; [done | done | by eapply sn_ok_same] | ]. intros db' r [-> Hrows].
    split; [done | ]. intros t o Ht Ho. rewrite Hrows, Hset, (null_row_same db) by done. cbn. rewrite (decide_ext _ (sn_type s = t /\ sn_id s = o)) by (split; by intros [-> ->]).
    case_decide as E; [ | done]. destruct E as [<- <-]. by rewrite Hold.
Qed.

Lemma delete_closure_keeps op own l : forall db, db_inv db op -> u64_ok op -> Forall (target_ok db) l ->
  preserves op (delete_closure op own l) db (fun db' r => r = inl tt /\
    forall t o, small_type t -> oid_ok o ->
      db_get db' (make_key t o) = if decide ((t, o) ∈ l) then None else db_get db (make_key t o)).
Proof.
  induction l as [ | [t oid] l IH]; intros db Hi Hop Hl; [by eapply preserves_ret | ]. cbn [delete_closure]. apply preserves_get.
  apply Forall_cons in Hl as [[[ot Hot] Ho] Hl]. cbn in Hot, Ho.
  eapply (write_row_keeps op t ot oid None); try done.
  - apply invalidate_follows.
  - intros db' Ha Hc. eapply idx_maintain_does; try done. by eapply row_rec_ok.
  - intros db1 Hi1 Hc1 Hset. eapply preserves_bind; [eapply quiet_preserves, reclaim_quiet; [done | apply Hi1 | done] | ].
    intros db2 [] Hi2 Hc2 [Hsame _]. eapply preserves_impl; [apply IH; [done | done | ] | ].
    { eapply target_ok_same; [ | done]. congruence. }
    intros db' r [-> Hrows]. split; [done | ]. intros t' o Ht' Ho'. rewrite Hrows, (row_set_same _ _ _ _ _ _ Hset Hsame) by done.
    destruct (decide ((t', o) ∈ l)) as [Hin | Hin]; [by rewrite decide_True by (by apply list_elem_of_further) | ].
    destruct (decide (t' = t /\ o = oid)) as [[-> ->] | Hne]; [by rewrite decide_True by apply list_elem_of_here | ].
    rewrite decide_False; [done | ]. intros [[= -> ->] | ?]%elem_of_cons; [by apply Hne | done].
Qed.

(** A change of the storage that keeps what is stored keeps the invariant. *)
Lemma same_view_inv db db' n :
  db_inv db n -> kv_ok (db_storage db') n -> view (db_storage db') = view (db_storage db) ->
  db_catalog db' = db_catalog db -> db_cache db' = db_cache db -> db_inv db' n /\ rows_same db db'.
Proof.
  intros Hi Hs Hv Hc Hx. assert (forall k, key_ok k -> db_get db' k = db_get db k) as Hg.
  { intros k Hk. eapply get_same_view; [apply Hi | done | done | done]. }
  assert (rows_same db db') as Hr by (intros t o Ht Ho; by apply Hg, row_key_ok).
  split; [ | done]. constructor; [ | rewrite Hc; apply Hi.. | | by eapply cache_ok_same; [ | | apply Hi]].
  - constructor; [done | ]. intros k Hk. rewrite Hg by done. by apply (at_values _ _ (iv_at _ _ Hi)).
  - intros t fid v o Ht Hfid Ho Hb Hl. rewrite (get_type_same db) by done.
    rewrite !Hg by (apply entry_key_ok || apply row_key_ok; done || lia). by apply (iv_index _ _ Hi).
Qed.

Lemma commit_keeps {B} op (kerr : io_error -> M (Db W) B) (b : B) db :
  db_inv db op ->
  exists db', (r ← db_commit_txn; match r with inr e => kerr e | inl _ => mret b end) db = (db', Ret b) /\
    db_inv db' op /\ db_catalog db' = db_catalog db /\ in_txn (db_storage db') = false /\ rows_same db db'.
Proof.
  intros Hi. destruct (kv_commit_txn _ _ (at_store _ _ (iv_at _ _ Hi))) as (s' & Hc & Hs' & Htx & Hv).
  destruct (same_view_inv db (set_db_storage s' db) op) as [Hi' Hr]; [done.. | ].
  exists (set_db_storage s' db). split_and!; [ | done | done | unfold in_txn; cbn; by rewrite Htx | done].
  rewrite (M_bind_ret _ _ _ (set_db_storage s' db) (inl tt)); [done | ].
  unfold db_commit_txn, on_sm, on_storage_result. unfold db_storage in Hc. by rewrite Hc.
Qed.

Lemma begin_inv db n : db_inv db n -> in_txn (db_storage db) = false ->
  db_inv (set_db_storage (begin_txn (db_storage db)) db) n /\ rows_same db (set_db_storage (begin_txn (db_storage db)) db).
Proof.
  intros Hi Htx. destruct (kv_begin (db_storage db) n) as [Hs Hv]; [apply Hi | | by eapply same_view_inv].
  unfold in_txn in Htx. by destruct (txn _).
Qed.

(** The rows after the two loops of Delete. *)
Definition rows_deleted db db' (sn : list SetNull) (cl : list (Z * bytes)) : Prop :=
  forall t o, small_type t -> oid_ok o ->
    db_get db' (make_key t o) = if decide ((t, o) ∈ cl) then None else null_row db sn t o (db_get db (make_key t o)).

Lemma delete_loops_keeps op own sn cl db :
  db_inv db op -> u64_ok op -> Forall (sn_ok db) sn -> Forall (target_ok db) cl ->
  exists db1 db2, null_children op own sn db = (db1, Ret (inl tt)) /\ delete_closure op own cl db1 = (db2, Ret (inl tt)) /\
    db_inv db2 op /\ db_catalog db2 = db_catalog db /\ in_txn (db_storage db2) = in_txn (db_storage db) /\ rows_deleted db db2 sn cl.
Proof.
  intros Hi Hop Hsn Hcl. destruct (null_children_keeps op own sn db Hi Hop Hsn) as (db1 & ? & Hm1 & Hi1 & Hc1 & Ht1 & -> & Hr1).
  destruct (delete_closure_keeps op own cl db1 Hi1 Hop) as (db2 & ? & Hm2 & Hi2 & Hc2 & Ht2 & -> & Hr2);
    [by eapply target_ok_same | ].
  exists db1, db2. split_and!; try done; [congruence | congruence | ]. intros t o Ht Ho. by rewrite Hr2, Hr1.
Qed.

(** What Delete does to the rows: those of the cascade are gone, the fields
    that referred to them are reset, and the others are as they were. *)
Definition delete_spec (t : Z) (id : bytes) db db' (r : DbResult) : Prop :=
  match r with
  | ResOk => is_Some (db_get db (make_key t id)) /\ exists st, cascade_root db t id = Ret (inl st) /\
      rows_deleted db db' (collect_set_null db (closure st)) (closure st)
  | _ => rows_same db db'
  end.

Lemma delete_row_keeps op t id db n :
  db_inv db n -> n <= op -> u64_ok op -> target_ok db (t, id) ->
  preserves op (delete_row op t id) db (delete_spec t id db).
Proof.
  intros Hi Hle Hop Ht. unfold delete_row. apply preserves_get. destruct (db_get db _) eqn:Hrow; [ | by eapply preserves_ret].
  destruct (cascade_root_ret db n t id Hi Ht) as (r & Hroot & Hcl). rewrite Hroot. apply preserves_lift.
  destruct r as [st | e]; [ | by eapply preserves_ret]. specialize (Hcl _ eq_refl).
  pose proof (collect_set_null_ok db n _ Hi Hcl) as Hsn. pose proof (inv_mono _ _ _ Hi Hle) as Hio.
  destruct (in_txn (db_storage db)) eqn:Htx; cbn [negb].
  - destruct (delete_loops_keeps op false _ _ db Hio Hop Hsn Hcl) as (db1 & db2 & Hm1 & Hm2 & Hi2 & Hc2 & Ht2 & Hr2).
    exists db2, ResOk. split_and!; try done; [ | split; [by rewrite Hrow | by exists st]].
    rewrite (M_bind_ret _ _ _ db tt) by done. mstep Hm1. cbv beta iota. mstep Hm2. done.
  - set (db0 := set_db_storage (begin_txn (db_storage db)) db). destruct (begin_inv _ _ Hio Htx) as [Hi0 Hr0].
    destruct (delete_loops_keeps op true _ _ db0 Hi0 Hop (sn_ok_same db db0 _ eq_refl Hsn) Hcl) as (db1 & db2 & Hm1 & Hm2 & Hi2 & Hc2 & Ht2 & Hr2).
    destruct (commit_keeps op (fun e => mret (ResSchemaError (Store "txn commit" e))) ResOk db2 Hi2) as (db3 & Hm3 & Hi3 & Hc3 & Ht3 & Hr3).
    exists db3, ResOk. split_and!; try done; [ | by rewrite Hc3, Hc2 | by rewrite Ht3, Htx | split; [by rewrite Hrow | exists st; split; [done | ]]].
    + rewrite (M_bind_ret _ _ _ db0 tt) by done. mstep Hm1. cbv beta iota. mstep Hm2. exact Hm3.
    + intros t' o Ht' Ho'. rewrite Hr3, Hr2, Hr0, (null_row_same db db0) by done. done.
Qed.
End Arms.
