(* ===== verification/RowIndex.v ===== *)
(** kessel-sm: what the indexes answer.

    Building an index over the rows that exist, and the lookups that read the
    indexes: with the invariant of [RowsSpec], a lookup returns exactly the rows
    that hold the value.

    Source: src/crates/kessel-sm/src/lib.rs. *)

From Stdlib Require Import ZArith Lia Sorting.Sorted.
From stdpp Require Import base numbers list gmap sorting.
From S2P Require Import Prelude BTree Proto Vfs Wal SsTable Storage View Recovery Crash Mvcc MvccSpec Engine Ssi Tx Sm SmSpec.
From S2P Require Import Catalog Codec Expr ExprSpec Cache Rows RowApply RowStore RowsSpec RowOps.

#[local] Open Scope Z_scope.

Section Build.
Context {W : Type} `{VfsLaws W}.
Implicit Types db : Db W.

Lemma catalog_aux : aux_key catalog_key /\ key_ok catalog_key.
Proof.
  assert (key_type catalog_key = 0) as Ht by (apply key_type_app; unfold u32_ok, u32_max; lia).
  split; [by left | ]. split_and!; [ | done | right; by left].
  unfold catalog_key, make_key. apply bytes_ok_app. split; [apply le_bytes_ok | apply Forall_replicate; unfold byte_ok; lia].
Qed.

Lemma persist_catalog_does op db :
  db_at db op -> u64_ok op -> record_ok (catalog_encode (db_catalog db)) ->
  does op (persist_catalog op) db ResOk {[ catalog_key := Some (catalog_encode (db_catalog db)) ]}.
Proof.
  intros Ha Hop Hc. destruct catalog_aux as [_ Hk].
  destruct (db_put_spec op catalog_key (catalog_encode (db_catalog db)) db op Ha) as (db1 & Hm & He); [done | done | done | by apply record_slot_ok | ].
  exists (set_epoch (wrap64 (catalog_epoch db1 + 1)) db1). split.
  - unfold persist_catalog. mstep (m_get_ret db). mstep Hm. done.
  - destruct He as [[Hs Hv] Hc1 Ht Hx Hg]. constructor; [by constructor | done..].
Qed.

(** The rows of a type are the rows a read finds. *)
Lemma type_rows_elem db n t k r :
  kv_ok (db_storage db) n -> small_type t ->
  (k, r) ∈ type_rows db t <-> exists o, oid_ok o /\ k = make_key t o /\ db_get db k = Some r.
Proof.
  intros Hs Ht%small_user. destruct (kv_ok_reads _ _ Hs) as [Hwf Hk]. unfold type_rows, scan_range.
  assert (forall b, byte_ok b -> oid_ok (replicate 16 b)) as Hrep by (intros; split; [done | by apply Forall_replicate]).
  rewrite !data_row_dispatch_key by (done || apply Hrep; unfold byte_ok; lia). rewrite Z.eqb_refl, scan_range_rows_elem by done.
  split; [by intros (_ & _ & Hx) | ]. intros (o & Ho & -> & Hg). split_and!; [ | | by exists o].
  all: destruct (bytes_between 16 o (proj2 Ho) (proj1 Ho)); unfold kle, make_key; cbn [kcmp list_OrdKey]; by rewrite list_cmp_app.
Qed.

Lemma row_id_key t o : oid_ok o -> row_id (make_key t o) = o.
Proof.
  intros [Ho _]. unfold row_id, make_key. rewrite drop_app_length' by (by rewrite le_bytes_length). by apply take_ge; rewrite Ho.
Qed.

(** ** A type with one more index *)

Lemma update_first_ids t f ts : (forall x, type_id (f x) = type_id x) -> type_id <$> update_first t f ts = type_id <$> ts.
Proof.
  intros Hf. induction ts as [ | x ts IH]; [done | ]. cbn. destruct (type_id x =? t); cbn; [by rewrite Hf | by rewrite IH].
Qed.

Lemma update_first_elem t f ts x : NoDup (type_id <$> ts) ->
  x ∈ update_first t f ts -> (exists y, y ∈ ts /\ type_id y = t /\ x = f y) \/ x ∈ ts /\ type_id x <> t.
Proof.
  induction ts as [ | y ts IH]; cbn; [by intros _ ?%elem_of_nil | ]. intros [Hn Hnd]%NoDup_cons.
  destruct (Z.eqb_spec (type_id y) t) as [<- | Hne]; rewrite elem_of_cons; intros [-> | Hx].
  - left. exists y. split_and!; [left | done..].
  - right. split; [by right | ]. intros E. apply Hn. rewrite <- E. by apply list_elem_of_fmap_2.
  - right. split; [left | done].
  - destruct (IH Hnd Hx) as [(z & ? & ? & ?) | [? ?]]; [left; exists z; split_and!; [by right | done..] | right; split; [by right | done]].
Qed.

Lemma push_index_width fid ot fs : composite_width (push_index fid ot) fs = composite_width ot fs.
Proof. induction fs as [ | f fs IH]; [done | ]. cbn [composite_width]. by rewrite IH. Qed.

Lemma push_index_concat fid ot fs rec : composite_concat (push_index fid ot) fs rec = composite_concat ot fs rec.
Proof. induction fs as [ | f fs IH]; [done | ]. cbn [composite_concat]. by rewrite IH. Qed.

Lemma push_index_wf fid ot : type_wf ot -> 0 <= fid < 0xC000 -> type_wf (push_index fid ot).
Proof.
  intros Hw Hf. constructor; try by apply Hw.
  - eapply Forall_impl; [exact (tw_triggers _ Hw) | ]. intros p [Hb Hs]. split; [done | by apply (safe_program_ext ot)].
  - eapply Forall_impl; [exact (tw_checks _ Hw) | ]. intros p. by apply (safe_program_ext ot).
  - cbn. apply Forall_app. split; [apply Hw | by apply Forall_singleton].
  - eapply Forall_impl; [exact (tw_composite _ Hw) | ]. intros fs. by rewrite push_index_width.
Qed.

(** The other indexes have the values they had. *)
Lemma push_index_value fid ot fid' r : fid' <> fid -> index_value (push_index fid ot) fid' r = index_value ot fid' r.
Proof.
  intros Hne. unfold index_value. destruct (fid' <? 0xC000).
  - cbn [push_index indexes]. erewrite bool_decide_ext; [done | ]. rewrite elem_of_app, list_elem_of_singleton. tauto.
  - cbn [push_index composite]. destruct (composite ot !! _) as [fs | ]; [ | done]. cbn. case_bool_decide; [done | ].
    destruct r; [apply push_index_concat | done].
Qed.

(** ** The entries of the rows that exist *)

Definition backfill_writes (t fid off w : Z) (kr : Key * bytes) : gmap Key Slot :=
  match slot_of kr.2 off w with Some v => {[ idx_entry_key t fid v (row_id kr.1) := Some [] ]} | None => ∅ end.

Lemma backfill_does op t fid off w db :
  db_at db op -> u64_ok op -> small_type t -> 0 <= w <= 60000 ->
  does op (backfill op t fid off w) db tt (loop_writes (backfill_writes t fid off w) (type_rows db t)).
Proof.
  intros Ha Hop Ht Hw. unfold backfill. apply does_get. apply for_each_spec; [ | done].
  intros [k r] (o & Ho & -> & Hr)%(type_rows_elem db op) db0 Ha0; [ | apply Ha | done].
  unfold backfill_writes. cbn [fst snd]. rewrite row_id_key by done.
  destruct (slot_of r off w) as [v | ] eqn:Hv; [ | by eapply does_ret].
  eapply idx_add_spec; try done. intros ? [= <-].
  assert (bytes_ok r) as Hb by (eapply (at_values _ _ Ha); [by apply row_key_ok | done]).
  apply slot_of_ok in Hv as [? ->]; [ | done]. split; [done | lia].
Qed.

Lemma backfill_one t fid off w kr k s : backfill_writes t fid off w kr !! k = Some s -> s = Some [].
Proof. unfold backfill_writes. destruct (slot_of _ _ _); [ | done]. by intros [_ <-]%lookup_singleton_Some. Qed.

(** A loop that only sets keys. *)
Lemma loop_sets {A} (d : A -> gmap Key Slot) (l : list A) k s0 :
  (forall x s, d x !! k = Some s -> s = Some []) ->
  is_Some (overwrite (loop_writes d l) k s0) <-> is_Some s0 \/ exists x, x ∈ l /\ is_Some (d x !! k).
Proof.
  intros Hd. assert (forall l, match loop_writes d l !! k with
    | Some s => s = Some [] /\ exists x, x ∈ l /\ is_Some (d x !! k)
    | None => forall x, x ∈ l -> d x !! k = None end) as Hl.
  { clear l. induction l as [ | x l IH]; [cbn; rewrite lookup_empty; by intros x ?%elem_of_nil | ]. cbn [loop_writes foldr]. change (foldr _ ∅ l) with (loop_writes d l).
    rewrite lookup_union. destruct (loop_writes d l !! k) as [s | ].
    - destruct IH as [-> (y & ? & ?)]. destruct (d x !! k); cbn; (split; [done | exists y; split; [by right | done]]).
    - rewrite (left_id_L None _). destruct (d x !! k) as [s | ] eqn:Hx.
      + split; [by eapply Hd | ]. exists x. split; [left | by eexists].
      + intros y [-> | Hy]%elem_of_cons; [done | by apply IH]. }
  unfold overwrite. specialize (Hl l). destruct (loop_writes d l !! k) as [s | ]; cbn.
  - destruct Hl as [-> Hx]. split; [by right | by eexists].
  - split; [by left | ]. intros [? | (x & Hx & [s Hs])]; [done | ]. by rewrite Hl in Hs.
Qed.

Lemma backfill_entry t fid off w db n fid' v o t' :
  kv_ok (db_storage db) n -> small_type t -> small_type t' -> u16_ok fid -> u16_ok fid' -> oid_ok o ->
  (exists kr, kr ∈ type_rows db t /\ is_Some (backfill_writes t fid off w kr !! idx_entry_key t' fid' v o)) <->
  t' = t /\ fid' = fid /\ (r ← db_get db (make_key t o); slot_of r off w) = Some v.
Proof.
  intros Hs Ht Ht' Hf Hf' Ho. split.
  - intros ([k r] & (o' & Ho' & -> & Hr)%(type_rows_elem db n) & [s Hx]); [ | done | done]. unfold backfill_writes in Hx. cbn [fst snd] in Hx.
    rewrite row_id_key in Hx by done. destruct (slot_of r off w) as [v' | ] eqn:Hv; [ | done].
    apply lookup_singleton_Some in Hx as [E _]. apply entry_key_inj in E as (-> & -> & -> & ->); try done. by rewrite Hr.
  - intros (-> & -> & Hv). destruct (db_get db (make_key t o)) as [r | ] eqn:Hr; [ | done]. cbn in Hv.
    exists (make_key t o, r). split; [apply (type_rows_elem db n); [done | done | by exists o] | ].
    unfold backfill_writes. cbn [fst snd]. by rewrite Hv, row_id_key, lookup_singleton_eq by done.
Qed.

Lemma push_index_own fid ot off w r :
  0 <= fid < 0xC000 -> idx_field_pos ot fid = Some (off, w) ->
  index_value (push_index fid ot) fid r = (rec ← r; slot_of rec off w).
Proof.
  intros Hf Hp. unfold index_value. rewrite (proj2 (Z.ltb_lt _ _)) by lia. cbn [push_index indexes].
  rewrite bool_decide_eq_true_2 by (apply elem_of_app; right; by left). change (idx_field_pos (push_index fid ot) fid) with (idx_field_pos ot fid). by rewrite Hp.
Qed.

(** The row keys are not written by the backfill. *)
Lemma backfill_rows t fid off w (l : list (Key * bytes)) t' o s :
  small_type t -> small_type t' -> overwrite (loop_writes (backfill_writes t fid off w) l) (make_key t' o) s = s.
Proof.
  intros Ht Ht'. unfold overwrite. rewrite loop_writes_None; [done | ]. intros kr _. unfold backfill_writes. destruct (slot_of _ _ _); [ | done].
  rewrite lookup_singleton_ne; [done | ]. apply not_eq_sym, row_not_entry; [by apply small_user | done].
Qed.

Lemma get_type_update db t f ot :
  get_type db t = Some ot -> (forall x, type_id (f x) = type_id x) ->
  get_type (set_catalog (catalog_update t f (db_catalog db)) db) t = Some (f ot).
Proof.
  unfold get_type, catalog_get. cbn. intros Hg Hf. induction (types (db_catalog db)) as [ | x ts IH]; [done | ]. cbn in *.
  destruct (Z.eqb_spec (type_id x) t) as [Hx | Hne]; cbn.
  - rewrite decide_True in Hg by done. rewrite decide_True by (by rewrite Hf). cbn in *. by simplify_eq.
  - rewrite decide_False in Hg |- * by done. destruct (list_find _ ts) as [[i y] | ]; [ | done]. cbn in Hg. specialize (IH Hg).
    by destruct (list_find _ (update_first _ _ _)) as [[j z] | ].
Qed.

Lemma get_type_update_ne db t f t' :
  t' <> t -> (forall x, type_id (f x) = type_id x) ->
  get_type (set_catalog (catalog_update t f (db_catalog db)) db) t' = get_type db t'.
Proof.
  intros Hne Hf. unfold get_type, catalog_get. cbn. induction (types (db_catalog db)) as [ | x ts IH]; [done | ]. cbn in *.
  destruct (Z.eqb_spec (type_id x) t) as [Hx | Hx]; cbn.
  - rewrite !decide_False by (rewrite ?Hf; congruence). done.
  - case_decide; [done | ]. destruct (list_find _ ts) as [[i y] | ], (list_find _ (update_first _ _ _)) as [[j z] | ]; done.
Qed.

(** Where the type gets the index and the existing rows their entries. *)
Lemma create_index_ok db dbA dbB dbC n op t ot fid off w d :
  db_inv db n -> dbA = set_catalog (catalog_update t (push_index fid) (db_catalog db)) db ->
  get_type db t = Some ot -> small_type t -> 0 <= fid < 0xC000 -> fid ∉ indexes ot -> idx_field_pos ot fid = Some (off, w) ->
  kv_ok (db_storage dbB) op -> (forall o, oid_ok o -> db_get dbB (make_key t o) = db_get db (make_key t o)) ->
  (forall k, is_Some (d !! k) -> aux_key k) ->
  effect op dbA dbC (loop_writes (backfill_writes t fid off w) (type_rows dbB t) ∪ d) -> index_ok dbC.
Proof.
  intros Hi -> Hot Hs Hf Hnin Hp HsB HrB Hd He. assert (u16_ok fid) as Hfu by (unfold u16_ok, u16_max; lia).
  intros t' fid' v o Ht' Hf' Ho Hv Hl. rewrite (get_type_same (set_catalog _ db)) by apply He.
  assert (forall k, key_ok k -> ~ aux_key k -> db_get dbC k =
    overwrite (loop_writes (backfill_writes t fid off w) (type_rows dbB t)) k (db_get db k)) as Hget.
  { intros k Hk Hx. rewrite (ef_get _ _ _ _ He) by done. unfold overwrite. rewrite lookup_union.
    destruct (d !! k) eqn:E; [by destruct Hx; apply Hd | ]. by rewrite (right_id_L None _). }
  assert (~ aux_key (make_key t' o)) as Hr1 by (intros Hx; by apply (aux_not_row _ t' o Hx (small_user _ Ht'))).
  assert (~ aux_key (idx_entry_key t' fid' v o)) as Hr2 by (intros Hx; by apply (aux_not_entry _ t' fid' v o Hx Ht')).
  rewrite !Hget by first [done | by apply row_key_ok | by apply entry_key_ok].
  rewrite loop_sets by (intros; by eapply backfill_one). rewrite (backfill_entry t fid off w dbB op), HrB, backfill_rows by done.
  rewrite (iv_index _ _ Hi t' fid' v o) by done. destruct (decide (t' = t)) as [-> | Hne].
  2: { rewrite get_type_update_ne by done. tauto. }
  rewrite (get_type_update _ _ _ ot), Hot by done. cbn [mbind option_bind].
  destruct (decide (fid' = fid)) as [-> | Hne]; [ | rewrite push_index_value by done; tauto].
  rewrite (push_index_own _ _ off w) by done.
  assert (index_value ot fid (db_get db (make_key t o)) = None) as ->.
  { unfold index_value. rewrite (proj2 (Z.ltb_lt _ _)) by lia. by rewrite bool_decide_eq_false_2. }
  split; [intros [? | (_ & _ & ?)]; done | by right].
Qed.

Lemma existsb_field ot fid : existsb (fun f => field_id f =? fid) (fields ot) = true -> type_wf ot -> 0 <= fid < 0xC000.
Proof.
  intros (f & Hin & <-%Z.eqb_eq)%existsb_exists Hwf. pose proof (tw_field_ids _ Hwf) as Hf. rewrite List.Forall_forall in Hf. by apply Hf.
Qed.

(** CreateIndex returns, keeps the invariant and every row, and unless it is
    refused the type has the index. *)
Lemma create_index_keeps op t fid db n :
  db_inv db n -> n <= op -> u64_ok op -> record_ok (catalog_encode (catalog_update t (push_index fid) (db_catalog db))) ->
  exists db' r, create_index op t fid db = (db', Ret r) /\ db_inv db' op /\
    (r = ResOk -> exists ot, get_type db' t = Some ot /\ fid ∈ indexes ot) /\
    rows_same db db'.
Proof.
  intros Hi Hle Hop Hcat. apply (inv_mono _ _ op) in Hi; [ | done]. unfold create_index. mstep (m_get_ret db).
  destruct (get_type db t) as [ot | ] eqn:Hot; [ | by eexists _, _].
  destruct (existsb _ _) eqn:Hex; cbn [negb]; [ | by eexists _, _]. pose proof (get_type_wf _ _ _ _ Hi Hot) as Hwf.
  destruct (idx_field_pos ot fid) as [[off w] | ] eqn:Hp; [ | by eexists _, _].
  destruct (get_type_elem _ _ _ Hot) as [Hin Hid]. pose proof (tw_id _ Hwf) as Hs. rewrite Hid in Hs.
  case_bool_decide as Hnin; [eexists _, _; split_and!; [done | done | by eexists | done] | ].
  pose proof (existsb_field _ _ Hex Hwf) as Hf. pose proof (idx_field_pos_width _ _ _ _ Hwf Hp) as Hw.
  set (dbA := set_catalog (catalog_update t (push_index fid) (db_catalog db)) db).
  assert (db_at dbA op) as HaA by (destruct (iv_at _ _ Hi); by constructor).
  destruct (persist_catalog_does op dbA HaA Hop Hcat) as (dbB & HmB & HeB).
  destruct (backfill_does op t fid off w dbB) as (dbC & HmC & HeC); [apply HeB | done | done | done | ].
  assert (db_catalog dbC = db_catalog dbA) as HcC by (rewrite (ef_catalog _ _ _ _ HeC); apply HeB).
  assert (rows_same db dbB) as HrB.
  { apply (aux_rows op dbA dbB _ HeB). intros k [v [<- _]%lookup_singleton_Some]. apply catalog_aux. }
  assert (rows_same db dbC) as HrC.
  { intros t' o Ht' Ho. rewrite (ef_get _ _ _ _ HeC) by (by apply row_key_ok). rewrite HrB by done. by apply backfill_rows. }
  exists dbC, ResOk. split_and!.
  - rewrite (M_bind_ret _ _ _ dbA tt) by done. unfold then_persist. mstep HmB. cbv beta iota. by mstep HmC.
  - constructor; [apply HeC | | | | | ].
    + rewrite HcC. apply Forall_forall. intros ot' Hot'. pose proof (iv_types _ _ Hi) as Hws. rewrite Forall_forall in Hws.
      apply update_first_elem in Hot' as [(y & Hy & Hty & ->) | [Hy _]]; [ | by apply Hws | apply Hi].
      by apply push_index_wf; [apply Hws | ].
    + rewrite HcC. cbn. rewrite update_first_ids by done. apply Hi.
    + rewrite HcC. cbn. destruct (iv_next _ _ Hi) as [Hn ?]. split; [ | done]. rewrite Forall_forall in Hn. apply Forall_forall.
      intros ot' Hot'. apply update_first_elem in Hot' as [(y & Hy & Hty & ->) | [Hy _]]; [by apply (Hn y) | by apply Hn | apply Hi].
    + eapply (create_index_ok db dbA dbB); try done; [apply HeB | intros; by apply HrB | | by eapply effect_trans].
      intros k [v [<- _]%lookup_singleton_Some]. apply catalog_aux.
    + eapply cache_ok_same; [exact HrC | | apply Hi]. rewrite (ef_cache _ _ _ _ HeC). apply HeB.
  - intros _. exists (push_index fid ot). split; [ | apply elem_of_app; right; by left].
    rewrite (get_type_same dbA) by done. by apply get_type_update.
  - done.
Qed.

(** ** A new type *)

Definition new_type (c : Catalog) (def : bytes) (name : text) (raw : list Field) : ObjectType :=
  mkObjectType (next_type_id c) name 1 (renumber raw) [] [] [] [] [] [] [] (decode_type_defaults def)
    (decode_type_serial_pk def) (decode_type_serial_field def).
Definition with_type (c : Catalog) (ot : ObjectType) : Catalog := mkCatalog (types c ++ [ot]) (next_type_id c + 1) (external c).

(** A definition without foreign keys whose type is in the range of the keys. *)
Definition type_def_ok (c : Catalog) (def : bytes) : Prop :=
  forall name raw, decode_type_def def = Some (name, raw) ->
    decode_type_fks def = [] /\ type_wf (new_type c def name raw) /\
    record_ok (catalog_encode (with_type c (new_type c def name raw))).

Lemma new_type_value c def name raw fid r : index_value (new_type c def name raw) fid r = None.
Proof. unfold index_value. by destruct (fid <? 0xC000). Qed.

Lemma get_type_new db n ot t : db_inv db n -> type_id ot = next_type_id (db_catalog db) ->
  get_type (set_catalog (with_type (db_catalog db) ot) db) t =
  if decide (t = next_type_id (db_catalog db)) then Some ot else get_type db t.
Proof.
  intros Hi Hid. destruct (iv_next _ _ Hi) as [Hn _]. unfold get_type, catalog_get. cbn.
  destruct (list_find _ (types (db_catalog db))) as [[i x] | ] eqn:Hf.
  - rewrite (list_find_app_l _ _ _ _ _ Hf). apply list_find_Some in Hf as (Hx & Ht & _). rewrite Forall_lookup in Hn.
    specialize (Hn _ _ Hx). cbn in Hn. rewrite decide_False by lia. done.
  - rewrite (list_find_app_r _ _ _ Hf). cbn. rewrite Hid. destruct (decide (t = _)) as [-> | Hne]; [by rewrite decide_True | ].
    by rewrite decide_False.
Qed.

Lemma next_type_none db n : db_inv db n -> get_type db (next_type_id (db_catalog db)) = None.
Proof.
  intros Hi. destruct (get_type db _) as [ot | ] eqn:Hot; [ | done]. destruct (get_type_elem _ _ _ Hot) as [Hin Hid].
  destruct (iv_next _ _ Hi) as [Hn _]. rewrite Forall_forall in Hn. specialize (Hn _ Hin). cbn in Hn. lia.
Qed.

Lemma with_type_inv db n def name raw :
  db_inv db n -> type_wf (new_type (db_catalog db) def name raw) ->
  db_inv (set_catalog (with_type (db_catalog db) (new_type (db_catalog db) def name raw)) db) n.
Proof.
  intros Hi Hwf. set (ot := new_type _ _ _ _) in *. destruct (iv_next _ _ Hi) as [Hn Hpos]. constructor; cbn.
  - destruct (iv_at _ _ Hi). by constructor.
  - apply Forall_app. split; [apply Hi | by apply Forall_singleton].
  - rewrite fmap_app. apply NoDup_app. split_and!; [apply Hi | | apply NoDup_singleton].
    intros x (y & -> & Hy)%list_elem_of_fmap Hx%list_elem_of_singleton. rewrite Forall_forall in Hn. specialize (Hn _ Hy). cbn in *. lia.
  - split; [ | lia]. apply Forall_app. split; [eapply Forall_impl; [exact Hn | cbn; lia] | apply Forall_singleton; cbn; lia].
  - intros t fid v o Ht Hfid Ho Hv Hl. rewrite (get_type_new db n) by done.
    pose proof (iv_index _ _ Hi t fid v o Ht Hfid Ho Hv Hl) as Hx. destruct (decide (t = _)) as [-> | ]; [ | exact Hx].
    rewrite (next_type_none _ _ Hi) in Hx. cbn [mbind option_bind] in *. unfold ot. by rewrite new_type_value.
  - apply Hi.
Qed.

Lemma create_type_keeps op def db n :
  db_inv db n -> n <= op -> u64_ok op -> type_def_ok (db_catalog db) def ->
  exists db' r, create_type op def db = (db', Ret r) /\ db_inv db' op.
Proof.
  intros Hi Hle Hop Hdef. apply (inv_mono _ _ op) in Hi; [ | done]. unfold create_type. mstep (m_get_ret db).
  destruct (decode_type_def def) as [[name raw] | ] eqn:Hd; [ | by eexists _, _]. destruct (Hdef name raw Hd) as (-> & Hwf & Hr).
  destruct (_ <? _); [by eexists _, _ | ]. destruct (existsb _ _); [by eexists _, _ | ]. destruct (_ <? _); [by eexists _, _ | ].
  cbn [resolve_fks]. set (dbA := set_catalog (with_type (db_catalog db) (new_type (db_catalog db) def name raw)) db).
  pose proof (with_type_inv db op def name raw Hi Hwf) as HiA. fold dbA in HiA.
  destruct (persist_catalog_does op dbA (iv_at _ _ HiA) Hop Hr) as (dbB & HmB & HeB).
  exists dbB, (TypeCreated (next_type_id (db_catalog db))). split.
  - rewrite (M_bind_ret _ _ _ dbA tt) by done. unfold then_persist. mstep HmB. done.
  - eapply aux_inv; [exact HiA | exact HeB | ]. intros k [v [<- _]%lookup_singleton_Some]. apply catalog_aux.
Qed.

(** * Every operation *)

(** A cache that has nothing new. *)
(** A cache that has the rows of the engine. *)
Lemma set_cache_inv c db n :
  db_inv db n ->
  (forall k v, fst <$> c_map c !! k = Some v -> cached db k = Some v \/ db_get db k = Some v) ->
  db_inv (set_cache (Some c) db) n.
Proof.
  intros [[Hs Hv] Ht Hi Hn Hx Hc] Hf. constructor; [by constructor | done | done | done | exact Hx | ].
  intros t o v Hst Ho Hk. change (db_get (set_cache _ db) (make_key t o)) with (db_get db (make_key t o)).
  destruct (Hf _ _ Hk); [by apply Hc | done].
Qed.

Lemma cache_get_map c k k' : fst <$> c_map (cache_get c k).1 !! k' = fst <$> c_map c !! k'.
Proof.
  unfold cache_get. cbn. destruct (c_map c !! k) as [[v t] | ] eqn:Hk; [ | done]. cbn.
  destruct (decide (k' = k)) as [-> | Hne]; [by rewrite lookup_insert_eq, Hk | by rewrite lookup_insert_ne].
Qed.

Lemma cache_get_result c k : (cache_get c k).2 = fst <$> c_map c !! k.
Proof. unfold cache_get. cbn. by destruct (c_map c !! k) as [[v t] | ]. Qed.

Lemma cache_lookup_keeps k db n : db_inv db n ->
  exists db', cache_lookup k db = (db', Ret (cached db k)) /\ db_inv db' n /\ forall k', db_get db' k' = db_get db k'.
Proof.
  intros Hi. unfold cache_lookup, cached. destruct (db_cache db) as [c | ] eqn:Hc; [ | by exists db].
  pose proof (cache_get_map c k) as Hm. pose proof (cache_get_result c k) as Hr. destruct (cache_get c k) as [c' r]. cbn in *. subst r.
  exists (set_cache (Some c') db). split_and!; [done | | done]. apply set_cache_inv; [done | ]. intros k' v. rewrite Hm. left.
  unfold cached. by rewrite Hc.
Qed.

Lemma insert_inv k b db n : db_inv db n -> db_get db k = Some b ->
  exists db', with_cache (fun c => cache_insert c k b) db = (db', Ret tt) /\ db_inv db' n /\ forall k', db_get db' k' = db_get db k'.
Proof.
  intros Hi Hb. eexists. split_and!; [done | | done]. destruct (db_cache db) as [c | ] eqn:Hc; cbn.
  - apply set_cache_inv; [done | ]. intros k' v Hv. destruct (insert_follows k b c k' v Hv) as [[-> [= ->]] | [_ Hx]]; [by right | ].
    left. unfold cached. by rewrite Hc.
  - replace (set_cache None db) with db; [done | ]. destruct db. cbn in *. by subst.
Qed.

(** GetById answers with the stored row. *)
Lemma get_by_id_keeps t id db n : db_inv db n ->
  exists db' r, get_by_id t id db = (db', Ret r) /\ db_inv db' n /\ (forall k, db_get db' k = db_get db k) /\
    (small_type t -> oid_ok id -> r = match db_get db (make_key t id) with Some v => ResGot v | None => ResNotFound end).
Proof.
  intros Hi. unfold get_by_id. destruct (cache_lookup_keeps (make_key t id) db n Hi) as (db1 & Hm1 & Hi1 & Hg1). mstep Hm1.
  destruct (cached db (make_key t id)) as [v | ] eqn:Hc.
  - exists db1, (ResGot v). split_and!; [done | done | done | ]. intros Ht Ho. by rewrite (iv_cache _ _ Hi t id v Ht Ho Hc).
  - mstep (m_get_ret db1). rewrite <- Hg1. destruct (db_get db1 _) as [b | ] eqn:Hb; [ | by eexists _, _].
    destruct (insert_inv _ b db1 n Hi1 Hb) as (db2 & Hm2 & Hi2 & Hg2). mstep Hm2. eexists _, _. split_and!; [done | done | | done].
    intros k'. by rewrite Hg2.
Qed.

(** The arguments the operations are called with. *)
Definition record_op_ok db (o : DbOp) : Prop :=
  match o with
  | CreateType def => type_def_ok (db_catalog db) def
  | CreateIndex t fid => record_ok (catalog_encode (catalog_update t (push_index fid) (db_catalog db)))
  | Create t id record | Update t id record => oid_ok id /\ record_ok record
  | UpdateSet t id sets => oid_ok id /\ Forall (fun s => bytes_ok s.2) sets
  | Delete t id => oid_ok id /\ is_Some (get_type db t)
  | GetById _ _ | GetBlob _ | Describe _ | FindBy _ _ _ | FindByComposite _ _ _ | FindRange _ _ _ _ => True
  | _ => False
  end.

Lemma preserves_inv {A} op (m : M (Db W) A) db Q : preserves op m db Q -> exists db' r, m db = (db', Ret r) /\ db_inv db' op.
Proof. intros (db' & r & ? & ? & _). eauto. Qed.

Lemma guard_inv op mutating (m : M (Db W) DbResult) db n :
  db_inv db n -> n <= op -> (exists db' r, m db = (db', Ret r) /\ db_inv db' op) ->
  exists db' r, guard op mutating m db = (db', Ret r) /\ db_inv db' op.
Proof.
  intros Hi Hle Hm. unfold guard. mstep (m_get_ret db). destruct (high_op _); [ | done].
  destruct (_ && _); [ | done]. eexists _, _. split; [done | by eapply inv_mono].
Qed.

Lemma db_apply_keeps op o db n :
  db_inv db n -> n <= op -> u64_ok op -> record_op_ok db o ->
  exists db' r, db_apply op o db = (db', Ret r) /\ db_inv db' op.
Proof.
  intros Hi Hle Hop Ho. pose proof (inv_mono _ _ _ Hi Hle) as Hio.
  destruct o; try done; cbn [db_apply record_op_ok] in *; (eapply guard_inv; [done | done | ]).
  - by eapply create_type_keeps.
  - destruct Ho. eapply preserves_inv. by eapply create_row_keeps.
  - destruct Ho. eapply preserves_inv. by eapply update_row_keeps.
  - destruct Ho. eapply preserves_inv. by eapply update_set_keeps.
  - destruct Ho. eapply preserves_inv. by eapply delete_row_keeps.
  - destruct (get_by_id_keeps type_id id db op Hio) as (db1 & r & Hm & Hi1 & _). by exists db1, r.
  - by eexists _, _.
  - by eexists _, _.
  - destruct (create_index_keeps op _ _ db n Hi Hle Hop Ho) as (db1 & r & Hm & Hi1 & _). by exists db1, r.
  - by eexists _, _.
  - by eexists _, _.
  - by eexists _, _.
Qed.

Lemma composite_no_spec fs l : forall k m, composite_no fs l k = Some m -> l !! Z.to_nat (m - k) = Some fs /\ k <= m < k + zlen l.
Proof.
  induction l as [ | c l IH]; intros k m; cbn; [done | ]. rewrite zlen_cons. pose proof (zlen_nonneg l). case_bool_decide as E.
  - intros [= <-]. subst. replace (k - k) with 0 by lia. split; [done | lia].
  - intros [Hx Hm]%IH. split; [ | lia]. replace (Z.to_nat (m - k)) with (S (Z.to_nat (m - (k + 1)))) by lia. done.
Qed.

Lemma composite_value_ok ot l v : type_wf ot -> Forall (fun p => bytes_ok p.2) l -> composite_value ot l = inl v ->
  bytes_ok v /\ zlen v = composite_width ot l.*1.
Proof.
  intros Hwf Hl. revert v. induction Hl as [ | [fid x] l Hx Hl IH]; intros v; cbn [composite_value composite_width fmap list_fmap fst].
  { intros [= <-]. split; [constructor | done]. }
  destruct (field_pos ot fid) as [[[i off] f] | ] eqn:Hp; [ | done]. destruct (composite_value ot l) as [rest | ]; [ | done].
  intros [= <-]. destruct (IH rest eq_refl) as [Hb Hz]. apply field_pos_width in Hp; [ | done].
  rewrite bytes_ok_app, zlen_app, norm_zlen by lia. split; [split; [by apply norm_bytes | done] | lia].
Qed.

Lemma fst_zip_eq {A B} (l : list A) (k : list B) : length k = length l -> (zip l k).*1 = l.
Proof. intros E. apply fst_zip. lia. Qed.
End Build.

(** * Properties *)

Section Properties.
Context {W : Type} `{VfsLaws W}.
Implicit Types db : Db W.

(** C11: The indexes follow the rows. Creating a type, creating an index over
    the rows that exist, Create, Update, UpdateSet, Delete with its cascades,
    and the reads all return on every database in order, and leave it in
    order: the entries of every equality and composite index are exactly the
    values the stored rows hold. *)
Theorem record_ops_keep_indexes op o db n :
  db_inv db n -> n <= op -> u64_ok op -> record_op_ok db o ->
  exists db' r, db_apply op o db = (db', Ret r) /\ db_inv db' op.
Proof. apply db_apply_keeps. Qed.

(** C21: FindBy on an indexed field returns, in order and without duplicates,
    the ids of exactly the rows that hold the value in the field, cut or
    padded to its width. *)
Theorem find_by_correct db n t ot fid off w value :
  db_inv db n -> get_type db t = Some ot -> fid ∈ indexes ot -> idx_field_pos ot fid = Some (off, w) -> bytes_ok value ->
  exists ids, find_by t fid value db = (db, Ret (ResGot (concat ids))) /\ StronglySorted klt ids /\
    forall o, o ∈ ids <-> oid_ok o /\ exists r, db_get db (make_key t o) = Some r /\ slot_of r off w = Some (norm value w).
Proof.
  intros Hi Hot Hin Hp Hv. pose proof (get_type_wf _ _ _ _ Hi Hot) as Hwf. pose proof (tw_indexes _ Hwf) as Hx.
  rewrite Forall_forall in Hx. specialize (Hx _ Hin). cbn in Hx. pose proof (idx_field_pos_width _ _ _ _ Hwf Hp).
  exists (idx_lookup db t fid (norm value w)). split.
  { unfold find_by. mstep (m_get_ret db). by rewrite Hot, Hp, bool_decide_eq_true_2. }
  destruct (lookup_correct db n t ot fid (norm value w) Hi Hot) as [Hs Ho];
    [unfold u16_ok, u16_max; lia | by apply norm_bytes | rewrite norm_zlen; lia | ].
  split; [done | ]. intros o. rewrite Ho. unfold index_value. rewrite (proj2 (Z.ltb_lt _ _)), bool_decide_eq_true_2, Hp by (done || lia).
  cbn. by rewrite bind_Some.
Qed.

(** FindByComposite returns, in order and without duplicates, the ids of
    exactly the rows whose fields, one after the other, hold the values given
    for a composite index of the type. *)
Theorem find_by_composite_correct db n t ot fs values v :
  db_inv db n -> get_type db t = Some ot -> fs ∈ composite ot -> fs <> [] -> length values = length fs ->
  Forall bytes_ok values -> composite_value ot (zip fs values) = inl v ->
  exists ids, find_by_composite t fs values db = (db, Ret (ResGot (concat ids))) /\ StronglySorted klt ids /\
    forall o, o ∈ ids <-> oid_ok o /\ exists r, db_get db (make_key t o) = Some r /\ composite_concat ot fs r = Some v.
Proof.
  intros Hi Hot Hin Hne Hlen Hb Hv. pose proof (get_type_wf _ _ _ _ Hi Hot) as Hwf.
  destruct (composite_no fs (composite ot) 0) as [m | ] eqn:Hm.
  2: { exfalso. clear -Hm Hin. revert Hm. generalize 0. induction (composite ot) as [ | c l IH]; intros k Hm; [by apply elem_of_nil in Hin | ].
       cbn in Hm. case_bool_decide; [done | ]. apply elem_of_cons in Hin as [-> | Hin]; [done | ]. by eapply IH. }
  apply composite_no_spec in Hm as Hcm. rewrite Z.sub_0_r, Z.add_0_l in Hcm. destruct Hcm as [Hlk Hrange].
  pose proof (tw_composites _ Hwf). assert (composite_fid m = 0xC000 + m) as Hfid.
  { rewrite <- (Z2Nat.id m) by lia. rewrite composite_fid_eq, Z.mod_small by lia. done. }
  apply composite_value_ok in Hv as Hvo; [ | done | ]. 2: { apply Forall_forall. intros [a b] Hab%elem_of_zip_r.
    rewrite Forall_forall in Hb. by apply Hb. }
  rewrite fst_zip_eq in Hvo by done. pose proof (tw_composite _ Hwf) as Hcw. rewrite Forall_forall in Hcw. specialize (Hcw _ Hin). cbn in Hcw.
  exists (idx_lookup db t (composite_fid m) v). split.
  { unfold find_by_composite. mstep (m_get_ret db). by rewrite Hot, Hm, bool_decide_eq_true_2, Hv. }
  destruct (lookup_correct db n t ot (composite_fid m) v Hi Hot) as [Hs Ho]; [unfold u16_ok, u16_max; lia | apply Hvo | lia | ].
  split; [done | ]. intros o. rewrite Ho, Hfid. unfold index_value. rewrite (proj2 (Z.ltb_ge _ _)) by lia.
  replace (0xC000 + m - 0xC000) with m by lia. rewrite Hlk. cbn. rewrite bool_decide_eq_false_2 by done.
  by rewrite bind_Some.
Qed.

(** Delete's walk over the foreign keys ends: on every database in order it
    returns the closure or its error, however the rows refer to each other. *)
Theorem cascade_ends db n t id :
  db_inv db n -> is_Some (get_type db t) -> oid_ok id -> exists r, cascade_root db t id = Ret r.
Proof. intros Hi Ht Ho. destruct (cascade_root_ret db n t id Hi) as (r & Hr & _); eauto. done. Qed.
End Properties.

(** ** Applied to a sample *)

Definition db_new : Db MemVfs := mkDb sm_new (mkCatalog [] 1 []) (Some (cache_new DEFAULT_READ_CACHE)) 0.

Lemma db_new_open : db_open memvfs_new = (vfs empty_storage, Ret db_new).
Proof. by vm_compute. Qed.

(** A database without rows, under any catalog. *)
Definition db_empty (c : Catalog) : Db MemVfs := mkDb sm_new c (Some (cache_new DEFAULT_READ_CACHE)) 0.

Lemma db_empty_get c k : key_ok k -> db_get (db_empty c) k = None.
Proof.
  assert (view (sm_storage sm_new) = ∅) as Hv by apply empty_view. unfold db_get. change (db_storage (db_empty c)) with (sm_storage sm_new).
  destruct sm_new_store_ok as [Hd Htx Hk]. destruct (store_ok_reads _ sm_new_store_ok) as [Hwf _].
  intros (_ & _ & [(t & o & Ht & Ho & ->) | Hr]).
  - rewrite get_row, get_at_snapshot_none; done.
  - rewrite get_other; [by rewrite Hv | done | by apply reserved_dispatch].
Qed.

Lemma index_value_none ot fid : index_value ot fid None = None.
Proof.
  unfold index_value. destruct (fid <? 0xC000); [case_bool_decide; [ | done]; by destruct (idx_field_pos ot fid) as [[? ?] | ] | ].
  destruct (composite ot !! _); [ | done]. cbn. by case_bool_decide.
Qed.

Lemma db_empty_inv c :
  Forall type_wf (types c) -> NoDup (type_id <$> types c) ->
  Forall (fun ot => type_id ot < next_type_id c) (types c) /\ 0 < next_type_id c -> db_inv (db_empty c) 0.
Proof.
  intros Ht Hn Hx. assert (view (sm_storage sm_new) = ∅) as Hv by apply empty_view. destruct sm_new_store_ok as [Hd Htx Hk].
  constructor; [ | done | done | done | | by intros t o v].
  - constructor; [change (db_storage (db_empty c)) with (sm_storage sm_new); constructor; [done | by rewrite Htx | done | ] | ].
    + intros t o v ver _ _ _. by rewrite Hv, lookup_empty.
    + intros k Hk'. by rewrite db_empty_get.
  - intros t fid v o Hs Hf Ho Hb Hl. rewrite !db_empty_get by first [by apply entry_key_ok | by apply row_key_ok].
    split; [by intros [? ?] | ]. destruct (get_type _ t); [ | done]. cbn. by rewrite index_value_none.
Qed.

Lemma db_new_inv : db_inv db_new 0.
Proof. apply (db_empty_inv (mkCatalog [] 1 [])); [constructor | constructor | done]. Qed.

(** A type of two integers, an index on the first, and a row. *)
Definition pair_fields : list Field := [mkField 1 [97] U32 false; mkField 2 [98] U32 true].
Definition pair_def : bytes := encode_type_def [116] pair_fields.
Definition pair_type : ObjectType := mkObjectType 1 [116] 1 pair_fields [] [] [] [] [] [] [] [] false None.
Definition pair_record (a b : Z) : bytes := match encode pair_type [Uint a; Uint b] with Ret (inl r) => r | _ => [] end.
Definition pair_id (x : Z) : bytes := le_bytes 16 x.

Definition db_typed : Db MemVfs := (db_apply 1 (CreateType pair_def) db_new).1.
Definition db_indexed : Db MemVfs := (db_apply 2 (CreateIndex 1 1) db_typed).1.
Definition db_row : Db MemVfs := (db_apply 3 (Create 1 (pair_id 7) (pair_record 5 6)) db_indexed).1.

Lemma step_inv {W} `{VfsLaws W} op o (db : Db W) n :
  db_inv db n -> n <= op -> u64_ok op -> record_op_ok db o -> db_inv (db_apply op o db).1 op.
Proof. intros Hi Hle Hop Ho. by destruct (db_apply_keeps op o db n Hi Hle Hop Ho) as (db' & r & -> & Hi'). Qed.

Definition bytes_okb (b : bytes) : bool := forallb (fun x => (0 <=? x) && (x <? 256)) b.

Lemma record_ok_dec (b : bytes) : bytes_okb b && (zlen b <=? 4294900000) = true -> record_ok b.
Proof.
  intros [Hb Hl%Z.leb_le]%andb_true_iff. split; [ | done]. apply List.Forall_forall. intros x Hx. unfold bytes_okb in Hb.
  rewrite forallb_forall in Hb. specialize (Hb x Hx). unfold byte_ok. lia.
Qed.

Lemma pair_type_wf : type_wf pair_type.
Proof. 
  constructor; cbn; try done; unfold small_type; try lia.
  - apply Forall_cons; split; [by split | ]. by apply Forall_singleton.
  - apply Forall_cons; split; [by split | ]. by apply Forall_singleton.
Qed.

Lemma db_typed_inv : db_inv db_typed 1.
Proof.
  eapply step_inv; [apply db_new_inv | lia | lit | ]. intros name raw Hd.
  assert (decode_type_def pair_def = Some ([116], pair_fields)) as Hp by (by vm_compute). rewrite Hp in Hd. injection Hd as <- <-.
  split_and!; [by vm_compute | exact pair_type_wf | apply record_ok_dec; by vm_compute].
Qed.

Lemma db_indexed_inv : db_inv db_indexed 2.
Proof. eapply step_inv; [apply db_typed_inv | lia | lit | ]. apply record_ok_dec. by vm_compute. Qed.

Lemma pair_id_ok x : oid_ok (pair_id x).
Proof. split; [done | apply le_bytes_ok]. Qed.

Lemma db_row_inv : db_inv db_row 3.
Proof.
  eapply step_inv; [apply db_indexed_inv | lia | lit | ]. split; [apply pair_id_ok | apply record_ok_dec; by vm_compute].
Qed.

Lemma record_ops_keep_indexes_witness :
  record_op_ok db_row (Delete 1 (pair_id 7)) /\
  exists db' r, db_apply 4 (Delete 1 (pair_id 7)) db_row = (db', Ret r) /\ db_inv db' 4.
Proof.
  assert (record_op_ok db_row (Delete 1 (pair_id 7))) as Ho by (split; [apply pair_id_ok | vm_compute; by eexists]).
  split; [done | ]. apply (record_ops_keep_indexes 4 (Delete 1 (pair_id 7)) db_row 3 db_row_inv); [lia | lit | done].
Defined.

Lemma find_by_correct_witness :
  find_by 1 1 (le_bytes 4 5) db_row = (db_row, Ret (ResGot (pair_id 7))) /\
  exists ids, find_by 1 1 (le_bytes 4 5) db_row = (db_row, Ret (ResGot (concat ids))) /\ StronglySorted klt ids /\
    forall o, o ∈ ids <-> oid_ok o /\
      exists r, db_get db_row (make_key 1 o) = Some r /\ slot_of r 14 4 = Some (norm (le_bytes 4 5) 4).
Proof.
  split; [by vm_compute | ].
  apply (find_by_correct db_row 3 1 (push_index 1 pair_type) 1 14 4 (le_bytes 4 5) db_row_inv);
    [by vm_compute | by left | by vm_compute | apply le_bytes_ok].
Defined.

Lemma cascade_ends_witness : exists r, cascade_root db_row 1 (pair_id 7) = Ret r.
Proof. apply (cascade_ends db_row 3 1 (pair_id 7) db_row_inv); [vm_compute; by eexists | apply pair_id_ok]. Defined.

(** The same type with a composite index of both fields. *)
Definition composite_type : ObjectType := push_composite [2; 1] pair_type.
Definition db_composite : Db MemVfs :=
  (db_apply 1 (Create 1 (pair_id 7) (pair_record 5 6)) (db_empty (mkCatalog [composite_type] 2 []))).1.

Lemma db_composite_inv : db_inv db_composite 1.
Proof.
  apply (step_inv _ _ _ 0); [ | lia | lit | split; [apply pair_id_ok | apply record_ok_dec; by vm_compute]].
  apply db_empty_inv; cbn; [apply Forall_singleton | apply NoDup_singleton | split; [by apply Forall_singleton | done]].
  destruct pair_type_wf. constructor; cbn in *; try done. by apply Forall_singleton.
Qed.

Lemma find_by_composite_correct_witness :
  find_by_composite 1 [2; 1] [[6]; [5]] db_composite = (db_composite, Ret (ResGot (pair_id 7))) /\
  exists ids, find_by_composite 1 [2; 1] [[6]; [5]] db_composite = (db_composite, Ret (ResGot (concat ids))) /\ StronglySorted klt ids /\
    forall o, o ∈ ids <-> oid_ok o /\
      exists r, db_get db_composite (make_key 1 o) = Some r /\ composite_concat composite_type [2; 1] r = Some [6; 0; 0; 0; 5; 0; 0; 0].
Proof.
  split; [by vm_compute | ].
  apply (find_by_composite_correct db_composite 1 1 composite_type [2; 1] [[6]; [5]] [6; 0; 0; 0; 5; 0; 0; 0] db_composite_inv);
    [by vm_compute | by left | done | done | repeat constructor; lit | by vm_compute].
Defined.
