(* ===== verification/RowRefs.v ===== *)
(** kessel-sm: rows and references.

    The record operations as changes of the stored rows, and what Delete does
    to the rows that refer to the deleted ones: its walk over the foreign keys
    visits every row a cascade reaches, and when it is acknowledged no row that
    is left refers to one that is gone.

    Source: src/crates/kessel-sm/src/lib.rs. *)

From Stdlib Require Import ZArith Lia String.
From stdpp Require Import base numbers list sorting gmap fin_maps.
From S2P Require Import Prelude BTree Proto Vfs Wal SsTable Storage View Recovery Crash Mvcc MvccSpec Engine Ssi Tx Sm SmSpec.
From S2P Require Import Reader Catalog Codec Expr ExprSpec Filter Cache Rows RowSchema RowApply RowStore RowsSpec RowOps RowIndex.

#[local] Open Scope Z_scope.

(** * The walk *)

(** What a loop that returns leaves behind: [R] from the start to the end, and
    [Q] of every element. *)
Lemma try_each_post {A B E} (R : B -> B -> Prop) (Q : A -> B -> Prop) (f : A -> B -> outcome (B + E)) l :
  (forall b, R b b) -> (forall a b c, R a b -> R b c -> R a c) -> (forall x b c, R b c -> Q x b -> Q x c) ->
  (forall x b b', x ∈ l -> f x b = Ret (inl b') -> R b b' /\ Q x b') ->
  forall b b', try_each f l b = Ret (inl b') -> R b b' /\ forall x, x ∈ l -> Q x b'.
Proof.
  intros Hrefl Htrans Hmono. induction l as [ | x l IH]; intros Hf b b'; cbn [try_each].
  { intros [= <-]. split; [done | by intros ? ?%elem_of_nil]. }
  destruct (f x b) as [[b1 | e] | | ] eqn:Hfx; cbn; try done. intros Hl.
  destruct (Hf x b b1) as [HR HQ]; [left | done | ].
  destruct (IH (fun y b b' Hy => Hf y b b' (list_elem_of_further _ _ _ Hy)) b1 b' Hl) as [HR' HQ'].
  split; [by eapply Htrans | ]. intros y [-> | Hy]%elem_of_cons; [by eapply Hmono | by apply HQ'].
Qed.

(** * Records: what a write of one field leaves alone *)

Lemma get_range_ext {A} (a b : list A) lo hi :
  zlen a = zlen b -> (forall k, lo <= k < hi -> a !! Z.to_nat k = b !! Z.to_nat k) -> get_range a lo hi = get_range b lo hi.
Proof.
  intros Hl Hk. unfold get_range. rewrite Hl. destruct ((0 <=? lo) && (lo <=? hi) && (hi <=? zlen b)) eqn:Hc; [ | done]. f_equal.
  apply list_eq. intros i. destruct (decide (i < Z.to_nat (hi - lo))%nat) as [Hi | Hi].
  - rewrite !lookup_take_lt, !lookup_drop by lia. specialize (Hk (lo + Z.of_nat i)).
    rewrite Z2Nat.inj_add, Nat2Z.id in Hk by lia. apply Hk. lia.
  - rewrite !lookup_take_ge by lia. done.
Qed.

Lemma splice_fits d off b : 0 <= off -> off + zlen b <= zlen d ->
  splice d off b = take (Z.to_nat off) d ++ b ++ drop (Z.to_nat (off + zlen b)) d.
Proof. intros Ho Hl. unfold splice. rewrite (Z2Nat.nonpos _ (proj2 (Z.le_sub_0 _ _) Hl)). cbn [replicate]. by rewrite app_nil_r. Qed.

Lemma splice_outside d off b k : 0 <= off -> off + zlen b <= zlen d -> 0 <= k -> k < off \/ off + zlen b <= k ->
  splice d off b !! Z.to_nat k = d !! Z.to_nat k.
Proof.
  intros Ho Hl Hk Hout. rewrite splice_fits by done. unfold zlen in *. destruct Hout.
  - rewrite lookup_app_l by (rewrite length_take; lia). by rewrite lookup_take_lt by lia.
  - rewrite lookup_app_r by (rewrite length_take; lia). rewrite length_take, lookup_app_r by lia.
    rewrite lookup_drop. f_equal. lia.
Qed.

Lemma splice_slot d off b : 0 <= off -> off + zlen b <= zlen d -> get_range (splice d off b) off (off + zlen b) = Some b.
Proof.
  intros Ho Hl. rewrite splice_fits by done. unfold zlen in *. apply get_range_app; unfold zlen; rewrite length_take; lia.
Qed.

Lemma position_of_id id fs : forall i j f, position_of id fs i = Some j -> fs !! Z.to_nat (j - i) = Some f -> field_id f = id.
Proof.
  induction fs as [ | g fs IH]; intros i j f Hp Hf; [done | ]. cbn in Hp. destruct (Z.eqb_spec (field_id g) id) as [Hid | _].
  - injection Hp as <-. replace (i - i) with 0 in Hf by lia. by injection Hf as <-.
  - pose proof (position_of_bound _ _ _ _ Hp). apply (IH _ _ f Hp). replace (Z.to_nat (j - i)) with (S (Z.to_nat (j - (i + 1)))) in Hf by lia. done.
Qed.

(** The field at index [i] of [ot]: [w] bytes at [off]. *)
Definition field_at (ot : ObjectType) (i off w : Z) : Prop :=
  0 <= i /\ exists f, offsets (compute_layout ot) !! Z.to_nat i = Some off /\ fields ot !! Z.to_nat i = Some f /\ width (f_kind f) = w.

Lemma field_at_bounds ot i off w : type_wf ot -> field_at ot i off w ->
  i < zlen (fields ot) <= 64 /\ 14 <= off /\ 0 <= w /\ off + w <= record_size (compute_layout ot).
Proof.
  intros Hwf (Hi & f & Ho & Hf & <-). pose proof (kinds_ok _ Hwf) as Hk. pose proof (tw_count _ Hwf) as Hc. unfold MAX_FIELDS in Hc.
  pose proof (total_width_bound _ Hk). rewrite compute_layout_eq in Ho |- * by done. cbn [offsets record_size] in *.
  destruct (place_lookup _ _ _ _ Hk Ho) as [Hlo _]. pose proof (place_end _ _ _ _ _ Hk Ho Hf) as Hhi.
  change HEADER_BYTES with 14 in *. pose proof (lookup_lt_Some _ _ _ Hf). unfold zlen in *.
  split_and!; [lia | lia | lia | apply width_nonneg | ].
  - rewrite Forall_lookup in Hk. by eapply Hk.
  - etrans; [exact Hhi | ]. apply next_pow2_ge. lia.
Qed.

Lemma field_at_disjoint ot i off w j off' w' : type_wf ot -> field_at ot i off w -> field_at ot j off' w' -> i < j -> off + w <= off'.
Proof.
  intros Hwf (Hi & f & Ho & Hf & <-) (Hj & g & Ho' & Hg & <-) Hij. pose proof (kinds_ok _ Hwf) as Hk.
  rewrite compute_layout_eq in Ho, Ho' by done. cbn in *. eapply place_before; [done | | exact Ho | exact Hf | exact Ho']. lia.
Qed.

Lemma field_pos_at ot fid i off f : field_pos ot fid = Some (i, off, f) ->
  field_at ot i off (width (f_kind f)) /\ field_id f = fid /\ fields ot !! Z.to_nat i = Some f.
Proof.
  unfold field_pos. destruct (field_index ot fid) as [i0 | ] eqn:Hi; [ | done]. cbn.
  destruct (offsets _ !! _) as [o | ] eqn:Ho; [ | done]. cbn. destruct (fields ot !! _) as [g | ] eqn:Hg; [ | done]. cbn.
  intros [= <- <- <-]. pose proof (position_of_bound _ _ _ _ Hi) as Hb. split_and!; [split; [lia | by exists g] | | done].
  eapply position_of_id; [exact Hi | ]. by rewrite Z.sub_0_r.
Qed.

Lemma field_at_inj ot i off w off' w' : field_at ot i off w -> field_at ot i off' w' -> off' = off /\ w' = w.
Proof. intros (_ & f & Ho & Hf & <-) (_ & g & Ho' & Hg & <-). split; congruence. Qed.

(** The null bit of a field is a bit of one byte of the header. *)
Lemma null_bit_byte rec i : 14 <= zlen rec -> 0 <= i < 64 ->
  null_bit rec i = match rec !! Z.to_nat (bit_at i) with Some x => Z.testbit x (i mod 8) | None => true end.
Proof.
  intros Hl Hi. unfold null_bit, bit_at, get_range, SCHEMA_VER_BYTES. repeat zif_true. cbn [andb]. cbn [mbind option_bind].
  assert (0 <= i / 8 < 8) as Hd by (split; [apply Z.div_pos | apply Z.div_lt_upper_bound]; lia).
  unfold get_at. rewrite (proj2 (Z.ltb_lt (i / 8) _)), (proj2 (Z.leb_le 0 (i / 8))) by (unfold zlen in *; rewrite ?length_take, ?length_drop; lia).
  cbn [andb]. rewrite lookup_take_lt, lookup_drop by lia. replace (Z.to_nat (4 + 2) + Z.to_nat (i / 8))%nat with (Z.to_nat (4 + 2 + i / 8)) by lia.
  destruct (rec !! _); [ | done]. apply land_bit. apply Z.mod_pos_bound. lia.
Qed.

Lemma null_bit_set_ne rec i j x : 14 <= zlen rec -> 0 <= i < 64 -> 0 <= j < 64 -> j <> i -> rec !! Z.to_nat (bit_at i) = Some x ->
  null_bit (<[Z.to_nat (bit_at i) := Z.lor x (Z.shiftl 1 (i mod 8))]> rec) j = null_bit rec j.
Proof.
  intros Hl Hi Hj Hne Hx. assert (forall y, zlen (<[Z.to_nat (bit_at i) := y]> rec) = zlen rec) as Hl' by (intros; unfold zlen; by rewrite length_insert).
  rewrite !null_bit_byte by (rewrite ?Hl'; lia). destruct (Z.eq_dec (bit_at i) (bit_at j)) as [E | E].
  - rewrite <- E, Hx, list_lookup_insert_eq by (apply lookup_lt_Some in Hx; done). rewrite Z.lor_spec, Z.shiftl_1_l, Z.pow2_bits_false, orb_false_r; [done | ].
    unfold bit_at in E. zdiv.
  - rewrite list_lookup_insert_ne; [done | ]. unfold bit_at, SCHEMA_VER_BYTES in *. zdiv.
Qed.

Lemma row_is_codec_ext ot a b : zlen a = zlen b -> (forall k, 0 <= k < 6 -> a !! Z.to_nat k = b !! Z.to_nat k) ->
  row_is_codec ot a = row_is_codec ot b.
Proof.
  intros Hl Hk. unfold row_is_codec, stored_fc, SCHEMA_VER_BYTES. rewrite Hl, (get_range_ext a b 4 (4 + 2)); [done | done | ].
  intros k ?. apply Hk. lia.
Qed.

Lemma codec_len ot rec : row_is_codec ot rec = true -> zlen rec = record_size (compute_layout ot) /\ 16 <= zlen rec /\ stored_fc rec = zlen (fields ot).
Proof. intros [?%Z.eqb_eq ?%Z.eqb_eq]%andb_true_iff. pose proof (record_size_pos ot). lia. Qed.

Lemma row_null_codec ot rec i : row_is_codec ot rec = true -> i < zlen (fields ot) -> row_field_is_null rec i = null_bit rec i.
Proof.
  intros (Hl & Hge & Hfc)%codec_len Hi. unfold row_field_is_null. change HEADER_BYTES with 14.
  rewrite Hfc, (proj2 (Z.ltb_ge _ _)), (proj2 (Z.leb_gt _ _)) by lia. done.
Qed.

(** The write of a slot, as the reset does it: nothing when the row is short. *)
Lemma slot_write old off w b : 14 <= off -> zlen b = w -> let new := if zlen old <? off + w then old else splice old off b in
  zlen new = zlen old /\ (forall k, 0 <= k -> k < off \/ off + w <= k -> new !! Z.to_nat k = old !! Z.to_nat k) /\
  (forall j, 0 <= j < 64 -> 14 <= zlen old -> null_bit new j = null_bit old j) /\ (off + w <= zlen old -> slot_of new off w = Some b).
Proof.
  intros Ho <-. destruct (Z.ltb_spec (zlen old) (off + zlen b)) as [Hlt | Hge]; [split_and!; (done || lia) | ]. cbv zeta.
  assert (zlen (splice old off b) = zlen old) as Hl by (apply splice_len; lia). split_and!.
  - done.
  - intros. apply splice_outside; (done || lia).
  - intros j Hj Hz. rewrite !null_bit_byte by lia. by rewrite splice_outside by (unfold bit_at, SCHEMA_VER_BYTES; zdiv).
  - intros _. apply splice_slot; lia.
Qed.

Lemma fold_left_post {A B} (R : B -> B -> Prop) (Q : A -> B -> Prop) (f : B -> A -> B) l :
  (forall b, R b b) -> (forall a b c, R a b -> R b c -> R a c) -> (forall x b c, R b c -> Q x b -> Q x c) ->
  (forall x b, x ∈ l -> R b (f b x) /\ Q x (f b x)) -> forall b, R b (fold_left f l b) /\ forall x, x ∈ l -> Q x (fold_left f l b).
Proof.
  intros Hrefl Htrans Hmono. induction l as [ | x l IH]; intros Hf b; cbn [fold_left]; [split; [done | by intros ? ?%elem_of_nil] | ].
  destruct (Hf x b) as [HR HQ]; [left | ]. destruct (IH (fun y b Hy => Hf y b (list_elem_of_further _ _ _ Hy)) (f b x)) as [HR' HQ'].
  split; [by eapply Htrans | ]. intros y [-> | Hy]%elem_of_cons; [by eapply Hmono | by apply HQ'].
Qed.

Lemma fold_left_one {A B} (R : B -> B -> Prop) (Q : B -> Prop) (f : B -> A -> B) l y :
  (forall b, R b b) -> (forall a b c, R a b -> R b c -> R a c) -> (forall b c, R b c -> Q b -> Q c) ->
  (forall x b, R b (f b x)) -> (forall b, Q (f b y)) -> y ∈ l -> forall b, R b (fold_left f l b) /\ Q (fold_left f l b).
Proof.
  intros Hrefl Htrans Hmono Hf Hy Hin b. destruct (fold_left_post R (fun x b => x = y -> Q b) f l Hrefl Htrans) with (b := b) as [HR HQ].
  - intros x b1 b2 Hb Hq E. eapply Hmono; eauto.
  - intros x b1 _. split; [done | by intros ->].
  - split; [done | by eapply HQ].
Qed.

Section Refs.
Context {W : Type} `{VfsLaws W}.
Implicit Types db : Db W.

(** The edge [e] of [x] has been followed: no child under RESTRICT, every child
    visited under CASCADE. *)
Definition followed db (x : Z * bytes) (st : Cascade) (e : ObjectType * (Z * Z * Z)) : Prop :=
  let '(ct, (fid, rt, od)) := e in
  rt = x.1 -> forall ids, children db ct fid x.2 = Some ids ->
    (od = 1 -> ids = []) /\ (od = 2 -> forall cid, cid ∈ ids -> (type_id ct, cid) ∈ visited st).

(** A visit extends the visited rows, by rows whose edges have been followed. *)
Record extends db (st st' : Cascade) : Prop := {
  ex_visited : visited st ⊆ visited st';
  ex_new x : x ∈ visited st' -> x ∉ visited st -> forall e, e ∈ fk_edges db -> followed db x st' e;
  ex_closure : (forall x, x ∈ closure st <-> x ∈ visited st) -> forall x, x ∈ closure st' <-> x ∈ visited st';
}.

Lemma followed_mono db x st st' e : visited st ⊆ visited st' -> followed db x st e -> followed db x st' e.
Proof.
  destruct e as [ct [[fid rt] od]]. intros Hs Hf Hrt ids Hc. destruct (Hf Hrt ids Hc) as [Hr Hcas].
  split; [done | ]. intros Hod cid Hcid. by apply Hs, Hcas.
Qed.

Lemma extends_refl db st : extends db st st.
Proof. constructor; [done | by intros x ? ? | done]. Qed.

Lemma extends_trans db a b c : extends db a b -> extends db b c -> extends db a c.
Proof.
  intros [Hv1 Hn1 Hc1] [Hv2 Hn2 Hc2]. constructor; [by etrans | | auto].
  intros x Hx Hxa e He. destruct (decide (x ∈ visited b)) as [Hb | Hb]; [ | by apply Hn2].
  eapply followed_mono; [exact Hv2 | by apply Hn1].
Qed.

Lemma cascade_collect_post db fuel : forall t id st st',
  cascade_collect fuel db t id st = Ret (inl st') -> extends db st st' /\ (t, id) ∈ visited st'.
Proof.
  induction fuel as [ | fuel IH]; intros t id st st'; [done | ]. cbn [cascade_collect].
  destruct (decide ((t, id) ∈ visited st)) as [Hin | Hnin]; [intros [= <-]; split; [apply extends_refl | done] | ].
  destruct (budget st =? 0); [done | ]. set (st1 := mkCascade _ _ _). intros Hl.
  apply (try_each_post (extends db) (fun e st => followed db (t, id) st e)) in Hl as [Hext Hfol].
  - destruct Hext as [Hv Hn Hc]. assert ((t, id) ∈ visited st') as Hself by (apply Hv; cbn; apply elem_of_union_l, elem_of_singleton; done).
    split; [ | done]. constructor.
    + etrans; [ | exact Hv]. apply union_subseteq_r.
    + intros x Hx Hxs e He. destruct (decide (x = (t, id))) as [-> | Hne]; [by apply Hfol | ].
      apply Hn; [done | | done]. cbn. by intros [?%elem_of_singleton | ?]%elem_of_union.
    + intros Hcl. apply Hc. intros x. cbn. rewrite elem_of_app, Hcl, list_elem_of_singleton, elem_of_union, elem_of_singleton. apply or_comm.
  - apply extends_refl.
  - apply extends_trans.
  - intros e b c [Hv _ _]. by apply followed_mono.
  - intros [ct [[fid rt] od]] b b' He. destruct (negb (rt =? t) || (od =? 0)) eqn:Hskip.
    { intros [= <-]. split; [apply extends_refl | ]. intros Hrt ids Hch. cbn in Hrt. subst rt. rewrite Z.eqb_refl in Hskip. cbn in Hskip. lia. }
    destruct (children db ct fid id) as [ids | ] eqn:Hch; [ | intros [= <-]; split; [apply extends_refl | by intros _ ids Hx; cbn in Hx; rewrite Hch in Hx]].
    assert (forall st, (od = 1 -> ids = []) -> (od = 2 -> forall cid, cid ∈ ids -> (type_id ct, cid) ∈ visited st) ->
      followed db (t, id) st (ct, (fid, rt, od))) as Hmk.
    { intros st0 H1' H2' _ ids' Hx. cbn in Hx. rewrite Hch in Hx. by injection Hx as <-. }
    destruct (Z.eqb_spec od 1) as [-> | Hod1].
    { case_bool_decide as Hnil; [ | done]. intros [= <-]. split; [apply extends_refl | by apply Hmk]. }
    destruct (Z.eqb_spec od 2) as [-> | Hod2]; [ | intros [= <-]; split; [apply extends_refl | by apply Hmk]].
    intros Hk. apply (try_each_post (extends db) (fun cid st => (type_id ct, cid) ∈ visited st)) in Hk as [Hext Hall];
      [ | apply extends_refl | apply extends_trans | intros cid a c [Hv _ _] ?; by apply Hv | intros cid a c _; by apply IH].
    split; [done | by apply Hmk].
Qed.

(** The closure of a Delete: the row itself, and with a row every row that a
    cascade reaches from it; no row of it has a child that restricts. *)
Lemma cascade_closed db t id st :
  cascade_root db t id = Ret (inl st) ->
  (t, id) ∈ closure st /\ forall x, x ∈ closure st -> forall e, e ∈ fk_edges db ->
    let '(ct, (fid, rt, od)) := e in
    rt = x.1 -> forall ids, children db ct fid x.2 = Some ids ->
      (od = 1 -> ids = []) /\ (od = 2 -> forall cid, cid ∈ ids -> (type_id ct, cid) ∈ closure st).
Proof.
  intros [[Hv Hn Hc] Hself]%cascade_collect_post. cbn in *.
  assert (forall x, x ∈ closure st <-> x ∈ visited st) as Heq by (apply Hc; intros y; by rewrite elem_of_nil, elem_of_empty).
  split; [by apply Heq | ]. intros x Hx [ct [[fid rt] od]] He Hrt ids Hch. apply Heq in Hx.
  destruct (Hn x Hx (not_elem_of_empty _) _ He Hrt ids Hch) as [Hr Hcas]. split; [done | ].
  intros Hod cid Hcid. by apply Heq, Hcas.
Qed.

(** * The fields that are reset *)

(** A foreign key of the field is SET DEFAULT, and [d] is declared as default. *)
Definition set_default (ct : ObjectType) (fid : Z) (d : bytes) : Prop :=
  (fid, d) ∈ defaults ct /\ exists rt, (fid, rt, 4) ∈ fks ct.

(** An entry of the reset list: a field of a type of the catalog, and for SET
    DEFAULT a default declared for it. *)
Definition sn_at db (s : SetNull) (ct : ObjectType) : Prop :=
  get_type db (sn_type s) = Some ct /\ field_at ct (sn_idx s) (sn_off s) (sn_width s) /\
  forall d, sn_default s = Some d -> exists f d', fields ct !! Z.to_nat (sn_idx s) = Some f /\
    set_default ct (field_id f) d' /\ d = norm d' (sn_width s).

(** What the field holds after a reset. *)
Definition is_reset (ct : ObjectType) (i off w : Z) (rec : bytes) : Prop :=
  row_field_is_null rec i = true \/ exists f d, fields ct !! Z.to_nat i = Some f /\ set_default ct (field_id f) d /\ slot_of rec off w = Some (norm d w).

Lemma norm_norm d w : 0 <= w -> norm (norm d w) w = norm d w.
Proof.
  intros Hw. pose proof (norm_zlen d w Hw) as Hl. unfold norm at 1. rewrite Hl, Z.sub_diag. cbn [Z.to_nat replicate].
  rewrite app_nil_r. apply take_ge. unfold zlen in Hl. lia.
Qed.

(** The bytes of a row after a reset. *)
Lemma nulled_bytes db s ct old : type_wf ct -> sn_at db s ct ->
  let new := nulled_record db s old in
  zlen new = zlen old /\
  (forall k, 0 <= k -> k < 6 \/ 14 <= k -> k < sn_off s \/ sn_off s + sn_width s <= k -> new !! Z.to_nat k = old !! Z.to_nat k) /\
  (forall j, 0 <= j < 64 -> 14 <= zlen old -> j <> sn_idx s -> null_bit new j = null_bit old j) /\
  (row_is_codec ct old = true -> is_reset ct (sn_idx s) (sn_off s) (sn_width s) new).
Proof.
  intros Hwf (Hot & Hat & Hdef). destruct (field_at_bounds _ _ _ _ Hwf Hat) as ([Hi Hc] & Hoff & Hw & Hend).
  pose proof (proj1 Hat) as Hi0. unfold nulled_record. destruct (sn_default s) as [d | ].
  - destruct (Hdef d eq_refl) as (f & d' & Hf & Hd' & ->). rewrite norm_norm by done.
    destruct (slot_write old (sn_off s) (sn_width s) (norm d' (sn_width s)) Hoff (norm_zlen _ _ Hw)) as (Hl & Hout & Hbit & Hslot).
    split_and!; [done | auto | auto | ]. intros (Hz & _)%codec_len. right. exists f, d'. split_and!; [done | done | ]. apply Hslot. lia.
  - rewrite Hot. set (new := if zlen old <? sn_off s + sn_width s then old else _).
    destruct (slot_write old (sn_off s) (sn_width s) (replicate (Z.to_nat (sn_width s)) 0) Hoff) as (Hl & Hout & Hbit & _);
      [unfold zlen; rewrite length_replicate; lia | ]. fold new in Hl, Hout, Hbit.
    rewrite (row_is_codec_ext ct new old) by (done || intros k ?; apply Hout; lia).
    destruct (row_is_codec ct old) eqn:Hcod; [ | split_and!; [done | auto | auto | done]].
    destruct (codec_len _ _ Hcod) as (Hz & Hz16 & Hfc). assert (6 <= bit_at (sn_idx s) < 14) as Hba by (unfold bit_at, SCHEMA_VER_BYTES; zdiv).
    unfold get_at. repeat zif_true. cbn [andb]. destruct (lookup_lt_is_Some_2 new (Z.to_nat (bit_at (sn_idx s)))) as [x Hx]; [unfold zlen in *; lia | ].
    rewrite Hx. set (new' := <[Z.to_nat (bit_at (sn_idx s)) := _]> new). assert (zlen new' = zlen old) as Hl' by (unfold new', zlen; by rewrite length_insert).
    split_and!.
    + done.
    + intros k Hk Hh Ho. unfold new'. rewrite list_lookup_insert_ne by lia. by apply Hout.
    + intros j Hj Hz14 Hne. rewrite <- Hbit by done. apply null_bit_set_ne; [lia.. | done | done].
    + intros _. left. rewrite (row_null_codec ct), null_bit_byte; [ | lia | lia | | lia].
      * unfold new'. rewrite list_lookup_insert_eq by (unfold zlen in *; lia). rewrite Z.lor_spec, Z.shiftl_1_l, Z.pow2_bits_true, orb_true_r; [done | zdiv].
      * rewrite <- Hcod. apply row_is_codec_ext; [done | ]. intros k Hk. unfold new'. rewrite list_lookup_insert_ne by lia. apply Hout; lia.
Qed.

Lemma nulled_other db s ct i off w old : type_wf ct -> sn_at db s ct -> field_at ct i off w -> i <> sn_idx s ->
  row_is_codec ct old = true ->
  slot_of (nulled_record db s old) off w = slot_of old off w /\
  row_field_is_null (nulled_record db s old) i = row_field_is_null old i.
Proof.
  intros Hwf Hs Hat Hne Hcod. destruct (nulled_bytes db s ct old Hwf Hs) as (Hl & Hout & Hbit & _). set (new := nulled_record db s old) in *.
  pose proof (field_at_bounds _ _ _ _ Hwf Hat) as (Hi & Hoff & Hw & _). destruct Hs as (_ & Hats & _).
  pose proof (field_at_bounds _ _ _ _ Hwf Hats) as (_ & Hoffs & Hws & _). pose proof (proj1 Hat).
  assert (row_is_codec ct new = true) as Hcod'.
  { rewrite <- Hcod. apply row_is_codec_ext; [done | ]. intros k Hk. apply Hout; lia. }
  split.
  - apply get_range_ext; [done | ]. intros k Hk. apply Hout; [lia | lia | ]. destruct (Z.lt_total i (sn_idx s)) as [Hlt | [? | Hgt]]; [ | done | ].
    + pose proof (field_at_disjoint _ _ _ _ _ _ _ Hwf Hat Hats Hlt). lia.
    + pose proof (field_at_disjoint _ _ _ _ _ _ _ Hwf Hats Hat Hgt). lia.
  - rewrite !(row_null_codec ct) by (done || lia). apply codec_len in Hcod. apply Hbit; lia.
Qed.

Lemma nulled_codec db s ct old : type_wf ct -> sn_at db s ct -> row_is_codec ct (nulled_record db s old) = row_is_codec ct old.
Proof.
  intros Hwf Hs. destruct (nulled_bytes db s ct old Hwf Hs) as (Hl & Hout & _). destruct Hs as (_ & Hat & _).
  destruct (field_at_bounds _ _ _ _ Hwf Hat) as (_ & Hoff & _). apply row_is_codec_ext; [done | ]. intros k Hk. apply Hout; lia.
Qed.

(** A row after the resets of [l]: a field of it has been reset, or it is as it
    was and no reset is for it. *)
Lemma null_row_field db ct o i off w l : type_wf ct -> field_at ct i off w ->
  Forall (fun s => sn_type s = type_id ct -> sn_at db s ct) l -> forall old rec,
  null_row db l (type_id ct) o (Some old) = Some rec -> row_is_codec ct rec = true ->
  row_is_codec ct old = true /\
  (is_reset ct i off w rec \/
   slot_of rec off w = slot_of old off w /\ row_field_is_null rec i = row_field_is_null old i /\
   forall s, s ∈ l -> sn_type s = type_id ct -> sn_id s = o -> sn_idx s <> i).
Proof.
  intros Hwf Hat. induction l as [ | s l IH]; intros Hl old rec Hrec Hcod.
  { cbn in Hrec. injection Hrec as ->. split; [done | ]. right. split_and!; [done | done | by intros s ?%elem_of_nil]. }
  apply Forall_cons in Hl as [Hs Hl]. cbn in Hrec. case_decide as Hhit.
  2: { destruct (IH Hl _ _ Hrec Hcod) as (Hcod1 & [Hr | (Hsl & Hn & Hno)]); split; try done; [by left | ]. right. split_and!; [done | done | ].
       intros s' [-> | Hin]%elem_of_cons Ht Hid; [by destruct Hhit | by apply Hno]. }
  destruct Hhit as [Ht Hid]. specialize (Hs Ht). cbn in Hrec.
  destruct (IH Hl _ _ Hrec Hcod) as (Hcod1 & HIH). rewrite (nulled_codec db s ct old Hwf Hs) in Hcod1. split; [done | ].
  destruct HIH as [Hr | (Hsl & Hn & Hno)]; [by left | ]. destruct (Z.eq_dec i (sn_idx s)) as [-> | Hne].
  - left. destruct (nulled_bytes db s ct old Hwf Hs) as (_ & _ & _ & Hr). specialize (Hr Hcod1).
    destruct Hs as (_ & Hats & _). destruct (field_at_inj _ _ _ _ _ _ Hats Hat) as [-> ->]. unfold is_reset in *. by rewrite Hsl, Hn.
  - right. destruct (nulled_other db s ct i off w old Hwf Hs Hat Hne Hcod1) as [Hsl' Hn']. rewrite Hsl, Hn, Hsl', Hn'. split_and!; [done | done | ].
    intros s' [-> | Hin]%elem_of_cons Ht' Hid'; [done | by apply Hno].
Qed.

Lemma get_type_self db n ct : db_inv db n -> ct ∈ types (db_catalog db) -> get_type db (type_id ct) = Some ct.
Proof.
  intros Hi Hin. destruct (get_type_is_Some db ct Hin) as [ct' Hct']. rewrite Hct'. f_equal. destruct (get_type_elem _ _ _ Hct') as [Hin' Hid].
  by eapply same_id; [apply Hi | ..].
Qed.

Lemma set_null_edge_at db n cl did e acc : db_inv db n -> e ∈ fk_edges db ->
  Forall (fun s => exists ct, sn_at db s ct) acc -> Forall (fun s => exists ct, sn_at db s ct) (set_null_edge db cl did e acc).
Proof.
  intros Hi Hedge Hacc. pose proof (fk_edges_type _ _ Hedge) as He. pose proof (fk_edges_fk _ _ Hedge) as Hfk.
  destruct e as [ct [[fid rt] od]]. cbn in He, Hfk. unfold set_null_edge.
  destruct (field_pos ct fid) as [[[fi off] f] | ] eqn:Hp; [ | done]. apply field_pos_at in Hp as (Hat & Hid & Hf).
  apply fold_left_inv; [ | done]. intros cid acc' Hcid Hacc'. destruct (decide _); [done | ]. destruct (existsb _ _); [done | ].
  apply Forall_app. split; [done | ]. apply Forall_singleton. exists ct. split_and!; cbn; [by eapply get_type_self | done | ].
  intros d. destruct (Z.eqb_spec od 4) as [-> | ]; [ | done]. destruct (List.find _ _) as [[fid' d'] | ] eqn:Hd; [ | done]. cbn. intros [= <-].
  apply find_some in Hd as [Hin Heq%Z.eqb_eq]. cbn in Heq. exists f, d'. subst.
  split_and!; [done | split; [by apply list_elem_of_In | by exists rt] | done].
Qed.

Lemma collect_set_null_at db n cl : db_inv db n -> Forall (fun s => exists ct, sn_at db s ct) (collect_set_null db cl).
Proof.
  intros Hi. unfold collect_set_null. apply fold_left_inv; [ | constructor]. intros d acc _ Hacc.
  apply fold_left_inv; [ | done]. intros [ct [[fid rt] od]] acc' He Hacc'. destruct (_ && _); [ | done]. by eapply set_null_edge_at.
Qed.

(** There is a reset for the field at [i] of the row [(ct, cid)]. *)
Definition resets (ct : ObjectType) (cid : bytes) (i : Z) (l : list SetNull) : Prop :=
  exists s, s ∈ l /\ sn_type s = type_id ct /\ sn_id s = cid /\ sn_idx s = i.

Lemma set_null_edge_in db cl did ct fid rt od i off f acc : field_pos ct fid = Some (i, off, f) ->
  acc ⊆ set_null_edge db cl did (ct, (fid, rt, od)) acc /\
  forall cid, cid ∈ idx_lookup db (type_id ct) fid (norm did (width (f_kind f))) -> (type_id ct, cid) ∉ cl ->
    resets ct cid i (set_null_edge db cl did (ct, (fid, rt, od)) acc).
Proof.
  intros Hp. unfold set_null_edge. rewrite Hp. cbv zeta.
  apply (fold_left_post (fun a b => a ⊆ b) (fun cid b => (type_id ct, cid) ∉ cl -> resets ct cid i b)).
  - done.
  - intros a b c. by etrans.
  - intros cid b c Hbc Hr Hn. destruct (Hr Hn) as (s & Hs & ?). exists s. split; [by apply Hbc | done].
  - intros cid b _. destruct (decide _) as [Hin | Hnin]; [done | ]. destruct (existsb _ _) eqn:Hex; split; try done.
    + intros _. apply existsb_exists in Hex as (s & Hs & [[?%Z.eqb_eq ?%bool_decide_eq_true]%andb_true_iff ?%Z.eqb_eq]%andb_true_iff).
      exists s. split_and!; [by apply list_elem_of_In | done..].
    + intros y Hy. apply elem_of_app. by left.
    + intros _. eexists. split; [apply elem_of_app; right; by apply list_elem_of_singleton | done].
Qed.

(** The resets of a Delete: every row that is left, at a SET NULL or SET DEFAULT
    reference to a row of the closure. *)
Lemma collect_set_null_in db cl d ct fid rt od i off f cid :
  d ∈ cl -> (ct, (fid, rt, od)) ∈ fk_edges db -> rt = d.1 -> od = 3 \/ od = 4 -> field_pos ct fid = Some (i, off, f) ->
  cid ∈ idx_lookup db (type_id ct) fid (norm d.2 (width (f_kind f))) -> (type_id ct, cid) ∉ cl ->
  resets ct cid i (collect_set_null db cl).
Proof.
  intros Hd He Hrt Hod Hp Hc Hn. unfold collect_set_null.
  assert (forall d e acc, acc ⊆ (let '(_, (_, rt, od)) := e in if (rt =? d.1) && ((od =? 3) || (od =? 4)) then set_null_edge db cl d.2 e acc else acc)) as Hsub.
  { intros d' [ct' [[fid' rt'] od']] acc. destruct (_ && _); [ | done]. unfold set_null_edge.
    destruct (field_pos ct' fid') as [[[i' off'] f'] | ] eqn:Hp'; [ | done].
    pose proof (set_null_edge_in db cl d'.2 ct' fid' rt' od' i' off' f' acc Hp') as [Hs _]. unfold set_null_edge in Hs. by rewrite Hp' in Hs. }
  assert (forall b c : list SetNull, b ⊆ c -> resets ct cid i b -> resets ct cid i c) as HQ.
  { intros b c Hbc (s & Hs & ?). exists s. split; [by apply Hbc | done]. }
  assert (forall a b c : list SetNull, a ⊆ b -> b ⊆ c -> a ⊆ c) as Htr by (intros a b c; by etrans).
  eapply (fold_left_one (fun a b => a ⊆ b) (resets ct cid i) _ cl d); [done | exact Htr | exact HQ | | | exact Hd].
  - intros x b. apply (fold_left_inv (fun c => b ⊆ c)); [ | done]. intros e c _ Hbc. etrans; [exact Hbc | apply Hsub].
  - intros b. eapply (fold_left_one (fun a b => a ⊆ b) (resets ct cid i)); [done | exact Htr | exact HQ | | | exact He].
    + intros e c. apply Hsub.
    + intros c. cbn beta iota. rewrite Hrt, Z.eqb_refl. replace ((od =? 3) || (od =? 4)) with true by lia. cbn [andb]. by eapply set_null_edge_in.
Qed.

(** * The record operations *)




(** * No dangling references *)

Lemma norm_shrink v w : zlen v = w -> w <= 16 -> norm (norm v 16) w = v.
Proof.
  intros Hl Hw. pose proof (zlen_nonneg v). unfold norm at 1. rewrite norm_zlen by lia. replace (Z.to_nat (w - 16)) with 0%nat by lia. cbn [replicate].
  rewrite app_nil_r. unfold norm. unfold zlen in *. rewrite (take_ge v) by lia. by rewrite take_app_length' by lia.
Qed.

Lemma fk_edges_in db ct fk : ct ∈ types (db_catalog db) -> fk ∈ fks ct -> (ct, fk) ∈ fk_edges db.
Proof.
  intros Hct Hfk. unfold fk_edges. apply list_elem_of_bind. exists ct. split; [ | done]. apply list_elem_of_bind. exists fk.
  split; [by apply list_elem_of_singleton | done].
Qed.

(** A row refers by [fid] to the row [p]: then the index of the field has it
    among the children of [p]. *)
Lemma child_indexed db n ct fid i off f o rec p :
  db_inv db n -> ct ∈ types (db_catalog db) -> fid ∈ indexes ct -> field_pos ct fid = Some (i, off, f) -> f_kind f <> OverflowRef ->
  width (f_kind f) <= 16 -> oid_ok o -> db_get db (make_key (type_id ct) o) = Some rec ->
  fk_target ct rec fid = Some p -> o ∈ idx_lookup db (type_id ct) fid (norm p (width (f_kind f))).
Proof.
  intros Hi Hct Hix Hp Hk Hw Ho Hrow Htg. pose proof (get_type_self _ _ _ Hi Hct) as Hot. pose proof (get_type_wf _ _ _ _ Hi Hot) as Hwf.
  assert (record_ok rec) as [Hrb _] by (eapply row_record_ok; [exact Hi | exact Hot | exact Ho | exact Hrow]).
  unfold fk_target in Htg. rewrite Hp in Htg. cbn in Htg. destruct (row_field_is_null rec i); [done | ].
  destruct (slot_of rec off _) as [v | ] eqn:Hv; [ | done]. cbn in Htg. injection Htg as <-.
  destruct (slot_of_ok _ _ _ _ Hv Hrb) as [Hvb Hvl]. rewrite norm_shrink by done.
  pose proof (tw_indexes _ Hwf) as Hr. rewrite Forall_forall in Hr. specialize (Hr _ Hix).
  apply (lookup_correct db n (type_id ct) ct); [done | done | unfold u16_ok, u16_max; lia | done | lia | ]. split; [done | ].
  unfold index_value. rewrite (proj2 (Z.ltb_lt _ _)), bool_decide_eq_true_2 by (done || lia). unfold idx_field_pos. rewrite Hp. cbn.
  rewrite bool_decide_eq_false_2 by done. cbn. by rewrite Hrow.
Qed.

(** A row outside the closure of a Delete that refers to one of its rows has a
    reset for the reference. *)
Lemma reference_reset db n t id st ct fid rt od i off f o rec p :
  db_inv db n -> cascade_root db t id = Ret (inl st) -> ct ∈ types (db_catalog db) -> (fid, rt, od) ∈ fks ct -> 1 <= od <= 4 ->
  fid ∈ indexes ct -> field_pos ct fid = Some (i, off, f) -> f_kind f <> OverflowRef -> width (f_kind f) <= 16 -> oid_ok o ->
  db_get db (make_key (type_id ct) o) = Some rec -> fk_target ct rec fid = Some p ->
  (rt, p) ∈ closure st -> (type_id ct, o) ∉ closure st -> resets ct o i (collect_set_null db (closure st)).
Proof.
  intros Hi Hroot Hct Hfk Hod Hix Hp Hk Hw Ho Hrow Htg Hin Hout. pose proof (fk_edges_in _ _ _ Hct Hfk) as He.
  pose proof (child_indexed _ _ _ _ _ _ _ _ _ _ Hi Hct Hix Hp Hk Hw Ho Hrow Htg) as Hchild.
  destruct (cascade_closed _ _ _ _ Hroot) as [_ Hcl]. specialize (Hcl _ Hin _ He eq_refl). unfold children in Hcl. rewrite Hp in Hcl.
  destruct (Hcl _ eq_refl) as [Hr Hc]. assert (od = 1 \/ od = 2 \/ (od = 3 \/ od = 4)) as [H1' | [H2' | H34]] by lia.
  - cbn in Hr. rewrite (Hr H1') in Hchild. by apply elem_of_nil in Hchild.
  - by destruct Hout; apply Hc.
  - by eapply collect_set_null_in.
Qed.

Lemma fk_target_same ct fid i off f rec old : field_pos ct fid = Some (i, off, f) ->
  slot_of rec off (width (f_kind f)) = slot_of old off (width (f_kind f)) -> row_field_is_null rec i = row_field_is_null old i ->
  fk_target ct rec fid = fk_target ct old fid.
Proof. intros Hp Hs Hn. unfold fk_target. rewrite Hp. cbn. by rewrite Hs, Hn. Qed.

Lemma fk_target_reset ct fid i off f rec p : field_pos ct fid = Some (i, off, f) -> is_reset ct i off (width (f_kind f)) rec ->
  fk_target ct rec fid = Some p -> exists d, set_default ct fid d /\ p = norm (norm d (width (f_kind f))) 16.
Proof.
  intros Hp Hr. unfold fk_target. rewrite Hp. cbn. destruct (field_pos_at _ _ _ _ _ Hp) as (_ & Hid & Hf).
  destruct Hr as [-> | (g & d & Hg & Hd & ->)]; [done | ]. destruct (row_field_is_null rec i); [done | ]. cbn. intros [= <-].
  exists d. rewrite Hf in Hg. injection Hg as <-. by rewrite Hid in Hd.
Qed.

Lemma null_row_some db l t o r : is_Some r -> is_Some (null_row db l t o r).
Proof. intros [x ->]. revert x. induction l as [ | s l IH]; intros x; [by eexists | ]. cbn. case_decide; [apply IH | apply IH]. Qed.

(** C6: An acknowledged Delete leaves no dangling reference. Take a row that is
    left, in the current record format of its type, and a foreign key of the
    type with one of the actions RESTRICT, CASCADE, SET NULL and SET DEFAULT
    whose field is indexed, at most 16 bytes wide and no overflow reference. If
    the field refers to a row of the referenced type that was stored before,
    that row is still stored. The one exception is a field with a SET DEFAULT
    key that holds the declared default: the code writes it without looking it
    up. *)
Theorem delete_leaves_no_reference op t id db n db' ct fid rt od i off f o rec p :
  db_inv db n -> n <= op -> u64_ok op -> target_ok db (t, id) -> delete_row op t id db = (db', Ret ResOk) ->
  ct ∈ types (db_catalog db) -> (fid, rt, od) ∈ fks ct -> 1 <= od <= 4 -> is_Some (get_type db rt) ->
  fid ∈ indexes ct -> field_pos ct fid = Some (i, off, f) -> f_kind f <> OverflowRef -> width (f_kind f) <= 16 ->
  oid_ok o -> db_get db' (make_key (type_id ct) o) = Some rec -> row_is_codec ct rec = true ->
  fk_target ct rec fid = Some p -> is_Some (db_get db (make_key rt p)) ->
  is_Some (db_get db' (make_key rt p)) \/ exists d, set_default ct fid d /\ p = norm (norm d (width (f_kind f))) 16.
Proof.
  intros Hi Hle Hop Ht Hdel Hct Hfk Hod [prt Hrt] Hix Hp Hk Hw Ho Hrow Hcod Htg Hprow.
  destruct (delete_row_keeps op t id db n Hi Hle Hop Ht) as (db1 & r & Hm & Hi' & _ & _ & Hspec).
  rewrite Hdel in Hm. injection Hm as <- <-. destruct Hspec as (_ & st & Hroot & Hrows).
  pose proof (get_type_self _ _ _ Hi Hct) as Hot. pose proof (get_type_wf _ _ _ _ Hi Hot) as Hwf.
  pose proof (get_type_small _ _ _ _ Hi Hot) as Hsm. pose proof (get_type_small _ _ _ _ Hi Hrt) as Hsr.
  rewrite Hrows in Hrow by done. destruct (decide _) as [ | Hout] in Hrow; [done | ].
  destruct (db_get db (make_key (type_id ct) o)) as [old | ] eqn:Hold; [ | by rewrite null_row_none in Hrow].
  destruct (field_pos_at _ _ _ _ _ Hp) as [Hat _].
  destruct (null_row_field db ct o i off (width (f_kind f)) (collect_set_null db (closure st)) Hwf Hat) with (old := old) (rec := rec)
    as (Hcod' & [Hr | (Hslot & Hnull & Hno)]); [ | done | done | right; by eapply fk_target_reset | ].
  { eapply Forall_impl; [by eapply collect_set_null_at | ]. intros s (ct' & Hs) Heq. pose proof Hs as (Hct' & _).
    rewrite Heq, Hot in Hct'. by injection Hct' as <-. }
  rewrite (fk_target_same _ _ _ _ _ _ _ Hp Hslot Hnull) in Htg. left.
  assert (oid_ok p) as Hpo by (eapply fk_target_oid; [ | exact Htg]; by eapply row_record_ok in Hold as [? _]).
  rewrite Hrows by done. destruct (decide _) as [Hin | _]; [ | by apply null_row_some].
  destruct (reference_reset db n t id st ct fid rt od i off f o old p) as (s & Hs & ? & ? & ?); try done. by destruct (Hno s).
Qed.
End Refs.

(** A child type whose first field refers to [pair_type] and cascades, two
    parents, and a child of each. *)
Definition child_fields : list Field := [mkField 1 [97] Ref true].
Definition child_type : ObjectType := mkObjectType 2 [117] 1 child_fields [1] [] [(1, 1, 2)] [] [] [] [] [] false None.
Definition child_record (b : bytes) : bytes := match encode child_type [Blob b] with Ret (inl r) => r | _ => [] end.
Definition family_step (db : Db MemVfs) (op : Z) (o : DbOp) : Db MemVfs := (db_apply op o db).1.
Definition db_family : Db MemVfs :=
  family_step (family_step (family_step (family_step (db_empty (mkCatalog [pair_type; child_type] 3 []))
    1 (Create 1 (pair_id 7) (pair_record 5 6))) 2 (Create 1 (pair_id 8) (pair_record 5 6)))
    3 (Create 2 (pair_id 1) (child_record (pair_id 7)))) 4 (Create 2 (pair_id 2) (child_record (pair_id 8))).

Lemma child_type_wf : type_wf child_type.
Proof.
  constructor; cbn; try done; unfold small_type; try lia.
  - by apply Forall_singleton.
  - by apply Forall_singleton.
  - by apply Forall_singleton.
Qed.

Lemma db_family_inv : db_inv db_family 4.
Proof.
  assert (forall db n t i rec, db_inv db n -> 0 <= n < 100 -> bytes_okb rec && (zlen rec <=? 4294900000) = true ->
    db_inv (family_step db (n + 1) (Create t (pair_id i) rec)) (n + 1)) as Hstep.
  { intros db n t i rec Hi Hn Hr. apply (step_inv _ _ _ n); [done | lia | lit | ]. split; [apply pair_id_ok | by apply record_ok_dec]. }
  apply (Hstep _ 3); [ | lia | by vm_compute]. apply (Hstep _ 2); [ | lia | by vm_compute].
  apply (Hstep _ 1); [ | lia | by vm_compute]. apply (Hstep _ 0); [ | lia | by vm_compute]. apply db_empty_inv; cbn.
  - apply Forall_cons. split; [exact pair_type_wf | ]. apply Forall_singleton, child_type_wf.
  - by apply (bool_decide_unpack _).
  - split; [ | done]. by repeat constructor.
Qed.

Lemma delete_leaves_no_reference_witness :
  is_Some (db_get (delete_row 5 1 (pair_id 7) db_family).1 (make_key 1 (pair_id 8))) \/
  exists d, set_default child_type 1 d /\ pair_id 8 = norm (norm d (width Ref)) 16.
Proof.
  apply (delete_leaves_no_reference 5 1 (pair_id 7) db_family 4 (delete_row 5 1 (pair_id 7) db_family).1 child_type
    1 1 2 0 14 (mkField 1 [97] Ref true) (pair_id 2) (child_record (pair_id 8)) (pair_id 8) db_family_inv).
  - lia.
  - lit.
  - split; [vm_compute; by eexists | apply pair_id_ok].
  - by vm_compute.
  - vm_compute. right. left.
  - by left.
  - lia.
  - vm_compute. by eexists.
  - by left.
  - by vm_compute.
  - done.
  - done.
  - apply pair_id_ok.
  - by vm_compute.
  - by vm_compute.
  - by vm_compute.
  - vm_compute. by eexists.
Defined.

