(* ===== verification/RowQuerySpec.v ===== *)
(** kessel-sm: what the queries answer.

    The folds of an aggregate over the rows dealt to the workers give what one
    pass gives, and that is the count, the sum, the least and the greatest value
    of the column; groups are that per key; the planner changes no answer; and
    the read path agrees with [apply].

    Source: src/crates/kessel-sm/src/lib.rs. *)

From Stdlib Require Import ZArith Lia String.
From stdpp Require Import base numbers list sorting gmap fin_maps.
From S2P Require Import Prelude BTree Proto Vfs Wal SsTable Storage View Recovery Crash Mvcc MvccSpec Engine Ssi Tx Sm SmSpec.
From S2P Require Import Reader Catalog Codec Expr ExprSpec Filter Cache Rows RowQuery RowSchema RowApply RowStore RowsSpec RowOps RowIndex RowRefs.

#[local] Open Scope Z_scope.

(** * Accumulators *)

(** The values of the column in a list of rows. *)
Definition col_values (pos : option (Z * Z * bool)) (rows : list bytes) : list Z :=
  match pos with
  | None => []
  | Some (off, w, signed) => omap (fun rec => (fun raw => dec raw w signed) <$> slot_of rec off w) rows
  end.

Definition list_sum (l : list Z) : Z := foldr Z.add 0 l.
Definition list_best (f : Z -> Z -> Z) (l : list Z) : option Z := foldr (fun v best => opt_merge f (Some v) best) None l.

(** The accumulator of a list of rows, by its meaning. *)
Definition acc_of (pos : option (Z * Z * bool)) (rows : list bytes) : Acc :=
  let vs := col_values pos rows in
  mkAcc (zlen rows) (wrap_i128 (list_sum vs)) (list_best Z.min vs) (list_best Z.max vs).

Lemma wrap_i128_mod z : wrap_i128 z mod 2 ^ 128 = z mod 2 ^ 128.
Proof.
  unfold wrap_i128. destruct (_ <? _); [by apply Z.mod_mod | ].
  replace (z mod 2 ^ 128 - 2 ^ 128) with (z mod 2 ^ 128 + (-1) * 2 ^ 128) by lia. rewrite Z.mod_add by done. by apply Z.mod_mod.
Qed.

Lemma wrap_i128_eq a b : a mod 2 ^ 128 = b mod 2 ^ 128 -> wrap_i128 a = wrap_i128 b.
Proof. intros E. unfold wrap_i128. by rewrite E. Qed.

Lemma wrap_i128_add a b : wrap_i128 (wrap_i128 a + wrap_i128 b) = wrap_i128 (a + b).
Proof. apply wrap_i128_eq. rewrite Zplus_mod, !wrap_i128_mod. by rewrite <- Zplus_mod. Qed.

Lemma wrap_i128_add_l a b : wrap_i128 (wrap_i128 a + b) = wrap_i128 (a + b).
Proof. apply wrap_i128_eq. rewrite Zplus_mod, wrap_i128_mod. by rewrite <- Zplus_mod. Qed.

Lemma opt_merge_assoc f a b c : (forall x y z, f (f x y) z = f x (f y z)) -> opt_merge f (opt_merge f a b) c = opt_merge f a (opt_merge f b c).
Proof. intros Hf. destruct a, b, c; cbn; try done. by rewrite Hf. Qed.

Lemma list_best_app f l k : (forall x y z, f (f x y) z = f x (f y z)) -> list_best f (l ++ k) = opt_merge f (list_best f l) (list_best f k).
Proof.
  intros Hf. induction l as [ | v l IH]; [done | ]. unfold list_best in *. cbn [foldr app].
  rewrite IH. by rewrite opt_merge_assoc.
Qed.

Lemma list_sum_app l k : list_sum (l ++ k) = list_sum l + list_sum k.
Proof. induction l as [ | v l IH]; [done | ]. cbn. unfold list_sum in *. rewrite IH. lia. Qed.

Lemma col_values_app pos l k : col_values pos (l ++ k) = col_values pos l ++ col_values pos k.
Proof. destruct pos as [[[off w] sg] | ]; [apply omap_app | done]. Qed.

Lemma acc_of_nil pos : acc_of pos [] = acc_init.
Proof. by destruct pos as [[[off w] sg] | ]. Qed.

Lemma acc_merge_of pos l k : acc_merge (acc_of pos l) (acc_of pos k) = acc_of pos (l ++ k).
Proof.
  unfold acc_merge, acc_of. cbn. rewrite col_values_app, list_sum_app, zlen_app, wrap_i128_add, !list_best_app by (intros; lia). done.
Qed.

Lemma acc_of_snoc pos rows rec : acc_fold pos rec (acc_of pos rows) = acc_of pos (rows ++ [rec]).
Proof.
  unfold acc_of. rewrite col_values_app, list_sum_app, zlen_app, !list_best_app by (intros; lia). unfold acc_fold, acc_row, acc_value.
  generalize (list_best Z.min (col_values pos rows)) (list_best Z.max (col_values pos rows)). intros mn mx.
  destruct pos as [[[off w] sg] | ]; cbn.
  - destruct (slot_of rec off w) as [raw | ]; cbn; f_equal.
    + by rewrite wrap_i128_add_l, Z.add_0_r.
    + by destruct mn.
    + by destruct mx.
    + by rewrite Z.add_0_r.
    + by destruct mn.
    + by destruct mx.
  - by destruct mn, mx.
Qed.

(** The order of the rows does not matter. *)
#[export] Instance acc_of_perm pos : Proper ((≡ₚ) ==> eq) (acc_of pos).
Proof.
  assert (forall f, (forall x y, f x y = f y x) -> (forall x y z, f (f x y) z = f x (f y z)) -> Proper ((≡ₚ) ==> eq) (list_best f)) as Hbest.
  { intros f Hc Ha. assert (forall a b, opt_merge f a b = opt_merge f b a) as Hoc by (intros [x | ] [y | ]; cbn; [by rewrite Hc | done..]).
    assert (forall x l, list_best f (x :: l) = opt_merge f (Some x) (list_best f l)) as Hcons by done.
    intros l k Hp. induction Hp as [ | x l k Hp IH | x y l | l k m Hp1 IH1 Hp2 IH2]; [done | | | congruence].
    - by rewrite !Hcons, IH.
    - rewrite !Hcons, <- (opt_merge_assoc f (Some y) (Some x) _ Ha), (Hoc (Some y)). by apply opt_merge_assoc. }
  intros l k Hp. unfold acc_of. assert (col_values pos l ≡ₚ col_values pos k) as Hv.
  { destruct pos as [[[off w] sg] | ]; [ | done]. cbn. by rewrite Hp. }
  f_equal.
  - unfold zlen. by rewrite Hp.
  - f_equal. clear Hp. induction Hv; cbn in *; unfold list_sum in *; cbn; lia.
  - apply Hbest; [intros; lia | intros; lia | done].
  - apply Hbest; [intros; lia | intros; lia | done].
Qed.

(** * The workers *)

Lemma batches_concat {A} n fuel : forall rows : list A, (0 < n)%nat -> (length rows <= fuel)%nat -> concat (batches fuel n rows) = rows.
Proof.
  induction fuel as [ | fuel IH]; intros [ | x rows] Hn Hl; cbn in Hl; try done; [lia | ]. cbn [batches concat].
  rewrite IH; [apply take_drop | done | ]. rewrite length_drop. cbn. lia.
Qed.

Lemma alter_perm {A} (b : A) : forall (shares : list (list A)) next, (next < length shares)%nat ->
  concat (alter (fun l => l ++ [b]) next shares) ≡ₚ b :: concat shares.
Proof.
  induction shares as [ | s shares IH]; intros [ | next] Hl; cbn in *; try lia.
  - rewrite <- app_assoc. cbn. by rewrite Permutation_middle.
  - rewrite IH by lia. by rewrite Permutation_middle.
Qed.

Lemma deal_from_perm {A} (bs : list A) : forall next shares, (next < length shares)%nat -> concat (deal_from next bs shares) ≡ₚ concat shares ++ bs.
Proof.
  induction bs as [ | b bs IH]; intros next shares Hl; cbn [deal_from]; [by rewrite app_nil_r | ].
  rewrite IH, alter_perm by (rewrite ?length_alter; try done; apply Nat.mod_upper_bound; lia). cbn. by rewrite Permutation_middle.
Qed.

Lemma concat_map_concat {A} (l : list (list (list A))) : concat ((fun bs => concat bs) <$> l) = concat (concat l).
Proof. induction l as [ | x l IH]; [done | ]. cbn. by rewrite IH, concat_app. Qed.

(** Every row is dealt to exactly one worker. *)
Lemma deal_perm {A} workers n (rows : list A) : (0 < workers)%nat -> (0 < n)%nat -> concat (deal workers n rows) ≡ₚ rows.
Proof.
  intros Hw Hn. unfold deal. rewrite concat_map_concat. rewrite deal_from_perm by (rewrite length_replicate; lia).
  assert (concat (replicate workers ([] : list (list A))) = []) as -> by (clear Hw; by induction workers). cbn. by rewrite batches_concat.
Qed.

(** The filter decides every row, as [b] says. *)
Definition decides (keep : bytes -> outcome (bool + ExprError)) (b : bytes -> bool) (rows : list bytes) : Prop :=
  forall rec, rec ∈ rows -> keep rec = Ret (inl (b rec)).

Lemma fold_rows_ret {S} keep b place (f : bytes -> S -> S) rows : forall s, decides keep b rows ->
  fold_rows keep place f s rows = Ret (inl (fold_left (fun s rec => f rec s) (List.filter b rows) s)).
Proof.
  induction rows as [ | rec rows IH]; intros s Hd; [done | ]. cbn [fold_rows List.filter]. rewrite (Hd rec) by left. cbn [mbind outcome_bind].
  rewrite IH by (intros r Hr; apply Hd; by right). by destruct (b rec).
Qed.

Lemma run_workers_ret {S} (work : list bytes -> outcome (S + Message)) (g : list bytes -> S) shares :
  (forall rows, rows ∈ shares -> work rows = Ret (inl (g rows))) -> run_workers work shares = Ret (inl (g <$> shares)).
Proof.
  induction shares as [ | rows shares IH]; intros Hw; [done | ]. cbn [run_workers]. rewrite (Hw rows) by left.
  rewrite IH by (intros r Hr; apply Hw; by right). done.
Qed.

(** The partial folds are the folds of a partition of the rows. *)
Lemma partial_folds_ret {S} keep b place (f : bytes -> S -> S) init rows : decides keep b rows ->
  exists shares, concat shares ≡ₚ rows /\
    partial_folds keep place f init rows = Ret (inl ((fun rows => fold_left (fun s rec => f rec s) (List.filter b rows) init) <$> shares)).
Proof.
  intros Hd. unfold partial_folds.
  assert (forall shares, concat shares ≡ₚ rows -> run_workers (fold_rows keep place f init) shares =
    Ret (inl ((fun rows => fold_left (fun s rec => f rec s) (List.filter b rows) init) <$> shares))) as Hw.
  { intros shares Hp. apply run_workers_ret. intros sh Hsh. apply fold_rows_ret. intros rec Hrec. apply Hd. rewrite <- Hp.
    apply list_elem_of_In, in_concat. exists sh. by split; apply list_elem_of_In. }
  destruct (_ <? _).
  - exists [rows]. assert (concat [rows] ≡ₚ rows) as Hp by (cbn; by rewrite app_nil_r). split; [done | by apply Hw].
  - exists (deal NUM_HASH_AGG_WORKERS BATCH_SIZE rows). assert (concat (deal NUM_HASH_AGG_WORKERS BATCH_SIZE rows) ≡ₚ rows) as Hp
      by (apply deal_perm; unfold NUM_HASH_AGG_WORKERS, BATCH_SIZE; lia). split; [done | by apply Hw].
Qed.

Lemma fold_left_of {A B} (of_ : list A -> B) (f : B -> A -> B) : (forall l x, f (of_ l) x = of_ (l ++ [x])) ->
  forall k l, fold_left f k (of_ l) = of_ (l ++ k).
Proof.
  intros Hf k. induction k as [ | x k IH]; intros l; cbn; [by rewrite app_nil_r | ]. rewrite Hf, IH. by rewrite <- app_assoc.
Qed.

Lemma filter_perm {A} (b : A -> bool) l k : l ≡ₚ k -> List.filter b l ≡ₚ List.filter b k.
Proof.
  induction 1; cbn; [done | | | by etrans].
  - by destruct (b x); rewrite IHPermutation.
  - destruct (b x), (b y); try done. apply Permutation_swap.
Qed.

Lemma filter_concat {A} (b : A -> bool) l : List.filter b (concat l) = concat (List.filter b <$> l).
Proof. induction l as [ | x l IH]; [done | ]. cbn. by rewrite List.filter_app, IH. Qed.

(** Folds that are a function of the rows, whatever their order, and merge by
    concatenation: the parallel fold is the function of the rows that pass. *)
Lemma parallel_fold {S} keep b place (f : bytes -> S -> S) (merge : S -> S -> S) (of_ : list bytes -> S) rows :
  decides keep b rows -> (forall l x, f x (of_ l) = of_ (l ++ [x])) -> (forall l k, merge (of_ l) (of_ k) = of_ (l ++ k)) ->
  (forall l k, l ≡ₚ k -> of_ l = of_ k) ->
  exists parts, partial_folds keep place f (of_ []) rows = Ret (inl parts) /\
    fold_left merge parts (of_ []) = of_ (List.filter b rows).
Proof.
  intros Hd Hf Hm Hp. destruct (partial_folds_ret keep b place f (of_ []) rows Hd) as (shares & Hsh & ->). eexists. split; [done | ].
  rewrite <- (Hp _ _ (filter_perm b _ _ Hsh)), filter_concat. clear Hsh.
  assert (forall acc, fold_left merge ((fun rows => fold_left (fun s rec => f rec s) (List.filter b rows) (of_ [])) <$> shares) (of_ acc) =
    of_ (acc ++ concat (List.filter b <$> shares))) as Hall.
  { induction shares as [ | sh shares IH]; intros acc; cbn; [by rewrite app_nil_r | ].
    rewrite (fold_left_of of_ (fun s rec => f rec s) Hf (List.filter b sh) []). cbn [app]. by rewrite Hm, IH, <- app_assoc. }
  apply (Hall []).
Qed.

(** * Aggregates *)

Section Aggregates.
Context {W : Type} `{VfsLaws W}.
Implicit Types db : Db W.

(** No type of the invariant has an ordered index, so no range hint narrows. *)
Lemma narrow_ranges_none db t ot preds cand : ordered ot = [] -> narrow_ranges db t ot preds cand = cand.
Proof.
  intros Ho. unfold narrow_ranges. generalize (field_set ((fun p => p.1.1) <$> preds)). intros l. induction l as [ | fid l IH]; [done | ].
  cbn [fold_left]. rewrite bool_decide_eq_false_2 by (rewrite Ho; apply not_elem_of_nil). exact IH.
Qed.

Lemma narrow_by_none db t ot preds : ordered ot = [] -> narrow_by_range_preds db t ot preds = None.
Proof. intros Ho. unfold narrow_by_range_preds. case_bool_decide; [done | ]. by apply narrow_ranges_none. Qed.

End Aggregates.

(** * Groups *)

(** The rows of the group [k], and the groups of a list of rows by their
    meaning: for every key of a row, the accumulators of the rows with it. *)
Definition rows_with (cols : list (Z * Z)) (k : bytes) (rows : list bytes) : list bytes :=
  List.filter (fun rec => bool_decide (group_key cols rec = Some k)) rows.
Definition group_accs (cols : list (Z * Z)) (poss : list (option (Z * Z * bool))) (rows : list bytes) (k : bytes) : list Acc :=
  (fun pos => acc_of pos (rows_with cols k rows)) <$> poss.
Definition groups_of (cols : list (Z * Z)) (poss : list (option (Z * Z * bool))) (rows : list bytes) : gmap bytes (list Acc) :=
  list_to_map ((fun k => (k, group_accs cols poss rows k)) <$> remove_dups (omap (group_key cols) rows)).

Lemma groups_of_lookup cols poss rows k :
  groups_of cols poss rows !! k = if decide (k ∈ omap (group_key cols) rows) then Some (group_accs cols poss rows k) else None.
Proof.
  unfold groups_of. assert (((fun k => (k, group_accs cols poss rows k)) <$> remove_dups (omap (group_key cols) rows)).*1 =
    remove_dups (omap (group_key cols) rows)) as Hk.
  { rewrite <- list_fmap_compose. cbn. by rewrite list_fmap_id. }
  case_decide as Hin.
  - apply elem_of_list_to_map_1; [rewrite Hk; apply NoDup_remove_dups | ]. apply list_elem_of_fmap. exists k. split; [done | by apply elem_of_remove_dups].
  - apply not_elem_of_list_to_map_1. rewrite Hk. by rewrite elem_of_remove_dups.
Qed.

(** A group without rows has the initial accumulators. *)
Lemma group_accs_default cols poss rows k :
  default (replicate (length poss) acc_init) (groups_of cols poss rows !! k) = group_accs cols poss rows k.
Proof.
  rewrite groups_of_lookup. case_decide as Hin; [done | ]. cbn. unfold group_accs. assert (rows_with cols k rows = []) as ->.
  { unfold rows_with. clear poss. induction rows as [ | rec rows IH]; [done | ]. cbn in *.
    destruct (group_key cols rec) as [k' | ]; [ | by apply IH]. rewrite not_elem_of_cons in Hin. destruct Hin as [Hne Hin].
    rewrite bool_decide_eq_false_2 by congruence. by apply IH. }
  induction poss as [ | pos poss IH]; [done | ]. cbn. by rewrite acc_of_nil, IH.
Qed.

Lemma rows_with_app cols k a b : rows_with cols k (a ++ b) = rows_with cols k a ++ rows_with cols k b.
Proof. apply List.filter_app. Qed.

Lemma omap_keys_app cols k a b :
  k ∈ omap (group_key cols) (a ++ b) <-> k ∈ omap (group_key cols) a \/ k ∈ omap (group_key cols) b.
Proof. rewrite omap_app. apply elem_of_app. Qed.

Lemma zip_accs {A} (f : A -> Acc) (h : A -> Acc -> Acc) (g : A -> Acc) l : (forall x, h x (f x) = g x) -> zip_with h l (f <$> l) = g <$> l.
Proof. intros E. induction l as [ | x l IH]; [done | ]. cbn. by rewrite E, IH. Qed.

Lemma group_fold_of cols poss rows rec : group_fold cols poss rec (groups_of cols poss rows) = groups_of cols poss (rows ++ [rec]).
Proof.
  apply map_eq. intros k. unfold group_fold. destruct (group_key cols rec) as [k0 | ] eqn:Hk.
  - rewrite group_accs_default. destruct (decide (k0 = k)) as [-> | Hne].
    + rewrite lookup_insert_eq, groups_of_lookup, decide_True by (rewrite omap_keys_app; right; cbn; rewrite Hk; by left). f_equal.
      apply zip_accs. intros pos. rewrite rows_with_app. cbn. rewrite bool_decide_eq_true_2 by done. apply acc_of_snoc.
    + rewrite lookup_insert_ne, !groups_of_lookup by done. unfold group_accs. rewrite rows_with_app. cbn.
      rewrite bool_decide_eq_false_2 by congruence. rewrite app_nil_r. apply decide_ext. rewrite omap_keys_app. cbn. rewrite Hk.
      rewrite list_elem_of_singleton. split; [by left | by intros [? | ->]].
  - rewrite !groups_of_lookup. unfold group_accs. rewrite rows_with_app. cbn. rewrite bool_decide_eq_false_2 by congruence.
    rewrite app_nil_r. apply decide_ext. rewrite omap_keys_app. cbn. rewrite Hk. rewrite elem_of_nil. split; [by left | by intros [? | []]].
Qed.

Lemma merge_groups_lookup (n : nat) (g part : gmap bytes (list Acc)) (k : bytes) :
  merge_groups n g part !! k =
    match part !! k with Some p => Some (zip_with acc_merge (default (replicate n acc_init) (g !! k)) p) | None => g !! k end.
Proof.
  unfold merge_groups. rewrite <- (list_to_map_to_list part) at 2. pose proof (NoDup_fst_map_to_list part) as Hn.
  induction (map_to_list part) as [ | [k0 p] l IH]; [done | ]. cbn in *. apply NoDup_cons in Hn as [Hnin Hn]. specialize (IH Hn).
  destruct (decide (k0 = k)) as [-> | Hne].
  - rewrite !lookup_insert_eq. rewrite IH. by rewrite (not_elem_of_list_to_map_1 l k Hnin).
  - by rewrite !lookup_insert_ne.
Qed.

Lemma merge_groups_of cols poss a b : merge_groups (length poss) (groups_of cols poss a) (groups_of cols poss b) = groups_of cols poss (a ++ b).
Proof.
  apply map_eq. intros k. rewrite merge_groups_lookup, group_accs_default, !groups_of_lookup.
  rewrite (decide_ext _ (k ∈ omap (group_key cols) a \/ k ∈ omap (group_key cols) b) _ _ (omap_keys_app cols k a b)).
  assert (zip_with acc_merge (group_accs cols poss a k) (group_accs cols poss b k) = group_accs cols poss (a ++ b) k) as Hz.
  { unfold group_accs. rewrite rows_with_app. induction poss as [ | pos poss IH]; [done | ]. cbn. by rewrite acc_merge_of, IH. }
  destruct (decide (k ∈ omap (group_key cols) b)) as [Hb | Hb]; [rewrite decide_True by (by right); by rewrite Hz | ].
  destruct (decide (k ∈ omap (group_key cols) a)) as [Ha | Ha]; [ | by rewrite decide_False by (by intros [? | ?])].
  rewrite decide_True by (by left). f_equal. rewrite <- Hz. rewrite <- (group_accs_default cols poss b), groups_of_lookup, decide_False by done.
  cbn. unfold group_accs. generalize (rows_with cols k a). intros r. clear. induction poss as [ | pos poss IH]; [done | ]. cbn. rewrite IH at 1. f_equal.
  rewrite <- (acc_of_nil pos), acc_merge_of. by rewrite app_nil_r.
Qed.

Lemma groups_of_perm cols poss a b : a ≡ₚ b -> groups_of cols poss a = groups_of cols poss b.
Proof.
  intros Hp. apply map_eq. intros k. rewrite !groups_of_lookup. assert (group_accs cols poss a k = group_accs cols poss b k) as ->.
  { unfold group_accs. apply list_fmap_ext. intros _ pos _. by rewrite (filter_perm _ _ _ Hp : rows_with cols k a ≡ₚ rows_with cols k b). }
  apply decide_ext. by rewrite Hp.
Qed.

Section Groups.
Context {W : Type} `{VfsLaws W}.
Implicit Types db : Db W.

Lemma multi_pos_length ot aggs poss : multi_pos ot aggs = inl poss -> length poss = length aggs.
Proof.
  revert poss. induction aggs as [ | [kind fid] aggs IH]; intros poss; cbn [multi_pos]; [by intros [= <-] | ].
  destruct (4 <? kind); [done | ]. destruct (agg_pos ot kind fid); [ | done]. destruct (multi_pos ot aggs); [ | done].
  intros [= <-]. cbn. by rewrite (IH _ eq_refl).
Qed.

(** The answer of a GROUP BY, by its meaning: the groups of the rows that pass,
    in the order of their keys, with HAVING, the sort and the page. *)
Definition group_answer (g : Z * Z) (cols : list (Z * Z)) (kinds : list Z) (poss : list (option (Z * Z * bool)))
    (having : option HavingPred) (sort : option GroupSort) (rows : list bytes) : DbResult :=
  emit_group_results_composite (group_rows g.2 cols.*2 kinds having (groups_of (g :: cols) poss rows)) sort.

Lemma group_multi_answer db n t ot program group_field aggs ranges extra having sort g cols poss b :
  db_inv db n -> get_type db t = Some ot -> aggs <> [] -> group_cols ot group_field extra = inl (g, cols) ->
  multi_pos ot aggs = inl poss -> decides (row_filter program ot) b (snd <$> type_rows db t) ->
  group_aggregate_multi db t program group_field aggs ranges extra having sort =
    Ret (group_answer g cols aggs.*1 poss having sort (List.filter b (snd <$> type_rows db t))).
Proof.
  intros Hi Hot Hne Hg Hp Hd. pose proof (tw_ordered _ (get_type_wf _ _ _ _ Hi Hot)) as Ho. unfold group_aggregate_multi.
  rewrite bool_decide_eq_false_2, Hot, Hg, Hp, narrow_by_none by done. cbn [source_rows].
  destruct (parallel_fold (row_filter program ot) b "group-multi program" (group_fold (g :: cols) poss) (merge_groups (length aggs))
    (groups_of (g :: cols) poss) (snd <$> type_rows db t) Hd) as (parts & Hf & Hm).
  - intros l x. apply group_fold_of.
  - intros l k. rewrite <- (multi_pos_length _ _ _ Hp). apply merge_groups_of.
  - intros l k. apply groups_of_perm.
  - change (groups_of (g :: cols) poss []) with (∅ : gmap bytes (list Acc)) in Hf, Hm. rewrite Hf. ob. by rewrite Hm.
Qed.


Lemma group_fold_rows cols poss rows : fold_left (fun s rec => group_fold cols poss rec s) rows ∅ = groups_of cols poss rows.
Proof. apply (fold_left_of (groups_of cols poss) (fun s rec => group_fold cols poss rec s) (group_fold_of cols poss) rows []). Qed.

(** GROUP BY with one aggregate, which scans serially with the interpreter,
    and GROUP BY with a list of one, which uses the compiled filter and the
    workers, give byte-identical answers when both filters decide every row
    alike. *)
Theorem group_aggregate_is_multi db n t ot program group_field kind fid ranges extra having sort b :
  db_inv db n -> get_type db t = Some ot -> kind <= 4 ->
  decides (row_filter program ot) b (snd <$> type_rows db t) ->
  decides (if bool_decide (program = always_true) then fun _ => Ret (inl true) else eval program ot) b (snd <$> type_rows db t) ->
  is_Some (agg_pos ot kind fid) ->
  group_aggregate db t program group_field kind fid ranges extra having sort =
    group_aggregate_multi db t program group_field [(kind, fid)] ranges extra having sort.
Proof.
  intros Hi Hot Hk Hd Hd' [pos Hpos]. pose proof (tw_ordered _ (get_type_wf _ _ _ _ Hi Hot)) as Ho.
  unfold group_aggregate. rewrite Hot, Hpos, narrow_by_none by done. destruct (group_cols ot group_field extra) as [[g cols] | m] eqn:Hg.
  - rewrite (group_multi_answer db n t ot program group_field [(kind, fid)] ranges extra having sort g cols [pos] b); try done.
    + rewrite (fold_rows_ret _ b) by done. rewrite group_fold_rows. ob. by rewrite (proj2 (Z.ltb_ge 4 kind)).
    + cbn. by rewrite (proj2 (Z.ltb_ge 4 kind)), Hpos.
  - unfold group_aggregate_multi. by rewrite Hot, Hg.
Qed.
End Groups.

(** * The planner *)

Lemma ssorted_bfilter {A} (R : A -> A -> Prop) (b : A -> bool) l : StronglySorted R l -> StronglySorted R (List.filter b l).
Proof.
  induction 1 as [ | x l Hl IH Hx]; [constructor | ]. cbn. destruct (b x); [ | done]. constructor; [done | ].
  apply List.Forall_forall. intros y [Hy _]%filter_In. rewrite List.Forall_forall in Hx. by apply Hx.
Qed.

Lemma ssorted_sfilter {A} (R : A -> A -> Prop) (P : A -> Prop) `{!forall x, Decision (P x)} l : StronglySorted R l -> StronglySorted R (filter P l).
Proof.
  induction 1 as [ | x l Hl IH Hx]; [constructor | ]. rewrite filter_cons. case_decide; [ | done]. constructor; [done | ].
  apply Forall_forall. intros y [_ Hy]%list_elem_of_filter. rewrite Forall_forall in Hx. by apply Hx.
Qed.

(** The first [limit] elements, all of them when it is zero. *)
Definition limited {A} (limit : Z) (l : list A) : list A := if limit =? 0 then l else take (Z.to_nat limit) l.

Lemma filter_rows_ret {A} place program ot b limit (rows : list (A * bytes)) : 0 <= limit ->
  decides (eval program ot) b (snd <$> rows) ->
  filter_rows place program ot limit 0 rows = Ret (inl (limited limit (List.filter (b ∘ snd) rows))).
Proof.
  intros Hl Hd. assert (forall n, 0 <= n -> filter_rows place program ot limit n rows =
    Ret (inl (if limit =? 0 then List.filter (b ∘ snd) rows else take (Z.to_nat (limit - n)) (List.filter (b ∘ snd) rows)))) as Hall.
  { induction rows as [ | [k rec] rows IH]; intros n Hn.
    { cbn. destruct (limit =? 0); [done | by rewrite take_nil]. }
    assert (decides (eval program ot) b (snd <$> rows)) as Hd' by (intros r Hr; apply Hd; cbn; by right). specialize (IH Hd').
    cbn [filter_rows List.filter]. unfold compose. cbn [snd]. rewrite (Hd rec) by (cbn; left).
    destruct (Z.eqb_spec limit 0) as [-> | Hne]; cbn [negb andb].
    - ob. destruct (b rec); rewrite IH by lia; done.
    - destruct (Z.leb_spec limit n); [by replace (Z.to_nat (limit - n)) with 0%nat by lia | ]. ob.
      destruct (b rec); rewrite IH by lia; [ob | done]. replace (Z.to_nat (limit - n)) with (S (Z.to_nat (limit - (n + 1)))) by lia. done. }
  rewrite Hall by lia. unfold limited. by rewrite Z.sub_0_r.
Qed.

(** ** Comparisons *)










Section Planner.
Context {W : Type} `{VfsLaws W}.
Implicit Types db : Db W.

Lemma type_rows_sorted db n t : db_inv db n -> small_type t -> ssorted (type_rows db t).
Proof.
  intros Hi Ht%small_user. destruct (kv_ok_reads _ _ (at_store _ _ (iv_at _ _ Hi))) as [Hwf Hk]. unfold type_rows, scan_range.
  assert (forall b, byte_ok b -> oid_ok (replicate 16 b)) as Hrep by (intros; split; [done | by apply Forall_replicate]).
  rewrite !data_row_dispatch_key by (done || apply Hrep; unfold byte_ok; lia). rewrite Z.eqb_refl. by apply scan_range_rows_sorted.
Qed.

Lemma fetch_rows_sorted db t ids : StronglySorted klt ids -> ssorted (fetch_rows db t ids).
Proof.
  unfold fetch_rows. induction 1 as [ | id ids Hs IH Hx]; [constructor | ]. cbn. destruct (db_get db (make_key t id)) as [rec | ]; [ | done]. cbn.
  constructor; [done | ]. apply List.Forall_forall. intros [k r] Hin%list_elem_of_In. apply list_elem_of_omap in Hin as (id' & Hid' & Heq).
  destruct (db_get db (make_key t id')); [ | done]. cbn in Heq. injection Heq as <- <-. rewrite Forall_forall in Hx.
  specialize (Hx _ Hid'). unfold key_lt, klt, make_key in *. cbn [kcmp list_OrdKey fst] in *. by rewrite list_cmp_app.
Qed.

(** A candidate set that has the id of every row [b] accepts. *)
Definition cand_sound db (t : Z) (b : bytes -> bool) (cand : option (list bytes)) : Prop :=
  forall ids, cand = Some ids -> StronglySorted klt ids /\ (forall o, o ∈ ids -> oid_ok o) /\
    forall o rec, oid_ok o -> db_get db (make_key t o) = Some rec -> b rec = true -> o ∈ ids.

Lemma narrow_cand_sound db t b cand ids : cand_sound db t b cand -> cand_sound db t b (Some ids) -> cand_sound db t b (narrow_cand cand ids).
Proof.
  intros Hc Hi. destruct cand as [prev | ]; [ | done]. intros ? [= <-]. destruct (Hc _ eq_refl) as (Hs & Ho & Hall).
  destruct (Hi _ eq_refl) as (_ & _ & Hall'). split_and!.
  - by apply ssorted_sfilter.
  - intros o [_ Hin]%list_elem_of_filter. by apply Ho.
  - intros o rec Hoo Hg Hb. apply list_elem_of_filter. split; [by eapply Hall' | by eapply Hall].
Qed.

(** The rows that pass are the same among the candidates. *)
Lemma source_rows_filter db n t ot b cand : db_inv db n -> get_type db t = Some ot -> cand_sound db t b cand ->
  List.filter (b ∘ snd) (source_rows db t cand) = List.filter (b ∘ snd) (type_rows db t).
Proof.
  intros Hi Hot Hc. destruct cand as [ids | ]; [ | done]. destruct (Hc _ eq_refl) as (Hs & Ho & Hall).
  pose proof (get_type_small _ _ _ _ Hi Hot) as Ht. cbn [source_rows].
  apply ssorted_ext; [apply ssorted_bfilter, fetch_rows_sorted, Hs | by eapply ssorted_bfilter, type_rows_sorted | ].
  intros [k rec]. rewrite !list_elem_of_In, !filter_In, <- !list_elem_of_In. unfold compose. cbn [snd].
  rewrite (type_rows_elem db n) by (done || apply Hi). unfold fetch_rows. rewrite list_elem_of_omap. split; (intros [Hk Hb]; split; [ | done]).
  - destruct Hk as (id & Hid & Hx). destruct (db_get db (make_key t id)) eqn:Hg; [ | done]. cbn in Hx. injection Hx as <- <-.
    exists id. split_and!; [by apply Ho | done | done].
  - destruct Hk as (o & Hoo & -> & Hg). exists o. split; [by eapply Hall | ]. by rewrite Hg.
Qed.

Lemma source_rows_stored db n t ot b cand rec : db_inv db n -> get_type db t = Some ot -> cand_sound db t b cand ->
  rec ∈ snd <$> source_rows db t cand -> rec ∈ snd <$> type_rows db t.
Proof.
  intros Hi Hot Hc. destruct cand as [ids | ]; [ | done]. destruct (Hc _ eq_refl) as (_ & Ho & _). pose proof (get_type_small _ _ _ _ Hi Hot) as Ht.
  cbn [source_rows]. intros ([k r] & -> & (id & Hid & Hx)%list_elem_of_omap)%list_elem_of_fmap.
  destruct (db_get db (make_key t id)) as [r0 | ] eqn:Hg; [ | done]. cbn in Hx. injection Hx as <- <-. apply list_elem_of_fmap. exists (make_key t id, r0).
  split; [done | ]. apply (type_rows_elem db n); [apply Hi | done | ]. exists id. split_and!; [by apply Ho | done | done].
Qed.

(** A lookup that every accepted row answers to. *)
Lemma lookup_sound db n t ot fid v b : db_inv db n -> get_type db t = Some ot -> u16_ok fid -> bytes_ok v -> zlen v <= 65000 ->
  (forall o rec, oid_ok o -> db_get db (make_key t o) = Some rec -> b rec = true -> index_value ot fid (Some rec) = Some v) ->
  cand_sound db t b (Some (idx_lookup db t fid v)).
Proof.
  intros Hi Hot Hf Hv Hl Hall ids [= <-]. destruct (lookup_correct db n t ot fid v Hi Hot Hf Hv Hl) as [Hs Hel]. split_and!; [done | | ].
  - intros o Ho. by apply Hel in Ho as [? _].
  - intros o rec Ho Hg Hb. apply Hel. split; [done | ]. rewrite Hg. by eapply Hall.
Qed.

(** The hints of a query, as its program implies them: an accepted row has each
    hinted value in its field. *)
Definition hints_hold db (t : Z) (ot : ObjectType) (b : bytes -> bool) (eq_preds : list (Z * bytes)) : Prop :=
  forall fid v, (fid, v) ∈ eq_preds -> bytes_ok v /\ exists off w, idx_field_pos ot fid = Some (off, w) /\
    forall o rec, oid_ok o -> db_get db (make_key t o) = Some rec -> b rec = true -> slot_of rec off w = Some (norm v w).

Lemma idx_field_pos_inv ot fid off w : idx_field_pos ot fid = Some (off, w) -> exists i f, field_pos ot fid = Some (i, off, f) /\ width (f_kind f) = w.
Proof.
  unfold idx_field_pos. destruct (field_pos ot fid) as [[[i o] f] | ]; [ | done]. cbn. case_bool_decide; [done | ]. intros [= <- <-]. by exists i, f.
Qed.

Lemma narrow_eq_sound db n t ot b eq_preds : db_inv db n -> get_type db t = Some ot -> hints_hold db t ot b eq_preds ->
  cand_sound db t b (narrow_eq db t ot eq_preds).
Proof.
  intros Hi Hot Hh. pose proof (get_type_wf _ _ _ _ Hi Hot) as Hwf. unfold narrow_eq. apply fold_left_inv; [ | by intros ids].
  intros [fid v] cand Hin Hc. cbn [fst snd]. destruct (Hh _ _ Hin) as (Hv & off & w & Hp & Hall).
  destruct (idx_field_pos_inv _ _ _ _ Hp) as (i & f & Hfp & Hw). rewrite Hfp, Hw. case_bool_decide as Hix; [ | done].
  pose proof (tw_indexes _ Hwf) as Hr. rewrite Forall_forall in Hr. specialize (Hr _ Hix). cbn in Hr.
  pose proof (idx_field_pos_width _ _ _ _ Hwf Hp) as Hwb. apply narrow_cand_sound; [done | ].
  eapply lookup_sound; [done | done | unfold u16_ok, u16_max; lia | by apply norm_bytes | rewrite norm_zlen; lia | ].
  intros o rec Ho Hg Hb. unfold index_value. rewrite (proj2 (Z.ltb_lt _ _)), bool_decide_eq_true_2, Hp by (done || lia). cbn. by eapply Hall.
Qed.

Lemma covering_index_spec q cs : forall n m c, covering_index q cs n = Some (m, c) ->
  cs !! Z.to_nat (m - n) = Some c /\ n <= m < n + zlen cs /\ length c = size q.
Proof.
  induction cs as [ | c0 cs IH]; intros n m c; cbn [covering_index]; [done | ]. rewrite zlen_cons. pose proof (zlen_nonneg cs).
  case_bool_decide as Hc.
  - intros [= <- <-]. rewrite Z.sub_diag. split_and!; [done | lia | lia | apply Hc].
  - intros (Hl & Hb & Hs)%IH. replace (Z.to_nat (m - n)) with (S (Z.to_nat (m - (n + 1)))) by lia. split_and!; [done | lia | lia | done].
Qed.

Lemma hint_concat_spec db t ot b eq_preds fs : type_wf ot -> hints_hold db t ot b eq_preds ->
  forall v, hint_concat ot eq_preds fs = Some v -> bytes_ok v /\ zlen v = composite_width ot fs /\
    forall o rec, oid_ok o -> db_get db (make_key t o) = Some rec -> b rec = true -> composite_concat ot fs rec = Some v.
Proof.
  intros Hwf Hh. induction fs as [ | fid fs IH]; intros v; cbn [hint_concat composite_concat composite_width].
  { intros [= <-]. split_and!; [constructor | done | done]. }
  destruct (List.find _ eq_preds) as [[fid' x] | ] eqn:Hf; [ | done]. cbn. apply find_some in Hf as [Hin%list_elem_of_In E%Z.eqb_eq]. cbn in E. subst fid'.
  destruct (Hh _ _ Hin) as (Hx & off & w & Hp & Hall). pose proof (idx_field_pos_width _ _ _ _ Hwf Hp) as Hw.
  destruct (idx_field_pos_inv _ _ _ _ Hp) as (i & f & Hfp & Hwf'). rewrite Hfp. cbn. rewrite Hwf'.
  destruct (hint_concat ot eq_preds fs) as [r | ]; [ | done]. cbn. intros [= <-]. destruct (IH _ eq_refl) as (Hrb & Hrl & Hra). split_and!.
  - apply bytes_ok_app. split; [by apply norm_bytes | done].
  - rewrite zlen_app, norm_zlen by lia. lia.
  - intros o rec Ho Hg Hb. rewrite (Hall o rec Ho Hg Hb). cbn. by rewrite (Hra o rec Ho Hg Hb).
Qed.

Lemma narrow_composite_sound db n t ot b eq_preds cand : db_inv db n -> get_type db t = Some ot -> hints_hold db t ot b eq_preds ->
  cand_sound db t b cand -> cand_sound db t b (narrow_composite db t ot eq_preds cand).
Proof.
  intros Hi Hot Hh Hc. pose proof (get_type_wf _ _ _ _ Hi Hot) as Hwf. unfold narrow_composite. case_bool_decide as Hne; [done | ].
  destruct (covering_index _ _ 0) as [[m c] | ] eqn:Hm; [ | done]. destruct (hint_concat ot eq_preds c) as [v | ] eqn:Hv; [ | done].
  apply covering_index_spec in Hm as (Hlk & Hrange & Hsz). rewrite Z.sub_0_r in Hlk. pose proof (tw_composites _ Hwf).
  assert (composite_fid m = 0xC000 + m) as Hfid.
  { rewrite <- (Z2Nat.id m) by lia. rewrite composite_fid_eq, Z.mod_small by lia. done. }
  destruct (hint_concat_spec _ _ _ _ _ _ Hwf Hh v Hv) as (Hvb & Hvl & Hva). pose proof (tw_composite _ Hwf) as Hcw. rewrite Forall_forall in Hcw.
  specialize (Hcw _ (list_elem_of_lookup_2 _ _ _ Hlk)). cbn in Hcw. assert (c <> []) as Hcne.
  { intros ->. destruct eq_preds as [ | [fid x] l]; [done | ]. symmetry in Hsz. apply size_empty_inv in Hsz. cbn in Hsz.
    apply (not_elem_of_empty (C := gset Z) fid). rewrite <- Hsz. apply elem_of_union_l. by apply elem_of_singleton. }
  apply narrow_cand_sound; [done | ]. eapply lookup_sound; [done | done | unfold u16_ok, u16_max; lia | done | lia | ].
  intros o rec Ho Hg Hb. unfold index_value. rewrite Hfid, (proj2 (Z.ltb_ge _ _)) by lia. replace (0xC000 + m - 0xC000) with m by lia.
  rewrite Hlk. cbn. rewrite bool_decide_eq_false_2 by done. by eapply Hva.
Qed.

(** C9: the planner changes no answer on hints that hold. Take a type without
    an ordered index and a program that returns a verdict on every stored row,
    and equality hints such that every row the program accepts holds the hinted
    value, byte by byte, in each hinted field. Then QueryRows, which narrows the
    scan through the equality and composite indexes, returns exactly what Select
    returns by a full scan: the same rows, in the same order, cut at the same
    limit. (For a CHAR column the program also accepts rows that differ in
    trailing blanks, and such a hint does not hold.) *)
Theorem query_rows_is_select db n t ot eq_preds program limit ranges b :
  db_inv db n -> get_type db t = Some ot -> 0 <= limit -> hints_hold db t ot b eq_preds ->
  decides (eval program ot) b (snd <$> type_rows db t) ->
  query_rows db t eq_preds program limit ranges = select db t program limit.
Proof.
  intros Hi Hot Hl Hh Hd. pose proof (tw_ordered _ (get_type_wf _ _ _ _ Hi Hot)) as Ho. unfold query_rows, select. rewrite Hot.
  unfold query_candidates. rewrite narrow_ranges_none by done. set (cand := narrow_composite _ _ _ _ _).
  assert (cand_sound db t b cand) as Hc by (eapply narrow_composite_sound; [done | done | done | ]; by eapply narrow_eq_sound).
  rewrite !(filter_rows_ret _ program ot b) by (done || intros rec Hr; apply Hd; by eapply source_rows_stored).
  by rewrite (source_rows_filter db n t ot b).
Qed.

(** ** Predicates *)



End Planner.

(** * Runs on the sample type *)

Lemma sample_rows : snd <$> type_rows db_row 1 = [pair_record 5 6].
Proof. by vm_compute. Qed.

Lemma sample_only o rec : oid_ok o -> db_get db_row (make_key 1 o) = Some rec -> rec = pair_record 5 6.
Proof.
  intros Ho Hg. assert (rec ∈ snd <$> type_rows db_row 1) as Hin.
  { apply list_elem_of_fmap. exists (make_key 1 o, rec). split; [done | ]. apply (type_rows_elem db_row 3); [apply db_row_inv | unfold small_type; lia | ].
    by exists o. }
  rewrite sample_rows in Hin. by apply list_elem_of_singleton in Hin.
Qed.

(** [a = 5], and what it says of a row. *)
Definition eq_prog : bytes := 1 :: le_bytes 2 1 ++ 0 :: le_bytes 16 5 ++ [3].
Definition eq_row (rec : bytes) : bool := match eval eq_prog (push_index 1 pair_type) rec with Ret (inl x) => x | _ => false end.

Lemma sample_decides : decides (eval eq_prog (push_index 1 pair_type)) eq_row (snd <$> type_rows db_row 1).
Proof. rewrite sample_rows. intros rec ->%list_elem_of_singleton. by vm_compute. Qed.



Lemma group_aggregate_is_multi_witness :
  group_aggregate db_row 1 always_true 1 1 2 [] [] None None = group_aggregate_multi db_row 1 always_true 1 [(1, 2)] [] [] None None.
Proof.
  apply (group_aggregate_is_multi db_row 3 1 (push_index 1 pair_type) always_true 1 1 2 [] [] None None (fun _ => true));
    [apply db_row_inv | by vm_compute | lia | by intros rec _ | by intros rec _ | vm_compute; by eexists].
Defined.

Lemma query_rows_is_select_witness :
  query_rows db_row 1 [(1, le_bytes 4 5)] eq_prog 10 [] = select db_row 1 eq_prog 10.
Proof.
  apply (query_rows_is_select db_row 3 1 (push_index 1 pair_type) [(1, le_bytes 4 5)] eq_prog 10 [] eq_row);
    [apply db_row_inv | by vm_compute | lia | | apply sample_decides].
  intros fid v [= -> ->]%list_elem_of_singleton. split; [apply le_bytes_ok | ]. exists 14, 4. split; [by vm_compute | ].
  intros o rec Ho Hg _. rewrite (sample_only o rec Ho Hg). by vm_compute.
Defined.

