(* ===== verification/RowTxn.v ===== *)
(** kessel-sm: batches of record operations.

    A Txn runs its operations in an overlay of the engine and commits it at the
    end; the two-phase operations of the cross-shard protocol do the same, and
    the vote of a shard is a run that is always rolled back. What is proved is
    that inside the overlay the operations touch nothing else, so that a batch
    that fails, and a vote, leave the database as it was.

    Source: src/crates/kessel-sm/src/lib.rs. *)

From Stdlib Require Import ZArith Lia String.
From stdpp Require Import base numbers list gmap.
From S2P Require Import Prelude BTree Proto Vfs Wal SsTable Storage View Recovery Crash Mvcc MvccSpec Engine Ssi Tx Sm SmSpec.
From S2P Require Import Catalog Codec Expr ExprSpec Cache Rows RowApply RowStore RowsSpec RowOps RowIndex.

#[local] Open Scope Z_scope.

Section Batches.
Context {W : Type} `{Vfs W}.
Implicit Types db : Db W.

Definition in_txn_db db : bool := in_txn (db_storage db).

(** The database without the overlay and the cache. *)
Definition base db : Db W := set_cache None (set_db_storage (abort_txn (db_storage db)) db).

(** In a transaction, [m] changes nothing but the overlay and the cache. *)
Definition stays {A} (m : M (Db W) A) db : Prop :=
  in_txn_db db = true -> let '(db', _) := m db in base db' = base db /\ in_txn_db db' = true.

Lemma stays_ret {A} (a : A) db : stays (mret a) db.
Proof. by intros Ht. Qed.

Lemma stays_lift {A} (o : outcome A) db : stays (m_lift o) db.
Proof. by intros Ht. Qed.

Lemma stays_get {A} (k : Db W -> M (Db W) A) db : (in_txn_db db = true -> stays (k db) db) -> stays (m_get ≫= k) db.
Proof. intros Hk Ht. by apply Hk. Qed.

Lemma stays_bind {A B} (m : M (Db W) A) (k : A -> M (Db W) B) db :
  stays m db -> (forall a db', stays (k a) db') -> stays (m ≫= k) db.
Proof.
  intros Hm Hk Ht. specialize (Hm Ht). unfold mbind, M_bind. destruct (m db) as [db1 [a | e | ]]; [ | done | done].
  destruct Hm as [Hb1 Ht1]. specialize (Hk a db1 Ht1). destruct (k a db1) as [db2 r]. destruct Hk as [Hb2 Ht2]. split; [congruence | done].
Qed.

Lemma stays_cache f db : stays (with_cache f) db.
Proof. by intros Ht. Qed.

(** A write in a transaction goes to the overlay. *)
Lemma stays_write op k v db : stays (on_sm (on_storage_result (write op k v))) db.
Proof.
  intros Ht. unfold on_sm, on_storage_result. rewrite write_commit. unfold commit, in_txn_db, in_txn in *.
  change (sm_storage (db_sm db)) with (db_storage db). unfold mbind, M_bind, m_get.
  destruct (txn (db_storage db)) as [ov | ] eqn:Htx; [ | done]. cbn. split; [ | done].
  unfold base, set_db_storage, set_cache, set_sm, set_storage, abort_txn, set_txn, db_storage in *. by destruct db as [[? ? ? ? ?] ? ? ?].
Qed.

Lemma stays_put op k b db : stays (db_put op k b) db.
Proof. apply (stays_write op k (Some b)). Qed.

Lemma stays_delete op k db : stays (db_delete op k) db.
Proof. apply (stays_write op k None). Qed.
End Batches.

Create HintDb stays.
#[export] Hint Resolve stays_ret stays_lift stays_cache stays_put stays_delete : stays.

(** Follows the structure of a computation. *)
Ltac stay :=
  repeat match goal with
    | |- stays (m_get ≫= _) _ => apply stays_get; intros ?
    | |- stays (_ ≫= _) _ => apply stays_bind; [ | intros ? ? ]
    | |- stays (match ?c with _ => _ end) _ => destruct c
    | |- stays _ _ => progress cbv zeta
    end; auto with stays.

Section Arms.
Context {W : Type} `{Vfs W}.
Implicit Types db : Db W.

Lemma stays_for_each {A} (f : A -> M (Db W) unit) l : (forall x db, stays (f x) db) -> forall db, stays (for_each f l) db.
Proof. intros Hf. induction l as [ | x l IH]; intros db; cbn [for_each]; stay. Qed.

Lemma stays_overflow op lay tr n : forall p fixed db, stays (overflow_loop op lay tr n p fixed) db.
Proof. induction n as [ | n IH]; intros p fixed db; cbn [overflow_loop]; stay. Qed.

Lemma stays_reclaim op l : forall db, stays (reclaim_overflow op l) db.
Proof. induction l as [ | h l IH]; intros db; cbn [reclaim_overflow]; stay. Qed.

Lemma stays_bucket_add op k obj db : stays (bucket_add op k obj) db.
Proof. unfold bucket_add. stay. Qed.

Lemma stays_bucket_remove op k obj db : stays (bucket_remove op k obj) db.
Proof. unfold bucket_remove. stay. Qed.

Lemma stays_idx_add op ut fid v obj db : stays (idx_add op ut fid v obj) db.
Proof. unfold idx_add. stay. Qed.

Lemma stays_idx_remove op ut fid v obj db : stays (idx_remove op ut fid v obj) db.
Proof. unfold idx_remove. stay. Qed.

#[local] Hint Resolve stays_overflow stays_reclaim stays_bucket_add stays_bucket_remove stays_idx_add stays_idx_remove : stays.

Lemma stays_idx_maintain op t obj old new db : stays (idx_maintain op t obj old new) db.
Proof.
  unfold idx_maintain. stay; apply stays_for_each; intros x db0;
    unfold maintain_eq, maintain_ord, maintain_vord, maintain_composite, move_entry, move_ordered,
      oidx_add, oidx_remove, voidx_add, voidx_remove; stay.
Qed.

Lemma stays_materialize op t record db : stays (materialize_overflow op t record) db.
Proof. unfold materialize_overflow. stay. Qed.

#[local] Hint Resolve stays_idx_maintain stays_materialize : stays.

Lemma stays_admit op t id record db : stays (admit_record op t id record) db.
Proof. unfold admit_record. stay. Qed.

#[local] Hint Resolve stays_admit : stays.

Lemma stays_create op t id record db : stays (create_row op t id record) db.
Proof. unfold create_row, create_at. stay. Qed.

Lemma stays_update op t id record db : stays (update_row op t id record) db.
Proof. unfold update_row. stay. Qed.

#[local] Hint Resolve stays_create stays_update : stays.

Lemma stays_update_set op t id sets db : stays (update_set op t id sets) db.
Proof. unfold update_set, guard. stay. Qed.

Lemma stays_null_children op l : forall db, stays (null_children op false l) db.
Proof. induction l as [ | s l IH]; intros db; cbn [null_children]; unfold invalidate; stay. Qed.

Lemma stays_delete_closure op l : forall db, stays (delete_closure op false l) db.
Proof. induction l as [ | [t o] l IH]; intros db; cbn [delete_closure]; unfold invalidate; stay. Qed.

#[local] Hint Resolve stays_update_set stays_null_children stays_delete_closure : stays.

Lemma stays_delete_row op t id db : stays (delete_row op t id) db.
Proof. unfold delete_row. apply stays_get. intros Ht. unfold in_txn_db in Ht. rewrite Ht. cbn [negb]. stay. Qed.

Lemma stays_cache_lookup k db : stays (cache_lookup k) db.
Proof. intros Ht. unfold cache_lookup. destruct (db_cache db) as [c | ]; [ | done]. by destruct (cache_get c k). Qed.

#[local] Hint Resolve stays_delete_row stays_cache_lookup : stays.

(** Everything a transaction may hold stays in the overlay. *)
Lemma stays_apply op o db : txn_allowed o = true -> stays (db_apply op o) db.
Proof.
  intros Ho. destruct o; try done; cbn [db_apply]; unfold guard, reading, get_by_id, get_blob, describe, find_by, find_by_composite, find_range; stay.
Qed.

Lemma slice_txn o : slice_allowed o = true -> txn_allowed o = true.
Proof. by destruct o. Qed.

Lemma stays_batch op ops : forallb txn_allowed ops = true -> forall i db, stays (run_batch db_apply op i ops) db.
Proof.
  induction ops as [ | o ops IH]; intros Ho i db; cbn [run_batch]; [stay | ]. cbn in Ho. apply andb_true_iff in Ho as [Ho Hops].
  apply stays_bind; [by apply stays_apply | ]. intros r db1. destruct (failed r); [stay | ]. apply stays_bind; [by apply IH | ]. stay.
Qed.

(** ** Rolling back *)

Lemma base_idle db : in_txn_db db = false -> base db = set_cache None db.
Proof.
  unfold in_txn_db, in_txn, base, abort_txn, set_txn, set_db_storage, set_cache, set_sm, set_storage, db_storage.
  destruct db as [[[? ? ? ? ? ? tx ? ? ?] ? ? ? ?] ? ? ?]. cbn. by destruct tx.
Qed.

Lemma base_begin db : base (set_db_storage (begin_txn (db_storage db)) db) = base db.
Proof. done. Qed.

(** A batch in its own transaction, rolled back. *)
Lemma rolled_back op ops db db1 (r : outcome (list DbResult + DbResult)) :
  forallb txn_allowed ops = true -> in_txn_db db = false ->
  run_batch db_apply op 0 ops (set_db_storage (begin_txn (db_storage db)) db) = (db1, r) ->
  exists db2, roll_back db1 = (db2, Ret tt) /\ base db2 = base db /\ in_txn_db db2 = false /\
    db_cache db2 = cache_clear <$> db_cache db1.
Proof.
  intros Ho Ht Hb. pose proof (stays_batch op ops Ho 0 (set_db_storage (begin_txn (db_storage db)) db) eq_refl) as Hs.
  rewrite Hb in Hs. destruct Hs as [Hbase _]. eexists. split; [done | ]. split_and!; [ | done | done].
  rewrite base_begin in Hbase. rewrite <- Hbase. done.
Qed.

Lemma idle_same db db' : base db' = base db -> in_txn_db db = false -> in_txn_db db' = false ->
  db_sm db' = db_sm db /\ db_catalog db' = db_catalog db /\ catalog_epoch db' = catalog_epoch db.
Proof. intros Hb Ht Ht'. rewrite !base_idle in Hb by done. by destruct db, db'; cbn in Hb; simplify_eq. Qed.

Lemma txn_result_ok rs : failed (txn_result rs) = false.
Proof. unfold txn_result. by destruct (mapM created_id rs) as [[ | ? ?] | ]. Qed.
End Arms.

(** * Properties *)

Section Properties.
Context {W : Type} `{Vfs W}.
Implicit Types db : Db W.

(** C20: A transaction that fails leaves no trace. When any operation of a Txn
    is refused, the engine, with its log and tables, the session table, the
    catalog and its epoch are what they were before the Txn, and nothing the
    batch read or wrote stays in the read cache. *)
Theorem failed_txn_restores op ops db db' r :
  in_txn_db db = false -> db_apply op (Txn ops) db = (db', Ret r) -> failed r = true ->
  (forall e, r <> ResSchemaError (Store "txn commit" e)) ->
  (db_sm db' = db_sm db /\ db_catalog db' = db_catalog db /\ catalog_epoch db' = catalog_epoch db) /\
  (db_cache db' = db_cache db \/ exists c, db_cache db' = cache_clear <$> c).
Proof.
  intros Ht Ha Hf Hc. cbn [db_apply] in Ha. unfold guard in Ha. rewrite (M_bind_ret _ _ _ _ _ (m_get_ret db)) in Ha.
  assert (txn_arm (forallb txn_allowed ops) (run_batch db_apply op 0 ops) db = (db', Ret r)) as Harm.
  { destruct (high_op _); [ | done]. destruct (_ && _); [ | done]. unfold mret, M_ret in Ha. by simplify_eq. }
  clear Ha. unfold txn_arm in Harm. destruct (forallb txn_allowed ops) eqn:Hall; cbn [negb] in Harm; [ | unfold mret, M_ret in Harm; injection Harm as <- <-; auto].
  rewrite (M_bind_ret _ _ _ (set_db_storage (begin_txn (db_storage db)) db) tt) in Harm by done.
  destruct (run_batch db_apply op 0 ops (set_db_storage (begin_txn (db_storage db)) db)) as [db1 o] eqn:Hb.
  destruct (rolled_back op ops db db1 o Hall Ht Hb) as (db2 & Hr & Hbase & Ht2 & Hcl).
  unfold mbind, M_bind in Harm. rewrite Hb in Harm. destruct o as [[rs | e] | | ]; [ | | done | done].
  - destruct (db_commit_txn db1) as [db3 [[[] | e] | | ]]; [ | | done | done]; injection Harm as <- <-.
    + by rewrite txn_result_ok in Hf.
    + by destruct (Hc e).
  - rewrite Hr in Harm. injection Harm as <- <-. split; [by apply idle_same | ]. right. by exists (db_cache db1).
Qed.

(** C26: A vote on a cross-shard transaction is a dry run. XshardDecide leaves
    the database as it is when it answers with the vote that is stored, refuses
    the slice or has been applied before. Otherwise the answer is the verdict
    on the slice, 1 exactly when all its operations succeed, and the database
    is the one before with the vote stored and the read cache emptied; nothing
    else the slice did is left, in the engine, the catalog or the cache. *)
Theorem decide_writes_only_the_vote op seq ops db db' r :
  in_txn_db db = false -> db_apply op (XshardDecide seq ops) db = (db', Ret r) ->
  (db' = db /\ (db_get db (xvote_key seq) = None -> forallb slice_allowed ops = false \/ r = ResOk) /\
   (forall v, db_get db (xvote_key seq) = Some v -> r = ResGot v \/ r = ResOk)) \/
  exists db1 b,
    run_batch db_apply op 0 ops (set_db_storage (begin_txn (db_storage db)) db) = (db1, Ret b) /\
    let v := [match b with inl _ => 1 | inr _ => 0 end] in
    db_get db (xvote_key seq) = None /\ r = ResGot v /\
    db' = (db_put op (xvote_key seq) v (set_cache (cache_clear <$> db_cache db1) db)).1.
Proof.
  intros Ht Ha. cbn [db_apply] in Ha. unfold guard in Ha. rewrite (M_bind_ret _ _ _ _ _ (m_get_ret db)) in Ha.
  assert ((db' = db /\ r = ResOk) \/ decide_arm op seq (forallb slice_allowed ops) (run_batch db_apply op 0 ops) db = (db', Ret r))
    as [[-> ->] | Harm]; [ | left; split_and!; [done | by right | by right] | ].
  { destruct (high_op _); [ | by right]. destruct (_ && _); [ | by right]. left. by injection Ha. }
  clear Ha. unfold decide_arm in Harm. rewrite (M_bind_ret _ _ _ _ _ (m_get_ret db)) in Harm.
  destruct (db_get db (xvote_key seq)) as [v | ] eqn:Hv.
  { left. unfold mret, M_ret in Harm. simplify_eq. split_and!; [done | done | ]. intros v' [= <-]. by left. }
  destruct (forallb slice_allowed ops) eqn:Hsl; cbn [negb] in Harm; [ | left; unfold mret, M_ret in Harm; simplify_eq; split_and!; [done | by left | done]].
  unfold in_txn_db in Ht. rewrite Ht in Harm. cbn [negb] in Harm.
  rewrite (M_bind_ret _ _ _ (set_db_storage (begin_txn (db_storage db)) db) tt) in Harm by done.
  assert (forallb txn_allowed ops = true) as Hall.
  { apply forallb_forall. rewrite forallb_forall in Hsl. intros o Ho. by apply slice_txn, Hsl. }
  destruct (run_batch db_apply op 0 ops (set_db_storage (begin_txn (db_storage db)) db)) as [db1 o] eqn:Hb.
  destruct (rolled_back op ops db db1 o Hall Ht Hb) as (db2 & Hr & Hbase & Ht2 & Hcl).
  unfold mbind at 1, M_bind at 1 in Harm. rewrite Hb in Harm. destruct o as [b | | ]; [ | done | done].
  rewrite (M_bind_ret _ _ _ _ _ Hr) in Harm. right. exists db1, b. split; [done | ]. cbv zeta.
  assert (db2 = set_cache (cache_clear <$> db_cache db1) db) as ->.
  { destruct (idle_same db db2 Hbase Ht Ht2) as (Hs & Hc & He). destruct db, db2. cbn in *. by subst. }
  unfold mbind, M_bind in Harm. destruct (db_put op (xvote_key seq) _ _) as [db3 [x | | ]]; [ | done | done].
  injection Harm as <- <-. done.
Qed.
End Properties.

(** ** Applied to a sample *)

Definition failing_txn : DbOp := Txn [Create 1 (pair_id 8) (pair_record 1 2); Create 1 (pair_id 7) (pair_record 3 4)].

Lemma failed_txn_restores_witness :
  (db_apply 4 failing_txn db_row).2 = Ret ResExists /\ db_sm (db_apply 4 failing_txn db_row).1 = db_sm db_row.
Proof.
  assert ((db_apply 4 failing_txn db_row).2 = Ret ResExists) as Hr by (by vm_compute). split; [done | ].
  apply (failed_txn_restores 4 [Create 1 (pair_id 8) (pair_record 1 2); Create 1 (pair_id 7) (pair_record 3 4)] db_row _ ResExists);
    [by vm_compute | | done | done].
  change (db_apply 4 failing_txn db_row = ((db_apply 4 failing_txn db_row).1, Ret ResExists)).
  destruct (db_apply 4 failing_txn db_row). cbn in Hr. by rewrite Hr.
Defined.

Definition voted : DbOp := XshardDecide 1 [Create 1 (pair_id 8) (pair_record 1 2)].

Lemma decide_writes_only_the_vote_witness :
  (db_apply 4 voted db_row).2 = Ret (ResGot [1]) /\
  exists c, (db_apply 4 voted db_row).1 = (db_put 4 (xvote_key 1) [1] (set_cache (cache_clear <$> c) db_row)).1.
Proof.
  assert ((db_apply 4 voted db_row).2 = Ret (ResGot [1])) as Hr by (by vm_compute). split; [done | ].
  destruct (decide_writes_only_the_vote 4 1 [Create 1 (pair_id 8) (pair_record 1 2)] db_row (db_apply 4 voted db_row).1 (ResGot [1]))
    as [(_ & H0 & _) | (db1 & b & _ & Hv & Hg & Hdb)].
  - by vm_compute.
  - change (db_apply 4 voted db_row = ((db_apply 4 voted db_row).1, Ret (ResGot [1]))).
    destruct (db_apply 4 voted db_row). cbn in Hr. by rewrite Hr.
  - destruct H0; [by vm_compute | discriminate..].
  - exists (db_cache db1). injection Hg as Hg. rewrite <- Hg in Hdb. exact Hdb.
Defined.
