(* ===== verification/RowRuns.v ===== *)
(** kessel-sm: runs of the record layer.

    Short logs on an in-memory file system on which the operations, each of
    them as the other files describe it, give an answer their contract rules
    out.

    Source: src/crates/kessel-sm/src/lib.rs. *)

From Stdlib Require Import ZArith String.
From stdpp Require Import base numbers list gmap.
From S2P Require Import Prelude BTree Proto Vfs Wal SsTable Storage Mvcc Engine Ssi Tx Sm SmSpec.
From S2P Require Import Catalog Codec Expr Filter Cache Rows RowQuery RowSchema RowApply RowsSpec RowOps RowIndex RowRefs RowQuerySpec.

#[local] Open Scope Z_scope.

(** The database after a log, and what the log answered. *)
Definition after_log (l : list (Z * DbOp)) (db : Db MemVfs) : Db MemVfs := (db_apply_all l db).1.
Definition answers (l : list (Z * DbOp)) (db : Db MemVfs) : outcome (list DbResult) := (db_apply_all l db).2.

(** ** Transactions and the record layer *)

(** A row of an indexed type is created, and a transaction replaces it. *)
Definition tx_log : list (Z * DbOp) :=
  [(1, CreateType pair_def); (2, CreateIndex 1 1); (3, Create 1 (pair_id 7) (pair_record 1 2));
   (4, CoreOp (CommitTx 3 [((1, pair_id 7), Some (pair_record 9 9))] 0 []))].
Definition tx_reads : list (Z * DbOp) :=
  [(5, GetById 1 (pair_id 7)); (6, FindBy 1 1 (le_bytes 4 9)); (7, FindBy 1 1 (le_bytes 4 1))].

(** C39: CommitTx writes rows behind the back of the record layer. After a
    transaction that replaced a row has been acknowledged, the engine has the
    new record, GetById answers with the old one from the read cache, and the
    index has no row under the new value and still the row under the old. *)
Theorem commit_tx_bypasses_cache_and_indexes :
  answers (tx_log ++ tx_reads) db_new =
    Ret [TypeCreated 1; ResOk; ResOk; Core (TxCommitted 4);
         ResGot (pair_record 1 2); ResGot []; ResGot (pair_id 7)] /\
  db_get (after_log tx_log db_new) (make_key 1 (pair_id 7)) = Some (pair_record 9 9) /\
  pair_record 1 2 <> pair_record 9 9.
Proof. split_and!; by vm_compute. Qed.

(** ** Operation numbers of a batch *)

Definition batch_log : list (Z * DbOp) :=
  [(1, CreateType pair_def);
   (2, Txn [Create 1 (pair_id 7) (pair_record 1 2); Create 1 (pair_id 8) (pair_record 1 2);
            Create 1 (pair_id 9) (pair_record 5 5)]);
   (3, Update 1 (pair_id 9) (pair_record 6 6))].

(** C40: The operations of a Txn are numbered on from its own number, into the
    numbers of the log entries behind it. An Update in the next entry is
    acknowledged, and the row keeps the record the Txn gave it. *)
Theorem update_after_txn_is_lost :
  answers batch_log db_new = Ret [TypeCreated 1; ResOk; ResOk] /\
  db_get (after_log batch_log db_new) (make_key 1 (pair_id 9)) = Some (pair_record 5 5) /\
  pair_record 5 5 <> pair_record 6 6.
Proof. split_and!; by vm_compute. Qed.

(** ** Serial columns *)

Definition serial_type : ObjectType := mkObjectType 1 [116] 1 pair_fields [] [] [] [] [] [] [] [] true (Some 1).
Definition serial_log : list (Z * DbOp) :=
  [(1, AddUnique 1 1); (2, Create 1 (pair_id 5) (pair_record 1 0)); (3, Create 1 SERIAL_SENTINEL (pair_record 77 0))].

(** The serial value is written into the record after its constraints were
    checked. Two rows end up with the same value in a UNIQUE column. *)
Theorem serial_value_escapes_unique :
  answers serial_log (db_empty (mkCatalog [serial_type] 2 [])) = Ret [ResOk; ResOk; Created 1] /\
  (forall i, i = 1 \/ i = 5 ->
     db_get (after_log serial_log (db_empty (mkCatalog [serial_type] 2 []))) (make_key 1 (pair_id i)) = Some (pair_record 1 0)).
Proof. split; [by vm_compute | ]. intros i [-> | ->]; by vm_compute. Qed.

(** ** The catalog's key *)

Definition catalog_log : list (Z * DbOp) :=
  [(1, CreateType pair_def); (2, Create 1 (pair_id 5) (pair_record 1 0)); (3, Delete 0 (replicate 16 0))].

(** The database opened again on the files the log leaves. *)
Definition reopened (l : list (Z * DbOp)) : outcome (Db MemVfs) := (db_open (vfs (db_storage (after_log l db_new)))).2.

(** Delete takes any type id, also that of the catalog's own record. It is
    acknowledged, and the next start finds the rows and no type at all. *)
Theorem delete_erases_catalog :
  answers catalog_log db_new = Ret [TypeCreated 1; ResOk; ResOk] /\
  exists db, reopened catalog_log = Ret db /\ types (db_catalog db) = [] /\
    db_get db (make_key 1 (pair_id 5)) = Some (pair_record 1 0).
Proof. split; [by vm_compute | ]. eexists. split; [by vm_compute | ]. split; by vm_compute. Qed.

(** ** Schema changes and the read cache *)

Definition short_fields : list Field := [mkField 2 [98] U32 true].
Definition short_record (b : Z) : bytes :=
  match encode (mkObjectType 1 [116] 1 short_fields [] [] [] [] [] [] [] [] false None) [Uint b] with Ret (inl r) => r | _ => [] end.

(** DropField writes every row again without the field, and leaves the read
    cache alone: GetById answers the record of the old layout. DropType leaves
    the cache alone too, and GetById answers a row of a type that is gone. *)
Theorem drops_leave_the_cache :
  answers [(1, CreateType pair_def); (2, Create 1 (pair_id 7) (pair_record 5 6)); (3, DropField 1 1);
           (4, GetById 1 (pair_id 7)); (5, Select 1 always_true 0)] db_new =
    Ret [TypeCreated 1; ResOk; ResOk; ResGot (pair_record 5 6); ResGot (emit (short_record 6))] /\
  answers [(1, CreateType pair_def); (2, Create 1 (pair_id 7) (pair_record 5 6)); (3, DropType 1);
           (4, GetById 1 (pair_id 7)); (5, Describe 1)] db_new =
    Ret [TypeCreated 1; ResOk; ResOk; ResGot (pair_record 5 6); ResNotFound].
Proof. split; by vm_compute. Qed.

(** ** Foreign keys *)

(** A foreign key of the type [def] with RESTRICT, a parent, and a child with
    [rec]. *)
Definition fk_log (def rec : bytes) : list (Z * DbOp) :=
  [(1, CreateType pair_def); (2, CreateType def); (3, AddForeignKey 2 1 1 1); (4, Create 1 (pair_id 7) (pair_record 5 6));
   (5, Create 2 (pair_id 9) rec)].
Definition child_def : bytes := encode_type_def [117] child_fields.

(** DropIndex drops the index that the actions of a foreign key look children up
    in. The Delete that RESTRICT refused is then acknowledged, and the child
    refers to a row that is gone. *)
Theorem drop_index_disables_foreign_key :
  answers (fk_log child_def (child_record (pair_id 7)) ++
           [(6, Delete 1 (pair_id 7)); (7, DropIndex 2 [1]); (8, Delete 1 (pair_id 7));
            (9, GetById 1 (pair_id 7)); (10, GetById 2 (pair_id 9))]) db_new =
    Ret [TypeCreated 1; TypeCreated 2; ResOk; ResOk; ResOk; ResConstraint (RestrictViolated 2 1 1); ResOk; ResOk;
         ResNotFound; ResGot (child_record (pair_id 7))].
Proof. by vm_compute. Qed.

Definition wide_fields : list Field := [mkField 1 [97] (Char 20) true].
Definition wide_def : bytes := encode_type_def [117] wide_fields.
Definition wide_record (b : bytes) : bytes :=
  match encode (mkObjectType 2 [117] 1 wide_fields [] [] [] [] [] [] [] [] false None) [Blob b] with Ret (inl r) => r | _ => [] end.

(** A foreign key on a field of more than 16 bytes: the check on Create looks at
    the first 16, the one on Delete at the whole field, so that RESTRICT does
    not see the child. *)
Theorem wide_foreign_key_is_missed :
  answers (fk_log wide_def (wide_record (pair_id 7 ++ [1; 1; 1; 1])) ++ [(6, Delete 1 (pair_id 7)); (7, GetById 1 (pair_id 7))]) db_new =
    Ret [TypeCreated 1; TypeCreated 2; ResOk; ResOk; ResOk; ResOk; ResNotFound].
Proof. by vm_compute. Qed.

Definition default_child : ObjectType := mkObjectType 2 [117] 1 child_fields [1] [] [(1, 1, 4)] [] [] [] [] [(1, pair_id 5)] false None.

(** SET DEFAULT writes the declared default without looking it up: the child of
    the deleted row then refers to a row that was never there. *)
Theorem set_default_is_not_looked_up :
  answers [(1, Create 1 (pair_id 7) (pair_record 5 6)); (2, Create 2 (pair_id 9) (child_record (pair_id 7)));
           (3, Delete 1 (pair_id 7)); (4, Select 2 always_true 0); (5, GetById 1 (pair_id 5))]
      (db_empty (mkCatalog [pair_type; default_child] 3 [])) =
    Ret [ResOk; ResOk; ResOk; ResGot (emit (child_record (pair_id 5))); ResNotFound].
Proof. by vm_compute. Qed.

(** ** Indexes and answers *)

(** [a = "ab"]. *)
Definition char_prog : bytes := 1 :: le_bytes 2 1 ++ 17 :: le_bytes 2 2 ++ [97; 98] ++ [3].
Definition char_queries (n : Z) : list (Z * DbOp) :=
  [(n, Query 1 [mkPred 1 0 [97; 98]]); (n + 1, QueryRows 1 [(1, [97; 98])] char_prog 0 [])].

(** an index changes the answer of a query on a CHAR column. A stored value
    with a trailing space equals the literal without it under the comparison
    of a scan, and not under the byte equality of the index: the row is found
    before CreateIndex, and by Query and QueryRows no longer after it. *)
Theorem index_changes_answer :
  answers ([(1, CreateType wide_def); (2, Create 1 (pair_id 9) (wide_record [97; 98; 32]))] ++ char_queries 3 ++
           [(5, CreateIndex 1 1)] ++ char_queries 6 ++ [(8, Select 1 char_prog 0)]) db_new =
    Ret [TypeCreated 1; ResOk; ResGot (pair_id 9); ResGot (emit (wide_record [97; 98; 32])); ResOk; ResGot []; ResGot [];
         ResGot (emit (wide_record [97; 98; 32]))].
Proof. by vm_compute. Qed.

(** ** NULL *)

Definition null_record : bytes := match encode pair_type [Uint 1; Null] with Ret (inl r) => r | _ => [] end.

(** [b <> 5]. *)
Definition ne_prog : bytes := 1 :: le_bytes 2 2 ++ 0 :: le_bytes 16 5 ++ [4].

(** COUNT and GROUP BY with several aggregates use the compiled filter, Select
    and GROUP BY with one the interpreter. On a row with a NULL they disagree:
    Select returns the row, COUNT counts none; one GROUP BY has the group, the
    other is empty. *)
Theorem count_disagrees_with_select :
  answers [(1, CreateType pair_def); (2, Create 1 (pair_id 7) null_record); (3, Select 1 ne_prog 0); (4, Aggregate 1 ne_prog 0 1 []);
           (5, GroupAggregate 1 ne_prog 1 0 0 [] [] None None); (6, GroupAggregateMulti 1 ne_prog 1 [(0, 0)] [] [] None None)] db_new =
    Ret [TypeCreated 1; ResOk; ResGot (emit null_record); got_i128 0;
         ResGot (le_bytes 4 1 ++ emit (le_bytes 4 1) ++ le_bytes 16 1); ResGot (le_bytes 4 0)].
Proof. by vm_compute. Qed.
